(* ===== verification/_CoqProject ===== *)
-Q . S2P
Prelude.v
Order.v
Ladder.v
Book.v
Replica.v
BookInv.v
BookMatch.v
BookRest.v
BookFlow.v
BookAuction.v
BookSubmit.v
BookPriority.v
BookPegs.v
BookDepth.v
Sample.v
BookProps.v
BookServices.v
BookOrders.v
Findings.v
BookEmit.v
MatchingEngine.v
Bytes.v
Buffer.v
FeedWire.v
PipeIO.v
FeedPublisher.v
FeedHelper.v
HelperCodec.v
EventLoop.v
HelperClient.v
IngressHelper.v
WsFrame.v
HttpParser.v
HttpResume.v
HttpRoundtrip.v
HttpMessage.v
HttpStream.v
HttpServer.v
HttpServerProps.v
Base64.v
Sha1.v
WsHandshake.v
WsConnection.v
WsStream.v
WsConnectionProps.v
TokenCache.v
Uuid.v
AuthClient.v
EngineTotal.v
TradingEngine.v
TradingFifo.v
TradingIds.v
TradingLive.v
TradingProps.v
StorageHelper.v
HelperPrograms.v
StorageClient.v
StorageProps.v
StorageBook.v
StoragePipe.v
OrderForm.v
AppLogs.v
AppServer.v
AppServerInv.v
AppServerProps.v
Config.v
ConfigProps.v
Settings.v
Logging.v
Listener.v
AppDrain.v
