(* ===== verification/Prelude.v ===== *)
(** * codicis: a central limit order book, verified

    codicis is an order-matching server in C++.  Orders reach it over HTTP and
    WebSocket connections; a matching engine keeps one order book per symbol;
    every change of a book is an event, numbered and written to a feed that
    child processes read to keep replicas and serve market data; other child
    processes (storage, authentication) are asked over pipes.  One event loop
    drives everything, without threads.  This library models the parts that
    carry the program's logic and proves what makes them correct.

    ** The parts and their files

    - This file: the result monad ([Ok], or a [fault]: a missing key, which the
      code reports by an exception, a loop out of fuel, signed overflow or an
      invalidated iterator), sums over lists and
      finite maps, the tactics [case_if] and [bool_split], the hint database
      [codicis].
    - [Order] ([core/types.h], [core/order.h], [core/order.cc],
      [core/book_event.h]): sides, order types, flags as bit masks, orders,
      trades, events, [Normalize].
    - [Ladder] ([core/order_book.cc], [PriceLadder]): the dense array of price
      levels with its base price and lazily cached best price.
    - [Book] ([core/order_book.cc], [OrderBook::Impl]): one [Record Impl] with
      the containers of the class and one definition per method: matching,
      resting and the resident window, stops, pegged orders, auctions,
      contingent orders, positions, cancel, expiry, [submit].
    - [Replica] ([feed/book_replica.cc]): the replica and its event application.
    - [BookInv], [BookMatch], [BookRest], [BookFlow], [BookAuction],
      [BookSubmit], [BookPriority], [BookPegs], [BookDepth], [BookEmit]: the
      book's invariant and what each group of methods does to it.  [Sample]:
      concrete books.  [BookProps], [BookServices], [BookOrders]: the book's
      properties.  [Findings]: concrete runs in which the book departs from its
      documentation.
    - [MatchingEngine] ([core/matching_engine.cc]): the books by symbol and the
      numbered feed.  [EngineTotal]: what it promises its callers.
    - [TradingEngine] ([engine/trading_engine.cc]): the coordinator between
      clients, the matching engine and storage.  [TradingFifo], [TradingIds],
      [TradingLive], [TradingProps]: its queue, the ids it assigns, its progress,
      its properties and defects.
    - [StorageClient] ([ipc/storage_client.cc]) and [StorageHelper]
      ([tools/storage_helper/main.cc]): the storage protocol and the record
      behind it.  [StorageProps], [StorageBook]: their properties, and where the
      trading engine's reports and the record come apart.  [StoragePipe]: client,
      codec, helper program and record composed.
    - [Bytes]: bytes, little- and big-endian integers, decimal, searching, and
      the class [ByteQueue], what decoders need of a receive buffer.  [Buffer]
      ([util/buffer.h]): the compacting buffer, an instance of it.
    - [FeedWire] ([feed/feed_wire.cc]), [FeedPublisher]
      ([feed/feed_publisher.cc]), [FeedHelper] ([tools/feed_helper/main.cc]),
      [PipeIO]: the feed from the engine to a child process and its subscribers.
    - [HelperPrograms] ([tools/storage_helper], [tools/auth_helper],
      [tools/ingress_helper], their [main.cc]): the main loops of the helpers,
      the authentication rule, the ingress input.
    - [HelperCodec] ([ipc/helper_message.h], [ipc/helper_codec.cc]): the class
      [HelperCodec], what a codec promises its user, and its two instances.
      [EventLoop] ([event/event_loop.cc]): registrations, timers, the loop.
      [HelperClient] ([ipc/helper_client.cc]): pipelined requests over any codec.
      [IngressHelper] ([ipc/ingress_helper.cc]): requests a child initiates.
    - [WsFrame] ([net/ws_frame.cc]): WebSocket frames.  [HttpParser]
      ([net/http_parser.cc]): the incremental request parser; [HttpResume] and
      [HttpRoundtrip] its proofs.  [HttpMessage] ([net/http_message.cc],
      [net/router.cc]): responses and routes.  [HttpServer]
      ([net/http_server.cc]): connections; [HttpStream] and [HttpServerProps] its
      proofs.
    - [Base64], [Sha1] ([util/base64.cc], [util/sha1.cc]) and [WsHandshake]
      ([net/ws_handshake.cc]): the opening handshake.  [WsConnection]
      ([net/websocket.cc]): connections and their server; [WsStream] says what a
      byte stream tells, [WsConnectionProps] that the server tells it.
      [Listener] ([net/listener.cc], [net/socket_util.h]): accepting, and the
      start of the feed helper.
    - [Config] ([config/*.cc], [config/parse_util.h]) and [Settings]
      ([app/options.cc], the configuration reads of [AppServer::start]):
      options, command line, file, merge, getters and what the server reads;
      [ConfigProps] the proofs.  [Logging] ([util/logging.cc]): levels.
    - [TokenCache] ([auth/token_cache.cc]): the bounded credential cache.
      [AuthClient] ([auth/auth_client.cc]): the helper pool behind two caches,
      proved against the record [CredentialCache], which [token_cache] fills.
      [Uuid] ([util/uuid.cc]): identifiers.
    - [OrderForm] and [AppServer] ([app/server.cc]): forms, bodies, routes,
      handlers and sessions of the server.  [AppLogs], [AppServerInv],
      [AppServerProps]: its invariant, properties and defects.  [AppDrain]:
      the wait for storage at start-up and the draining at shutdown, as parts of
      a session.

    ** What the theorems show

    - The book: a book reachable through the public interface (submitted orders
      have fresh ids, no negative display size and are not both hidden and
      iceberg) is well formed (queues, totals, cached prices, reservations, one
      place per id), and every operation on it returns.  Matching is price-time
      priority (equal to a reference matcher on plain orders), conserves quantity,
      is complete, and in continuous trading respects self-trade prevention;
      stops cascade until none is due; an auction clears the optimal volume at one
      price; pegs rest where a separate specification of their price puts them;
      a cancel removes exactly its order; queries report the resting orders;
      fill-or-kill, post-only, reduce-only and rejected orders do what they
      promise.
    - The feed: for books without a window ([mem_levels] is 0; the server always
      sets one) replicas that apply the events hold exactly the books, through
      the engine's numbering, the wire encoding, any split into reads, and the
      helper process.  With or without a window, the publisher's buffer is bounded
      and what it writes is whole events in order; a replica that saw no gap missed
      nothing in between.
    - The pipes: messages survive encoding and any split, for both codecs; the
      binary decoder accepts only encodings; a client answers every request
      exactly once, whatever the descriptors do, and its timeout sweep fails
      exactly the overdue; timers with positive periods fire once, in order, and
      none is left due.  The ingress client dispatches what its child wrote, once
      and in order (at the end of the input it may leave out the last of it), and
      its replies carry the ids of their requests; a helper program answers its
      input.
    - Configuration: what is written on the command line or in a file is read
      back by every getter, with the documented precedence; a configuration that
      loads gives the server settings within the ranges it relies on.
    - Trading: orders are placed in arrival order, each once, after storage
      acknowledged them.  While the storage helper lives and callers and storage
      keep their promises ([op_ok]): every operation returns and keeps the matching
      engine reachable; an order that waits, waits for an outstanding reply; only
      the owner cancels, and only that order; a placement's trades and fills are
      reported exactly.  The record holds what was reported, and pulls return its
      best levels.
    - Authentication: the cache's linked list never breaks and answers as a list
      would; a credential is granted only what a live helper's successful reply
      for it granted, before its deadline, with one request at a time and every
      resolution answered once.
    - The network: WebSocket frames, HTTP requests and responses are read back as
      written; the frame decoder's limits hold for all input; the HTTP parser
      always returns and, when it asks for more bytes, goes on as if they had been
      there from the start; the server answers the requests of a connection in
      order; a WebSocket connection tells the application the messages of its
      bytes, in order and without a gap, all of them while it is open, then its
      end.
    - The application: every event is handled (under the promises of [event_ok]);
      every request is answered once or waits for a named reply; the order counters
      balance once the ingress messages that are rejected without being counted as
      received are added; the engine is asked only what an authenticated sender
      asked for.

    ** How the model is written

    Integers are [Z].  Prices and quantities, and their sums (level totals,
    positions, remaining and filled quantities, peg prices), are unbounded: the
    theorems hold of the code while its 64-bit sums do not overflow, which nothing
    in the code prevents ([Findings.level_total_exceeds_64_bits]).  Memory is
    assumed to suffice ([Findings.ladder_allocates_span]).  Codecs keep machine
    widths and wrap where the code wraps; the parsers of signed 64-bit decimals
    return the fault [Overflow] where the code's signed arithmetic overflows, and
    theorems that need it say how long numbers may be.  Containers
    are [gmap], [gset] and lists; the iteration order of an unordered map is that
    of [map_to_list], and theorems about it are up to permutation.

    Loops that are not structural take fuel.  The fuel is part of the modelled
    operation ([match_fuel] for a level's queue, one round per parked stop plus
    one for the cascade, one level per pending contingent order for [submit],
    the queue's length for an auction, one pass per buffered byte for decode
    loops, three passes for the HTTP parser), and the theorems say that the
    operations return [Ok] with it.

    System calls are outside the program.  A read or write loop is given the
    results its calls return, in order, as a script ([PipeIO]); the statements
    quantify over all scripts (or all that a kernel can produce: no more bytes
    than asked for).  Timer handlers and the poller are parameters of
    [EventLoop].  A callback of a helper client is an entry in a log of answers;
    the trading engine's callbacks are data ([Waiter]) that a reply runs.  The
    engine and the authentication client log the callbacks they call; the
    application runs the new entries after each call ([AppLogs] proves that they
    are the callbacks that were due, in order).

    ** Not modelled

    The launching of helpers and opening of listeners in [AppServer::start]; the
    epoll and kqueue backends, process creation, signal handling and the clocks,
    which are system calls. *)

From stdpp Require Export gmap sorting list strings.
From Stdlib Require Export ZArith Lia.
#[global] Open Scope Z_scope.

(** ** Faults and the result monad

    The code signals a missing key with [unordered_map::at], which throws
    [std::out_of_range]; a loop whose body is not structurally decreasing gets
    fuel; where the server parses numbers or iterates over a container that a
    call in the loop changes, signed overflow and the use of an invalidated
    iterator, which the language leaves undefined, are faults too.  All are
    values of [fault], so that "the operation returns" is a theorem about [Ok]
    and never an assumption. *)
Inductive fault := OutOfRange | OutOfFuel | Overflow | Dangling.

Inductive res (A : Type) :=
  | Ok (a : A)
  | Err (e : fault).
Arguments Ok {A} a.
Arguments Err {A} e.

#[export] Instance res_ret : MRet res := λ A x, Ok x.
#[export] Instance res_bind : MBind res := λ A B f m,
  match m with Ok a => f a | Err e => Err e end.

(** A run that returned took each of its steps. *)
Lemma bind_Ok {A C} (m : res A) (k : A → res C) r :
  (m ≫= k) = Ok r → ∃ x, m = Ok x ∧ k x = Ok r.
Proof. destruct m; simpl; [eauto|done]. Qed.

(** [at_] is [unordered_map::at]: the stored value, or the exception. *)
Definition at_or_throw {A} (x : option A) : res A :=
  match x with Some a => Ok a | None => Err OutOfRange end.

(** Fold a fallible step over a list, left to right. *)
Fixpoint res_foldl {A B} (f : B → A → res B) (acc : B) (l : list A) : res B :=
  match l with
  | [] => Ok acc
  | x :: l => acc' ← f acc x; res_foldl f acc' l
  end.

Lemma res_foldl_app {A B} (f : B → A → res B) acc l1 l2 :
  res_foldl f acc (l1 ++ l2) = (acc' ← res_foldl f acc l1; res_foldl f acc' l2).
Proof.
  revert acc. induction l1 as [|x l1 IH]; intros acc; [done|].
  simpl. destruct (f acc x); simpl; [apply IH|done].
Qed.

(** The invariant rule for [res_foldl]: the invariant is indexed by the list
    still to be processed. *)
Lemma res_foldl_inv {A B} (f : B → A → res B) (P : B → list A → Prop) :
  (∀ acc x l, P acc (x :: l) → ∃ acc', f acc x = Ok acc' ∧ P acc' l) →
  ∀ l acc, P acc l → ∃ acc', res_foldl f acc l = Ok acc' ∧ P acc' [].
Proof.
  intros Hstep l. induction l as [|x l IH]; intros acc Hacc; simpl; [by eauto|].
  destruct (Hstep acc x l Hacc) as (acc' & -> & Hacc'). simpl. by apply IH.
Qed.

(** ** Tactics *)
(** Split a boolean condition of the code into the proposition it decides. *)
Ltac bool_split :=
  repeat match goal with
  | H : (_ && _)%bool = true |- _ => apply andb_true_iff in H as [? ?]
  | H : (_ || _)%bool = false |- _ => apply orb_false_iff in H as [? ?]
  | H : negb _ = true |- _ => apply negb_true_iff in H
  | H : negb _ = false |- _ => apply negb_false_iff in H
  | H : (_ <? _) = true |- _ => apply Z.ltb_lt in H
  | H : (_ <? _) = false |- _ => apply Z.ltb_ge in H
  | H : (_ <=? _) = true |- _ => apply Z.leb_le in H
  | H : (_ <=? _) = false |- _ => apply Z.leb_gt in H
  | H : (_ =? _) = true |- _ => apply Z.eqb_eq in H
  | H : (_ =? _) = false |- _ => apply Z.eqb_neq in H
  end.

(** Case on the innermost [if] of the goal, keeping its equation. *)
Ltac case_if :=
  match goal with
  | |- context [if ?c then _ else _] => destruct c eqn:?
  end; bool_split.

Create HintDb codicis.

(** ** Sums over lists and finite maps *)
Fixpoint zsum {A} (f : A → Z) (l : list A) : Z :=
  match l with [] => 0 | x :: l => f x + zsum f l end.

Lemma zsum_app {A} (f : A → Z) l1 l2 : zsum f (l1 ++ l2) = zsum f l1 + zsum f l2.
Proof. induction l1; simpl; lia. Qed.

Lemma zsum_ext {A} (f g : A → Z) l : (∀ x, x ∈ l → f x = g x) → zsum f l = zsum g l.
Proof.
  induction l as [|x l IH]; intros H; [done|]. simpl.
  rewrite H by set_solver. rewrite IH; [done|set_solver].
Qed.

Lemma zsum_nonneg {A} (f : A → Z) l : (∀ x, x ∈ l → 0 ≤ f x) → 0 ≤ zsum f l.
Proof.
  induction l as [|x l IH]; intros H; [done|]. simpl.
  assert (0 ≤ f x) by (apply H; set_solver).
  assert (0 ≤ zsum f l) by (apply IH; set_solver). lia.
Qed.

Lemma zsum_perm {A} (f : A → Z) l1 l2 : l1 ≡ₚ l2 → zsum f l1 = zsum f l2.
Proof. induction 1; simpl; lia. Qed.

Lemma zsum_pos_nil {A} (f : A → Z) l :
  (∀ x, x ∈ l → 0 < f x) → zsum f l = 0 → l = [].
Proof.
  destruct l as [|x l]; [done|]. intros H. simpl.
  assert (0 < f x) by (apply H; set_solver).
  assert (0 ≤ zsum f l) by (apply zsum_nonneg; intros y Hy;
    assert (0 < f y) by (apply H; set_solver); lia). lia.
Qed.

Lemma zsum_elem_le {A} (f : A → Z) l x :
  (∀ y, y ∈ l → 0 ≤ f y) → x ∈ l → f x ≤ zsum f l.
Proof.
  induction l as [|y l IH]; intros Hpos Hx; [set_solver|].
  simpl. apply elem_of_cons in Hx as [->|Hx].
  - assert (0 ≤ zsum f l) by (apply zsum_nonneg; set_solver). lia.
  - assert (0 ≤ f y) by (apply Hpos; set_solver).
    assert (f x ≤ zsum f l) by (apply IH; set_solver). lia.
Qed.

(** Sum of a measure over a finite map; [gmap] iteration order is irrelevant. *)
Definition map_sum {V} (f : V → nat) (m : gmap Z V) : nat :=
  map_fold (λ _ v acc, (f v + acc)%nat) 0%nat m.

Lemma map_sum_empty {V} (f : V → nat) : map_sum f ∅ = 0%nat.
Proof. apply map_fold_empty. Qed.

Lemma map_sum_insert {V} (f : V → nat) m k v :
  m !! k = None → map_sum f (<[k:=v]> m) = (f v + map_sum f m)%nat.
Proof.
  intros Hk. unfold map_sum.
  rewrite (map_fold_insert_L (λ _ v acc, (f v + acc)%nat)); [done| |done]. lia.
Qed.

Lemma map_sum_delete {V} (f : V → nat) m k v :
  m !! k = Some v → map_sum f m = (f v + map_sum f (delete k m))%nat.
Proof.
  intros Hk. rewrite <-(insert_delete_id m k v Hk) at 1.
  by rewrite map_sum_insert by apply lookup_delete_eq.
Qed.

(** Replacing the value at a key moves the sum by the difference of the two. *)
Lemma map_sum_update {V} (f : V → nat) m k v :
  (map_sum f (<[k:=v]> m) + from_option f 0 (m !! k) = f v + map_sum f m)%nat.
Proof.
  destruct (m !! k) as [w|] eqn:Hk; simpl.
  - rewrite <-insert_delete_eq. rewrite map_sum_insert by apply lookup_delete_eq.
    rewrite (map_sum_delete f m k w Hk). lia.
  - rewrite map_sum_insert by done. lia.
Qed.

Lemma map_sum_lookup_le {V} (f : V → nat) m k v :
  m !! k = Some v → (f v ≤ map_sum f m)%nat.
Proof. intros Hk. rewrite (map_sum_delete f m k v Hk). lia. Qed.

(** Integer-valued sums over a finite map. *)
Definition map_zsum {V} (f : V → Z) (m : gmap Z V) : Z :=
  map_fold (λ _ v acc, f v + acc) 0 m.

Lemma map_zsum_empty {V} (f : V → Z) : map_zsum f ∅ = 0.
Proof. apply map_fold_empty. Qed.

Lemma map_zsum_insert {V} (f : V → Z) m k v :
  m !! k = None → map_zsum f (<[k:=v]> m) = f v + map_zsum f m.
Proof.
  intros Hk. unfold map_zsum.
  rewrite (map_fold_insert_L (λ _ v acc, f v + acc)); [done| |done]. lia.
Qed.

Lemma map_zsum_delete {V} (f : V → Z) m k :
  map_zsum f (delete k m) = map_zsum f m - from_option f 0 (m !! k).
Proof.
  destruct (m !! k) as [v|] eqn:Hk; simpl.
  - rewrite <-(insert_delete_id m k v Hk) at 2.
    rewrite map_zsum_insert by apply lookup_delete_eq. lia.
  - rewrite delete_id by done. lia.
Qed.

Lemma map_zsum_update {V} (f : V → Z) m k v :
  map_zsum f (<[k:=v]> m) = map_zsum f m - from_option f 0 (m !! k) + f v.
Proof.
  rewrite <-insert_delete_eq. rewrite map_zsum_insert by apply lookup_delete_eq.
  rewrite map_zsum_delete. lia.
Qed.

Lemma map_zsum_nonneg {V} (f : V → Z) m :
  (∀ k v, m !! k = Some v → 0 ≤ f v) → 0 ≤ map_zsum f m.
Proof.
  induction m as [|k v m Hk IH] using map_ind; intros H.
  - by rewrite map_zsum_empty.
  - rewrite map_zsum_insert by done.
    assert (0 ≤ f v) by (apply (H k); apply lookup_insert_eq).
    assert (0 ≤ map_zsum f m); [|lia]. apply IH. intros j w Hj. apply (H j).
    rewrite lookup_insert_ne; [done|]. intros ->. congruence.
Qed.

Lemma map_zsum_ge {V} (f : V → Z) m k v :
  (∀ k v, m !! k = Some v → 0 ≤ f v) → m !! k = Some v → f v ≤ map_zsum f m.
Proof.
  intros H Hk. pose proof (map_zsum_delete f m k) as Hd. rewrite Hk in Hd. simpl in Hd.
  assert (0 ≤ map_zsum f (delete k m)); [|lia].
  apply map_zsum_nonneg. intros j w Hj. apply (H j).
  apply lookup_delete_Some in Hj. tauto.
Qed.

Lemma map_zsum_ext {V} (f g : V → Z) m :
  (∀ k v, m !! k = Some v → f v = g v) → map_zsum f m = map_zsum g m.
Proof.
  induction m as [|k v m Hk IH] using map_ind; intros H.
  - by rewrite !map_zsum_empty.
  - rewrite !map_zsum_insert by done. f_equal; [apply (H k), lookup_insert_eq|].
    apply IH. intros j w Hj. apply (H j).
    rewrite lookup_insert_ne; [done|]. intros ->. congruence.
Qed.

Lemma map_zsum_fmap {V W} (f : W → Z) (g : V → W) (m : gmap Z V) :
  map_zsum f (g <$> m) = map_zsum (λ v, f (g v)) m.
Proof.
  induction m as [|k v m Hk IH] using map_ind.
  - by rewrite fmap_empty, !map_zsum_empty.
  - rewrite fmap_insert, !map_zsum_insert; [by rewrite IH|done|].
    by rewrite lookup_fmap, Hk.
Qed.

(** ** Lists *)
Lemma NoDup_middle {A} (l1 l2 : list A) x :
  NoDup (l1 ++ x :: l2) ↔ (x ∉ (l1 ++ l2)) ∧ NoDup (l1 ++ l2).
Proof. rewrite <-NoDup_cons. by rewrite Permutation_middle. Qed.

Lemma elem_of_middle {A} (l1 l2 : list A) (x y : A) :
  y ∈ (l1 ++ x :: l2) ↔ y = x ∨ y ∈ (l1 ++ l2).
Proof. set_solver. Qed.

Lemma omap_ext_in {A B} (f g : A → option B) (l : list A) :
  (∀ x, x ∈ l → f x = g x) → omap f l = omap g l.
Proof.
  induction l as [|x l IH]; intros H; [done|]. cbn. rewrite (H x) by set_solver.
  fold (omap f l) (omap g l). rewrite IH by set_solver. done.
Qed.

(** Erase the first occurrence of an id: what [list::erase] at the order's
    stored position does on a queue without duplicates. *)
Fixpoint remove_id (i : Z) (l : list Z) : list Z :=
  match l with
  | [] => []
  | x :: l => if x =? i then l else x :: remove_id i l
  end.

Lemma remove_id_split i l :
  i ∈ l → ∃ l1 l2, l = l1 ++ i :: l2 ∧ remove_id i l = l1 ++ l2.
Proof.
  induction l as [|x l IH]; intros Hi; [set_solver|]. simpl.
  destruct (Z.eqb_spec x i) as [->|Hne].
  - by exists [], l.
  - apply elem_of_cons in Hi as [->|Hi]; [done|].
    destruct (IH Hi) as (l1 & l2 & -> & ->). by exists (x :: l1), l2.
Qed.

(** ** Maps in key order

    The iteration order of [std::map]. *)
Definition key_le {A} (x y : Z * A) : Prop := x.1 ≤ y.1.
#[export] Instance key_le_dec {A} (x y : Z * A) : Decision (key_le x y) := decide (x.1 ≤ y.1).
Definition by_key {A} (m : gmap Z A) : list (Z * A) := merge_sort key_le (map_to_list m).

Lemma by_key_elem {A} (m : gmap Z A) i x : (i, x) ∈ by_key m ↔ m !! i = Some x.
Proof. unfold by_key. rewrite merge_sort_Permutation. apply elem_of_map_to_list. Qed.

Lemma by_key_sorted {A} (m : gmap Z A) : StronglySorted (λ x y, x.1 < y.1) (by_key m).
Proof.
  unfold by_key.
  assert (NoDup (merge_sort key_le (map_to_list m)).*1) as Hnd.
  { rewrite merge_sort_Permutation. apply NoDup_fst_map_to_list. }
  assert (StronglySorted key_le (merge_sort key_le (map_to_list m))) as Hs.
  { apply StronglySorted_merge_sort; [|intros x y; unfold key_le; lia]. intros x y z. unfold key_le. lia. }
  induction Hs as [|x l Hs IH Hf]; [constructor|]. apply NoDup_cons in Hnd as [Hx Hnd].
  constructor; [by apply IH|]. rewrite Forall_forall in *. intros y Hy. specialize (Hf y Hy). unfold key_le in Hf.
  assert (x.1 ≠ y.1); [|lia]. intros Heq. apply Hx. rewrite Heq. apply list_elem_of_fmap. eauto.
Qed.
