(* ===== verification/Order.v ===== *)
(** * The order model

    Data and canonicalisation of an order: [types.h], [order.h], [order.cc],
    [book_event.h] and the value types of [order_book.h].

    Prices, quantities and timestamps are [int64_t] in the code and ids,
    sequence numbers and client ids [uint64_t]; they are integers here.  Signed
    overflow is undefined behaviour in the source, so every theorem speaks of
    the executions in which none happens. *)

From S2P Require Import Prelude.

(** ** types.h *)
Abbreviation Ticks := Z (only parsing).
Abbreviation Quantity := Z (only parsing).
Abbreviation OrderId := Z (only parsing).
Abbreviation ClientId := Z (only parsing).
Abbreviation SeqNo := Z (only parsing).
Abbreviation Timestamp := Z (only parsing).
Abbreviation Symbol := string (only parsing).

Inductive Side := Buy | Sell.
#[export] Instance Side_eq_dec : EqDecision Side.
Proof. solve_decision. Defined.

Definition Opposite (s : Side) : Side :=
  match s with Buy => Sell | Sell => Buy end.

(** ** order.h *)
Inductive OrdType := Market | Limit.
#[export] Instance OrdType_eq_dec : EqDecision OrdType.
Proof. solve_decision. Defined.

Inductive Tif := GTC | DAY | GTD | IOC | FOK | GTX.
#[export] Instance Tif_eq_dec : EqDecision Tif.
Proof. solve_decision. Defined.

Inductive OrderFlag :=
  | kNone | kHidden | kPostOnly | kReduceOnly | kAon | kIceberg
  | kDiscretion | kMoo | kLoo | kMoc | kLoc | kOpg.

(** The bit of each flag ([1u << k]). *)
Definition flag_bit (f : OrderFlag) : Z :=
  match f with
  | kNone => 0
  | kHidden => Z.shiftl 1 0
  | kPostOnly => Z.shiftl 1 1
  | kReduceOnly => Z.shiftl 1 2
  | kAon => Z.shiftl 1 3
  | kIceberg => Z.shiftl 1 4
  | kDiscretion => Z.shiftl 1 5
  | kMoo => Z.shiftl 1 6
  | kLoo => Z.shiftl 1 7
  | kMoc => Z.shiftl 1 8
  | kLoc => Z.shiftl 1 9
  | kOpg => Z.shiftl 1 10
  end.

Definition HasFlag (mask : Z) (f : OrderFlag) : bool :=
  negb (Z.land mask (flag_bit f) =? 0).

Definition SetFlag (mask : Z) (f : OrderFlag) : Z := Z.lor mask (flag_bit f).

Inductive TriggerKind := KStop | KTrailAmount | KTrailPercent.

Record TriggerSpec := mkTrigger {
  tr_kind : TriggerKind;
  tr_stop_price : Ticks;
  tr_trail_by : Ticks;
  tr_high_water : Ticks;
  tr_triggered : bool;
}.

Inductive PegRef := RPrimary | RMarket | RMidpoint.

Record PegSpec := mkPeg {
  pg_ref : PegRef;
  pg_offset : Ticks;
  pg_cap_limit : Ticks;
}.

Inductive LinkRole :=
  | OcoLeg | OtoParent | OtoChild
  | BracketParent | BracketTakeProfit | BracketStopLoss.

Record LinkSpec := mkLink {
  lk_role : LinkRole;
  lk_group_id : Z;
}.

Record Order := mkOrder {
  o_id : OrderId;
  o_client_id : ClientId;
  o_side : Side;
  o_type : OrdType;
  o_tif : Tif;
  o_flags : Z;
  o_price : Ticks;
  o_qty : Quantity;
  o_leaves : Quantity;
  o_filled : Quantity;
  o_display_qty : Quantity;
  o_min_qty : Quantity;
  o_discretion : Ticks;
  o_seq : SeqNo;
  o_rank : SeqNo;
  o_expiry_ns : Timestamp;
  o_trigger : option TriggerSpec;
  o_peg : option PegSpec;
  o_link : option LinkSpec;
}.

(** The member initialisers of the three structs. *)
Definition default_order : Order :=
  mkOrder 0 0 Buy Limit GTC 0 0 0 0 0 0 0 0 0 0 0 None None None.

(** Field assignment. *)
Definition set_tr_stop_price v (x : TriggerSpec) : TriggerSpec :=
  mkTrigger (tr_kind x) v (tr_trail_by x) (tr_high_water x) (tr_triggered x).
Definition set_tr_high_water v (x : TriggerSpec) : TriggerSpec :=
  mkTrigger (tr_kind x) (tr_stop_price x) (tr_trail_by x) v (tr_triggered x).
Definition set_tr_triggered v (x : TriggerSpec) : TriggerSpec :=
  mkTrigger (tr_kind x) (tr_stop_price x) (tr_trail_by x) (tr_high_water x) v.
Definition set_o_id v (x : Order) : Order :=
  mkOrder v (o_client_id x) (o_side x) (o_type x) (o_tif x) (o_flags x)
    (o_price x) (o_qty x) (o_leaves x) (o_filled x) (o_display_qty x)
    (o_min_qty x) (o_discretion x) (o_seq x) (o_rank x) (o_expiry_ns x)
    (o_trigger x) (o_peg x) (o_link x).
Definition set_o_client_id v (x : Order) : Order :=
  mkOrder (o_id x) v (o_side x) (o_type x) (o_tif x) (o_flags x) (o_price x)
    (o_qty x) (o_leaves x) (o_filled x) (o_display_qty x) (o_min_qty x)
    (o_discretion x) (o_seq x) (o_rank x) (o_expiry_ns x) (o_trigger x)
    (o_peg x) (o_link x).
Definition set_o_type v (x : Order) : Order :=
  mkOrder (o_id x) (o_client_id x) (o_side x) v (o_tif x) (o_flags x)
    (o_price x) (o_qty x) (o_leaves x) (o_filled x) (o_display_qty x)
    (o_min_qty x) (o_discretion x) (o_seq x) (o_rank x) (o_expiry_ns x)
    (o_trigger x) (o_peg x) (o_link x).
Definition set_o_tif v (x : Order) : Order :=
  mkOrder (o_id x) (o_client_id x) (o_side x) (o_type x) v (o_flags x)
    (o_price x) (o_qty x) (o_leaves x) (o_filled x) (o_display_qty x)
    (o_min_qty x) (o_discretion x) (o_seq x) (o_rank x) (o_expiry_ns x)
    (o_trigger x) (o_peg x) (o_link x).
Definition set_o_flags v (x : Order) : Order :=
  mkOrder (o_id x) (o_client_id x) (o_side x) (o_type x) (o_tif x) v
    (o_price x) (o_qty x) (o_leaves x) (o_filled x) (o_display_qty x)
    (o_min_qty x) (o_discretion x) (o_seq x) (o_rank x) (o_expiry_ns x)
    (o_trigger x) (o_peg x) (o_link x).
Definition set_o_price v (x : Order) : Order :=
  mkOrder (o_id x) (o_client_id x) (o_side x) (o_type x) (o_tif x) (o_flags x)
    v (o_qty x) (o_leaves x) (o_filled x) (o_display_qty x) (o_min_qty x)
    (o_discretion x) (o_seq x) (o_rank x) (o_expiry_ns x) (o_trigger x)
    (o_peg x) (o_link x).
Definition set_o_qty v (x : Order) : Order :=
  mkOrder (o_id x) (o_client_id x) (o_side x) (o_type x) (o_tif x) (o_flags x)
    (o_price x) v (o_leaves x) (o_filled x) (o_display_qty x) (o_min_qty x)
    (o_discretion x) (o_seq x) (o_rank x) (o_expiry_ns x) (o_trigger x)
    (o_peg x) (o_link x).
Definition set_o_leaves v (x : Order) : Order :=
  mkOrder (o_id x) (o_client_id x) (o_side x) (o_type x) (o_tif x) (o_flags x)
    (o_price x) (o_qty x) v (o_filled x) (o_display_qty x) (o_min_qty x)
    (o_discretion x) (o_seq x) (o_rank x) (o_expiry_ns x) (o_trigger x)
    (o_peg x) (o_link x).
Definition set_o_filled v (x : Order) : Order :=
  mkOrder (o_id x) (o_client_id x) (o_side x) (o_type x) (o_tif x) (o_flags x)
    (o_price x) (o_qty x) (o_leaves x) v (o_display_qty x) (o_min_qty x)
    (o_discretion x) (o_seq x) (o_rank x) (o_expiry_ns x) (o_trigger x)
    (o_peg x) (o_link x).
Definition set_o_display_qty v (x : Order) : Order :=
  mkOrder (o_id x) (o_client_id x) (o_side x) (o_type x) (o_tif x) (o_flags x)
    (o_price x) (o_qty x) (o_leaves x) (o_filled x) v (o_min_qty x)
    (o_discretion x) (o_seq x) (o_rank x) (o_expiry_ns x) (o_trigger x)
    (o_peg x) (o_link x).
Definition set_o_seq v (x : Order) : Order :=
  mkOrder (o_id x) (o_client_id x) (o_side x) (o_type x) (o_tif x) (o_flags x)
    (o_price x) (o_qty x) (o_leaves x) (o_filled x) (o_display_qty x)
    (o_min_qty x) (o_discretion x) v (o_rank x) (o_expiry_ns x) (o_trigger x)
    (o_peg x) (o_link x).
Definition set_o_rank v (x : Order) : Order :=
  mkOrder (o_id x) (o_client_id x) (o_side x) (o_type x) (o_tif x) (o_flags x)
    (o_price x) (o_qty x) (o_leaves x) (o_filled x) (o_display_qty x)
    (o_min_qty x) (o_discretion x) (o_seq x) v (o_expiry_ns x) (o_trigger x)
    (o_peg x) (o_link x).
Definition set_o_trigger v (x : Order) : Order :=
  mkOrder (o_id x) (o_client_id x) (o_side x) (o_type x) (o_tif x) (o_flags x)
    (o_price x) (o_qty x) (o_leaves x) (o_filled x) (o_display_qty x)
    (o_min_qty x) (o_discretion x) (o_seq x) (o_rank x) (o_expiry_ns x) v
    (o_peg x) (o_link x).
Definition set_o_link v (x : Order) : Order :=
  mkOrder (o_id x) (o_client_id x) (o_side x) (o_type x) (o_tif x) (o_flags x)
    (o_price x) (o_qty x) (o_leaves x) (o_filled x) (o_display_qty x)
    (o_min_qty x) (o_discretion x) (o_seq x) (o_rank x) (o_expiry_ns x)
    (o_trigger x) (o_peg x) v.

(** ** order.cc *)
Definition Normalize (o : Order) : Order :=
  let o :=
    if decide (o_tif o = GTX) then
      set_o_tif GTC (set_o_flags (SetFlag (o_flags o) kPostOnly) o)
    else if decide (o_tif o = FOK) then
      set_o_tif IOC (set_o_flags (SetFlag (o_flags o) kAon) o)
    else o in
  let o :=
    if (o_leaves o =? 0) && (o_filled o =? 0) then set_o_leaves (o_qty o) o
    else o in
  if o_display_qty o =? 0 then set_o_display_qty (o_qty o) o else o.

(** ** book_event.h *)
Inductive BookEventType := kAdd | kCancel | kTrade | kReprice | kReplenish | kTrigger.
#[export] Instance BookEventType_eq_dec : EqDecision BookEventType.
Proof. solve_decision. Defined.

Record BookEvent := mkEvent {
  ev_seq : SeqNo;
  ev_symbol : Symbol;
  ev_type : BookEventType;
  ev_order_id : OrderId;
  ev_taker_id : OrderId;
  ev_side : Side;
  ev_price : Ticks;
  ev_prev_price : Ticks;
  ev_qty : Quantity;
  ev_displayed : Quantity;
}.

(** ** The value types of order_book.h *)
Record Trade := mkTrade {
  t_taker_id : OrderId;
  t_maker_id : OrderId;
  t_taker_side : Side;
  t_price : Ticks;
  t_qty : Quantity;
}.

Inductive StpPolicy := kStpNone | kCancelResting | kCancelAggressor | kCancelBoth.
#[export] Instance StpPolicy_eq_dec : EqDecision StpPolicy.
Proof. solve_decision. Defined.

(** ** Flags *)
Lemma HasFlag_testbit mask f k :
  flag_bit f = Z.shiftl 1 k → 0 ≤ k → HasFlag mask f = Z.testbit mask k.
Proof.
  intros Hf Hk. unfold HasFlag. rewrite Hf, Z.shiftl_1_l.
  destruct (Z.testbit mask k) eqn:Hb.
  - apply negb_true_iff, Z.eqb_neq. intros Hz.
    assert (Z.testbit (Z.land mask (2 ^ k)) k = true) as Ht.
    { rewrite Z.land_spec, Hb, Z.pow2_bits_true by done. done. }
    rewrite Hz, Z.testbit_0_l in Ht. done.
  - apply negb_false_iff, Z.eqb_eq. apply Z.bits_inj'. intros n Hn.
    rewrite Z.land_spec, Z.testbit_0_l.
    destruct (Z.eq_dec n k) as [->|Hne]; [by rewrite Hb|].
    rewrite Z.pow2_bits_false by done. apply andb_false_r.
Qed.

(** [flag_index] numbers the bits; distinct flags do not interfere. *)
Definition flag_index (f : OrderFlag) : Z :=
  match f with
  | kNone => 11 | kHidden => 0 | kPostOnly => 1 | kReduceOnly => 2 | kAon => 3
  | kIceberg => 4 | kDiscretion => 5 | kMoo => 6 | kLoo => 7 | kMoc => 8
  | kLoc => 9 | kOpg => 10
  end.

Lemma HasFlag_index mask f :
  f ≠ kNone → HasFlag mask f = Z.testbit mask (flag_index f).
Proof. intros Hf. apply HasFlag_testbit; by destruct f. Qed.

Lemma HasFlag_SetFlag mask f g :
  g ≠ kNone → HasFlag (SetFlag mask f) g = HasFlag mask g || bool_decide (flag_index f = flag_index g).
Proof.
  intros Hg. rewrite !HasFlag_index by done. unfold SetFlag.
  rewrite Z.lor_spec. f_equal.
  destruct f; simpl flag_bit; try (rewrite Z.testbit_0_l; by destruct g);
    by destruct g.
Qed.

Lemma Normalize_flag o f :
  f ≠ kPostOnly → f ≠ kAon → f ≠ kNone →
  HasFlag (o_flags (Normalize o)) f = HasFlag (o_flags o) f.
Proof.
  intros. unfold Normalize. repeat case_decide; repeat case_if; simpl;
    rewrite ?HasFlag_SetFlag by done; destruct f; simpl; by rewrite ?orb_false_r.
Qed.
