(* ===== verification/Ladder.v ===== *)
(** * The dense price ladder

    [Level] and [Ladder] of [order_book.cc]: one side of the book as a deque
    of levels indexed by tick offset from [base], with a cached best price.

    Clients reason through [level_at], the level of a price with uncovered
    prices reading as the empty level: growing the deque ([touch]) leaves
    [level_at] unchanged, and the invariant [cache_ok] says that a valid cache
    holds the best populated price. *)

From S2P Require Import Prelude.
From S2P Require Import Order.

Record Level := mkLevel {
  total : Quantity;
  displayed : Quantity;
  fifo : list OrderId;
}.

Definition empty_level : Level := mkLevel 0 0 [].

Record Ladder := mkLadder {
  side : Side;
  levels : list Level;
  base : Ticks;
  has_base : bool;
  best_valid : bool;
  best_price : Ticks;
}.

Definition new_ladder (s : Side) : Ladder := mkLadder s [] 0 false false 0.

Definition set_levels v (x : Ladder) : Ladder :=
  mkLadder (side x) v (base x) (has_base x) (best_valid x) (best_price x).
Definition set_best_valid v (x : Ladder) : Ladder :=
  mkLadder (side x) (levels x) (base x) (has_base x) v (best_price x).
Definition set_best_price v (x : Ladder) : Ladder :=
  mkLadder (side x) (levels x) (base x) (has_base x) (best_valid x) v.

(** ** Operations *)
Definition covers (L : Ladder) (p : Ticks) : bool :=
  has_base L && (base L <=? p) && (p <? base L + Z.of_nat (length (levels L))).

Definition index (L : Ladder) (p : Ticks) : nat := Z.to_nat (p - base L).

Definition better (s : Side) (a b : Ticks) : bool :=
  match s with Buy => b <? a | Sell => a <? b end.

(** [touch] grows the deque to cover [p]; the [Level&] it returns is read with
    [at_level] and written with [set_level].  The memory is assumed to be there:
    the deque has a level for every tick between the lowest and the highest
    price, and the exception of a failed allocation is not modelled. *)
Definition touch (L : Ladder) (p : Ticks) : Ladder :=
  if negb (has_base L) then
    mkLadder (side L) [empty_level] p true (best_valid L) (best_price L)
  else if p <? base L then
    mkLadder (side L) (replicate (Z.to_nat (base L - p)) empty_level ++ levels L)
      p true (best_valid L) (best_price L)
  else if base L + Z.of_nat (length (levels L)) <=? p then
    set_levels (levels L ++
      replicate (S (Z.to_nat (p - base L)) - length (levels L)) empty_level) L
  else L.

Definition at_level (L : Ladder) (p : Ticks) : option Level :=
  if covers L p then levels L !! index L p else None.

(** Assignment through the reference to the level of a covered price. *)
Definition set_level (L : Ladder) (p : Ticks) (lv : Level) : Ladder :=
  set_levels (<[index L p := lv]> (levels L)) L.

Definition on_added (L : Ladder) (p : Ticks) : Ladder :=
  if best_valid L then
    if better (side L) p (best_price L) then set_best_price p L else L
  else L.

Definition on_removed (L : Ladder) (p : Ticks) : Ladder :=
  if best_valid L && (p =? best_price L) then set_best_valid false L else L.

(** The price of the first index of [ixs] whose level satisfies [f]. *)
Fixpoint scan (f : Level → bool) (L : Ladder) (ixs : list nat) : option Ticks :=
  match ixs with
  | [] => None
  | i :: ixs =>
      match levels L !! i with
      | Some lv => if f lv then Some (base L + Z.of_nat i) else scan f L ixs
      | None => scan f L ixs
      end
  end.

(** Index orders of the code's loops: from the top of the side outward. *)
Definition best_first (L : Ladder) : list nat :=
  match side L with
  | Buy => rev (seq 0 (length (levels L)))
  | Sell => seq 0 (length (levels L))
  end.

Definition worst_first (L : Ladder) : list nat :=
  match side L with
  | Buy => seq 0 (length (levels L))
  | Sell => rev (seq 0 (length (levels L)))
  end.

Definition has_qty (lv : Level) : bool := 0 <? total lv.

Definition best (L : Ladder) : option Ticks * Ladder :=
  if best_valid L then (Some (best_price L), L)
  else if negb (has_base L) then (None, L)
  else match scan has_qty L (best_first L) with
       | Some p => (Some p, set_best_valid true (set_best_price p L))
       | None => (None, L)
       end.

Definition worst_price (L : Ladder) : option Ticks :=
  if negb (has_base L) then None else scan has_qty L (worst_first L).

Definition populated_count (L : Ladder) : nat := length (List.filter has_qty (levels L)).

(** Append order [i] with matchable [q] and lit [d] at price [p]: the touch,
    push_back, running totals and cache update of every resting path. *)
Definition enqueue (L : Ladder) (p : Ticks) (i : OrderId) (q d : Quantity) : Ladder :=
  let L := touch L p in
  let lv := default empty_level (at_level L p) in
  let L := set_level L p
             (mkLevel (total lv + q) (displayed lv + d) (fifo lv ++ [i])) in
  on_added L p.

(** Write a level back and drop the cache if it became empty. *)
Definition settle (L : Ladder) (p : Ticks) (lv : Level) : Ladder :=
  let L := set_level L p lv in
  if total lv =? 0 then on_removed L p else L.

(** Take order [i] out of its level: totals, erase, cache update. *)
Definition dequeue (L : Ladder) (p : Ticks) (i : OrderId) (q d : Quantity) : Ladder :=
  match at_level L p with
  | None => L
  | Some lv =>
      settle L p (mkLevel (total lv - q) (displayed lv - d) (remove_id i (fifo lv)))
  end.

(** ** Reading a ladder as a function of the price *)
Definition level_at (L : Ladder) (p : Ticks) : Level :=
  default empty_level (at_level L p).

Definition populated (L : Ladder) (p : Ticks) : Prop := 0 < total (level_at L p).

Definition ladder_ok (L : Ladder) : Prop :=
  has_base L = false → levels L = [] ∧ best_valid L = false.

Definition is_best (L : Ladder) (p : Ticks) : Prop :=
  populated L p ∧ ∀ q, populated L q → better (side L) q p = false.

Definition cache_ok (L : Ladder) : Prop :=
  best_valid L = true → is_best L (best_price L).

(** [L] and [L'] show the same levels on the same side. *)
Definition same_levels (L L' : Ladder) : Prop :=
  side L = side L' ∧ ∀ p, level_at L p = level_at L' p.

#[export] Instance same_levels_equiv : Equivalence same_levels.
Proof.
  split.
  - done.
  - intros L L' [? H]. split; [done|]. intros p. by rewrite H.
  - intros L1 L2 L3 [? H1] [? H2]. split; [congruence|]. intros p. by rewrite H1.
Qed.

#[export] Instance populated_proper : Proper (same_levels ==> eq ==> iff) populated.
Proof. intros L L' [_ H] p ? <-. unfold populated. by rewrite H. Qed.

#[export] Instance is_best_proper : Proper (same_levels ==> eq ==> iff) is_best.
Proof.
  intros L L' HL p ? <-. unfold is_best. rewrite (populated_proper _ _ HL p p eq_refl).
  destruct HL as [Hs Hl]. rewrite Hs.
  split; intros [? H]; (split; [done|]); intros q; unfold populated in *;
    [rewrite <-Hl|rewrite Hl]; auto.
Qed.

Lemma covers_spec L p :
  covers L p = true ↔
  has_base L = true ∧ base L ≤ p < base L + Z.of_nat (length (levels L)).
Proof.
  unfold covers. rewrite !andb_true_iff, Z.leb_le, Z.ltb_lt. tauto.
Qed.

Lemma covers_false L p :
  has_base L = true →
  covers L p = false ↔ (p < base L ∨ base L + Z.of_nat (length (levels L)) ≤ p).
Proof.
  intros Hb. rewrite <-not_true_iff_false, covers_spec, Hb. lia.
Qed.

Lemma covers_index L p : covers L p = true → (index L p < length (levels L))%nat.
Proof. intros H%covers_spec. unfold index. lia. Qed.

Lemma at_level_Some L p lv :
  at_level L p = Some lv ↔ covers L p = true ∧ level_at L p = lv.
Proof.
  unfold level_at, at_level. destruct (covers L p) eqn:Hc; [|naive_solver].
  apply covers_index in Hc. apply lookup_lt_is_Some_2 in Hc as [x Hx].
  rewrite Hx. naive_solver.
Qed.

Lemma at_level_covers L p : covers L p = true → at_level L p = Some (level_at L p).
Proof. intros. by apply at_level_Some. Qed.

Lemma level_at_uncovered L p : covers L p = false → level_at L p = empty_level.
Proof. intros Hc. unfold level_at, at_level. by rewrite Hc. Qed.

Lemma level_at_lookup L i lv :
  has_base L = true → levels L !! i = Some lv → level_at L (base L + Z.of_nat i) = lv.
Proof.
  intros Hb Hi. unfold level_at, at_level.
  rewrite (proj2 (covers_spec L _)).
  - unfold index. replace (Z.to_nat _) with i by lia. by rewrite Hi.
  - apply lookup_lt_Some in Hi. split; [done|lia].
Qed.

Lemma populated_covers L p : populated L p → covers L p = true.
Proof.
  unfold populated. destruct (covers L p) eqn:Hc; [done|].
  rewrite level_at_uncovered by done. simpl. lia.
Qed.

Lemma populated_index L p :
  populated L p → ∃ i lv, p = base L + Z.of_nat i ∧ levels L !! i = Some lv ∧
    level_at L p = lv ∧ has_base L = true.
Proof.
  intros Hp. pose proof (populated_covers _ _ Hp) as Hc.
  pose proof (covers_index _ _ Hc) as Hi. apply lookup_lt_is_Some_2 in Hi as [lv Hlv].
  apply covers_spec in Hc as [Hb Hr]. exists (index L p), lv.
  assert (p = base L + Z.of_nat (index L p)) as Heq by (unfold index; lia).
  split_and!; try done. rewrite Heq. by apply level_at_lookup.
Qed.

(** ** touch *)
Lemma touch_covers L p : ladder_ok L → covers (touch L p) p = true.
Proof.
  intros Hok. apply covers_spec. unfold touch.
  destruct (has_base L) eqn:Hb; simpl; [|split; [done|lia]].
  repeat case_if; simpl; rewrite ?length_app, ?length_replicate; split; try done; lia.
Qed.

Lemma touch_side L p : side (touch L p) = side L.
Proof. unfold touch. by repeat case_if. Qed.
Lemma touch_best_valid L p : best_valid (touch L p) = best_valid L.
Proof. unfold touch. by repeat case_if. Qed.
Lemma touch_best_price L p : best_price (touch L p) = best_price L.
Proof. unfold touch. by repeat case_if. Qed.
Lemma touch_has_base L p : has_base (touch L p) = true.
Proof. unfold touch. destruct (has_base L) eqn:Hb; simpl; [|done]. by repeat case_if. Qed.

Lemma level_at_grow_front L n p :
  has_base L = true →
  level_at (mkLadder (side L) (replicate n empty_level ++ levels L)
              (base L - Z.of_nat n) true (best_valid L) (best_price L)) p = level_at L p.
Proof.
  intros Hb. set (L' := mkLadder _ _ _ _ _ _).
  destruct (covers L' p) eqn:Hc.
  - pose proof (covers_index _ _ Hc) as Hi. apply covers_spec in Hc as [_ Hr].
    unfold index in Hi. simpl in *. rewrite length_app, length_replicate in *.
    unfold level_at at 1, at_level. rewrite (proj2 (covers_spec L' p)) by
      (simpl; rewrite length_app, length_replicate; split; [done|lia]).
    unfold index. simpl. destruct (decide (p < base L)).
    + rewrite lookup_app_l by (rewrite length_replicate; lia).
      rewrite lookup_replicate_2 by lia. simpl.
      rewrite level_at_uncovered; [done|]. apply covers_false; [done|]. lia.
    + rewrite lookup_app_r by (rewrite length_replicate; lia).
      rewrite length_replicate. unfold level_at, at_level.
      rewrite (proj2 (covers_spec L p)) by (split; [done|lia]).
      unfold index. by replace (Z.to_nat (p - (base L - Z.of_nat n)) - n)%nat
        with (Z.to_nat (p - base L)) by lia.
  - rewrite !level_at_uncovered; [done| |done]. apply covers_false; [done|].
    apply covers_false in Hc; [|done]. simpl in Hc.
    rewrite length_app, length_replicate in Hc. lia.
Qed.

Lemma level_at_grow_back L n p :
  has_base L = true →
  level_at (set_levels (levels L ++ replicate n empty_level) L) p = level_at L p.
Proof.
  intros Hb. unfold level_at, at_level, index. simpl.
  destruct (covers L p) eqn:Hc; [pose proof (covers_index _ _ Hc) as Hi|].
  - rewrite (proj2 (covers_spec _ p)).
    + unfold index in Hi. by rewrite lookup_app_l.
    + simpl. rewrite length_app, length_replicate. apply covers_spec in Hc.
      split; [done|lia].
  - destruct (covers (set_levels _ L) p) eqn:Hc'; [|done].
    apply covers_spec in Hc'. simpl in Hc'. rewrite length_app, length_replicate in Hc'.
    rewrite lookup_app_r.
    + rewrite lookup_replicate_2; [done|]. apply covers_false in Hc; [lia|done].
    + apply covers_false in Hc; [lia|done].
Qed.

Lemma level_at_touch L p q : ladder_ok L → level_at (touch L p) q = level_at L q.
Proof.
  intros Hok. unfold touch. destruct (has_base L) eqn:Hb; simpl.
  - repeat case_if; [|by apply level_at_grow_back|done].
    rewrite <-(level_at_grow_front L (Z.to_nat (base L - p)) q Hb).
    by replace (base L - Z.of_nat (Z.to_nat (base L - p))) with p by lia.
  - rewrite (level_at_uncovered L q) by (unfold covers; by rewrite Hb).
    unfold level_at, at_level. destruct (covers _ q) eqn:Hc; [|done].
    apply covers_spec in Hc as [_ Hr]. simpl in Hr. unfold index. simpl.
    by replace (Z.to_nat (q - p)) with 0%nat by lia.
Qed.

(** ** set_level *)
Lemma covers_set_level L p lv q : covers (set_level L p lv) q = covers L q.
Proof. unfold covers, set_level. simpl. by rewrite length_insert. Qed.

Lemma level_at_set_level L p lv q :
  covers L p = true →
  level_at (set_level L p lv) q = if decide (q = p) then lv else level_at L q.
Proof.
  intros Hc. unfold level_at, at_level. rewrite covers_set_level.
  pose proof (covers_index _ _ Hc) as Hi. apply covers_spec in Hc as Hr.
  unfold set_level, index in *. simpl. case_decide as Hq; [subst q|].
  - rewrite Hc. by rewrite list_lookup_insert_eq.
  - destruct (covers L q) eqn:Hcq; [|done]. rewrite list_lookup_insert_ne; [done|].
    apply covers_spec in Hcq. lia.
Qed.

Lemma on_removed_levels L p :
  levels (on_removed L p) = levels L ∧ base (on_removed L p) = base L ∧
  has_base (on_removed L p) = has_base L ∧ side (on_removed L p) = side L.
Proof. unfold on_removed. by case_if. Qed.

Lemma level_at_on_removed L p q : level_at (on_removed L p) q = level_at L q.
Proof. unfold on_removed. by case_if. Qed.
Lemma level_at_on_added L p q : level_at (on_added L p) q = level_at L q.
Proof. unfold on_added. by repeat case_if. Qed.
Lemma side_on_added L p : side (on_added L p) = side L.
Proof. unfold on_added. by repeat case_if. Qed.
Lemma side_on_removed L p : side (on_removed L p) = side L.
Proof. unfold on_removed. by repeat case_if. Qed.

(** ** enqueue and settle *)
Lemma better_irrefl s p : better s p p = false.
Proof. destruct s; simpl; apply Z.ltb_irrefl. Qed.

Lemma better_trans s a b c : better s a b = true → better s b c = true → better s a c = true.
Proof. destruct s; simpl; rewrite !Z.ltb_lt; lia. Qed.

Lemma better_false_trans s a b c :
  better s a b = false → better s b c = false → better s a c = false.
Proof. destruct s; simpl; rewrite !Z.ltb_ge; lia. Qed.

Lemma better_asym s a b : better s a b = true → better s b a = false.
Proof. destruct s; simpl; rewrite Z.ltb_lt, Z.ltb_ge; lia. Qed.

Lemma better_total s a b : better s a b = false → better s b a = false → a = b.
Proof. destruct s; simpl; rewrite !Z.ltb_ge; lia. Qed.

Lemma side_enqueue L p i q d : side (enqueue L p i q d) = side L.
Proof. unfold enqueue. by rewrite side_on_added; simpl; rewrite touch_side. Qed.

Lemma has_base_enqueue L p i q d : has_base (enqueue L p i q d) = true.
Proof.
  unfold enqueue, on_added. repeat case_if; simpl; apply touch_has_base.
Qed.

Lemma ladder_ok_enqueue L p i q d : ladder_ok (enqueue L p i q d).
Proof. unfold ladder_ok. by rewrite has_base_enqueue. Qed.

Lemma level_at_enqueue L p i q d r :
  ladder_ok L →
  level_at (enqueue L p i q d) r =
    if decide (r = p) then
      let lv := level_at L p in
      mkLevel (total lv + q) (displayed lv + d) (fifo lv ++ [i])
    else level_at L r.
Proof.
  intros Hok. unfold enqueue. rewrite level_at_on_added.
  rewrite level_at_set_level by by apply touch_covers.
  fold (level_at (touch L p) p). by rewrite !level_at_touch.
Qed.

Lemma cache_ok_on_added L L' p :
  side L' = side L → best_valid L' = best_valid L → best_price L' = best_price L →
  (∀ q, populated L' q ↔ q = p ∨ populated L q) →
  cache_ok L → cache_ok (on_added L' p).
Proof.
  intros Hs Hv Hp Hpop Hc. unfold cache_ok, is_best, on_added.
  rewrite Hv, Hp, Hs. destruct (best_valid L) eqn:Hbv; [|by rewrite Hv].
  destruct (Hc Hbv) as [Hb Hmax].
  destruct (better (side L) p (best_price L)) eqn:Hbet; simpl.
  - intros _. split; [apply Hpop; by left|]. rewrite Hs. intros q [->|Hq]%Hpop;
      [apply better_irrefl|]. specialize (Hmax _ Hq).
    destruct (better (side L) q p) eqn:E; [|done].
    rewrite (better_trans _ _ _ _ E Hbet) in Hmax. done.
  - intros _. rewrite Hp, Hs. split; [apply Hpop; by right|].
    intros q [->|Hq]%Hpop; [done|]. by apply Hmax.
Qed.

Lemma populated_enqueue L p i q d r :
  ladder_ok L → 0 < q → 0 ≤ total (level_at L p) →
  populated (enqueue L p i q d) r ↔ r = p ∨ populated L r.
Proof.
  intros Hok Hq Ht. unfold populated. rewrite level_at_enqueue by done.
  case_decide; subst; simpl; [|naive_solver]. split; [by left|]. intros _. lia.
Qed.

Lemma cache_ok_enqueue L p i q d :
  ladder_ok L → 0 < q → 0 ≤ total (level_at L p) → cache_ok L →
  cache_ok (enqueue L p i q d).
Proof.
  intros Hok Hq Ht Hc. unfold enqueue.
  apply (cache_ok_on_added L); simpl;
    rewrite ?touch_side, ?touch_best_valid, ?touch_best_price; try done.
  intros r. rewrite <-(populated_enqueue L p i q d r Hok Hq Ht).
  unfold populated, enqueue. by rewrite level_at_on_added.
Qed.

Lemma side_settle L p lv : side (settle L p lv) = side L.
Proof. unfold settle. case_if; by rewrite ?side_on_removed. Qed.

Lemma has_base_settle L p lv : has_base (settle L p lv) = has_base L.
Proof.
  unfold settle. case_if; [|done].
  by destruct (on_removed_levels (set_level L p lv) p) as (_ & _ & -> & _).
Qed.

Lemma level_at_settle L p lv r :
  covers L p = true →
  level_at (settle L p lv) r = if decide (r = p) then lv else level_at L r.
Proof.
  intros Hc. unfold settle. case_if;
    rewrite ?level_at_on_removed, level_at_set_level by done; done.
Qed.

Lemma ladder_ok_settle L p lv : covers L p = true → ladder_ok (settle L p lv).
Proof.
  intros [Hb _]%covers_spec. unfold ladder_ok. by rewrite has_base_settle, Hb.
Qed.

(** Shrinking a level keeps the cache right: an emptied best level drops it. *)
Lemma cache_ok_settle L p lv :
  covers L p = true → 0 ≤ total lv → (0 < total lv → populated L p) →
  cache_ok L → cache_ok (settle L p lv).
Proof.
  intros Hcov Hnn Hpop Hc.
  assert (∀ r, populated (settle L p lv) r → populated L r) as Hsub.
  { intros r. unfold populated. rewrite level_at_settle by done.
    case_decide; [subst|done]. apply Hpop. }
  assert (best_valid (settle L p lv) = true →
          best_valid L = true ∧ best_price (settle L p lv) = best_price L ∧
          (best_price L = p → 0 < total lv)) as Hbv.
  { unfold settle, on_removed. simpl. repeat case_if; simpl; try done.
    - destruct (best_valid L) eqn:Hv; [|done]. intros _. split_and!; try done.
      intros <-. rewrite Z.eqb_refl in Heqb0. done.
    - intros. split_and!; try done. lia. }
  intros Hv. destruct (Hbv Hv) as (Hv' & -> & Hnz). destruct (Hc Hv') as [Hb Hmax].
  split; [|intros q Hq; rewrite side_settle; by apply Hmax, Hsub].
  unfold populated. rewrite level_at_settle by done. case_decide; [by apply Hnz|].
  apply Hb.
Qed.

Lemma dequeue_settle L p i q d :
  covers L p = true →
  dequeue L p i q d =
    settle L p (mkLevel (total (level_at L p) - q) (displayed (level_at L p) - d)
                  (remove_id i (fifo (level_at L p)))).
Proof. intros Hc. unfold dequeue. by rewrite at_level_covers. Qed.

(** ** Scanning *)
Lemma scan_Some f L ixs p :
  scan f L ixs = Some p →
  ∃ i lv pre post, ixs = pre ++ i :: post ∧ levels L !! i = Some lv ∧ f lv = true ∧
    p = base L + Z.of_nat i ∧
    ∀ j lv', j ∈ pre → levels L !! j = Some lv' → f lv' = false.
Proof.
  induction ixs as [|i ixs IH]; simpl; [done|]. intros H.
  destruct (levels L !! i) as [lv|] eqn:Hi; [destruct (f lv) eqn:Hf|].
  - simplify_eq. exists i, lv, [], ixs. split_and!; try done. set_solver.
  - destruct (IH H) as (j & lv' & pre & post & -> & ? & ? & ? & Hpre).
    exists j, lv', (i :: pre), post. split_and!; try done.
    intros k lvk [->|Hk]%elem_of_cons; [naive_solver|]. by apply Hpre.
  - destruct (IH H) as (j & lv' & pre & post & -> & ? & ? & ? & Hpre).
    exists j, lv', (i :: pre), post. split_and!; try done.
    intros k lvk [->|Hk]%elem_of_cons; [naive_solver|]. by apply Hpre.
Qed.

Lemma scan_None f L ixs :
  scan f L ixs = None → ∀ i lv, i ∈ ixs → levels L !! i = Some lv → f lv = false.
Proof.
  induction ixs as [|i ixs IH]; simpl; [set_solver|]. intros H j lv Hj Hlv.
  destruct (levels L !! i) as [lvi|] eqn:Hi; [destruct (f lvi) eqn:Hf; [done|]|];
    apply elem_of_cons in Hj as [->|Hj]; naive_solver.
Qed.

(** Indices of a covered side in price order: earlier means no worse. *)
Lemma rev_seq_elem n i : i ∈ rev (seq 0 n) ↔ (i < n)%nat.
Proof.
  rewrite list_elem_of_In, <-in_rev, in_seq. lia. Qed.

Lemma seq_elem n i : i ∈ seq 0 n ↔ (i < n)%nat.
Proof. rewrite list_elem_of_In, in_seq. lia. Qed.

Lemma seq_split_lt n pre i post j :
  seq 0 n = pre ++ i :: post → j ∈ post → (i < j)%nat.
Proof.
  intros Heq Hj. apply list_elem_of_lookup in Hj as [k Hk].
  assert (seq 0 n !! (length pre + S k)%nat = Some j) as H1.
  { rewrite Heq, lookup_app_r by lia. by replace (_ - _)%nat with (S k) by lia. }
  assert (seq 0 n !! length pre = Some i) as H2.
  { rewrite Heq, lookup_app_r by lia. by rewrite Nat.sub_diag. }
  apply lookup_seq in H1 as [-> _]. apply lookup_seq in H2 as [-> _]. lia.
Qed.

Lemma rev_seq_split_gt n pre i post j :
  rev (seq 0 n) = pre ++ i :: post → j ∈ post → (j < i)%nat.
Proof.
  intros Heq Hj. apply (f_equal (@rev nat)) in Heq. rewrite rev_involutive in Heq.
  rewrite rev_app_distr in Heq. simpl in Heq. rewrite <-app_assoc in Heq. simpl in Heq.
  apply list_elem_of_lookup in Hj as [k Hk].
  assert (j ∈ rev post) as Hr by (rewrite list_elem_of_In, <-in_rev, <-list_elem_of_In;
    by eapply list_elem_of_lookup_2).
  apply list_elem_of_lookup in Hr as [k' Hk'].
  pose proof (lookup_lt_Some _ _ _ Hk') as Hlt.
  assert (seq 0 n !! k' = Some j) as H1 by (rewrite Heq, lookup_app_l; done).
  assert (seq 0 n !! length (rev post) = Some i) as H2.
  { rewrite Heq, lookup_app_r by lia. by rewrite Nat.sub_diag. }
  apply lookup_seq in H1 as [-> _]. apply lookup_seq in H2 as [-> _]. lia.
Qed.

Lemma best_first_elem L i : i ∈ best_first L ↔ (i < length (levels L))%nat.
Proof. unfold best_first. destruct (side L); [apply rev_seq_elem|apply seq_elem]. Qed.

Lemma worst_first_elem L i : i ∈ worst_first L ↔ (i < length (levels L))%nat.
Proof. unfold worst_first. destruct (side L); [apply seq_elem|apply rev_seq_elem]. Qed.

(** Later indices of [best_first] are strictly worse prices. *)
Lemma best_first_sorted L pre i post j :
  best_first L = pre ++ i :: post → j ∈ post →
  better (side L) (base L + Z.of_nat i) (base L + Z.of_nat j) = true.
Proof.
  unfold best_first, better. destruct (side L); intros Heq Hj.
  - pose proof (rev_seq_split_gt _ _ _ _ _ Heq Hj). lia.
  - pose proof (seq_split_lt _ _ _ _ _ Heq Hj). lia.
Qed.

Lemma worst_first_sorted L pre i post j :
  worst_first L = pre ++ i :: post → j ∈ post →
  better (side L) (base L + Z.of_nat j) (base L + Z.of_nat i) = true.
Proof.
  unfold worst_first, better. destruct (side L); intros Heq Hj.
  - pose proof (seq_split_lt _ _ _ _ _ Heq Hj). lia.
  - pose proof (rev_seq_split_gt _ _ _ _ _ Heq Hj). lia.
Qed.

Lemma scan_best_first_Some f L p :
  has_base L = true → scan f L (best_first L) = Some p →
  covers L p = true ∧ f (level_at L p) = true ∧
  ∀ q, covers L q = true → f (level_at L q) = true → better (side L) q p = false.
Proof.
  intros Hb (i & lv & pre & post & Heq & Hi & Hf & -> & Hpre)%scan_Some.
  pose proof (lookup_lt_Some _ _ _ Hi) as Hlt.
  rewrite (level_at_lookup _ _ _ Hb Hi). split_and!; [|done|].
  { apply covers_spec. split; [done|lia]. }
  intros q Hq Hfq. pose proof (covers_index _ _ Hq) as Hqi.
  apply covers_spec in Hq as [_ Hr].
  assert (q = base L + Z.of_nat (index L q)) as Hqe by (unfold index; lia).
  apply lookup_lt_is_Some_2 in Hqi as [lq Hlq].
  assert (index L q ∈ best_first L) as Hin
    by (apply best_first_elem; by eapply lookup_lt_Some).
  rewrite Hqe in Hfq. rewrite (level_at_lookup _ _ _ Hb Hlq) in Hfq.
  rewrite Heq in Hin. apply elem_of_app in Hin as [Hin|[Hin|Hin]%elem_of_cons].
  - rewrite (Hpre _ _ Hin Hlq) in Hfq. done.
  - rewrite Hqe, Hin. apply better_irrefl.
  - rewrite Hqe. apply better_asym. by eapply best_first_sorted.
Qed.

Lemma scan_best_first_None f L q :
  scan f L (best_first L) = None → covers L q = true → f (level_at L q) = false.
Proof.
  intros Hs Hc. pose proof (covers_index _ _ Hc) as Hi.
  pose proof (proj2 (lookup_lt_is_Some (levels L) _) Hi) as [lv Hlv].
  apply covers_spec in Hc as [Hb Hr].
  replace q with (base L + Z.of_nat (index L q)) by (unfold index; lia).
  rewrite (level_at_lookup _ _ _ Hb Hlv). eapply scan_None; [done| |done].
  by apply best_first_elem.
Qed.

(** [best] returns the best populated price, cached or rescanned. *)
Lemma best_spec L :
  ladder_ok L → cache_ok L →
  (∀ p, (best L).1 = Some p ↔ is_best L p) ∧
  same_levels (best L).2 L ∧ cache_ok (best L).2 ∧ ladder_ok (best L).2.
Proof.
  intros Hok Hc.
  assert (∀ p q, is_best L p → is_best L q → p = q) as Huniq.
  { intros p q [Hp1 Hp2] [Hq1 Hq2]. eapply better_total; eauto. }
  unfold best. destruct (best_valid L) eqn:Hv; simpl.
  { pose proof (Hc Hv) as Hbest. split_and!; try done.
    intros p. split; [by intros [= <-]|]. intros ?. f_equal. by apply Huniq. }
  destruct (has_base L) eqn:Hb; simpl.
  2:{ split_and!; try done. intros p. split; [done|]. intros [Hp _].
      apply populated_covers, covers_spec in Hp as [? _]. congruence. }
  destruct (scan has_qty L (best_first L)) as [p0|] eqn:Hs; simpl.
  - destruct (scan_best_first_Some _ _ _ Hb Hs) as (Hcov & Hf & Hmax).
    assert (is_best L p0) as Hbest.
    { split; [by apply Z.ltb_lt|]. intros q Hq. apply Hmax; [by apply populated_covers|].
      by apply Z.ltb_lt. }
    split_and!; try done.
    + intros p. split; [by intros [= <-]|]. intros ?. f_equal. by apply Huniq.
    + unfold cache_ok, is_best, populated, level_at, at_level. simpl. done.
    + unfold ladder_ok. simpl. by rewrite Hb.
  - split_and!; try done. intros p. split; [done|]. intros [Hp _].
    pose proof (scan_best_first_None _ _ _ Hs (populated_covers _ _ Hp)) as Hf.
    unfold has_qty in Hf. unfold populated in Hp. lia.
Qed.

(** [worst_price] returns the populated price farthest from the top. *)
Lemma worst_price_Some L p :
  worst_price L = Some p →
  populated L p ∧ ∀ q, populated L q → better (side L) p q = false.
Proof.
  unfold worst_price. destruct (has_base L) eqn:Hb; simpl; [|done].
  intros (i & lv & pre & post & Heq & Hi & Hf & -> & Hpre)%scan_Some.
  unfold has_qty in Hf. split.
  { unfold populated. rewrite (level_at_lookup _ _ _ Hb Hi). lia. }
  intros q Hpop. destruct (populated_index _ _ Hpop) as (j & lq & -> & Hlq & Hlv & _).
  unfold populated in Hpop. rewrite Hlv in Hpop.
  assert (j ∈ worst_first L) as Hin by (apply worst_first_elem; by eapply lookup_lt_Some).
  rewrite Heq in Hin. apply elem_of_app in Hin as [Hin|[->|Hin]%elem_of_cons].
  - specialize (Hpre _ _ Hin Hlq). unfold has_qty in Hpre. lia.
  - apply better_irrefl.
  - apply better_asym. by eapply worst_first_sorted.
Qed.

Lemma worst_price_None L p : worst_price L = None → ladder_ok L → ¬ populated L p.
Proof.
  unfold worst_price. intros Hw Hok Hpop.
  destruct (populated_index _ _ Hpop) as (i & lv & -> & Hi & Hlv & Hb).
  rewrite Hb in Hw. simpl in Hw. unfold populated in Hpop. rewrite Hlv in Hpop.
  assert (has_qty lv = false) as Hq.
  { eapply scan_None; [done| |done]. apply worst_first_elem. by eapply lookup_lt_Some. }
  unfold has_qty in Hq. lia.
Qed.

Lemma best_None L q : ladder_ok L → (best L).1 = None → ¬ populated L q.
Proof.
  intros Hok Hb Hpop. pose proof (populated_covers _ _ Hpop) as Hc.
  unfold best in Hb. destruct (best_valid L); [done|].
  destruct (has_base L) eqn:Hh; simpl in Hb; [|apply covers_spec in Hc as [? _]; congruence].
  destruct (scan has_qty L (best_first L)) as [p|] eqn:Hs; [done|].
  pose proof (scan_best_first_None _ _ _ Hs Hc) as Hq. unfold has_qty in Hq. unfold populated in Hpop. lia.
Qed.
