(* ===== verification/Book.v ===== *)
(** * The order book: state and operations

    [OrderBook::Impl] and the public methods of [OrderBook]
    ([src/core/order_book.cc]), operation by operation.  A method that mutates
    [*this] takes and returns the state; out-parameters are returned; a method
    that may throw or loop returns [res].

    Representation choices: [unordered_map] and [unordered_set] are [gmap] and
    [gset] (the code sorts whatever it iterates over); an order's stored list
    position [pos] is its id, which is unique in its queue; the event sink is a
    flag saying whether one is installed, with the events delivered to it, in
    order, in [emitted]. *)

From S2P Require Import Prelude.
From S2P Require Import Order.
From S2P Require Import Ladder.

(** ** State *)
Record Entry := mkEntry {
  e_order : Order;
  e_slice : Quantity;
}.

Record Group := mkGroup {
  g_parent : OrderId;
  g_oco_legs : list OrderId;
  g_pending_child : option Order;
  g_pending_oco : list Order;
}.
Definition empty_group : Group := mkGroup 0 [] None [].

Record Position := mkPosition {
  net : Quantity;
  reserved_sell : Quantity;
  reserved_buy : Quantity;
}.
Definition flat : Position := mkPosition 0 0 0.

Record Deep := mkDeep {
  d_has : bool;
  d_boundary : Ticks;
}.

Record Impl := mkImpl {
  bids : Ladder;
  asks : Ladder;
  orders : gmap OrderId Entry;
  stops : gmap OrderId Order;
  pegged : gset OrderId;
  groups : gmap Z Group;
  order_group : gmap OrderId Z;
  positions : gmap ClientId Position;
  opening_auction : list Order;
  closing_auction : list Order;
  mem_levels : nat;
  deep_bid : Deep;
  deep_ask : Deep;
  next_seq : SeqNo;
  stp : StpPolicy;
  have_last : bool;
  last_price : Ticks;
  symbol_ : Symbol;
  event_sink_ : bool;
  requeued_ : list Order;
  emitted : list BookEvent;
}.

(** Field assignment. *)
Definition set_g_parent v (x : Group) : Group :=
  mkGroup v (g_oco_legs x) (g_pending_child x) (g_pending_oco x).
Definition set_g_oco_legs v (x : Group) : Group :=
  mkGroup (g_parent x) v (g_pending_child x) (g_pending_oco x).
Definition set_g_pending_child v (x : Group) : Group :=
  mkGroup (g_parent x) (g_oco_legs x) v (g_pending_oco x).
Definition set_g_pending_oco v (x : Group) : Group :=
  mkGroup (g_parent x) (g_oco_legs x) (g_pending_child x) v.
Definition set_bids v (x : Impl) : Impl :=
  mkImpl v (asks x) (orders x) (stops x) (pegged x) (groups x) (order_group x)
    (positions x) (opening_auction x) (closing_auction x) (mem_levels x)
    (deep_bid x) (deep_ask x) (next_seq x) (stp x) (have_last x)
    (last_price x) (symbol_ x) (event_sink_ x) (requeued_ x) (emitted x).
Definition set_asks v (x : Impl) : Impl :=
  mkImpl (bids x) v (orders x) (stops x) (pegged x) (groups x) (order_group x)
    (positions x) (opening_auction x) (closing_auction x) (mem_levels x)
    (deep_bid x) (deep_ask x) (next_seq x) (stp x) (have_last x)
    (last_price x) (symbol_ x) (event_sink_ x) (requeued_ x) (emitted x).
Definition set_orders v (x : Impl) : Impl :=
  mkImpl (bids x) (asks x) v (stops x) (pegged x) (groups x) (order_group x)
    (positions x) (opening_auction x) (closing_auction x) (mem_levels x)
    (deep_bid x) (deep_ask x) (next_seq x) (stp x) (have_last x)
    (last_price x) (symbol_ x) (event_sink_ x) (requeued_ x) (emitted x).
Definition set_stops v (x : Impl) : Impl :=
  mkImpl (bids x) (asks x) (orders x) v (pegged x) (groups x) (order_group x)
    (positions x) (opening_auction x) (closing_auction x) (mem_levels x)
    (deep_bid x) (deep_ask x) (next_seq x) (stp x) (have_last x)
    (last_price x) (symbol_ x) (event_sink_ x) (requeued_ x) (emitted x).
Definition set_pegged v (x : Impl) : Impl :=
  mkImpl (bids x) (asks x) (orders x) (stops x) v (groups x) (order_group x)
    (positions x) (opening_auction x) (closing_auction x) (mem_levels x)
    (deep_bid x) (deep_ask x) (next_seq x) (stp x) (have_last x)
    (last_price x) (symbol_ x) (event_sink_ x) (requeued_ x) (emitted x).
Definition set_groups v (x : Impl) : Impl :=
  mkImpl (bids x) (asks x) (orders x) (stops x) (pegged x) v (order_group x)
    (positions x) (opening_auction x) (closing_auction x) (mem_levels x)
    (deep_bid x) (deep_ask x) (next_seq x) (stp x) (have_last x)
    (last_price x) (symbol_ x) (event_sink_ x) (requeued_ x) (emitted x).
Definition set_order_group v (x : Impl) : Impl :=
  mkImpl (bids x) (asks x) (orders x) (stops x) (pegged x) (groups x) v
    (positions x) (opening_auction x) (closing_auction x) (mem_levels x)
    (deep_bid x) (deep_ask x) (next_seq x) (stp x) (have_last x)
    (last_price x) (symbol_ x) (event_sink_ x) (requeued_ x) (emitted x).
Definition set_positions v (x : Impl) : Impl :=
  mkImpl (bids x) (asks x) (orders x) (stops x) (pegged x) (groups x)
    (order_group x) v (opening_auction x) (closing_auction x) (mem_levels x)
    (deep_bid x) (deep_ask x) (next_seq x) (stp x) (have_last x)
    (last_price x) (symbol_ x) (event_sink_ x) (requeued_ x) (emitted x).
Definition set_opening_auction v (x : Impl) : Impl :=
  mkImpl (bids x) (asks x) (orders x) (stops x) (pegged x) (groups x)
    (order_group x) (positions x) v (closing_auction x) (mem_levels x)
    (deep_bid x) (deep_ask x) (next_seq x) (stp x) (have_last x)
    (last_price x) (symbol_ x) (event_sink_ x) (requeued_ x) (emitted x).
Definition set_closing_auction v (x : Impl) : Impl :=
  mkImpl (bids x) (asks x) (orders x) (stops x) (pegged x) (groups x)
    (order_group x) (positions x) (opening_auction x) v (mem_levels x)
    (deep_bid x) (deep_ask x) (next_seq x) (stp x) (have_last x)
    (last_price x) (symbol_ x) (event_sink_ x) (requeued_ x) (emitted x).
Definition set_deep_bid v (x : Impl) : Impl :=
  mkImpl (bids x) (asks x) (orders x) (stops x) (pegged x) (groups x)
    (order_group x) (positions x) (opening_auction x) (closing_auction x)
    (mem_levels x) v (deep_ask x) (next_seq x) (stp x) (have_last x)
    (last_price x) (symbol_ x) (event_sink_ x) (requeued_ x) (emitted x).
Definition set_deep_ask v (x : Impl) : Impl :=
  mkImpl (bids x) (asks x) (orders x) (stops x) (pegged x) (groups x)
    (order_group x) (positions x) (opening_auction x) (closing_auction x)
    (mem_levels x) (deep_bid x) v (next_seq x) (stp x) (have_last x)
    (last_price x) (symbol_ x) (event_sink_ x) (requeued_ x) (emitted x).
Definition set_next_seq v (x : Impl) : Impl :=
  mkImpl (bids x) (asks x) (orders x) (stops x) (pegged x) (groups x)
    (order_group x) (positions x) (opening_auction x) (closing_auction x)
    (mem_levels x) (deep_bid x) (deep_ask x) v (stp x) (have_last x)
    (last_price x) (symbol_ x) (event_sink_ x) (requeued_ x) (emitted x).
Definition set_have_last v (x : Impl) : Impl :=
  mkImpl (bids x) (asks x) (orders x) (stops x) (pegged x) (groups x)
    (order_group x) (positions x) (opening_auction x) (closing_auction x)
    (mem_levels x) (deep_bid x) (deep_ask x) (next_seq x) (stp x) v
    (last_price x) (symbol_ x) (event_sink_ x) (requeued_ x) (emitted x).
Definition set_last_price v (x : Impl) : Impl :=
  mkImpl (bids x) (asks x) (orders x) (stops x) (pegged x) (groups x)
    (order_group x) (positions x) (opening_auction x) (closing_auction x)
    (mem_levels x) (deep_bid x) (deep_ask x) (next_seq x) (stp x)
    (have_last x) v (symbol_ x) (event_sink_ x) (requeued_ x) (emitted x).
Definition set_symbol_ v (x : Impl) : Impl :=
  mkImpl (bids x) (asks x) (orders x) (stops x) (pegged x) (groups x)
    (order_group x) (positions x) (opening_auction x) (closing_auction x)
    (mem_levels x) (deep_bid x) (deep_ask x) (next_seq x) (stp x)
    (have_last x) (last_price x) v (event_sink_ x) (requeued_ x) (emitted x).
Definition set_event_sink_ v (x : Impl) : Impl :=
  mkImpl (bids x) (asks x) (orders x) (stops x) (pegged x) (groups x)
    (order_group x) (positions x) (opening_auction x) (closing_auction x)
    (mem_levels x) (deep_bid x) (deep_ask x) (next_seq x) (stp x)
    (have_last x) (last_price x) (symbol_ x) v (requeued_ x) (emitted x).
Definition set_requeued_ v (x : Impl) : Impl :=
  mkImpl (bids x) (asks x) (orders x) (stops x) (pegged x) (groups x)
    (order_group x) (positions x) (opening_auction x) (closing_auction x)
    (mem_levels x) (deep_bid x) (deep_ask x) (next_seq x) (stp x)
    (have_last x) (last_price x) (symbol_ x) (event_sink_ x) v (emitted x).
Definition set_emitted v (x : Impl) : Impl :=
  mkImpl (bids x) (asks x) (orders x) (stops x) (pegged x) (groups x)
    (order_group x) (positions x) (opening_auction x) (closing_auction x)
    (mem_levels x) (deep_bid x) (deep_ask x) (next_seq x) (stp x)
    (have_last x) (last_price x) (symbol_ x) (event_sink_ x) (requeued_ x) v.
Definition set_stp v (x : Impl) : Impl :=
  mkImpl (bids x) (asks x) (orders x) (stops x) (pegged x) (groups x)
    (order_group x) (positions x) (opening_auction x) (closing_auction x)
    (mem_levels x) (deep_bid x) (deep_ask x) (next_seq x) v (have_last x)
    (last_price x) (symbol_ x) (event_sink_ x) (requeued_ x) (emitted x).
Definition set_mem_levels v (x : Impl) : Impl :=
  mkImpl (bids x) (asks x) (orders x) (stops x) (pegged x) (groups x)
    (order_group x) (positions x) (opening_auction x) (closing_auction x) v
    (deep_bid x) (deep_ask x) (next_seq x) (stp x) (have_last x)
    (last_price x) (symbol_ x) (event_sink_ x) (requeued_ x) (emitted x).

(** The constructors: an empty book with a policy and a window bound. *)
Definition new_book (policy : StpPolicy) (mem : nat) : Impl :=
  mkImpl (new_ladder Buy) (new_ladder Sell) ∅ ∅ ∅ ∅ ∅ ∅ [] [] mem
    (mkDeep false 0) (mkDeep false 0) 1 policy false 0 EmptyString false [] [].

(** ** Helpers of the anonymous namespace *)
Definition IsOpeningAuction (flags : Z) : bool :=
  HasFlag flags kMoo || HasFlag flags kLoo || HasFlag flags kOpg.

Definition IsClosingAuction (flags : Z) : bool :=
  HasFlag flags kMoc || HasFlag flags kLoc.

Definition kAuctionMask : Z :=
  Z.lor (Z.lor (Z.lor (Z.lor (flag_bit kMoo) (flag_bit kLoo)) (flag_bit kMoc))
           (flag_bit kLoc)) (flag_bit kOpg).

Definition DisplayedOf (flags : Z) (leaves slice : Quantity) : Quantity :=
  if HasFlag flags kHidden then 0
  else if HasFlag flags kIceberg then slice
  else leaves.

(** ** Bookkeeping methods of Impl *)

(** [ladder]: the ladder of a side, and assignment through the reference. *)
Definition ladder (s : Side) (b : Impl) : Ladder :=
  match s with Buy => bids b | Sell => asks b end.
Definition set_ladder (s : Side) (L : Ladder) (b : Impl) : Impl :=
  match s with Buy => set_bids L b | Sell => set_asks L b end.

(** [requeue]: the re-stamped order, recorded for storage. *)
Definition requeue (o : Order) (b : Impl) : Order * Impl :=
  let o := set_o_rank (next_seq b) o in
  let b := set_next_seq (next_seq b + 1) b in
  (o, set_requeued_ (requeued_ b ++ [o]) b).

Definition deliver (ev : BookEvent) (b : Impl) : Impl :=
  if event_sink_ b then set_emitted (emitted b ++ [ev]) b else b.

Definition emit_event (ty : BookEventType) (o : Order) (qty disp : Quantity)
    (b : Impl) : Impl :=
  deliver (mkEvent 0 (symbol_ b) ty (o_id o) 0 (o_side o) (o_price o) 0 qty disp) b.

Definition emit_trade (t : Trade) (disp : Quantity) (b : Impl) : Impl :=
  deliver (mkEvent 0 (symbol_ b) kTrade (t_maker_id t) (t_taker_id t)
             (t_taker_side t) (t_price t) 0 (t_qty t) disp) b.

Definition emit_reprice (o : Order) (old_price new_price : Ticks)
    (qty disp : Quantity) (b : Impl) : Impl :=
  deliver (mkEvent 0 (symbol_ b) kReprice (o_id o) 0 (o_side o) new_price
             old_price qty disp) b.

Definition is_reduce_only (o : Order) : bool := HasFlag (o_flags o) kReduceOnly.

Definition apply_position (c : ClientId) (s : Side) (q : Quantity) (b : Impl) : Impl :=
  if c =? 0 then b
  else
    let p := default flat (positions b !! c) in
    let p := mkPosition (net p + match s with Buy => q | Sell => - q end)
               (reserved_sell p) (reserved_buy p) in
    set_positions (<[c := p]> (positions b)) b.

Definition reserved_on (p : Position) (s : Side) : Quantity :=
  match s with Sell => reserved_sell p | Buy => reserved_buy p end.
Definition set_reserved_on (s : Side) (v : Quantity) (p : Position) : Position :=
  match s with
  | Sell => mkPosition (net p) v (reserved_buy p)
  | Buy => mkPosition (net p) (reserved_sell p) v
  end.

Definition release_reserved (o : Order) (q : Quantity) (b : Impl) : Impl :=
  if negb (is_reduce_only o) || (o_client_id o =? 0) then b
  else match positions b !! o_client_id o with
       | None => b
       | Some p =>
           set_positions
             (<[o_client_id o :=
                 set_reserved_on (o_side o) (reserved_on p (o_side o) - q) p]>
                (positions b)) b
       end.

Definition reduce_only_capacity (o : Order) (b : Impl) : Quantity :=
  match positions b !! o_client_id o with
  | None => 0
  | Some p =>
      match o_side o with
      | Sell => net p - reserved_sell p
      | Buy => - net p - reserved_buy p
      end
  end.

(** ** Prices an order accepts *)
Definition effective_limit (o : Order) : Ticks :=
  if negb (HasFlag (o_flags o) kDiscretion) || (o_discretion o <=? 0) then o_price o
  else match o_side o with
       | Buy => o_price o + o_discretion o
       | Sell => o_price o - o_discretion o
       end.

(** The lambda [acceptable] of [available_fill] and [match]. *)
Definition acceptable (o : Order) (p : Ticks) : bool :=
  match o_type o with
  | Market => true
  | Limit =>
      match o_side o with
      | Buy => p <=? effective_limit o
      | Sell => effective_limit o <=? p
      end
  end.

(** [crosses] reads the opposite best price, refreshing its cache. *)
Definition crosses (o : Order) (b : Impl) : bool * Impl :=
  let s := Opposite (o_side o) in
  let '(bp, L) := best (ladder s b) in
  let b := set_ladder s L b in
  match bp with
  | None => (false, b)
  | Some bp =>
      match o_type o with
      | Market => (true, b)
      | Limit =>
          (match o_side o with
           | Buy => bp <=? effective_limit o
           | Sell => effective_limit o <=? bp
           end, b)
      end
  end.

Fixpoint available_levels (o : Order) (L : Ladder) (ixs : list nat)
    (avail : Quantity) : Quantity :=
  match ixs with
  | [] => avail
  | i :: ixs =>
      if negb (avail <? o_leaves o) then avail
      else
        let lv := default empty_level (levels L !! i) in
        let ok := acceptable o (base L + Z.of_nat i) in
        if (0 <? total lv) && ok then available_levels o L ixs (avail + total lv)
        else if (0 <? total lv) && negb ok then avail
        else available_levels o L ixs avail
  end.

Definition available_fill (o : Order) (b : Impl) : Quantity :=
  let L := ladder (Opposite (o_side o)) b in
  if negb (has_base L) then 0
  else Z.min (available_levels o L (best_first L) 0) (o_leaves o).

(** ** match_level

    The loop state: the aggressor, the level under match (its [fifo] split at
    the iterator [it] into [m_done] and [m_todo]), the [progressed] flag, the
    rest of the book and the executions so far. *)
Record MState := mkM {
  m_o : Order;
  m_total : Quantity;
  m_displayed : Quantity;
  m_done : list OrderId;
  m_todo : list OrderId;
  m_progressed : bool;
  m_book : Impl;
  m_trades : list Trade;
}.

Inductive MStep :=
  | Continue (m : MState)
  | Break (m : MState)
  | Cancelled (m : MState).

(** The self-trade test of the loop body. *)
Definition self_trade (o : Order) (me : Entry) (b : Impl) : bool :=
  negb (bool_decide (stp b = kStpNone)) && negb (o_client_id o =? 0) &&
  (o_client_id (e_order me) =? o_client_id o).

(** The self-trade branch: cancel the maker, the aggressor, or both. *)
Definition stp_step (m : MState) (mid : OrderId) (me : Entry) (rest : list OrderId) : MStep :=
  let b := m_book m in
  let cancel_resting := bool_decide (stp b = kCancelResting) || bool_decide (stp b = kCancelBoth) in
  let cancel_aggressor := bool_decide (stp b = kCancelAggressor) || bool_decide (stp b = kCancelBoth) in
  let m :=
    if cancel_resting then
      let mo := e_order me in
      let d := DisplayedOf (o_flags mo) (o_leaves mo) (e_slice me) in
      let b := release_reserved mo (o_leaves mo) b in
      let b := emit_event kCancel mo (o_leaves mo) d b in
      let b := set_orders (delete mid (orders b)) b in
      let b := set_pegged (pegged b ∖ {[mid]}) b in
      mkM (m_o m) (m_total m - o_leaves mo) (m_displayed m - d)
        (m_done m) rest true b (m_trades m)
    else m in
  if cancel_aggressor then Cancelled m else Continue m.

(** One fill of maker [mid], with its removal, replenish or partial tail. *)
Definition fill_step (p : Ticks) (m : MState) (mid : OrderId) (me : Entry)
    (rest : list OrderId) : MStep :=
  let o := m_o m in
  let b := m_book m in
  let mo := e_order me in
  let iceberg := HasFlag (o_flags mo) kIceberg in
  let hidden := HasFlag (o_flags mo) kHidden in
  let avail := if iceberg then e_slice me else o_leaves mo in
  let fill := Z.min (o_leaves o) avail in
  let t := mkTrade (o_id o) mid (o_side o) p fill in
  let b := emit_trade t (if hidden then 0 else fill) b in
  let b := set_have_last true (set_last_price p b) in
  let o := set_o_filled (o_filled o + fill) (set_o_leaves (o_leaves o - fill) o) in
  let mo := set_o_filled (o_filled mo + fill) (set_o_leaves (o_leaves mo - fill) mo) in
  let tot := m_total m - fill in
  let disp := if hidden then m_displayed m else m_displayed m - fill in
  let slice := if iceberg then e_slice me - fill else e_slice me in
  let b := set_orders (<[mid := mkEntry mo slice]> (orders b)) b in
  let b := apply_position (o_client_id o) (o_side o) fill b in
  let b := apply_position (o_client_id mo) (o_side mo) fill b in
  let b := release_reserved mo fill b in
  let trades := m_trades m ++ [t] in
  if o_leaves mo =? 0 then
    let b := set_orders (delete mid (orders b)) b in
    let b := set_pegged (pegged b ∖ {[mid]}) b in
    Continue (mkM o tot disp (m_done m) rest true b trades)
  else if iceberg && (slice =? 0) then
    let slice := Z.min (o_display_qty mo) (o_leaves mo) in
    let '(mo, b) := requeue mo b in
    let b := set_orders (<[mid := mkEntry mo slice]> (orders b)) b in
    let b := emit_event kReplenish mo slice slice b in
    (* splice to the back; [next] is [end()] when the maker was already last *)
    match rest with
    | [] => Continue (mkM o tot (disp + slice) (m_done m ++ [mid]) [] true b trades)
    | _ => Continue (mkM o tot (disp + slice) (m_done m) (rest ++ [mid]) true b trades)
    end
  else
    Continue (mkM o tot disp (m_done m ++ [mid]) rest true b trades).

Definition match_step (p : Ticks) (m : MState) : res MStep :=
  if negb (0 <? o_leaves (m_o m)) then Ok (Break m)
  else match m_todo m with
  | [] =>
      if negb (m_progressed m) then Ok (Break m)
      else Ok (Continue (mkM (m_o m) (m_total m) (m_displayed m) [] (m_done m)
                           false (m_book m) (m_trades m)))
  | mid :: rest =>
      me ← at_or_throw (orders (m_book m) !! mid);
      if self_trade (m_o m) me (m_book m) then Ok (stp_step m mid me rest)
      else if HasFlag (o_flags (e_order me)) kAon &&
              (o_leaves (m_o m) <? o_leaves (e_order me)) then
        Ok (Continue (mkM (m_o m) (m_total m) (m_displayed m) (m_done m ++ [mid])
                        rest (m_progressed m) (m_book m) (m_trades m)))
      else Ok (fill_step p m mid me rest)
  end.

Fixpoint match_loop (fuel : nat) (p : Ticks) (m : MState) : res (bool * MState) :=
  match fuel with
  | O => Err OutOfFuel
  | S fuel =>
      st ← match_step p m;
      match st with
      | Continue m => match_loop fuel p m
      | Break m => Ok (false, m)
      | Cancelled m => Ok (true, m)
      end
  end.

(** Passes are bounded by the quantity to fill and the queue length; see
    [match_loop_total]. *)
Definition match_fuel (o : Order) (lv : Level) : nat :=
  let n := length (fifo lv) in
  S ((Z.to_nat (o_leaves o) + n) * (2 * n + 4) + n).

(** [match_level]: the loop from the head of the queue, then the write-back of
    the level and the cache update of both exits. *)
Definition match_level (o : Order) (s : Side) (lv : Level) (p : Ticks) (b : Impl)
    (trades : list Trade) : res (bool * Order * Impl * list Trade) :=
  '(c, m) ← match_loop (match_fuel o lv) p
             (mkM o (total lv) (displayed lv) [] (fifo lv) false b trades);
  let lv := mkLevel (m_total m) (m_displayed m) (m_done m ++ m_todo m) in
  let b := m_book m in
  let b := set_ladder s (settle (ladder s b) p lv) b in
  Ok (c, m_o m, b, m_trades m).

(** ** match *)
Fixpoint match_levels (ixs : list nat) (s : Side) (o : Order) (b : Impl)
    (trades : list Trade) : res (bool * Order * Impl * list Trade) :=
  match ixs with
  | [] => Ok (false, o, b, trades)
  | i :: ixs =>
      if negb (0 <? o_leaves o) then Ok (false, o, b, trades)
      else
        let L := ladder s b in
        let p := base L + Z.of_nat i in
        lv ← at_or_throw (levels L !! i);
        if total lv =? 0 then match_levels ixs s o b trades
        else if negb (acceptable o p) then Ok (false, o, b, trades)
        else
          '(c, o, b, trades) ← match_level o s lv p b trades;
          if (c : bool) then Ok (true, o, b, trades)
          else match_levels ixs s o b trades
  end.

Definition match_ (o : Order) (b : Impl) (trades : list Trade)
    : res (bool * Order * Impl * list Trade) :=
  let s := Opposite (o_side o) in
  let L := ladder s b in
  if negb (has_base L) then Ok (false, o, b, trades)
  else match_levels (best_first L) s o b trades.

(** ** The resident window *)
Definition deep_of (s : Side) (b : Impl) : Deep :=
  match s with Buy => deep_bid b | Sell => deep_ask b end.
Definition set_deep_of (s : Side) (d : Deep) (b : Impl) : Impl :=
  match s with Buy => set_deep_bid d b | Sell => set_deep_ask d b end.

Definition worse_than (s : Side) (p ref : Ticks) : bool :=
  match s with Buy => p <? ref | Sell => ref <? p end.

Definition note_deep (s : Side) (price : Ticks) (b : Impl) : Impl :=
  let d := deep_of s b in
  let bd :=
    if negb (d_has d) then price
    else match s with
         | Buy => Z.max (d_boundary d) price
         | Sell => Z.min (d_boundary d) price
         end in
  set_deep_of s (mkDeep true bd) b.

(** The body of [evict_worst]'s loop over the evicted queue. *)
Definition evict_one (acc : Impl * list Order) (i : OrderId) : Impl * list Order :=
  let '(b, evicted) := acc in
  match orders b !! i with
  | None => (b, evicted)
  | Some e =>
      let b := set_pegged (pegged b ∖ {[i]}) b in
      (set_orders (delete i (orders b)) b, evicted ++ [e_order e])
  end.

Definition evict_worst (s : Side) (b : Impl) (evicted : list Order) : Impl * list Order :=
  match worst_price (ladder s b) with
  | None => (b, evicted)
  | Some wp =>
      match at_level (ladder s b) wp with
      | None => (b, evicted)
      | Some lv =>
          let '(b, evicted) := foldl evict_one (b, evicted) (fifo lv) in
          let L := on_removed (set_level (ladder s b) wp empty_level) wp in
          (note_deep s wp (set_ladder s L b), evicted)
      end
  end.

(** The visible slice an order rests with. *)
Definition initial_slice (o : Order) : Quantity :=
  if HasFlag (o_flags o) kIceberg then Z.min (o_display_qty o) (o_leaves o) else 0.

(** Whether [rest] finds a new price level, and whether it rests deep. *)
Definition new_level (o : Order) (b : Impl) : bool :=
  if (0 <? mem_levels b)%nat then
    match at_level (ladder (o_side o) b) (o_price o) with
    | None => true
    | Some lv => total lv =? 0
    end
  else true.

Definition rests_deep (o : Order) (b : Impl) : bool :=
  let own := ladder (o_side o) b in
  (0 <? mem_levels b)%nat && new_level o b &&
  match worst_price own with
  | None => false
  | Some worst =>
      (mem_levels b <=? populated_count own)%nat &&
      worse_than (o_side o) (o_price o) worst
  end.

(** [rest]: resident flag, new state, and the orders pushed out of the window. *)
Definition rest (o : Order) (b : Impl) (evicted : list Order)
    : bool * Impl * list Order :=
  let slice := initial_slice o in
  let d := DisplayedOf (o_flags o) (o_leaves o) slice in
  if rests_deep o b then
    let b := note_deep (o_side o) (o_price o) b in
    (false, emit_event kAdd o (o_leaves o) d b, evicted)
  else
    let nl := new_level o b in
    let b := set_ladder (o_side o)
               (enqueue (ladder (o_side o) b) (o_price o) (o_id o) (o_leaves o) d) b in
    let b := set_orders
               (match orders b !! o_id o with
                | Some _ => orders b  (* emplace does not overwrite *)
                | None => <[o_id o := mkEntry o slice]> (orders b)
                end) b in
    let b :=
      if is_reduce_only o && negb (o_client_id o =? 0) then
        let p := default flat (positions b !! o_client_id o) in
        set_positions
          (<[o_client_id o :=
              set_reserved_on (o_side o) (reserved_on p (o_side o) + o_leaves o) p]>
             (positions b)) b
      else b in
    let '(b, evicted) :=
      if (0 <? mem_levels b)%nat && nl &&
         (mem_levels b <? populated_count (ladder (o_side o) b))%nat
      then evict_worst (o_side o) b evicted
      else (b, evicted) in
    (true, emit_event kAdd o (o_leaves o) d b, evicted).

Definition insert_resident (o : Order) (b : Impl) : Impl :=
  let slice := initial_slice o in
  let d := DisplayedOf (o_flags o) (o_leaves o) slice in
  let b := set_ladder (o_side o)
             (enqueue (ladder (o_side o) b) (o_price o) (o_id o) (o_leaves o) d) b in
  set_orders
    (match orders b !! o_id o with
     | Some _ => orders b
     | None => <[o_id o := mkEntry o slice]> (orders b)
     end) b.

(** ** Stops *)
Definition stop_triggered (o : Order) (px : Ticks) : bool :=
  match o_trigger o with
  | None => false
  | Some t =>
      match o_side o with
      | Buy => tr_stop_price t <=? px
      | Sell => px <=? tr_stop_price t
      end
  end.

Definition arm_stop (o : Order) (b : Impl) : Order :=
  match o_trigger o with
  | None => o
  | Some t =>
      match tr_kind t with
      | KStop => o
      | _ =>
          let ref := if have_last b then last_price b else tr_stop_price t in
          let sp := match o_side o with
                    | Sell => ref - tr_trail_by t
                    | Buy => ref + tr_trail_by t
                    end in
          set_o_trigger (Some (set_tr_stop_price sp (set_tr_high_water ref t))) o
      end
  end.

Definition update_trail (px : Ticks) (o : Order) : Order :=
  match o_trigger o with
  | None => o
  | Some t =>
      match tr_kind t with
      | KStop => o
      | _ =>
          match o_side o with
          | Sell =>
              if tr_high_water t <? px then
                set_o_trigger
                  (Some (set_tr_stop_price (px - tr_trail_by t) (set_tr_high_water px t))) o
              else o
          | Buy =>
              if px <? tr_high_water t then
                set_o_trigger
                  (Some (set_tr_stop_price (px + tr_trail_by t) (set_tr_high_water px t))) o
              else o
          end
      end
  end.

(** [inject]: match a now-active order and rest its remainder. *)
Definition inject (o : Order) (b : Impl) (trades : list Trade)
    : res (Order * Impl * list Trade) :=
  '(_, o, b, trades) ← match_ o b trades;
  if (0 <? o_leaves o) && negb (bool_decide (o_type o = Market)) &&
     negb (bool_decide (o_tif o = IOC))
  then let '(_, b, _) := rest o b [] in Ok (o, b, trades)
  else Ok (o, b, trades).

Definition mark_triggered (o : Order) : Order :=
  match o_trigger o with
  | None => o
  | Some t => set_o_trigger (Some (set_tr_triggered true t)) o
  end.

(** Arrival order of parked stops. *)
Definition by_seq (x y : OrderId * Order) : Prop := o_seq x.2 ≤ o_seq y.2.
#[export] Instance by_seq_dec : RelDecision by_seq.
Proof. intros x y. unfold by_seq. apply _. Defined.

(** One round: trail every stop, then collect those that fire, oldest first. *)
Definition trail_stops (b : Impl) : Impl :=
  if have_last b then set_stops (update_trail (last_price b) <$> stops b) b else b.

Definition firing (b : Impl) : list OrderId :=
  if have_last b then
    (merge_sort by_seq
       (List.filter (λ x : OrderId * Order, stop_triggered x.2 (last_price b))
          (map_to_list (stops b)))).*1
  else [].

Definition fire_stop (acc : Impl * list Trade) (i : OrderId) : res (Impl * list Trade) :=
  let '(b, trades) := acc in
  o ← at_or_throw (stops b !! i);
  let b := set_stops (delete i (stops b)) b in
  let o := mark_triggered o in
  let b := emit_event kTrigger o (o_leaves o) 0 b in
  '(_, b, trades) ← inject o b trades;
  Ok (b, trades).

Fixpoint evaluate_loop (fuel : nat) (b : Impl) (trades : list Trade)
    : res (Impl * list Trade) :=
  match fuel with
  | O => Err OutOfFuel
  | S fuel =>
      let b := trail_stops b in
      match firing b with
      | [] => Ok (b, trades)
      | fire =>
          '(b, trades) ← res_foldl fire_stop (b, trades) fire;
          evaluate_loop fuel b trades
      end
  end.

(** Every round that does not return fires a parked stop, and none is parked
    meanwhile. *)
Definition evaluate_stops (b : Impl) (trades : list Trade) : res (Impl * list Trade) :=
  evaluate_loop (S (size (stops b))) b trades.

(** ** Pegs *)
Definition has_nonpeg (b : Impl) (lv : Level) : bool :=
  existsb (λ i, match orders b !! i with
                | Some e => match o_peg (e_order e) with None => true | Some _ => false end
                | None => false
                end) (fifo lv).

Definition reference_best (s : Side) (b : Impl) : option Ticks :=
  let L := ladder s b in
  if negb (has_base L) then None
  else scan (λ lv, has_qty lv && has_nonpeg b lv) L (best_first L).

Definition compute_peg_price (o : Order) (b : Impl) : option Ticks :=
  pg ← o_peg o;
  let rb := reference_best Buy b in
  let ra := reference_best Sell b in
  ref ← match pg_ref pg with
        | RPrimary => match o_side o with Buy => rb | Sell => ra end
        | RMarket => match o_side o with Buy => ra | Sell => rb end
        | RMidpoint => vb ← rb; va ← ra; Some (Z.quot (vb + va) 2)
        end;
  let price := ref + pg_offset pg in
  let price :=
    if 0 <? pg_cap_limit pg then
      match o_side o with
      | Buy => Z.min price (pg_cap_limit pg)
      | Sell => Z.max price (pg_cap_limit pg)
      end
    else price in
  if price <=? 0 then None else Some price.

Definition move_pegged (i : OrderId) (new_price : Ticks) (b : Impl) : res Impl :=
  e ← at_or_throw (orders b !! i);
  let o := e_order e in
  let old_price := o_price o in
  let s := o_side o in
  let d := DisplayedOf (o_flags o) (o_leaves o) (e_slice e) in
  let L := dequeue (ladder s b) old_price i (o_leaves o) d in
  let o := set_o_price new_price o in
  let L := enqueue L new_price i (o_leaves o) d in
  let b := set_ladder s L b in
  let '(o, b) := requeue o b in
  let b := set_orders (<[i := mkEntry o (e_slice e)]> (orders b)) b in
  Ok (emit_reprice o old_price new_price (o_leaves o) d b).

Definition reprice_one (b : Impl) (i : OrderId) : res Impl :=
  match orders b !! i with
  | None => Ok (set_pegged (pegged b ∖ {[i]}) b)
  | Some e =>
      match compute_peg_price (e_order e) b with
      | None => Ok b
      | Some np =>
          if negb (np =? o_price (e_order e)) then move_pegged i np b else Ok b
      end
  end.

Definition by_entry_seq (x y : OrderId * Entry) : Prop :=
  o_seq (e_order x.2) ≤ o_seq (e_order y.2).
#[export] Instance by_entry_seq_dec : RelDecision by_entry_seq.
Proof. intros x y. unfold by_entry_seq. apply _. Defined.

(** Sorting by arrival reads [orders.at] of every id as soon as there are two. *)
Definition sort_pegged (b : Impl) (ids : list OrderId) : res (list OrderId) :=
  if (length ids <? 2)%nat then Ok ids
  else
    es ← at_or_throw (mapM (λ i, e ← orders b !! i; Some (i, e)) ids);
    Ok (merge_sort by_entry_seq es).*1.

Definition reprice_pegs (b : Impl) : res Impl :=
  ids ← sort_pegged b (elements (pegged b));
  res_foldl reprice_one b ids.

(** ** Auctions

    The pointer arrays [buys] and [sells] alias the queue's elements, so they
    are lists of positions in the queue, and fills update the queue. *)
Definition auction_get (q : list Order) (i : nat) : Order := default default_order (q !! i).

Definition auction_side (s : Side) (q : list Order) : list nat :=
  List.filter (λ i, bool_decide (o_side (auction_get q i) = s)) (seq 0 (length q)).

Definition is_market (o : Order) : bool := bool_decide (o_type o = Market).

Definition buy_ok (p : Ticks) (o : Order) : bool := is_market o || (p <=? o_price o).
Definition sell_ok (p : Ticks) (o : Order) : bool := is_market o || (o_price o <=? p).

Definition demand_at (q : list Order) (p : Ticks) : Quantity :=
  zsum (λ i, o_leaves (auction_get q i))
    (List.filter (λ i, buy_ok p (auction_get q i)) (auction_side Buy q)).
Definition supply_at (q : list Order) (p : Ticks) : Quantity :=
  zsum (λ i, o_leaves (auction_get q i))
    (List.filter (λ i, sell_ok p (auction_get q i)) (auction_side Sell q)).

(** [std::set<Ticks>]: the distinct limit prices, ascending. *)
Definition candidates (q : list Order) : list Ticks :=
  merge_sort Z.le (elements (list_to_set
    (o_price <$> List.filter (λ o, negb (is_market o)) q) : gset Z)).

Record Clearing := mkClearing {
  c_price : Ticks;
  c_volume : Quantity;
  c_imbalance : Quantity;
}.

Definition consider (q : list Order) (b : Impl) (cur : option Clearing) (p : Ticks)
    : option Clearing :=
  let d := demand_at q p in
  let s := supply_at q p in
  let v := Z.min d s in
  if v <=? 0 then cur
  else
    let imb := if s <? d then d - s else s - d in
    let better :=
      match cur with
      | None => true
      | Some c =>
          (c_volume c <? v) ||
          ((v =? c_volume c) && (imb <? c_imbalance c)) ||
          ((v =? c_volume c) && (imb =? c_imbalance c) &&
           (if have_last b then
              Z.abs (p - last_price b) <? Z.abs (c_price c - last_price b)
            else p <? c_price c))
      end in
    if better then Some (mkClearing p v imb) else cur.

Definition clearing (q : list Order) (b : Impl) : option Clearing :=
  match candidates q with
  | [] => if have_last b then consider q b None (last_price b) else None
  | ps => foldl (consider q b) None ps
  end.

(** The two [std::sort] comparators ("sorts strictly before"). *)
Definition buy_before (x y : Order) : bool :=
  if negb (Bool.eqb (is_market x) (is_market y)) then is_market x
  else if negb (o_price x =? o_price y) then o_price y <? o_price x
  else o_seq x <? o_seq y.
Definition sell_before (x y : Order) : bool :=
  if negb (Bool.eqb (is_market x) (is_market y)) then is_market x
  else if negb (o_price x =? o_price y) then o_price x <? o_price y
  else o_seq x <? o_seq y.

(** Not sorted after, read through the positions. *)
Definition not_after (before : Order → Order → bool) (q : list Order) (i j : nat) : Prop :=
  before (auction_get q j) (auction_get q i) = false.
#[export] Instance not_after_dec before q : RelDecision (not_after before q).
Proof. intros i j. unfold not_after. apply _. Defined.

Fixpoint cross_loop (fuel : nat) (pstar : Ticks) (q : list Order) (bs ss : list nat)
    (remaining : Quantity) (b : Impl) (trades : list Trade)
    : res (list Order * Impl * list Trade) :=
  match fuel with
  | O => Err OutOfFuel
  | S fuel =>
      match bs, ss with
      | i :: bs', j :: ss' =>
          if negb (0 <? remaining) then Ok (q, b, trades)
          else
            let bo := auction_get q i in
            let so := auction_get q j in
            if negb (buy_ok pstar bo) || negb (sell_ok pstar so) then Ok (q, b, trades)
            else
              let n := Z.min (Z.min (o_leaves bo) (o_leaves so)) remaining in
              let t := mkTrade (o_id bo) (o_id so) Buy pstar n in
              let b := emit_trade t (if HasFlag (o_flags so) kHidden then 0 else n) b in
              let bo := set_o_filled (o_filled bo + n) (set_o_leaves (o_leaves bo - n) bo) in
              let so := set_o_filled (o_filled so + n) (set_o_leaves (o_leaves so - n) so) in
              let q := <[j := so]> (<[i := bo]> q) in
              let b := apply_position (o_client_id bo) Buy n b in
              let b := apply_position (o_client_id so) Sell n b in
              cross_loop fuel pstar q
                (if o_leaves bo =? 0 then bs' else bs)
                (if o_leaves so =? 0 then ss' else ss)
                (remaining - n) b (trades ++ [t])
      | _, _ => Ok (q, b, trades)
      end
  end.

(** The sort and cross of the [have_p] branch. *)
Definition run_cross (c : Clearing) (q : list Order) (b : Impl)
    : res (list Order * Impl * list Trade) :=
  let bs := merge_sort (not_after buy_before q) (auction_side Buy q) in
  let ss := merge_sort (not_after sell_before q) (auction_side Sell q) in
  '(q, b, trades) ← cross_loop (S (S (length bs + length ss))) (c_price c) q bs ss
                      (c_volume c) b [];
  Ok (q, set_have_last true (set_last_price (c_price c) b), trades).

(** An unfilled LOO/LOC remainder enters continuous trading. *)
Definition inject_remainder (acc : Impl * list Trade) (o : Order) : res (Impl * list Trade) :=
  let '(b, trades) := acc in
  if (0 <? o_leaves o) && (HasFlag (o_flags o) kLoo || HasFlag (o_flags o) kLoc) then
    let r := set_o_flags (Z.land (o_flags o) (Z.lnot kAuctionMask)) o in
    '(_, b, trades) ← inject r b trades;
    Ok (b, trades)
  else Ok (b, trades).

Definition auction_queue (opening : bool) (b : Impl) : list Order :=
  if opening then opening_auction b else closing_auction b.
Definition clear_auction (opening : bool) (b : Impl) : Impl :=
  if opening then set_opening_auction [] b else set_closing_auction [] b.

Definition cross_auction (opening : bool) (b : Impl) : res (list Trade * Impl) :=
  match auction_queue opening b with
  | [] => Ok ([], b)
  | q =>
      '(q, b, trades) ← match clearing q b with
                        | Some c => run_cross c q b
                        | None => Ok (q, b, [])
                        end;
      '(b, trades) ← res_foldl inject_remainder (b, trades) q;
      let b := clear_auction opening b in
      match trades with
      | [] => Ok (trades, b)
      | _ =>
          '(b, trades) ← evaluate_stops b trades;
          b ← reprice_pegs b;
          Ok (trades, b)
      end
  end.

(** ** The public interface *)
Definition set_symbol (s : Symbol) (b : Impl) : Impl := set_symbol_ s b.
Definition take_requeued (b : Impl) : list Order * Impl := (requeued_ b, set_requeued_ [] b).
Definition seed_next_seq (next : SeqNo) (b : Impl) : Impl :=
  if next_seq b <? next then set_next_seq next b else b.
Definition set_event_sink (on : bool) (b : Impl) : Impl := set_event_sink_ on b.

Record SubmitOutcome := mkOutcome {
  out_accepted : bool;
  out_reject_reason : string;
  out_trades : list Trade;
  out_filled : Quantity;
  out_rested : bool;
  out_rested_deep : bool;
  out_pending_trigger : bool;
  out_held : bool;
  out_order_id : OrderId;
  out_evicted : list Order;
  out_resting : Order;
}.

Definition new_outcome (i : OrderId) : SubmitOutcome :=
  mkOutcome true "" [] 0 false false false false i [] default_order.
Definition rejected (i : OrderId) (why : string) : SubmitOutcome :=
  mkOutcome false why [] 0 false false false false i [] default_order.

(** Field assignment. *)
Definition set_out_trades v (x : SubmitOutcome) : SubmitOutcome :=
  mkOutcome (out_accepted x) (out_reject_reason x) v (out_filled x)
    (out_rested x) (out_rested_deep x) (out_pending_trigger x) (out_held x)
    (out_order_id x) (out_evicted x) (out_resting x).
Definition set_out_filled v (x : SubmitOutcome) : SubmitOutcome :=
  mkOutcome (out_accepted x) (out_reject_reason x) (out_trades x) v
    (out_rested x) (out_rested_deep x) (out_pending_trigger x) (out_held x)
    (out_order_id x) (out_evicted x) (out_resting x).
Definition set_out_rested v (x : SubmitOutcome) : SubmitOutcome :=
  mkOutcome (out_accepted x) (out_reject_reason x) (out_trades x)
    (out_filled x) v (out_rested_deep x) (out_pending_trigger x) (out_held x)
    (out_order_id x) (out_evicted x) (out_resting x).
Definition set_out_rested_deep v (x : SubmitOutcome) : SubmitOutcome :=
  mkOutcome (out_accepted x) (out_reject_reason x) (out_trades x)
    (out_filled x) (out_rested x) v (out_pending_trigger x) (out_held x)
    (out_order_id x) (out_evicted x) (out_resting x).
Definition set_out_pending_trigger v (x : SubmitOutcome) : SubmitOutcome :=
  mkOutcome (out_accepted x) (out_reject_reason x) (out_trades x)
    (out_filled x) (out_rested x) (out_rested_deep x) v (out_held x)
    (out_order_id x) (out_evicted x) (out_resting x).
Definition set_out_held v (x : SubmitOutcome) : SubmitOutcome :=
  mkOutcome (out_accepted x) (out_reject_reason x) (out_trades x)
    (out_filled x) (out_rested x) (out_rested_deep x) (out_pending_trigger x)
    v (out_order_id x) (out_evicted x) (out_resting x).
Definition set_out_resting v (x : SubmitOutcome) : SubmitOutcome :=
  mkOutcome (out_accepted x) (out_reject_reason x) (out_trades x)
    (out_filled x) (out_rested x) (out_rested_deep x) (out_pending_trigger x)
    (out_held x) (out_order_id x) (out_evicted x) v.

(** The three assignments that follow every [rest] in [submit]. *)
Definition note_rest (r : bool) (o : Order) (ev : list Order) (out : SubmitOutcome)
    : SubmitOutcome :=
  mkOutcome (out_accepted out) (out_reject_reason out) (out_trades out) (out_filled out)
    r (negb r) (out_pending_trigger out) (out_held out) (out_order_id out) ev o.

Definition cancel (i : OrderId) (b : Impl) : res (bool * Impl) :=
  match stops b !! i with
  | Some _ => Ok (true, set_stops (delete i (stops b)) b)
  | None =>
  match list_find (λ o, o_id o = i) (opening_auction b) with
  | Some (k, _) => Ok (true, set_opening_auction (delete k (opening_auction b)) b)
  | None =>
  match list_find (λ o, o_id o = i) (closing_auction b) with
  | Some (k, _) => Ok (true, set_closing_auction (delete k (closing_auction b)) b)
  | None =>
  match orders b !! i with
  | None => Ok (false, b)
  | Some e =>
      let was_pegged := bool_decide (i ∈ pegged b) in
      let b := set_pegged (pegged b ∖ {[i]}) b in
      let o := e_order e in
      let d := DisplayedOf (o_flags o) (o_leaves o) (e_slice e) in
      let b := emit_event kCancel o (o_leaves o) d b in
      let b := release_reserved o (o_leaves o) b in
      let b := set_ladder (o_side o)
                 (dequeue (ladder (o_side o) b) (o_price o) i (o_leaves o) d) b in
      let b := set_orders (delete i (orders b)) b in
      if was_pegged then Ok (true, b)
      else b ← reprice_pegs b; Ok (true, b)
  end end end end.

Definition find (i : OrderId) (b : Impl) : option Order := e_order <$> orders b !! i.

Definition best_bid (b : Impl) : option Ticks * Impl :=
  let '(r, L) := best (bids b) in (r, set_bids L b).
Definition best_ask (b : Impl) : option Ticks * Impl :=
  let '(r, L) := best (asks b) in (r, set_asks L b).

Definition total_qty_at (s : Side) (p : Ticks) (b : Impl) : Quantity :=
  match at_level (ladder s b) p with None => 0 | Some lv => total lv end.
Definition displayed_qty_at (s : Side) (p : Ticks) (b : Impl) : Quantity :=
  match at_level (ladder s b) p with None => 0 | Some lv => displayed lv end.

(** Ids whose entry has expired at [now], ascending. *)
Definition expired_ids (now : Timestamp) (b : Impl) : list OrderId :=
  merge_sort Z.le
    (List.filter
       (λ x : OrderId * Entry,
          let e := o_expiry_ns (e_order x.2) in (0 <? e) && (e <=? now))
       (map_to_list (orders b))).*1.

Definition expire (now : Timestamp) (b : Impl) : res (list OrderId * Impl) :=
  let ids := expired_ids now b in
  b ← res_foldl (λ b i, '(_, b) ← cancel i b; Ok b) b ids;
  Ok (ids, b).

Definition last_trade_price (b : Impl) : option Ticks :=
  if have_last b then Some (last_price b) else None.

Definition seed_position (c : ClientId) (n : Quantity) (b : Impl) : Impl :=
  if c =? 0 then b
  else
    let p := default flat (positions b !! c) in
    set_positions (<[c := mkPosition n (reserved_sell p) (reserved_buy p)]> (positions b)) b.

Definition position (c : ClientId) (b : Impl) : Quantity :=
  match positions b !! c with None => 0 | Some p => net p end.

Definition has_deep (s : Side) (b : Impl) : bool := d_has (deep_of s b).
Definition deep_boundary (s : Side) (b : Impl) : option Ticks :=
  let d := deep_of s b in if d_has d then Some (d_boundary d) else None.
Definition worst_resident (s : Side) (b : Impl) : option Ticks := worst_price (ladder s b).

Definition run_opening_auction (b : Impl) : res (list Trade * Impl) := cross_auction true b.
Definition run_closing_auction (b : Impl) : res (list Trade * Impl) := cross_auction false b.

Definition auction_count (opening : bool) (b : Impl) : nat := length (auction_queue opening b).
Definition resting_count (b : Impl) : nat := size (orders b).
Definition pending_stop_count (b : Impl) : nat := size (stops b).

(** ** submit *)

(** Trigger branch: arm, then fire at once or park. *)
Definition submit_stop (o : Order) (b : Impl) : res (SubmitOutcome * Impl) :=
  let out := new_outcome (o_id o) in
  let o := arm_stop o b in
  if have_last b && stop_triggered o (last_price b) then
    let o := mark_triggered o in
    '(o, b, trades) ← inject o b [];
    let rested := (0 <? o_leaves o) && negb (bool_decide (o_type o = Market)) &&
                  negb (bool_decide (o_tif o = IOC)) in
    '(b, trades) ← evaluate_stops b trades;
    Ok (set_out_rested rested (set_out_filled (o_filled o) (set_out_trades trades out)), b)
  else
    let b := set_stops
               (match stops b !! o_id o with
                | Some _ => stops b
                | None => <[o_id o := o]> (stops b)
                end) b in
    Ok (set_out_pending_trigger true out, b).

(** Peg branch: rest at the derived price, without matching. *)
Definition submit_peg (o : Order) (b : Impl) : res (SubmitOutcome * Impl) :=
  let out := new_outcome (o_id o) in
  match compute_peg_price o b with
  | None => Ok (rejected (o_id o) "no reference price for peg", b)
  | Some price =>
      let o := set_o_price price (set_o_type Limit o) in
      let '(resident, b, ev) := rest o b [] in
      let b := if resident then set_pegged ({[o_id o]} ∪ pegged b) b else b in
      Ok (note_rest resident o ev out, b)
  end.

(** Release the pending children of a group whose parent has filled. *)
Definition release_children (submit : Order → Impl → res (SubmitOutcome * Impl))
    (gid : Z) (out : SubmitOutcome) (b : Impl) : res (SubmitOutcome * Impl) :=
  let g := default empty_group (groups b !! gid) in
  let child := g_pending_child g in
  let b := set_groups (<[gid := set_g_pending_child None g]> (groups b)) b in
  '(out, b) ← match child with
              | None => Ok (out, b)
              | Some c =>
                  '(co, b) ← submit (set_o_link None c) b;
                  Ok (set_out_trades (out_trades out ++ out_trades co) out, b)
              end;
  let g := default empty_group (groups b !! gid) in
  let pend := g_pending_oco g in
  let b := set_groups (<[gid := set_g_pending_oco [] g]> (groups b)) b in
  res_foldl
    (λ '(out, b) c,
       '(co, b) ← submit (set_o_link (Some (mkLink OcoLeg gid)) c) b;
       Ok (set_out_trades (out_trades out ++ out_trades co) out, b))
    (out, b) pend.

(** The linked orders that filled: the aggressor and the makers hit, ascending. *)
Definition linked_fills (submitted : Order) (out : SubmitOutcome) (b : Impl) : list OrderId :=
  let self := match o_link submitted with
              | Some _ => if 0 <? o_filled submitted then [o_id submitted] else []
              | None => []
              end in
  let makers := List.filter (λ i, match order_group b !! i with Some _ => true | None => false end)
                  (t_maker_id <$> out_trades out) in
  merge_sort Z.le (elements (list_to_set (self ++ makers) : gset Z)).

(** Cancel every leg but [i]. *)
Definition cancel_leg (i : OrderId) (b : Impl) (other : OrderId) : res Impl :=
  if other =? i then Ok b
  else
    let b := set_order_group (delete other (order_group b)) b in
    '(_, b) ← cancel other b; Ok b.

(** The body of the loop over the filled linked orders. *)
Definition link_fill (submit : Order → Impl → res (SubmitOutcome * Impl))
    (submitted : Order) (acc : SubmitOutcome * Impl) (i : OrderId)
    : res (SubmitOutcome * Impl) :=
  let '(out, b) := acc in
  let own := match o_link submitted with Some _ => i =? o_id submitted | None => false end in
  let gid := match o_link submitted with
             | Some l => if own then Some (lk_group_id l) else order_group b !! i
             | None => order_group b !! i
             end in
  match gid with
  | None => Ok (out, b)
  | Some gid =>
      match groups b !! gid with
      | None => Ok (out, b)
      | Some g =>
          b ← (if bool_decide (i ∈ g_oco_legs g) then
                 b ← res_foldl (cancel_leg i) b (g_oco_legs g);
                 let g := default empty_group (groups b !! gid) in
                 let b := set_groups (<[gid := set_g_oco_legs [] g]> (groups b)) b in
                 Ok (set_order_group (delete i (order_group b)) b)
               else Ok b);
          let fully := if own then o_leaves submitted =? 0
                       else match orders b !! i with None => true | Some _ => false end in
          let g := default empty_group (groups b !! gid) in
          let b := set_groups (<[gid := g]> (groups b)) b in
          if (g_parent g =? i) && fully then release_children submit gid out b
          else Ok (out, b)
      end
  end.

Definition process_link_fills (submit : Order → Impl → res (SubmitOutcome * Impl))
    (submitted : Order) (out : SubmitOutcome) (b : Impl) : res (SubmitOutcome * Impl) :=
  res_foldl (link_fill submit submitted) (out, b) (linked_fills submitted out b).

(** Register an active contingent order with its group. *)
Definition register_link (o : Order) (rested : bool) (b : Impl) : Impl :=
  match o_link o with
  | None => b
  | Some l =>
      let gid := lk_group_id l in
      let g := default empty_group (groups b !! gid) in
      let b := match lk_role l with
               | OcoLeg => set_groups (<[gid := set_g_oco_legs (g_oco_legs g ++ [o_id o]) g]> (groups b)) b
               | OtoParent | BracketParent => set_groups (<[gid := set_g_parent (o_id o) g]> (groups b)) b
               | _ => b
               end in
      if rested then set_order_group (<[o_id o := gid]> (order_group b)) b else b
  end.

(** The continuous path: match, rest, cascade, reprice, links. *)
Definition submit_match (submit : Order → Impl → res (SubmitOutcome * Impl))
    (o : Order) (b : Impl) : res (SubmitOutcome * Impl) :=
  '(cancelled, o, b, trades) ← match_ o b [];
  let out := set_out_filled (o_filled o) (set_out_trades trades (new_outcome (o_id o))) in
  let '(out, b) :=
    if (0 <? o_leaves o) && negb cancelled && negb (bool_decide (o_type o = Market)) &&
       negb (bool_decide (o_tif o = IOC))
    then let '(resident, b, ev) := rest o b [] in (note_rest resident o ev out, b)
    else (out, b) in
  '(b, trades) ← match out_trades out with
                 | [] => Ok (b, [])
                 | ts => evaluate_stops b ts
                 end;
  let out := set_out_trades trades out in
  b ← reprice_pegs b;
  let b := register_link o (out_rested out) b in
  process_link_fills submit o out b.

(** From the Post-Only check to the end: reduce-only, all-or-none and minimum
    quantity gates in front of [submit_match]. *)
Definition submit_continuous (submit : Order → Impl → res (SubmitOutcome * Impl))
    (o : Order) (b : Impl) : res (SubmitOutcome * Impl) :=
  let '(would_cross, b) := if HasFlag (o_flags o) kPostOnly then crosses o b else (false, b) in
  if would_cross then Ok (rejected (o_id o) "post-only would cross", b)
  else if is_reduce_only o && (o_client_id o =? 0) then
    Ok (rejected (o_id o) "reduce-only requires an account", b)
  else
    let cap := reduce_only_capacity o b in
    if is_reduce_only o && (cap <=? 0) then
      Ok (rejected (o_id o) "reduce-only: no position to reduce", b)
    else
      let o := if is_reduce_only o && (cap <? o_leaves o)
               then set_o_qty cap (set_o_leaves cap o) else o in
      if HasFlag (o_flags o) kAon && (available_fill o b <? o_leaves o) then
        if bool_decide (o_tif o = IOC) || bool_decide (o_type o = Market) then
          Ok (rejected (o_id o) "all-or-none not fully fillable", b)
        else
          let '(resident, b, ev) := rest o b [] in
          b ← reprice_pegs b;
          Ok (note_rest resident o ev (new_outcome (o_id o)), b)
      else if (0 <? o_min_qty o) && (o_qty o <? o_min_qty o) then
        Ok (rejected (o_id o) "min_qty exceeds qty", b)
      else if (0 <? o_min_qty o) && (available_fill o b <? o_min_qty o) then
        Ok (rejected (o_id o) "minimum quantity not available", b)
      else submit_match submit o b.

(** [submit] after normalisation and stamping: validation, auction queues,
    held children, stops, pegs, then continuous matching. *)
Definition submit_stamped (submit : Order → Impl → res (SubmitOutcome * Impl))
    (o : Order) (b : Impl) : res (SubmitOutcome * Impl) :=
  if (o_qty o <=? 0) || (o_leaves o <=? 0) then
    Ok (rejected (o_id o) "non-positive quantity", b)
  else if bool_decide (o_type o = Limit) && (o_price o <=? 0) &&
          match o_peg o with None => true | Some _ => false end then
    Ok (rejected (o_id o) "non-positive limit price", b)
  else if match orders b !! o_id o, stops b !! o_id o with
          | None, None => false | _, _ => true end then
    Ok (rejected (o_id o) "duplicate order id", b)
  else if IsOpeningAuction (o_flags o) then
    Ok (set_out_held true (new_outcome (o_id o)),
        set_opening_auction (opening_auction b ++ [o]) b)
  else if IsClosingAuction (o_flags o) then
    Ok (set_out_held true (new_outcome (o_id o)),
        set_closing_auction (closing_auction b ++ [o]) b)
  else
    let active :=
      match o_trigger o with
      | Some t => if negb (tr_triggered t) then submit_stop o b
                  else match o_peg o with
                       | Some _ => submit_peg o b
                       | None => submit_continuous submit o b
                       end
      | None => match o_peg o with
                | Some _ => submit_peg o b
                | None => submit_continuous submit o b
                end
      end in
    match o_link o with
    | Some l =>
        let gid := lk_group_id l in
        let g := default empty_group (groups b !! gid) in
        match lk_role l with
        | OtoChild =>
            Ok (set_out_held true (new_outcome (o_id o)),
                set_groups (<[gid := set_g_pending_child (Some o) g]> (groups b)) b)
        | BracketTakeProfit | BracketStopLoss =>
            Ok (set_out_held true (new_outcome (o_id o)),
                set_groups (<[gid := set_g_pending_oco (g_pending_oco g ++ [o]) g]> (groups b)) b)
        | _ => active
        end
    | None => active
    end.

(** Normalise and stamp the arrival sequence. *)
Definition stamp (o : Order) (b : Impl) : Order * Impl :=
  let o := Normalize o in
  let o := set_o_rank (next_seq b) (set_o_seq (next_seq b) o) in
  (o, set_next_seq (next_seq b + 1) b).

Fixpoint submit_fuel (fuel : nat) (o : Order) (b : Impl) : res (SubmitOutcome * Impl) :=
  match fuel with
  | O => Err OutOfFuel
  | S fuel =>
      let '(o, b) := stamp o b in
      submit_stamped (submit_fuel fuel) o b
  end.

(** Orders held for release by any group. *)
Definition group_pending (g : Group) : list Order :=
  match g_pending_child g with Some c => [c] | None => [] end ++ g_pending_oco g.

Definition pending_total (b : Impl) : nat :=
  map_sum (λ g, length (group_pending g)) (groups b).

(** A nested [submit] happens only when a held order was taken out of its
    group, so the recursion is as deep as the number of held orders. *)
Definition submit (o : Order) (b : Impl) : res (SubmitOutcome * Impl) :=
  submit_fuel (S (pending_total b)) o b.

(** Operations stay folded under [simpl] and [cbn]. *)
#[global] Arguments match_ : simpl never.
#[global] Arguments rest : simpl never.
#[global] Arguments inject : simpl never.
#[global] Arguments evaluate_stops : simpl never.
#[global] Arguments reprice_pegs : simpl never.
#[global] Arguments cancel : simpl never.
#[global] Arguments submit : simpl never.
