(* ===== verification/Replica.v ===== *)
(** * The feed replica

    [BookReplica] ([src/feed/book_replica.cc]): the market-by-order map and the
    aggregated depth a feed helper maintains from the book-event stream alone.

    [replica_ok] ties the aggregated maps to the order map; [apply_sym_ok] shows
    that every event coherent with the order map preserves it. *)

From S2P Require Import Prelude.
From S2P Require Import Order.

(** ** State *)
Record OrderView := mkView {
  v_id : OrderId;
  v_side : Side;
  v_price : Ticks;
  v_qty : Quantity;
  v_displayed : Quantity;
}.

Record SymBook := mkSymBook {
  r_bids : gmap Ticks Quantity;
  r_asks : gmap Ticks Quantity;
  r_disp_bids : gmap Ticks Quantity;
  r_disp_asks : gmap Ticks Quantity;
  r_orders : gmap OrderId OrderView;
}.
Definition empty_sym : SymBook := mkSymBook ∅ ∅ ∅ ∅ ∅.

Record BookReplica := mkReplica {
  r_books : gmap Symbol SymBook;
  r_last_seq : SeqNo;
  r_gaps : Z;
}.
Definition new_replica : BookReplica := mkReplica ∅ 0 0.

(** ** Operations *)
Definition bump (m : gmap Ticks Quantity) (price : Ticks) (delta : Quantity)
    : gmap Ticks Quantity :=
  match m !! price with
  | None => if 0 <? delta then <[price := delta]> m else m
  | Some q => if q + delta <=? 0 then delete price m else <[price := q + delta]> m
  end.

Definition side_map (b : SymBook) (s : Side) : gmap Ticks Quantity :=
  match s with Buy => r_bids b | Sell => r_asks b end.
Definition disp_map (b : SymBook) (s : Side) : gmap Ticks Quantity :=
  match s with Buy => r_disp_bids b | Sell => r_disp_asks b end.

(** The paired [bump]s of the matchable and the lit map of a side. *)
Definition bump_both (s : Side) (price : Ticks) (dq dd : Quantity) (b : SymBook) : SymBook :=
  match s with
  | Buy => mkSymBook (bump (r_bids b) price dq) (r_asks b)
             (bump (r_disp_bids b) price dd) (r_disp_asks b) (r_orders b)
  | Sell => mkSymBook (r_bids b) (bump (r_asks b) price dq)
              (r_disp_bids b) (bump (r_disp_asks b) price dd) (r_orders b)
  end.
Definition set_r_orders (m : gmap OrderId OrderView) (b : SymBook) : SymBook :=
  mkSymBook (r_bids b) (r_asks b) (r_disp_bids b) (r_disp_asks b) m.

(** The [switch] of [apply] on one symbol's book. *)
Definition apply_sym (b : SymBook) (ev : BookEvent) : SymBook :=
  match ev_type ev with
  | kAdd =>
      let b := set_r_orders
                 (<[ev_order_id ev := mkView (ev_order_id ev) (ev_side ev) (ev_price ev)
                                        (ev_qty ev) (ev_displayed ev)]> (r_orders b)) b in
      bump_both (ev_side ev) (ev_price ev) (ev_qty ev) (ev_displayed ev) b
  | kCancel =>
      match r_orders b !! ev_order_id ev with
      | None => b
      | Some ov =>
          set_r_orders (delete (ev_order_id ev) (r_orders b))
            (bump_both (v_side ov) (v_price ov) (- v_qty ov) (- v_displayed ov) b)
      end
  | kTrade =>
      match r_orders b !! ev_order_id ev with
      | None => b
      | Some ov =>
          let ov' := mkView (v_id ov) (v_side ov) (v_price ov) (v_qty ov - ev_qty ev)
                       (v_displayed ov - ev_displayed ev) in
          set_r_orders
            (if v_qty ov' <=? 0 then delete (ev_order_id ev) (r_orders b)
             else <[ev_order_id ev := ov']> (r_orders b))
            (bump_both (v_side ov) (v_price ov) (- ev_qty ev) (- ev_displayed ev) b)
      end
  | kReprice =>
      match r_orders b !! ev_order_id ev with
      | None => b
      | Some ov =>
          let b := bump_both (v_side ov) (v_price ov) (- v_qty ov) (- v_displayed ov) b in
          let ov' := mkView (v_id ov) (v_side ov) (ev_price ev) (v_qty ov) (ev_displayed ev) in
          let b := bump_both (v_side ov') (v_price ov') (v_qty ov') (v_displayed ov') b in
          set_r_orders (<[ev_order_id ev := ov']> (r_orders b)) b
      end
  | kReplenish =>
      match r_orders b !! ev_order_id ev with
      | None => b
      | Some ov =>
          let ov' := mkView (v_id ov) (v_side ov) (v_price ov) (v_qty ov)
                       (v_displayed ov + ev_displayed ev) in
          set_r_orders (<[ev_order_id ev := ov']> (r_orders b))
            (bump_both (v_side ov) (v_price ov) 0 (ev_displayed ev) b)
      end
  | kTrigger => b
  end.

(** [apply]: gap detection, then the event on its symbol's book. *)
Definition apply (r : BookReplica) (ev : BookEvent) : bool * BookReplica :=
  let gap := negb (r_last_seq r =? 0) && negb (ev_seq ev =? 0) &&
             negb (ev_seq ev =? r_last_seq r + 1) in
  let gaps := if gap then r_gaps r + 1 else r_gaps r in
  let last := if r_last_seq r <? ev_seq ev then ev_seq ev else r_last_seq r in
  let b := default empty_sym (r_books r !! ev_symbol ev) in
  (gap, mkReplica (<[ev_symbol ev := apply_sym b ev]> (r_books r)) last gaps).

Definition map_of (b : SymBook) (s : Side) (disp : bool) : gmap Ticks Quantity :=
  if disp then disp_map b s else side_map b s.

(** The map's entries in the side's price order, best first. *)
Definition price_better (s : Side) (x y : Ticks * Quantity) : Prop :=
  match s with Buy => y.1 ≤ x.1 | Sell => x.1 ≤ y.1 end.
#[export] Instance price_better_dec s : RelDecision (price_better s).
Proof. intros x y. destruct s; simpl; apply _. Defined.

Definition sorted_levels (s : Side) (m : gmap Ticks Quantity) : list (Ticks * Quantity) :=
  merge_sort (price_better s) (map_to_list m).

Definition best_of (r : BookReplica) (sym : Symbol) (s : Side) (disp : bool)
    : option (Ticks * Quantity) :=
  b ← r_books r !! sym; head (sorted_levels s (map_of b s disp)).

Definition depth_of (r : BookReplica) (sym : Symbol) (s : Side) (disp : bool) (max : nat)
    : list (Ticks * Quantity) :=
  match r_books r !! sym with
  | None => []
  | Some b =>
      let ls := sorted_levels s (map_of b s disp) in
      if (max =? 0)%nat then ls else take max ls
  end.

Definition orders_at (r : BookReplica) (sym : Symbol) (s : Side) (p : Ticks) : list OrderView :=
  match r_books r !! sym with
  | None => []
  | Some b => List.filter (λ ov, bool_decide (v_side ov = s) && (v_price ov =? p))
                (map_to_list (r_orders b)).*2
  end.

(** ** The order map on its own *)
Definition l3_apply (m : gmap OrderId OrderView) (ev : BookEvent) : gmap OrderId OrderView :=
  r_orders (apply_sym (mkSymBook ∅ ∅ ∅ ∅ m) ev).

Definition l3 (evs : list BookEvent) : gmap OrderId OrderView := foldl l3_apply ∅ evs.

Lemma r_orders_bump s p dq dd b : r_orders (bump_both s p dq dd b) = r_orders b.
Proof. by destruct s. Qed.

Lemma apply_sym_orders b ev : r_orders (apply_sym b ev) = l3_apply (r_orders b) ev.
Proof.
  unfold l3_apply, apply_sym. destruct (ev_type ev); simpl; rewrite ?r_orders_bump; try done;
    destruct (r_orders b !! ev_order_id ev); simpl; rewrite ?r_orders_bump; done.
Qed.

Lemma l3_snoc evs ev : l3 (evs ++ [ev]) = l3_apply (l3 evs) ev.
Proof. unfold l3. by rewrite foldl_app. Qed.

(** ** Coherence of an event with the order map it meets *)
Definition coherent (m : gmap OrderId OrderView) (ev : BookEvent) : Prop :=
  match ev_type ev with
  | kAdd => m !! ev_order_id ev = None ∧ 0 < ev_qty ev ∧ 0 ≤ ev_displayed ev
  | kTrade =>
      match m !! ev_order_id ev with
      | None => True
      | Some ov =>
          0 ≤ ev_qty ev ≤ v_qty ov ∧ 0 ≤ ev_displayed ev ≤ v_displayed ov ∧
          (ev_qty ev = v_qty ov → ev_displayed ev = v_displayed ov)
      end
  | kReprice | kReplenish => 0 ≤ ev_displayed ev
  | kCancel | kTrigger => True
  end.

Fixpoint coherent_from (m : gmap OrderId OrderView) (evs : list BookEvent) : Prop :=
  match evs with
  | [] => True
  | ev :: evs => coherent m ev ∧ coherent_from (l3_apply m ev) evs
  end.

Lemma coherent_from_snoc m evs ev :
  coherent_from m evs → coherent (foldl l3_apply m evs) ev →
  coherent_from m (evs ++ [ev]).
Proof.
  revert m. induction evs as [|e evs IH]; intros m; simpl; [by split|].
  intros [? ?] ?. split; [done|]. by apply IH.
Qed.

(** ** Aggregated depth agrees with the order map *)
Definition at_price (f : OrderView → Quantity) (s : Side) (p : Ticks) (ov : OrderView) : Quantity :=
  if bool_decide (v_side ov = s) && (v_price ov =? p) then f ov else 0.

Definition agg (f : OrderView → Quantity) (m : gmap OrderId OrderView) (s : Side) (p : Ticks)
    : Quantity := map_zsum (at_price f s p) m.

(** A stored level is a positive sum; a zero sum is not stored. *)
Definition stored (q : Quantity) : option Quantity := if 0 <? q then Some q else None.

Definition views_ok (m : gmap OrderId OrderView) : Prop :=
  ∀ i ov, m !! i = Some ov → 0 < v_qty ov ∧ 0 ≤ v_displayed ov.

Definition replica_ok (b : SymBook) : Prop :=
  views_ok (r_orders b) ∧
  ∀ s p, side_map b s !! p = stored (agg v_qty (r_orders b) s p) ∧
         disp_map b s !! p = stored (agg v_displayed (r_orders b) s p).

Lemma bump_stored m p d a r :
  0 ≤ a → 0 ≤ a + d → m !! p = stored a →
  bump m p d !! r = if decide (r = p) then stored (a + d) else m !! r.
Proof.
  intros Ha Had Hm. unfold bump, stored in *. rewrite Hm.
  destruct (0 <? a) eqn:E; bool_split.
  - destruct (a + d <=? 0) eqn:E2; bool_split.
    + rewrite (proj2 (Z.ltb_ge 0 (a + d))) by lia. rewrite lookup_delete.
      repeat case_decide; congruence.
    + rewrite (proj2 (Z.ltb_lt 0 (a + d))) by lia. rewrite lookup_insert.
      repeat case_decide; congruence.
  - replace a with 0 in * by lia. rewrite Z.add_0_l.
    destruct (0 <? d) eqn:E2; bool_split.
    + rewrite lookup_insert. repeat case_decide; congruence.
    + case_decide; [by subst|done].
Qed.

Lemma agg_nonneg f m s p : (∀ i ov, m !! i = Some ov → 0 ≤ f ov) → 0 ≤ agg f m s p.
Proof.
  intros H. apply map_zsum_nonneg. intros i ov Hi. unfold at_price. case_if; [by eapply H|done].
Qed.

Lemma agg_insert f m s p i ov :
  agg f (<[i := ov]> m) s p =
  agg f m s p - from_option (at_price f s p) 0 (m !! i) + at_price f s p ov.
Proof. apply map_zsum_update. Qed.

Lemma agg_delete f m s p i :
  agg f (delete i m) s p = agg f m s p - from_option (at_price f s p) 0 (m !! i).
Proof. apply map_zsum_delete. Qed.

Lemma agg_member f m i ov :
  (∀ i ov, m !! i = Some ov → 0 ≤ f ov) → m !! i = Some ov →
  f ov ≤ agg f m (v_side ov) (v_price ov).
Proof.
  intros Hf Hi.
  replace (f ov) with (at_price f (v_side ov) (v_price ov) ov).
  - apply (map_zsum_ge _ _ i); [|done]. intros j w Hj. unfold at_price.
    case_if; [by eapply Hf|done].
  - unfold at_price. by rewrite bool_decide_eq_true_2, Z.eqb_refl.
Qed.

Lemma side_map_bump s p dq dd b t :
  side_map (bump_both s p dq dd b) t =
  if decide (t = s) then bump (side_map b s) p dq else side_map b t.
Proof. by destruct s, t. Qed.
Lemma disp_map_bump s p dq dd b t :
  disp_map (bump_both s p dq dd b) t =
  if decide (t = s) then bump (disp_map b s) p dd else disp_map b t.
Proof. by destruct s, t. Qed.
Lemma side_map_set_orders m b : side_map (set_r_orders m b) = side_map b.
Proof. done. Qed.
Lemma disp_map_set_orders m b : disp_map (set_r_orders m b) = disp_map b.
Proof. done. Qed.

(** The depth half of [replica_ok], against any target sums. *)
Definition depth_ok (b : SymBook) (fq fd : Side → Ticks → Quantity) : Prop :=
  ∀ s p, side_map b s !! p = stored (fq s p) ∧ disp_map b s !! p = stored (fd s p).

(** Add [d] to the sums of one level. *)
Definition shift (s : Side) (p : Ticks) (d : Quantity) (f : Side → Ticks → Quantity)
    (t : Side) (r : Ticks) : Quantity :=
  f t r + (if bool_decide (t = s) && (r =? p) then d else 0).

Lemma depth_ok_bump s p dq dd b fq fd :
  depth_ok b fq fd → 0 ≤ fq s p → 0 ≤ fq s p + dq → 0 ≤ fd s p → 0 ≤ fd s p + dd →
  depth_ok (bump_both s p dq dd b) (shift s p dq fq) (shift s p dd fd).
Proof.
  intros Hd Hq Hq' Hdd Hdd' t r. unfold shift.
  rewrite side_map_bump, disp_map_bump. case_decide as Ht; [subst t|].
  - rewrite bool_decide_eq_true_2 by done. simpl.
    rewrite (bump_stored _ p dq (fq s p)) by (done || apply Hd).
    rewrite (bump_stored _ p dd (fd s p)) by (done || apply Hd).
    destruct (Z.eqb_spec r p) as [->|Hne].
    + by rewrite !decide_True.
    + rewrite !decide_False by done. rewrite !Z.add_0_r. apply Hd.
  - rewrite bool_decide_eq_false_2 by done. simpl. rewrite !Z.add_0_r. apply Hd.
Qed.

Lemma depth_ok_ext b fq fd gq gd :
  depth_ok b fq fd → (∀ s p, fq s p = gq s p) → (∀ s p, fd s p = gd s p) →
  depth_ok b gq gd.
Proof. intros H Eq Ed s p. rewrite <-Eq, <-Ed. apply H. Qed.

Lemma at_price_shift f ov t r :
  at_price f t r ov = if bool_decide (t = v_side ov) && (r =? v_price ov) then f ov else 0.
Proof.
  unfold at_price. rewrite (Z.eqb_sym r).
  rewrite (bool_decide_ext (t = v_side ov) (v_side ov = t)); [done|naive_solver].
Qed.

Section apply_ok.
Context (b : SymBook) (ev : BookEvent).
Hypothesis Hviews : views_ok (r_orders b).
Hypothesis Hdepth : depth_ok b (agg v_qty (r_orders b)) (agg v_displayed (r_orders b)).
Hypothesis Hcoh : coherent (r_orders b) ev.

Lemma agg_qty_nonneg s p : 0 ≤ agg v_qty (r_orders b) s p.
Proof. apply agg_nonneg. intros i ov Hi. destruct (Hviews i ov Hi). lia. Qed.
Lemma agg_disp_nonneg s p : 0 ≤ agg v_displayed (r_orders b) s p.
Proof. apply agg_nonneg. intros i ov Hi. destruct (Hviews i ov Hi). lia. Qed.
Lemma agg_qty_member i ov :
  r_orders b !! i = Some ov → v_qty ov ≤ agg v_qty (r_orders b) (v_side ov) (v_price ov).
Proof. apply agg_member. intros j w Hj. destruct (Hviews j w Hj). lia. Qed.
Lemma agg_disp_member i ov :
  r_orders b !! i = Some ov →
  v_displayed ov ≤ agg v_displayed (r_orders b) (v_side ov) (v_price ov).
Proof. apply agg_member. intros j w Hj. by destruct (Hviews j w Hj). Qed.

Ltac depth_arith :=
  intros ? ?; unfold shift; rewrite ?agg_insert, ?agg_delete;
  repeat match goal with H : r_orders b !! _ = _ |- _ => rewrite H end;
  simpl; rewrite ?at_price_shift; simpl; repeat case_if; lia.

Lemma apply_add_ok : ev_type ev = kAdd → replica_ok (apply_sym b ev).
Proof.
  intros Hty. unfold coherent in Hcoh. rewrite Hty in Hcoh.
  destruct Hcoh as (Hnew & Hq & Hd). unfold apply_sym. rewrite Hty. split.
  - rewrite r_orders_bump. simpl. intros i ov Hi.
    apply lookup_insert_Some in Hi as [[<- <-]|[_ Hi]]; [done|by eapply Hviews].
  - rewrite r_orders_bump. simpl.
    eapply depth_ok_ext; [apply depth_ok_bump; [exact Hdepth|..]|depth_arith..];
      pose proof (agg_qty_nonneg (ev_side ev) (ev_price ev));
      pose proof (agg_disp_nonneg (ev_side ev) (ev_price ev)); lia.
Qed.

Lemma apply_cancel_ok : ev_type ev = kCancel → replica_ok (apply_sym b ev).
Proof.
  intros Hty. unfold apply_sym. rewrite Hty.
  destruct (r_orders b !! ev_order_id ev) as [ov|] eqn:Hov; [|by split].
  pose proof (agg_qty_member _ _ Hov). pose proof (agg_disp_member _ _ Hov).
  destruct (Hviews _ _ Hov). split.
  - intros i w Hi. simpl in Hi. apply lookup_delete_Some in Hi as [_ Hi]. by eapply Hviews.
  - simpl. eapply depth_ok_ext; [apply depth_ok_bump; [exact Hdepth|..]|depth_arith..]; lia.
Qed.

Lemma apply_trade_ok : ev_type ev = kTrade → replica_ok (apply_sym b ev).
Proof.
  intros Hty. unfold coherent in Hcoh. rewrite Hty in Hcoh. unfold apply_sym. rewrite Hty.
  destruct (r_orders b !! ev_order_id ev) as [ov|] eqn:Hov; [|by split].
  destruct Hcoh as (Hq & Hd & Hlast).
  pose proof (agg_qty_member _ _ Hov). pose proof (agg_disp_member _ _ Hov).
  destruct (Hviews _ _ Hov). simpl. case_if; (split; simpl).
  - intros i w Hi. apply lookup_delete_Some in Hi as [_ Hi]. by eapply Hviews.
  - assert (ev_qty ev = v_qty ov) by lia. assert (ev_displayed ev = v_displayed ov) by auto.
    eapply depth_ok_ext; [apply depth_ok_bump; [exact Hdepth|..]|depth_arith..]; lia.
  - intros i w Hi. apply lookup_insert_Some in Hi as [[<- <-]|[_ Hi]];
      [simpl; lia|by eapply Hviews].
  - eapply depth_ok_ext; [apply depth_ok_bump; [exact Hdepth|..]|depth_arith..]; lia.
Qed.

Lemma apply_reprice_ok : ev_type ev = kReprice → replica_ok (apply_sym b ev).
Proof.
  intros Hty. unfold coherent in Hcoh. rewrite Hty in Hcoh. unfold apply_sym. rewrite Hty.
  destruct (r_orders b !! ev_order_id ev) as [ov|] eqn:Hov; [|by split].
  pose proof (agg_qty_member _ _ Hov). pose proof (agg_disp_member _ _ Hov).
  destruct (Hviews _ _ Hov). rewrite !r_orders_bump. split.
  - intros i w Hi. simpl in Hi. rewrite ?r_orders_bump in Hi.
    apply lookup_insert_Some in Hi as [[<- <-]|[_ Hi]]; [simpl; lia|by eapply Hviews].
  - assert (0 ≤ shift (v_side ov) (v_price ov) (- v_qty ov) (agg v_qty (r_orders b))
                  (v_side ov) (ev_price ev)) as Hsq.
    { unfold shift. pose proof (agg_qty_nonneg (v_side ov) (ev_price ev)).
      case_if; [|lia]. replace (ev_price ev) with (v_price ov) in *; lia. }
    assert (0 ≤ shift (v_side ov) (v_price ov) (- v_displayed ov)
                  (agg v_displayed (r_orders b)) (v_side ov) (ev_price ev)) as Hsd.
    { unfold shift. pose proof (agg_disp_nonneg (v_side ov) (ev_price ev)).
      case_if; [|lia]. replace (ev_price ev) with (v_price ov) in *; lia. }
    simpl. eapply depth_ok_ext; [apply depth_ok_bump;
      [apply depth_ok_bump; [exact Hdepth|..]|..]|depth_arith..]; lia.
Qed.

Lemma apply_replenish_ok : ev_type ev = kReplenish → replica_ok (apply_sym b ev).
Proof.
  intros Hty. unfold coherent in Hcoh. rewrite Hty in Hcoh. unfold apply_sym. rewrite Hty.
  destruct (r_orders b !! ev_order_id ev) as [ov|] eqn:Hov; [|by split].
  pose proof (agg_qty_member _ _ Hov). pose proof (agg_disp_member _ _ Hov).
  destruct (Hviews _ _ Hov). split.
  - intros i w Hi. simpl in Hi.
    apply lookup_insert_Some in Hi as [[<- <-]|[_ Hi]]; [simpl; lia|by eapply Hviews].
  - simpl. eapply depth_ok_ext; [apply depth_ok_bump; [exact Hdepth|..]|depth_arith..]; lia.
Qed.
End apply_ok.

(** Every coherent event keeps the depth maps equal to the order map's sums. *)
Lemma apply_sym_ok b ev :
  replica_ok b → coherent (r_orders b) ev → replica_ok (apply_sym b ev).
Proof.
  intros [Hv Hd] Hc. destruct (ev_type ev) eqn:Hty.
  - by apply apply_add_ok.
  - by apply apply_cancel_ok.
  - by apply apply_trade_ok.
  - by apply apply_reprice_ok.
  - by apply apply_replenish_ok.
  - unfold apply_sym. by rewrite Hty.
Qed.

(** Replaying a coherent stream from an empty replica. *)
Definition replay (evs : list BookEvent) : SymBook := foldl apply_sym empty_sym evs.

Lemma foldl_apply_orders b evs :
  r_orders (foldl apply_sym b evs) = foldl l3_apply (r_orders b) evs.
Proof.
  revert b. induction evs as [|ev evs IH]; intros b; [done|].
  simpl. by rewrite IH, apply_sym_orders.
Qed.

Lemma replay_orders evs : r_orders (replay evs) = l3 evs.
Proof. apply foldl_apply_orders. Qed.

Lemma foldl_apply_ok b evs :
  replica_ok b → coherent_from (r_orders b) evs → replica_ok (foldl apply_sym b evs).
Proof.
  revert b. induction evs as [|ev evs IH]; intros b Hb Hc; [done|].
  destruct Hc as [Hc Hcs]. simpl. apply IH; [by apply apply_sym_ok|].
  by rewrite apply_sym_orders.
Qed.

Lemma empty_sym_ok : replica_ok empty_sym.
Proof.
  split; [intros i ov; simpl; by rewrite lookup_empty|].
  intros s p. unfold agg. simpl. rewrite !map_zsum_empty. by destruct s.
Qed.

Lemma replay_ok evs : coherent_from ∅ evs → replica_ok (replay evs).
Proof. intros Hc. apply foldl_apply_ok; [apply empty_sym_ok|done]. Qed.
