(* ===== verification/BookInv.v ===== *)
(** * The invariant of the order book

    [Core] is what every operation of [order_book.cc] maintains: each level's
    queue holds exactly the resting orders of its side and price, without
    duplicates; the running totals are the sums over the queue; a valid cached
    best price is the best populated one; every resting order has quantity to
    trade and a visible slice within it; pegged orders rest; and the events
    delivered so far replay to the resting orders.

    The edits the operations make to the order map (update in place, delete,
    insert) are each one lemma here. *)

From S2P Require Import Prelude.
From S2P Require Import Order.
From S2P Require Import Ladder.
From S2P Require Import Book.
From S2P Require Import Replica.

(** ** Entries *)
Definition e_disp (e : Entry) : Quantity :=
  DisplayedOf (o_flags (e_order e)) (o_leaves (e_order e)) (e_slice e).

(** A tradable order: quantity left, a positive display size for an iceberg, and not both
    hidden and iceberg (see [hidden_iceberg_leaks]). *)
Definition order_ok (o : Order) : Prop :=
  0 < o_leaves o ∧ (HasFlag (o_flags o) kIceberg = true → 0 < o_display_qty o) ∧
  HasFlag (o_flags o) kHidden && HasFlag (o_flags o) kIceberg = false.

Definition entry_ok (i : OrderId) (e : Entry) : Prop :=
  o_id (e_order e) = i ∧ order_ok (e_order e) ∧
  (HasFlag (o_flags (e_order e)) kIceberg = true →
   0 < e_slice e ≤ o_leaves (e_order e)).

(** Every entry of an order map, under its own id. *)
Definition entries_ok (m : gmap OrderId Entry) : Prop := ∀ i e, m !! i = Some e → entry_ok i e.

Definition leaves_in (m : gmap OrderId Entry) (i : OrderId) : Quantity :=
  from_option (λ e, o_leaves (e_order e)) 0 (m !! i).
Definition disp_in (m : gmap OrderId Entry) (i : OrderId) : Quantity :=
  from_option e_disp 0 (m !! i).

(** What the feed shows of a resting order. *)
Definition view (e : Entry) : OrderView :=
  mkView (o_id (e_order e)) (o_side (e_order e)) (o_price (e_order e))
    (o_leaves (e_order e)) (e_disp e).

(** ** Levels *)
Definition rests_at (m : gmap OrderId Entry) (s : Side) (p : Ticks) (i : OrderId) : Prop :=
  ∃ e, m !! i = Some e ∧ o_side (e_order e) = s ∧ o_price (e_order e) = p.

Definition level_ok (m : gmap OrderId Entry) (s : Side) (p : Ticks) (lv : Level) : Prop :=
  NoDup (fifo lv) ∧
  (∀ i, i ∈ fifo lv ↔ rests_at m s p i) ∧
  total lv = zsum (leaves_in m) (fifo lv) ∧
  displayed lv = zsum (disp_in m) (fifo lv).

Definition levels_ok (m : gmap OrderId Entry) (f : Side → Ticks → Level) : Prop :=
  ∀ s p, level_ok m s p (f s p).

Definition override (f : Side → Ticks → Level) (s : Side) (p : Ticks) (lv : Level)
    (t : Side) (r : Ticks) : Level :=
  if decide (t = s ∧ r = p) then lv else f t r.

Lemma override_eq f s p lv : override f s p lv s p = lv.
Proof. unfold override. by rewrite decide_True. Qed.

Lemma override_override f s p lv lv' t r :
  override (override f s p lv) s p lv' t r = override f s p lv' t r.
Proof. unfold override. by case_decide. Qed.

Lemma levels_ok_ext m f g : levels_ok m f → (∀ s p, f s p = g s p) → levels_ok m g.
Proof. intros H E s p. rewrite <-E. apply H. Qed.

(** Sums ignore entries of other orders. *)
Lemma leaves_in_ne m i e l :
  i ∉ l → zsum (leaves_in (<[i := e]> m)) l = zsum (leaves_in m) l.
Proof.
  intros Hi. apply zsum_ext. intros j Hj. unfold leaves_in.
  rewrite lookup_insert_ne; [done|]. intros ->. done.
Qed.
Lemma disp_in_ne m i e l :
  i ∉ l → zsum (disp_in (<[i := e]> m)) l = zsum (disp_in m) l.
Proof.
  intros Hi. apply zsum_ext. intros j Hj. unfold disp_in.
  rewrite lookup_insert_ne; [done|]. intros ->. done.
Qed.
Lemma leaves_in_delete m i l :
  i ∉ l → zsum (leaves_in (delete i m)) l = zsum (leaves_in m) l.
Proof.
  intros Hi. apply zsum_ext. intros j Hj. unfold leaves_in.
  rewrite lookup_delete_ne; [done|]. intros ->. done.
Qed.
Lemma disp_in_delete m i l :
  i ∉ l → zsum (disp_in (delete i m)) l = zsum (disp_in m) l.
Proof.
  intros Hi. apply zsum_ext. intros j Hj. unfold disp_in.
  rewrite lookup_delete_ne; [done|]. intros ->. done.
Qed.

(** A level that does not hold order [i] does not see an edit of [i]. *)
Lemma level_ok_delete_other m s p lv i :
  ¬ rests_at m s p i → level_ok m s p lv → level_ok (delete i m) s p lv.
Proof.
  intros Hn (Hnd & Hin & Ht & Hd).
  assert (i ∉ fifo lv) as Hi by (by rewrite Hin).
  split_and!; [done| |by rewrite leaves_in_delete|by rewrite disp_in_delete].
  intros j. rewrite Hin. unfold rests_at. destruct (decide (j = i)) as [->|Hne].
  - rewrite lookup_delete_eq. split; [done|]. by intros (? & ? & _).
  - by rewrite lookup_delete_ne.
Qed.

Lemma level_ok_insert_other m s p lv i e :
  ¬ rests_at m s p i → ¬ (o_side (e_order e) = s ∧ o_price (e_order e) = p) →
  level_ok m s p lv → level_ok (<[i := e]> m) s p lv.
Proof.
  intros Hn Hn' (Hnd & Hin & Ht & Hd).
  assert (i ∉ fifo lv) as Hi by (by rewrite Hin).
  split_and!; [done| |by rewrite leaves_in_ne|by rewrite disp_in_ne].
  intros j. rewrite Hin. unfold rests_at. destruct (decide (j = i)) as [->|Hne].
  - rewrite lookup_insert_eq. split; [done|]. intros (? & [= <-] & ?). naive_solver.
  - by rewrite lookup_insert_ne.
Qed.

(** ** The three edits *)
Lemma levels_delete m f s p i e lv :
  levels_ok m f → m !! i = Some e → o_side (e_order e) = s → o_price (e_order e) = p →
  i :: fifo lv ≡ₚ fifo (f s p) →
  total lv = total (f s p) - o_leaves (e_order e) →
  displayed lv = displayed (f s p) - e_disp e →
  levels_ok (delete i m) (override f s p lv).
Proof.
  intros Hok Hi Hs Hp Hperm Ht Hd t r. unfold override. case_decide as Htr.
  - destruct Htr as [-> ->]. destruct (Hok s p) as (Hnd & Hin & Htot & Hdisp).
    rewrite <-Hperm in Hnd. apply NoDup_cons in Hnd as [Hni Hnd].
    rewrite <-(zsum_perm _ _ _ Hperm) in Htot. rewrite <-(zsum_perm _ _ _ Hperm) in Hdisp.
    simpl in Htot, Hdisp.
    split_and!; [done| | |].
    + intros j. unfold rests_at. destruct (decide (j = i)) as [->|Hne].
      * rewrite lookup_delete_eq. split; [done|]. by intros (? & ? & _).
      * rewrite lookup_delete_ne by done. rewrite <-(Hin j), <-Hperm. set_solver.
    + rewrite leaves_in_delete by done. unfold leaves_in at 1 in Htot. rewrite Hi in Htot.
      simpl in Htot. lia.
    + rewrite disp_in_delete by done. unfold disp_in at 1 in Hdisp. rewrite Hi in Hdisp.
      simpl in Hdisp. lia.
  - apply level_ok_delete_other; [|apply Hok]. intros (e' & He' & ? & ?). naive_solver.
Qed.

Lemma levels_insert m f s p i e lv :
  levels_ok m f → m !! i = None → o_side (e_order e) = s → o_price (e_order e) = p →
  fifo lv ≡ₚ i :: fifo (f s p) →
  total lv = total (f s p) + o_leaves (e_order e) →
  displayed lv = displayed (f s p) + e_disp e →
  levels_ok (<[i := e]> m) (override f s p lv).
Proof.
  intros Hok Hi Hs Hp Hperm Ht Hd t r. unfold override. case_decide as Htr.
  - destruct Htr as [-> ->]. destruct (Hok s p) as (Hnd & Hin & Htot & Hdisp).
    assert (i ∉ fifo (f s p)) as Hni.
    { rewrite Hin. intros (e' & He' & _). congruence. }
    split_and!.
    + rewrite Hperm. by apply NoDup_cons.
    + intros j. rewrite Hperm, elem_of_cons, Hin. unfold rests_at.
      destruct (decide (j = i)) as [->|Hne].
      * rewrite lookup_insert_eq. naive_solver.
      * rewrite lookup_insert_ne by done. naive_solver.
    + rewrite (zsum_perm _ _ _ Hperm). simpl. rewrite leaves_in_ne by done.
      unfold leaves_in at 1. rewrite lookup_insert_eq. simpl. lia.
    + rewrite (zsum_perm _ _ _ Hperm). simpl. rewrite disp_in_ne by done.
      unfold disp_in at 1. rewrite lookup_insert_eq. simpl. lia.
  - apply level_ok_insert_other; [|naive_solver|apply Hok].
    intros (e' & He' & _). congruence.
Qed.

Lemma levels_update m f s p i e e' lv :
  levels_ok m f → m !! i = Some e → o_side (e_order e) = s → o_price (e_order e) = p →
  o_side (e_order e') = s → o_price (e_order e') = p →
  fifo lv ≡ₚ fifo (f s p) →
  total lv = total (f s p) - o_leaves (e_order e) + o_leaves (e_order e') →
  displayed lv = displayed (f s p) - e_disp e + e_disp e' →
  levels_ok (<[i := e']> m) (override f s p lv).
Proof.
  intros Hok Hi Hs Hp Hs' Hp' Hperm Ht Hd.
  assert (i ∈ fifo (f s p)) as Hin by (apply Hok; by exists e).
  apply list_elem_of_split in Hin as (l1 & l2 & Hl).
  rewrite <-insert_delete_eq.
  eapply levels_ok_ext; [|intros t r; apply (override_override f s p
    (mkLevel (total (f s p) - o_leaves (e_order e)) (displayed (f s p) - e_disp e) (l1 ++ l2)))].
  apply levels_insert; try done.
  - eapply levels_delete; try done. simpl. rewrite Hl. apply Permutation_middle.
  - apply lookup_delete_eq.
  - rewrite override_eq. simpl. rewrite Hperm, Hl. symmetry. apply Permutation_middle.
  - rewrite override_eq. simpl. lia.
  - rewrite override_eq. simpl. lia.
Qed.

(** ** The feed: delivered events replay to the resting orders *)
Definition feed_ok (sink : bool) (mem : nat) (m : gmap OrderId Entry)
    (evs : list BookEvent) : Prop :=
  sink = true → mem = 0%nat →
  coherent_from ∅ evs ∧ view <$> m = l3 evs.

Lemma feed_ok_deliver sink mem m m' evs ev :
  feed_ok sink mem m evs → coherent (view <$> m) ev →
  view <$> m' = l3_apply (view <$> m) ev →
  feed_ok sink mem m' (if sink then evs ++ [ev] else evs).
Proof.
  intros Hf Hc Hm -> ->. destruct (Hf eq_refl eq_refl) as [Hcf Hl].
  rewrite l3_snoc, <-Hl. split; [|done]. apply coherent_from_snoc; [done|].
  fold (l3 evs). by rewrite <-Hl.
Qed.

(** With no window bound nothing is deep, so a bounded book owes nothing. *)
Lemma feed_ok_bounded sink mem m evs : mem ≠ 0%nat → feed_ok sink mem m evs.
Proof. by intros ? ? ?. Qed.

(** ** Pegged ids name resting pegged orders *)
Definition pegs_ok (m : gmap OrderId Entry) (P : gset OrderId) : Prop :=
  ∀ i, i ∈ P → ∃ e, m !! i = Some e ∧ is_Some (o_peg (e_order e)).

Lemma pegs_ok_delete m P i : pegs_ok m P → pegs_ok (delete i m) (P ∖ {[i]}).
Proof.
  intros H j [Hj Hn]%elem_of_difference. rewrite lookup_delete_ne by set_solver. by apply H.
Qed.

Lemma pegs_ok_update m P i e e' :
  pegs_ok m P → m !! i = Some e → o_peg (e_order e') = o_peg (e_order e) →
  pegs_ok (<[i := e']> m) P.
Proof.
  intros H Hi Hp j Hj. destruct (H j Hj) as (f & Hf & Hpf). destruct (decide (j = i)) as [->|Hne].
  - rewrite lookup_insert_eq. exists e'. simplify_eq. by rewrite Hp.
  - rewrite lookup_insert_ne by done. by exists f.
Qed.

Lemma pegs_ok_insert m P i e : pegs_ok m P → m !! i = None → pegs_ok (<[i := e]> m) P.
Proof.
  intros H Hi j Hj. destruct (H j Hj) as (f & Hf & Hpf).
  rewrite lookup_insert_ne by (intros ->; congruence). by exists f.
Qed.

(** ** The invariant *)
Definition ladders (b : Impl) (s : Side) (p : Ticks) : Level := level_at (ladder s b) p.

Record Core (b : Impl) : Prop := mkCore {
  core_side : ∀ s, side (ladder s b) = s;
  core_ladder : ∀ s, ladder_ok (ladder s b);
  core_cache : ∀ s, cache_ok (ladder s b);
  core_levels : levels_ok (orders b) (ladders b);
  core_entries : entries_ok (orders b);
  core_pegged : pegs_ok (orders b) (pegged b);
  core_feed : feed_ok (event_sink_ b) (mem_levels b) (orders b) (emitted b);
}.

(** ** The cold state: what matching, resting and repricing leave alone *)
Record cold (b b' : Impl) : Prop := mkCold {
  cold_stops : stops b' = stops b;
  cold_groups : groups b' = groups b;
  cold_order_group : order_group b' = order_group b;
  cold_opening : opening_auction b' = opening_auction b;
  cold_closing : closing_auction b' = closing_auction b;
  cold_mem : mem_levels b' = mem_levels b;
  cold_stp : stp b' = stp b;
  cold_symbol : symbol_ b' = symbol_ b;
  cold_sink : event_sink_ b' = event_sink_ b;
}.

#[export] Instance cold_preorder : PreOrder cold.
Proof.
  split; [by split|]. intros b1 b2 b3 [] []. split; congruence.
Qed.

(** ** Normal forms of the conditional updates *)
Lemma deliver_eq ev b :
  deliver ev b = set_emitted (if event_sink_ b then emitted b ++ [ev] else emitted b) b.
Proof. unfold deliver. destruct b as [? ? ? ? ? ? ? ? ? ? ? ? ? ? ? ? ? ? [] ? ?]; done. Qed.

Lemma apply_position_eq c s q b :
  ∃ pos, apply_position c s q b = set_positions pos b.
Proof.
  unfold apply_position. case_if; [|by eexists].
  exists (positions b). by destruct b.
Qed.

Lemma release_reserved_eq o q b :
  ∃ pos, release_reserved o q b = set_positions pos b.
Proof.
  unfold release_reserved. case_if; [exists (positions b); by destruct b|].
  case_match; [by eexists|]. exists (positions b). by destruct b.
Qed.

Lemma ladder_set_ladder s L b t :
  ladder t (set_ladder s L b) = if decide (t = s) then L else ladder t b.
Proof. by destruct s, t. Qed.

(** ** Consequences for a level *)
Lemma leaves_in_pos m f s p i :
  levels_ok m f → entries_ok m → i ∈ fifo (f s p) → 0 < leaves_in m i.
Proof.
  intros Hl He Hi. apply Hl in Hi as (e & Hi & _). unfold leaves_in. rewrite Hi.
  destruct (He _ _ Hi) as (_ & (? & _) & _). done.
Qed.

Lemma level_total_nonneg m f s p : levels_ok m f → entries_ok m → 0 ≤ total (f s p).
Proof.
  intros Hl He. destruct (Hl s p) as (_ & _ & -> & _). apply zsum_nonneg.
  intros i Hi. pose proof (leaves_in_pos _ _ _ _ _ Hl He Hi). lia.
Qed.

(** A level has quantity exactly when somebody queues there. *)
Lemma level_total_zero m f s p :
  levels_ok m f → entries_ok m → total (f s p) = 0 ↔ fifo (f s p) = [].
Proof.
  intros Hl He. destruct (Hl s p) as (_ & _ & -> & _). split.
  - apply zsum_pos_nil. intros i Hi. by eapply leaves_in_pos.
  - by intros ->.
Qed.

(** Everything but the feed, which depends on what is emitted. *)
Record Resting (b : Impl) : Prop := mkResting {
  rs_side : ∀ s, side (ladder s b) = s;
  rs_ladder : ∀ s, ladder_ok (ladder s b);
  rs_cache : ∀ s, cache_ok (ladder s b);
  rs_levels : levels_ok (orders b) (ladders b);
  rs_entries : entries_ok (orders b);
  rs_pegged : pegs_ok (orders b) (pegged b);
}.

Lemma Core_Resting b :
  Core b ↔ Resting b ∧ feed_ok (event_sink_ b) (mem_levels b) (orders b) (emitted b).
Proof. split; [intros []; split; [by split|done]|]. intros [[] ?]. by split. Qed.

Lemma Resting_populated b i e :
  Resting b → orders b !! i = Some e →
  i ∈ fifo (ladders b (o_side (e_order e)) (o_price (e_order e))) ∧
  populated (ladder (o_side (e_order e)) b) (o_price (e_order e)).
Proof.
  intros [_ _ _ Hl He _] Hi. set (s := o_side (e_order e)). set (p := o_price (e_order e)).
  assert (i ∈ fifo (ladders b s p)) as Hin by (apply Hl; by exists e).
  split; [done|]. unfold populated.
  pose proof (level_total_nonneg _ _ s p Hl He) as Hnn.
  pose proof (level_total_zero _ _ s p Hl He) as Hz. unfold ladders in *.
  destruct (decide (total (level_at (ladder s b) p) = 0)) as [E|E]; [|lia].
  apply Hz in E. rewrite E in Hin. set_solver.
Qed.

Lemma Core_populated b i e :
  Core b → orders b !! i = Some e →
  i ∈ fifo (ladders b (o_side (e_order e)) (o_price (e_order e))) ∧
  populated (ladder (o_side (e_order e)) b) (o_price (e_order e)).
Proof. intros HC. apply Resting_populated. by apply Core_Resting in HC as [? _]. Qed.

(** Writing a shrunken level back, the end of every removing operation. *)
Lemma Core_settle b b1 s p lv :
  Core b → (∀ t, ladder t b1 = ladder t b) → populated (ladder s b) p →
  levels_ok (orders b1) (override (ladders b) s p lv) → entries_ok (orders b1) →
  pegs_ok (orders b1) (pegged b1) →
  feed_ok (event_sink_ b1) (mem_levels b1) (orders b1) (emitted b1) →
  Core (set_ladder s (settle (ladder s b1) p lv) b1).
Proof.
  intros HC Hlad Hpop Hl He Hp Hf. rewrite Hlad.
  pose proof (populated_covers _ _ Hpop) as Hcov.
  assert (0 ≤ total lv) as Hnn.
  { pose proof (level_total_nonneg _ _ s p Hl He) as H. by rewrite override_eq in H. }
  assert (∀ t, ladder t (set_ladder s (settle (ladder s b) p lv) b1) =
    if decide (t = s) then settle (ladder s b) p lv else ladder t b) as Hla.
  { intros t. rewrite ladder_set_ladder. by case_decide. }
  split.
  - intros t. rewrite Hla. case_decide; [subst; rewrite side_settle|]; apply HC.
  - intros t. rewrite Hla. case_decide; [by apply ladder_ok_settle|apply HC].
  - intros t. rewrite Hla. case_decide; [|apply HC]. by apply cache_ok_settle; try apply HC.
  - eapply levels_ok_ext; [by destruct s|]. intros t q. unfold override, ladders. rewrite Hla.
    destruct (decide (t = s)) as [->|]; [|by rewrite decide_False by naive_solver].
    rewrite level_at_settle by done. repeat case_decide; naive_solver.
  - by destruct s.
  - by destruct s.
  - by destruct s.
Qed.

(** Refreshing the cached best price of a side. *)
Lemma Core_same_levels b s L :
  Core b → same_levels L (ladder s b) → cache_ok L → ladder_ok L → Core (set_ladder s L b).
Proof.
  intros HC [Hsd Hlv] Hc Hok.
  assert (∀ t, ladder t (set_ladder s L b) = if decide (t = s) then L else ladder t b) as Hla
    by (intros; apply ladder_set_ladder).
  destruct HC as [H1 H2 H3 H4 H5 H6 H7]. split.
  - intros t. rewrite Hla. case_decide; [subst; by rewrite Hsd|done].
  - intros t. rewrite Hla. by case_decide.
  - intros t. rewrite Hla. by case_decide.
  - eapply levels_ok_ext; [by destruct s|]. intros t p. unfold ladders. rewrite Hla.
    case_decide; [by subst|done].
  - by destruct s.
  - by destruct s.
  - by destruct s.
Qed.
