(* ===== verification/BookMatch.v ===== *)
(** * Matching

    The loop of [match_level], the walk of [match] over the levels, and what
    they guarantee: termination within the fuel, the invariant, conservation of
    quantity, prices within the aggressor's limit, and completeness (whatever
    is left unmatched on an acceptable level cannot trade). *)

From S2P Require Import Prelude.
From S2P Require Import Order.
From S2P Require Import Ladder.
From S2P Require Import Book.
From S2P Require Import Replica.
From S2P Require Import BookInv.

(** [k] lots of [o] executed. *)
Definition fill_order (k : Quantity) (o : Order) : Order :=
  set_o_filled (o_filled o + k) (set_o_leaves (o_leaves o - k) o).

Lemma fill_order_0 o : fill_order 0 o = o.
Proof. unfold fill_order. destruct o; simpl. f_equal; unfold set_o_filled, set_o_leaves; simpl; f_equal; lia. Qed.

Lemma fill_order_fill_order j k o : fill_order j (fill_order k o) = fill_order (k + j) o.
Proof.
  unfold fill_order, set_o_filled, set_o_leaves. simpl. f_equal; lia.
Qed.

Lemma fill_order_ranked j k r r' o :
  set_o_rank r' (fill_order j (set_o_rank r (fill_order k o))) = set_o_rank r' (fill_order (k + j) o).
Proof. rewrite <-fill_order_fill_order. done. Qed.

(** A maker the aggressor may not touch: all-or-none and too large. *)
Definition blocked (o : Order) (m : gmap OrderId Entry) (i : OrderId) : Prop :=
  ∃ e, m !! i = Some e ∧ HasFlag (o_flags (e_order e)) kAon = true ∧
       o_leaves o < o_leaves (e_order e).

(** An execution of [o] against a maker at [p]. *)
Definition trade_of (o : Order) (p : Ticks) (t : Trade) : Prop :=
  t_taker_id t = o_id o ∧ t_taker_side t = o_side o ∧ t_price t = p ∧ 0 < t_qty t.

(** ** The loop invariant *)
Definition m_level (m : MState) : Level :=
  mkLevel (m_total m) (m_displayed m) (m_done m ++ m_todo m).

Record MInv (f : Side → Ticks → Level) (s : Side) (p : Ticks) (m : MState) : Prop := mkMInv {
  mi_levels : levels_ok (orders (m_book m)) (override f s p (m_level m));
  mi_entries : entries_ok (orders (m_book m));
  mi_pegged : pegs_ok (orders (m_book m)) (pegged (m_book m));
  mi_feed : feed_ok (event_sink_ (m_book m)) (mem_levels (m_book m))
              (orders (m_book m)) (emitted (m_book m));
  mi_leaves : 0 ≤ o_leaves (m_o m);
  mi_pass : m_progressed m = false →
            Forall (blocked (m_o m) (orders (m_book m))) (m_done m);
}.

(** ** What happened to the makers *)

(** Quantity of maker [i] in a list of executions. *)
Definition traded (i : OrderId) (ts : list Trade) : Quantity :=
  zsum (λ t, if t_maker_id t =? i then t_qty t else 0) ts.

Lemma traded_app i ts1 ts2 : traded i (ts1 ++ ts2) = traded i ts1 + traded i ts2.
Proof. apply zsum_app. Qed.

(** The entry of maker [i] before and after the executions [ts] of [o]: what it
    traded left its quantity, it leaves the book only exhausted or (self-trade
    prevention) when it belongs to the aggressor's account, and then it is
    never traded with. *)
Definition maker_rel (b : Impl) (o : Order) (i : OrderId) (ts : list Trade)
    (x y : option Entry) : Prop :=
  match x, y with
  | Some e, Some e' =>
      0 ≤ traded i ts ∧ (self_trade o e b = true → traded i ts = 0) ∧
      ∃ r, e_order e' = set_o_rank r (fill_order (traded i ts) (e_order e))
  | Some e, None =>
      if self_trade o e b then traded i ts = 0 else traded i ts = o_leaves (e_order e)
  | None, None => traded i ts = 0
  | None, Some _ => False
  end.

Lemma maker_rel_refl b o i x : maker_rel b o i [] x x.
Proof.
  destruct x as [e|]; simpl; [|done]. split_and!; [done..|].
  exists (o_rank (e_order e)). unfold traded. simpl. rewrite fill_order_0. by destruct (e_order e).
Qed.

Lemma self_trade_ext o o' e e' b b' :
  stp b' = stp b → o_client_id o' = o_client_id o →
  o_client_id (e_order e') = o_client_id (e_order e) →
  self_trade o' e' b' = self_trade o e b.
Proof. intros Hs Ho He. unfold self_trade. by rewrite Hs, Ho, He. Qed.

Lemma maker_rel_trans b b' o k i ts1 ts2 x y z :
  stp b' = stp b →
  maker_rel b o i ts1 x y → maker_rel b' (fill_order k o) i ts2 y z →
  maker_rel b o i (ts1 ++ ts2) x z.
Proof.
  intros Hs. unfold maker_rel. rewrite traded_app.
  destruct x as [e1|], y as [e2|], z as [e3|]; try done; try (intros -> ->; done).
  - intros (H1 & S1 & r1 & E1) (H2 & S2 & r2 & E2).
    rewrite (self_trade_ext o _ e1 _ b) in S2; [|done..|by rewrite E1].
    split_and!; [lia|intros Hst; by rewrite S1, S2|]. exists r2. by rewrite E2, E1, fill_order_ranked.
  - intros (H1 & S1 & r1 & E1).
    rewrite (self_trade_ext o _ e1 _ b); [|done..|by rewrite E1].
    case_if; [intros ->; by rewrite S1|]. intros ->. rewrite E1. simpl. lia.
  - case_if; intros -> ->; lia.
Qed.

(** What any number of iterations does. *)
Record MRel (p : Ticks) (m m' : MState) : Prop := mkMRel {
  mr_cold : cold (m_book m) (m_book m');
  mr_ladder : ∀ s, ladder s (m_book m') = ladder s (m_book m);
  mr_fifo : m_done m' ++ m_todo m' ⊆ m_done m ++ m_todo m;
  mr_other : ∀ i, i ∉ m_done m ++ m_todo m →
                  orders (m_book m') !! i = orders (m_book m) !! i;
  mr_fill : ∃ ts, m_trades m' = m_trades m ++ ts ∧
                  m_o m' = fill_order (zsum t_qty ts) (m_o m) ∧
                  Forall (λ t, trade_of (m_o m) p t ∧
                               t_maker_id t ∈ m_done m ++ m_todo m) ts ∧
                  ∀ i, maker_rel (m_book m) (m_o m) i ts
                         (orders (m_book m) !! i) (orders (m_book m') !! i);
}.

Lemma MRel_refl p m : MRel p m m.
Proof.
  split; try done. exists []. rewrite app_nil_r. split_and!; [done|by rewrite fill_order_0|done|].
  intros. apply maker_rel_refl.
Qed.

Lemma MRel_trans p m1 m2 m3 : MRel p m1 m2 → MRel p m2 m3 → MRel p m1 m3.
Proof.
  intros [c1 l1 f1 o1 (ts1 & Ht1 & Ho1 & F1 & M1)] [c2 l2 f2 o2 (ts2 & Ht2 & Ho2 & F2 & M2)].
  split.
  - by transitivity (m_book m2).
  - intros s. by rewrite l2.
  - set_solver.
  - intros i Hi. rewrite o2 by set_solver. by apply o1.
  - exists (ts1 ++ ts2). rewrite Ht2, Ht1, app_assoc. split_and!; [done| | |].
    + by rewrite Ho2, Ho1, fill_order_fill_order, zsum_app.
    + apply Forall_app_2; [done|]. rewrite Ho1 in F2. eapply Forall_impl; [exact F2|].
      intros t [? ?]. split; [done|]. by apply f1.
    + intros i. rewrite Ho1 in M2. eapply maker_rel_trans; [|apply M1|apply M2]. apply c1.
Qed.

(** Steps without an execution. *)
Lemma MRel_silent p m m' :
  cold (m_book m) (m_book m') → (∀ s, ladder s (m_book m') = ladder s (m_book m)) →
  m_done m' ++ m_todo m' ⊆ m_done m ++ m_todo m →
  (∀ i, i ∉ m_done m ++ m_todo m → orders (m_book m') !! i = orders (m_book m) !! i) →
  m_trades m' = m_trades m → m_o m' = m_o m →
  (∀ i, maker_rel (m_book m) (m_o m) i [] (orders (m_book m) !! i) (orders (m_book m') !! i)) →
  MRel p m m'.
Proof.
  intros Hc Hl Hf Ho Ht Hm Hr. split; try done. exists [].
  rewrite app_nil_r. split_and!; [done| |done|done]. simpl. by rewrite fill_order_0.
Qed.

(** Every queued maker rests at the level. *)
Lemma MInv_maker f s p m i :
  MInv f s p m → i ∈ m_done m ++ m_todo m → ∃ e,
    orders (m_book m) !! i = Some e ∧ o_side (e_order e) = s ∧ o_price (e_order e) = p.
Proof.
  intros HI Hi. destruct (mi_levels _ _ _ _ HI s p) as (_ & Hin & _).
  rewrite override_eq in Hin. by apply Hin.
Qed.

(** ** Skipping and restarting *)
Lemma MInv_skip f s p m mid rest :
  MInv f s p m → m_todo m = mid :: rest →
  (m_progressed m = false → blocked (m_o m) (orders (m_book m)) mid) →
  let m' := mkM (m_o m) (m_total m) (m_displayed m) (m_done m ++ [mid]) rest
              (m_progressed m) (m_book m) (m_trades m) in
  MInv f s p m' ∧ MRel p m m'.
Proof.
  intros [Hl He Hp Hf Hle Hpass] Htodo Hb m'. unfold m'. split.
  - split; simpl; try done.
    + unfold m_level in *. simpl. rewrite Htodo in Hl. by rewrite <-app_assoc.
    + intros Hpr. apply Forall_app_2; [by apply Hpass|]. constructor; [by apply Hb|done].
  - apply MRel_silent; simpl; try done; rewrite ?Htodo, <-?app_assoc; try done.
    intros. apply maker_rel_refl.
Qed.

Lemma MInv_restart f s p m :
  MInv f s p m → m_todo m = [] →
  let m' := mkM (m_o m) (m_total m) (m_displayed m) [] (m_done m) false (m_book m) (m_trades m) in
  MInv f s p m' ∧ MRel p m m'.
Proof.
  intros [Hl He Hp Hf Hle Hpass] Htodo m'. unfold m'. split.
  - split; simpl; try done. unfold m_level in *. simpl. by rewrite Htodo, app_nil_r in Hl.
  - apply MRel_silent; simpl; try done; rewrite ?Htodo, ?app_nil_r; try done.
    intros. apply maker_rel_refl.
Qed.

(** ** Self-trade prevention: the maker leaves without a fill *)
Lemma view_cancel m i e :
  m !! i = Some e → entry_ok i e → ∀ sym,
  let ev := mkEvent 0 sym kCancel (o_id (e_order e)) 0 (o_side (e_order e))
              (o_price (e_order e)) 0 (o_leaves (e_order e)) (e_disp e) in
  coherent (view <$> m) ev ∧ view <$> delete i m = l3_apply (view <$> m) ev.
Proof.
  intros Hi (Hid & _) sym. split; [done|]. unfold l3_apply, apply_sym. simpl.
  rewrite Hid, lookup_fmap, Hi. simpl. by rewrite fmap_delete.
Qed.

Lemma stp_cancel_ok f s p m mid me rest :
  MInv f s p m → m_todo m = mid :: rest → orders (m_book m) !! mid = Some me →
  self_trade (m_o m) me (m_book m) = true →
  let b := m_book m in
  let mo := e_order me in
  let b1 := emit_event kCancel mo (o_leaves mo) (e_disp me)
              (release_reserved mo (o_leaves mo) b) in
  let b' := set_pegged (pegged b1 ∖ {[mid]}) (set_orders (delete mid (orders b1)) b1) in
  let m' := mkM (m_o m) (m_total m - o_leaves mo) (m_displayed m - e_disp me)
              (m_done m) rest true b' (m_trades m) in
  MInv f s p m' ∧ MRel p m m'.
Proof.
  intros HI Htodo Hme Hst b mo b1 b' m'.
  destruct (MInv_maker _ _ _ _ mid HI ltac:(rewrite Htodo; set_solver)) as (e & He & Hs & Hp).
  assert (e = me) as -> by congruence.
  destruct HI as [Hl Hen Hpg Hf Hle Hpass].
  destruct (release_reserved_eq mo (o_leaves mo) b) as [pos Hpos].
  unfold m', b', b1, emit_event. rewrite Hpos, deliver_eq. simpl. split.
  - split; simpl; try done.
    + eapply levels_ok_ext; [|intros t r; apply (override_override f s p (m_level m))].
      eapply levels_delete; try done; rewrite ?override_eq; simpl; try done.
      rewrite Htodo. apply Permutation_middle.
    + intros i e [_ Hi]%lookup_delete_Some. by apply Hen.
    + by apply pegs_ok_delete.
    + destruct (view_cancel _ _ _ Hme (Hen _ _ Hme) (symbol_ b)).
      eapply feed_ok_deliver; eauto.
  - apply MRel_silent; simpl; try done.
    + rewrite Htodo. set_solver.
    + intros i Hi. rewrite lookup_delete_ne; [done|]. rewrite Htodo in Hi. set_solver.
    + intros i. destruct (decide (i = mid)) as [->|Hne].
      * rewrite lookup_delete_eq, Hme. simpl. by rewrite Hst.
      * rewrite lookup_delete_ne by done. apply maker_rel_refl.
Qed.

(** ** One fill *)

(** The quantity and lit quantity a fill of maker [me] takes. *)
Definition fill_qty (o : Order) (me : Entry) : Quantity :=
  Z.min (o_leaves o) (if HasFlag (o_flags (e_order me)) kIceberg then e_slice me
                      else o_leaves (e_order me)).
Definition fill_disp (o : Order) (me : Entry) : Quantity :=
  if HasFlag (o_flags (e_order me)) kHidden then 0 else fill_qty o me.

(** The maker after the fill. *)
Definition filled_maker (o : Order) (me : Entry) : Entry :=
  mkEntry (fill_order (fill_qty o me) (e_order me))
    (if HasFlag (o_flags (e_order me)) kIceberg then e_slice me - fill_qty o me
     else e_slice me).

Lemma fill_qty_bounds o i me :
  0 < o_leaves o → entry_ok i me →
  0 < fill_qty o me ∧ fill_qty o me ≤ o_leaves o ∧ fill_qty o me ≤ o_leaves (e_order me) ∧
  0 ≤ fill_disp o me ≤ e_disp me ∧
  (fill_qty o me = o_leaves (e_order me) → fill_disp o me = e_disp me) ∧
  e_disp (filled_maker o me) = e_disp me - fill_disp o me ∧
  (HasFlag (o_flags (e_order me)) kIceberg = true → fill_qty o me ≤ e_slice me).
Proof.
  intros Ho (Hid & (Hle & Hdq & Hhi) & Hice).
  unfold fill_disp, fill_qty, e_disp, filled_maker, DisplayedOf, fill_order. simpl.
  destruct (HasFlag (o_flags (e_order me)) kHidden) eqn:Eh;
    destruct (HasFlag (o_flags (e_order me)) kIceberg) eqn:Ei; simpl in *; try done;
    try specialize (Hice eq_refl); unfold fill_qty; rewrite ?Ei; split_and!; try lia; done.
Qed.

Lemma view_trade m i me o sym t p :
  m !! i = Some me → entry_ok i me → 0 < o_leaves o →
  let ev := mkEvent 0 sym kTrade i t (o_side o) p 0 (fill_qty o me) (fill_disp o me) in
  coherent (view <$> m) ev ∧
  l3_apply (view <$> m) ev =
    view <$> (if o_leaves (e_order me) - fill_qty o me =? 0 then delete i m
              else <[i := filled_maker o me]> m).
Proof.
  intros Hi Hok Ho ev. pose proof (fill_qty_bounds o i me Ho Hok) as (H1 & H2 & H3 & H4 & H5 & H6 & _).
  unfold coherent, l3_apply, apply_sym, ev. simpl. rewrite lookup_fmap, Hi. simpl.
  split; [lia|]. case_if; case_if; try lia.
  - by rewrite fmap_delete.
  - rewrite fmap_insert. f_equal. unfold view. simpl. f_equal. lia.
Qed.

Lemma filled_maker_ok o i me :
  0 < o_leaves o → entry_ok i me → o_leaves (e_order me) - fill_qty o me ≠ 0 →
  (HasFlag (o_flags (e_order me)) kIceberg = true →
   e_slice me - fill_qty o me ≠ 0) →
  entry_ok i (filled_maker o me).
Proof.
  intros Ho Hok Hnz Hsl.
  pose proof (fill_qty_bounds o i me Ho Hok) as (H1 & H2 & H3 & _ & _ & _ & H7).
  destruct Hok as (Hid & (Hle & Hdq & Hhi) & Hice).
  split_and!; try done; simpl; [split_and!; simpl; [lia|done..]|]. intros Hi. rewrite Hi.
  specialize (Hice Hi). specialize (Hsl Hi). specialize (H7 Hi). lia.
Qed.

(** The replenished iceberg: a new slice and a new rank. *)
Definition replenished (o : Order) (me : Entry) (rk : SeqNo) : Entry :=
  let mo := set_o_rank rk (e_order (filled_maker o me)) in
  mkEntry mo (Z.min (o_display_qty mo) (o_leaves mo)).

Lemma view_replenish m i me o rk sym :
  m !! i = Some (filled_maker o me) → entry_ok i me → 0 < o_leaves o →
  o_leaves (e_order me) - fill_qty o me ≠ 0 →
  HasFlag (o_flags (e_order me)) kIceberg = true → e_slice me - fill_qty o me = 0 →
  let e := replenished o me rk in
  let ev := mkEvent 0 sym kReplenish i 0 (o_side (e_order e)) (o_price (e_order e)) 0
              (e_slice e) (e_slice e) in
  entry_ok i e ∧ e_disp e = e_disp (filled_maker o me) + e_slice e ∧
  coherent (view <$> m) ev ∧ view <$> <[i := e]> m = l3_apply (view <$> m) ev.
Proof.
  intros Hm Hok Ho Hnz Hice Hsl e ev.
  pose proof (fill_qty_bounds o i me Ho Hok) as (H1 & H2 & H3 & _).
  destruct Hok as (Hid & (Hle & Hdq & Hhi) & _). specialize (Hdq Hice).
  assert (HasFlag (o_flags (e_order me)) kHidden = false) as Hh
    by (by rewrite Hice, andb_true_r in Hhi).
  assert (0 < e_slice e ≤ o_leaves (e_order e)) as Hse by (unfold e; simpl; lia).
  assert (e_disp e = e_disp (filled_maker o me) + e_slice e) as Hd.
  { unfold e_disp, DisplayedOf, e. simpl. rewrite Hh, Hice. lia. }
  split_and!; try done.
  - split_and!; try done. split_and!; simpl; [lia|done..].
  - unfold coherent, ev. simpl. simpl in Hse. lia.
  - unfold l3_apply, apply_sym, ev. simpl. rewrite lookup_fmap, Hm. simpl.
    rewrite fmap_insert. f_equal. unfold view. simpl. f_equal. exact Hd.
Qed.

(** The outcome of one fill: the loop makes progress. *)
Record Fill (p : Ticks) (m m' : MState) : Prop := mkFill {
  fl_rel : MRel p m m';
  fl_progressed : m_progressed m' = true;
  fl_leaves : 0 ≤ o_leaves (m_o m') < o_leaves (m_o m);
  fl_len : (length (m_done m' ++ m_todo m') ≤ length (m_done m ++ m_todo m))%nat;
  fl_todo : (length (m_todo m') ≤ length (m_todo m))%nat;
}.

Section fill.
Context (f : Side → Ticks → Level) (s : Side) (p : Ticks) (m : MState).
Context (mid : OrderId) (me : Entry) (rest : list OrderId).
Hypothesis HI : MInv f s p m.
Hypothesis Hle : 0 < o_leaves (m_o m).
Hypothesis Htodo : m_todo m = mid :: rest.
Hypothesis Hme : orders (m_book m) !! mid = Some me.
Hypothesis Hst : self_trade (m_o m) me (m_book m) = false.

Lemma fill_maker_side : o_side (e_order me) = s ∧ o_price (e_order me) = p.
Proof.
  destruct (MInv_maker _ _ _ _ mid HI ltac:(rewrite Htodo; set_solver)) as (e & He & ? & ?).
  by assert (e = me) as -> by congruence.
Qed.

Lemma fill_maker_ok : entry_ok mid me.
Proof. by eapply mi_entries. Qed.

Lemma fill_trade_of :
  trade_of (m_o m) p (mkTrade (o_id (m_o m)) mid (o_side (m_o m)) p (fill_qty (m_o m) me)).
Proof.
  pose proof (fill_qty_bounds _ _ _ Hle fill_maker_ok). unfold trade_of. simpl. naive_solver.
Qed.

(** The relation part, for any new book that changes only maker [mid]. *)
Lemma fill_rel m' :
  cold (m_book m) (m_book m') →
  (∀ s, ladder s (m_book m') = ladder s (m_book m)) →
  (∀ i, i ≠ mid → orders (m_book m') !! i = orders (m_book m) !! i) →
  match orders (m_book m') !! mid with
  | Some e' => ∃ r, e_order e' = set_o_rank r (fill_order (fill_qty (m_o m) me) (e_order me))
  | None => fill_qty (m_o m) me = o_leaves (e_order me)
  end →
  m_done m' ++ m_todo m' ⊆ m_done m ++ m_todo m →
  m_trades m' = m_trades m ++ [mkTrade (o_id (m_o m)) mid (o_side (m_o m)) p (fill_qty (m_o m) me)] →
  m_o m' = fill_order (fill_qty (m_o m) me) (m_o m) →
  MRel p m m'.
Proof.
  intros Hc Hlad Hoth Hmid Hff Htr Ho. split; try done.
  - intros i Hi. apply Hoth. intros ->. apply Hi. rewrite Htodo. set_solver.
  - eexists. split_and!; [done| |constructor; [split; [apply fill_trade_of|]|done]|].
    + simpl. by rewrite Z.add_0_r.
    + rewrite Htodo. simpl. set_solver.
    + intros i. pose proof (fill_qty_bounds _ _ _ Hle fill_maker_ok).
      destruct (decide (i = mid)) as [->|Hne].
      * rewrite Hme. unfold maker_rel, traded. simpl.
        rewrite Z.eqb_refl, Hst, Z.add_0_r. case_match; [|done]. naive_solver lia.
      * rewrite Hoth by done.
        assert (traded i [mkTrade (o_id (m_o m)) mid (o_side (m_o m)) p
                  (fill_qty (m_o m) me)] = traded i []) as Et.
        { unfold traded. simpl. by rewrite (proj2 (Z.eqb_neq mid i)). }
        unfold maker_rel. rewrite Et. apply maker_rel_refl.
Qed.

(** The book after the common part of a fill. *)
Lemma fill_book_eq :
  let fq := fill_qty (m_o m) me in
  let t := mkTrade (o_id (m_o m)) mid (o_side (m_o m)) p fq in
  let ev := mkEvent 0 (symbol_ (m_book m)) kTrade mid (o_id (m_o m)) (o_side (m_o m)) p 0
              fq (fill_disp (m_o m) me) in
  let b := m_book m in
  let b1 := set_have_last true (set_last_price p (emit_trade t (fill_disp (m_o m) me) b)) in
  let b2 := set_orders (<[mid := filled_maker (m_o m) me]> (orders b1)) b1 in
  let b3 := apply_position (o_client_id (m_o m)) (o_side (m_o m)) fq b2 in
  let b4 := apply_position (o_client_id (e_order me)) (o_side (e_order me)) fq b3 in
  ∃ pos, release_reserved (e_order (filled_maker (m_o m) me)) fq b4 =
    set_positions pos
      (set_orders (<[mid := filled_maker (m_o m) me]> (orders b))
        (set_have_last true (set_last_price p
          (set_emitted (if event_sink_ b then emitted b ++ [ev] else emitted b) b)))).
Proof.
  intros. unfold b4, b3, b2, b1, emit_trade. rewrite deliver_eq.
  repeat match goal with
  | |- context [apply_position ?c ?s ?q ?b] =>
      lazymatch b with
      | context [apply_position] => fail
      | _ => destruct (apply_position_eq c s q b) as [? ->]
      end
  end.
  match goal with
  | |- context [release_reserved ?o ?q ?b] => destruct (release_reserved_eq o q b) as [? ->]
  end.
  eexists. reflexivity.
Qed.

Lemma override_m_level m' lvs :
  levels_ok lvs (override (override f s p (m_level m)) s p (m_level m')) →
  levels_ok lvs (override f s p (m_level m')).
Proof. intros H. eapply levels_ok_ext; [exact H|]. intros. apply override_override. Qed.

(** [fill_step] in terms of the filled maker, over the normalised book. *)
Lemma fill_step_eq :
  let o := m_o m in
  let fq := fill_qty o me in
  let b := m_book m in
  let ev := mkEvent 0 (symbol_ b) kTrade mid (o_id o) (o_side o) p 0 fq (fill_disp o me) in
  let trades := m_trades m ++ [mkTrade (o_id o) mid (o_side o) p fq] in
  let disp := m_displayed m - fill_disp o me in
  ∃ b0 pos,
    b0 = set_positions pos
      (set_orders (<[mid := filled_maker o me]> (orders b))
        (set_have_last true (set_last_price p
          (set_emitted (if event_sink_ b then emitted b ++ [ev] else emitted b) b)))) ∧
    fill_step p m mid me rest =
      if o_leaves (e_order me) - fq =? 0 then
        Continue (mkM (fill_order fq o) (m_total m - fq) disp (m_done m) rest true
          (set_pegged (pegged b ∖ {[mid]}) (set_orders (delete mid (orders b0)) b0)) trades)
      else if HasFlag (o_flags (e_order me)) kIceberg && (e_slice (filled_maker o me) =? 0) then
        let e := replenished o me (next_seq b) in
        let bq := set_requeued_ (requeued_ b ++ [e_order e]) (set_next_seq (next_seq b + 1) b0) in
        let b' := emit_event kReplenish (e_order e) (e_slice e) (e_slice e)
                    (set_orders (<[mid := e]> (orders bq)) bq) in
        match rest with
        | [] => Continue (mkM (fill_order fq o) (m_total m - fq) (disp + e_slice e)
                            (m_done m ++ [mid]) [] true b' trades)
        | _ => Continue (mkM (fill_order fq o) (m_total m - fq) (disp + e_slice e)
                           (m_done m) (rest ++ [mid]) true b' trades)
        end
      else
        Continue (mkM (fill_order fq o) (m_total m - fq) disp (m_done m ++ [mid]) rest
                    true b0 trades).
Proof.
  destruct fill_book_eq as [pos Hb]. intros. eexists _, pos. split; [reflexivity|].
  cbv zeta in Hb. subst disp. unfold fill_step.
  match goal with
  | |- context [release_reserved ?x ?q ?y] =>
      let Hb' := fresh in pose proof (Hb : release_reserved x q y = _) as Hb'; rewrite Hb'
  end.
  assert ((if HasFlag (o_flags (e_order me)) kHidden then m_displayed m
           else m_displayed m - fq) = m_displayed m - fill_disp o me) as Hd
    by (unfold fill_disp; case_if; unfold fq; lia).
  unfold requeue. match goal with
  | |- context [if HasFlag (o_flags (e_order me)) kHidden then m_displayed m else ?x] =>
      change x with (m_displayed m - fq)
  end. rewrite Hd. reflexivity.
Qed.

(** A replenished maker re-queued at the back of the level. *)
Lemma fill_replenish_ok ev pos dn td :
  let o := m_o m in
  let b := m_book m in
  ev = mkEvent 0 (symbol_ b) kTrade mid (o_id o) (o_side o) p 0 (fill_qty o me) (fill_disp o me) →
  o_leaves (e_order me) - fill_qty o me ≠ 0 →
  HasFlag (o_flags (e_order me)) kIceberg = true → e_slice me - fill_qty o me = 0 →
  dn ++ td = m_done m ++ rest ++ [mid] → (length td ≤ S (length rest))%nat →
  let b0 := set_positions pos
      (set_orders (<[mid := filled_maker o me]> (orders b))
        (set_have_last true (set_last_price p
          (set_emitted (if event_sink_ b then emitted b ++ [ev] else emitted b) b)))) in
  let e := replenished o me (next_seq b) in
  let bq := set_requeued_ (requeued_ b ++ [e_order e]) (set_next_seq (next_seq b + 1) b0) in
  let b' := emit_event kReplenish (e_order e) (e_slice e) (e_slice e)
              (set_orders (<[mid := e]> (orders bq)) bq) in
  let m' := mkM (fill_order (fill_qty o me) o) (m_total m - fill_qty o me)
              (m_displayed m - fill_disp o me + e_slice e) dn td true b'
              (m_trades m ++ [mkTrade (o_id o) mid (o_side o) p (fill_qty o me)]) in
  MInv f s p m' ∧ Fill p m m'.
Proof.
  intros o b Hev Hnz Hice Hsl Hdt Hlen b0 e bq b' m'.
  destruct fill_maker_side as [Hs Hp]. pose proof fill_maker_ok as Hok.
  pose proof (fill_qty_bounds _ _ _ Hle Hok) as (H1 & H2 & H3 & H4 & _ & H6 & _).
  fold o in H1, H2, H3, H4, H6.
  destruct (view_trade _ _ _ o (symbol_ b) (o_id o) p Hme Hok Hle) as [Hcoh Hview].
  rewrite (proj2 (Z.eqb_neq _ _) Hnz) in Hview.
  pose proof (feed_ok_deliver _ _ _ _ _ _ (mi_feed _ _ _ _ HI) Hcoh (symmetry Hview)) as Hf1.
  destruct (view_replenish (<[mid := filled_maker o me]> (orders b)) mid me o (next_seq b)
              (symbol_ b) (lookup_insert_eq _ _ _) Hok Hle Hnz Hice Hsl)
    as (Heok & Hed & Hcoh2 & Hview2).
  pose proof (feed_ok_deliver _ _ _ _ _ _ Hf1 Hcoh2 Hview2) as Hf2.
  destruct HI as [Hl Hen Hpg _ _ _]. fold e in Heok, Hed, Hf2.
  unfold m', b', emit_event. rewrite deliver_eq. rewrite insert_insert_eq in Hf2.
  assert (o_id (e_order e) = mid) as Hid by apply Heok.
  unfold bq, b0. simpl. rewrite insert_insert_eq. split; [split|split]; simpl; try done; try lia.
  - apply override_m_level. eapply levels_update; try done; rewrite ?override_eq; simpl;
      [|lia|].
    2:{ fold e. rewrite Hed. unfold o in *. rewrite H6. unfold e, o, b in *. simpl in *. lia. }
    rewrite Hdt, Htodo. rewrite (Permutation_app_comm rest [mid]). done.
  - intros i e' [[<- <-]|[_ Hi]]%lookup_insert_Some; [done|by apply Hen].
  - by eapply pegs_ok_update.
  - subst ev. rewrite (proj1 Hok). exact Hf2.
  - apply fill_rel; simpl; try done; rewrite ?Hdt, ?Htodo; [| |set_solver].
    + intros i Hi. by rewrite lookup_insert_ne.
    + rewrite lookup_insert_eq. by eexists.
  - unfold o in *. lia.
  - rewrite Hdt, Htodo, !length_app. simpl. lia.
  - rewrite Htodo. simpl. lia.
Qed.

Lemma fill_step_ok :
  ∃ m', fill_step p m mid me rest = Continue m' ∧ MInv f s p m' ∧ Fill p m m'.
Proof.
  destruct fill_maker_side as [Hs Hp]. pose proof fill_maker_ok as Hok.
  pose proof (fill_qty_bounds _ _ _ Hle Hok) as (H1 & H2 & H3 & H4 & H5 & H6 & H7).
  destruct (view_trade _ _ _ (m_o m) (symbol_ (m_book m)) (o_id (m_o m)) p Hme Hok Hle)
    as [Hcoh Hview].
  pose proof (feed_ok_deliver _ _ _ _ _ _ (mi_feed _ _ _ _ HI) Hcoh (symmetry Hview)) as Hfeed.
  pose proof fill_replenish_ok as HR.
  destruct fill_step_eq as (b0 & pos & Hb0 & ->). pose proof HI as [Hl Hen Hpg _ _ _].
  case_if; [|case_if].
  - (* the maker is exhausted and leaves *)
    eexists. split; [reflexivity|]. subst b0. simpl. rewrite delete_insert_eq.
    assert (fill_qty (m_o m) me = o_leaves (e_order me)) as Hall by lia.
    split; [split|split]; simpl; try done; try lia.
    + apply override_m_level. eapply levels_delete; try done; rewrite ?override_eq; simpl.
      * rewrite Htodo. apply Permutation_middle.
      * lia.
      * rewrite H5 by done. lia.
    + intros i e [_ Hi]%lookup_delete_Some. by apply Hen.
    + by apply pegs_ok_delete.
    + apply fill_rel; simpl; try done; rewrite ?Htodo; [| |set_solver].
      * intros i Hi. by rewrite lookup_delete_ne.
      * by rewrite lookup_delete_eq.
    + rewrite !length_app, Htodo. simpl. lia.
    + rewrite Htodo. simpl. lia.
  - (* the slice is exhausted: replenish at the back *)
    simpl in H0. rewrite H in H0. subst b0. destruct rest as [|j rest'].
    + eexists. split; [reflexivity|]. apply HR; try done; simpl; rewrite ?app_nil_r; try done; lia.
    + eexists. split; [reflexivity|].
      apply (HR _ _ (m_done m) ((j :: rest') ++ [mid])); try done.
      simpl. rewrite length_app. simpl. lia.
  - (* a partial fill *)
    eexists. split; [reflexivity|]. subst b0. simpl.
    split; [split|split]; simpl; try done; try lia.
    + apply override_m_level. eapply levels_update; try done; rewrite ?override_eq; simpl.
      * by rewrite Htodo, <-app_assoc.
      * lia.
      * rewrite H6. lia.
    + intros i e [[<- <-]|[_ Hi]]%lookup_insert_Some; [|by apply Hen].
      apply filled_maker_ok; try done. intros Hice. rewrite Hice in Heqb0. simpl in Heqb0. rewrite Hice in Heqb0. by bool_split.
    + by eapply pegs_ok_update.
    + apply fill_rel; simpl; try done; rewrite ?Htodo, <-?app_assoc; [| |set_solver].
      * intros i Hi. by rewrite lookup_insert_ne.
      * rewrite lookup_insert_eq. exists (o_rank (e_order me)). simpl. by destruct (e_order me).
    + rewrite !length_app, Htodo. simpl. lia.
    + rewrite Htodo. simpl. lia.
Qed.
End fill.

(** ** The loop *)

(** Termination measure, for a bound [N] on the queue length: quantity and
    queue length first, then the progress flag, then the rest of the pass. *)
Definition m_measure (N : nat) (m : MState) : nat :=
  (Z.to_nat (o_leaves (m_o m)) + length (m_done m ++ m_todo m)) * (2 * N + 4) +
  (if m_progressed m then N + 2 else 0) + length (m_todo m).

Lemma measure_drop N K K' a a' t t' :
  (K' < K → a' ≤ a + (N + 2) → t' ≤ t + N →
   K' * (2 * N + 4) + a' + t' < K * (2 * N + 4) + a + t)%nat.
Proof. intros. nia. Qed.

Lemma match_step_ok f s p m N :
  MInv f s p m → (length (m_done m ++ m_todo m) ≤ N)%nat →
  ∃ st, match_step p m = Ok st ∧
    match st with
    | Continue m' =>
        MInv f s p m' ∧ MRel p m m' ∧
        (length (m_done m' ++ m_todo m') ≤ N)%nat ∧
        (m_measure N m' < m_measure N m)%nat
    | Break m' =>
        m' = m ∧ (0 < o_leaves (m_o m) → m_todo m = [] ∧ m_progressed m = false)
    | Cancelled m' => MInv f s p m' ∧ MRel p m m' ∧ stp (m_book m) ≠ kStpNone
    end.
Proof.
  intros HI HN. unfold match_step. case_if.
  { eexists. split; [done|]. split; [done|lia]. }
  destruct (m_todo m) as [|mid rest] eqn:Htodo.
  - destruct (m_progressed m) eqn:Hpr; simpl; [|by eexists].
    eexists. split; [done|]. destruct (MInv_restart _ _ _ _ HI Htodo) as [HI' HR].
    rewrite app_nil_r in HN. split_and!; try done. unfold m_measure.
    simpl. rewrite Htodo, Hpr, app_nil_r. simpl. lia.
  - destruct (MInv_maker _ _ _ _ mid HI ltac:(rewrite Htodo; set_solver)) as (me & Hme & _ & _).
    rewrite Hme. simpl. case_if.
    + eexists. split; [done|]. destruct (stp_cancel_ok _ _ _ _ _ _ _ HI Htodo Hme Heqb0) as [HI' HR].
      unfold stp_step.
      assert (stp (m_book m) ≠ kStpNone) as Hnone.
      { intros E. unfold self_trade in Heqb0. by rewrite E in Heqb0. }
      destruct (stp (m_book m)) eqn:Estp; simpl; try done.
      * split_and!; try done.
        -- simpl. rewrite length_app in HN |- *. simpl in HN. lia.
        -- unfold m_measure. rewrite Htodo. apply measure_drop; simpl.
           ++ rewrite !length_app. simpl. lia.
           ++ lia.
           ++ lia.
      * split_and!; [done|apply MRel_refl|done].
    + case_if.
      * eexists. split; [done|].
        destruct (MInv_skip _ _ _ _ _ _ HI Htodo) as [HI' HR]; [by exists me|].
        split_and!; try done; [simpl; by rewrite <-app_assoc|].
        unfold m_measure. simpl. rewrite Htodo, <-app_assoc. simpl. lia.
      * destruct (fill_step_ok _ _ _ _ _ _ _ HI Heqb Htodo Hme Heqb0) as (m' & -> & HI' & [? ? ? ? ?]).
        eexists. split; [done|]. rewrite Htodo in *. split_and!; try done; [lia|].
        unfold m_measure. rewrite Htodo. apply measure_drop; [lia|case_match; case_match; lia|lia].
Qed.

(** The loop returns within the fuel; unless the aggressor was cancelled or
    filled, everything left in the queue is blocked. *)
Lemma match_loop_ok f s p N fuel m :
  MInv f s p m → (length (m_done m ++ m_todo m) ≤ N)%nat → (m_measure N m < fuel)%nat →
  ∃ c m', match_loop fuel p m = Ok (c, m') ∧ MInv f s p m' ∧ MRel p m m' ∧
    (c = true → stp (m_book m) ≠ kStpNone) ∧
    (c = false → 0 < o_leaves (m_o m') →
     Forall (blocked (m_o m') (orders (m_book m'))) (m_done m' ++ m_todo m')).
Proof.
  revert m. induction fuel as [|fuel IH]; intros m HI HN Hfuel; [lia|]. simpl.
  destruct (match_step_ok f s p m N HI HN) as (st & -> & Hst). simpl.
  destruct st as [m'|m'|m'].
  - destruct Hst as (HI' & HR & HN' & Hlt).
    destruct (IH m' HI' HN' ltac:(lia)) as (c & m'' & -> & HI'' & HR' & Hc & Hb).
    eexists c, m''. split_and!; try done; [by eapply MRel_trans|].
    by rewrite <-(cold_stp _ _ (mr_cold _ _ _ HR)).
  - destruct Hst as [-> Hb]. eexists false, m. split_and!; try done; [apply MRel_refl|].
    intros _ Hle. destruct (Hb Hle) as [Ht Hpr]. rewrite Ht, app_nil_r. by apply HI.
  - destruct Hst as (HI' & HR & Hn). by eexists true, m'.
Qed.

(** ** A level, and the walk over the levels *)

(** The book-level relation between the state before and after matching [o]
    into [o'] with executions [ts]. *)
Record Matched (o : Order) (b : Impl) (ts : list Trade) (o' : Order) (b' : Impl) : Prop := mkMatched {
  mt_cold : cold b b';
  mt_own : ladder (o_side o) b' = ladder (o_side o) b;
  mt_shape : ∀ s, has_base (ladder s b') = has_base (ladder s b) ∧
                  base (ladder s b') = base (ladder s b) ∧
                  length (levels (ladder s b')) = length (levels (ladder s b));
  mt_fill : o' = fill_order (zsum t_qty ts) o;
  mt_leaves : 0 ≤ o_leaves o';
  mt_trades : Forall (λ t, trade_of o (t_price t) t ∧ acceptable o (t_price t) = true ∧
                           rests_at (orders b) (Opposite (o_side o)) (t_price t) (t_maker_id t)) ts;
  mt_makers : ∀ i, maker_rel b o i ts (orders b !! i) (orders b' !! i);
  mt_same_side : ∀ i e, orders b !! i = Some e → o_side (e_order e) = o_side o →
                        orders b' !! i = Some e;
}.

Lemma Matched_refl o b : 0 ≤ o_leaves o → Matched o b [] o b.
Proof.
  intros Hle. split; try done; [by rewrite fill_order_0|]. intros. apply maker_rel_refl.
Qed.

(** An entry after matching descends from one before, on the same price. *)
Lemma maker_rel_rests b b' o ts s p i :
  (∀ j, maker_rel b o j ts (orders b !! j) (orders b' !! j)) →
  rests_at (orders b') s p i → rests_at (orders b) s p i.
Proof.
  intros Hm (e' & He' & Hs & Hp). specialize (Hm i). rewrite He' in Hm.
  destruct (orders b !! i) as [e|] eqn:He; [|done]. destruct Hm as (_ & _ & r & E).
  exists e. rewrite E in Hs, Hp. done.
Qed.

Lemma acceptable_fill k o p : acceptable (fill_order k o) p = acceptable o p.
Proof. done. Qed.

Lemma Matched_trans o b ts1 o1 b1 ts2 o2 b2 :
  Matched o b ts1 o1 b1 → Matched o1 b1 ts2 o2 b2 → Matched o b (ts1 ++ ts2) o2 b2.
Proof.
  intros [c1 l1 h1 f1 g1 t1 m1 s1] [c2 l2 h2 f2 g2 t2 m2 s2]. subst o1. simpl in *.
  split; try done.
  - by transitivity b1.
  - by rewrite l2.
  - intros s. destruct (h1 s) as (<- & <- & <-). apply h2.
  - by rewrite f2, fill_order_fill_order, zsum_app.
  - apply Forall_app_2; [done|]. eapply Forall_impl; [exact t2|].
    intros t (? & ? & Hr). split_and!; [done..|]. by eapply maker_rel_rests.
  - intros i. eapply maker_rel_trans; [apply c1|apply m1|apply m2].
  - intros i e Hi Hs. apply s2; [by apply s1|done].
Qed.

Lemma settle_shape L p lv :
  has_base (settle L p lv) = has_base L ∧ base (settle L p lv) = base L ∧
  length (levels (settle L p lv)) = length (levels L).
Proof.
  unfold settle, on_removed, set_level. repeat case_if; simpl; rewrite length_insert; done.
Qed.

Lemma Opposite_ne s : Opposite s ≠ s.
Proof. by destruct s. Qed.

Lemma MInv_start b s p o trades :
  Core b → 0 ≤ o_leaves o → let lv := level_at (ladder s b) p in
  MInv (ladders b) s p (mkM o (total lv) (displayed lv) [] (fifo lv) false b trades).
Proof.
  intros HC Hle lv. split; simpl; try apply HC; try done.
  eapply levels_ok_ext; [apply HC|]. intros t r. unfold override, m_level. simpl.
  case_decide as Htr; [|done]. destruct Htr as [-> ->]. unfold ladders. by destruct (level_at _ _).
Qed.

Lemma match_level_ok o b s p trades :
  Core b → s = Opposite (o_side o) → 0 < o_leaves o → populated (ladder s b) p →
  acceptable o p = true →
  ∃ c o' b' ts, match_level o s (level_at (ladder s b) p) p b trades = Ok (c, o', b', trades ++ ts) ∧
    Core b' ∧ Matched o b ts o' b' ∧ Forall (λ t, t_price t = p) ts ∧
    (c = true → stp b ≠ kStpNone) ∧
    (∀ q, q ≠ p → level_at (ladder s b') q = level_at (ladder s b) q) ∧
    (∀ i, ¬ rests_at (orders b) s p i → orders b' !! i = orders b !! i) ∧
    (c = false → 0 < o_leaves o' →
     Forall (blocked o' (orders b')) (fifo (level_at (ladder s b') p))).
Proof.
  intros HC Hs Hle Hpop Hacc. set (lv := level_at (ladder s b) p).
  pose proof (MInv_start b s p o trades HC ltac:(lia)) as HI. fold lv in HI. simpl in HI.
  destruct (match_loop_ok _ _ _ (length (fifo lv)) (match_fuel o lv) _ HI)
    as (c & m & Hrun & HI' & HR & Hc & Hb); [done|unfold m_measure, match_fuel; simpl; lia|].
  unfold match_level. rewrite Hrun. simpl.
  destruct HR as [Hcold Hlad Hff Hoth (ts & Htr & Hfill & Hts & Hmk)]. simpl in *.
  destruct HI' as [Hl He Hp Hf Hlv _].
  exists c, (m_o m). eexists _, ts. rewrite Htr. split; [done|].
  pose proof (populated_covers _ _ Hpop) as Hcov.
  assert (∀ i, i ∈ fifo lv ↔ rests_at (orders b) s p i) as Hin by apply (core_levels _ HC).
  split_and!; try done.
  - by apply (Core_settle b).
  - split; simpl; try done.
    + destruct Hcold. by destruct s.
    + rewrite ladder_set_ladder. subst s. rewrite decide_False; [done|].
      intros E. by apply (Opposite_ne (o_side o)).
    + intros t. rewrite ladder_set_ladder. case_decide; [|by rewrite Hlad].
      subst t. rewrite Hlad. apply settle_shape.
    + eapply Forall_impl; [exact Hts|]. intros t [Ht Hm]. pose proof Ht as (_ & _ & E & _).
      rewrite E. split; [done|]. split; [done|]. subst s. by apply Hin.
    + intros i. by destruct s.
    + intros i e Hi Hsd. transitivity (orders (m_book m) !! i); [by destruct s|].
      rewrite Hoth; [done|]. rewrite Hin. intros (e' & He' & Hs' & _).
      rewrite Hi in He'. simplify_eq. destruct (Opposite_ne (o_side o)). congruence.
  - eapply Forall_impl; [exact Hts|]. by intros t [(_ & _ & ? & _) _].
  - intros q Hq. rewrite ladder_set_ladder, decide_True, Hlad by done.
    rewrite level_at_settle by done. by rewrite decide_False.
  - intros i Hi. transitivity (orders (m_book m) !! i); [by destruct s|].
    apply Hoth. by rewrite Hin.
  - intros Hcf Hol. rewrite ladder_set_ladder, decide_True, Hlad by done.
    rewrite level_at_settle, decide_True by done. simpl.
    replace (orders (set_ladder s _ _)) with (orders (m_book m)) by (by destruct s). by apply Hb.
Qed.

(** A better price than an acceptable one is acceptable. *)
Lemma acceptable_better o a b :
  better (Opposite (o_side o)) a b = true → acceptable o b = true → acceptable o a = true.
Proof. unfold better, acceptable. destruct (o_type o), (o_side o); simpl; lia. Qed.

Lemma blocked_mono o o' m m' i :
  blocked o m i → o_leaves o' ≤ o_leaves o → m' !! i = m !! i → blocked o' m' i.
Proof. intros (e & He & Ha & Hl) Hle E. exists e. rewrite E. split_and!; [done..|lia]. Qed.

(** Everyone still queued at a price is blocked. *)
Definition level_blocked (o : Order) (b : Impl) (s : Side) (p : Ticks) : Prop :=
  Forall (blocked o (orders b)) (fifo (level_at (ladder s b) p)).

(** What the walk over the indices [ixs] establishes, besides [Matched]. *)
Record Walk (s : Side) (ixs : list nat) (o : Order) (b : Impl) (c : bool)
    (ts : list Trade) (o' : Order) (b' : Impl) : Prop := mkWalk {
  wk_core : Core b';
  wk_matched : Matched o b ts o' b';
  wk_cancel : c = true → stp b ≠ kStpNone;
  wk_levels : ∀ p, (∀ i, i ∈ ixs → p ≠ base (ladder s b) + Z.of_nat i) →
    level_at (ladder s b') p = level_at (ladder s b) p;
  wk_orders : ∀ j, (∀ i, i ∈ ixs → ¬ rests_at (orders b) s (base (ladder s b) + Z.of_nat i) j) →
    orders b' !! j = orders b !! j;
  wk_prices : ∀ t, t ∈ ts → ∃ i, i ∈ ixs ∧ t_price t = base (ladder s b) + Z.of_nat i;
  wk_priority : ∀ t i, t ∈ ts → i ∈ ixs →
    better s (base (ladder s b) + Z.of_nat i) (t_price t) = true →
    level_blocked o' b' s (base (ladder s b) + Z.of_nat i);
  wk_complete : c = false → 0 < o_leaves o' → ∀ i, i ∈ ixs →
    acceptable o (base (ladder s b) + Z.of_nat i) = true →
    level_blocked o' b' s (base (ladder s b) + Z.of_nat i);
}.

(** Stopping: nothing happened and, unless cancelled, nothing acceptable is left. *)
Lemma Walk_stop s ixs o b c :
  Core b → 0 ≤ o_leaves o → (c = true → stp b ≠ kStpNone) →
  (c = false → 0 < o_leaves o → ∀ i, i ∈ ixs →
   acceptable o (base (ladder s b) + Z.of_nat i) = true → False) →
  Walk s ixs o b c [] o b.
Proof.
  intros HC Hle Hc Hno. split; try done.
  - by apply Matched_refl.
  - intros t Ht. by apply elem_of_nil in Ht.
  - intros t i Ht. by apply elem_of_nil in Ht.
  - intros Hf Hl i Hi Ha. destruct (Hno Hf Hl i Hi Ha).
Qed.

(** An empty level is passed over. *)
Lemma Walk_skip s i ixs o b c ts o' b' :
  (∀ j, j ∈ ixs → i ≠ j) →
  fifo (level_at (ladder s b) (base (ladder s b) + Z.of_nat i)) = [] →
  Walk s ixs o b c ts o' b' → Walk s (i :: ixs) o b c ts o' b'.
Proof.
  intros Hne Hemp [Hc Hm Hcc Hlv Ho Hp Hpr Hcp].
  assert (level_blocked o' b' s (base (ladder s b) + Z.of_nat i)) as Hi.
  { unfold level_blocked. rewrite Hlv; [by rewrite Hemp|]. intros j Hj E.
    apply (Hne j Hj). lia. }
  split; try done.
  - intros p Hp'. apply Hlv. set_solver.
  - intros j Hj. apply Ho. set_solver.
  - intros t Ht. destruct (Hp t Ht) as (j & ? & ?). exists j. set_solver.
  - intros t j Ht [->|Hj]%elem_of_cons Hb; [done|by eapply Hpr].
  - intros Hf Hl j [->|Hj]%elem_of_cons Ha; [done|by apply Hcp].
Qed.

(** The level at [i] was matched, then the walk went on over [ixs]. *)
Lemma Walk_cons s i ixs o b ts1 o1 b1 c ts2 o2 b2 :
  (∀ j, j ∈ ixs → better s (base (ladder s b) + Z.of_nat i) (base (ladder s b) + Z.of_nat j) = true) →
  Matched o b ts1 o1 b1 →
  Forall (λ t, t_price t = base (ladder s b) + Z.of_nat i) ts1 →
  (∀ q, q ≠ base (ladder s b) + Z.of_nat i → level_at (ladder s b1) q = level_at (ladder s b) q) →
  (∀ j, ¬ rests_at (orders b) s (base (ladder s b) + Z.of_nat i) j → orders b1 !! j = orders b !! j) →
  (c = false ∨ ts2 ≠ [] → 0 < o_leaves o1 →
   level_blocked o1 b1 s (base (ladder s b) + Z.of_nat i)) →
  Core b1 → Walk s ixs o1 b1 c ts2 o2 b2 →
  (ts2 ≠ [] → 0 < o_leaves o1) →
  Walk s (i :: ixs) o b c (ts1 ++ ts2) o2 b2.
Proof.
  intros Hsort HM1 Hts1 Hlv1 Hor1 Hbl1 HC1 [Hc Hm Hcc Hlv Ho Hp Hpr Hcp] Hne.
  destruct (mt_shape _ _ _ _ _ HM1 s) as (_ & Hbase & _). rewrite Hbase in *.
  set (P := base (ladder s b)) in *.
  assert (∀ j, j ∈ ixs → P + Z.of_nat i ≠ P + Z.of_nat j) as Hdiff.
  { intros j Hj E. specialize (Hsort j Hj). by rewrite E, better_irrefl in Hsort. }
  assert (o_leaves o2 ≤ o_leaves o1) as Hle.
  { destruct Hm as [_ _ _ -> _ Ht _ _]. simpl.
    assert (0 ≤ zsum t_qty ts2); [|lia]. apply zsum_nonneg. intros t Ht'.
    rewrite Forall_forall in Ht. destruct (Ht t Ht') as ((_ & _ & _ & ?) & _). lia. }
  assert (c = false ∨ ts2 ≠ [] → 0 < o_leaves o1 → level_blocked o2 b2 s (P + Z.of_nat i)) as Hbl.
  { intros H0 H1. unfold level_blocked. rewrite Hlv by done.
    apply Forall_forall. intros j Hj. pose proof (proj1 (Forall_forall _ _) (Hbl1 H0 H1) j Hj) as Hb.
    eapply blocked_mono; [exact Hb|done|]. apply Ho. intros k Hk (e & He & Hs & Hpe).
    apply (core_levels _ HC1 s (P + Z.of_nat i)) in Hj as (e' & He' & Hs' & Hpe').
    simplify_eq. destruct (Hdiff k Hk). congruence. }
  split; try done.
  - by eapply Matched_trans.
  - intros H. rewrite <-(cold_stp _ _ (mt_cold _ _ _ _ _ HM1)). by apply Hcc.
  - intros p Hp'. rewrite Hlv by set_solver. apply Hlv1. set_solver.
  - intros j Hj. rewrite Ho; [apply Hor1; set_solver|]. intros k Hk Hr.
    apply (Hj k); [set_solver|]. eapply maker_rel_rests; [apply HM1|done].
  - intros t [Ht|Ht]%elem_of_app.
    + exists i. split; [set_solver|]. by rewrite Forall_forall in Hts1; apply Hts1.
    + destruct (Hp t Ht) as (j & ? & ?). exists j. set_solver.
  - intros t j [Ht|Ht]%elem_of_app Hj Hb.
    + rewrite Forall_forall in Hts1. rewrite (Hts1 t Ht) in Hb.
      apply elem_of_cons in Hj as [->|Hj]; [by rewrite better_irrefl in Hb|].
      apply better_asym in Hb. rewrite Hsort in Hb; done.
    + apply elem_of_cons in Hj as [->|Hj]; [|by eapply Hpr].
      assert (ts2 ≠ []) by (intros ->; by apply elem_of_nil in Ht). apply Hbl; [by right|by apply Hne].
  - intros Hf Hl j [->|Hj]%elem_of_cons Ha; [apply Hbl; [by left|lia]|].
    apply Hcp; try done. by rewrite (mt_fill _ _ _ _ _ HM1).
Qed.

Lemma match_levels_filled ixs s o b trades :
  ¬ 0 < o_leaves o → match_levels ixs s o b trades = Ok (false, o, b, trades).
Proof. intros Hn. destruct ixs; simpl; [done|]. by rewrite (proj2 (Z.ltb_ge _ _)) by lia. Qed.

Lemma match_levels_ok s ixs o b trades :
  Core b → s = Opposite (o_side o) → 0 ≤ o_leaves o → has_base (ladder s b) = true →
  Forall (λ i, (i < length (levels (ladder s b)))%nat) ixs →
  StronglySorted (λ i j, better s (base (ladder s b) + Z.of_nat i)
                           (base (ladder s b) + Z.of_nat j) = true) ixs →
  ∃ c o' b' ts, match_levels ixs s o b trades = Ok (c, o', b', trades ++ ts) ∧
    Walk s ixs o b c ts o' b'.
Proof.
  revert o b trades. induction ixs as [|i ixs IH]; intros o b trades HC Hs Hle Hb Hlen Hsort; simpl.
  { exists false, o, b, []. rewrite app_nil_r. split; [done|].
    apply Walk_stop; try done. intros _ _ i Hi. by apply elem_of_nil in Hi. }
  case_if.
  { exists false, o, b, []. rewrite app_nil_r. split; [done|]. apply Walk_stop; [done..|lia]. }
  apply Forall_cons in Hlen as [Hi Hlen]. apply StronglySorted_inv in Hsort as [Hsort Hbet].
  rewrite Forall_forall in Hbet.
  pose proof Hi as [lv Hlv]%lookup_lt_is_Some. rewrite Hlv. simpl.
  pose proof (level_at_lookup _ _ _ Hb Hlv) as Hat. set (P := base (ladder s b)) in *.
  case_if.
  - destruct (IH o b trades) as (c & o' & b' & ts & -> & HW); try done.
    exists c, o', b', ts. split; [done|]. apply Walk_skip; [| |done].
    + intros j Hj E. specialize (Hbet j Hj). by rewrite E, better_irrefl in Hbet.
    + fold P. apply (level_total_zero (orders b) (ladders b)); [apply HC..|].
      unfold ladders. by rewrite Hat.
  - case_if.
    + exists false, o, b, []. rewrite app_nil_r. split; [done|]. apply Walk_stop; [done..|].
      intros _ _ j [->|Hj]%elem_of_cons Ha; fold P in Ha; [congruence|].
      rewrite Hs in Hbet. pose proof (acceptable_better o _ _ (Hbet j Hj) Ha). congruence.
    + assert (populated (ladder s b) (P + Z.of_nat i)) as Hpop.
      { pose proof (level_total_nonneg (orders b) (ladders b) s (P + Z.of_nat i)
          (core_levels _ HC) (core_entries _ HC)) as H. unfold ladders in H.
        unfold populated. rewrite Hat in *. lia. }
      destruct (match_level_ok o b s (P + Z.of_nat i) trades HC Hs Heqb0 Hpop Heqb2)
        as (c & o1 & b1 & ts1 & Hrun & HC1 & HM & Hpr & Hcc & Hlv1 & Hor1 & Hbl1).
      rewrite Hat in Hrun. rewrite Hrun. simpl.
      pose proof (mt_leaves _ _ _ _ _ HM) as Hle1.
      destruct c.
      * exists true, o1, b1, ts1. split; [done|]. rewrite <-(app_nil_r ts1).
        apply (Walk_cons s i ixs o b ts1 o1 b1 true [] o1 b1); try done; [by intros [?|?]|].
        apply Walk_stop; try done.
        intros _. rewrite (cold_stp _ _ (mt_cold _ _ _ _ _ HM)). auto.
      * destruct (mt_shape _ _ _ _ _ HM s) as (Hb1 & Hbase1 & Hlen1).
        destruct (IH o1 b1 (trades ++ ts1)) as (c & o' & b' & ts & Hrun2 & HW); try done.
        { by rewrite (mt_fill _ _ _ _ _ HM). }
        { by rewrite Hb1. }
        { by rewrite Hlen1. }
        { by rewrite Hbase1. }
        rewrite Hrun2. exists c, o', b', (ts1 ++ ts). rewrite app_assoc. split; [done|].
        apply (Walk_cons s i ixs o b ts1 o1 b1 c ts o' b'); try done; [by intros _; apply Hbl1|].
        intros Hne. destruct (decide (0 < o_leaves o1)) as [|Hn]; [done|]. destruct Hne.
        rewrite match_levels_filled in Hrun2 by done. injection Hrun2 as _ _ _ E.
        apply (app_inv_head (trades ++ ts1)). by rewrite app_nil_r.
Qed.

(** ** match *)
Lemma StronglySorted_intro {A} (R : A → A → Prop) l :
  (∀ pre x post y, l = pre ++ x :: post → y ∈ post → R x y) → StronglySorted R l.
Proof.
  induction l as [|x l IH]; intros H; constructor.
  - apply IH. intros pre y post z -> Hz. by apply (H (x :: pre) y post z).
  - apply Forall_forall. intros y Hy. by apply (H [] x l y).
Qed.

(** The outcome of matching [o] against the opposite side. *)
Record MatchOk (o : Order) (b : Impl) (c : bool) (ts : list Trade) (o' : Order) (b' : Impl)
    : Prop := mkMatchOk {
  mo_core : Core b';
  mo_matched : Matched o b ts o' b';
  mo_cancel : c = true → stp b ≠ kStpNone;
  mo_priority : ∀ t i e, t ∈ ts → orders b' !! i = Some e →
    o_side (e_order e) = Opposite (o_side o) →
    better (Opposite (o_side o)) (o_price (e_order e)) (t_price t) = true →
    blocked o' (orders b') i;
  mo_complete : c = false → 0 < o_leaves o' → ∀ i e, orders b' !! i = Some e →
    o_side (e_order e) = Opposite (o_side o) → acceptable o (o_price (e_order e)) = true →
    blocked o' (orders b') i;
}.

Lemma match_ok o b trades :
  Core b → 0 ≤ o_leaves o →
  ∃ c o' b' ts, match_ o b trades = Ok (c, o', b', trades ++ ts) ∧ MatchOk o b c ts o' b'.
Proof.
  intros HC Hle. unfold match_. set (s := Opposite (o_side o)).
  destruct (has_base (ladder s b)) eqn:Hb; simpl.
  - destruct (match_levels_ok s (best_first (ladder s b)) o b trades) as (c & o' & b' & ts & Hrun & HW);
      try done.
    { apply Forall_forall. intros i. apply best_first_elem. }
    { apply StronglySorted_intro. intros pre i post j E Hj.
      pose proof (best_first_sorted _ _ _ _ _ E Hj) as H. by rewrite (core_side _ HC s) in H. }
    exists c, o', b', ts. split; [done|].
    destruct HW as [HC' HM Hcc _ _ _ Hpr Hcp].
    destruct (mt_shape _ _ _ _ _ HM s) as (Hb' & Hbase & Hlen).
    assert (∀ i e, orders b' !! i = Some e → o_side (e_order e) = s →
      ∃ k, k ∈ best_first (ladder s b) ∧ o_price (e_order e) = base (ladder s b) + Z.of_nat k ∧
        i ∈ fifo (level_at (ladder s b') (o_price (e_order e)))) as Hidx.
    { intros i e He Hs. destruct (Core_populated _ _ _ HC' He) as [Hin Hpop].
      rewrite Hs in Hin, Hpop. destruct (populated_index _ _ Hpop) as (k & lv & Hk & Hlv & _ & _).
      exists k. rewrite <-Hbase. split_and!; [|done|done]. apply best_first_elem.
      rewrite <-Hlen. by eapply lookup_lt_Some. }
    split; try done.
    + intros t i e Ht He Hs Hbet. destruct (Hidx i e He Hs) as (k & Hk & Hp & Hin).
      rewrite Hp in Hbet, Hin. specialize (Hpr t k Ht Hk Hbet). unfold level_blocked in Hpr.
      rewrite Forall_forall in Hpr. by apply Hpr.
    + intros Hc Hl i e He Hs Ha. destruct (Hidx i e He Hs) as (k & Hk & Hp & Hin).
      rewrite Hp in Ha, Hin. specialize (Hcp Hc Hl k Hk Ha). unfold level_blocked in Hcp.
      rewrite Forall_forall in Hcp. by apply Hcp.
  - exists false, o, b, []. rewrite app_nil_r. split; [done|]. split; try done.
    + by apply Matched_refl.
    + intros t i e Ht. by apply elem_of_nil in Ht.
    + intros _ _ i e He Hs _. destruct (Core_populated _ _ _ HC He) as [_ Hpop].
      rewrite Hs in Hpop. destruct (populated_index _ _ Hpop) as (_ & _ & _ & _ & _ & H).
      fold s in H. congruence.
Qed.
