(* ===== verification/BookRest.v ===== *)
(** * Resting and the resident window

    [rest], [evict_worst] and [insert_resident]: where an order that is not
    (fully) filled goes, and what keeps the resident side within [mem_levels]
    price levels. *)

From S2P Require Import Prelude.
From S2P Require Import Order.
From S2P Require Import Ladder.
From S2P Require Import Book.
From S2P Require Import Replica.
From S2P Require Import BookInv.

(** ** Counting populated levels *)
Definition qty_bit (lv : Level) : nat := if has_qty lv then 1%nat else 0%nat.

Lemma filter_insert_count (l : list Level) i x y :
  l !! i = Some x →
  (length (List.filter has_qty (<[i := y]> l)) + qty_bit x =
   length (List.filter has_qty l) + qty_bit y)%nat.
Proof.
  revert i. induction l as [|z l IH]; intros [|i] Hi; simpl in *; simplify_eq.
  - unfold qty_bit. destruct (has_qty x), (has_qty y); simpl; lia.
  - specialize (IH i Hi). destruct (has_qty z); simpl; lia.
Qed.

Lemma populated_count_set_level L p lv :
  covers L p = true →
  (populated_count (set_level L p lv) + qty_bit (level_at L p) =
   populated_count L + qty_bit lv)%nat.
Proof.
  intros Hc. pose proof (at_level_covers _ _ Hc) as Hat. unfold at_level in Hat. rewrite Hc in Hat.
  unfold populated_count, set_level. simpl. by apply filter_insert_count.
Qed.

Lemma filter_replicate_empty n : List.filter has_qty (replicate n empty_level) = [].
Proof. by induction n. Qed.

Lemma populated_count_touch L p : ladder_ok L → populated_count (touch L p) = populated_count L.
Proof.
  intros Hok. unfold touch, populated_count. case_if; [|case_if; [|case_if]]; simpl; try done.
  - by rewrite (proj1 (Hok Heqb)).
  - by rewrite List.filter_app, filter_replicate_empty.
  - by rewrite List.filter_app, filter_replicate_empty, app_nil_r.
Qed.

Lemma populated_count_on_added L p : populated_count (on_added L p) = populated_count L.
Proof. unfold on_added. by repeat case_if. Qed.
Lemma populated_count_on_removed L p : populated_count (on_removed L p) = populated_count L.
Proof. unfold on_removed. by repeat case_if. Qed.

Lemma populated_count_enqueue L p i q d :
  ladder_ok L → 0 < q → 0 ≤ total (level_at L p) →
  (populated_count (enqueue L p i q d) + qty_bit (level_at L p) = S (populated_count L))%nat.
Proof.
  intros Hok Hq Ht. unfold enqueue. rewrite populated_count_on_added.
  pose proof (touch_covers L p Hok) as Hc. rewrite <-(level_at_touch L p p Hok).
  rewrite populated_count_set_level by done. rewrite populated_count_touch by done.
  fold (level_at (touch L p) p). rewrite (level_at_touch L p p Hok).
  unfold qty_bit, has_qty. simpl. rewrite (proj2 (Z.ltb_lt _ _)) by lia. lia.
Qed.

Lemma populated_count_settle L p lv :
  covers L p = true →
  (populated_count (settle L p lv) + qty_bit (level_at L p) = populated_count L + qty_bit lv)%nat.
Proof.
  intros Hc. unfold settle. case_if; rewrite ?populated_count_on_removed;
    by apply populated_count_set_level.
Qed.

(** ** Adding an order to the resident book *)

(** [enqueue] and the map insertion shared by every resting path. *)
Definition insert_entry (e : Entry) (b : Impl) : Impl :=
  let o := e_order e in
  set_orders (<[o_id o := e]> (orders b))
    (set_ladder (o_side o)
       (enqueue (ladder (o_side o) b) (o_price o) (o_id o) (o_leaves o) (e_disp e)) b).

Definition add_entry (o : Order) (b : Impl) : Impl :=
  insert_entry (mkEntry o (initial_slice o)) b.

Lemma initial_entry_ok o : order_ok o → entry_ok (o_id o) (mkEntry o (initial_slice o)).
Proof.
  intros (Hl & Hd & Hf). split_and!; [done|split_and!; done|]. simpl.
  intros Hice. specialize (Hd Hice). unfold initial_slice. rewrite Hice. lia.
Qed.

Lemma insert_entry_ladder e b s :
  ladder s (insert_entry e b) =
    if decide (s = o_side (e_order e)) then
      enqueue (ladder s b) (o_price (e_order e)) (o_id (e_order e)) (o_leaves (e_order e)) (e_disp e)
    else ladder s b.
Proof. unfold insert_entry. by destruct s, (o_side (e_order e)). Qed.

Lemma insert_entry_ok e b :
  Resting b → entry_ok (o_id (e_order e)) e → orders b !! o_id (e_order e) = None →
  Resting (insert_entry e b).
Proof.
  intros [Hs Hl Hc Hlv He Hp] Ho Hfresh. set (o := e_order e) in *.
  assert (0 < o_leaves o) as Hpos by apply Ho.
  pose proof (level_total_nonneg _ _ (o_side o) (o_price o) Hlv He) as Hnn.
  pose proof (insert_entry_ladder e b) as Hla. fold o in Hla.
  assert (orders (insert_entry e b) = <[o_id o := e]> (orders b)) as Hor by done.
  assert (pegged (insert_entry e b) = pegged b) as Hpg
    by (unfold insert_entry; by destruct (o_side (e_order e))).
  split.
  - intros t. rewrite Hla. case_decide; [subst; by rewrite side_enqueue|done].
  - intros t. rewrite Hla. case_decide; [apply ladder_ok_enqueue|done].
  - intros t. rewrite Hla. case_decide; [subst; by apply cache_ok_enqueue|done].
  - rewrite Hor. eapply levels_ok_ext.
    + eapply (levels_insert _ _ (o_side o) (o_price o) _ _
        (mkLevel (total (ladders b (o_side o) (o_price o)) + o_leaves o)
           (displayed (ladders b (o_side o) (o_price o)) + e_disp e)
           (fifo (ladders b (o_side o) (o_price o)) ++ [o_id o]))); try done.
      simpl. by rewrite (Permutation_app_comm _ [o_id o]).
    + intros t r. unfold override, ladders. rewrite Hla.
      destruct (decide (t = o_side o)) as [->|]; [|by rewrite decide_False by naive_solver].
      rewrite level_at_enqueue by done. repeat case_decide; naive_solver.
  - rewrite Hor. intros i e' [[<- <-]|[_ Hi]]%lookup_insert_Some; [done|by apply He].
  - rewrite Hor, Hpg. by apply pegs_ok_insert.
Qed.

Lemma add_entry_ok o b :
  Resting b → order_ok o → orders b !! o_id o = None → Resting (add_entry o b).
Proof. intros HR Ho Hf. apply insert_entry_ok; [done|by apply initial_entry_ok|done]. Qed.

(** Taking an entry out: [dequeue], the map erase and the peg erase. *)
Definition remove_entry (i : OrderId) (e : Entry) (b : Impl) : Impl :=
  let o := e_order e in
  set_orders (delete i (orders b))
    (set_ladder (o_side o)
       (dequeue (ladder (o_side o) b) (o_price o) i (o_leaves o) (e_disp e))
       (set_pegged (pegged b ∖ {[i]}) b)).

Lemma remove_entry_ladder i e b s :
  Resting b → orders b !! i = Some e →
  let L := ladder (o_side (e_order e)) b in
  let p := o_price (e_order e) in
  ladder s (remove_entry i e b) =
    if decide (s = o_side (e_order e)) then
      settle L p (mkLevel (total (level_at L p) - o_leaves (e_order e))
                    (displayed (level_at L p) - e_disp e) (remove_id i (fifo (level_at L p))))
    else ladder s b.
Proof.
  intros HR Hi L p. destruct (Resting_populated _ _ _ HR Hi) as [_ Hpop].
  apply populated_covers in Hpop. rewrite <-(dequeue_settle _ _ _ _ _ Hpop).
  unfold remove_entry. by destruct s, (o_side (e_order e)).
Qed.

Lemma remove_entry_ok i e b :
  Resting b → orders b !! i = Some e → Resting (remove_entry i e b).
Proof.
  intros HR Hi. pose proof HR as [Hs Hl Hc Hlv He Hp].
  pose proof (λ s, remove_entry_ladder i e b s HR Hi) as Hla. simpl in Hla.
  destruct (Resting_populated _ _ _ HR Hi) as [Hin Hpop].
  pose proof (populated_covers _ _ Hpop) as Hcov.
  set (s := o_side (e_order e)) in *. set (p := o_price (e_order e)) in *.
  set (lv := mkLevel _ _ _) in Hla.
  assert (orders (remove_entry i e b) = delete i (orders b)) as Hor by done.
  assert (pegged (remove_entry i e b) = pegged b ∖ {[i]}) as Hpg
    by (unfold remove_entry; by destruct (o_side (e_order e))).
  assert (levels_ok (delete i (orders b)) (override (ladders b) s p lv)) as Hlv'.
  { eapply levels_delete; try done. unfold lv. simpl.
    destruct (remove_id_split i _ Hin) as (l1 & l2 & E1 & E2). unfold ladders in *.
    rewrite E2, E1. apply Permutation_middle. }
  assert (entries_ok (delete i (orders b))) as He'.
  { intros j e' [_ Hj]%lookup_delete_Some. by apply He. }
  assert (0 ≤ total lv) as Hnn.
  { pose proof (level_total_nonneg _ _ s p Hlv' He') as H. by rewrite override_eq in H. }
  split.
  - intros t. rewrite Hla. case_decide; [subst; by rewrite side_settle|done].
  - intros t. rewrite Hla. case_decide; [by apply ladder_ok_settle|done].
  - intros t. rewrite Hla. case_decide; [by apply cache_ok_settle|done].
  - rewrite Hor. eapply levels_ok_ext; [done|].
    intros t r. unfold override, ladders. rewrite Hla.
    destruct (decide (t = s)) as [->|]; [|by rewrite decide_False by naive_solver].
    rewrite level_at_settle by done. repeat case_decide; naive_solver.
  - by rewrite Hor.
  - rewrite Hor, Hpg. by apply pegs_ok_delete.
Qed.

Lemma remove_entry_cold i e b : cold b (remove_entry i e b).
Proof. unfold remove_entry. by destruct (o_side (e_order e)). Qed.

Lemma add_entry_ladder o b s :
  ladder s (add_entry o b) =
    if decide (s = o_side o) then
      enqueue (ladder s b) (o_price o) (o_id o) (o_leaves o)
        (DisplayedOf (o_flags o) (o_leaves o) (initial_slice o))
    else ladder s b.
Proof. apply insert_entry_ladder. Qed.

Lemma add_entry_cold o b : cold b (add_entry o b).
Proof. unfold add_entry, insert_entry. simpl. by destruct (o_side o). Qed.

(** ** Eviction *)
Definition drop_ids (l : list OrderId) (m : gmap OrderId Entry) : gmap OrderId Entry :=
  foldl (λ m i, delete i m) m l.

Lemma lookup_drop_ids l m i : drop_ids l m !! i = if decide (i ∈ l) then None else m !! i.
Proof.
  unfold drop_ids. revert m. induction l as [|j l IH]; intros m; cbn [foldl].
  - case_decide; [set_solver|done].
  - rewrite IH. destruct (decide (i = j)) as [->|Hne].
    + rewrite lookup_delete_eq. rewrite (decide_True (P := j ∈ j :: l)) by set_solver.
      by case_decide.
    + rewrite lookup_delete_ne by done.
      destruct (decide (i ∈ l)); [rewrite decide_True by set_solver|rewrite decide_False by set_solver]; done.
Qed.

(** The evicted queue, order by order. *)
Lemma evict_fold b ev l :
  NoDup l → (∀ i, i ∈ l → is_Some (orders b !! i)) →
  foldl evict_one (b, ev) l =
    (set_pegged (pegged b ∖ list_to_set l) (set_orders (drop_ids l (orders b)) b),
     ev ++ omap (λ i, e_order <$> orders b !! i) l).
Proof.
  revert b ev. induction l as [|i l IH]; intros b ev Hnd Hin; simpl.
  - rewrite app_nil_r, difference_empty_L. by destruct b.
  - apply NoDup_cons in Hnd as [Hi Hnd].
    destruct (Hin i) as [e He]; [set_solver|]. rewrite He. simpl.
    rewrite IH; [|done|].
    + simpl. rewrite difference_difference_l_L. f_equal.
      rewrite <-app_assoc. cbn. do 2 f_equal. apply omap_ext_in. intros j Hj.
      rewrite lookup_delete_ne; [done|]. by intros ->.
    + intros j Hj. simpl. rewrite lookup_delete_ne; [apply Hin; set_solver|].
      intros ->. done.
Qed.

Lemma levels_drop m f s p :
  levels_ok m f → levels_ok (drop_ids (fifo (f s p)) m) (override f s p empty_level).
Proof.
  intros Hok t r. unfold override. case_decide as Htr.
  - destruct Htr as [-> ->]. split_and!; simpl; try done; [constructor|].
    intros i. split; [set_solver|]. intros (e & He & Hs & Hp).
    rewrite lookup_drop_ids in He. case_decide as Hi; [done|].
    destruct Hi. apply Hok. by exists e.
  - destruct (Hok t r) as (Hnd & Hin & Ht & Hd).
    assert (∀ i, i ∈ fifo (f t r) → drop_ids (fifo (f s p)) m !! i = m !! i) as Hsame.
    { intros i Hi. rewrite lookup_drop_ids, decide_False; [done|]. intros Hi'.
      apply Hok in Hi as (e & He & ? & ?), Hi' as (e' & He' & ? & ?). naive_solver. }
    split_and!; [done| | |].
    + intros i. split.
      * intros Hi. pose proof Hi as (e & He & ?)%Hin. exists e. by rewrite Hsame.
      * intros (e & He & ?). apply Hin. exists e. rewrite lookup_drop_ids in He.
        by case_decide.
    + rewrite Ht. apply zsum_ext. intros i Hi. unfold leaves_in. by rewrite Hsame.
    + rewrite Hd. apply zsum_ext. intros i Hi. unfold disp_in. by rewrite Hsame.
Qed.

Lemma note_deep_ladder s p b t : ladder t (note_deep s p b) = ladder t b.
Proof. by destruct s, t. Qed.
Lemma note_deep_cold s p b : cold b (note_deep s p b).
Proof. by destruct s. Qed.

(** [evict_worst] on a populated side: the worst level leaves, queue order
    kept, everything else stays. *)
Lemma evict_worst_eq s b ev wp :
  Resting b → worst_price (ladder s b) = Some wp →
  let q := fifo (ladders b s wp) in
  evict_worst s b ev =
    (note_deep s wp
       (set_ladder s (settle (ladder s b) wp empty_level)
          (set_pegged (pegged b ∖ list_to_set q) (set_orders (drop_ids q (orders b)) b))),
     ev ++ omap (λ i, e_order <$> orders b !! i) q).
Proof.
  intros HR Hw q. unfold evict_worst. rewrite Hw.
  destruct (worst_price_Some _ _ Hw) as [Hpop _]. apply populated_covers in Hpop.
  rewrite at_level_covers by done. fold (ladders b s wp).
  destruct (rs_levels _ HR s wp) as (Hnd & Hin & _ & _).
  rewrite evict_fold; [|done|].
  - unfold settle. by destruct s.
  - intros i (e & He & _)%Hin. by rewrite He.
Qed.

Lemma evict_worst_ok s b ev wp :
  Resting b → worst_price (ladder s b) = Some wp → Resting (evict_worst s b ev).1.
Proof.
  intros HR Hw. pose proof HR as [Hs Hl Hc Hlv He Hp].
  rewrite (evict_worst_eq _ _ _ wp HR Hw). simpl.
  destruct (worst_price_Some _ _ Hw) as [Hpop _]. pose proof (populated_covers _ _ Hpop) as Hcov.
  set (q := fifo (ladders b s wp)). set (b' := note_deep _ _ _).
  assert (∀ t, ladder t b' = if decide (t = s) then settle (ladder s b) wp empty_level
                             else ladder t b) as Hla by (intros t; by destruct s, t).
  assert (orders b' = drop_ids q (orders b)) as Hor by (by destruct s).
  assert (pegged b' = pegged b ∖ list_to_set q) as Hpg by (by destruct s).
  split.
  - intros t. rewrite Hla. case_decide; [subst; by rewrite side_settle|done].
  - intros t. rewrite Hla. case_decide; [by apply ladder_ok_settle|done].
  - intros t. rewrite Hla. case_decide; [by apply cache_ok_settle|done].
  - rewrite Hor. eapply levels_ok_ext; [by apply levels_drop|].
    intros t r. unfold override, ladders. rewrite Hla.
    destruct (decide (t = s)) as [->|]; [|by rewrite decide_False by naive_solver].
    rewrite level_at_settle by done. repeat case_decide; naive_solver.
  - rewrite Hor. intros i e. rewrite lookup_drop_ids. case_decide; [done|]. apply He.
  - rewrite Hor, Hpg. intros i [Hi Hn]%elem_of_difference.
    rewrite lookup_drop_ids, decide_False by set_solver. by apply Hp.
Qed.

(** ** rest *)
Lemma view_add m o sym :
  m !! o_id o = None → order_ok o →
  let e := mkEntry o (initial_slice o) in
  let ev := mkEvent 0 sym kAdd (o_id o) 0 (o_side o) (o_price o) 0 (o_leaves o)
              (DisplayedOf (o_flags o) (o_leaves o) (initial_slice o)) in
  coherent (view <$> m) ev ∧ view <$> <[o_id o := e]> m = l3_apply (view <$> m) ev.
Proof.
  intros Hm (Hl & Hd & Hf) e ev. split.
  - unfold coherent, ev. simpl. rewrite lookup_fmap, Hm. split; [done|].
    unfold DisplayedOf, initial_slice. repeat case_if; lia.
  - unfold l3_apply, apply_sym, ev. simpl. by rewrite r_orders_bump, fmap_insert.
Qed.

(** Whether [rest] evicts after adding the order. *)
Definition overgrown (o : Order) (b b1 : Impl) : bool :=
  (0 <? mem_levels b)%nat && new_level o b &&
  (mem_levels b <? populated_count (ladder (o_side o) b1))%nat.

Lemma rest_resident_eq o b ev :
  orders b !! o_id o = None → rests_deep o b = false →
  ∃ pos, let b1 := set_positions pos (add_entry o b) in
    rest o b ev =
      let '(b2, ev2) := if overgrown o b b1 then evict_worst (o_side o) b1 ev else (b1, ev) in
      (true, emit_event kAdd o (o_leaves o)
               (DisplayedOf (o_flags o) (o_leaves o) (initial_slice o)) b2, ev2).
Proof.
  intros Hf Hd. unfold rest. rewrite Hd.
  assert (∀ L, orders (set_ladder (o_side o) L b) = orders b) as Hor
    by (intros L; by destruct (o_side o)).
  rewrite Hor, Hf. set (L := enqueue _ _ _ _ _).
  destruct (is_reduce_only o && negb (o_client_id o =? 0)).
  - unfold overgrown, add_entry, insert_entry, e_disp. simpl. fold L. destruct (o_side o); eexists; reflexivity.
  - exists (positions b). unfold overgrown, add_entry, insert_entry, e_disp. simpl. fold L.
    destruct (o_side o); destruct b; reflexivity.
Qed.

(** What [rest] establishes. *)
Record RestOk (o : Order) (b : Impl) (r : bool) (ev : list Order) (b' : Impl) : Prop := mkRestOk {
  ro_core : Core b';
  ro_cold : cold b b';
  ro_orders : ∀ i e, orders b' !! i = Some e →
    (i = o_id o ∧ e = mkEntry o (initial_slice o)) ∨ orders b !! i = Some e;
  ro_kept : ∀ i e, orders b !! i = Some e → orders b' !! i = Some e ∨ e_order e ∈ ev;
  ro_resident : r = true → orders b' !! o_id o = Some (mkEntry o (initial_slice o));
  ro_unbounded : mem_levels b = 0%nat →
    r = true ∧ ev = [] ∧ orders b' = <[o_id o := mkEntry o (initial_slice o)]> (orders b);
  ro_window : (0 < mem_levels b)%nat → ∀ s,
    (populated_count (ladder s b) ≤ mem_levels b)%nat →
    (populated_count (ladder s b') ≤ mem_levels b)%nat;
}.

Lemma emit_event_eq ty o q d b :
  emit_event ty o q d b =
    set_emitted (if event_sink_ b then
                   emitted b ++ [mkEvent 0 (symbol_ b) ty (o_id o) 0 (o_side o) (o_price o) 0 q d]
                 else emitted b) b.
Proof. unfold emit_event. apply deliver_eq. Qed.

Lemma rest_deep_ok o b ev :
  Core b → rests_deep o b = true →
  ∃ b', rest o b ev = (false, b', ev) ∧ RestOk o b false [] b'.
Proof.
  intros HC Hd. unfold rest. rewrite Hd, emit_event_eq. eexists. split; [done|].
  assert (mem_levels b ≠ 0%nat) as Hmem.
  { unfold rests_deep in Hd. destruct (mem_levels b); done. }
  set (b1 := note_deep _ _ _).
  assert (∀ t, ladder t b1 = ladder t b) as Hla by (intros; apply note_deep_ladder).
  assert (orders b1 = orders b ∧ pegged b1 = pegged b ∧ mem_levels b1 = mem_levels b)
    as (Hor & Hpg & Hml) by (unfold b1; by destruct (o_side o)).
  pose proof (note_deep_cold (o_side o) (o_price o) b) as Hcold. fold b1 in Hcold.
  split; simpl; rewrite ?Hor; try done.
  - destruct HC as [HC1 HC2 HC3 HC4 HC5 HC6 HC7].
    assert (∀ t es, ladder t (set_emitted es b1) = ladder t b) as Hla'
      by (intros t es; rewrite <-Hla; by destruct t).
    split; simpl; rewrite ?Hor, ?Hpg, ?Hml; try done.
    + intros s. by rewrite Hla'.
    + intros s. by rewrite Hla'.
    + intros s. by rewrite Hla'.
    + intros s p. unfold ladders. rewrite Hla'. apply HC4.
  - destruct Hcold. by split.
  - by right.
  - by left.
  - intros _ s. by rewrite <-Hla.
Qed.

(** Updates of positions and of the delivered events touch nothing [Resting]
    looks at. *)
Lemma Resting_emitted es b : Resting b → Resting (set_emitted es b).
Proof.
  by intros [].
Qed.
Lemma Resting_positions ps b : Resting b → Resting (set_positions ps b).
Proof.
  by intros [].
Qed.

Lemma new_level_empty o b :
  Core b → (0 < mem_levels b)%nat →
  new_level o b = true ↔ total (ladders b (o_side o) (o_price o)) = 0.
Proof.
  intros HC Hmem. unfold new_level, ladders, level_at.
  rewrite (proj2 (Nat.ltb_lt _ _) Hmem).
  destruct (at_level _ _) as [lv|] eqn:E; simpl; [by rewrite Z.eqb_eq|done].
Qed.

Lemma new_level_count o b b1 :
  Core b → order_ok o → (0 < mem_levels b)%nat →
  ladder (o_side o) b1 = ladder (o_side o) (add_entry o b) →
  populated_count (ladder (o_side o) b1) =
    (populated_count (ladder (o_side o) b) + (if new_level o b then 1 else 0))%nat.
Proof.
  intros HC Ho Hmem ->. rewrite add_entry_ladder, decide_True by done.
  pose proof (level_total_nonneg _ _ (o_side o) (o_price o) (core_levels _ HC) (core_entries _ HC)) as Hnn.
  pose proof (new_level_empty o b HC Hmem) as Hnl. unfold ladders in *.
  pose proof (populated_count_enqueue (ladder (o_side o) b) (o_price o) (o_id o) (o_leaves o)
    (DisplayedOf (o_flags o) (o_leaves o) (initial_slice o)) (core_ladder _ HC _) (proj1 Ho) Hnn) as Hc.
  unfold qty_bit, has_qty in Hc. destruct (new_level o b).
  - rewrite (proj1 Hnl eq_refl) in Hc. simpl in Hc. lia.
  - rewrite (proj2 (Z.ltb_lt _ _)) in Hc; [lia|].
    destruct (decide (total (level_at (ladder (o_side o) b) (o_price o)) = 0)) as [E|E]; [|lia].
    by apply Hnl in E.
Qed.

(** When the window overgrows, the evicted level is not the new order's. *)
Lemma overgrown_worst o b b1 :
  Core b → order_ok o → rests_deep o b = false →
  ladder (o_side o) b1 = ladder (o_side o) (add_entry o b) → overgrown o b b1 = true →
  ∃ wp, worst_price (ladder (o_side o) b1) = Some wp ∧ wp ≠ o_price o.
Proof.
  intros HC Ho Hd Hla Hov. unfold overgrown in Hov. apply andb_true_iff in Hov as [Hov Hcnt].
  apply andb_true_iff in Hov as [Hmem Hnl]. apply Nat.ltb_lt in Hcnt, Hmem.
  rewrite (new_level_count o b b1 HC Ho Hmem Hla), Hnl in Hcnt.
  unfold rests_deep in Hd. rewrite (proj2 (Nat.ltb_lt _ _) Hmem), Hnl in Hd. simpl in Hd.
  set (s := o_side o) in *. set (L := ladder s b) in *.
  assert (ladder_ok L) as Hok by apply HC. assert (side L = s) as Hs by apply HC.
  pose proof (level_total_nonneg _ _ s (o_price o) (core_levels _ HC) (core_entries _ HC)) as Hnn.
  destruct (worst_price L) as [w|] eqn:Hw.
  2:{ exfalso. unfold populated_count in Hcnt.
      destruct (List.filter has_qty (levels L)) as [|lv l] eqn:Hf; [simpl in Hcnt; lia|].
      assert (lv ∈ List.filter has_qty (levels L)) as Hin by (rewrite Hf; set_solver).
      apply list_elem_of_In, filter_In in Hin as [Hin Hq].
      apply list_elem_of_In, list_elem_of_lookup in Hin as [k Hk].
      destruct (has_base L) eqn:Hb; [|by rewrite (proj1 (Hok Hb)) in Hk].
      apply (worst_price_None L (base L + Z.of_nat k) Hw Hok).
      unfold populated. rewrite (level_at_lookup _ _ _ Hb Hk). unfold has_qty in Hq. lia. }
  rewrite (proj2 (Nat.leb_le _ _)) in Hd by lia. simpl in Hd.
  assert (∀ q, populated (ladder s b1) q ↔ q = o_price o ∨ populated L q) as Hpop.
  { intros q. rewrite Hla, add_entry_ladder, decide_True by done. apply populated_enqueue; [done|apply Ho|done]. }
  destruct (worst_price_Some _ _ Hw) as [Hpw Hworst].
  destruct (worst_price (ladder s b1)) as [wp|] eqn:Hwp.
  - exists wp. split; [done|]. intros ->.
    destruct (worst_price_Some _ _ Hwp) as [_ Hworst'].
    assert (side (ladder s b1) = s) as Hs'.
    { rewrite Hla, add_entry_ladder, decide_True, side_enqueue by done. done. }
    pose proof (Hworst' w (proj2 (Hpop w) (or_intror Hpw))) as Hb1. rewrite Hs' in Hb1.
    assert (better s w (o_price o) = false) as Hb2 by (unfold better, worse_than in *; by destruct s).
    pose proof (better_total s _ _ Hb1 Hb2) as <-.
    apply (new_level_empty o b HC Hmem) in Hnl. unfold populated in Hpw.
    unfold ladders in Hnl. fold s L in Hnl. lia.
  - exfalso. apply (worst_price_None _ (o_price o) Hwp).
    + rewrite Hla, add_entry_ladder, decide_True by done. apply ladder_ok_enqueue.
    + apply Hpop. by left.
Qed.

Lemma rest_plain_ok o b pos :
  Core b → order_ok o → orders b !! o_id o = None →
  let b1 := set_positions pos (add_entry o b) in
  overgrown o b b1 = false →
  RestOk o b true []
    (emit_event kAdd o (o_leaves o) (DisplayedOf (o_flags o) (o_leaves o) (initial_slice o)) b1).
Proof.
  intros HC Ho Hf b1 Hov. pose proof (add_entry_cold o b) as Hcold.
  assert (symbol_ b1 = symbol_ b ∧ event_sink_ b1 = event_sink_ b ∧ emitted b1 = emitted b ∧
          mem_levels b1 = mem_levels b) as (Hsy & Hsk & Hem & Hml)
    by (unfold b1, add_entry, insert_entry; simpl; by destruct (o_side o)).
  assert (cold b b1) as Hcold1 by (by destruct Hcold).
  assert (orders b1 = <[o_id o := mkEntry o (initial_slice o)]> (orders b)) as Hor by done.
  assert (∀ s, ladder s b1 = ladder s (add_entry o b)) as Hla by (by intros []).
  apply Core_Resting in HC as HRF. destruct HRF as [HR Hfeed].
  assert (Resting b1) as HR1 by (apply Resting_positions, add_entry_ok; done).
  clearbody b1. rewrite emit_event_eq. split; simpl; rewrite ?Hor.
  - apply Core_Resting. split; [by apply Resting_emitted|].
    simpl. rewrite Hsk, Hem, Hsy, Hml, Hor.
    destruct (view_add (orders b) o (symbol_ b) Hf Ho). by eapply feed_ok_deliver.
  - destruct Hcold1. by split.
  - intros i e [[<- <-]|[_ Hi]]%lookup_insert_Some; [by left|by right].
  - intros i e Hi. left. rewrite lookup_insert_ne; [done|]. intros <-. congruence.
  - intros _. apply lookup_insert_eq.
  - intros _. split_and!; done.
  - intros Hmem s Hc.
    assert (∀ es, ladder s (set_emitted es b1) = ladder s b1) as -> by (by destruct s).
    destruct (decide (s = o_side o)) as [->|Hne].
    + unfold overgrown in Hov. rewrite (proj2 (Nat.ltb_lt _ _) Hmem) in Hov.
      rewrite (new_level_count o b b1) in Hov |- * by done.
      destruct (new_level o b); simpl in Hov; [apply Nat.ltb_ge in Hov|]; lia.
    + by rewrite Hla, add_entry_ladder, decide_False.
Qed.

Lemma rest_evict_ok o b ev pos :
  Core b → order_ok o → orders b !! o_id o = None → rests_deep o b = false →
  let b1 := set_positions pos (add_entry o b) in
  overgrown o b b1 = true →
  ∃ b2 ev', evict_worst (o_side o) b1 ev = (b2, ev ++ ev') ∧
    RestOk o b true ev'
      (emit_event kAdd o (o_leaves o) (DisplayedOf (o_flags o) (o_leaves o) (initial_slice o)) b2).
Proof.
  intros HC Ho Hf Hd b1 Hov. apply Core_Resting in HC as HRF. destruct HRF as [HR Hfeed].
  assert (Resting b1) as HR1 by (apply Resting_positions, add_entry_ok; done).
  assert (ladder (o_side o) b1 = ladder (o_side o) (add_entry o b)) as Hla by (by destruct (o_side o)).
  destruct (overgrown_worst o b b1 HC Ho Hd Hla Hov) as (wp & Hwp & Hne).
  assert (0 < mem_levels b)%nat as Hmem.
  { unfold overgrown in Hov. destruct (mem_levels b); [done|lia]. }
  pose proof (evict_worst_ok _ _ ev wp HR1 Hwp) as HR2.
  pose proof (evict_worst_eq _ _ ev wp HR1 Hwp) as Heq. simpl in Heq.
  rewrite Heq in HR2. simpl in HR2. rewrite Heq. clear Heq.
  set (q := fifo (ladders b1 (o_side o) wp)) in *. set (b2 := note_deep _ _ _) in *.
  assert (orders b1 = <[o_id o := mkEntry o (initial_slice o)]> (orders b)) as Hor1 by done.
  assert (orders b2 = drop_ids q (orders b1)) as Hor2 by (unfold b2; by destruct (o_side o)).
  assert (mem_levels b2 = mem_levels b) as Hml
    by (unfold b2, b1, add_entry, insert_entry; simpl; by destruct (o_side o)).
  assert (o_id o ∉ q) as Hq.
  { intros Hin. apply (rs_levels _ HR1) in Hin as (e & He & _ & Hp).
    rewrite Hor1, lookup_insert_eq in He. simplify_eq. }
  eexists _, _. split; [done|]. rewrite emit_event_eq. split; simpl.
  - apply Core_Resting. split; [by apply Resting_emitted|]. apply feed_ok_bounded. simpl. lia.
  - transitivity (add_entry o b); [apply add_entry_cold|]. unfold b2, b1. by destruct (o_side o).
  - rewrite Hor2. intros i e. rewrite lookup_drop_ids, Hor1. case_decide; [done|].
    intros [[<- <-]|[_ Hi]]%lookup_insert_Some; [by left|by right].
  - intros i e Hi. rewrite Hor2, lookup_drop_ids. case_decide as Hiq.
    + right. apply list_elem_of_omap. exists i. split; [done|].
      rewrite lookup_insert_ne, Hi by (intros <-; congruence). done.
    + left. rewrite Hor1, lookup_insert_ne; [done|]. intros <-. congruence.
  - intros _. rewrite Hor2, lookup_drop_ids, decide_False, Hor1 by done. apply lookup_insert_eq.
  - intros E. rewrite E in Hmem. lia.
  - intros _ s Hc.
    assert (∀ es, ladder s (set_emitted es b2) =
      if decide (s = o_side o) then settle (ladder (o_side o) b1) wp empty_level else ladder s b)
      as -> by (intros es; unfold b2, b1, add_entry, insert_entry; simpl; by destruct s, (o_side o)).
    case_decide; [subst s|done].
    destruct (worst_price_Some _ _ Hwp) as [Hpop _].
    pose proof (populated_count_settle _ _ empty_level (populated_covers _ _ Hpop)) as Hcs.
    unfold qty_bit in Hcs. unfold has_qty at 1 in Hcs. unfold populated in Hpop.
    rewrite (proj2 (Z.ltb_lt _ _) Hpop) in Hcs. simpl in Hcs.
    pose proof (new_level_count o b b1 HC Ho Hmem Hla) as Hn.
    destruct (new_level o b); lia.
Qed.

Lemma rest_ok o b ev :
  Core b → order_ok o → orders b !! o_id o = None →
  ∃ r b' ev', rest o b ev = (r, b', ev ++ ev') ∧ RestOk o b r ev' b'.
Proof.
  intros HC Ho Hf. destruct (rests_deep o b) eqn:Hd.
  - destruct (rest_deep_ok o b ev HC Hd) as (b' & -> & HR).
    exists false, b', []. by rewrite app_nil_r.
  - destruct (rest_resident_eq o b ev Hf Hd) as [pos ->]. case_if.
    + destruct (rest_evict_ok o b ev pos HC Ho Hf Hd Heqb0) as (b2 & ev' & -> & HR).
      by eexists true, _, ev'.
    + eexists true, _, []. rewrite app_nil_r. split; [done|]. by apply rest_plain_ok.
Qed.

(** ** insert_resident *)
Lemma insert_resident_ok o b :
  Core b → order_ok o → orders b !! o_id o = None → mem_levels b ≠ 0%nat →
  Core (insert_resident o b) ∧ cold b (insert_resident o b) ∧
  orders (insert_resident o b) = <[o_id o := mkEntry o (initial_slice o)]> (orders b).
Proof.
  intros HC Ho Hf Hmem.
  assert (insert_resident o b = add_entry o b) as ->.
  { unfold insert_resident, add_entry, insert_entry, e_disp. simpl.
    assert (∀ L, orders (set_ladder (o_side o) L b) = orders b) as Hor
      by (intros L; by destruct (o_side o)).
    by rewrite Hor, Hf. }
  apply Core_Resting in HC as [HR Hfeed]. split_and!; [|apply add_entry_cold|done].
  apply Core_Resting. split; [by apply add_entry_ok|]. apply feed_ok_bounded.
  unfold add_entry, insert_entry. simpl. by destruct (o_side o).
Qed.
