(* ===== verification/BookFlow.v ===== *)
(** * Parked orders, stops and pegs

    The registry invariant (an id lives in one place: the book, a parked stop,
    an auction queue or a group's held children), [inject], the stop cascade
    of [evaluate_stops] and peg repricing. *)

From S2P Require Import Prelude.
From S2P Require Import Order.
From S2P Require Import Ladder.
From S2P Require Import Book.
From S2P Require Import Replica.
From S2P Require Import BookInv.
From S2P Require Import BookMatch.
From S2P Require Import BookRest.

(** ** Where an id lives *)
Definition present {V} (m : gmap OrderId V) (i : OrderId) : nat :=
  match m !! i with Some _ => 1 | None => 0 end.
Definition count_id (i : OrderId) (l : list Order) : nat :=
  length (List.filter (λ o, o_id o =? i) l).
#[global] Arguments count_id : simpl never.

Definition occ (b : Impl) (i : OrderId) : nat :=
  present (orders b) i + present (stops b) i +
  count_id i (opening_auction b) + count_id i (closing_auction b) +
  map_sum (λ g, count_id i (group_pending g)) (groups b).

(** Well-formed book: the core invariant, tradable parked orders, unique ids. *)
Record WF (b : Impl) : Prop := mkWF {
  wf_core : Core b;
  wf_stops : ∀ i o, stops b !! i = Some o → o_id o = i ∧ order_ok o;
  wf_opening : Forall order_ok (opening_auction b);
  wf_closing : Forall order_ok (closing_auction b);
  wf_pending : ∀ k g, groups b !! k = Some g → Forall order_ok (group_pending g);
  wf_unique : ∀ i, (occ b i ≤ 1)%nat;
}.

Lemma present_delete {V} (m : gmap OrderId V) i j :
  present (delete i m) j = if decide (j = i) then 0%nat else present m j.
Proof.
  unfold present. case_decide; [subst; by rewrite lookup_delete_eq|by rewrite lookup_delete_ne].
Qed.
Lemma present_insert {V} (m : gmap OrderId V) i v j :
  present (<[i := v]> m) j = if decide (j = i) then 1%nat else present m j.
Proof.
  unfold present. case_decide; [subst; by rewrite lookup_insert_eq|by rewrite lookup_insert_ne].
Qed.
Lemma present_fmap {V W} (f : V → W) (m : gmap OrderId V) j : present (f <$> m) j = present m j.
Proof. unfold present. rewrite lookup_fmap. by destruct (m !! j). Qed.
Lemma present_Some {V} (m : gmap OrderId V) i v : m !! i = Some v → present m i = 1%nat.
Proof. unfold present. by intros ->. Qed.
Lemma present_le {V} (m m' : gmap OrderId V) i :
  (is_Some (m' !! i) → is_Some (m !! i)) → (present m' i ≤ present m i)%nat.
Proof.
  intros H. unfold present. destruct (m' !! i), (m !! i); try lia. by destruct H as [? ?].
Qed.

(** The hot part changed: the ids of the resident book grew by at most [o]. *)
Definition grown (i : OrderId) (b b' : Impl) : Prop :=
  cold b b' ∧ ∀ j, is_Some (orders b' !! j) → j = i ∨ is_Some (orders b !! j).

(** Only the order map moved, with no new id. *)
Definition shrunk (b b' : Impl) : Prop :=
  cold b b' ∧ ∀ j, is_Some (orders b' !! j) → is_Some (orders b !! j).

#[export] Instance shrunk_preorder : PreOrder shrunk.
Proof.
  split; [done|]. intros b1 b2 b3 [? ?] [? ?]. split; [by etrans|]. auto.
Qed.

Lemma occ_shrunk b b' j : shrunk b b' → (occ b' j ≤ occ b j)%nat.
Proof.
  intros [[Hs Hg _ Ho Hc _ _ _ _] H]. unfold occ. rewrite Hs, Hg, Ho, Hc.
  pose proof (present_le (orders b) (orders b') j (H j)). lia.
Qed.

Lemma occ_grown i b b' j :
  grown i b b' → (occ b' j ≤ occ b j + (if decide (j = i) then 1 else 0))%nat.
Proof.
  intros [[Hs Hg _ Ho Hc _ _ _ _] H]. unfold occ. rewrite Hs, Hg, Ho, Hc.
  case_decide as E.
  - unfold present at 1. case_match; lia.
  - assert (present (orders b') j ≤ present (orders b) j)%nat; [|lia].
    apply present_le. intros Hj. by destruct (H j Hj).
Qed.

Lemma WF_cold b b' :
  WF b → Core b' → cold b b' → (∀ i, (occ b' i ≤ 1)%nat) → WF b'.
Proof.
  intros [_ Hst Ho Hc Hp _] HC [Es Hg _ Eo Ec _ _ _ _] Hu. split; rewrite ?Es, ?Hg, ?Eo, ?Ec; done.
Qed.

Lemma WF_grown i b b' : WF b → Core b' → grown i b b' → occ b i = 0%nat → WF b'.
Proof.
  intros HW HC Hg Hi. apply (WF_cold b); [done..|apply Hg|]. intros j.
  pose proof (occ_grown i b b' j Hg) as H. pose proof (wf_unique _ HW j) as Hj.
  case_decide; subst; lia.
Qed.

Lemma WF_shrunk b b' : WF b → Core b' → shrunk b b' → WF b'.
Proof.
  intros HW HC Hs. apply (WF_cold b); [done..|apply Hs|]. intros j.
  pose proof (occ_shrunk b b' j Hs). pose proof (wf_unique _ HW j). lia.
Qed.

Lemma occ_fresh b i : occ b i = 0%nat → orders b !! i = None ∧ stops b !! i = None.
Proof.
  unfold occ, present. intros H. destruct (orders b !! i), (stops b !! i); try lia; done.
Qed.

(** ** inject *)
Record Injected (o : Order) (b : Impl) (ts : list Trade) (o' : Order) (b' : Impl) : Prop := mkInjected {
  ij_core : Core b';
  ij_grown : grown (o_id o) b b';
  ij_fill : o' = fill_order (zsum t_qty ts) o;
  ij_leaves : 0 ≤ o_leaves o';
  ij_trades : Forall (λ t, trade_of o (t_price t) t ∧ acceptable o (t_price t) = true) ts;
}.

Lemma Matched_shrunk o b ts o' b' : Matched o b ts o' b' → shrunk b b'.
Proof.
  intros HM. split; [apply HM|]. intros i [e He]. pose proof (mt_makers _ _ _ _ _ HM i) as H.
  rewrite He in H. unfold maker_rel in H. by destruct (orders b !! i).
Qed.

Lemma Matched_trades o b ts o' b' :
  Matched o b ts o' b' → Forall (λ t, trade_of o (t_price t) t ∧ acceptable o (t_price t) = true) ts.
Proof. intros HM. eapply Forall_impl; [apply HM|]. naive_solver. Qed.

Lemma order_ok_fill k o : order_ok o → 0 < o_leaves (fill_order k o) → order_ok (fill_order k o).
Proof. intros (? & ? & ?) ?. by split_and!. Qed.

(** The rest of an order that matched is still not in the book. *)
Lemma shrunk_fresh b b' i : shrunk b b' → orders b !! i = None → orders b' !! i = None.
Proof.
  intros [_ H] Hi. destruct (orders b' !! i) as [e|] eqn:E; [|done].
  destruct (H i) as [? ?]; [by rewrite E|congruence].
Qed.

Lemma RestOk_grown o b r ev b' : RestOk o b r ev b' → grown (o_id o) b b'.
Proof.
  intros HR. split; [apply HR|]. intros j [e He]. destruct (ro_orders _ _ _ _ _ HR _ _ He) as [[? _]|H].
  - by left.
  - right. by rewrite H.
Qed.

Lemma shrunk_grown i b b' b'' : shrunk b b' → grown i b' b'' → grown i b b''.
Proof.
  intros [c1 H1] [c2 H2]. split; [by etrans|]. intros j Hj. destruct (H2 j Hj); auto.
Qed.

Lemma shrunk_is_grown i b b' : shrunk b b' → grown i b b'.
Proof. intros [c1 H1]. split; [done|]. auto. Qed.

Lemma inject_ok o b trades :
  Core b → order_ok o → orders b !! o_id o = None →
  ∃ o' b' ts, inject o b trades = Ok (o', b', trades ++ ts) ∧ Injected o b ts o' b'.
Proof.
  intros HC Ho Hf. assert (0 ≤ o_leaves o) as Hle by (destruct Ho; lia).
  destruct (match_ok o b trades HC Hle) as (c & o1 & b1 & ts & Hrun & [HC1 HM _ _ _]).
  unfold inject. rewrite Hrun. simpl. pose proof (Matched_shrunk _ _ _ _ _ HM) as Hsh.
  pose proof (mt_fill _ _ _ _ _ HM) as Hfill. pose proof (mt_leaves _ _ _ _ _ HM) as Hl1.
  case_if.
  - assert (order_ok o1) as Ho1 by (rewrite Hfill in *; by apply order_ok_fill).
    destruct (rest_ok o1 b1 [] HC1 Ho1) as (r & b2 & ev & -> & HR).
    { rewrite Hfill. by eapply shrunk_fresh. }
    exists o1, b2, ts. split; [done|]. split; try done; [apply HR| |by eapply Matched_trades].
    eapply shrunk_grown; [done|]. apply RestOk_grown in HR. by rewrite Hfill in HR.
  - exists o1, b1, ts. split; [done|]. split; try done; [by apply shrunk_is_grown|].
    by eapply Matched_trades.
Qed.

(** ** Stops *)

(** Updates outside the fields [Core] reads. *)
Lemma Core_stops x b : Core b → Core (set_stops x b).
Proof. by intros []. Qed.
Lemma Core_groups x b : Core b → Core (set_groups x b).
Proof. by intros []. Qed.
Lemma Core_order_group x b : Core b → Core (set_order_group x b).
Proof. by intros []. Qed.
Lemma Core_opening x b : Core b → Core (set_opening_auction x b).
Proof. by intros []. Qed.
Lemma Core_closing x b : Core b → Core (set_closing_auction x b).
Proof. by intros []. Qed.
Lemma Core_positions x b : Core b → Core (set_positions x b).
Proof. by intros []. Qed.
Lemma Core_next_seq x b : Core b → Core (set_next_seq x b).
Proof. by intros []. Qed.
Lemma Core_last x y b : Core b → Core (set_have_last x (set_last_price y b)).
Proof. by intros []. Qed.

(** An event the replica ignores. *)
Lemma Core_emit_trigger o q d b : Core b → Core (emit_event kTrigger o q d b).
Proof.
  intros HC. rewrite emit_event_eq. destruct HC as [H1 H2 H3 H4 H5 H6 H7].
  split; try done. simpl. by eapply feed_ok_deliver.
Qed.

#[export] Hint Resolve Core_stops Core_groups Core_order_group Core_opening Core_closing
  Core_positions Core_next_seq Core_last Core_emit_trigger : codicis.

(** What a cascade leaves alone, and that it mints no id. *)
Record moved (b b' : Impl) : Prop := mkMoved {
  mv_groups : groups b' = groups b;
  mv_order_group : order_group b' = order_group b;
  mv_opening : opening_auction b' `sublist_of` opening_auction b;
  mv_closing : closing_auction b' `sublist_of` closing_auction b;
  mv_mem : mem_levels b' = mem_levels b;
  mv_stp : stp b' = stp b;
  mv_sink : event_sink_ b' = event_sink_ b;
  mv_occ : ∀ j, (occ b' j ≤ occ b j)%nat;
}.

#[export] Instance moved_preorder : PreOrder moved.
Proof.
  split; [by split|]. intros b1 b2 b3 [] []. split; try congruence; try by etrans.
  intros j. etrans; eauto.
Qed.

Lemma shrunk_moved b b' : shrunk b b' → moved b b'.
Proof.
  intros Hs. pose proof (λ j, occ_shrunk _ _ j Hs). destruct Hs as [[E1 E2 E3 E4 E5 E6 E7 E8 E9] _].
  split; rewrite ?E4, ?E5; done.
Qed.

Lemma update_trail_id px o : o_id (update_trail px o) = o_id o.
Proof. unfold update_trail. repeat case_match; done. Qed.
Lemma update_trail_ok px o : order_ok o → order_ok (update_trail px o).
Proof. unfold update_trail. intros H. repeat case_match; done. Qed.
Lemma mark_triggered_id o : o_id (mark_triggered o) = o_id o.
Proof. unfold mark_triggered. by case_match. Qed.
Lemma mark_triggered_ok o : order_ok o → order_ok (mark_triggered o).
Proof. unfold mark_triggered. intros H. by case_match. Qed.

Lemma trail_stops_ok b : WF b → WF (trail_stops b) ∧ moved b (trail_stops b).
Proof.
  intros HW. unfold trail_stops. case_if; [|done].
  assert (∀ j, occ (set_stops (update_trail (last_price b) <$> stops b) b) j = occ b j) as Hocc.
  { intros j. unfold occ. simpl. by rewrite present_fmap. }
  destruct HW as [HC Hs Ho Hc Hp Hu]. split; [|split; try done; intros j; by rewrite Hocc].
  split; simpl; try done; [by apply Core_stops| |intros i; by rewrite Hocc].
  intros i o Hi. rewrite lookup_fmap in Hi. destruct (stops b !! i) as [o'|] eqn:E; [|done].
  simpl in Hi. simplify_eq. rewrite update_trail_id. destruct (Hs _ _ E).
  split; [done|]. by apply update_trail_ok.
Qed.

Lemma trail_stops_size b : size (stops (trail_stops b)) = size (stops b).
Proof. unfold trail_stops. case_if; [|done]. apply map_size_fmap. Qed.

(** Taking a parked stop out frees its id. *)
Lemma WF_unstop b i o :
  WF b → stops b !! i = Some o →
  WF (set_stops (delete i (stops b)) b) ∧ occ (set_stops (delete i (stops b)) b) i = 0%nat ∧
  ∀ j, j ≠ i → occ (set_stops (delete i (stops b)) b) j = occ b j.
Proof.
  intros HW Hi.
  assert (∀ j, (occ (set_stops (delete i (stops b)) b) j + (if decide (j = i) then 1 else 0) = occ b j)%nat)
    as Hocc.
  { intros j. unfold occ. simpl. rewrite present_delete. case_decide; [|lia].
    subst. rewrite (present_Some _ _ _ Hi). lia. }
  destruct HW as [HC Hs Ho Hc Hp Hu]. split_and!.
  - split; simpl; try done; [by apply Core_stops| |].
    + intros j o' [_ Hj]%lookup_delete_Some. by apply Hs.
    + intros j. specialize (Hocc j). specialize (Hu j). lia.
  - specialize (Hocc i). rewrite decide_True in Hocc by done. specialize (Hu i). lia.
  - intros j Hj. specialize (Hocc j). rewrite decide_False in Hocc by done. lia.
Qed.

Lemma fire_stop_ok b trades i o :
  WF b → stops b !! i = Some o →
  ∃ b' ts, fire_stop (b, trades) i = Ok (b', trades ++ ts) ∧ WF b' ∧ moved b b' ∧
    stops b' = delete i (stops b).
Proof.
  intros HW Hi. destruct (WF_unstop b i o HW Hi) as (HW1 & Hocc & Hne).
  destruct (wf_stops _ HW _ _ Hi) as [Hid Ho].
  unfold fire_stop. rewrite Hi. simpl. set (b1 := set_stops _ _) in *.
  set (b2 := emit_event _ _ _ _ b1).
  assert (Core b2) as HC2 by (apply Core_emit_trigger, HW1).
  assert (shrunk b1 b2) as Hs12 by (unfold b2; by rewrite emit_event_eq).
  assert (occ b2 i = 0%nat) as Hocc2 by (pose proof (occ_shrunk b1 b2 i Hs12); lia).
  destruct (inject_ok (mark_triggered o) b2 trades HC2) as (o' & b' & ts & -> & HJ).
  { by apply mark_triggered_ok. }
  { rewrite mark_triggered_id, Hid. by apply occ_fresh. }
  assert (grown i b1 b') as Hg.
  { destruct HJ as [_ Hg _ _ _]. rewrite mark_triggered_id, Hid in Hg. by eapply shrunk_grown. }
  exists b', ts. split; [done|]. split_and!.
  - eapply (WF_grown i); [apply HW1|apply HJ|done|done].
  - destruct Hg as [[E1 E2 E3 E4 E5 E6 E7 E8 E9] Hg'] eqn:EH. split; rewrite ?E4, ?E5; try done.
    intros j. pose proof (occ_grown i b1 b' j Hg) as Hj.
    destruct (decide (j = i)) as [->|Hji].
    + rewrite Hocc in Hj. unfold occ at 1 in Hj. assert (occ b i = 1%nat); [|unfold occ in *; lia].
      pose proof (wf_unique _ HW i). unfold occ in *. rewrite (present_Some _ _ _ Hi) in *. lia.
    + rewrite Hne in Hj by done. lia.
  - destruct Hg as [[-> _ _ _ _ _ _ _ _] _]. done.
Qed.

(** The ids that fire: parked, triggered, each once, oldest first. *)
Lemma firing_elem b i :
  i ∈ firing b ↔ have_last b = true ∧ ∃ o, stops b !! i = Some o ∧ stop_triggered o (last_price b) = true.
Proof.
  unfold firing. case_if; [|set_solver].
  rewrite list_elem_of_fmap. split.
  - intros ([j o] & -> & Hin). rewrite merge_sort_Permutation in Hin.
    apply list_elem_of_In, filter_In in Hin as [Hin Ht]. apply list_elem_of_In, elem_of_map_to_list in Hin.
    split; [done|]. by exists o.
  - intros (_ & o & Hi & Ht). exists (i, o). split; [done|]. rewrite merge_sort_Permutation.
    apply list_elem_of_In, filter_In. split; [|done]. by apply list_elem_of_In, elem_of_map_to_list.
Qed.

Lemma NoDup_fst_filter {A} (f : OrderId * A → bool) (l : list (OrderId * A)) :
  NoDup l.*1 → NoDup (List.filter f l).*1.
Proof.
  induction l as [|x l IH]; [done|]. rewrite fmap_cons, NoDup_cons. intros [Hx Hnd]. simpl.
  case_if; [|by apply IH]. rewrite fmap_cons, NoDup_cons. split; [|by apply IH].
  intros (y & Hy & Hin)%list_elem_of_fmap. apply Hx. rewrite Hy. apply list_elem_of_fmap.
  exists y. split; [done|]. apply list_elem_of_In, filter_In in Hin as [Hin _]. by apply list_elem_of_In.
Qed.

Lemma firing_NoDup b : NoDup (firing b).
Proof.
  unfold firing. case_if; [|constructor]. rewrite merge_sort_Permutation.
  apply NoDup_fst_filter, NoDup_fst_map_to_list.
Qed.

(** Firing a list of parked stops. *)
Lemma fire_all_ok l : ∀ b trades,
  WF b → NoDup l → (∀ i, i ∈ l → is_Some (stops b !! i)) →
  ∃ b' ts, res_foldl fire_stop (b, trades) l = Ok (b', trades ++ ts) ∧ WF b' ∧ moved b b' ∧
    (size (stops b') + length l = size (stops b))%nat.
Proof.
  induction l as [|i l IH]; intros b trades HW Hnd Hin; cbn [res_foldl].
  - exists b, []. rewrite app_nil_r. split_and!; [done..|]. simpl. lia.
  - apply NoDup_cons in Hnd as [Hi Hnd]. destruct (Hin i) as [o Ho]; [set_solver|].
    destruct (fire_stop_ok b trades i o HW Ho) as (b1 & ts1 & -> & HW1 & Hm1 & Hs1). cbn.
    destruct (IH b1 (trades ++ ts1)) as (b2 & ts2 & -> & HW2 & Hm2 & Hsz); [done..| |].
    + intros j Hj. rewrite Hs1, lookup_delete_ne by (intros ->; done). apply Hin. set_solver.
    + exists b2, (ts1 ++ ts2). rewrite app_assoc. split_and!; [done..|by etrans|].
      rewrite Hs1, map_size_delete_Some in Hsz by (by exists o).
      assert (size (stops b) ≠ 0%nat).
      { intros E. apply map_size_empty_iff in E. rewrite E in Ho. done. }
      simpl. lia.
Qed.

(** No parked stop is due. *)
Definition quiescent (b : Impl) : Prop :=
  have_last b = true → ∀ i o, stops b !! i = Some o → stop_triggered o (last_price b) = false.

Lemma firing_nil_quiescent b : firing b = [] → quiescent b.
Proof.
  intros Hf Hl i o Hi. destruct (stop_triggered o (last_price b)) eqn:E; [|done].
  assert (i ∈ firing b) as Hin by (apply firing_elem; eauto). rewrite Hf in Hin. set_solver.
Qed.

Lemma evaluate_loop_ok fuel : ∀ b trades,
  WF b → (size (stops b) < fuel)%nat →
  ∃ b' ts, evaluate_loop fuel b trades = Ok (b', trades ++ ts) ∧ WF b' ∧ moved b b' ∧ quiescent b'.
Proof.
  induction fuel as [|fuel IH]; intros b trades HW Hf; [lia|]. cbn [evaluate_loop].
  destruct (trail_stops_ok b HW) as [HW1 Hm1].
  pose proof (trail_stops_size b) as Hsz1. set (b1 := trail_stops b) in *.
  destruct (firing b1) as [|i l] eqn:Hfire.
  - exists b1, []. rewrite app_nil_r. split_and!; [done..|]. by apply firing_nil_quiescent.
  - destruct (fire_all_ok (i :: l) b1 trades HW1) as (b2 & ts2 & -> & HW2 & Hm2 & Hsz).
    { rewrite <-Hfire. apply firing_NoDup. }
    { intros j. rewrite <-Hfire. intros (_ & o & Hj & _)%firing_elem. by exists o. }
    cbn. simpl in Hsz.
    destruct (IH b2 (trades ++ ts2) HW2 ltac:(lia)) as (b3 & ts3 & -> & HW3 & Hm3 & Hq).
    exists b3, (ts2 ++ ts3). rewrite app_assoc. split_and!; [done..| |done].
    etrans; [|exact Hm3]. by etrans.
Qed.

Lemma evaluate_stops_ok b trades :
  WF b → ∃ b' ts, evaluate_stops b trades = Ok (b', trades ++ ts) ∧ WF b' ∧ moved b b' ∧ quiescent b'.
Proof. intros HW. apply evaluate_loop_ok; [done|lia]. Qed.

(** ** Pegs *)
Definition repriced (np : Ticks) (rk : SeqNo) (e : Entry) : Entry :=
  mkEntry (set_o_rank rk (set_o_price np (e_order e))) (e_slice e).

Lemma Resting_pegged P b : Resting b → pegs_ok (orders b) P → Resting (set_pegged P b).
Proof. by intros [] ?. Qed.

Lemma view_reprice m i e np rk sym :
  m !! i = Some e → entry_ok i e →
  let ev := mkEvent 0 sym kReprice i 0 (o_side (e_order e)) np (o_price (e_order e))
              (o_leaves (e_order e)) (e_disp e) in
  coherent (view <$> m) ev ∧ view <$> <[i := repriced np rk e]> m = l3_apply (view <$> m) ev.
Proof.
  intros Hi (Hid & (Hl & Hd & Hf) & Hice) ev. split.
  - unfold coherent, ev, e_disp, DisplayedOf. simpl. repeat case_if; [lia| |lia].
    specialize (Hice eq_refl). lia.
  - unfold l3_apply, apply_sym, ev. simpl. rewrite lookup_fmap, Hi. simpl.
    rewrite !r_orders_bump, fmap_insert. done.
Qed.

Lemma move_pegged_ok i e np b :
  Core b → orders b !! i = Some e →
  ∃ b', move_pegged i np b = Ok b' ∧ Core b' ∧ cold b b' ∧
    orders b' = <[i := repriced np (next_seq b) e]> (orders b) ∧ pegged b' = pegged b.
Proof.
  intros HC Hi. apply Core_Resting in HC as [HR Hfeed].
  assert (entry_ok i e) as Hok by (by apply (rs_entries _ HR)).
  assert (o_id (e_order e) = i) as Hid by apply Hok.
  set (e' := repriced np (next_seq b) e).
  set (b1 := insert_entry e' (remove_entry i e b)).
  set (b2 := set_pegged (pegged b)
               (set_requeued_ (requeued_ b ++ [e_order e']) (set_next_seq (next_seq b + 1) b1))).
  assert (orders b1 = <[i := e']> (orders b)) as Hor1.
  { unfold b1, insert_entry, remove_entry. cbn -[insert delete]. by rewrite Hid, insert_delete_eq. }
  assert (move_pegged i np b =
    Ok (deliver (mkEvent 0 (symbol_ b) kReprice i 0 (o_side (e_order e)) np (o_price (e_order e))
          (o_leaves (e_order e)) (e_disp e)) (set_orders (<[i := e']> (orders b)) b2))) as Hrun.
  { unfold move_pegged. rewrite Hi. simpl. unfold emit_reprice. simpl.
    unfold b2, b1, insert_entry, remove_entry, e', repriced, e_disp. simpl. rewrite Hid.
    destruct (o_side (e_order e)); reflexivity. }
  assert (Resting b1) as HR1.
  { apply insert_entry_ok; [by apply remove_entry_ok| |].
    - simpl. rewrite Hid. destruct Hok as (? & (? & ? & ?) & ?). by split_and!.
    - simpl. rewrite Hid. apply lookup_delete_eq. }
  assert (cold b b1) as Hc.
  { etrans; [apply (remove_entry_cold i e)|]. unfold b1, insert_entry. by destruct (o_side _). }
  assert (Resting (set_orders (<[i := e']> (orders b)) b2)) as HR2.
  { rewrite <-Hor1. apply (Resting_pegged (pegged b)) in HR1; [by destruct HR1|].
    rewrite Hor1. eapply pegs_ok_update; [apply HR|done|done]. }
  assert (event_sink_ b2 = event_sink_ b ∧ mem_levels b2 = mem_levels b ∧ symbol_ b2 = symbol_ b ∧
    emitted b2 = emitted b) as (E1 & E2 & E3 & E4).
  { unfold b2, b1, insert_entry, remove_entry. simpl. by destruct (o_side (e_order e)). }
  rewrite Hrun, deliver_eq. eexists. split; [done|]. split_and!; try done.
  - apply Core_Resting. split; [by apply Resting_emitted|]. simpl.
    destruct (view_reprice (orders b) i e np (next_seq b) (symbol_ b) Hi Hok) as [Hco Hv].
    unfold b2 in *. simpl in *. rewrite E1, E2, E4. by eapply feed_ok_deliver.
  - destruct Hc. by split.
Qed.

Lemma reprice_one_ok b i :
  Core b → ∃ b', reprice_one b i = Ok b' ∧ Core b' ∧ shrunk b b'.
Proof.
  intros HC. unfold reprice_one. destruct (orders b !! i) as [e|] eqn:Hi.
  - destruct (compute_peg_price (e_order e) b) as [np|]; [|by exists b].
    case_if; [|by exists b].
    destruct (move_pegged_ok i e np b HC Hi) as (b' & -> & HC' & Hc & Hor & _).
    exists b'. split_and!; [done..|]. split; [done|]. intros j. rewrite Hor. intros Hj.
    destruct (decide (j = i)) as [->|]; [by rewrite Hi|by rewrite lookup_insert_ne in Hj].
  - eexists. split; [done|]. split; [|done].
    destruct HC as [H1 H2 H3 H4 H5 H6 H7]. split; try done. simpl.
    intros j [Hj _]%elem_of_difference. by apply H6.
Qed.

Lemma sort_pegged_ok b l :
  (∀ i, i ∈ l → is_Some (orders b !! i)) → ∃ ids, sort_pegged b l = Ok ids ∧ ids ≡ₚ l.
Proof.
  intros Hl. unfold sort_pegged. case_if; [by eexists|].
  assert (∃ es, mapM (λ i, e ← orders b !! i; Some (i, e)) l = Some es ∧ es.*1 = l) as (es & -> & E).
  { clear Heqb0. induction l as [|i l IH]; [by exists []|].
    destruct IH as (es & Hes & E); [set_solver|]. destruct (Hl i) as [e He]; [set_solver|].
    exists ((i, e) :: es). cbn. rewrite He. cbn. rewrite Hes. cbn. by rewrite E. }
  cbn. eexists. split; [done|]. by rewrite merge_sort_Permutation, E.
Qed.

Lemma reprice_pegs_ok b : Core b → ∃ b', reprice_pegs b = Ok b' ∧ Core b' ∧ shrunk b b'.
Proof.
  intros HC. unfold reprice_pegs.
  destruct (sort_pegged_ok b (elements (pegged b))) as (ids & -> & _).
  { intros i Hi%elem_of_elements. destruct (core_pegged _ HC i Hi) as (e & He & _). by rewrite He. }
  cbn. destruct (res_foldl_inv reprice_one (λ b' _, Core b' ∧ shrunk b b')) with (l := ids) (acc := b)
    as (b' & Hrun & HC' & Hs); [|done|by exists b'].
  intros b1 i l [HC1 Hs1]. destruct (reprice_one_ok b1 i HC1) as (b2 & -> & HC2 & Hs2).
  exists b2. split_and!; [done..|]. by etrans.
Qed.

(** Repricing drops nobody. *)
Lemma reprice_pegs_kept b b' j :
  Core b → reprice_pegs b = Ok b' → is_Some (orders b !! j) → is_Some (orders b' !! j).
Proof.
  intros HC Hrun Hj. unfold reprice_pegs in Hrun.
  destruct (sort_pegged_ok b (elements (pegged b))) as (ids & Hs & _).
  { intros i Hi%elem_of_elements. destruct (core_pegged _ HC i Hi) as (e & He & _). by rewrite He. }
  rewrite Hs in Hrun. cbn in Hrun.
  destruct (res_foldl_inv reprice_one (λ b' _, Core b' ∧ is_Some (orders b' !! j))) with (l := ids) (acc := b)
    as (b1 & Hr1 & _ & H1); [|done|congruence].
  intros b1 i l [HC1 Hj1]. destruct (reprice_one_ok b1 i HC1) as (b2 & Hr2 & HC2 & _).
  exists b2. split_and!; [done..|]. revert Hr2. unfold reprice_one.
  destruct (orders b1 !! i) as [e|] eqn:Hi; [|by intros [= <-]].
  destruct (compute_peg_price (e_order e) b1) as [np|]; [|by intros [= <-]].
  case_if; [|by intros [= <-]]. destruct (move_pegged_ok i e np b1 HC1 Hi) as (b3 & -> & _ & _ & Hor & _).
  intros [= <-]. rewrite Hor. destruct (decide (j = i)) as [->|]; [by rewrite lookup_insert_eq|].
  by rewrite lookup_insert_ne.
Qed.

(** ** cancel and expire *)
Lemma count_id_delete i l k o j :
  l !! k = Some o → o_id o = i →
  (count_id j (delete k l) + (if decide (j = i) then 1 else 0) = count_id j l)%nat.
Proof.
  intros Hk <-. revert k Hk. induction l as [|x l IH]; intros [|k] Hk; simpl in *; simplify_eq.
  - unfold count_id. simpl. case_decide; case_if; simpl; lia.
  - specialize (IH k Hk). unfold count_id in *. simpl. case_if; simpl; lia.
Qed.

Lemma list_find_id i l k o :
  list_find (λ o, o_id o = i) l = Some (k, o) → l !! k = Some o ∧ o_id o = i.
Proof. intros (? & ? & _)%list_find_Some. done. Qed.

(** Removing a resting order, with its event. *)
Lemma cancel_entry_ok i e b es :
  Core b → orders b !! i = Some e →
  es = (if event_sink_ b then
          emitted b ++ [mkEvent 0 (symbol_ b) kCancel (o_id (e_order e)) 0 (o_side (e_order e))
                          (o_price (e_order e)) 0 (o_leaves (e_order e)) (e_disp e)]
        else emitted b) →
  ∀ pos, let b' := set_positions pos (set_emitted es (remove_entry i e b)) in
    Core b' ∧ shrunk b b' ∧ orders b' = delete i (orders b).
Proof.
  intros HC Hi Hes pos b'. apply Core_Resting in HC as HRF. destruct HRF as [HR Hf].
  assert (orders b' = delete i (orders b)) as Hor by done.
  assert (event_sink_ b' = event_sink_ b ∧ mem_levels b' = mem_levels b) as [E1 E2]
    by (unfold b', remove_entry; by destruct (o_side (e_order e))).
  split_and!; try done.
  - apply Core_Resting. split; [by apply Resting_positions, Resting_emitted, remove_entry_ok|].
    rewrite Hor, E1, E2. unfold b'. simpl. subst es.
    destruct (view_cancel _ _ _ Hi (core_entries _ HC _ _ Hi) (symbol_ b)).
    by eapply feed_ok_deliver.
  - split; [pose proof (remove_entry_cold i e b) as []; by split|].
    rewrite Hor. intros j [e' [_ Hj]%lookup_delete_Some]. by exists e'.
Qed.

Lemma cancel_resting_eq i e b :
  stops b !! i = None → list_find (λ o, o_id o = i) (opening_auction b) = None →
  list_find (λ o, o_id o = i) (closing_auction b) = None → orders b !! i = Some e →
  ∃ pos, let b' := set_positions pos (set_emitted
    (if event_sink_ b then
       emitted b ++ [mkEvent 0 (symbol_ b) kCancel (o_id (e_order e)) 0 (o_side (e_order e))
                       (o_price (e_order e)) 0 (o_leaves (e_order e)) (e_disp e)]
     else emitted b) (remove_entry i e b)) in
    cancel i b = if bool_decide (i ∈ pegged b) then Ok (true, b')
                 else b'' ← reprice_pegs b'; Ok (true, b'').
Proof.
  intros Hs Ho Hc Hi. unfold cancel. rewrite Hs, Ho, Hc, Hi. rewrite emit_event_eq.
  match goal with |- context [release_reserved ?o ?q ?y] =>
    destruct (release_reserved_eq o q y) as [pos ->] end.
  exists pos. unfold remove_entry, e_disp. simpl. destruct (o_side (e_order e)); reflexivity.
Qed.

Lemma cancel_ok i b :
  WF b → ∃ r b', cancel i b = Ok (r, b') ∧ WF b' ∧ moved b b' ∧
    (if r then occ b i = 1%nat ∧ occ b' i = 0%nat
     else b' = b ∧ orders b !! i = None ∧ stops b !! i = None) ∧
    (∀ j, orders b !! j = None → orders b' !! j = None).
Proof.
  intros HW. pose proof HW as [HC Hst Hop Hcl Hp Hu].
  destruct (stops b !! i) as [o|] eqn:Hs.
  { unfold cancel. rewrite Hs. destruct (WF_unstop _ _ _ HW Hs) as (HW' & H0 & Hne).
    assert (occ b i = 1%nat) as H1.
    { specialize (Hu i). unfold occ in *. rewrite (present_Some _ _ _ Hs) in *. lia. }
    exists true. eexists. split; [done|]. split_and!; try done. split; try done. intros j.
    destruct (decide (j = i)) as [->|]; [lia|by rewrite Hne]. }
  destruct (list_find (λ o, o_id o = i) (opening_auction b)) as [[k o]|] eqn:Ho.
  { unfold cancel. rewrite Hs, Ho. apply list_find_id in Ho as [Hk Hid].
    set (b' := set_opening_auction _ _).
    assert (∀ j, (occ b' j + (if decide (j = i) then 1 else 0) = occ b j)%nat) as Hocc.
    { intros j. unfold occ. simpl. pose proof (count_id_delete i _ _ _ j Hk Hid). lia. }
    exists true, b'. split; [done|]. split_and!.
    - split; simpl; try done; [by apply Core_opening|by apply Forall_delete|].
      intros j. specialize (Hocc j). specialize (Hu j). lia.
    - split; try done; [apply sublist_delete|]. intros j. specialize (Hocc j). lia.
    - specialize (Hocc i). specialize (Hu i). rewrite decide_True in Hocc by done. lia.
    - specialize (Hocc i). specialize (Hu i). rewrite decide_True in Hocc by done. lia.
    - done. }
  destruct (list_find (λ o, o_id o = i) (closing_auction b)) as [[k o]|] eqn:Hc.
  { unfold cancel. rewrite Hs, Ho, Hc. apply list_find_id in Hc as [Hk Hid].
    set (b' := set_closing_auction _ _).
    assert (∀ j, (occ b' j + (if decide (j = i) then 1 else 0) = occ b j)%nat) as Hocc.
    { intros j. unfold occ. simpl. pose proof (count_id_delete i _ _ _ j Hk Hid). lia. }
    exists true, b'. split; [done|]. split_and!.
    - split; simpl; try done; [by apply Core_closing|by apply Forall_delete|].
      intros j. specialize (Hocc j). specialize (Hu j). lia.
    - split; try done; [apply sublist_delete|]. intros j. specialize (Hocc j). lia.
    - specialize (Hocc i). specialize (Hu i). rewrite decide_True in Hocc by done. lia.
    - specialize (Hocc i). specialize (Hu i). rewrite decide_True in Hocc by done. lia.
    - done. }
  destruct (orders b !! i) as [e|] eqn:Hi.
  - destruct (cancel_resting_eq i e b Hs Ho Hc Hi) as [pos ->]. cbv zeta.
    destruct (cancel_entry_ok i e b _ HC Hi eq_refl pos) as (HC' & Hsh & Hor).
    set (b' := set_positions _ _) in *. clearbody b'.
    assert (WF b') as HW' by (by eapply WF_shrunk).
    assert (occ b i = 1%nat ∧ occ b' i = 0%nat) as Hocc.
    { specialize (Hu i). destruct Hsh as [[E1 E2 _ E3 E4 _ _ _ _] _]. unfold occ in *.
      rewrite Hor, E1, E2, E3, E4, present_delete, decide_True by done.
      rewrite (present_Some _ _ _ Hi) in *. lia. }
    pose proof (λ j, shrunk_fresh _ _ j Hsh) as Hfr.
    case_if; [by exists true, b'; eauto 6 using shrunk_moved|].
    destruct (reprice_pegs_ok b' HC') as (b'' & -> & HC'' & Hsh''). exists true, b''.
    split; [done|]. split_and!; [by eapply WF_shrunk|etrans; by apply shrunk_moved|apply Hocc| |].
    + pose proof (occ_shrunk _ _ i Hsh''). lia.
    + intros j Hj. eapply shrunk_fresh; [done|]. by apply Hfr.
  - unfold cancel. rewrite Hs, Ho, Hc, Hi. by exists false, b.
Qed.

(** A cancel takes no other order with it. *)
Lemma cancel_kept i b r b' j :
  WF b → cancel i b = Ok (r, b') → j ≠ i → is_Some (orders b !! j) → is_Some (orders b' !! j).
Proof.
  intros HW Hrun Hne Hj.
  destruct (stops b !! i) as [o|] eqn:Hs; [unfold cancel in Hrun; rewrite Hs in Hrun; by simplify_eq|].
  destruct (list_find (λ o, o_id o = i) (opening_auction b)) as [[k o]|] eqn:Ho;
    [unfold cancel in Hrun; rewrite Hs, Ho in Hrun; by simplify_eq|].
  destruct (list_find (λ o, o_id o = i) (closing_auction b)) as [[k o]|] eqn:Hc;
    [unfold cancel in Hrun; rewrite Hs, Ho, Hc in Hrun; by simplify_eq|].
  destruct (orders b !! i) as [e|] eqn:Hi;
    [|unfold cancel in Hrun; rewrite Hs, Ho, Hc, Hi in Hrun; by simplify_eq].
  destruct (cancel_resting_eq i e b Hs Ho Hc Hi) as [pos Heq]. cbv zeta in Heq. rewrite Heq in Hrun.
  destruct (cancel_entry_ok i e b _ (wf_core _ HW) Hi eq_refl pos) as (HC' & _ & Hor).
  set (b1 := set_positions _ _) in *. clearbody b1.
  assert (is_Some (orders b1 !! j)) as Hj1 by (by rewrite Hor, lookup_delete_ne).
  case_match; [by simplify_eq|].
  destruct (reprice_pegs b1) as [b2|] eqn:Hr; [|done]. simpl in Hrun. simplify_eq.
  by eapply reprice_pegs_kept.
Qed.

Lemma expire_ok now b :
  WF b → ∃ b', expire now b = Ok (expired_ids now b, b') ∧ WF b' ∧ moved b b' ∧
    ∀ i, i ∈ expired_ids now b → orders b' !! i = None.
Proof.
  intros HW. unfold expire.
  assert (∀ l b0, WF b0 → ∃ b', res_foldl (λ b i, '(_, b) ← cancel i b; Ok b) b0 l = Ok b' ∧
    WF b' ∧ moved b0 b' ∧ ∀ i, i ∈ l ∨ orders b0 !! i = None → orders b' !! i = None) as H.
  { induction l as [|i l IH]; intros b0 HW0; cbn [res_foldl].
    - exists b0. split_and!; [done..|]. set_solver.
    - destruct (cancel_ok i b0 HW0) as (r & b1 & -> & HW1 & Hm1 & Hr & Hfr). cbn.
      destruct (IH b1 HW1) as (b2 & -> & HW2 & Hm2 & Hin). exists b2.
      split_and!; [done..|by etrans|]. intros j [[->|Hj]%elem_of_cons|Hj]; apply Hin; auto.
      right. destruct r; [destruct (occ_fresh b1 i) as [? _]; [lia|done]|]. destruct Hr as (-> & ? & _). done. }
  destruct (H (expired_ids now b) b HW) as (b' & -> & HW' & Hm & Hin).
  exists b'. split_and!; [done..|]. intros i Hi. apply Hin. by left.
Qed.
