(* ===== verification/BookAuction.v ===== *)
(** * Call auctions

    The uniform-price cross of [cross_auction]: the clearing price maximises
    the executable volume, the cross executes exactly that volume at that one
    price within the limits of both sides, and the unfilled limit remainder
    enters the book. *)

From S2P Require Import Prelude.
From S2P Require Import Order.
From S2P Require Import Ladder.
From S2P Require Import Book.
From S2P Require Import Replica.
From S2P Require Import BookInv.
From S2P Require Import BookMatch.
From S2P Require Import BookRest.
From S2P Require Import BookFlow.

(** ** Executable volume at a price *)
Definition volume_at (q : list Order) (p : Ticks) : Quantity :=
  Z.min (demand_at q p) (supply_at q p).
Definition imbalance_at (q : list Order) (p : Ticks) : Quantity :=
  Z.abs (demand_at q p - supply_at q p).

Definition side_qty (s : Side) (ok : Order → bool) (o : Order) : Quantity :=
  if bool_decide (o_side o = s) && ok o then o_leaves o else 0.

Lemma zsum_filter {A} (f : A → Z) (g : A → bool) l :
  zsum f (List.filter g l) = zsum (λ x, if g x then f x else 0) l.
Proof. induction l as [|x l IH]; simpl; [done|]. case_if; simpl; lia. Qed.

Lemma zsum_positions (F : Order → Z) (q : list Order) :
  zsum (λ i, F (auction_get q i)) (seq 0 (length q)) = zsum F q.
Proof.
  assert (∀ pre, zsum (λ i, F (auction_get (pre ++ q) i)) (seq (length pre) (length q)) = zsum F q) as H.
  { induction q as [|o q IH]; intros pre; simpl; [done|].
    specialize (IH (pre ++ [o])). rewrite length_app in IH. simpl in IH.
    rewrite Nat.add_1_r, <-app_assoc in IH. simpl in IH. rewrite IH.
    unfold auction_get at 1. rewrite lookup_app_r by lia. rewrite Nat.sub_diag. done. }
  apply (H []).
Qed.

(** Demand and supply are sums over the queue. *)
Lemma demand_at_sum q p : demand_at q p = zsum (side_qty Buy (buy_ok p)) q.
Proof.
  unfold demand_at, auction_side. rewrite !zsum_filter, <-(zsum_positions _ q).
  apply zsum_ext. intros i _. unfold side_qty.
  destruct (bool_decide (o_side (auction_get q i) = Buy)); done.
Qed.
Lemma supply_at_sum q p : supply_at q p = zsum (side_qty Sell (sell_ok p)) q.
Proof.
  unfold supply_at, auction_side. rewrite !zsum_filter, <-(zsum_positions _ q).
  apply zsum_ext. intros i _. unfold side_qty.
  destruct (bool_decide (o_side (auction_get q i) = Sell)); done.
Qed.

Lemma zsum_le {A} (f g : A → Z) l : (∀ x, x ∈ l → f x ≤ g x) → zsum f l ≤ zsum g l.
Proof.
  induction l as [|x l IH]; intros H; simpl; [lia|].
  pose proof (H x ltac:(set_solver)). assert (zsum f l ≤ zsum g l) by (apply IH; set_solver). lia.
Qed.

(** A price that accepts no fewer buyers has no less demand. *)
Lemma demand_at_le q p p' :
  Forall (λ o, 0 ≤ o_leaves o) q →
  (∀ o, o ∈ q → o_side o = Buy → buy_ok p o = true → buy_ok p' o = true) →
  demand_at q p ≤ demand_at q p'.
Proof.
  intros Hpos H. rewrite !demand_at_sum. apply zsum_le. intros o Ho.
  rewrite Forall_forall in Hpos. specialize (Hpos o Ho). unfold side_qty.
  case_bool_decide as Hs; simpl; [|lia]. specialize (H o Ho Hs).
  destruct (buy_ok p o), (buy_ok p' o); lia.
Qed.
Lemma supply_at_le q p p' :
  Forall (λ o, 0 ≤ o_leaves o) q →
  (∀ o, o ∈ q → o_side o = Sell → sell_ok p o = true → sell_ok p' o = true) →
  supply_at q p ≤ supply_at q p'.
Proof.
  intros Hpos H. rewrite !supply_at_sum. apply zsum_le. intros o Ho.
  rewrite Forall_forall in Hpos. specialize (Hpos o Ho). unfold side_qty.
  case_bool_decide as Hs; simpl; [|lia]. specialize (H o Ho Hs).
  destruct (sell_ok p o), (sell_ok p' o); lia.
Qed.

(** ** The clearing price *)
Lemma candidates_elem q p : p ∈ candidates q ↔ ∃ o, o ∈ q ∧ is_market o = false ∧ o_price o = p.
Proof.
  unfold candidates. rewrite merge_sort_Permutation, elem_of_elements, elem_of_list_to_set.
  rewrite list_elem_of_fmap. split.
  - intros (o & -> & Ho). apply list_elem_of_In, filter_In in Ho as [Ho Hm].
    exists o. rewrite list_elem_of_In. split_and!; [done|by apply negb_true_iff|done].
  - intros (o & Ho & Hm & <-). exists o. split; [done|].
    apply list_elem_of_In, filter_In. by rewrite <-list_elem_of_In, Hm.
Qed.

(** Lexicographic preference: more volume, then less imbalance, then closer to
    the last price (or lower, without one). *)
Definition at_least (b : Impl) (q : list Order) (c : Clearing) (p : Ticks) : Prop :=
  volume_at q p < c_volume c ∨
  (volume_at q p = c_volume c ∧ c_imbalance c < imbalance_at q p) ∨
  (volume_at q p = c_volume c ∧ c_imbalance c = imbalance_at q p ∧
   if have_last b then Z.abs (c_price c - last_price b) ≤ Z.abs (p - last_price b)
   else c_price c ≤ p).

(** A proper clearing: its fields are those of its price. *)
Definition clearing_at (q : list Order) (c : Clearing) : Prop :=
  0 < c_volume c ∧ c_volume c = volume_at q (c_price c) ∧
  c_imbalance c = imbalance_at q (c_price c).

Definition clears (b : Impl) (q : list Order) (ps : list Ticks) (r : option Clearing) : Prop :=
  match r with
  | None => ∀ p, p ∈ ps → volume_at q p ≤ 0
  | Some c => clearing_at q c ∧ c_price c ∈ ps ∧ ∀ p, p ∈ ps → at_least b q c p
  end.

Lemma consider_ok b q ps r p : clears b q ps r → clears b q (ps ++ [p]) (consider q b r p).
Proof.
  intros Hr. unfold consider. cbv zeta.
  set (d := demand_at q p). set (s := supply_at q p).
  assert (volume_at q p = Z.min d s) as Hv by done.
  assert (imbalance_at q p = Z.abs (d - s)) as Hi by done.
  replace (if s <? d then d - s else s - d) with (Z.abs (d - s)) by (case_if; lia).
  rewrite <-Hv, <-Hi. case_if.
  - destruct r as [c|]; simpl in *.
    + destruct Hr as ((? & ? & ?) & Hc & Hall). split_and!; [done|set_solver|].
      intros p' [Hp|Hp]%elem_of_app; [by apply Hall|].
      apply list_elem_of_singleton in Hp. subst. left. lia.
    + intros p' [Hp|Hp]%elem_of_app; [by apply Hr|].
      apply list_elem_of_singleton in Hp. by subst.
  - assert (clearing_at q (mkClearing p (volume_at q p) (imbalance_at q p))) as Hat by (by split_and!).
    destruct r as [c|]; simpl in Hr.
    + destruct Hr as (Hca & Hc & Hall). case_if.
      * split_and!; [done|set_solver|]. intros p' [Hp|Hp]%elem_of_app.
        -- specialize (Hall p' Hp). unfold at_least in *. simpl in *.
           destruct (have_last b); lia.
        -- apply list_elem_of_singleton in Hp. subst. unfold at_least. simpl.
           destruct (have_last b); lia.
      * split_and!; [done|set_solver|]. intros p' [Hp|Hp]%elem_of_app; [by apply Hall|].
        apply list_elem_of_singleton in Hp. subst. unfold at_least.
        destruct (have_last b); lia.
    + split_and!; [done|set_solver|]. intros p' [Hp|Hp]%elem_of_app.
      * specialize (Hr p' Hp). left. simpl. lia.
      * apply list_elem_of_singleton in Hp. subst. unfold at_least. simpl.
        destruct (have_last b); lia.
Qed.

Lemma foldl_consider_ok b q ps : ∀ pre r,
  clears b q pre r → clears b q (pre ++ ps) (foldl (consider q b) r ps).
Proof.
  induction ps as [|p ps IH]; intros pre r Hr; simpl; [by rewrite app_nil_r|].
  specialize (IH (pre ++ [p]) _ (consider_ok b q pre r p Hr)). by rewrite <-app_assoc in IH.
Qed.

(** The prices the code compares: the limits, or the last price without any. *)
Definition considered (b : Impl) (q : list Order) : list Ticks :=
  match candidates q with
  | [] => if have_last b then [last_price b] else []
  | ps => ps
  end.

Lemma clearing_ok b q : clears b q (considered b q) (clearing q b).
Proof.
  unfold clearing, considered. destruct (candidates q) as [|p ps].
  - case_if; [|simpl; set_solver]. apply (consider_ok b q [] None). simpl. set_solver.
  - apply (foldl_consider_ok b q (p :: ps) [] None). simpl. set_solver.
Qed.

(** No price, limit of somebody or not, executes more than the best limit. *)
Lemma exists_min {A} (f : A → Z) (l : list A) :
  l ≠ [] → ∃ m, m ∈ l ∧ ∀ x, x ∈ l → f m ≤ f x.
Proof.
  induction l as [|x l IH]; [done|]. intros _. destruct l as [|y l].
  - exists x. split; [set_solver|]. intros z ->%list_elem_of_singleton. lia.
  - destruct IH as (m & Hm & Hmin); [done|]. destruct (decide (f x ≤ f m)).
    + exists x. split; [set_solver|]. intros z [->|Hz]%elem_of_cons; [lia|].
      specialize (Hmin z Hz). lia.
    + exists m. split; [set_solver|]. intros z [->|Hz]%elem_of_cons; [lia|by apply Hmin].
Qed.

Lemma filter_nil_false {A} (f : A → bool) l x : List.filter f l = [] → x ∈ l → f x = false.
Proof.
  intros Hf Hx. destruct (f x) eqn:E; [|done].
  assert (x ∈ List.filter f l) as H by (apply list_elem_of_In, filter_In; by rewrite <-list_elem_of_In).
  rewrite Hf in H. set_solver.
Qed.

Lemma volume_candidate q p :
  Forall (λ o, 0 ≤ o_leaves o) q → candidates q ≠ [] →
  ∃ c, c ∈ candidates q ∧ volume_at q p ≤ volume_at q c.
Proof.
  intros Hpos Hne. unfold volume_at.
  set (B := List.filter (λ o, bool_decide (o_side o = Buy) && negb (is_market o) && (p <=? o_price o)) q).
  set (S := List.filter (λ o, bool_decide (o_side o = Sell) && negb (is_market o) && (o_price o <=? p)) q).
  destruct (decide (B = [])) as [HB|HB].
  - assert (∀ o c, o ∈ q → o_side o = Buy → buy_ok p o = true → buy_ok c o = true) as Hbuy.
    { intros o c Ho Hs Hok. pose proof (filter_nil_false _ _ _ HB Ho) as Hf. simpl in Hf.
      rewrite bool_decide_true in Hf by done. unfold buy_ok in *. destruct (is_market o); [done|].
      simpl in *. congruence. }
    destruct (decide (S = [])) as [HS|HS].
    + destruct (candidates q) as [|c cs] eqn:Ec; [done|]. exists c. split; [set_solver|].
      assert (demand_at q p ≤ demand_at q c) by (apply demand_at_le; eauto).
      assert (supply_at q p ≤ supply_at q c); [|lia]. apply supply_at_le; [done|].
      intros o Ho Hs Hok. pose proof (filter_nil_false _ _ _ HS Ho) as Hf. simpl in Hf.
      rewrite bool_decide_true in Hf by done. unfold sell_ok in *. destruct (is_market o); [done|].
      simpl in *. congruence.
    + destruct (exists_min (λ o, - o_price o) S HS) as (o & Ho & Hmin).
      apply list_elem_of_In, filter_In in Ho as [Ho Hf]. bool_split.
      exists (o_price o). split; [apply candidates_elem; exists o; by rewrite list_elem_of_In|].
      assert (demand_at q p ≤ demand_at q (o_price o)) by (apply demand_at_le; eauto).
      assert (supply_at q p ≤ supply_at q (o_price o)); [|lia]. apply supply_at_le; [done|].
      intros o' Ho' Hs Hok. unfold sell_ok in *. destruct (is_market o') eqn:Em; [done|]. simpl in *.
      assert (o' ∈ S) as Hin; [|specialize (Hmin o' Hin); lia].
      apply list_elem_of_In, filter_In. rewrite <-list_elem_of_In, Em, bool_decide_true by done. done.
  - destruct (exists_min o_price B HB) as (o & Ho & Hmin).
    apply list_elem_of_In, filter_In in Ho as [Ho Hf]. bool_split.
    exists (o_price o). split; [apply candidates_elem; exists o; by rewrite list_elem_of_In|].
    assert (demand_at q p ≤ demand_at q (o_price o)).
    { apply demand_at_le; [done|]. intros o' Ho' Hs Hok. unfold buy_ok in *.
      destruct (is_market o') eqn:Em; [done|]. simpl in *.
      assert (o' ∈ B) as Hin; [|specialize (Hmin o' Hin); lia].
      apply list_elem_of_In, filter_In. rewrite <-list_elem_of_In, Em, bool_decide_true by done. done. }
    assert (supply_at q p ≤ supply_at q (o_price o)); [|lia]. apply supply_at_le; [done|].
    intros o' Ho' Hs Hok. unfold sell_ok in *. destruct (is_market o'); [done|]. simpl in *. lia.
Qed.

(** ** The cross *)

(** [q'] is [q] after some fills. *)
Definition filled_from (q q' : list Order) : Prop :=
  Forall2 (λ o o', ∃ n, 0 ≤ n ∧ o' = fill_order n o ∧ 0 ≤ o_leaves o') q q'.

Lemma filled_from_refl q : Forall (λ o, 0 ≤ o_leaves o) q → filled_from q q.
Proof.
  intros H. apply Forall2_same_length_lookup_2; [done|]. intros i x y Hx Hy. simplify_eq.
  exists 0. rewrite fill_order_0. split_and!; try done. by apply (Forall_lookup_1 _ _ _ _ H Hx).
Qed.

Lemma filled_from_trans q1 q2 q3 : filled_from q1 q2 → filled_from q2 q3 → filled_from q1 q3.
Proof.
  intros H1. revert q3. induction H1 as [|x y q1 q2 (n & Hn & -> & _) _ IH]; intros q3 H2.
  - apply Forall2_nil_inv_l in H2. subst. constructor.
  - apply Forall2_cons_inv_l in H2 as (z & q3' & (k & Hk & -> & Hz) & H2 & ->).
    constructor; [|by apply IH]. exists (n + k).
    rewrite fill_order_fill_order in *. split_and!; [lia|done|done].
Qed.

Lemma filled_from_ids q q' : filled_from q q' → o_id <$> q' = o_id <$> q.
Proof. induction 1 as [|x y q q' (n & _ & -> & _) _ IH]; [done|]. cbn. f_equal. exact IH. Qed.

(** Filling the order at one position. *)
Lemma filled_from_insert q i o n :
  Forall (λ o, 0 ≤ o_leaves o) q → q !! i = Some o → 0 ≤ n ≤ o_leaves o →
  filled_from q (<[i := fill_order n o]> q).
Proof.
  intros Hq Hi Hn. apply Forall2_same_length_lookup_2; [by rewrite length_insert|].
  intros k x y Hx Hy. destruct (decide (k = i)) as [->|Hne].
  - rewrite list_lookup_insert_eq in Hy by (by eapply lookup_lt_Some). simplify_eq.
    exists n. split_and!; [lia|done|simpl; lia].
  - rewrite list_lookup_insert_ne in Hy by done. simplify_eq.
    exists 0. rewrite fill_order_0. split_and!; [lia|done|]. by apply (Forall_lookup_1 _ _ _ _ Hq Hx).
Qed.

(** One side of the cross: positions still to serve, eligible ones first. *)
Definition lane (s : Side) (ok : Order → bool) (q : list Order) (l : list nat) : Prop :=
  NoDup l ∧
  (∀ i, i ∈ l → ∃ o, q !! i = Some o ∧ o_side o = s ∧ 0 < o_leaves o) ∧
  StronglySorted (λ i j, ok (auction_get q j) = true → ok (auction_get q i) = true) l.

Definition eligible (ok : Order → bool) (q : list Order) (l : list nat) : Quantity :=
  zsum (λ i, if ok (auction_get q i) then o_leaves (auction_get q i) else 0) l.

Lemma auction_get_Some q i o : q !! i = Some o → auction_get q i = o.
Proof. unfold auction_get. by intros ->. Qed.

Lemma auction_get_ne q i j x : i ≠ j → auction_get (<[i := x]> q) j = auction_get q j.
Proof. intros H. unfold auction_get. by rewrite list_lookup_insert_ne. Qed.

Lemma lane_head s ok q l :
  lane s ok q l → 0 < eligible ok q l → ∃ i l' o, l = i :: l' ∧ q !! i = Some o ∧ ok o = true ∧
    o_side o = s ∧ 0 < o_leaves o.
Proof.
  intros (Hnd & Hin & Hs) He. destruct l as [|i l]; [simpl in He; unfold eligible in He; simpl in He; lia|].
  destruct (Hin i) as (o & Ho & Hsd & Hl); [set_solver|]. exists i, l, o. split_and!; try done.
  apply StronglySorted_inv in Hs as [_ Hall]. rewrite Forall_forall in Hall.
  destruct (ok o) eqn:Eo; [done|]. exfalso. unfold eligible in He. simpl in He.
  rewrite (auction_get_Some _ _ _ Ho) in *. rewrite Eo in He.
  assert (zsum (λ i, if ok (auction_get q i) then o_leaves (auction_get q i) else 0) l = 0); [|lia].
  rewrite (zsum_ext _ (λ _, 0)); [clear; induction l; simpl; lia|].
  intros j Hj. destruct (ok (auction_get q j)) eqn:Ej; [|done].
  specialize (Hall j Hj Ej). congruence.
Qed.

Lemma lane_other s ok q l j x :
  lane s ok q l → j ∉ l → lane s ok (<[j := x]> q) l ∧ eligible ok (<[j := x]> q) l = eligible ok q l.
Proof.
  intros (Hnd & Hin & Hs) Hj. split_and!; [split_and!; [done| |]|].
  - intros i Hi. rewrite list_lookup_insert_ne; [by apply Hin|]. intros ->. done.
  - clear Hnd Hin. induction Hs as [|i l Hs IH Hall]; constructor; [apply IH; set_solver|].
    rewrite Forall_forall in *. intros k Hk. rewrite !auction_get_ne by set_solver. by apply Hall.
  - apply zsum_ext. intros i Hi. rewrite auction_get_ne; [done|]. intros ->. done.
Qed.

Lemma lane_fill s ok q i l o n :
  (∀ k o, ok (fill_order k o) = ok o) →
  lane s ok q (i :: l) → q !! i = Some o → ok o = true → 0 ≤ n ≤ o_leaves o →
  let q' := <[i := fill_order n o]> q in
  let l' := if o_leaves o - n =? 0 then l else i :: l in
  lane s ok q' l' ∧ eligible ok q' l' = eligible ok q (i :: l) - n.
Proof.
  intros Hok (Hnd & Hin & Hs) Ho Hoo Hn q' l'. apply NoDup_cons in Hnd as [Hi Hnd].
  apply StronglySorted_inv in Hs as [Hs Hall]. rewrite Forall_forall in Hall.
  destruct (lane_other s ok q l i (fill_order n o)) as [Hl He]; [|done|].
  { split_and!; [done| |done]. intros j Hj. apply Hin. set_solver. }
  fold q' in Hl, He. assert (q' !! i = Some (fill_order n o)) as Hq'
    by (apply list_lookup_insert_eq; by eapply lookup_lt_Some).
  assert (eligible ok q (i :: l) = o_leaves o + eligible ok q l) as E1.
  { unfold eligible. simpl. by rewrite (auction_get_Some _ _ _ Ho), Hoo. }
  unfold l'. case_if; [split; [done|lia]|]. split.
  - destruct Hl as (_ & Hin' & Hs'). split_and!; [by apply NoDup_cons| |].
    + intros j [->|Hj]%elem_of_cons; [|by apply Hin'].
      destruct (Hin i) as (o' & Ho' & Hsd & Hlv); [set_solver|]. simplify_eq.
      exists (fill_order n o). split_and!; [done|done|simpl; lia].
    + constructor; [done|]. rewrite Forall_forall. intros j Hj _.
      rewrite (auction_get_Some _ _ _ Hq'), Hok. done.
  - unfold eligible at 1. simpl. rewrite (auction_get_Some _ _ _ Hq'), Hok, Hoo. simpl.
    fold (eligible ok q' l). lia.
Qed.

Lemma buy_ok_fill p k o : buy_ok p (fill_order k o) = buy_ok p o.
Proof. done. Qed.
Lemma sell_ok_fill p k o : sell_ok p (fill_order k o) = sell_ok p o.
Proof. done. Qed.

(** What the cross touches of the book: positions and the feed. *)
Definition quiet (b b' : Impl) : Prop :=
  ∃ pos es, b' = set_positions pos (set_emitted es b).

Lemma quiet_refl b : quiet b b.
Proof. exists (positions b), (emitted b). by destruct b. Qed.
Lemma quiet_trans b1 b2 b3 : quiet b1 b2 → quiet b2 b3 → quiet b1 b3.
Proof. intros (p1 & e1 & ->) (p2 & e2 & ->). by exists p2, e2. Qed.

(** An auction execution names a maker that is not in the book. *)
Lemma auction_trade_ok t d b c1 s1 c2 s2 n :
  Core b → orders b !! t_maker_id t = None →
  let b' := apply_position c2 s2 n (apply_position c1 s1 n (emit_trade t d b)) in
  Core b' ∧ quiet b b'.
Proof.
  intros HC Ht b'. unfold b', emit_trade. rewrite deliver_eq.
  match goal with |- context [apply_position c1 s1 n ?x] =>
    destruct (apply_position_eq c1 s1 n x) as [p1 ->] end.
  match goal with |- context [apply_position c2 s2 n ?x] =>
    destruct (apply_position_eq c2 s2 n x) as [p2 ->] end.
  split; [|by eexists _, _]. destruct HC as [H1 H2 H3 H4 H5 H6 H7].
  split; try done. simpl. eapply feed_ok_deliver; [exact H7| |].
  - unfold coherent. simpl. by rewrite lookup_fmap, Ht.
  - unfold l3_apply, apply_sym. simpl. by rewrite lookup_fmap, Ht.
Qed.

(** An execution of the cross at [p]: a buyer and a seller of the queue, both
    accepting [p]. *)
Definition cross_exec (q : list Order) (p : Ticks) (t : Trade) : Prop :=
  t_price t = p ∧ 0 < t_qty t ∧ t_taker_side t = Buy ∧
  ∃ bo so, bo ∈ q ∧ so ∈ q ∧ o_id bo = t_taker_id t ∧ o_id so = t_maker_id t ∧
    o_side bo = Buy ∧ o_side so = Sell ∧ buy_ok p bo = true ∧ sell_ok p so = true.

Lemma filled_from_elem q q' o' :
  filled_from q q' → o' ∈ q' → ∃ o n, o ∈ q ∧ o' = fill_order n o.
Proof.
  induction 1 as [|x y q q' (n & _ & -> & _) _ IH]; intros Ho; [set_solver|].
  apply elem_of_cons in Ho as [->|Ho]; [exists x, n; set_solver|].
  destruct (IH Ho) as (o & k & ? & ->). exists o, k. set_solver.
Qed.

Lemma cross_exec_from q q' p t : filled_from q q' → cross_exec q' p t → cross_exec q p t.
Proof.
  intros Hf (Hp & Hq & Hs & bo & so & Hb & Hso & E1 & E2 & S1 & S2 & O1 & O2).
  destruct (filled_from_elem _ _ _ Hf Hb) as (bo0 & n & Hb0 & ->).
  destruct (filled_from_elem _ _ _ Hf Hso) as (so0 & k & Hso0 & ->).
  split_and!; try done. by exists bo0, so0.
Qed.

Lemma filled_from_leaves q q' : filled_from q q' → Forall (λ o, 0 ≤ o_leaves o) q'.
Proof. induction 1 as [|x y q q' (n & _ & _ & ?) _ IH]; by constructor. Qed.

(** Both fills of one execution. *)
Lemma filled_from_pair q i j bo so n :
  Forall (λ o, 0 ≤ o_leaves o) q → q !! i = Some bo → q !! j = Some so → i ≠ j →
  0 ≤ n → n ≤ o_leaves bo → n ≤ o_leaves so →
  filled_from q (<[j := fill_order n so]> (<[i := fill_order n bo]> q)).
Proof.
  intros Hq Hi Hj Hne Hn Hb Hs. eapply filled_from_trans.
  - by apply (filled_from_insert q i bo n).
  - apply filled_from_insert; [|by rewrite list_lookup_insert_ne|done].
    by eapply filled_from_leaves, (filled_from_insert q i bo n).
Qed.

Definition cross_measure (bs ss : list nat) (remaining : Quantity) : nat :=
  length bs + length ss + (if 0 <? remaining then 1 else 0).

Lemma cross_loop_ok pstar fuel : ∀ q bs ss remaining b trades,
  (cross_measure bs ss remaining < fuel)%nat →
  Forall (λ o, 0 ≤ o_leaves o) q →
  lane Buy (buy_ok pstar) q bs → lane Sell (sell_ok pstar) q ss →
  0 ≤ remaining → remaining ≤ eligible (buy_ok pstar) q bs →
  remaining ≤ eligible (sell_ok pstar) q ss →
  Core b → (∀ o, o ∈ q → orders b !! o_id o = None) →
  ∃ q' b' ts, cross_loop fuel pstar q bs ss remaining b trades = Ok (q', b', trades ++ ts) ∧
    filled_from q q' ∧ Core b' ∧ quiet b b' ∧ zsum t_qty ts = remaining ∧
    Forall (cross_exec q pstar) ts.
Proof.
  induction fuel as [|fuel IH]; intros q bs ss remaining b trades Hf Hq Hb Hs Hr Hrb Hrs HC Hfresh;
    [lia|]. cbn [cross_loop].
  destruct (decide (remaining = 0)) as [->|Hr0].
  { exists q, b, []. rewrite app_nil_r. split_and!; try done; [|by apply filled_from_refl|apply quiet_refl].
    by destruct bs, ss. }
  destruct (lane_head _ _ _ _ Hb ltac:(lia)) as (i & bs' & bo & -> & Hi & Hbo & Hsb & Hlb).
  destruct (lane_head _ _ _ _ Hs ltac:(lia)) as (j & ss' & so & -> & Hj & Hso & Hss & Hls).
  rewrite (proj2 (Z.ltb_lt 0 remaining)) by lia. simpl.
  rewrite (auction_get_Some _ _ _ Hi), (auction_get_Some _ _ _ Hj), Hbo, Hso. simpl.
  set (n := Z.min (Z.min (o_leaves bo) (o_leaves so)) remaining).
  assert (0 < n ∧ n ≤ o_leaves bo ∧ n ≤ o_leaves so ∧ n ≤ remaining) as (Hn & Hnb & Hns & Hnr) by lia.
  assert (i ≠ j) as Hij by (intros ->; simplify_eq; congruence).
  set (t := mkTrade (o_id bo) (o_id so) Buy pstar n).
  assert (cross_exec q pstar t) as Ht.
  { split_and!; try done. exists bo, so. split_and!; try done; by eapply list_elem_of_lookup_2. }
  destruct (auction_trade_ok t (if HasFlag (o_flags so) kHidden then 0 else n) b
    (o_client_id bo) Buy (o_client_id so) Sell n HC) as [HC1 Hq1].
  { apply (Hfresh so). by eapply list_elem_of_lookup_2. }
  set (b1 := apply_position (o_client_id so) _ _ _) in *.
  set (q1 := <[j := fill_order n so]> (<[i := fill_order n bo]> q)).
  assert (filled_from q q1) as Hf1 by (by apply filled_from_pair; try lia).
  assert (i ∉ j :: ss') as Hni.
  { intros Hin. destruct (proj1 (proj2 Hs) i Hin) as (o & Ho & Hside & _). simplify_eq. congruence. }
  assert (j ∉ i :: bs') as Hnj.
  { intros Hin. destruct (proj1 (proj2 Hb) j Hin) as (o & Ho & Hside & _). simplify_eq. congruence. }
  destruct (lane_fill Buy (buy_ok pstar) q i bs' bo n (buy_ok_fill pstar) Hb Hi Hbo ltac:(lia)) as [Hb1 Eb1].
  set (bs1 := if o_leaves bo - n =? 0 then bs' else i :: bs') in *.
  destruct (lane_other _ _ _ _ j (fill_order n so) Hb1) as [Hb2 Eb2].
  { unfold bs1. case_if; set_solver. }
  destruct (lane_other _ _ _ _ i (fill_order n bo) Hs Hni) as [Hs1 Es1].
  destruct (lane_fill Sell (sell_ok pstar) (<[i := fill_order n bo]> q) j ss' so n (sell_ok_fill pstar) Hs1)
    as [Hs2 Es2]; [by rewrite list_lookup_insert_ne|done|lia|].
  set (ss1 := if o_leaves so - n =? 0 then ss' else j :: ss') in *.
  fold q1 in Hb2, Eb2, Hs2, Es2.
  destruct (IH q1 bs1 ss1 (remaining - n) b1 (trades ++ [t])) as (q' & b' & ts & Hrun & Hf' & HC' & Hq' & Hsum & Hex);
    try done; try lia.
  - clear -Hf Hn Hnb Hns Hnr Hr0. unfold cross_measure, bs1, ss1, n in *. simpl in Hf.
    rewrite (proj2 (Z.ltb_lt 0 remaining)) in Hf by lia.
    repeat case_if; simpl; lia.
  - by eapply filled_from_leaves.
  - intros o Ho. destruct (filled_from_elem _ _ _ Hf1 Ho) as (o0 & k & Ho0 & ->).
    destruct Hq1 as (? & ? & Eb). rewrite Eb. simpl. by apply Hfresh.
  - exists q', b', (t :: ts). rewrite <-app_assoc in Hrun. split; [exact Hrun|]. split_and!; try done.
    + by eapply filled_from_trans.
    + by eapply quiet_trans.
    + simpl. lia.
    + constructor; [done|]. eapply Forall_impl; [exact Hex|]. intros x. by apply cross_exec_from.
Qed.

(** ** The sort in front of the cross *)
#[export] Instance buy_not_after_total q : Total (not_after buy_before q).
Proof.
  intros i j. unfold not_after, buy_before.
  destruct (is_market (auction_get q i)), (is_market (auction_get q j)); simpl;
    repeat case_if; lia.
Qed.
#[export] Instance buy_not_after_trans q : Transitive (not_after buy_before q).
Proof.
  intros i j k. unfold not_after, buy_before.
  destruct (is_market (auction_get q i)), (is_market (auction_get q j)), (is_market (auction_get q k));
    simpl; try done; repeat case_if; lia.
Qed.
#[export] Instance sell_not_after_total q : Total (not_after sell_before q).
Proof.
  intros i j. unfold not_after, sell_before.
  destruct (is_market (auction_get q i)), (is_market (auction_get q j)); simpl;
    repeat case_if; lia.
Qed.
#[export] Instance sell_not_after_trans q : Transitive (not_after sell_before q).
Proof.
  intros i j k. unfold not_after, sell_before.
  destruct (is_market (auction_get q i)), (is_market (auction_get q j)), (is_market (auction_get q k));
    simpl; try done; repeat case_if; lia.
Qed.

Lemma buy_not_after_ok p q i j :
  not_after buy_before q i j → buy_ok p (auction_get q j) = true → buy_ok p (auction_get q i) = true.
Proof.
  unfold not_after, buy_before, buy_ok.
  destruct (is_market (auction_get q i)), (is_market (auction_get q j)); simpl; try done.
  case_if; lia.
Qed.
Lemma sell_not_after_ok p q i j :
  not_after sell_before q i j → sell_ok p (auction_get q j) = true → sell_ok p (auction_get q i) = true.
Proof.
  unfold not_after, sell_before, sell_ok.
  destruct (is_market (auction_get q i)), (is_market (auction_get q j)); simpl; try done.
  case_if; lia.
Qed.

Lemma auction_side_elem s q i : i ∈ auction_side s q ↔ ∃ o, q !! i = Some o ∧ o_side o = s.
Proof.
  unfold auction_side. rewrite list_elem_of_In, filter_In, <-list_elem_of_In, seq_elem. split.
  - intros [Hi Hs]. apply lookup_lt_is_Some in Hi as [o Ho]. exists o. split; [done|].
    rewrite (auction_get_Some _ _ _ Ho) in Hs. by apply bool_decide_eq_true in Hs.
  - intros (o & Ho & Hs). split; [by eapply lookup_lt_Some|].
    rewrite (auction_get_Some _ _ _ Ho). by apply bool_decide_eq_true.
Qed.

Lemma auction_side_NoDup s q : NoDup (auction_side s q).
Proof. unfold auction_side. apply NoDup_ListNoDup, List.NoDup_filter, NoDup_ListNoDup, NoDup_seq. Qed.

Lemma StronglySorted_weaken {A} (R S : A → A → Prop) l :
  (∀ x y, R x y → S x y) → StronglySorted R l → StronglySorted S l.
Proof.
  intros H. induction 1 as [|x l _ IH Hall]; constructor; [done|].
  eapply Forall_impl; [exact Hall|]. auto.
Qed.

Lemma sorted_lane s ok q (R : nat → nat → Prop) `{!RelDecision R, !Total R, !Transitive R} :
  Forall order_ok q →
  (∀ i j, R i j → ok (auction_get q j) = true → ok (auction_get q i) = true) →
  lane s ok q (merge_sort R (auction_side s q)).
Proof.
  intros Hq HR. split_and!.
  - rewrite merge_sort_Permutation. apply auction_side_NoDup.
  - intros i. rewrite merge_sort_Permutation, auction_side_elem. intros (o & Ho & Hs).
    exists o. split_and!; [done..|]. apply (Forall_lookup_1 _ _ _ _ Hq Ho).
  - eapply StronglySorted_weaken; [exact HR|]. apply StronglySorted_merge_sort; apply _.
Qed.

Lemma eligible_perm ok q l l' : l ≡ₚ l' → eligible ok q l = eligible ok q l'.
Proof. apply zsum_perm. Qed.

Lemma run_cross_ok c q b :
  Core b → Forall order_ok q → (∀ o, o ∈ q → orders b !! o_id o = None) → clearing_at q c →
  ∃ q' b' ts, run_cross c q b = Ok (q', b', ts) ∧ filled_from q q' ∧ Core b' ∧
    (∃ b1, quiet b b1 ∧ b' = set_have_last true (set_last_price (c_price c) b1)) ∧
    zsum t_qty ts = c_volume c ∧ Forall (cross_exec q (c_price c)) ts.
Proof.
  intros HC Hq Hfresh (Hv & Ev & _). unfold run_cross.
  set (bs := merge_sort _ (auction_side Buy q)). set (ss := merge_sort _ (auction_side Sell q)).
  destruct (cross_loop_ok (c_price c) (S (S (length bs + length ss))) q bs ss (c_volume c) b [])
    as (q' & b' & ts & -> & Hf & HC' & Hqt & Hsum & Hex); try done.
  - unfold cross_measure. case_if; lia.
  - eapply Forall_impl; [exact Hq|]. intros o (? & _). lia.
  - apply sorted_lane; [apply _..|done|]. apply buy_not_after_ok.
  - apply sorted_lane; [apply _..|done|]. apply sell_not_after_ok.
  - lia.
  - rewrite Ev. unfold bs. rewrite (eligible_perm _ _ _ _ (merge_sort_Permutation _ _)).
    unfold volume_at, demand_at, eligible. rewrite zsum_filter. lia.
  - rewrite Ev. unfold ss. rewrite (eligible_perm _ _ _ _ (merge_sort_Permutation _ _)).
    unfold volume_at, supply_at, eligible. rewrite zsum_filter. lia.
  - cbn. exists q'. eexists _, ts. split; [done|]. split_and!; try done.
    + by apply Core_last.
    + by exists b'.
Qed.

(** ** Remainders enter continuous trading *)
Lemma order_ok_masked o m :
  order_ok o → order_ok (set_o_flags (Z.land (o_flags o) m) o).
Proof.
  intros (? & Hd & Hf). split_and!; [done|..]; simpl; rewrite !HasFlag_index in * by done; rewrite !Z.land_spec.
  { intros [Hi _]%andb_true_iff. by apply Hd. }
  apply andb_false_iff in Hf as [->| ->]; [done|]. by rewrite !andb_false_r.
Qed.

(** Ids of the book after injecting remainders of the orders [l]. *)
Definition grown_by (ids : list OrderId) (b b' : Impl) : Prop :=
  cold b b' ∧ ∀ j, is_Some (orders b' !! j) → j ∈ ids ∨ is_Some (orders b !! j).

Lemma inject_remainder_ok o b trades :
  Core b → (0 < o_leaves o → order_ok o) → orders b !! o_id o = None →
  ∃ b' ts, inject_remainder (b, trades) o = Ok (b', trades ++ ts) ∧ Core b' ∧ grown (o_id o) b b'.
Proof.
  intros HC Ho Hf. unfold inject_remainder. case_if.
  - set (r := set_o_flags _ o).
    destruct (inject_ok r b trades HC) as (o' & b' & ts & -> & HJ); [by apply order_ok_masked, Ho|done|].
    exists b', ts. split_and!; [done|apply HJ|apply HJ].
  - exists b, []. rewrite app_nil_r. split_and!; [done..|]. by apply shrunk_is_grown.
Qed.

Lemma inject_all_ok l : ∀ b trades,
  Core b → NoDup (o_id <$> l) → (∀ o, o ∈ l → 0 < o_leaves o → order_ok o) →
  (∀ o, o ∈ l → orders b !! o_id o = None) →
  ∃ b' ts, res_foldl inject_remainder (b, trades) l = Ok (b', trades ++ ts) ∧ Core b' ∧
    grown_by (o_id <$> l) b b'.
Proof.
  induction l as [|o l IH]; intros b trades HC Hnd Hok Hfresh; cbn [res_foldl].
  - exists b, []. rewrite app_nil_r. split_and!; [done..|]. split; [done|]. auto.
  - rewrite fmap_cons, NoDup_cons in Hnd. destruct Hnd as [Ho Hnd].
    destruct (inject_remainder_ok o b trades HC) as (b1 & ts1 & -> & HC1 & Hc1 & Hg1).
    { apply Hok. set_solver. }
    { apply Hfresh. set_solver. }
    cbn. destruct (IH b1 (trades ++ ts1) HC1 Hnd) as (b2 & ts2 & -> & HC2 & Hc2 & Hg2).
    + intros o' Ho'. apply Hok. set_solver.
    + intros o' Ho'. destruct (orders b1 !! o_id o') as [e|] eqn:E; [|done].
      destruct (Hg1 (o_id o')) as [Eid|[e' E']]; [by rewrite E| |].
      * destruct Ho. rewrite <-Eid. by apply list_elem_of_fmap_2.
      * rewrite Hfresh in E' by set_solver. done.
    + exists b2, (ts1 ++ ts2). rewrite app_assoc. split_and!; [done..|]. split; [by etrans|].
      intros j Hj. destruct (Hg2 j Hj) as [Hj2|Hj1]; [left; set_solver|].
      destruct (Hg1 j Hj1) as [->|]; [left; set_solver|by right].
Qed.

(** ** cross_auction *)
Lemma count_id_elem i l : i ∈ (o_id <$> l) → (1 ≤ count_id i l)%nat.
Proof.
  induction l as [|o l IH]; [set_solver|]. unfold count_id in *. rewrite fmap_cons, elem_of_cons. simpl.
  intros [->|H]; [rewrite Z.eqb_refl; simpl; lia|]. specialize (IH H). case_if; simpl; lia.
Qed.

Lemma count_id_NoDup l : (∀ i, (count_id i l ≤ 1)%nat) → NoDup (o_id <$> l).
Proof.
  induction l as [|o l IH]; intros H; [constructor|]. rewrite fmap_cons. constructor.
  - intros Hin%count_id_elem. specialize (H (o_id o)). unfold count_id in *. simpl in H.
    rewrite Z.eqb_refl in H. simpl in H. lia.
  - apply IH. intros i. specialize (H i). unfold count_id in *. simpl in H. destruct (o_id o =? i); simpl in H; lia.
Qed.

Lemma auction_queue_occ opening b i : (count_id i (auction_queue opening b) ≤ occ b i)%nat.
Proof. unfold occ. destruct opening; simpl; lia. Qed.

Lemma auction_queue_fresh opening b o :
  WF b → o ∈ auction_queue opening b → orders b !! o_id o = None.
Proof.
  intros HW Ho. pose proof (wf_unique _ HW (o_id o)) as Hu.
  assert (1 ≤ count_id (o_id o) (auction_queue opening b))%nat as Hc
    by (apply count_id_elem; by apply list_elem_of_fmap_2).
  destruct (orders b !! o_id o) as [e|] eqn:E; [|done]. exfalso.
  unfold occ in Hu. rewrite (present_Some _ _ _ E) in Hu. destruct opening; simpl in Hc; lia.
Qed.

Lemma auction_queue_ok opening b : WF b → Forall order_ok (auction_queue opening b).
Proof. intros []. by destruct opening. Qed.

(** Clearing the queue pays for the ids that moved into the book. *)
Lemma clear_auction_ok opening b b' :
  WF b → Core b' → grown_by (o_id <$> auction_queue opening b) b b' →
  let b'' := clear_auction opening b' in
  WF b'' ∧ moved b b'' ∧ auction_queue opening b'' = [].
Proof.
  intros HW HC [[E1 E2 E3 E4 E5 E6 E7 E8 E9] Hg] b''.
  assert (∀ j, (occ b'' j ≤ occ b j)%nat) as Hocc.
  { intros j.
    assert (present (orders b') j ≤ present (orders b) j + count_id j (auction_queue opening b))%nat.
    { unfold present at 1. destruct (orders b' !! j) as [e|] eqn:Ej; [|lia].
      destruct (Hg j) as [Hj|[e' Hj]]; [by rewrite Ej| |].
      - apply count_id_elem in Hj. lia.
      - rewrite (present_Some _ _ _ Hj). lia. }
    unfold occ, b''. destruct opening; simpl in *; rewrite E1, E2, ?E4, ?E5;
      change (count_id j []) with 0%nat; lia. }
  assert (stops b'' = stops b ∧ groups b'' = groups b) as [Es Egr] by (unfold b''; by destruct opening).
  destruct HW as [HC0 Hst Hop Hcl Hp Hu]. split_and!.
  - split; rewrite ?Es, ?Egr; try done.
    + unfold b''. destruct opening; simpl; [by apply Core_opening|by apply Core_closing].
    + unfold b''. destruct opening; simpl; [done|by rewrite E4].
    + unfold b''. destruct opening; simpl; [by rewrite E5|done].
    + intros i. specialize (Hocc i). specialize (Hu i). lia.
  - unfold b'' in *. destruct opening; split; simpl; rewrite ?E4, ?E5; try done; apply sublist_nil_l.
  - unfold b''. by destruct opening.
Qed.

Record AuctionOk (opening : bool) (b : Impl) (ts : list Trade) (b' : Impl) : Prop := mkAuctionOk {
  ao_wf : WF b';
  ao_moved : moved b b';
  ao_queue : auction_queue opening b' = [];
  ao_cross : ∃ cross cont, ts = cross ++ cont ∧
    match clearing (auction_queue opening b) b with
    | None => cross = []
    | Some c =>
        zsum t_qty cross = c_volume c ∧
        Forall (cross_exec (auction_queue opening b) (c_price c)) cross
    end;
}.

Lemma quiet_grown b b1 b' ids h l :
  quiet b b1 → grown_by ids (set_have_last h (set_last_price l b1)) b' → grown_by ids b b'.
Proof. intros (pos & es & ->) [[] H]. by split. Qed.

(** The cross proper, for any clearing decision of the code. *)
Lemma cross_phase_ok opening b :
  WF b → let q := auction_queue opening b in
  ∃ q' b1 ts, match clearing q b with Some c => run_cross c q b | None => Ok (q, b, []) end
      = Ok (q', b1, ts) ∧ Core b1 ∧ filled_from q q' ∧
    (∀ ids b', grown_by ids b1 b' → grown_by ids b b') ∧ (∀ j, orders b1 !! j = orders b !! j) ∧
    match clearing q b with
    | None => ts = []
    | Some c => zsum t_qty ts = c_volume c ∧ Forall (cross_exec q (c_price c)) ts
    end.
Proof.
  intros HW q. pose proof (auction_queue_ok opening b HW) as Hq.
  pose proof (clearing_ok b q) as Hcl. destruct (clearing q b) as [c|] eqn:Ec.
  - destruct Hcl as (Hat & _ & _).
    destruct (run_cross_ok c q b (wf_core _ HW) Hq) as (q' & b' & ts & -> & Hf & HC & (b1 & Hqt & ->) & Hs & Hex).
    { intros o. by apply auction_queue_fresh. }
    { done. }
    exists q'. eexists _, ts. split_and!; try done.
    + intros ids b'. by apply quiet_grown.
    + intros j. destruct Hqt as (? & ? & ->). done.
  - exists q, b, []. split_and!; try done; [apply HW|]. apply filled_from_refl.
    eapply Forall_impl; [exact Hq|]. intros o (? & _). lia.
Qed.

Lemma cross_auction_ok opening b :
  WF b → ∃ ts b', cross_auction opening b = Ok (ts, b') ∧ AuctionOk opening b ts b'.
Proof.
  intros HW. unfold cross_auction.
  destruct (cross_phase_ok opening b HW) as (q' & b1 & ts1 & Hrun & HC1 & Hf & Hgr & Hor & Hcl).
  pose proof (auction_queue_ok opening b HW) as Hq.
  pose proof (auction_queue_fresh opening b) as Hfr.
  pose proof (count_id_NoDup (auction_queue opening b)) as Hnd.
  pose proof (λ i, auction_queue_occ opening b i) as Hoc.
  destruct (auction_queue opening b) as [|o0 q0] eqn:Eq.
  { exists [], b. split; [done|]. split; try done. rewrite Eq. exists [], []. split; [done|].
    destruct (clearing [] b) as [c|] eqn:Ec; [|done]. exfalso.
    pose proof (clearing_ok b []) as H. rewrite Ec in H. destruct H as ((? & E & _) & _ & _).
    unfold volume_at in E. rewrite demand_at_sum in E. simpl in E. lia. }
  set (q := o0 :: q0) in *. rewrite Hrun. cbn.
  pose proof (filled_from_ids _ _ Hf) as Hids.
  destruct (inject_all_ok q' b1 ts1 HC1) as (b2 & ts2 & -> & HC2 & Hg2).
  { rewrite Hids. apply Hnd. intros i. pose proof (wf_unique _ HW i). specialize (Hoc i). lia. }
  { intros o Ho Hl. destruct (filled_from_elem _ _ _ Hf Ho) as (o1 & n & Ho1 & ->).
    apply order_ok_fill; [|done]. rewrite Forall_forall in Hq. by apply Hq. }
  { intros o Ho. rewrite Hor. destruct (filled_from_elem _ _ _ Hf Ho) as (o1 & n & Ho1 & ->).
    by apply (Hfr o1 HW). }
  cbn. apply Hgr in Hg2. rewrite Hids in Hg2.
  destruct (clear_auction_ok opening b b2 HW HC2) as (HW3 & Hm3 & Hq3); [by rewrite Eq|].
  set (b3 := clear_auction opening b2) in *.
  destruct (ts1 ++ ts2) as [|t ts] eqn:Ets.
  - exists [], b3. split; [done|]. split; try done. exists ts1, ts2. by rewrite Eq.
  - destruct (evaluate_stops_ok b3 (t :: ts) HW3) as (b4 & ts4 & -> & HW4 & Hm4 & Hqu). cbn.
    destruct (reprice_pegs_ok b4 (wf_core _ HW4)) as (b5 & -> & HC5 & Hs5). cbn.
    eexists _, b5. split; [done|]. split.
    + by eapply WF_shrunk.
    + etrans; [exact Hm3|]. etrans; [exact Hm4|]. by apply shrunk_moved.
    + assert (auction_queue opening b5 `sublist_of` auction_queue opening b3) as Hsub.
      { destruct Hm4 as [_ _ S4 S5 _ _ _ _], Hs5 as [[_ _ _ E4 E5 _ _ _ _] _].
        destruct opening; simpl; by rewrite ?E4, ?E5. }
      rewrite Hq3 in Hsub. by apply sublist_nil_r in Hsub.
    + exists ts1, (ts2 ++ ts4). rewrite app_assoc, Ets, Eq. done.
Qed.
