(* ===== verification/BookSubmit.v ===== *)
(** * submit

    The whole entry point of the book: stamping, validation, auction queues,
    held children, stops, pegs, the continuous path with its gates, and the
    contingent-order machinery that may submit held children in turn.  The
    recursion is bounded by the number of held orders. *)

From S2P Require Import Prelude.
From S2P Require Import Order.
From S2P Require Import Ladder.
From S2P Require Import Book.
From S2P Require Import Replica.
From S2P Require Import BookInv.
From S2P Require Import BookMatch.
From S2P Require Import BookRest.
From S2P Require Import BookFlow.
From S2P Require Import BookAuction.

(** What a caller must ensure of an order it submits. *)
Definition submittable (o : Order) : Prop :=
  (HasFlag (o_flags o) kIceberg = true → 0 ≤ o_display_qty o) ∧
  HasFlag (o_flags o) kHidden && HasFlag (o_flags o) kIceberg = false.

(** Orders that [submit] holds in their group instead of working them. *)
Definition holding (o : Order) : bool :=
  match o_link o with
  | Some l =>
      match lk_role l with
      | OtoChild | BracketTakeProfit | BracketStopLoss => true
      | _ => false
      end
  | None => false
  end.

(** ** Effect on ids and held orders *)
Definition calm (b b' : Impl) : Prop :=
  (∀ j, (occ b' j ≤ occ b j)%nat) ∧ (pending_total b' ≤ pending_total b)%nat.

#[export] Instance calm_preorder : PreOrder calm.
Proof.
  split; [by split|]. intros b1 b2 b3 [H1 P1] [H2 P2]. split; [|lia].
  intros j. specialize (H1 j). specialize (H2 j). lia.
Qed.

Lemma moved_calm b b' : moved b b' → calm b b'.
Proof. intros []. split; [done|]. unfold pending_total. by rewrite mv_groups. Qed.

Lemma shrunk_calm b b' : shrunk b b' → calm b b'.
Proof. intros. by apply moved_calm, shrunk_moved. Qed.

(** A submission of order [i] that works it. *)
Definition worked (i : OrderId) (b b' : Impl) : Prop :=
  (∀ j, (occ b' j ≤ occ b j + (if decide (j = i) then 1 else 0))%nat) ∧
  (pending_total b' ≤ pending_total b)%nat.

Lemma calm_worked i b b' : calm b b' → worked i b b'.
Proof. intros [H P]. split; [|done]. intros j. specialize (H j). lia. Qed.
Lemma grown_worked i b b' : grown i b b' → worked i b b'.
Proof.
  intros Hg. split; [intros j; by apply occ_grown|]. destruct Hg as [[_ Hgr _ _ _ _ _ _ _] _].
  unfold pending_total. by rewrite Hgr.
Qed.
Lemma calm_worked_trans i b b' b'' : calm b b' → worked i b' b'' → worked i b b''.
Proof.
  intros [H P] [H' P']. split; [|lia]. intros j. specialize (H j). specialize (H' j). lia.
Qed.
Lemma worked_calm_trans i b b' b'' : worked i b b' → calm b' b'' → worked i b b''.
Proof.
  intros [H P] [H' P']. split; [|lia]. intros j. specialize (H j). specialize (H' j). lia.
Qed.

(** ** Updates of a group *)
Lemma count_id_app i l1 l2 : count_id i (l1 ++ l2) = (count_id i l1 + count_id i l2)%nat.
Proof. unfold count_id. by rewrite List.filter_app, length_app. Qed.

Lemma count_id_cons j c l :
  count_id j (c :: l) = ((if decide (j = o_id c) then 1 else 0) + count_id j l)%nat.
Proof. unfold count_id. simpl. case_decide; case_if; simpl; lia. Qed.

#[export] Instance count_id_perm i : Proper ((≡ₚ) ==> eq) (count_id i).
Proof.
  intros l l'. induction 1; unfold count_id in *; simpl; repeat case_if; simpl; lia.
Qed.

(** Replacing group [gid]: ids and held orders move by the difference. *)
Lemma occ_set_group b gid g j :
  (occ (set_groups (<[gid := g]> (groups b)) b) j +
   from_option (λ g, count_id j (group_pending g)) 0 (groups b !! gid) =
   occ b j + count_id j (group_pending g))%nat.
Proof.
  unfold occ. simpl.
  pose proof (map_sum_update (λ g, count_id j (group_pending g)) (groups b) gid g). lia.
Qed.

Lemma pending_set_group b gid g :
  (pending_total (set_groups (<[gid := g]> (groups b)) b) +
   from_option (λ g, length (group_pending g)) 0 (groups b !! gid) =
   pending_total b + length (group_pending g))%nat.
Proof. unfold pending_total. simpl. rewrite map_sum_update. lia. Qed.

Lemma default_group_count j b gid :
  from_option (λ g, count_id j (group_pending g)) 0%nat (groups b !! gid) =
  count_id j (group_pending (default empty_group (groups b !! gid))).
Proof. by destruct (groups b !! gid). Qed.
Lemma default_group_length b gid :
  from_option (λ g, length (group_pending g)) 0%nat (groups b !! gid) =
  length (group_pending (default empty_group (groups b !! gid))).
Proof. by destruct (groups b !! gid). Qed.

Lemma WF_pending_default b gid :
  WF b → Forall order_ok (group_pending (default empty_group (groups b !! gid))).
Proof.
  intros HW. destruct (groups b !! gid) as [g|] eqn:E; simpl; [by eapply wf_pending|constructor].
Qed.

(** Replacing a group keeps the book well formed as long as ids stay unique. *)
Lemma WF_set_group b gid g :
  WF b → Forall order_ok (group_pending g) →
  (∀ j, (occ (set_groups (<[gid := g]> (groups b)) b) j ≤ 1)%nat) →
  WF (set_groups (<[gid := g]> (groups b)) b).
Proof.
  intros [HC Hst Hop Hcl Hp Hu] Hg Hocc. split; simpl; try done; [by apply Core_groups|].
  intros k g' [[<- <-]|[_ Hk]]%lookup_insert_Some; [done|by eapply Hp].
Qed.

(** A group whose held orders do not change. *)
Lemma set_group_same b gid g :
  WF b → group_pending g = group_pending (default empty_group (groups b !! gid)) →
  let b' := set_groups (<[gid := g]> (groups b)) b in WF b' ∧ calm b b'.
Proof.
  intros HW Hg b'.
  assert (∀ j, occ b' j = occ b j) as Hocc.
  { intros j. pose proof (occ_set_group b gid g j) as H. rewrite default_group_count, Hg in H.
    unfold b'. lia. }
  split.
  - apply WF_set_group; [done|rewrite Hg; by apply WF_pending_default|].
    intros j. fold b'. rewrite Hocc. apply HW.
  - split; [intros j; by rewrite Hocc|].
    pose proof (pending_set_group b gid g) as H. rewrite default_group_length, Hg in H.
    unfold b'. lia.
Qed.

Lemma set_order_group_ok b x :
  WF b → let b' := set_order_group x b in WF b' ∧ calm b b'.
Proof.
  intros [HC Hst Hop Hcl Hp Hu] b'. split; [|by split]. split; try done. by apply Core_order_group.
Qed.

(** Taking orders out of a group frees their ids. *)
Lemma take_pending b gid g' l :
  WF b → (group_pending (default empty_group (groups b !! gid)) ≡ₚ l ++ group_pending g') →
  let b' := set_groups (<[gid := g']> (groups b)) b in
  WF b' ∧ (∀ j, (occ b' j + count_id j l = occ b j)%nat) ∧
  (∀ c, c ∈ l → occ b' (o_id c) = 0%nat ∧ order_ok c) ∧ NoDup (o_id <$> l) ∧
  (pending_total b' + length l = pending_total b)%nat.
Proof.
  intros HW Hperm b'.
  assert (∀ j, (count_id j (group_pending (default empty_group (groups b !! gid))) =
    count_id j l + count_id j (group_pending g'))%nat) as Hcnt.
  { intros j. rewrite <-count_id_app. by rewrite Hperm. }
  assert (∀ j, (occ b' j + count_id j l = occ b j)%nat) as Hocc.
  { intros j. pose proof (occ_set_group b gid g' j) as H. rewrite default_group_count, Hcnt in H.
    unfold b'. lia. }
  assert (pending_total b' + length l = pending_total b)%nat as Hpt.
  { pose proof (pending_set_group b gid g') as H. rewrite default_group_length in H.
    rewrite Hperm, length_app in H. unfold b'. lia. }
  pose proof (WF_pending_default b gid HW) as Hok. rewrite Hperm in Hok.
  apply Forall_app in Hok as [Hl Hg']. split_and!; [| | | |done].
  - apply WF_set_group; [done..|]. intros j. fold b'. specialize (Hocc j).
    pose proof (wf_unique _ HW j). lia.
  - done.
  - intros c Hc. rewrite Forall_forall in Hl. split; [|by apply Hl].
    assert (1 ≤ count_id (o_id c) l)%nat by (apply count_id_elem; by apply list_elem_of_fmap_2).
    specialize (Hocc (o_id c)). pose proof (wf_unique _ HW (o_id c)). lia.
  - apply count_id_NoDup. intros j. specialize (Hocc j). pose proof (wf_unique _ HW j). lia.
Qed.

Lemma order_ok_submittable o l : order_ok o → submittable (set_o_link l o).
Proof. intros (? & Hd & ?). split; [intros Hi; by apply Z.lt_le_incl, Hd|done]. Qed.

(** ** Contingent orders, over any nested submit *)
Section nested.
Context (submit : Order → Impl → res (SubmitOutcome * Impl)) (n : nat).
Hypothesis submit_ok : ∀ c b,
  WF b → submittable c → occ b (o_id c) = 0%nat → holding c = false → (pending_total b < n)%nat →
  ∃ out b', submit c b = Ok (out, b') ∧ WF b' ∧ worked (o_id c) b b'.

(** Submitting orders that were just taken out of a group. *)
Lemma submit_legs gid l : ∀ out b,
  WF b → (l ≠ [] → (pending_total b < n)%nat) → NoDup (o_id <$> l) →
  (∀ c, c ∈ l → occ b (o_id c) = 0%nat ∧ order_ok c) →
  ∃ out' b', res_foldl
      (λ '(out, b) c,
         '(co, b) ← submit (set_o_link (Some (mkLink OcoLeg gid)) c) b;
         Ok (set_out_trades (out_trades out ++ out_trades co) out, b)) (out, b) l = Ok (out', b') ∧
    WF b' ∧ (∀ j, (occ b' j ≤ occ b j + count_id j l)%nat) ∧
    (pending_total b' ≤ pending_total b)%nat.
Proof.
  induction l as [|c l IH]; intros out b HW Hn Hnd Hl; cbn [res_foldl].
  - exists out, b. split_and!; try done. intros j. lia.
  - rewrite fmap_cons, NoDup_cons in Hnd. destruct Hnd as [Hc Hnd].
    destruct (Hl c) as [Hocc Hok]; [set_solver|].
    destruct (submit_ok (set_o_link (Some (mkLink OcoLeg gid)) c) b HW) as (co & b1 & -> & HW1 & Hw1 & Hp1).
    { by apply order_ok_submittable. }
    { done. }
    { done. }
    { by apply Hn. }
    cbn. change (o_id (set_o_link _ c)) with (o_id c) in *.
    destruct (IH (set_out_trades (out_trades out ++ out_trades co) out) b1 HW1) as
      (out' & b' & -> & HW' & Hw' & Hp'); try done.
    + intros _. assert (pending_total b < n)%nat by (by apply Hn). lia.
    + intros c' Hc'. destruct (Hl c') as [Ho' Hok']; [set_solver|]. split; [|done].
      specialize (Hw1 (o_id c')). rewrite decide_False in Hw1; [lia|].
      intros E. destruct Hc. rewrite <-E. by apply list_elem_of_fmap_2.
    + exists out', b'. split_and!; try done; [|lia]. intros j. specialize (Hw1 j). specialize (Hw' j).
      rewrite count_id_cons. lia.
Qed.

Lemma release_children_ok gid out b :
  WF b → (pending_total b ≤ n)%nat →
  ∃ out' b', release_children submit gid out b = Ok (out', b') ∧ WF b' ∧ calm b b'.
Proof.
  intros HW Hn. unfold release_children. set (g := default empty_group (groups b !! gid)).
  set (l1 := match g_pending_child g with Some c => [c] | None => [] end).
  destruct (take_pending b gid (set_g_pending_child None g) l1 HW) as (HW1 & Hc1 & Hl1 & _ & Hp1).
  { fold g. done. }
  set (b1 := set_groups _ b) in *.
  assert (∃ out1 b2, match g_pending_child g with
      | Some c => '(co, b) ← submit (set_o_link None c) b1;
                  Ok (set_out_trades (out_trades out ++ out_trades co) out, b)
      | None => Ok (out, b1)
      end = Ok (out1, b2) ∧ WF b2 ∧ calm b b2) as (out1 & b2 & -> & HW2 & Hc2 & Hp2).
  { unfold l1 in *. destruct (g_pending_child g) as [c|].
    - destruct (Hl1 c) as [Ho Hok]; [set_solver|]. simpl in Hp1.
      destruct (submit_ok (set_o_link None c) b1 HW1) as (co & b2 & -> & HW2 & Hw2 & Hp2).
      { by apply order_ok_submittable. }
      { done. }
      { done. }
      { lia. }
      eexists _, b2. split; [done|]. split; [done|]. split; [|lia].
      intros j. specialize (Hw2 j). specialize (Hc1 j). rewrite count_id_cons in Hc1.
      simpl in Hw2. lia.
    - exists out, b1. split_and!; [done..|]. split; [|simpl in Hp1; lia].
      intros j. specialize (Hc1 j). lia. }
  cbn. set (g2 := default empty_group (groups b2 !! gid)).
  destruct (take_pending b2 gid (set_g_pending_oco [] g2) (g_pending_oco g2) HW2)
    as (HW3 & Hc3 & Hl3 & Hnd3 & Hp3).
  { fold g2. unfold group_pending. simpl. rewrite app_nil_r. apply Permutation_app_comm. }
  set (b3 := set_groups _ b2) in *.
  destruct (submit_legs gid (g_pending_oco g2) out1 b3 HW3) as (out' & b' & -> & HW' & Hw' & Hp'); try done.
  { intros Hne. destruct (g_pending_oco g2); [done|]. simpl in Hp3. lia. }
  exists out', b'. split_and!; [done..|]. split; [|lia].
  intros j. specialize (Hw' j). specialize (Hc3 j). specialize (Hc2 j). lia.
Qed.

Lemma cancel_leg_ok i b other :
  WF b → ∃ b', cancel_leg i b other = Ok b' ∧ WF b' ∧ calm b b'.
Proof.
  intros HW. unfold cancel_leg. case_if; [by exists b|].
  destruct (set_order_group_ok b (delete other (order_group b)) HW) as [HW1 Hc1].
  destruct (cancel_ok other _ HW1) as (r & b2 & -> & HW2 & Hm2 & _). cbn. exists b2.
  split_and!; [done..|]. etrans; [exact Hc1|]. by apply moved_calm.
Qed.

Lemma cancel_legs_ok i l b :
  WF b → ∃ b', res_foldl (cancel_leg i) b l = Ok b' ∧ WF b' ∧ calm b b'.
Proof.
  intros HW. apply (res_foldl_inv (cancel_leg i) (λ b' _, WF b' ∧ calm b b')); [|done].
  intros b1 other l' [HW1 Hc1]. destruct (cancel_leg_ok i b1 other HW1) as (b2 & -> & HW2 & Hc2).
  exists b2. split_and!; [done..|]. by etrans.
Qed.

(** The one-cancels-other part of a fill. *)
Lemma cancel_others_ok i gid g b :
  WF b → ∃ b', (if bool_decide (i ∈ g_oco_legs g) then
      b ← res_foldl (cancel_leg i) b (g_oco_legs g);
      let g := default empty_group (groups b !! gid) in
      let b := set_groups (<[gid := set_g_oco_legs [] g]> (groups b)) b in
      Ok (set_order_group (delete i (order_group b)) b)
    else Ok b) = Ok b' ∧ WF b' ∧ calm b b'.
Proof.
  intros HW. case_if; [|by exists b].
  destruct (cancel_legs_ok i (g_oco_legs g) b HW) as (b1 & -> & HW1 & Hc1). cbn.
  destruct (set_group_same b1 gid (set_g_oco_legs [] (default empty_group (groups b1 !! gid))) HW1)
    as [HW2 Hc2]; [done|].
  edestruct (set_order_group_ok _ (delete i (order_group b1)) HW2) as [HW3 Hc3].
  eexists. split; [done|]. split; [exact HW3|]. etrans; [exact Hc1|]. by etrans.
Qed.

Lemma link_fill_ok submitted out b i :
  WF b → (pending_total b ≤ n)%nat →
  ∃ out' b', link_fill submit submitted (out, b) i = Ok (out', b') ∧ WF b' ∧ calm b b'.
Proof.
  intros HW Hn. unfold link_fill. cbv zeta.
  match goal with |- context [match ?x with Some gid => _ | None => Ok (out, b) end] =>
    destruct x as [gid|]; [|by exists out, b] end.
  destruct (groups b !! gid) as [g|]; [|by exists out, b].
  destruct (cancel_others_ok i gid g b HW) as (b1 & Hrun & HW1 & Hc1).
  cbv zeta in Hrun. rewrite Hrun. cbn.
  destruct (set_group_same b1 gid (default empty_group (groups b1 !! gid)) HW1) as [HW2 Hc2]; [done|].
  set (b2 := set_groups _ b1) in *.
  assert (calm b b2) as Hc by (by etrans).
  match goal with |- context [if ?c then release_children _ _ _ _ else _] => destruct c end.
  - destruct (release_children_ok gid out b2 HW2) as (out' & b' & -> & HW' & Hc').
    { destruct Hc. lia. }
    exists out', b'. split_and!; [done..|]. by etrans.
  - by exists out, b2.
Qed.

Lemma process_link_fills_ok submitted out b :
  WF b → (pending_total b ≤ n)%nat →
  ∃ out' b', process_link_fills submit submitted out b = Ok (out', b') ∧ WF b' ∧ calm b b'.
Proof.
  intros HW Hn. unfold process_link_fills.
  destruct (res_foldl_inv (link_fill submit submitted) (λ '(_, b') _, WF b' ∧ calm b b'))
    with (l := linked_fills submitted out b) (acc := (out, b)) as ([out' b'] & -> & HW' & Hc'); [|done|].
  - intros [out1 b1] i l [HW1 Hc1].
    destruct (link_fill_ok submitted out1 b1 i HW1) as (out2 & b2 & -> & HW2 & Hc2).
    { destruct Hc1. lia. }
    exists (out2, b2). split_and!; [done..|]. by etrans.
  - by exists out', b'.
Qed.
End nested.

Lemma register_link_ok o r b :
  WF b → WF (register_link o r b) ∧ calm b (register_link o r b).
Proof.
  intros HW. unfold register_link. destruct (o_link o) as [l|]; [|done]. cbv zeta.
  set (g := default empty_group (groups b !! lk_group_id l)).
  assert (∃ b1, match lk_role l with
     | OcoLeg => set_groups (<[lk_group_id l := set_g_oco_legs (g_oco_legs g ++ [o_id o]) g]> (groups b)) b
     | OtoParent | BracketParent => set_groups (<[lk_group_id l := set_g_parent (o_id o) g]> (groups b)) b
     | _ => b
     end = b1 ∧ WF b1 ∧ calm b b1) as (b1 & -> & HW1 & Hc1).
  { destruct (lk_role l); eexists; (split; [done|]); try done; by apply set_group_same. }
  destruct r; [|done].
  destruct (set_order_group_ok b1 (<[o_id o := lk_group_id l]> (order_group b1)) HW1) as [HW2 Hc2].
  split; [done|]. by etrans.
Qed.

(** ** The paths of submit *)
Lemma WF_worked i b b' : WF b → occ b i = 0%nat → worked i b b' → ∀ j, (occ b' j ≤ 1)%nat.
Proof.
  intros HW Hi [Hw _] j. specialize (Hw j). pose proof (wf_unique _ HW j). case_decide; subst; lia.
Qed.

(** Resting a fresh order keeps the book well formed. *)
Lemma rest_WF o b :
  WF b → order_ok o → occ b (o_id o) = 0%nat →
  ∃ r b' ev, rest o b [] = (r, b', ev) ∧ WF b' ∧ worked (o_id o) b b' ∧ RestOk o b r ev b'.
Proof.
  intros HW Ho Hocc. destruct (occ_fresh _ _ Hocc) as [Hf _].
  destruct (rest_ok o b [] (wf_core _ HW) Ho Hf) as (r & b' & ev & -> & HR).
  pose proof (RestOk_grown _ _ _ _ _ HR) as Hg. exists r, b', ev.
  split_and!; [done|by eapply WF_grown; try apply HR|by apply grown_worked|done].
Qed.

Lemma evaluate_if_ok b ts :
  WF b → ∃ b' ts', match ts with [] => Ok (b, []) | t :: l => evaluate_stops b (t :: l) end = Ok (b', ts ++ ts') ∧
    WF b' ∧ moved b b'.
Proof.
  intros HW. destruct ts as [|t ts]; [by exists b, []|].
  destruct (evaluate_stops_ok b (t :: ts) HW) as (b' & ts' & -> & HW' & Hm & _).
  by exists b', ts'.
Qed.

Section paths.
Context (submit : Order → Impl → res (SubmitOutcome * Impl)) (n : nat).
Hypothesis submit_ok : ∀ c b,
  WF b → submittable c → occ b (o_id c) = 0%nat → holding c = false → (pending_total b < n)%nat →
  ∃ out b', submit c b = Ok (out, b') ∧ WF b' ∧ worked (o_id c) b b'.

Lemma submit_match_ok o b :
  WF b → order_ok o → occ b (o_id o) = 0%nat → (pending_total b ≤ n)%nat →
  ∃ out b', submit_match submit o b = Ok (out, b') ∧ WF b' ∧ worked (o_id o) b b'.
Proof.
  intros HW Ho Hocc Hn. unfold submit_match.
  destruct (match_ok o b [] (wf_core _ HW)) as (c & o1 & b1 & ts & Hrun & [HC1 HM _ _ _]).
  { destruct Ho. lia. }
  rewrite Hrun. clear Hrun. cbn.
  pose proof (Matched_shrunk _ _ _ _ _ HM) as Hs1. pose proof (mt_fill _ _ _ _ _ HM) as Hfill.
  assert (WF b1) as HW1 by (by eapply WF_shrunk).
  assert (occ b1 (o_id o) = 0%nat) as Hocc1 by (pose proof (occ_shrunk _ _ (o_id o) Hs1); lia).
  assert (o_id o1 = o_id o) as Hid by (by rewrite Hfill).
  set (out0 := set_out_filled _ _).
  assert (∃ out1 b2, (if (0 <? o_leaves o1) && negb c && negb (bool_decide (o_type o1 = Market)) &&
     negb (bool_decide (o_tif o1 = IOC))
    then let '(resident, b, ev) := rest o1 b1 [] in (note_rest resident o1 ev out0, b)
    else (out0, b1)) = (out1, b2) ∧ WF b2 ∧ worked (o_id o) b b2) as (out1 & b2 & -> & HW2 & Hw2).
  { case_if.
    - destruct (rest_WF o1 b1 HW1) as (r & b2 & ev & -> & HW2 & Hw2 & _).
      { rewrite Hfill in *. by apply order_ok_fill. }
      { by rewrite Hid. }
      eexists _, b2. split_and!; [done..|]. rewrite Hid in Hw2.
      eapply calm_worked_trans; [by apply shrunk_calm|done].
    - exists out0, b1. split_and!; [done..|]. by apply calm_worked, shrunk_calm. }
  destruct (evaluate_if_ok b2 (out_trades out1) HW2) as (b3 & ts3 & -> & HW3 & Hm3). cbn.
  destruct (reprice_pegs_ok b3 (wf_core _ HW3)) as (b4 & -> & HC4 & Hs4). cbn.
  assert (WF b4) as HW4 by (by eapply WF_shrunk).
  destruct (register_link_ok o1 (out_rested out1) b4 HW4)
    as [HW5 Hc5].
  assert (worked (o_id o) b (register_link o1 (out_rested out1) b4)) as Hw5.
  { eapply worked_calm_trans; [exact Hw2|]. etrans; [by apply moved_calm|].
    etrans; [by apply shrunk_calm|exact Hc5]. }
  destruct (process_link_fills_ok submit n submit_ok o1 (set_out_trades (out_trades out1 ++ ts3) out1)
    _ HW5) as (out' & b' & -> & HW' & Hc').
  { destruct Hw5. lia. }
  exists out', b'. split_and!; [done..|]. by eapply worked_calm_trans.
Qed.

Lemma crosses_ok o b :
  WF b → WF (crosses o b).2 ∧ shrunk b (crosses o b).2.
Proof.
  intros HW. unfold crosses. set (s := Opposite (o_side o)).
  destruct (best (ladder s b)) as [bp L] eqn:Hb.
  assert (WF (set_ladder s L b) ∧ shrunk b (set_ladder s L b)) as [H1 H2].
  { pose proof (wf_core _ HW) as HC.
    destruct (best_spec (ladder s b) (core_ladder _ HC s) (core_cache _ HC s)) as (_ & HL & Hc & Hok).
    rewrite Hb in HL, Hc, Hok. simpl in *.
    assert (shrunk b (set_ladder s L b)) as Hsh by (split; [|intros j]; by destruct s).
    split; [|done]. apply (WF_shrunk b); [done| |done]. apply Core_same_levels; done. }
  destruct bp as [bp|]; [|done]. by destruct (o_type o).
Qed.

Lemma submit_continuous_ok o b :
  WF b → order_ok o → occ b (o_id o) = 0%nat → (pending_total b ≤ n)%nat →
  ∃ out b', submit_continuous submit o b = Ok (out, b') ∧ WF b' ∧ worked (o_id o) b b'.
Proof.
  intros HW Ho Hocc Hn. unfold submit_continuous.
  assert (∃ w b1, (if HasFlag (o_flags o) kPostOnly then crosses o b else (false, b)) = (w, b1) ∧
    WF b1 ∧ shrunk b b1) as (w & b1 & -> & HW1 & Hs1).
  { case_if; [|by exists false, b]. destruct (crosses_ok o b HW).
    exists (crosses o b).1, (crosses o b).2. by destruct (crosses o b). }
  pose proof (shrunk_calm _ _ Hs1) as Hc1.
  assert (occ b1 (o_id o) = 0%nat) as Hocc1 by (pose proof (occ_shrunk _ _ (o_id o) Hs1); lia).
  assert (∀ why, ∃ out b', Ok (rejected (o_id o) why, b1) = Ok (out, b') ∧ WF b' ∧ worked (o_id o) b b')
    as Hrej by (intros why; eexists _, b1; split_and!; [done..|by apply calm_worked]).
  destruct w; [apply Hrej|]. case_if; [apply Hrej|]. cbv zeta.
  set (cap := reduce_only_capacity o b1). case_if; [apply Hrej|].
  set (o2 := if is_reduce_only o && (cap <? o_leaves o) then set_o_qty cap (set_o_leaves cap o) else o).
  assert (order_ok o2 ∧ o_id o2 = o_id o) as [Ho2 Hid2].
  { unfold o2. destruct (is_reduce_only o); simpl in *; [|done].
    case_if; [|done]. destruct Ho as (? & ? & ?). split; [split_and!|]; simpl; try done; lia. }
  case_if.
  { case_if; [rewrite Hid2; apply Hrej|].
    destruct (rest_WF o2 b1 HW1 Ho2) as (r & b2 & ev & -> & HW2 & Hw2 & _); [by rewrite Hid2|].
    destruct (reprice_pegs_ok b2 (wf_core _ HW2)) as (b3 & -> & HC3 & Hs3). cbn.
    eexists _, b3. split_and!; [done|by eapply WF_shrunk|]. rewrite Hid2 in Hw2.
    eapply worked_calm_trans; [|by apply shrunk_calm]. by eapply calm_worked_trans. }
  case_if; [rewrite Hid2; apply Hrej|]. case_if; [rewrite Hid2; apply Hrej|].
  destruct (submit_match_ok o2 b1 HW1 Ho2) as (out & b' & -> & HW' & Hw').
  { by rewrite Hid2. }
  { destruct Hc1. lia. }
  exists out, b'. split_and!; [done..|]. rewrite Hid2 in Hw'. by eapply calm_worked_trans.
Qed.
End paths.

Lemma arm_stop_ok o b : order_ok o → order_ok (arm_stop o b) ∧ o_id (arm_stop o b) = o_id o.
Proof. intros H. unfold arm_stop. repeat case_match; done. Qed.

Lemma submit_stop_ok o b :
  WF b → order_ok o → occ b (o_id o) = 0%nat →
  ∃ out b', submit_stop o b = Ok (out, b') ∧ WF b' ∧ worked (o_id o) b b'.
Proof.
  intros HW Ho Hocc. unfold submit_stop. cbv zeta. destruct (arm_stop_ok o b Ho) as [Ho1 Hid1].
  set (o1 := arm_stop o b) in *. clearbody o1.
  destruct (occ_fresh _ _ Hocc) as [Hf Hfs]. case_if.
  - destruct (inject_ok (mark_triggered o1) b [] (wf_core _ HW)) as (o2 & b2 & ts & -> & HJ).
    { by apply mark_triggered_ok. }
    { by rewrite mark_triggered_id, Hid1. }
    cbn. pose proof (ij_grown _ _ _ _ _ HJ) as Hg. rewrite mark_triggered_id, Hid1 in Hg.
    assert (WF b2) as HW2 by (apply (WF_grown (o_id o) b); [done|apply HJ|done..]).
    destruct (evaluate_stops_ok b2 ts HW2) as (b3 & ts3 & -> & HW3 & Hm3 & _). cbn.
    eexists _, b3. split_and!; [done..|]. eapply worked_calm_trans; [by apply grown_worked|].
    by apply moved_calm.
  - rewrite Hid1, Hfs. eexists _, _. split; [done|].
    set (b' := set_stops _ b).
    assert (∀ j, (occ b' j ≤ occ b j + (if decide (j = o_id o) then 1 else 0))%nat) as Hocc'.
    { intros j. unfold occ, b'. simpl. rewrite present_insert. case_decide; lia. }
    assert (worked (o_id o) b b') as Hw by (split; [done|]; unfold pending_total; simpl; lia).
    split; [|done]. pose proof (WF_worked _ _ _ HW Hocc Hw) as Hu'.
    destruct HW as [HC Hst Hop Hcl Hp Hu]. split; try done; [by apply Core_stops|].
    intros i o'. unfold b'. simpl.
    intros [[<- <-]|[_ Hi]]%lookup_insert_Some; [by split|by apply Hst].
Qed.

Lemma submit_peg_ok o b :
  WF b → order_ok o → occ b (o_id o) = 0%nat → is_Some (o_peg o) →
  ∃ out b', submit_peg o b = Ok (out, b') ∧ WF b' ∧ worked (o_id o) b b'.
Proof.
  intros HW Ho Hocc Hpeg. unfold submit_peg. cbv zeta.
  destruct (compute_peg_price o b) as [price|].
  2:{ eexists _, b. split_and!; [done..|]. by apply calm_worked. }
  set (o1 := set_o_price price (set_o_type Limit o)).
  assert (order_ok o1) as Ho1 by done.
  destruct (rest_WF o1 b HW Ho1 Hocc) as (r & b1 & ev & -> & HW1 & Hw1 & HR).
  destruct r; [|by eexists _, b1].
  eexists _, _. split; [done|]. set (b2 := set_pegged _ b1).
  assert (shrunk b1 b2) as Hs by done. split.
  - apply (WF_shrunk b1); [done| |done].
    apply wf_core, Core_Resting in HW1 as [HR1 Hfeed]. apply Core_Resting. split; [|done].
    apply Resting_pegged; [done|]. intros i [->%elem_of_singleton|Hi]%elem_of_union; [|by apply HR1].
    eexists. split; [by apply (ro_resident _ _ _ _ _ HR)|done].
  - eapply worked_calm_trans; [done|]. by apply shrunk_calm.
Qed.

(** ** Stamping and dispatch *)
Lemma Normalize_fields o :
  o_id (Normalize o) = o_id o ∧ o_qty (Normalize o) = o_qty o ∧ o_link (Normalize o) = o_link o ∧
  HasFlag (o_flags (Normalize o)) kHidden = HasFlag (o_flags o) kHidden ∧
  HasFlag (o_flags (Normalize o)) kIceberg = HasFlag (o_flags o) kIceberg ∧
  o_display_qty (Normalize o) = (if o_display_qty o =? 0 then o_qty o else o_display_qty o).
Proof.
  unfold Normalize.
  assert (∀ f, HasFlag (SetFlag (o_flags o) f) kHidden =
      HasFlag (o_flags o) kHidden || bool_decide (flag_index f = flag_index kHidden)) as H1
    by (intros; by apply HasFlag_SetFlag).
  assert (∀ f, HasFlag (SetFlag (o_flags o) f) kIceberg =
      HasFlag (o_flags o) kIceberg || bool_decide (flag_index f = flag_index kIceberg)) as H2
    by (intros; by apply HasFlag_SetFlag).
  destruct (decide (o_tif o = GTX)); [|destruct (decide (o_tif o = FOK))]; simpl;
    repeat case_if; simpl; rewrite ?H1, ?H2, ?orb_false_r; simpl in *; done.
Qed.

Lemma stamp_order_ok o b :
  submittable o → let o' := (stamp o b).1 in
  0 < o_qty o' → 0 < o_leaves o' → order_ok o'.
Proof.
  intros [Hd Hf] o' Hq Hl. destruct (Normalize_fields o) as (_ & Eq & _ & Eh & Ei & Ed).
  unfold o', stamp in *. set (nz := Normalize o) in *. clearbody nz. simpl in *. rewrite Eq in Hq.
  split_and!; simpl; [done| |by rewrite Eh, Ei].
  rewrite Ei, Ed. intros Hi. specialize (Hd Hi). case_if; lia.
Qed.

(** Queueing for an auction. *)
Lemma queue_ok (opening : bool) o b :
  WF b → order_ok o → occ b (o_id o) = 0%nat →
  let b' := if opening then set_opening_auction (opening_auction b ++ [o]) b
            else set_closing_auction (closing_auction b ++ [o]) b in
  WF b' ∧ worked (o_id o) b b'.
Proof.
  intros HW Ho Hocc b'.
  assert (worked (o_id o) b b') as Hw.
  { split; [|by destruct opening]. intros j. unfold occ, b'.
    destruct opening; simpl; rewrite count_id_app, count_id_cons; change (count_id j []) with 0%nat; lia. }
  split; [|done]. pose proof (WF_worked _ _ _ HW Hocc Hw) as Hu'.
  destruct HW as [HC Hst Hop Hcl Hp Hu]. unfold b' in *. destruct opening; split; try done.
  - by apply Core_opening.
  - apply Forall_app_2; [done|]. by constructor.
  - by apply Core_closing.
  - apply Forall_app_2; [done|]. by constructor.
Qed.

(** Holding an order in its group. *)
Lemma hold_ok o gid g b :
  WF b → order_ok o → occ b (o_id o) = 0%nat →
  Forall order_ok (group_pending g) →
  (∀ j, (count_id j (group_pending g) ≤
         count_id j (o :: group_pending (default empty_group (groups b !! gid))))%nat) →
  (length (group_pending g) ≤ S (length (group_pending (default empty_group (groups b !! gid)))))%nat →
  let b' := set_groups (<[gid := g]> (groups b)) b in
  WF b' ∧ (∀ j, (occ b' j ≤ occ b j + (if decide (j = o_id o) then 1 else 0))%nat) ∧
  (pending_total b' ≤ S (pending_total b))%nat.
Proof.
  intros HW Ho Hocc Hg Hcnt Hlen b'.
  assert (∀ j, (occ b' j ≤ occ b j + (if decide (j = o_id o) then 1 else 0))%nat) as H.
  { intros j. pose proof (occ_set_group b gid g j) as E. specialize (Hcnt j).
    rewrite default_group_count in E. rewrite count_id_cons in Hcnt. unfold b'. lia. }
  split_and!; [|done|].
  - apply WF_set_group; [done..|].
    intros j. fold b'. specialize (H j). pose proof (wf_unique _ HW j). case_decide; subst; lia.
  - pose proof (pending_set_group b gid g) as E. rewrite default_group_length in E. unfold b'. lia.
Qed.

(** The two ways [submit] holds a child: the OTO child slot (a second child
    replaces the first) and the bracket legs. *)
Lemma hold_child_ok o gid b :
  WF b → order_ok o → occ b (o_id o) = 0%nat →
  let g := set_g_pending_child (Some o) (default empty_group (groups b !! gid)) in
  let b' := set_groups (<[gid := g]> (groups b)) b in
  WF b' ∧ (∀ j, (occ b' j ≤ occ b j + (if decide (j = o_id o) then 1 else 0))%nat) ∧
  (pending_total b' ≤ S (pending_total b))%nat.
Proof.
  intros HW Ho Hocc g. pose proof (WF_pending_default b gid HW) as Hp.
  unfold group_pending in Hp. apply Forall_app in Hp as [_ Hp].
  apply (hold_ok o); try done; unfold group_pending; simpl.
  - by constructor.
  - intros j. rewrite !count_id_cons, count_id_app. lia.
  - rewrite length_app. lia.
Qed.

Lemma hold_leg_ok o gid b :
  WF b → order_ok o → occ b (o_id o) = 0%nat →
  let g0 := default empty_group (groups b !! gid) in
  let g := set_g_pending_oco (g_pending_oco g0 ++ [o]) g0 in
  let b' := set_groups (<[gid := g]> (groups b)) b in
  WF b' ∧ (∀ j, (occ b' j ≤ occ b j + (if decide (j = o_id o) then 1 else 0))%nat) ∧
  (pending_total b' ≤ S (pending_total b))%nat.
Proof.
  intros HW Ho Hocc g0 g. pose proof (WF_pending_default b gid HW) as Hp. fold g0 in Hp.
  assert (group_pending g ≡ₚ o :: group_pending g0) as Hg.
  { unfold g, group_pending. simpl. rewrite app_assoc. by rewrite Permutation_app_comm. }
  apply (hold_ok o); try done; fold g0.
  - rewrite Hg. by constructor.
  - intros j. by rewrite Hg.
  - by rewrite Hg.
Qed.

Section dispatch.
Context (submit : Order → Impl → res (SubmitOutcome * Impl)) (n : nat).
Hypothesis submit_ok : ∀ c b,
  WF b → submittable c → occ b (o_id c) = 0%nat → holding c = false → (pending_total b < n)%nat →
  ∃ out b', submit c b = Ok (out, b') ∧ WF b' ∧ worked (o_id c) b b'.

Definition admitted (o : Order) (b b' : Impl) : Prop :=
  (∀ j, (occ b' j ≤ occ b j + (if decide (j = o_id o) then 1 else 0))%nat) ∧
  (pending_total b' ≤ pending_total b + (if holding o then 1 else 0))%nat.

Lemma worked_admitted o b b' : worked (o_id o) b b' → admitted o b b'.
Proof. intros [H P]. split; [done|lia]. Qed.

Lemma submit_stamped_ok o b :
  WF b → (0 < o_qty o → 0 < o_leaves o → order_ok o) → occ b (o_id o) = 0%nat → (pending_total b ≤ n)%nat →
  ∃ out b', submit_stamped submit o b = Ok (out, b') ∧ WF b' ∧ admitted o b b'.
Proof.
  intros HW Hok Hocc Hn. unfold submit_stamped.
  assert (∀ out : SubmitOutcome, ∃ out' b', Ok (out, b) = Ok (out', b') ∧ WF b' ∧ admitted o b b') as Hstay.
  { intros out. exists out, b. split_and!; [done..|]. by apply worked_admitted, calm_worked. }
  case_if; [apply Hstay|]. case_if; [apply Hstay|].
  assert (order_ok o) as Ho by (apply Hok; lia).
  destruct (occ_fresh _ _ Hocc) as [-> ->].
  case_if; [eexists _, _; split; [done|]; destruct (queue_ok true o b HW Ho Hocc); by split; [|apply worked_admitted]|].
  case_if; [eexists _, _; split; [done|]; destruct (queue_ok false o b HW Ho Hocc); by split; [|apply worked_admitted]|].
  cbv zeta.
  match goal with |- context [match o_link o with Some _ => _ | None => ?x end] => set (active := x) end.
  assert (∃ out b', active = Ok (out, b') ∧ WF b' ∧ worked (o_id o) b b') as (out & b' & Hact & HWa & Hwa).
  { unfold active.
    assert (∃ out b', match o_peg o with
      | Some _ => submit_peg o b | None => submit_continuous submit o b end = Ok (out, b') ∧
      WF b' ∧ worked (o_id o) b b') as Hc.
    { destruct (o_peg o) as [pg|] eqn:Ep; [apply submit_peg_ok; try done; by rewrite Ep|].
      by eapply submit_continuous_ok. }
    destruct (o_trigger o) as [t|]; [|done]. case_if; [by apply submit_stop_ok|done]. }
  assert (∃ out b', active = Ok (out, b') ∧ WF b' ∧ admitted o b b') as Hgo
    by (exists out, b'; split_and!; [done..|by apply worked_admitted]).
  unfold admitted, holding in *.
  destruct (o_link o) as [l|]; [|done]. destruct (lk_role l); try done.
  - destruct (hold_child_ok o (lk_group_id l) b HW Ho Hocc) as (? & ? & ?).
    eexists _, _. split; [done|]. split_and!; [done..|lia].
  - destruct (hold_leg_ok o (lk_group_id l) b HW Ho Hocc) as (? & ? & ?).
    eexists _, _. split; [done|]. split_and!; [done..|lia].
  - destruct (hold_leg_ok o (lk_group_id l) b HW Ho Hocc) as (? & ? & ?).
    eexists _, _. split; [done|]. split_and!; [done..|lia].
Qed.
End dispatch.

Lemma stamp_WF o b :
  WF b → let b' := (stamp o b).2 in WF b' ∧ (∀ j, occ b' j = occ b j) ∧ pending_total b' = pending_total b.
Proof.
  intros [HC Hst Hop Hcl Hp Hu] b'. split; [|done]. split; try done. by apply Core_next_seq.
Qed.

Lemma submit_fuel_ok fuel : ∀ o b,
  WF b → submittable o → occ b (o_id o) = 0%nat → (pending_total b < fuel)%nat →
  ∃ out b', submit_fuel fuel o b = Ok (out, b') ∧ WF b' ∧ admitted o b b'.
Proof.
  induction fuel as [|fuel IH]; intros o b HW Hs Hocc Hn; [lia|]. cbn [submit_fuel].
  destruct (stamp_WF o b HW) as (HW1 & Ho1 & Hp1).
  pose proof (stamp_order_ok o b Hs) as Hok. cbv zeta in Hok.
  destruct (Normalize_fields o) as (Hid & _ & Hlk & _).
  destruct (stamp o b) as [o1 b1] eqn:Hst. simpl in *.
  assert (o_id o1 = o_id o ∧ o_link o1 = o_link o) as [Hid1 Hlk1].
  { unfold stamp in Hst. simplify_eq. done. }
  destruct (submit_stamped_ok (submit_fuel fuel) fuel) with (o := o1) (b := b1)
    as (out & b' & -> & HW' & Ha & Hp); try done.
  - intros c b2 HW2 Hs2 Hocc2 Hh Hp2. destruct (IH c b2 HW2 Hs2 Hocc2 Hp2) as (out & b' & -> & HW' & Ha & Hp).
    exists out, b'. split_and!; [done..|]. rewrite Hh in Hp. split; [done|lia].
  - by rewrite Hid1, Ho1.
  - lia.
  - exists out, b'. split_and!; [done..|]. unfold admitted, holding in *. rewrite Hid1, Hlk1 in *.
    split; [|lia]. intros j. rewrite <-Ho1. apply Ha.
Qed.

(** [submit] always returns, and keeps the book well formed. *)
Lemma submit_returns o b :
  WF b → submittable o → occ b (o_id o) = 0%nat →
  ∃ out b', submit o b = Ok (out, b') ∧ WF b' ∧ admitted o b b'.
Proof. intros. apply submit_fuel_ok; [done..|lia]. Qed.

Lemma Core_new policy mem : Core (new_book policy mem).
Proof.
  split; simpl; try (by intros []); try done.
  - intros s p. unfold ladders, level_at.
    assert (at_level (ladder s (new_book policy mem)) p = None) as -> by (by destruct s).
    split_and!; simpl; try done; [constructor|].
    intros i. split; [set_solver|]. intros (e & He & _). by rewrite lookup_empty in He.
Qed.

Lemma WF_new policy mem : WF (new_book policy mem).
Proof.
  split; try done; [apply Core_new|].
  intros i. unfold occ, present. simpl. rewrite !lookup_empty, map_sum_empty. unfold count_id. simpl. lia.
Qed.
