(* ===== verification/BookPriority.v ===== *)
(** * Price-time priority

    A reference matcher, a fold over the opposite side in price-time order, and
    the proof that [match] with its ladder walk, passes and in-place queue
    edits produces exactly its executions whenever the opposite side holds only
    plain orders (not all-or-none, not iceberg, not the aggressor's own under
    self-trade prevention). *)

From S2P Require Import Prelude.
From S2P Require Import Order.
From S2P Require Import Ladder.
From S2P Require Import Book.
From S2P Require Import Replica.
From S2P Require Import BookInv.
From S2P Require Import BookMatch.

(** ** The reference *)
Record Offer := mkOffer {
  of_id : OrderId;
  of_price : Ticks;
  of_qty : Quantity;
}.

(** Serve the offers in order until [q] is gone. *)
Fixpoint serve (q : Quantity) (l : list Offer) : list Offer :=
  match l with
  | [] => []
  | x :: l =>
      if q <=? 0 then []
      else let n := Z.min q (of_qty x) in
           mkOffer (of_id x) (of_price x) n :: serve (q - n) l
  end.

(** The queue of one price. *)
Definition offers_at (m : gmap OrderId Entry) (p : Ticks) (l : list OrderId) : list Offer :=
  (λ i, mkOffer i p (leaves_in m i)) <$> l.

(** Acceptable prices best first, each queue in arrival order. *)
Definition offers (o : Order) (b : Impl) : list Offer :=
  let L := ladder (Opposite (o_side o)) b in
  if negb (has_base L) then []
  else concat ((λ i : nat,
     let p := base L + Z.of_nat i in
     if acceptable o p then offers_at (orders b) p (fifo (level_at L p)) else []) <$> best_first L).

Definition offer_of (t : Trade) : Offer := mkOffer (t_maker_id t) (t_price t) (t_qty t).

(** ** Properties of serve *)
Lemma serve_nonpos q l : q ≤ 0 → serve q l = [].
Proof. intros. destruct l; simpl; [done|]. by rewrite (proj2 (Z.leb_le _ _)). Qed.

Lemma serve_app q l1 l2 :
  0 ≤ q → Forall (λ x, 0 ≤ of_qty x) l1 →
  serve q (l1 ++ l2) = serve q l1 ++ serve (q - zsum of_qty (serve q l1)) l2.
Proof.
  revert q. induction l1 as [|x l1 IH]; intros q Hq Hpos; simpl; [f_equal; lia|].
  apply Forall_cons in Hpos as [Hx Hpos]. case_if; simpl.
  - by rewrite serve_nonpos by lia.
  - rewrite IH by (done || lia). simpl. do 3 f_equal. lia.
Qed.

Lemma serve_le q l : 0 ≤ q → Forall (λ x, 0 ≤ of_qty x) l → 0 ≤ zsum of_qty (serve q l) ≤ q.
Proof.
  revert q. induction l as [|x l IH]; intros q Hq Hpos; simpl; [lia|].
  apply Forall_cons in Hpos as [Hx Hpos]. case_if; simpl; [lia|].
  specialize (IH (q - Z.min q (of_qty x)) ltac:(lia) Hpos). lia.
Qed.

(** ** Plain makers *)
Definition plain (o : Order) (b : Impl) (e : Entry) : Prop :=
  HasFlag (o_flags (e_order e)) kAon = false ∧
  HasFlag (o_flags (e_order e)) kIceberg = false ∧ self_trade o e b = false.

Definition plain_at (o : Order) (b : Impl) (i : OrderId) : Prop :=
  ∀ e, orders b !! i = Some e → plain o b e.

Lemma offers_at_pos m f s p l :
  levels_ok m f → entries_ok m → l = fifo (f s p) → Forall (λ x, 0 ≤ of_qty x) (offers_at m p l).
Proof.
  intros Hl He ->. apply Forall_fmap, Forall_forall. intros i Hi. simpl.
  pose proof (leaves_in_pos _ _ _ _ _ Hl He Hi). lia.
Qed.

Lemma offers_at_ext m m' p l :
  (∀ i, i ∈ l → m' !! i = m !! i) → offers_at m' p l = offers_at m p l.
Proof.
  intros H. apply list_fmap_ext. intros k i Hk. unfold leaves_in.
  rewrite H; [done|]. by eapply list_elem_of_lookup_2.
Qed.

(** ** One level

    From an untouched front of the queue the loop serves it front to back. *)
Lemma match_loop_serve f s p fuel : ∀ m c m',
  MInv f s p m → m_done m = [] → (∀ i, i ∈ m_todo m → plain_at (m_o m) (m_book m) i) →
  match_loop fuel p m = Ok (c, m') →
  c = false ∧ ∃ ts, m_trades m' = m_trades m ++ ts ∧
    offer_of <$> ts = serve (o_leaves (m_o m)) (offers_at (orders (m_book m)) p (m_todo m)).
Proof.
  induction fuel as [|fuel IH]; intros m c m' HI Hdone Hpl Hrun; [done|]. simpl in Hrun.
  unfold match_step in Hrun. destruct (0 <? o_leaves (m_o m)) eqn:Hle; simpl in Hrun; bool_split.
  2:{ simplify_eq. split; [done|]. exists []. rewrite app_nil_r. split; [done|].
      by rewrite serve_nonpos by lia. }
  destruct (m_todo m) as [|mid rest] eqn:Htodo.
  { destruct (m_progressed m); simpl in Hrun.
    - apply IH in Hrun; simpl in *; [|by apply MInv_restart|done|by rewrite Hdone].
      by rewrite Hdone in Hrun.
    - simplify_eq. split; [done|]. exists []. by rewrite app_nil_r. }
  destruct (MInv_maker _ _ _ _ mid HI ltac:(rewrite Htodo; set_solver)) as (me & Hme & Hs & Hp).
  rewrite Hme in Hrun. simpl in Hrun.
  destruct (Hpl mid ltac:(set_solver) me Hme) as (Haon & Hice & Hst). rewrite Hst, Haon in Hrun. simpl in Hrun.
  destruct (fill_step_ok _ _ _ _ _ _ _ HI Hle Htodo Hme Hst) as (m1 & Hstep & HI1 & Hfill).
  pose proof (fill_step_eq p m mid me rest) as (b0 & pos & Hb0 & Heq).
  cbv zeta in Heq. rewrite Hice in Heq. simpl in Heq. rewrite Hstep in Heq.
  rewrite Hstep in Hrun. simpl in Hrun.
  assert (fill_qty (m_o m) me = Z.min (o_leaves (m_o m)) (o_leaves (e_order me))) as Hfq
    by (unfold fill_qty; by rewrite Hice).
  assert (leaves_in (orders (m_book m)) mid = o_leaves (e_order me)) as Hlv by (unfold leaves_in; by rewrite Hme).
  assert (mid ∉ rest) as Hnd.
  { destruct (mi_levels _ _ _ _ HI s p) as (Hnd & _). rewrite override_eq in Hnd. simpl in Hnd.
    rewrite Hdone, Htodo in Hnd. by apply NoDup_cons in Hnd as [? _]. }
  simpl. rewrite (proj2 (Z.leb_gt _ _) Hle). rewrite Hlv, <-Hfq.
  destruct (o_leaves (e_order me) - fill_qty (m_o m) me =? 0) eqn:Hz; bool_split.
  - injection Heq as ->. subst b0.
    apply IH in Hrun; simpl in *; [|done|done|].
    + destruct Hrun as (-> & ts & Htr & Hts). split; [done|].
      exists (mkTrade (o_id (m_o m)) mid (o_side (m_o m)) p (fill_qty (m_o m) me) :: ts).
      rewrite Htr, <-app_assoc. split; [done|]. cbn. unfold offer_of at 1. simpl. f_equal.
      rewrite Hts. f_equal. apply offers_at_ext. intros i Hi.
      rewrite delete_insert_eq, lookup_delete_ne; [done|]. by intros ->.
    + intros i Hi e. simpl. rewrite delete_insert_eq, lookup_delete_ne by (by intros ->). intros He.
      destruct (Hpl i ltac:(set_solver) e He) as (? & ? & ?). by split_and!.
  - (* the maker outlasts the aggressor, which is done *)
    assert (o_leaves (m_o m) - fill_qty (m_o m) me = 0) as Hz0 by lia.
    injection Heq as ->. destruct fuel as [|fuel]; [done|]. simpl in Hrun. unfold match_step in Hrun.
    simpl in Hrun. rewrite Hz0 in Hrun. simpl in Hrun. simplify_eq. split; [done|].
    eexists. simpl. split; [done|]. cbn. by rewrite Hz0, serve_nonpos.
Qed.

Lemma match_level_serve o b s p trades c o' b' tr' :
  Core b → 0 ≤ o_leaves o → (∀ i, i ∈ fifo (level_at (ladder s b) p) → plain_at o b i) →
  match_level o s (level_at (ladder s b) p) p b trades = Ok (c, o', b', tr') →
  c = false ∧ ∃ ts, tr' = trades ++ ts ∧
    offer_of <$> ts = serve (o_leaves o) (offers_at (orders b) p (fifo (level_at (ladder s b) p))).
Proof.
  intros HC Hle Hpl. unfold match_level.
  pose proof (MInv_start b s p o trades HC Hle) as HI. simpl in HI.
  destruct (match_loop _ _ _) as [[c1 m1]|] eqn:Hrun; [|done]. simpl. intros E. simplify_eq.
  destruct (match_loop_serve _ _ _ _ _ _ _ HI eq_refl Hpl Hrun) as (-> & ts & Ht & Hts).
  split; [done|]. by exists ts.
Qed.

(** ** The walk *)
Definition level_offers (o : Order) (b : Impl) (s : Side) (i : nat) : list Offer :=
  let p := base (ladder s b) + Z.of_nat i in
  if acceptable o p then offers_at (orders b) p (fifo (level_at (ladder s b) p)) else [].

Lemma offers_eq o b :
  has_base (ladder (Opposite (o_side o)) b) = true →
  offers o b = concat (level_offers o b (Opposite (o_side o)) <$> best_first (ladder (Opposite (o_side o)) b)).
Proof. intros Hb. unfold offers. by rewrite Hb. Qed.

Lemma concat_nil {A} (l : list (list A)) : (∀ x, x ∈ l → x = []) → concat l = [].
Proof.
  induction l as [|x l IH]; intros H; [done|]. simpl. rewrite (H x) by set_solver. apply IH. set_solver.
Qed.

(** Matching one level leaves the offers of the others alone. *)
Lemma level_offers_frame o b s p o1 b1 ts i :
  Core b → Matched o b ts o1 b1 →
  (∀ q, q ≠ p → level_at (ladder s b1) q = level_at (ladder s b) q) →
  (∀ j, ¬ rests_at (orders b) s p j → orders b1 !! j = orders b !! j) →
  base (ladder s b) + Z.of_nat i ≠ p → level_offers o1 b1 s i = level_offers o b s i.
Proof.
  intros HC HM Hlv Hor Hne. unfold level_offers.
  destruct (mt_shape _ _ _ _ _ HM s) as (_ & -> & _). rewrite Hlv by done.
  rewrite (mt_fill _ _ _ _ _ HM), acceptable_fill. case_if; [|done].
  apply offers_at_ext. intros j Hj. apply Hor. intros (e & He & Hs & Hp).
  apply (core_levels _ HC) in Hj as (e' & He' & _ & Hp'). by simplify_eq.
Qed.

Lemma match_levels_serve s ixs : ∀ o b trades,
  Core b → s = Opposite (o_side o) → 0 ≤ o_leaves o → has_base (ladder s b) = true →
  Forall (λ i, (i < length (levels (ladder s b)))%nat) ixs →
  StronglySorted (λ i j, better s (base (ladder s b) + Z.of_nat i)
                           (base (ladder s b) + Z.of_nat j) = true) ixs →
  (∀ i e, orders b !! i = Some e → o_side (e_order e) = s →
          acceptable o (o_price (e_order e)) = true → plain o b e) →
  ∃ o' b' ts, match_levels ixs s o b trades = Ok (false, o', b', trades ++ ts) ∧
    offer_of <$> ts = serve (o_leaves o) (concat (level_offers o b s <$> ixs)).
Proof.
  induction ixs as [|i ixs IH]; intros o b trades HC Hs Hle Hb Hlen Hsort Hpl; simpl.
  { exists o, b, []. by rewrite app_nil_r. }
  case_if.
  { exists o, b, []. rewrite app_nil_r, serve_nonpos by lia. done. }
  apply Forall_cons in Hlen as [Hi Hlen]. apply StronglySorted_inv in Hsort as [Hsort Hbet].
  rewrite Forall_forall in Hbet.
  pose proof Hi as [lv Hlv]%lookup_lt_is_Some. rewrite Hlv. simpl.
  pose proof (level_at_lookup _ _ _ Hb Hlv) as Hat. set (P := base (ladder s b)) in *.
  pose proof (level_total_zero (orders b) (ladders b) s (P + Z.of_nat i) (core_levels _ HC)
    (core_entries _ HC)) as Hz. unfold ladders in Hz. rewrite Hat in Hz.
  case_if.
  - destruct (IH o b trades) as (o' & b' & ts & -> & Hts); try done.
    exists o', b', ts. split; [done|]. rewrite Hts. f_equal. unfold level_offers at 2. fold P.
    rewrite Hat, (proj1 Hz) by done. by destruct (acceptable o (P + Z.of_nat i)).
  - case_if.
    + exists o, b, []. rewrite app_nil_r. split; [done|].
      unfold level_offers at 1. fold P. rewrite Heqb2. simpl.
      rewrite concat_nil; [done|]. intros x (j & -> & Hj)%list_elem_of_fmap.
      unfold level_offers. fold P. destruct (acceptable o (P + Z.of_nat j)) eqn:Ha; [|done].
      rewrite Hs in Hbet. pose proof (acceptable_better o _ _ (Hbet j Hj) Ha). congruence.
    + assert (populated (ladder s b) (P + Z.of_nat i)) as Hpop.
      { pose proof (level_total_nonneg (orders b) (ladders b) s (P + Z.of_nat i)
          (core_levels _ HC) (core_entries _ HC)) as H. unfold ladders in H.
        unfold populated. rewrite Hat in *. lia. }
      destruct (match_level_ok o b s (P + Z.of_nat i) trades HC Hs Heqb0 Hpop Heqb2)
        as (c & o1 & b1 & ts1 & Hrun & HC1 & HM & _ & _ & Hlv1 & Hor1 & _).
      assert (∀ j, j ∈ fifo (level_at (ladder s b) (P + Z.of_nat i)) → plain_at o b j) as Hpl'.
      { intros j Hj e He. apply (core_levels _ HC) in Hj as (e' & He' & Hs' & Hp').
        rewrite He in He'. simplify_eq. apply (Hpl j e' He Hs'). by rewrite Hp'. }
      destruct (match_level_serve _ _ _ _ _ _ _ _ _ HC Hle Hpl' Hrun) as (-> & ts1' & E & Hts1).
      apply app_inv_head in E as <-. rewrite Hat in Hrun. rewrite Hrun. simpl.
      destruct (mt_shape _ _ _ _ _ HM s) as (Hb1 & Hbase1 & Hlen1).
      pose proof (mt_fill _ _ _ _ _ HM) as Hfill.
      assert (∀ j, j ∈ ixs → P + Z.of_nat j ≠ P + Z.of_nat i) as Hdiff.
      { intros j Hj E. specialize (Hbet j Hj). by rewrite E, better_irrefl in Hbet. }
      destruct (IH o1 b1 (trades ++ ts1)) as (o' & b' & ts & -> & Hts); try done.
      { by rewrite Hfill. }
      { apply HM. }
      { by rewrite Hb1. }
      { by rewrite Hlen1. }
      { by rewrite Hbase1. }
      { intros j e He Hsd Ha. pose proof (mt_makers _ _ _ _ _ HM j) as Hmk. rewrite He in Hmk.
        destruct (orders b !! j) as [e0|] eqn:He0; [|done]. destruct Hmk as (_ & _ & r & Ee).
        rewrite Ee in Hsd, Ha. rewrite Hfill in Ha |- *.
        destruct (Hpl j e0 He0 Hsd Ha) as (A1 & A2 & A3). unfold plain. rewrite Ee. split_and!; try done.
        rewrite <-A3. apply self_trade_ext; [apply HM|done|by rewrite Ee]. }
      exists o', b', (ts1 ++ ts). rewrite app_assoc, fmap_app. split; [done|].
      rewrite Hts, Hts1.
      assert (level_offers o1 b1 s <$> ixs = level_offers o b s <$> ixs) as ->.
      { apply list_fmap_ext. intros k j Hk. eapply level_offers_frame; try done.
        apply Hdiff. by eapply list_elem_of_lookup_2. }
      assert (level_offers o b s i =
        offers_at (orders b) (P + Z.of_nat i) (fifo (level_at (ladder s b) (P + Z.of_nat i)))) as ->.
      { unfold level_offers. fold P. by rewrite Heqb2. }
      rewrite serve_app; [|done|by eapply (offers_at_pos _ (ladders b) s); try apply HC].
      do 2 f_equal. rewrite <-Hts1, Hfill. simpl. f_equal.
      clear. induction ts1; simpl; [done|]. rewrite IHts1. done.
Qed.

(** [match] is the reference matcher. *)
Lemma match_serve o b trades :
  Core b → 0 ≤ o_leaves o →
  (∀ i e, orders b !! i = Some e → o_side (e_order e) = Opposite (o_side o) →
          acceptable o (o_price (e_order e)) = true → plain o b e) →
  ∃ o' b' ts, match_ o b trades = Ok (false, o', b', trades ++ ts) ∧
    offer_of <$> ts = serve (o_leaves o) (offers o b).
Proof.
  intros HC Hle Hpl. unfold match_. set (s := Opposite (o_side o)).
  destruct (has_base (ladder s b)) eqn:Hb; simpl.
  - rewrite offers_eq by done. fold s. apply match_levels_serve; try done.
    + apply Forall_forall. intros i. apply best_first_elem.
    + apply StronglySorted_intro. intros pre i post j E Hj.
      pose proof (best_first_sorted _ _ _ _ _ E Hj) as H. by rewrite (core_side _ HC s) in H.
  - exists o, b, []. rewrite app_nil_r. split; [done|]. unfold offers. fold s. by rewrite Hb.
Qed.

(** The condition of [match_serve], decided. *)
Definition plain_makers (o : Order) (b : Impl) : bool :=
  forallb (λ x : OrderId * Entry,
    let e := x.2 in
    implb (bool_decide (o_side (e_order e) = Opposite (o_side o)) && acceptable o (o_price (e_order e)))
      (negb (HasFlag (o_flags (e_order e)) kAon) && negb (HasFlag (o_flags (e_order e)) kIceberg) &&
       negb (self_trade o e b))) (map_to_list (orders b)).

Lemma plain_makers_spec o b :
  plain_makers o b = true →
  ∀ i e, orders b !! i = Some e → o_side (e_order e) = Opposite (o_side o) →
         acceptable o (o_price (e_order e)) = true → plain o b e.
Proof.
  intros H i e He Hs Ha. unfold plain_makers in H. rewrite forallb_forall in H.
  specialize (H (i, e)). rewrite <-list_elem_of_In, elem_of_map_to_list in H. specialize (H He).
  simpl in H. rewrite bool_decide_true, Ha in H by done. simpl in H. bool_split. by split_and!.
Qed.
