(* ===== verification/BookPegs.v ===== *)
(** * Pegged orders track their reference

    Repricing moves every pegged order to the price its specification derives
    from the non-pegged quotes, and moving pegged orders never changes those
    quotes, so one pass over the pegged orders reaches the fixed point. *)

From S2P Require Import Prelude.
From S2P Require Import Order.
From S2P Require Import Ladder.
From S2P Require Import Book.
From S2P Require Import Replica.
From S2P Require Import BookInv.
From S2P Require Import BookMatch.
From S2P Require Import BookRest.
From S2P Require Import BookFlow.

(** A non-pegged order rests at [p]. *)
Definition quoted (b : Impl) (s : Side) (p : Ticks) : Prop :=
  ∃ i e, orders b !! i = Some e ∧ o_side (e_order e) = s ∧ o_price (e_order e) = p ∧
         o_peg (e_order e) = None.

Lemma has_nonpeg_quoted b s p :
  Core b → has_nonpeg b (level_at (ladder s b) p) = true ↔ quoted b s p.
Proof.
  intros HC. unfold has_nonpeg. rewrite existsb_exists. split.
  - intros (i & Hi%list_elem_of_In & Hn).
    apply (core_levels _ HC) in Hi as (e & He & Hs & Hp). rewrite He in Hn.
    exists i, e. by destruct (o_peg (e_order e)).
  - intros (i & e & He & Hs & Hp & Hn). exists i. rewrite He, Hn. split; [|done].
    apply list_elem_of_In. apply (core_levels _ HC). by exists e.
Qed.

Lemma quoted_level b s p :
  Core b → (has_qty (level_at (ladder s b) p) && has_nonpeg b (level_at (ladder s b) p) = true) ↔
  quoted b s p.
Proof.
  intros HC. rewrite andb_true_iff, has_nonpeg_quoted by done. split; [tauto|]. intros Hq. split; [|done].
  destruct Hq as (i & e & He & <- & <- & _). destruct (Core_populated _ _ _ HC He) as [_ Hpop].
  unfold populated in Hpop. unfold has_qty. lia.
Qed.

Lemma quoted_covers b s p : Core b → quoted b s p → covers (ladder s b) p = true.
Proof.
  intros HC (i & e & He & <- & <- & _). destruct (Core_populated _ _ _ HC He) as [_ Hpop].
  by apply populated_covers.
Qed.

(** [reference_best] is the best price quoted by non-pegged orders. *)
Lemma reference_best_spec b s p :
  Core b → reference_best s b = Some p ↔
    quoted b s p ∧ ∀ q, quoted b s q → better s q p = false.
Proof.
  intros HC. unfold reference_best. destruct (has_base (ladder s b)) eqn:Hb; simpl.
  2:{ split; [done|]. intros [Hq%(quoted_covers _ _ _ HC) _]. apply covers_spec in Hq as [? _]. congruence. }
  set (f := λ lv, has_qty lv && has_nonpeg b lv).
  assert (∀ q, f (level_at (ladder s b) q) = true ↔ quoted b s q) as Hf by (intros; by apply quoted_level).
  destruct (scan f (ladder s b) (best_first (ladder s b))) as [r|] eqn:Hscan.
  - destruct (scan_best_first_Some f _ _ Hb Hscan) as (Hc & Hr & Hbest). rewrite (core_side _ HC s) in Hbest.
    assert (quoted b s r) as Hqr by (by apply Hf).
    assert (∀ q, quoted b s q → better s q r = false) as Hbr.
    { intros q Hq. apply Hbest; [by apply quoted_covers|by apply Hf]. }
    split; [intros E; by simplify_eq|]. intros [Hq Hbp]. f_equal. apply (better_total s); auto.
  - split; [done|]. intros [Hq _]. pose proof (quoted_covers _ _ _ HC Hq) as Hc.
    pose proof (scan_best_first_None f _ _ Hscan Hc) as Hn. apply Hf in Hq. congruence.
Qed.

Lemma reference_best_ext b b' s :
  Core b → Core b' → (∀ p, quoted b s p ↔ quoted b' s p) → reference_best s b' = reference_best s b.
Proof.
  intros HC HC' H. apply option_eq. intros p. rewrite !reference_best_spec by done.
  rewrite <-H. split; intros [? Hb]; (split; [done|]); intros q; [rewrite H|rewrite <-H]; apply Hb.
Qed.

Lemma compute_peg_price_ext b b' o :
  Core b → Core b' → (∀ s p, quoted b s p ↔ quoted b' s p) →
  compute_peg_price o b' = compute_peg_price o b.
Proof. intros HC HC' H. unfold compute_peg_price. by rewrite !(reference_best_ext b b') by done. Qed.

(** Moving a pegged order changes no quote. *)
Lemma move_pegged_quoted b b' i e e' :
  orders b !! i = Some e → is_Some (o_peg (e_order e)) → o_peg (e_order e') = o_peg (e_order e) →
  orders b' = <[i := e']> (orders b) → ∀ s p, quoted b s p ↔ quoted b' s p.
Proof.
  intros Hi [pg Hp] Hp' Hor s p. unfold quoted. rewrite Hor. split.
  - intros (j & f & Hj & ? & ? & Hn). exists j, f. rewrite lookup_insert_ne; [done|]. intros ->. congruence.
  - intros (j & f & [[<- <-]|[_ Hj]]%lookup_insert_Some & ? & ? & Hn); [congruence|]. by exists j, f.
Qed.

(** ** The price a peg asks for

    Stated from the documentation of [PegSpec], over the quotes of non-pegged
    orders: the same-side best, the opposite best or their midpoint, plus the
    offset, not beyond the protective limit. *)
Definition best_quote (b : Impl) (s : Side) (p : Ticks) : Prop :=
  quoted b s p ∧ ∀ q, quoted b s q → match s with Buy => q ≤ p | Sell => p ≤ q end.

(** Half of the sum, rounded towards zero. *)
Definition midpoint (vb va r : Ticks) : Prop :=
  if decide (0 ≤ vb + va) then 2 * r ≤ vb + va ≤ 2 * r + 1 else 2 * r - 1 ≤ vb + va ≤ 2 * r.

Definition peg_reference (b : Impl) (s : Side) (ref : PegRef) (r : Ticks) : Prop :=
  match ref with
  | RPrimary => best_quote b s r
  | RMarket => best_quote b (Opposite s) r
  | RMidpoint => ∃ vb va, best_quote b Buy vb ∧ best_quote b Sell va ∧ midpoint vb va r
  end.

(** [p] is [want], or the limit when there is one and [want] is beyond it. *)
Definition protected (s : Side) (cap want p : Ticks) : Prop :=
  if decide (0 < cap)
  then (p = want ∨ p = cap) ∧ match s with Buy => p ≤ want ∧ p ≤ cap | Sell => want ≤ p ∧ cap ≤ p end
  else p = want.

Definition peg_target (b : Impl) (o : Order) (p : Ticks) : Prop :=
  ∃ pg r, o_peg o = Some pg ∧ peg_reference b (o_side o) (pg_ref pg) r ∧
    protected (o_side o) (pg_cap_limit pg) (r + pg_offset pg) p ∧ 0 < p.

Lemma reference_best_quote b s p : Core b → reference_best s b = Some p ↔ best_quote b s p.
Proof.
  intros HC. rewrite reference_best_spec by done. unfold best_quote.
  split; intros [Hq H]; (split; [done|]); intros q Hq'; specialize (H q Hq'); destruct s; simpl in *; lia.
Qed.

Lemma peg_reference_spec b s ref r :
  Core b →
  match ref with
  | RPrimary => match s with Buy => reference_best Buy b | Sell => reference_best Sell b end
  | RMarket => match s with Buy => reference_best Sell b | Sell => reference_best Buy b end
  | RMidpoint => vb ← reference_best Buy b; va ← reference_best Sell b; Some (Z.quot (vb + va) 2)
  end = Some r ↔ peg_reference b s ref r.
Proof.
  intros HC. destruct ref; simpl; [by destruct s; apply reference_best_quote..|].
  rewrite bind_Some. split.
  - intros (vb & Hb & (va & Ha & [= <-])%bind_Some). exists vb, va.
    split_and!; [by apply reference_best_quote..|]. unfold midpoint. case_decide; Z.to_euclidean_division_equations; lia.
  - intros (vb & va & Hb & Ha & Hm). exists vb. split; [by apply reference_best_quote|].
    apply bind_Some. exists va. split; [by apply reference_best_quote|]. f_equal.
    unfold midpoint in Hm. case_decide; Z.to_euclidean_division_equations; lia.
Qed.

(** The code computes the price of the specification. *)
Lemma compute_peg_price_spec b o p : Core b → compute_peg_price o b = Some p ↔ peg_target b o p.
Proof.
  intros HC. unfold compute_peg_price, peg_target. rewrite bind_Some.
  split.
  - intros (pg & Hpg & (r & Hr%peg_reference_spec & Hp)%bind_Some); [|done].
    destruct (Z.leb_spec (if 0 <? pg_cap_limit pg then match o_side o with
      | Buy => (r + pg_offset pg) `min` pg_cap_limit pg | Sell => (r + pg_offset pg) `max` pg_cap_limit pg end
      else r + pg_offset pg) 0) as [|Hpos]; [done|]. injection Hp as Hp. rewrite Hp in Hpos.
    exists pg, r. split_and!; [done..| |done]. unfold protected.
    destruct (Z.ltb_spec 0 (pg_cap_limit pg)); case_decide; try lia; destruct (o_side o); lia.
  - intros (pg & r & Hpg & Hr & Hp & Hpos). exists pg. split; [done|]. apply bind_Some. exists r.
    split; [by apply peg_reference_spec|]. unfold protected in Hp.
    assert ((if 0 <? pg_cap_limit pg then match o_side o with
      | Buy => (r + pg_offset pg) `min` pg_cap_limit pg | Sell => (r + pg_offset pg) `max` pg_cap_limit pg end
      else r + pg_offset pg) = p) as ->.
    { destruct (Z.ltb_spec 0 (pg_cap_limit pg)); case_decide; try lia; destruct (o_side o); lia. }
    by destruct (Z.leb_spec p 0); [lia|].
Qed.

(** An order sits where its peg says, or its reference gives no price. *)
Definition tracks (b : Impl) (i : OrderId) : Prop :=
  ∀ e, orders b !! i = Some e →
    peg_target b (e_order e) (o_price (e_order e)) ∨ ∀ p, ¬ peg_target b (e_order e) p.

Lemma tracks_computed b i e :
  Core b → orders b !! i = Some e →
  compute_peg_price (e_order e) b = None ∨ compute_peg_price (e_order e) b = Some (o_price (e_order e)) →
  tracks b i.
Proof.
  intros HC He H e' He'. simplify_eq. destruct H as [H|H]; [right|left; by apply compute_peg_price_spec].
  intros p Hp%compute_peg_price_spec; [|done]. congruence.
Qed.

Lemma peg_target_ext b b' o p :
  Core b → Core b' → (∀ s p, quoted b s p ↔ quoted b' s p) → peg_target b o p ↔ peg_target b' o p.
Proof. intros HC HC' H. rewrite <-!compute_peg_price_spec by done. by rewrite (compute_peg_price_ext b b'). Qed.

(** Repricing changes an order's price and rank only. *)
Definition peg_moved (b b' : Impl) (i : OrderId) : Prop :=
  match orders b !! i, orders b' !! i with
  | Some e, Some e' => e' = e ∨ ∃ np rk, e' = repriced np rk e
  | None, None => True
  | _, _ => False
  end.

Record Repriced (b : Impl) (i : OrderId) (b' : Impl) : Prop := mkRepriced {
  rp_core : Core b';
  rp_pegged : pegged b' = pegged b;
  rp_quoted : ∀ s p, quoted b s p ↔ quoted b' s p;
  rp_tracks : tracks b' i;
  rp_other : ∀ j, j ≠ i → orders b' !! j = orders b !! j;
  rp_moved : peg_moved b b' i;
}.

Lemma compute_peg_price_reprice b o np rk :
  compute_peg_price (set_o_rank rk (set_o_price np o)) b = compute_peg_price o b.
Proof. done. Qed.

Lemma reprice_one_tracks b i :
  Core b → i ∈ pegged b → ∃ b', reprice_one b i = Ok b' ∧ Repriced b i b'.
Proof.
  intros HC Hi. destruct (core_pegged _ HC i Hi) as (e & He & Hpg). unfold reprice_one. rewrite He.
  destruct (compute_peg_price (e_order e) b) as [np|] eqn:Hc.
  - case_if.
    + destruct (move_pegged_ok i e np b HC He) as (b' & -> & HC' & _ & Hor & Hp).
      pose proof (move_pegged_quoted b b' i e (repriced np (next_seq b) e) He Hpg eq_refl Hor) as Hq.
      exists b'. split; [done|]. split; try done.
      * apply (tracks_computed b' i (repriced np (next_seq b) e)); [done|by rewrite Hor, lookup_insert_eq|right].
        rewrite (compute_peg_price_ext b b') by done. exact Hc.
      * intros j Hj. by rewrite Hor, lookup_insert_ne.
      * unfold peg_moved. rewrite Hor, He, lookup_insert_eq. eauto.
    + exists b. split; [done|]. split; try done; [|unfold peg_moved; rewrite He; auto].
      apply (tracks_computed b i e); [done..|]. right. bool_split. congruence.
  - exists b. split; [done|]. split; try done; [|unfold peg_moved; rewrite He; auto].
    apply (tracks_computed b i e); auto.
Qed.

Lemma reprice_pegs_tracks b :
  Core b → ∃ b', reprice_pegs b = Ok b' ∧ Core b' ∧ pegged b' = pegged b ∧
    (∀ i, i ∈ pegged b' → tracks b' i) ∧
    (∀ s p, quoted b s p ↔ quoted b' s p) ∧
    (∀ i, i ∈ pegged b → peg_moved b b' i) ∧ ∀ i, i ∉ pegged b → orders b' !! i = orders b !! i.
Proof.
  intros HC. unfold reprice_pegs.
  destruct (sort_pegged_ok b (elements (pegged b))) as (ids & -> & Hperm).
  { intros i Hi%elem_of_elements. destruct (core_pegged _ HC i Hi) as (e & He & _). by rewrite He. }
  cbn.
  assert (NoDup ids) as Hnd by (rewrite Hperm; apply NoDup_elements).
  assert (∀ i, i ∈ ids ↔ i ∈ pegged b) as Hids by (intros; by rewrite Hperm, elem_of_elements).
  destruct (res_foldl_inv reprice_one (λ b' l, Core b' ∧ pegged b' = pegged b ∧ NoDup l ∧
      (∀ i, i ∈ l → i ∈ pegged b) ∧
      (∀ i, i ∈ pegged b → i ∉ l → tracks b' i) ∧ (∀ s p, quoted b s p ↔ quoted b' s p) ∧
      (∀ i, i ∈ pegged b → i ∉ l → peg_moved b b' i) ∧ ∀ i, i ∉ pegged b ∨ i ∈ l → orders b' !! i = orders b !! i))
    with (l := ids) (acc := b) as (b' & Hrun & HC' & Hp' & _ & _ & Ht & Hq & Hm & Hs).
  - intros b1 i l (HC1 & Hp1 & Hnd1 & Hin1 & Ht1 & Hq1 & Hm1 & Hs1). apply NoDup_cons in Hnd1 as [Hi Hnd1].
    destruct (reprice_one_tracks b1 i HC1) as (b2 & -> & [HC2 Hp2 Hq2 Ht2 Ho2 Hm2]).
    { rewrite Hp1. apply Hin1. set_solver. }
    exists b2. split_and!; [done|done|congruence|done|set_solver| | | |].
    + intros j Hj Hjl. destruct (decide (j = i)) as [->|Hne]; [done|].
      intros e. rewrite Ho2 by done. intros He. setoid_rewrite <-(peg_target_ext b1 b2); [|done..].
      apply (Ht1 j); [done|set_solver|done].
    + intros s p. rewrite Hq1. apply Hq2.
    + intros j Hj Hjl. unfold peg_moved in *. destruct (decide (j = i)) as [->|Hne].
      * by rewrite (Hs1 i) in Hm2 by set_solver.
      * rewrite Ho2 by done. apply Hm1; [done|set_solver].
    + intros j Hj. destruct (decide (j = i)) as [->|Hne]; [|rewrite Ho2 by done; apply Hs1; set_solver].
      exfalso. destruct Hj as [Hj|Hj]; [|done]. apply Hj, Hin1. set_solver.
  - split_and!; try done; [by intros i; rewrite Hids|..]; intros i Hi Hn; by rewrite Hids in Hn.
  - exists b'. split_and!; try done.
    + intros i Hi. apply Ht; [by rewrite <-Hp'|set_solver].
    + intros i Hi. apply Hm; [done|set_solver].
    + auto.
Qed.
