(* ===== verification/BookDepth.v ===== *)
(** * Depth, quotes and the feed

    The running totals of a level are the sums over the orders resting there,
    the quotes are the best of their prices, the liquidity check of
    all-or-none orders adds up the acceptable levels, and the replica that
    replays the event feed shows the same depth. *)

From S2P Require Import Prelude.
From S2P Require Import Order.
From S2P Require Import Ladder.
From S2P Require Import Book.
From S2P Require Import Replica.
From S2P Require Import BookInv.
From S2P Require Import BookMatch.
From S2P Require Import BookPriority.

(** ** Levels as sums over the order map *)
Definition resting_qty (f : Entry → Quantity) (s : Side) (p : Ticks) (e : Entry) : Quantity :=
  if bool_decide (o_side (e_order e) = s) && (o_price (e_order e) =? p) then f e else 0.

Definition depth (f : Entry → Quantity) (m : gmap OrderId Entry) (s : Side) (p : Ticks) : Quantity :=
  map_zsum (resting_qty f s p) m.

Lemma resting_qty_at f s p e :
  o_side (e_order e) = s → o_price (e_order e) = p → resting_qty f s p e = f e.
Proof. intros <- <-. unfold resting_qty. by rewrite bool_decide_true, Z.eqb_refl. Qed.

Lemma depth_queue f s p l : ∀ m,
  NoDup l → (∀ i, i ∈ l ↔ rests_at m s p i) →
  zsum (λ i, from_option f 0 (m !! i)) l = depth f m s p.
Proof.
  induction l as [|i l IH]; intros m Hnd Hin; unfold depth in *; simpl.
  - rewrite (map_zsum_ext _ (λ _, 0)).
    + induction m as [|k v m Hk IHm] using map_ind; [by rewrite map_zsum_empty|].
      rewrite map_zsum_insert by done. rewrite <-IHm; [done|].
      intros i. split; [set_solver|]. intros (e & He & ?). apply Hin. exists e.
      rewrite lookup_insert_ne; [done|]. intros <-. congruence.
    + intros k e Hk. unfold resting_qty. case_bool_decide as Hs; simpl; [|done].
      case_if; [|done]. assert (k ∈ @nil OrderId); [apply Hin; by exists e|set_solver].
  - apply NoDup_cons in Hnd as [Hi Hnd]. destruct (proj1 (Hin i) ltac:(set_solver)) as (e & He & Hs & Hp).
    pose proof (map_zsum_delete (resting_qty f s p) m i) as Hd. rewrite He in Hd. simpl in Hd.
    rewrite (resting_qty_at f s p e Hs Hp) in Hd. rewrite He. simpl.
    rewrite <-(IH (delete i m)) in Hd; [|done|].
    + rewrite <-(zsum_ext (λ j, from_option f 0 (m !! j))) in Hd; [lia|].
      intros j Hj. rewrite lookup_delete_ne; [done|]. by intros ->.
    + intros j. unfold rests_at. destruct (decide (j = i)) as [->|Hne].
      * rewrite lookup_delete_eq. split; [done|]. by intros (? & ? & _).
      * rewrite lookup_delete_ne by done. fold (rests_at m s p j). rewrite <-Hin. set_solver.
Qed.

Lemma level_depth b s p :
  Core b → total (level_at (ladder s b) p) = depth (λ e, o_leaves (e_order e)) (orders b) s p ∧
           displayed (level_at (ladder s b) p) = depth e_disp (orders b) s p.
Proof.
  intros HC. destruct (core_levels _ HC s p) as (Hnd & Hin & Ht & Hd). unfold ladders in *.
  rewrite Ht, Hd. split; by apply depth_queue.
Qed.

Lemma total_qty_at_level s p b : total_qty_at s p b = total (level_at (ladder s b) p).
Proof. unfold total_qty_at, level_at. by destruct (at_level (ladder s b) p). Qed.
Lemma displayed_qty_at_level s p b : displayed_qty_at s p b = displayed (level_at (ladder s b) p).
Proof. unfold displayed_qty_at, level_at. by destruct (at_level (ladder s b) p). Qed.

(** ** Quotes *)
Definition best_resting (b : Impl) (s : Side) (p : Ticks) : Prop :=
  (∃ i, rests_at (orders b) s p i) ∧
  ∀ i e, orders b !! i = Some e → o_side (e_order e) = s → better s (o_price (e_order e)) p = false.

Lemma populated_rests b s p : Core b → populated (ladder s b) p ↔ ∃ i, rests_at (orders b) s p i.
Proof.
  intros HC. split.
  - intros Hpop. unfold populated in Hpop.
    pose proof (level_total_zero _ _ s p (core_levels _ HC) (core_entries _ HC)) as Hz. unfold ladders in Hz.
    destruct (fifo (level_at (ladder s b) p)) as [|i l] eqn:E; [rewrite (proj2 Hz eq_refl) in Hpop; lia|].
    exists i. apply (core_levels _ HC). unfold ladders. rewrite E. set_solver.
  - intros (i & e & He & <- & <-). by destruct (Core_populated _ _ _ HC He).
Qed.

Lemma best_quote b s p : Core b → (best (ladder s b)).1 = Some p ↔ best_resting b s p.
Proof.
  intros HC. destruct (best_spec (ladder s b) (core_ladder _ HC s) (core_cache _ HC s)) as (Hb & _).
  rewrite Hb. unfold is_best, best_resting. rewrite populated_rests by done. rewrite (core_side _ HC s).
  split; intros [H1 H2]; (split; [done|]).
  - intros i e He Hs. apply H2, populated_rests; [done|]. by exists i, e.
  - intros q (i & e & He & Hs & <-)%populated_rests; [|done]. by apply (H2 i).
Qed.

(** ** The feed *)
Lemma agg_view f g (m : gmap OrderId Entry) s p :
  (∀ e, f (view e) = g e) → agg f (view <$> m) s p = depth g m s p.
Proof.
  intros H. unfold agg, depth. rewrite map_zsum_fmap. apply map_zsum_ext. intros i e _.
  unfold at_price, resting_qty. simpl. by rewrite H.
Qed.

Lemma feed_depth b s p :
  Core b → event_sink_ b = true → mem_levels b = 0%nat →
  side_map (replay (emitted b)) s !! p = stored (total_qty_at s p b) ∧
  disp_map (replay (emitted b)) s !! p = stored (displayed_qty_at s p b) ∧
  r_orders (replay (emitted b)) = view <$> orders b.
Proof.
  intros HC Hsink Hmem. destruct (core_feed _ HC Hsink Hmem) as [Hco Hview].
  destruct (replay_ok _ Hco) as [_ Hd]. destruct (Hd s p) as [H1 H2].
  rewrite replay_orders, <-Hview in *. rewrite total_qty_at_level, displayed_qty_at_level.
  destruct (level_depth b s p HC) as [-> ->].
  rewrite (agg_view _ (λ e, o_leaves (e_order e))) in H1 by done.
  by rewrite (agg_view _ e_disp) in H2 by done.
Qed.

(** ** The all-or-none liquidity check *)
Lemma zsum_concat {A} (f : A → Z) (l : list (list A)) : zsum f (concat l) = zsum (zsum f) l.
Proof. induction l as [|x l IH]; simpl; [done|]. by rewrite zsum_app, IH. Qed.

Lemma offers_at_total b s p :
  Core b → zsum of_qty (offers_at (orders b) p (fifo (level_at (ladder s b) p))) = total (level_at (ladder s b) p).
Proof.
  intros HC. destruct (core_levels _ HC s p) as (_ & _ & Ht & _). unfold ladders in Ht. rewrite Ht.
  clear Ht. unfold offers_at. induction (fifo (level_at (ladder s b) p)) as [|i l IH]; cbn; [done|]. f_equal. exact IH.
Qed.

Lemma available_levels_ok o b s ixs : ∀ avail,
  Core b → s = Opposite (o_side o) → has_base (ladder s b) = true →
  Forall (λ i, (i < length (levels (ladder s b)))%nat) ixs →
  StronglySorted (λ i j, better s (base (ladder s b) + Z.of_nat i)
                           (base (ladder s b) + Z.of_nat j) = true) ixs →
  Z.min (available_levels o (ladder s b) ixs avail) (o_leaves o) =
  Z.min (avail + zsum of_qty (concat (level_offers o b s <$> ixs))) (o_leaves o).
Proof.
  induction ixs as [|i ixs IH]; intros avail HC Hs Hb Hlen Hsort; simpl; [f_equal; lia|].
  apply Forall_cons in Hlen as [Hi Hlen]. apply StronglySorted_inv in Hsort as [Hsort Hbet].
  rewrite Forall_forall in Hbet. set (P := base (ladder s b)) in *.
  pose proof Hi as [lv Hlv]%lookup_lt_is_Some. rewrite Hlv. simpl.
  pose proof (level_at_lookup _ _ _ Hb Hlv) as Hat. fold P in Hat.
  assert (∀ l, Forall (λ j, (j < length (levels (ladder s b)))%nat) l →
    0 ≤ zsum of_qty (concat (level_offers o b s <$> l))) as Hnn.
  { intros l _. rewrite zsum_concat. apply zsum_nonneg. intros x (j & -> & _)%list_elem_of_fmap.
    unfold level_offers. case_if; [|done]. rewrite offers_at_total by done.
    apply (level_total_nonneg (orders b) (ladders b) s); apply HC. }
  rewrite zsum_app. fold (level_offers o b s <$> ixs).
  assert (zsum of_qty (level_offers o b s i) =
    if acceptable o (P + Z.of_nat i) then total lv else 0) as Ei.
  { unfold level_offers. fold P. case_if; [|done]. by rewrite offers_at_total, Hat. }
  assert (0 ≤ total lv) as Ht.
  { rewrite <-Hat. apply (level_total_nonneg (orders b) (ladders b) s); apply HC. }
  rewrite Ei. specialize (Hnn ixs Hlen). case_if; [case_if; lia|].
  destruct (acceptable o (P + Z.of_nat i)) eqn:Ha; simpl.
  - rewrite andb_true_r, andb_false_r. case_if; rewrite IH by done; f_equal; lia.
  - rewrite andb_false_r, andb_true_r. case_if; [|rewrite IH by done; f_equal; lia].
    rewrite (concat_nil (level_offers o b s <$> ixs)); [simpl; f_equal; lia|].
    intros x (j & -> & Hj)%list_elem_of_fmap. unfold level_offers. fold P.
    destruct (acceptable o (P + Z.of_nat j)) eqn:Haj; [|done].
    rewrite Hs in Hbet. pose proof (acceptable_better o _ _ (Hbet j Hj) Haj). congruence.
Qed.

Lemma available_fill_offers o b :
  Core b → 0 ≤ o_leaves o → available_fill o b = Z.min (zsum of_qty (offers o b)) (o_leaves o).
Proof.
  intros HC Hle. unfold available_fill. set (s := Opposite (o_side o)).
  destruct (has_base (ladder s b)) eqn:Hb; simpl.
  - rewrite offers_eq by done. fold s. rewrite (available_levels_ok o b s); try done.
    + apply Forall_forall. intros i. apply best_first_elem.
    + apply StronglySorted_intro. intros pre i post j E Hj.
      pose proof (best_first_sorted _ _ _ _ _ E Hj) as H. by rewrite (core_side _ HC s) in H.
  - unfold offers. fold s. rewrite Hb. simpl. lia.
Qed.
