(* ===== verification/Sample.v ===== *)
(** * A worked book

    A small session used as the concrete input of the witnesses: two asks, two
    bids, a trade, a parked stop and two queued auction orders. *)

From S2P Require Import Prelude.
From S2P Require Import Order.
From S2P Require Import Ladder.
From S2P Require Import Book.
From S2P Require Import Replica.
From S2P Require Import BookInv.
From S2P Require Import BookMatch.
From S2P Require Import BookRest.
From S2P Require Import BookFlow.
From S2P Require Import BookAuction.
From S2P Require Import BookSubmit.

(** A limit order with the usual fields. *)
Definition limit (i : OrderId) (c : ClientId) (s : Side) (p : Ticks) (q : Quantity)
    (t : Tif) (fl : Z) : Order :=
  mkOrder i c s Limit t fl p q 0 0 0 0 0 0 0 0 None None None.

(** The state after a call, unchanged if the call fails. *)
Definition after {A} (b : Impl) (r : res (A * Impl)) : Impl :=
  match r with Ok (_, b') => b' | Err _ => b end.

Fixpoint submit_all (b : Impl) (l : list Order) : Impl :=
  match l with
  | [] => b
  | o :: l => submit_all (after b (submit o b)) l
  end.

Definition start : Impl := set_event_sink true (set_symbol "XYZ" (new_book kCancelResting 0)).

Definition ask1 : Order := limit 1 7 Sell 100 10 GTC 0.
Definition ask2 : Order := limit 2 8 Sell 101 5 GTC (flag_bit kIceberg).
Definition bid1 : Order := limit 3 9 Buy 98 6 GTC 0.
Definition bid2 : Order := limit 4 9 Buy 100 4 GTC 0.
Definition stop1 : Order := set_o_trigger (Some (mkTrigger KStop 105 0 0 false)) (limit 5 9 Buy 110 3 GTC 0).
Definition moo1 : Order := limit 6 7 Buy 102 8 GTC (flag_bit kLoo).
Definition moo2 : Order := limit 7 8 Sell 99 5 GTC (flag_bit kLoo).

Definition sample : Impl := submit_all start [ask1; ask2; bid1; bid2; stop1; moo1; moo2].

Lemma start_WF : WF start.
Proof.
  pose proof (WF_new kCancelResting 0) as [[H1 H2 H3 H4 H5 H6 _] ? ? ? ? ?]. by split.
Qed.

(** Fresh submittable orders keep a book well formed. *)
Lemma submit_all_WF l : ∀ b,
  WF b → Forall submittable l → NoDup (o_id <$> l) → (∀ o, o ∈ l → occ b (o_id o) = 0%nat) →
  WF (submit_all b l).
Proof.
  induction l as [|o l IH]; intros b HW Hs Hnd Hocc; [done|].
  apply Forall_cons in Hs as [Ho Hs]. rewrite fmap_cons, NoDup_cons in Hnd. destruct Hnd as [Hn Hnd].
  cbn [submit_all].
  destruct (submit_returns o b HW Ho) as (out & b' & Hr & HW' & Ha & _); [apply Hocc; set_solver|].
  rewrite Hr. cbn [after]. apply IH; try done. intros o' Ho'. specialize (Ha (o_id o')).
  rewrite decide_False in Ha; [|intros E; destruct Hn; rewrite <-E; by apply list_elem_of_fmap_2].
  rewrite Hocc in Ha by set_solver. lia.
Qed.

Lemma limit_submittable i c s p q t fl :
  HasFlag fl kHidden && HasFlag fl kIceberg = false → submittable (limit i c s p q t fl).
Proof. by split. Qed.

Lemma sample_WF : WF sample.
Proof.
  apply submit_all_WF; [apply start_WF| | |].
  - repeat constructor; done.
  - by apply (bool_decide_unpack _).
  - intros o _. unfold occ, present. simpl. rewrite !lookup_empty, map_sum_empty. unfold count_id. simpl. lia.
Qed.
