(* ===== verification/BookProps.v ===== *)
(** * The order book's guarantees

    The public operations as a step relation, the invariant over all reachable
    books, and the behaviour of matching, resting, stops, pegs, auctions and
    the event feed as a client sees it. *)

From S2P Require Import Prelude.
From S2P Require Import Order.
From S2P Require Import Ladder.
From S2P Require Import Book.
From S2P Require Import Replica.
From S2P Require Import BookInv.
From S2P Require Import BookMatch.
From S2P Require Import BookRest.
From S2P Require Import BookFlow.
From S2P Require Import BookAuction.
From S2P Require Import BookSubmit.
From S2P Require Import BookPriority.
From S2P Require Import BookPegs.
From S2P Require Import BookDepth.
From S2P Require Import Sample.

(** ** Reachable books *)

(** One call of the public interface, with the obligations of its caller: an
    order enters under an id the book does not know, with a display size that
    is not negative and not both hidden and iceberg; [insert_resident] restores
    a tradable order into a windowed book. *)
Inductive step : Impl → Impl → Prop :=
  | step_submit o b out b' :
      submittable o → occ b (o_id o) = 0%nat → submit o b = Ok (out, b') → step b b'
  | step_cancel i b r b' : cancel i b = Ok (r, b') → step b b'
  | step_expire now b ids b' : expire now b = Ok (ids, b') → step b b'
  | step_opening b ts b' : run_opening_auction b = Ok (ts, b') → step b b'
  | step_closing b ts b' : run_closing_auction b = Ok (ts, b') → step b b'
  | step_insert_resident o b :
      order_ok o → occ b (o_id o) = 0%nat → mem_levels b ≠ 0%nat → step b (insert_resident o b)
  | step_best_bid b : step b (best_bid b).2
  | step_best_ask b : step b (best_ask b).2
  | step_take_requeued b : step b (take_requeued b).2
  | step_seed_next_seq n b : step b (seed_next_seq n b)
  | step_seed_position c q b : step b (seed_position c q b).

Inductive reachable : Impl → Prop :=
  | reach_new policy mem sink sym :
      reachable (set_event_sink sink (set_symbol sym (new_book policy mem)))
  | reach_step b b' : reachable b → step b b' → reachable b'.

Lemma best_refresh_WF s b : WF b → WF (set_ladder s (best (ladder s b)).2 b).
Proof.
  intros HW. pose proof (wf_core _ HW) as HC.
  destruct (best_spec (ladder s b) (core_ladder _ HC s) (core_cache _ HC s)) as (_ & HL & Hc & Hok).
  apply (WF_shrunk b); [done|by apply Core_same_levels|]. split; [|intros j]; by destruct s.
Qed.

Lemma step_WF b b' : WF b → step b b' → WF b'.
Proof.
  intros HW Hs. destruct Hs as [o b out b' Hsub Hocc Hrun|i b r b' Hrun|now b ids b' Hrun|b ts b' Hrun|
    b ts b' Hrun|o b Ho Hocc Hmem|b|b|b|n b|c q b].
  - destruct (submit_returns o b HW Hsub Hocc) as (? & ? & E & ? & _). congruence.
  - destruct (cancel_ok i b HW) as (? & ? & E & ? & _). congruence.
  - destruct (expire_ok now b HW) as (? & E & ? & _). congruence.
  - destruct (cross_auction_ok true b HW) as (? & ? & E & []). unfold run_opening_auction in *. congruence.
  - destruct (cross_auction_ok false b HW) as (? & ? & E & []). unfold run_closing_auction in *. congruence.
  - destruct (occ_fresh _ _ Hocc) as [Hf _].
    destruct (insert_resident_ok o b (wf_core _ HW) Ho Hf Hmem) as (HC & Hc & Hor).
    apply (WF_grown (o_id o) b); [done..| |done]. split; [done|]. rewrite Hor. intros j [e Hj].
    apply lookup_insert_Some in Hj as [[<- _]|[_ Hj]]; [by left|]. right. by exists e.
  - pose proof (best_refresh_WF Buy b HW) as H. unfold best_bid. by destruct (best (bids b)) eqn:E; simpl in *; rewrite E in H.
  - pose proof (best_refresh_WF Sell b HW) as H. unfold best_ask. by destruct (best (asks b)) eqn:E; simpl in *; rewrite E in H.
  - by apply (WF_shrunk b); [done|destruct HW as [[] _ _ _ _ _]|].
  - unfold seed_next_seq. case_if; [|done]. by apply (WF_shrunk b); [done|apply Core_next_seq, HW|].
  - unfold seed_position. case_if; [done|]. by apply (WF_shrunk b); [done|apply Core_positions, HW|].
Qed.

Lemma reachable_WF b : reachable b → WF b.
Proof.
  induction 1 as [policy mem sink sym|b b' _ IH Hs]; [|by eapply step_WF].
  pose proof (WF_new policy mem) as [[H1 H2 H3 H4 H5 H6 _] ? ? ? ? ?].
  split; try done.
Qed.

Lemma submit_all_reachable l : ∀ b,
  reachable b → Forall submittable l → NoDup (o_id <$> l) → (∀ o, o ∈ l → occ b (o_id o) = 0%nat) →
  reachable (submit_all b l).
Proof.
  induction l as [|o l IH]; intros b HR Hs Hnd Hocc; [done|].
  apply Forall_cons in Hs as [Ho Hs]. rewrite fmap_cons, NoDup_cons in Hnd. destruct Hnd as [Hn Hnd].
  cbn [submit_all].
  destruct (submit_returns o b (reachable_WF _ HR) Ho) as (out & b' & Hr & _ & Ha & _);
    [apply Hocc; set_solver|].
  rewrite Hr. cbn [after]. apply IH; try done.
  - eapply reach_step; [done|]. eapply step_submit; [done| |done]. apply Hocc. set_solver.
  - intros o' Ho'. specialize (Ha (o_id o')).
    rewrite decide_False in Ha; [|intros E; destruct Hn; rewrite <-E; by apply list_elem_of_fmap_2].
    rewrite Hocc in Ha by set_solver. lia.
Qed.

Lemma sample_reachable : reachable sample.
Proof.
  apply submit_all_reachable; [apply (reach_new kCancelResting 0 true "XYZ")| | |].
  - repeat constructor; done.
  - by apply (bool_decide_unpack _).
  - intros o _. unfold occ, present. simpl. rewrite !lookup_empty, map_sum_empty. unfold count_id. simpl. lia.
Qed.

(** C1: the book's invariant. A reachable book is built by the public
    operations, where submitted orders have a fresh id and are [submittable] (no
    negative display size, not hidden and iceberg at once) and restored ones are
    well formed. In it each level's queue holds exactly the orders resting at
    its price, without duplicates and with exact running totals (as unbounded
    integers), the cached best prices are right, resting and parked orders are
    tradable, and an id lives in one place. If it has an event sink and no
    window ([mem_levels] is 0), the delivered events replay to the resting
    orders; nothing is said of the feed of a windowed book. *)
Theorem book_invariant b : reachable b → WF b.
Proof. apply reachable_WF. Qed.

Lemma book_invariant_witness : WF sample.
Proof. apply (book_invariant sample). exact sample_reachable. Defined.

(** C2: [submit] of a [submittable] order with a fresh id on a reachable book
    returns: no missing-key exception is raised and no loop (matching passes,
    stop cascade, peg repricing, release of held children) runs out of steps;
    the resulting book is reachable. Memory for the price ladder is assumed.
    Without the condition on the display size a match need not end, see
    [negative_display_spins]. *)
Theorem submit_total b o :
  reachable b → submittable o → occ b (o_id o) = 0%nat →
  ∃ out b', submit o b = Ok (out, b') ∧ reachable b'.
Proof.
  intros HR Hs Ho. destruct (submit_returns o b (reachable_WF _ HR) Hs Ho) as (out & b' & Hr & _ & _).
  exists out, b'. split; [done|]. eapply reach_step; [done|]. by eapply step_submit.
Qed.

Definition probe : Order := limit 8 5 Buy 101 7 GTC 0.

Lemma submit_total_witness : ∃ out b', submit probe sample = Ok (out, b') ∧ reachable b'.
Proof. apply (submit_total sample probe); [exact sample_reachable|by split|vm_compute; reflexivity]. Defined.

(** Cancels, expiry and both auctions always return, on every reachable
    book and for every argument. *)
Lemma maintenance_total b i now :
  reachable b →
  (∃ r b', cancel i b = Ok (r, b') ∧ reachable b') ∧
  (∃ b', expire now b = Ok (expired_ids now b, b') ∧ reachable b') ∧
  (∃ ts b', run_opening_auction b = Ok (ts, b') ∧ reachable b') ∧
  (∃ ts b', run_closing_auction b = Ok (ts, b') ∧ reachable b').
Proof.
  intros HR. pose proof (reachable_WF _ HR) as HW. split_and!.
  - destruct (cancel_ok i b HW) as (r & b' & Hr & _). exists r, b'. split; [done|].
    eapply reach_step; [done|]. by eapply step_cancel.
  - destruct (expire_ok now b HW) as (b' & Hr & _). exists b'. split; [done|].
    eapply reach_step; [done|]. by eapply step_expire.
  - destruct (cross_auction_ok true b HW) as (ts & b' & Hr & _). exists ts, b'. split; [done|].
    eapply reach_step; [done|]. by eapply step_opening.
  - destruct (cross_auction_ok false b HW) as (ts & b' & Hr & _). exists ts, b'. split; [done|].
    eapply reach_step; [done|]. by eapply step_closing.
Qed.

Lemma maintenance_total_witness :
  ∃ ts b', run_opening_auction sample = Ok (ts, b') ∧ reachable b'.
Proof. apply (maintenance_total sample 3 0). exact sample_reachable. Defined.

(** ** Matching *)
Definition sample_core : Core sample := wf_core _ sample_WF.

(** C3: price-time priority.  When the opposite side holds only plain orders
    at acceptable prices, [match] executes exactly what the reference matcher
    does: best price first, each queue front to back, until the aggressor is
    filled or the liquidity is gone. *)
Theorem match_price_time o b trades :
  Core b → 0 ≤ o_leaves o →
  (∀ i e, orders b !! i = Some e → o_side (e_order e) = Opposite (o_side o) →
          acceptable o (o_price (e_order e)) = true → plain o b e) →
  ∃ o' b' ts, match_ o b trades = Ok (false, o', b', trades ++ ts) ∧
    offer_of <$> ts = serve (o_leaves o) (offers o b).
Proof. apply match_serve. Qed.

Definition taker : Order := set_o_leaves 7 (limit 8 5 Buy 100 7 GTC 0).

Lemma match_price_time_witness :
  ∃ o' b' ts, match_ taker sample [] = Ok (false, o', b', [] ++ ts) ∧
    offer_of <$> ts = serve 7 (offers taker sample).
Proof.
  apply (match_price_time taker sample []); [exact sample_core|done|].
  apply plain_makers_spec. vm_compute. reflexivity.
Defined.

(** C4: conservation.  [match] always returns; every execution is for a
    positive quantity at a price the aggressor accepts, against an order that
    was resting on the opposite side at exactly that price; the aggressor loses
    precisely the executed quantity; every maker loses precisely what it
    traded, and leaves the book only when exhausted or cancelled by self-trade
    prevention without trading. *)
Theorem match_conserves o b trades :
  Core b → 0 ≤ o_leaves o →
  ∃ c o' b' ts, match_ o b trades = Ok (c, o', b', trades ++ ts) ∧
    o' = fill_order (zsum t_qty ts) o ∧ 0 ≤ o_leaves o' ∧
    Forall (λ t, t_taker_id t = o_id o ∧ t_taker_side t = o_side o ∧ 0 < t_qty t ∧
                 acceptable o (t_price t) = true ∧
                 rests_at (orders b) (Opposite (o_side o)) (t_price t) (t_maker_id t)) ts ∧
    ∀ i, maker_rel b o i ts (orders b !! i) (orders b' !! i).
Proof.
  intros HC Hle. destruct (match_ok o b trades HC Hle) as (c & o' & b' & ts & Hr & [_ HM _ _ _]).
  exists c, o', b', ts. split_and!; [done|apply HM|apply HM| |apply HM].
  eapply Forall_impl; [apply HM|]. intros t ((? & ? & _ & ?) & ? & ?). by split_and!.
Qed.

Lemma match_conserves_witness :
  ∃ c o' b' ts, match_ taker sample [] = Ok (c, o', b', [] ++ ts) ∧
    o' = fill_order (zsum t_qty ts) taker ∧ 0 ≤ o_leaves o' ∧
    Forall (λ t, t_taker_id t = o_id taker ∧ t_taker_side t = o_side taker ∧ 0 < t_qty t ∧
                 acceptable taker (t_price t) = true ∧
                 rests_at (orders sample) (Opposite (o_side taker)) (t_price t) (t_maker_id t)) ts ∧
    ∀ i, maker_rel sample taker i ts (orders sample !! i) (orders b' !! i).
Proof. apply (match_conserves taker sample []); [exact sample_core|done]. Defined.

(** No price is skipped.  After an execution at some price, an order still
    resting at a strictly better one is all-or-none and larger than what is
    left of the aggressor. *)
Lemma match_price_priority o b trades c o' b' ts :
  Core b → 0 ≤ o_leaves o → match_ o b trades = Ok (c, o', b', trades ++ ts) →
  ∀ t i e, t ∈ ts → orders b' !! i = Some e → o_side (e_order e) = Opposite (o_side o) →
  better (Opposite (o_side o)) (o_price (e_order e)) (t_price t) = true →
  HasFlag (o_flags (e_order e)) kAon = true ∧ o_leaves o' < o_leaves (e_order e).
Proof.
  intros HC Hle Hr t i e Ht He Hs Hb.
  destruct (match_ok o b trades HC Hle) as (c1 & o1 & b1 & ts1 & Hr1 & [_ _ _ Hp _]).
  rewrite Hr in Hr1. injection Hr1 as <- <- <- E. apply app_inv_head in E as <-.
  destruct (Hp t i e Ht He Hs Hb) as (e' & He' & ? & ?). by simplify_eq.
Qed.

Definition sweep : Order := set_o_leaves 30 (limit 8 5 Buy 101 30 GTC 0).

Lemma match_price_priority_witness :
  match match_ sweep sample [] with
  | Ok (_, o', b', ts) =>
      ∀ t i e, t ∈ ts → orders b' !! i = Some e → o_side (e_order e) = Sell →
      better Sell (o_price (e_order e)) (t_price t) = true →
      HasFlag (o_flags (e_order e)) kAon = true ∧ o_leaves o' < o_leaves (e_order e)
  | Err _ => False
  end.
Proof.
  destruct (match_ sweep sample []) as [[[[c o'] b'] ts]|] eqn:Hr; [|vm_compute in Hr; discriminate Hr].
  apply (match_price_priority sweep sample [] c o' b' ts); [exact sample_core|done|exact Hr].
Defined.

(** C6: completeness.  Unless self-trade prevention cancelled the aggressor,
    an aggressor with quantity left has no counterparty left: every opposite
    order at an acceptable price is all-or-none and too large. *)
Theorem match_complete o b trades c o' b' ts :
  Core b → 0 ≤ o_leaves o → match_ o b trades = Ok (c, o', b', trades ++ ts) →
  c = false → 0 < o_leaves o' →
  ∀ i e, orders b' !! i = Some e → o_side (e_order e) = Opposite (o_side o) →
  acceptable o (o_price (e_order e)) = true →
  HasFlag (o_flags (e_order e)) kAon = true ∧ o_leaves o' < o_leaves (e_order e).
Proof.
  intros HC Hle Hr Hc Hl i e He Hs Ha.
  destruct (match_ok o b trades HC Hle) as (c1 & o1 & b1 & ts1 & Hr1 & [_ _ _ _ Hcp]).
  rewrite Hr in Hr1. injection Hr1 as <- <- <- E.
  destruct (Hcp Hc Hl i e He Hs Ha) as (e' & He' & ? & ?). by simplify_eq.
Qed.

Lemma match_complete_witness :
  match match_ sweep sample [] with
  | Ok (_, o', b', _) =>
      ∀ i e, orders b' !! i = Some e → o_side (e_order e) = Sell →
      acceptable sweep (o_price (e_order e)) = true →
      HasFlag (o_flags (e_order e)) kAon = true ∧ o_leaves o' < o_leaves (e_order e)
  | Err _ => False
  end.
Proof.
  destruct (match_ sweep sample []) as [[[[c o'] b'] ts]|] eqn:Hr; [|vm_compute in Hr; discriminate Hr].
  apply (match_complete sweep sample [] c o' b' ts); [exact sample_core|done|exact Hr| |].
  - assert (match match_ sweep sample [] with Ok (c, _, _, _) => c = false | Err _ => False end) as H
      by (vm_compute; reflexivity). rewrite Hr in H. exact H.
  - assert (match match_ sweep sample [] with Ok (_, o', _, _) => 0 < o_leaves o' | Err _ => False end) as H
      by (vm_compute; reflexivity). rewrite Hr in H. exact H.
Defined.

Lemma traded_pos i ts t :
  Forall (λ t, 0 < t_qty t) ts → t ∈ ts → t_maker_id t = i → 0 < traded i ts.
Proof.
  intros Hpos Ht <-. unfold traded.
  pose proof (zsum_elem_le (λ x, if t_maker_id x =? t_maker_id t then t_qty x else 0) ts t) as H.
  cbn beta in H. rewrite Forall_forall in Hpos. rewrite Z.eqb_refl in H. specialize (Hpos t Ht) as Hq.
  assert (∀ y, y ∈ ts → 0 ≤ (if t_maker_id y =? t_maker_id t then t_qty y else 0)) as Hn.
  { intros y Hy. specialize (Hpos y Hy). case_if; lia. }
  specialize (H Hn Ht). lia.
Qed.

(** C10: self-trade prevention in continuous matching. With any policy but
    [kNone], no execution of [match] for an order of a known account (client id
    not 0) is against an order of the same account, whatever rests in the book.
    The auction cross does not look at accounts, see
    [auction_trades_with_itself]. *)
Theorem no_self_trade o b trades c o' b' ts :
  Core b → 0 ≤ o_leaves o → stp b ≠ kStpNone → o_client_id o ≠ 0 →
  match_ o b trades = Ok (c, o', b', trades ++ ts) →
  ∀ t e, t ∈ ts → orders b !! t_maker_id t = Some e → o_client_id (e_order e) ≠ o_client_id o.
Proof.
  intros HC Hle Hstp Hcl Hr t e Ht He Hcc.
  destruct (match_ok o b trades HC Hle) as (c1 & o1 & b1 & ts1 & Hr1 & [_ HM _ _ _]).
  rewrite Hr in Hr1. injection Hr1 as <- <- <- E. apply app_inv_head in E as <-.
  assert (0 < traded (t_maker_id t) ts) as Hpos.
  { apply (traded_pos _ _ t); [|done|done]. eapply Forall_impl; [apply HM|]. by intros x ((_ & _ & _ & ?) & _). }
  assert (self_trade o e b = true) as Hst.
  { unfold self_trade. rewrite bool_decide_false by done. rewrite (proj2 (Z.eqb_neq _ _) Hcl), Hcc, Z.eqb_refl. done. }
  pose proof (mt_makers _ _ _ _ _ HM (t_maker_id t)) as Hm. rewrite He in Hm. unfold maker_rel in Hm.
  destruct (orders b' !! t_maker_id t); [|rewrite Hst in Hm; lia].
  destruct Hm as (_ & Hz & _). specialize (Hz Hst). lia.
Qed.

Definition own_taker : Order := set_o_leaves 12 (limit 8 7 Buy 101 12 GTC 0).

Lemma no_self_trade_witness :
  match match_ own_taker sample [] with
  | Ok (_, _, _, ts) =>
      ∀ t e, t ∈ ts → orders sample !! t_maker_id t = Some e → o_client_id (e_order e) ≠ 7
  | Err _ => False
  end.
Proof.
  destruct (match_ own_taker sample []) as [[[[c o'] b'] ts]|] eqn:Hr; [|vm_compute in Hr; discriminate Hr].
  apply (no_self_trade own_taker sample [] c o' b' ts); [exact sample_core|done| |done|exact Hr].
  assert (stp sample = kCancelResting) as -> by (vm_compute; reflexivity). discriminate.
Defined.
