(* ===== verification/BookServices.v ===== *)
(** * What the book shows and does beyond matching

    Depth and quotes, the event feed, the resident window, stops, pegs,
    auctions, cancels and expiry, as guarantees on reachable books. *)

From S2P Require Import Prelude.
From S2P Require Import Order.
From S2P Require Import Ladder.
From S2P Require Import Book.
From S2P Require Import Replica.
From S2P Require Import BookInv.
From S2P Require Import BookMatch.
From S2P Require Import BookRest.
From S2P Require Import BookFlow.
From S2P Require Import BookAuction.
From S2P Require Import BookSubmit.
From S2P Require Import BookPriority.
From S2P Require Import BookPegs.
From S2P Require Import BookDepth.
From S2P Require Import Sample.
From S2P Require Import BookProps.

(** ** Depth and quotes *)

(** The depth the book reports at a price is the sum over the orders
    resting there: their leaves, and their visible quantity (none for a hidden
    order, the slice of an iceberg, all of any other), and what is shown never
    exceeds what is there. *)
Lemma depth_exact b s p :
  reachable b →
  total_qty_at s p b = depth (λ e, o_leaves (e_order e)) (orders b) s p ∧
  displayed_qty_at s p b = depth e_disp (orders b) s p ∧
  0 ≤ displayed_qty_at s p b ≤ total_qty_at s p b.
Proof.
  intros HR. pose proof (wf_core _ (reachable_WF _ HR)) as HC.
  rewrite total_qty_at_level, displayed_qty_at_level. destruct (level_depth b s p HC) as [Et Ed].
  split_and!; try done.
  - rewrite Ed. apply map_zsum_nonneg. intros i e He. unfold resting_qty. case_if; [|lia].
    destruct (core_entries _ HC _ _ He) as (_ & (Hl & _ & _) & Hice).
    unfold e_disp, DisplayedOf. repeat case_if; lia.
  - destruct (core_levels _ HC s p) as (_ & Hin & Ht & Hd). unfold ladders in *. rewrite Ht, Hd.
    apply zsum_le. intros i Hi. apply Hin in Hi as (e & He & _).
    unfold disp_in, leaves_in. rewrite He. simpl.
    destruct (core_entries _ HC _ _ He) as (_ & (Hl & _ & _) & Hice).
    unfold e_disp, DisplayedOf. repeat case_if; lia.
Qed.

Lemma depth_exact_witness :
  total_qty_at Sell 100 sample = depth (λ e, o_leaves (e_order e)) (orders sample) Sell 100 ∧
  displayed_qty_at Sell 100 sample = depth e_disp (orders sample) Sell 100 ∧
  0 ≤ displayed_qty_at Sell 100 sample ≤ total_qty_at Sell 100 sample.
Proof. apply (depth_exact sample Sell 100). exact sample_reachable. Defined.

(** The best bid is the highest price of a resting buy order and the best
    ask the lowest of a resting sell order, present exactly when the side has
    an order, whatever the state of the lazily cached price. *)
Lemma quotes_exact b :
  reachable b →
  (∀ p, (best_bid b).1 = Some p ↔ best_resting b Buy p) ∧
  (∀ p, (best_ask b).1 = Some p ↔ best_resting b Sell p).
Proof.
  intros HR. pose proof (wf_core _ (reachable_WF _ HR)) as HC.
  pose proof (λ p, best_quote b Buy p HC) as HB. pose proof (λ p, best_quote b Sell p HC) as HS.
  simpl in *. unfold best_bid, best_ask.
  destruct (best (bids b)) as [rb Lb], (best (asks b)) as [ra La]. by split.
Qed.

Lemma quotes_exact_witness :
  (∀ p, (best_bid sample).1 = Some p ↔ best_resting sample Buy p) ∧
  (∀ p, (best_ask sample).1 = Some p ↔ best_resting sample Sell p).
Proof. apply (quotes_exact sample). exact sample_reachable. Defined.

(** C5: the feed refines the book. For a reachable book with an event sink and
    without a window ([mem_levels] is 0), a replica that applies the delivered
    events in order holds exactly the resting orders, and its total and
    displayed depth at every price are the book's. Books with a window, as the
    server builds them, are not covered: what leaves the window stays in the
    replica. *)
Theorem feed_refines_book b s p :
  reachable b → event_sink_ b = true → mem_levels b = 0%nat →
  r_orders (replay (emitted b)) = view <$> orders b ∧
  side_map (replay (emitted b)) s !! p = stored (total_qty_at s p b) ∧
  disp_map (replay (emitted b)) s !! p = stored (displayed_qty_at s p b).
Proof.
  intros HR Hs Hm. destruct (feed_depth b s p (wf_core _ (reachable_WF _ HR)) Hs Hm) as (? & ? & ?).
  by split_and!.
Qed.

Lemma feed_refines_book_witness :
  r_orders (replay (emitted sample)) = view <$> orders sample ∧
  side_map (replay (emitted sample)) Sell !! 100 = stored (total_qty_at Sell 100 sample) ∧
  disp_map (replay (emitted sample)) Sell !! 100 = stored (displayed_qty_at Sell 100 sample).
Proof.
  apply (feed_refines_book sample Sell 100);
    [exact sample_reachable|vm_compute; reflexivity|vm_compute; reflexivity].
Defined.

(** ** Resting and the window *)

(** Resting an order loses none.  Every order that was resting is still
    resting unchanged or is handed back in the evicted list; a resident new
    order is in the book under its id with its initial slice; and a side within
    its bound of [mem_levels] populated levels stays within it. *)
Lemma rest_keeps_orders o b :
  Core b → order_ok o → orders b !! o_id o = None →
  ∃ r b' ev, rest o b [] = (r, b', ev) ∧
    (∀ i e, orders b !! i = Some e → orders b' !! i = Some e ∨ e_order e ∈ ev) ∧
    (r = true → orders b' !! o_id o = Some (mkEntry o (initial_slice o))) ∧
    ((0 < mem_levels b)%nat → ∀ s, (populated_count (ladder s b) ≤ mem_levels b)%nat →
     (populated_count (ladder s b') ≤ mem_levels b)%nat) ∧
    (mem_levels b = 0%nat → r = true ∧ ev = []).
Proof.
  intros HC Ho Hf. destruct (rest_ok o b [] HC Ho Hf) as (r & b' & ev & Hr & []).
  exists r, b', ev. split_and!; try done. intros Hm. by destruct (ro_unbounded Hm) as (? & ? & _).
Qed.

(** A book that keeps two levels per side, full on the bid. *)
Definition windowed : Impl :=
  submit_all (new_book kStpNone 2)
    [limit 1 0 Buy 98 5 GTC 0; limit 2 0 Buy 97 5 GTC 0].

Lemma windowed_WF : WF windowed.
Proof.
  apply submit_all_WF; [apply WF_new| | |].
  - repeat constructor; done.
  - by apply (bool_decide_unpack _).
  - intros o _. unfold occ, present. simpl. rewrite !lookup_empty, map_sum_empty. unfold count_id. simpl. lia.
Qed.

Definition newcomer : Order := set_o_display_qty 4 (set_o_leaves 4 (limit 3 0 Buy 99 4 GTC 0)).

Lemma rest_keeps_orders_witness :
  ∃ r b' ev, rest newcomer windowed [] = (r, b', ev) ∧
    (∀ i e, orders windowed !! i = Some e → orders b' !! i = Some e ∨ e_order e ∈ ev) ∧
    (r = true → orders b' !! 3 = Some (mkEntry newcomer (initial_slice newcomer))) ∧
    ((0 < mem_levels windowed)%nat → ∀ s, (populated_count (ladder s windowed) ≤ mem_levels windowed)%nat →
     (populated_count (ladder s b') ≤ mem_levels windowed)%nat) ∧
    (mem_levels windowed = 0%nat → r = true ∧ ev = []).
Proof.
  apply (rest_keeps_orders newcomer windowed); [exact (wf_core _ windowed_WF)|by split_and!|].
  vm_compute. reflexivity.
Defined.

(** ** Stops *)

(** C7: the stop cascade terminates and is exhaustive: [evaluate_stops]
    returns within one round per parked stop (plus one), and afterwards no
    parked stop is due at the last trade price. *)
Theorem stops_cascade b trades :
  reachable b →
  ∃ b' ts, evaluate_stops b trades = Ok (b', trades ++ ts) ∧ WF b' ∧ quiescent b'.
Proof.
  intros HR. destruct (evaluate_stops_ok b trades (reachable_WF _ HR)) as (b' & ts & ? & ? & _ & ?).
  by exists b', ts.
Qed.

Lemma stops_cascade_witness :
  ∃ b' ts, evaluate_stops sample [] = Ok (b', [] ++ ts) ∧ WF b' ∧ quiescent b'.
Proof. apply (stops_cascade sample []). exact sample_reachable. Defined.

#[export] Instance by_seq_total : Total by_seq.
Proof. intros x y. unfold by_seq. lia. Qed.
#[export] Instance by_seq_trans : Transitive by_seq.
Proof. intros x y z. unfold by_seq. lia. Qed.

(** Firing is deterministic and fair: the round's list holds exactly the
    parked stops that are due, each once, in arrival order. *)
Lemma firing_order b :
  (∀ i, i ∈ firing b ↔ have_last b = true ∧
     ∃ o, stops b !! i = Some o ∧ stop_triggered o (last_price b) = true) ∧
  NoDup (firing b) ∧
  ∃ l, firing b = l.*1 ∧ StronglySorted by_seq l ∧ ∀ x, x ∈ l → stops b !! x.1 = Some x.2.
Proof.
  split_and!; [intros; apply firing_elem|apply firing_NoDup|]. unfold firing. case_if.
  - eexists. split; [done|]. split; [apply StronglySorted_merge_sort; apply _|].
    intros [i o]. rewrite merge_sort_Permutation.
    intros [Hin _]%list_elem_of_In%filter_In. by apply list_elem_of_In, elem_of_map_to_list in Hin.
  - exists []. split_and!; [done|constructor|set_solver].
Qed.

(** A trailing stop only ratchets towards the market.  Following a trade
    price keeps a sell stop's trigger from falling and a buy stop's from
    rising, keeps it [trail_by] from the extreme price seen, and changes
    nothing else of the order. *)
Lemma trail_ratchets px o t :
  o_trigger o = Some t → tr_kind t ≠ KStop →
  tr_stop_price t = (match o_side o with Sell => tr_high_water t - tr_trail_by t
                                       | Buy => tr_high_water t + tr_trail_by t end) →
  ∃ t', update_trail px o = set_o_trigger (Some t') o ∧
    tr_high_water t' = (match o_side o with Sell => Z.max (tr_high_water t) px
                                          | Buy => Z.min (tr_high_water t) px end) ∧
    tr_stop_price t' = (match o_side o with Sell => tr_high_water t' - tr_trail_by t
                                          | Buy => tr_high_water t' + tr_trail_by t end) ∧
    match o_side o with Sell => tr_stop_price t ≤ tr_stop_price t'
                      | Buy => tr_stop_price t' ≤ tr_stop_price t end.
Proof.
  intros Ht Hk Hs. unfold update_trail. rewrite Ht.
  assert (set_o_trigger (Some t) o = o) as Hid by (destruct o; simpl in *; by subst).
  destruct (tr_kind t); [done| |]; destruct (o_side o); case_if;
    eexists; (split; [first [exact (eq_sym Hid)|reflexivity]|]); simpl; lia.
Qed.

(** ** Pegs *)





(** ** Auctions *)

(** C9: the clearing price maximises the executable volume over all prices,
    not only over the limits the code tries; among the limits it has, at that
    volume, the least imbalance, then the least distance to the last price (or
    is lowest). *)
Theorem clearing_optimal q b c :
  Forall order_ok q → clearing q b = Some c →
  c_volume c = volume_at q (c_price c) ∧ 0 < c_volume c ∧
  (candidates q ≠ [] → ∀ p, volume_at q p ≤ c_volume c) ∧
  (∀ p, p ∈ candidates q → at_least b q c p).
Proof.
  intros Hq Hc. pose proof (clearing_ok b q) as H. rewrite Hc in H.
  destruct H as ((Hv & Ev & _) & _ & Hall). split_and!; try done.
  - intros Hne p.
    assert (Forall (λ o, 0 ≤ o_leaves o) q) as Hpos
      by (eapply Forall_impl; [exact Hq|]; intros o (? & _); lia).
    destruct (volume_candidate q p Hpos Hne) as (p' & Hp' & Hle).
    assert (p' ∈ considered b q) as Hin by (unfold considered; by destruct (candidates q)).
    destruct (Hall p' Hin) as [?|[[? _]|[? _]]]; lia.
  - intros p Hp. apply Hall. unfold considered. destruct (candidates q); [set_solver|done].
Qed.

Lemma clearing_optimal_witness : ∃ c, clearing (opening_auction sample) sample = Some c ∧
  c_volume c = volume_at (opening_auction sample) (c_price c) ∧ 0 < c_volume c ∧
  (candidates (opening_auction sample) ≠ [] → ∀ p, volume_at (opening_auction sample) p ≤ c_volume c) ∧
  (∀ p, p ∈ candidates (opening_auction sample) → at_least sample (opening_auction sample) c p).
Proof.
  destruct (clearing (opening_auction sample) sample) as [c|] eqn:Hc; [|vm_compute in Hc; discriminate Hc].
  exists c. split; [reflexivity|].
  apply (clearing_optimal (opening_auction sample) sample c); [exact (wf_opening _ sample_WF)|exact Hc].
Defined.

(** C8: the cross.  An auction empties its queue and executes exactly the
    clearing volume, all at the clearing price, each execution between a queued
    buyer and a queued seller that both accept it; executions after the cross
    come from remainders entering continuous trading and from stops; without a
    clearing price nothing crosses. *)
Theorem auction_uniform_price opening b :
  reachable b →
  ∃ ts b', cross_auction opening b = Ok (ts, b') ∧ WF b' ∧ auction_queue opening b' = [] ∧
    ∃ cross cont, ts = cross ++ cont ∧
      match clearing (auction_queue opening b) b with
      | None => cross = []
      | Some c => zsum t_qty cross = c_volume c ∧
                  Forall (cross_exec (auction_queue opening b) (c_price c)) cross
      end.
Proof.
  intros HR. destruct (cross_auction_ok opening b (reachable_WF _ HR)) as (ts & b' & Hr & []).
  by exists ts, b'.
Qed.

Lemma auction_uniform_price_witness :
  ∃ ts b', cross_auction true sample = Ok (ts, b') ∧ WF b' ∧ auction_queue true b' = [] ∧
    ∃ cross cont, ts = cross ++ cont ∧
      match clearing (auction_queue true sample) sample with
      | None => cross = []
      | Some c => zsum t_qty cross = c_volume c ∧
                  Forall (cross_exec (auction_queue true sample) (c_price c)) cross
      end.
Proof. apply (auction_uniform_price true sample). exact sample_reachable. Defined.

(** ** Cancels and expiry *)

(** The order is at rest, a parked stop or queued for an auction. *)
Definition cancellable (b : Impl) (i : OrderId) : Prop :=
  is_Some (orders b !! i) ∨ is_Some (stops b !! i) ∨
  i ∈ o_id <$> opening_auction b ∨ i ∈ o_id <$> closing_auction b.

Definition without (i : OrderId) (q : list Order) : list Order := List.filter (λ o, negb (o_id o =? i)) q.

(** [i] is gone and everything else is where it was, but for pegged orders,
    which follow the quotes. *)
Record cancelled (i : OrderId) (b b' : Impl) : Prop := mkCancelled {
  cn_gone : orders b' !! i = None;
  cn_orders : ∀ j, j ≠ i → j ∉ pegged b → orders b' !! j = orders b !! j;
  cn_pegged : ∀ j, j ≠ i → j ∈ pegged b → peg_moved b b' j;
  cn_pegs : pegged b' = pegged b ∖ {[i]};
  cn_stops : stops b' = delete i (stops b);
  cn_opening : opening_auction b' = without i (opening_auction b);
  cn_closing : closing_auction b' = without i (closing_auction b);
  cn_groups : groups b' = groups b;
}.

Lemma without_absent i q : count_id i q = 0%nat → without i q = q.
Proof.
  unfold count_id, without. induction q as [|o q IH]; [done|]. simpl. destruct (o_id o =? i); simpl; [done|].
  intros H. by rewrite IH.
Qed.

Lemma without_delete i q k o :
  q !! k = Some o → o_id o = i → (count_id i q ≤ 1)%nat → delete k q = without i q.
Proof.
  intros Hk <-. revert k Hk. induction q as [|x q IH]; intros [|k] Hk Hc; simpl in *; simplify_eq.
  - unfold count_id in Hc. simpl in Hc. rewrite Z.eqb_refl in *. simpl in *. symmetry. apply without_absent.
    unfold count_id. lia.
  - unfold count_id in Hc. simpl in Hc. destruct (o_id x =? o_id o) eqn:E; simpl in *.
    + exfalso. apply list_elem_of_lookup_2, list_elem_of_In in Hk.
      assert (o ∈ List.filter (λ y, o_id y =? o_id o) q) as Ho.
      { apply list_elem_of_In, filter_In. by rewrite Z.eqb_refl. }
      destruct (List.filter _ q); [by apply elem_of_nil in Ho|simpl in Hc; lia].
    + f_equal. by apply IH.
Qed.

Lemma queued_count i q : list_find (λ o, o_id o = i) q = None ↔ count_id i q = 0%nat.
Proof.
  rewrite list_find_None. unfold count_id. split.
  - intros H. assert (List.filter (λ o, o_id o =? i) q = []) as ->; [|done].
    induction H as [|o q Ho _ IH]; [done|]. simpl. by rewrite (proj2 (Z.eqb_neq _ _) Ho).
  - intros H. apply Forall_forall. intros o Ho Hid.
    assert (o ∈ List.filter (λ o, o_id o =? i) q) as Hin.
    { apply list_elem_of_In, filter_In. split; [by apply list_elem_of_In|by apply Z.eqb_eq]. }
    destruct (List.filter _ q); [by apply elem_of_nil in Hin|done].
Qed.

Lemma queued_id i q k o : list_find (λ o, o_id o = i) q = Some (k, o) → i ∈ o_id <$> q.
Proof. intros (Hk & <- & _)%list_find_Some. apply list_elem_of_fmap_2, list_elem_of_lookup. eauto. Qed.

Lemma pegged_rests b i : Core b → orders b !! i = None → i ∉ pegged b.
Proof. intros HC Hi Hp. destruct (core_pegged _ HC i Hp) as (e & He & _). congruence. Qed.

(** An order that is not at rest leaves alone. *)
Lemma cancelled_parked i b b' :
  Core b → orders b' = orders b → orders b !! i = None → pegged b' = pegged b → groups b' = groups b →
  stops b' = delete i (stops b) → opening_auction b' = without i (opening_auction b) →
  closing_auction b' = without i (closing_auction b) → cancelled i b b'.
Proof.
  intros HC Ho Hi Hp Hg Hs H1 H2. split; try done; [by rewrite Ho|by rewrite Ho| |].
  - intros j _ _. unfold peg_moved. rewrite Ho. destruct (orders b !! j); auto.
  - rewrite Hp. pose proof (pegged_rests b i HC Hi). set_solver.
Qed.

(** Repricing after the removal moves pegged orders only. *)
Lemma cancelled_resting i e b b1 b' :
  Core b → orders b !! i = Some e → occ b i = 1%nat → cold b b1 → orders b1 = delete i (orders b) →
  pegged b1 = pegged b ∖ {[i]} → b' = b1 ∨ reprice_pegs b1 = Ok b' ∧ Core b1 ∧ cold b1 b' →
  cancelled i b b'.
Proof.
  intros HC Hi Hocc Hcold Hor Hpg Hb'.
  assert (cold b b' ∧ pegged b' = pegged b1 ∧ (∀ j, j ∉ pegged b1 → orders b' !! j = orders b1 !! j) ∧
    (∀ j, j ∈ pegged b1 → peg_moved b1 b' j)) as ([E1 E2 _ E3 E4 _ _ _ _] & Hp & Hs & Hm).
  { destruct Hb' as [->|(Hr & HC1 & Hc)].
    - split_and!; try done. intros j _. unfold peg_moved. destruct (orders b1 !! j); auto.
    - destruct (reprice_pegs_tracks b1 HC1) as (b2 & Hr2 & _ & Hp & _ & _ & Hm & Hs).
      rewrite Hr in Hr2. injection Hr2 as ->. split_and!; [by etrans|done..]. }
  unfold occ in Hocc. rewrite (present_Some _ _ _ Hi) in Hocc.
  split.
  - rewrite Hs, Hor, lookup_delete_eq by set_solver. done.
  - intros j Hne Hj. rewrite Hs, Hor, lookup_delete_ne by set_solver. done.
  - intros j Hne Hj. specialize (Hm j). unfold peg_moved in *. rewrite Hor, lookup_delete_ne in Hm by done. set_solver.
  - congruence.
  - rewrite E1, delete_id; [done|]. unfold present in Hocc. destruct (stops b !! i); [lia|done].
  - rewrite E3, without_absent; [done|lia].
  - rewrite E4, without_absent; [done|lia].
  - done.
Qed.

Lemma cancel_spec i b :
  WF b → ∃ r b', cancel i b = Ok (r, b') ∧ WF b' ∧ (r = true ↔ cancellable b i) ∧
    if r then cancelled i b b' else b' = b.
Proof.
  intros HW. destruct (cancel_ok i b HW) as (r & b' & Hr & HW' & _). exists r, b'. split; [done|]. split; [done|].
  pose proof (wf_core _ HW) as HC. pose proof (wf_unique _ HW i) as Hu. unfold occ in Hu. revert Hr. unfold cancellable.
  destruct (stops b !! i) as [o|] eqn:Hs.
  { unfold cancel. rewrite Hs. intros [= <- <-]. rewrite (present_Some _ _ _ Hs) in Hu.
    assert (orders b !! i = None) as Hn by (unfold present in Hu; destruct (orders b !! i); [lia|done]).
    split; [naive_solver|]. apply cancelled_parked; try done; simpl; symmetry; apply without_absent; lia. }
  destruct (list_find (λ o, o_id o = i) (opening_auction b)) as [[k o]|] eqn:Ho.
  { unfold cancel. rewrite Hs, Ho. intros [= <- <-]. pose proof (queued_id _ _ _ _ Ho) as Hin.
    assert (count_id i (opening_auction b) ≠ 0%nat) as H0 by (rewrite <-queued_count; congruence).
    apply list_find_id in Ho as [Hk Hid].
    assert (orders b !! i = None) as Hn by (unfold present in Hu; destruct (orders b !! i); [lia|done]).
    split; [naive_solver|]. apply cancelled_parked; try done; simpl; [by rewrite delete_id| |symmetry; apply without_absent; lia].
    apply (without_delete i _ k o); [done..|lia]. }
  destruct (list_find (λ o, o_id o = i) (closing_auction b)) as [[k o]|] eqn:Hc.
  { unfold cancel. rewrite Hs, Ho, Hc. intros [= <- <-]. pose proof (queued_id _ _ _ _ Hc) as Hin.
    assert (count_id i (closing_auction b) ≠ 0%nat) as H0 by (rewrite <-queued_count; congruence).
    apply queued_count in Ho. apply list_find_id in Hc as [Hk Hid].
    assert (orders b !! i = None) as Hn by (unfold present in Hu; destruct (orders b !! i); [lia|done]).
    split; [naive_solver|]. apply cancelled_parked; try done; simpl; [by rewrite delete_id|by symmetry; apply without_absent|].
    apply (without_delete i _ k o); [done..|lia]. }
  destruct (orders b !! i) as [e|] eqn:Hi.
  - destruct (cancel_resting_eq i e b Hs Ho Hc Hi) as [pos ->]. cbv zeta.
    destruct (cancel_entry_ok i e b _ HC Hi eq_refl pos) as (HC' & Hsh & Hor).
    set (b1 := set_positions _ _) in *. assert (pegged b1 = pegged b ∖ {[i]}) as Hpg by (unfold b1, remove_entry; by destruct (o_side (e_order e))). clearbody b1.
    assert (occ b i = 1%nat) as Hocc.
    { apply queued_count in Ho, Hc. unfold occ. rewrite (present_Some _ _ _ Hi) in *. lia. }
    case_bool_decide.
    + intros [= <- <-]. split; [naive_solver|]. eapply cancelled_resting; eauto. apply Hsh.
    + destruct (reprice_pegs_ok b1 HC') as (b2 & E2 & _ & Hsh2). rewrite E2. intros [= <- <-]. split; [naive_solver|].
      eapply (cancelled_resting i e b b1 b2); eauto; [apply Hsh|]. right. split_and!; [done..|apply Hsh2].
  - unfold cancel. rewrite Hs, Ho, Hc, Hi. intros [= <- <-]. split; [|done]. split; [done|].
    apply list_find_None in Ho, Hc. rewrite Forall_forall in Ho, Hc.
    intros [[? ?]|[[? ?]|[(o & -> & Hin)%list_elem_of_fmap|(o & -> & Hin)%list_elem_of_fmap]]]; [done..|by destruct (Ho o)|by destruct (Hc o)].
Qed.

(** C12: a cancel always returns.  It succeeds exactly when the id is at rest in
    the book, a parked stop or in an auction queue; then it is gone from there,
    every other parked, queued and held order is exactly as before, and so is
    every other resting order, except that pegged ones may follow the quotes
    (price and rank only).  A cancel that fails changes nothing. *)
Theorem cancel_exact b i :
  reachable b →
  ∃ r b', cancel i b = Ok (r, b') ∧ WF b' ∧ (r = true ↔ cancellable b i) ∧
    if r then cancelled i b b' else b' = b.
Proof. intros HR. apply cancel_spec, reachable_WF, HR. Qed.

Lemma cancel_exact_witness :
  cancellable sample 6 ∧ ∃ r b', cancel 6 sample = Ok (r, b') ∧ WF b' ∧ (r = true ↔ cancellable sample 6) ∧
    if r then cancelled 6 sample b' else b' = sample.
Proof.
  split; [|apply (cancel_exact sample 6); exact sample_reachable].
  right. right. left. apply (bool_decide_unpack _). vm_compute. reflexivity.
Defined.

Lemma expired_ids_elem now b i :
  i ∈ expired_ids now b ↔ ∃ e, orders b !! i = Some e ∧ 0 < o_expiry_ns (e_order e) ≤ now.
Proof.
  unfold expired_ids. rewrite merge_sort_Permutation, list_elem_of_fmap. split.
  - intros ([j e] & -> & [Hin Hf]%list_elem_of_In%filter_In). simpl in *. bool_split.
    apply list_elem_of_In, elem_of_map_to_list in Hin. by exists e.
  - intros (e & He & ?). exists (i, e). split; [done|]. apply list_elem_of_In, filter_In.
    rewrite <-list_elem_of_In, elem_of_map_to_list. split; [done|]. simpl.
    rewrite (proj2 (Z.ltb_lt _ _)), (proj2 (Z.leb_le _ _)); [done|lia..].
Qed.

(** Expiry reports, in ascending order, exactly the resting orders whose
    deadline is set and has passed, and none of them is left in the book. *)
Lemma expire_exact b now :
  reachable b →
  ∃ b', expire now b = Ok (expired_ids now b, b') ∧ WF b' ∧
    (∀ i, i ∈ expired_ids now b ↔
       ∃ e, orders b !! i = Some e ∧ 0 < o_expiry_ns (e_order e) ≤ now) ∧
    Sorted Z.le (expired_ids now b) ∧
    ∀ i, i ∈ expired_ids now b → orders b' !! i = None.
Proof.
  intros HR. destruct (expire_ok now b (reachable_WF _ HR)) as (b' & Hr & HW & _ & Hin).
  exists b'. split_and!; try done; [intros; apply expired_ids_elem|].
  unfold expired_ids. apply Sorted_merge_sort; apply _.
Qed.

Lemma expire_exact_witness :
  ∃ b', expire 50 sample = Ok (expired_ids 50 sample, b') ∧ WF b' ∧
    (∀ i, i ∈ expired_ids 50 sample ↔
       ∃ e, orders sample !! i = Some e ∧ 0 < o_expiry_ns (e_order e) ≤ 50) ∧
    Sorted Z.le (expired_ids 50 sample) ∧
    ∀ i, i ∈ expired_ids 50 sample → orders b' !! i = None.
Proof. apply (expire_exact sample 50). exact sample_reachable. Defined.
