(* ===== verification/BookOrders.v ===== *)
(** * Order-type guarantees

    What a submitter may rely on: a rejected order changes nothing, a post-only
    order never takes, a fill-or-kill order fills whole or not at all against
    plain liquidity, a reduce-only order never executes beyond the position it
    reduces. *)

From S2P Require Import Prelude.
From S2P Require Import Order.
From S2P Require Import Ladder.
From S2P Require Import Book.
From S2P Require Import Replica.
From S2P Require Import BookInv.
From S2P Require Import BookMatch.
From S2P Require Import BookRest.
From S2P Require Import BookFlow.
From S2P Require Import BookAuction.
From S2P Require Import BookSubmit.
From S2P Require Import BookPriority.
From S2P Require Import BookDepth.
From S2P Require Import Sample.

(** ** The outcome through the contingent-order phase *)
Definition adds_trades (out out' : SubmitOutcome) : Prop := ∃ ts, out' = set_out_trades ts out.

#[export] Instance adds_trades_preorder : PreOrder adds_trades.
Proof.
  split.
  - intros out. exists (out_trades out). by destruct out.
  - intros o1 o2 o3 (t1 & ->) (t2 & ->). by exists t2.
Qed.

Lemma res_foldl_rel {A B} (f : B → A → res B) (R : B → B → Prop) `{!PreOrder R} l : ∀ acc acc',
  (∀ a x a', f a x = Ok a' → R a a') → res_foldl f acc l = Ok acc' → R acc acc'.
Proof.
  induction l as [|x l IH]; intros acc acc' Hf Hr; simpl in Hr; [by simplify_eq|].
  destruct (f acc x) as [a|] eqn:E; [|done]. simpl in Hr. etrans; [by eapply Hf|by eapply IH].
Qed.

Definition outcome_rel (x y : SubmitOutcome * Impl) : Prop := adds_trades x.1 y.1.
#[export] Instance outcome_rel_preorder : PreOrder outcome_rel.
Proof.
  split; [intros x; unfold outcome_rel; reflexivity|].
  intros x y z H1 H2. unfold outcome_rel in *. by etrans.
Qed.

Lemma release_children_outcome submit gid out b out' b' :
  release_children submit gid out b = Ok (out', b') → adds_trades out out'.
Proof.
  unfold release_children. cbv zeta. intros H.
  match type of H with (?m ≫= _) = _ => destruct m as [[out1 b1]|] eqn:E1; [|done] end. simpl in H.
  assert (adds_trades out out1) as H1.
  { destruct (g_pending_child _) as [c|]; [|by simplify_eq].
    destruct (submit _ _) as [[co b2]|]; [|done]. simpl in E1. simplify_eq. by eexists. }
  etrans; [exact H1|].
  apply (res_foldl_rel _ outcome_rel _ _ _) in H; [exact H|].
  intros [o1 b2] c [o2 b3] Hc. destruct (submit _ _) as [[co b4]|]; [|done]. simpl in Hc. simplify_eq.
  by eexists.
Qed.

Lemma process_link_fills_outcome submit o out b out' b' :
  process_link_fills submit o out b = Ok (out', b') → adds_trades out out'.
Proof.
  intros H. apply (res_foldl_rel _ outcome_rel _ _ _) in H; [exact H|]. clear H.
  intros [o1 b1] i [o2 b2] Hc. unfold link_fill in Hc. cbv zeta in Hc.
  match type of Hc with context [match ?x with Some gid => _ | None => Ok (o1, b1) end] =>
    destruct x as [gid|]; [|by simplify_eq] end.
  destruct (groups b1 !! gid) as [g|]; [|by simplify_eq].
  match type of Hc with (?m ≫= _) = _ => destruct m as [b3|]; [|done] end. simpl in Hc.
  match type of Hc with context [if ?c then release_children _ _ _ _ else _] => destruct c end.
  - by eapply release_children_outcome.
  - simplify_eq. unfold outcome_rel. reflexivity.
Qed.

(** ** The continuous path, decomposed *)

(** [submit_match] returns the filled quantity of the match itself. *)
Lemma submit_match_filled submit o b out b' :
  submit_match submit o b = Ok (out, b') →
  out_accepted out = true ∧
  ∃ c o1 b1 ts, match_ o b [] = Ok (c, o1, b1, ts) ∧ out_filled out = o_filled o1.
Proof.
  unfold submit_match. intros H.
  destruct (match_ o b []) as [[[[c o1] b1] ts]|] eqn:Hm; [|done]. simpl in H.
  set (out0 := set_out_filled _ _) in H.
  match type of H with (let '(_, _) := ?x in _) = _ => destruct x as [out1 b2] eqn:E end.
  assert (out_accepted out1 = true ∧ out_filled out1 = o_filled o1) as [Ha Hf].
  { destruct (_ && _ && _ && _); [destruct (rest o1 b1 []) as [[r b3] ev]|]; by simplify_eq. }
  match type of H with (?m ≫= _) = _ => destruct m as [[b3 ts3]|]; [|done] end. simpl in H.
  destruct (reprice_pegs b3) as [b4|]; [|done]. simpl in H.
  apply process_link_fills_outcome in H as (ts5 & ->). split; [done|]. by exists c, o1, b1, ts.
Qed.

(** ** Rejections *)

(** Same orders, levels, parked orders, positions, last price and feed. *)
Record same_book (b b' : Impl) : Prop := mkSame {
  sb_cold : cold b b';
  sb_orders : orders b' = orders b;
  sb_levels : ∀ s p, level_at (ladder s b') p = level_at (ladder s b) p;
  sb_pegged : pegged b' = pegged b;
  sb_positions : positions b' = positions b;
  sb_last : last_trade_price b' = last_trade_price b;
  sb_emitted : emitted b' = emitted b;
}.

Lemma same_book_refl b : same_book b b.
Proof. by split. Qed.

Lemma crosses_same o b : Core b → same_book b (crosses o b).2.
Proof.
  intros HC. unfold crosses. set (s := Opposite (o_side o)).
  destruct (best_spec (ladder s b) (core_ladder _ HC s) (core_cache _ HC s)) as (_ & HL & _ & _).
  destruct (best (ladder s b)) as [bp L]. simpl in HL.
  assert (same_book b (set_ladder s L b)) as H.
  { destruct HL as [_ HL]. split; try (by destruct s).
    intros t p. rewrite ladder_set_ladder. case_decide; [subst; apply HL|done]. }
  destruct bp as [bp|]; [|done]. by destruct (o_type o).
Qed.

Lemma submit_continuous_rejected submit o b out b' :
  Core b → submit_continuous submit o b = Ok (out, b') → out_accepted out = false → same_book b b'.
Proof.
  intros HC H Hacc. unfold submit_continuous in H.
  assert (∃ w b1, (if HasFlag (o_flags o) kPostOnly then crosses o b else (false, b)) = (w, b1) ∧
    same_book b b1) as (w & b1 & E & Hs).
  { case_if; [|by exists false, b]. exists (crosses o b).1, (crosses o b).2.
    split; [by destruct (crosses o b)|by apply crosses_same]. }
  rewrite E in H. cbv zeta in H.
  destruct w; [by simplify_eq|].
  destruct (is_reduce_only o && (o_client_id o =? 0)); [by simplify_eq|].
  destruct (is_reduce_only o && (reduce_only_capacity o b1 <=? 0)); [by simplify_eq|].
  set (o2 := if is_reduce_only o && _ then _ else o) in H.
  destruct (HasFlag (o_flags o2) kAon && (available_fill o2 b1 <? o_leaves o2)).
  { destruct (_ || _); [by simplify_eq|]. destruct (rest o2 b1 []) as [[r b2] ev].
    destruct (reprice_pegs b2); [|done]. simpl in H. by simplify_eq. }
  destruct ((0 <? o_min_qty o2) && (o_qty o2 <? o_min_qty o2)); [by simplify_eq|].
  destruct ((0 <? o_min_qty o2) && (available_fill o2 b1 <? o_min_qty o2)); [by simplify_eq|].
  apply submit_match_filled in H as [H _]. congruence.
Qed.

Lemma submit_eq o b :
  submit o b = submit_stamped (submit_fuel (pending_total b)) (stamp o b).1 (stamp o b).2.
Proof. reflexivity. Qed.

Lemma submit_stop_accepted o b out b' : submit_stop o b = Ok (out, b') → out_accepted out = true.
Proof.
  unfold submit_stop. cbv zeta. intros H. destruct (have_last b && _).
  - destruct (inject _ _ _) as [[[o2 b2] ts]|]; [|done]. simpl in H.
    destruct (evaluate_stops b2 ts) as [[b3 ts3]|]; [|done]. simpl in H. by simplify_eq.
  - by simplify_eq.
Qed.

Lemma submit_peg_rejected o b out b' :
  submit_peg o b = Ok (out, b') → out_accepted out = false → b' = b.
Proof.
  unfold submit_peg. cbv zeta. intros H Ha. destruct (compute_peg_price o b); [|by simplify_eq].
  destruct (rest _ b []) as [[r b2] ev]. by simplify_eq.
Qed.

Lemma submit_stamped_rejected submit o b out b' :
  Core b → submit_stamped submit o b = Ok (out, b') → out_accepted out = false → same_book b b'.
Proof.
  intros HC H Ha. unfold submit_stamped in H. cbv zeta in H. pose proof (same_book_refl b) as Hrefl.
  destruct (_ || _) in H; [by simplify_eq|]. destruct (_ && _ && _) in H; [by simplify_eq|].
  destruct (match orders b !! o_id o with Some _ => _ | None => _ end) in H; [by simplify_eq|].
  destruct (IsOpeningAuction _) in H; [by simplify_eq|]. destruct (IsClosingAuction _) in H; [by simplify_eq|].
  match type of H with match o_link o with Some _ => _ | None => ?x end = _ => set (active := x) in H end.
  assert (active = Ok (out, b') → same_book b b') as Hact.
  { unfold active. intros Hact.
    assert (match o_peg o with Some _ => submit_peg o b | None => submit_continuous submit o b end
      = Ok (out, b') → same_book b b') as Hc.
    { destruct (o_peg o); intros H'; [by apply submit_peg_rejected in H' as ->|].
      by eapply submit_continuous_rejected. }
    destruct (o_trigger o); [|by apply Hc]. destruct (negb _); [|by apply Hc].
    apply submit_stop_accepted in Hact. congruence. }
  destruct (o_link o) as [l|]; [|by apply Hact]. destruct (lk_role l); try (by apply Hact); by simplify_eq.
Qed.

(** C14: a rejected order changes nothing observable.  When [submit] reports
    [accepted = false], the resting orders, every level, the parked and held
    orders, positions, the last price and the event feed are what they were;
    only the sequence counter (and the cached best price) moved. *)
Theorem rejected_no_effect o b out b' :
  Core b → submit o b = Ok (out, b') → out_accepted out = false → same_book b b'.
Proof.
  intros HC H Ha. rewrite submit_eq in H.
  apply submit_stamped_rejected in H; [|apply Core_next_seq, HC|done].
  destruct H as [[] ? Hl ? ? ? ?]. split; try done.
Qed.

(** A post-only bid through the best ask. *)
Definition crossing_maker : Order := limit 8 5 Buy 101 7 GTX 0.

Lemma rejected_no_effect_witness :
  match submit crossing_maker sample with
  | Ok (out, b') => out_accepted out = false ∧ same_book sample b'
  | Err _ => False
  end.
Proof.
  destruct (submit crossing_maker sample) as [[out b']|] eqn:H; [|vm_compute in H; discriminate H].
  assert (out_accepted out = false) as Ha.
  { assert (match submit crossing_maker sample with Ok (out, _) => out_accepted out = false | Err _ => False end)
      as E by (vm_compute; reflexivity). rewrite H in E. exact E. }
  split; [exact Ha|].
  apply (rejected_no_effect crossing_maker sample out b'); [exact (wf_core _ sample_WF)|exact H|exact Ha].
Defined.

(** ** Post-only *)
Lemma crosses_false_no_trade o b c o' b' ts :
  Core b → 0 ≤ o_leaves o → (crosses o b).1 = false →
  match_ o (crosses o b).2 [] = Ok (c, o', b', ts) → ts = [].
Proof.
  intros HC Hle Hcr Hm. set (s := Opposite (o_side o)).
  pose proof (crosses_same o b HC) as Hsame.
  assert (Core (crosses o b).2) as HC1.
  { clear Hcr Hm Hsame. unfold crosses. fold s.
    destruct (best_spec (ladder s b) (core_ladder _ HC s) (core_cache _ HC s)) as (_ & HL & Hc & Hok).
    destruct (best (ladder s b)) as [bp L]. simpl in *.
    assert (Core (set_ladder s L b)) as H by (by apply Core_same_levels).
    destruct bp; [|done]. by destruct (o_type o). }
  destruct (match_ok o _ [] HC1 Hle) as (c1 & o1 & b1 & ts1 & Hm1 & [_ HM _ _ _]).
  rewrite Hm in Hm1. simplify_eq. simpl in *. destruct ts1 as [|t ts]; [done|]. exfalso.
  pose proof (mt_trades _ _ _ _ _ HM) as Ht. apply Forall_cons in Ht as [(_ & Ha & Hr) _].
  rewrite (sb_orders _ _ Hsame) in Hr. fold s in Hr.
  assert (populated (ladder s b) (t_price t)) as Hpop by (apply populated_rests; [done|by exists (t_maker_id t)]).
  destruct (best_spec (ladder s b) (core_ladder _ HC s) (core_cache _ HC s)) as (Hb & _).
  unfold crosses in Hcr. fold s in Hcr. destruct (best (ladder s b)) as [bp L] eqn:Eb. simpl in Hb.
  destruct bp as [p|].
  - assert (acceptable o p = false) as Hna.
    { unfold acceptable. destruct (o_type o); [done|]. by destruct (o_side o). }
    assert (is_best (ladder s b) p) as [_ Hbest] by (by apply Hb).
    specialize (Hbest _ Hpop). rewrite (core_side _ HC s) in Hbest.
    destruct (decide (t_price t = p)) as [E|Hne]; [congruence|].
    assert (better s p (t_price t) = true) as Hbt.
    { unfold better in *. destruct s; lia. }
    pose proof (acceptable_better o p (t_price t) Hbt Ha). congruence.
  - apply (best_None (ladder s b) (t_price t)); [apply HC|by rewrite Eb|done].
Qed.

Lemma process_link_fills_nil submit o out b :
  o_link o = None → out_trades out = [] → process_link_fills submit o out b = Ok (out, b).
Proof. intros Hl Ht. unfold process_link_fills, linked_fills. by rewrite Hl, Ht. Qed.

(** [submit_match] when nothing matches. *)
Lemma submit_match_silent submit o b out b' c o1 b1 :
  o_link o = None → match_ o b [] = Ok (c, o1, b1, []) → o_link o1 = None →
  submit_match submit o b = Ok (out, b') → out_trades out = [].
Proof.
  intros Hl Hm Hl1 H. unfold submit_match in H. rewrite Hm in H. simpl in H.
  match type of H with (let '(_, _) := ?x in _) = _ => destruct x as [out1 b2] eqn:E end.
  assert (out_trades out1 = []) as Ht.
  { destruct (_ && _ && _ && _); [destruct (rest o1 b1 []) as [[r b3] ev]|]; by simplify_eq. }
  rewrite Ht in H. simpl in H. destruct (reprice_pegs b2) as [b4|]; [|done]. simpl in H.
  rewrite process_link_fills_nil in H; [|done|done]. by simplify_eq.
Qed.

(** Stamping keeps the trigger, the link and what [Normalize] decided. *)
Lemma stamp_fields o b :
  o_trigger (stamp o b).1 = o_trigger o ∧ o_link (stamp o b).1 = o_link o ∧
  o_flags (stamp o b).1 = o_flags (Normalize o).
Proof.
  unfold stamp, Normalize. destruct (decide (o_tif o = GTX)); [|destruct (decide (o_tif o = FOK))]; simpl;
    repeat case_if; done.
Qed.

Lemma post_only_stamped submit o b out b' :
  WF b → (0 < o_qty o → 0 < o_leaves o → order_ok o) →
  o_trigger o = None → o_link o = None → HasFlag (o_flags o) kPostOnly = true →
  is_reduce_only o = false →
  submit_stamped submit o b = Ok (out, b') → out_trades out = [].
Proof.
  intros HW Hok Htr Hlk Hpo Hro H.
  unfold submit_stamped in H. cbv zeta in H. rewrite Htr, Hlk in H.
  destruct (_ || _) eqn:Eq in H; [by simplify_eq|]. bool_split.
  specialize (Hok ltac:(lia) ltac:(lia)).
  destruct (_ && _ && _) in H; [by simplify_eq|].
  destruct (match orders b !! o_id o with Some _ => _ | None => _ end) in H; [by simplify_eq|].
  destruct (IsOpeningAuction _) in H; [by simplify_eq|]. destruct (IsClosingAuction _) in H; [by simplify_eq|].
  destruct (o_peg o).
  { unfold submit_peg in H. cbv zeta in H. destruct (compute_peg_price o b); [|by simplify_eq].
    destruct (rest _ b []) as [[r b2] ev]. by simplify_eq. }
  unfold submit_continuous in H. rewrite Hpo in H. cbv zeta in H.
  destruct (crosses o b) as [w b2] eqn:Ec. destruct w; [by simplify_eq|].
  rewrite Hro in H. simpl in H.
  destruct (HasFlag (o_flags o) kAon && (available_fill o b2 <? o_leaves o)).
  { destruct (_ || _); [by simplify_eq|]. destruct (rest o b2 []) as [[r b3] ev].
    destruct (reprice_pegs b3); [|done]. simpl in H. by simplify_eq. }
  destruct ((0 <? o_min_qty o) && (o_qty o <? o_min_qty o)); [by simplify_eq|].
  destruct ((0 <? o_min_qty o) && (available_fill o b2 <? o_min_qty o)); [by simplify_eq|].
  assert (0 ≤ o_leaves o) as Hle by lia.
  pose proof (submit_match_filled _ _ _ _ _ H) as (_ & c & o2 & b3 & ts & Hm & _).
  assert (ts = []) as ->.
  { eapply (crosses_false_no_trade o b); [apply HW|done|by rewrite Ec|rewrite Ec; exact Hm]. }
  eapply submit_match_silent; [exact Hlk|exact Hm| |exact H].
  assert (Core b2) as HC2.
  { pose proof (crosses_ok o b HW) as Hx. rewrite Ec in Hx. apply Hx. }
  destruct (match_ok o b2 [] HC2 Hle) as (c3 & o3 & b4 & ts3 & Hm3 & [_ HM _ _ _]).
  rewrite Hm in Hm3. simplify_eq. by rewrite (mt_fill _ _ _ _ _ HM).
Qed.

(** A post-only order (flag or time in force GTX) that is not a stop and
    not contingent never takes liquidity: whether it is rejected, rested,
    queued for an auction or pegged, its submission executes nothing. *)
Lemma post_only_never_takes o b out b' :
  WF b → submittable o →
  o_trigger o = None → o_link o = None → HasFlag (o_flags (Normalize o)) kPostOnly = true →
  HasFlag (o_flags (Normalize o)) kReduceOnly = false →
  submit o b = Ok (out, b') → out_trades out = [].
Proof.
  intros HW Hsub Htr Hlk Hpo Hro H. rewrite submit_eq in H.
  destruct (stamp_fields o b) as (Et & El & Ef). destruct (stamp_WF o b HW) as (HW1 & _ & _).
  apply (post_only_stamped _ _ _ _ _ HW1 (stamp_order_ok o b Hsub)) in H; [done|..].
  - by rewrite Et.
  - by rewrite El.
  - by rewrite Ef.
  - unfold is_reduce_only. by rewrite Ef.
Qed.

Definition passive : Order := limit 8 5 Buy 99 7 GTX 0.

Lemma post_only_never_takes_witness :
  match submit passive sample with Ok (out, _) => out_trades out = [] | Err _ => False end.
Proof.
  destruct (submit passive sample) as [[out b']|] eqn:H; [|vm_compute in H; discriminate H].
  apply (post_only_never_takes passive sample out b');
    [exact sample_WF|by split|reflexivity|reflexivity|vm_compute; reflexivity|
     vm_compute; reflexivity|exact H].
Defined.

(** ** Fill or kill *)
Lemma serve_total q l :
  0 ≤ q → Forall (λ x, 0 ≤ of_qty x) l → zsum of_qty (serve q l) = Z.min q (zsum of_qty l).
Proof.
  revert q. induction l as [|x l IH]; intros q Hq Hpos; simpl; [lia|].
  apply Forall_cons in Hpos as [Hx Hpos].
  assert (0 ≤ zsum of_qty l).
  { apply zsum_nonneg. intros y Hy. rewrite Forall_forall in Hpos. by apply Hpos. }
  case_if; simpl; [lia|]. rewrite IH by (done || lia). lia.
Qed.

Lemma offers_pos o b : Core b → Forall (λ x, 0 ≤ of_qty x) (offers o b).
Proof.
  intros HC. unfold offers. case_if; [constructor|]. apply Forall_concat, Forall_fmap, Forall_forall.
  intros i _. simpl. case_if; [|constructor].
  by apply (offers_at_pos (orders b) (ladders b) (Opposite (o_side o)) _ _ (core_levels _ HC) (core_entries _ HC)).
Qed.

Lemma zsum_offer_of ts : zsum of_qty (offer_of <$> ts) = zsum t_qty ts.
Proof. induction ts as [|t ts IH]; cbn; [done|]. f_equal. exact IH. Qed.

(** Against plain liquidity the match executes exactly what [available_fill]
    announced. *)
Lemma match_available o b c o' b' ts :
  Core b → 0 ≤ o_leaves o →
  (∀ i e, orders b !! i = Some e → o_side (e_order e) = Opposite (o_side o) →
          acceptable o (o_price (e_order e)) = true → plain o b e) →
  match_ o b [] = Ok (c, o', b', ts) →
  zsum t_qty ts = available_fill o b ∧ o' = fill_order (available_fill o b) o.
Proof.
  intros HC Hle Hpl Hm. destruct (match_serve o b [] HC Hle Hpl) as (o1 & b1 & ts1 & Hm1 & Hts).
  destruct (match_ok o b [] HC Hle) as (c2 & o2 & b2 & ts2 & Hm2 & [_ HM _ _ _]).
  rewrite Hm in Hm1, Hm2. simplify_eq. simpl in *.
  assert (zsum t_qty ts1 = available_fill o b) as E.
  { rewrite <-zsum_offer_of, Hts, serve_total, available_fill_offers by (done || by apply offers_pos). lia. }
  split; [done|]. rewrite <-E. apply HM.
Qed.

Lemma same_book_plain o b b1 :
  same_book b b1 → (∀ i e, orders b !! i = Some e → o_side (e_order e) = Opposite (o_side o) →
          acceptable o (o_price (e_order e)) = true → plain o b e) →
  ∀ i e, orders b1 !! i = Some e → o_side (e_order e) = Opposite (o_side o) →
          acceptable o (o_price (e_order e)) = true → plain o b1 e.
Proof.
  intros Hs H i e He Hsd Ha. rewrite (sb_orders _ _ Hs) in He. destruct (H i e He Hsd Ha) as (? & ? & Hst).
  split_and!; try done. rewrite <-Hst. apply self_trade_ext; [|done|done]. apply Hs.
Qed.

(** C13: fill or kill. An all-or-none immediate order (what FOK becomes) that is
    not reduce-only, meeting only plain orders at acceptable prices: when its
    continuous submission returns, it is filled for its whole quantity or
    rejected without any effect. *)
Theorem fill_or_kill submit o b out b' :
  WF b → order_ok o → HasFlag (o_flags o) kAon = true → o_tif o = IOC →
  is_reduce_only o = false →
  (∀ i e, orders b !! i = Some e → o_side (e_order e) = Opposite (o_side o) →
          acceptable o (o_price (e_order e)) = true → plain o b e) →
  submit_continuous submit o b = Ok (out, b') →
  (out_accepted out = false ∧ same_book b b') ∨
  (out_accepted out = true ∧ out_filled out = o_filled o + o_leaves o).
Proof.
  intros HW Ho Haon Htif Hro Hpl H. destruct (out_accepted out) eqn:Hacc.
  2:{ left. split; [done|]. by eapply submit_continuous_rejected; [apply HW|..]. }
  right. split; [done|]. assert (0 ≤ o_leaves o) as Hle by (destruct Ho; lia).
  unfold submit_continuous in H. cbv zeta in H.
  assert (∃ w b1, (if HasFlag (o_flags o) kPostOnly then crosses o b else (false, b)) = (w, b1) ∧
    same_book b b1 ∧ WF b1) as (w & b1 & E & Hs & HW1).
  { case_if; [|by exists false, b]. exists (crosses o b).1, (crosses o b).2.
    split_and!; [by destruct (crosses o b)|by apply crosses_same, HW|by apply crosses_ok]. }
  rewrite E in H. destruct w; [by simplify_eq|]. rewrite Hro in H. cbn [andb] in H. rewrite Haon, Htif in H. simpl in H.
  destruct (available_fill o b1 <? o_leaves o) eqn:Hav; [by simplify_eq|]. bool_split.
  destruct ((0 <? o_min_qty o) && (o_qty o <? o_min_qty o)); [by simplify_eq|].
  destruct ((0 <? o_min_qty o) && (available_fill o b1 <? o_min_qty o)); [by simplify_eq|].
  apply submit_match_filled in H as (_ & c & o1 & b2 & ts & Hm & ->).
  destruct (match_available o b1 c o1 b2 ts (wf_core _ HW1) Hle (same_book_plain o b b1 Hs Hpl) Hm) as [_ ->].
  simpl. rewrite available_fill_offers in Hav |- * by (done || apply HW1). lia.
Qed.

Definition fok : Order :=
  set_o_leaves 6 (set_o_display_qty 6 (limit 8 5 Buy 100 6 IOC (flag_bit kAon))).

Lemma fill_or_kill_witness :
  match submit_continuous (λ _ _, Err OutOfFuel) fok sample with
  | Ok (out, b') =>
      (out_accepted out = false ∧ same_book sample b') ∨
      (out_accepted out = true ∧ out_filled out = o_filled fok + o_leaves fok)
  | Err _ => False
  end.
Proof.
  destruct (submit_continuous (λ _ _, Err OutOfFuel) fok sample) as [[out b']|] eqn:H;
    [|vm_compute in H; discriminate H].
  apply (fill_or_kill (λ _ _, Err OutOfFuel) fok sample out b');
    [exact sample_WF|by split_and!|reflexivity|reflexivity|reflexivity| |exact H].
  apply plain_makers_spec. vm_compute. reflexivity.
Defined.

(** ** Reduce only *)

(** A reduce-only order is clamped to the position it reduces: accepted,
    it has an account whose unreserved position on the other side is positive,
    and it executes at most that much. *)
Lemma reduce_only_bounded submit o b out b' :
  WF b → order_ok o → 0 ≤ o_filled o → is_reduce_only o = true →
  submit_continuous submit o b = Ok (out, b') → out_accepted out = true →
  o_client_id o ≠ 0 ∧ 0 < reduce_only_capacity o b ∧
  out_filled out ≤ o_filled o + reduce_only_capacity o b.
Proof.
  intros HW Ho Hfl Hro H Hacc. unfold submit_continuous in H. cbv zeta in H.
  assert (∃ w b1, (if HasFlag (o_flags o) kPostOnly then crosses o b else (false, b)) = (w, b1) ∧
    same_book b b1 ∧ WF b1) as (w & b1 & E & Hs & HW1).
  { case_if; [|by exists false, b]. exists (crosses o b).1, (crosses o b).2.
    split_and!; [by destruct (crosses o b)|by apply crosses_same, HW|by apply crosses_ok]. }
  rewrite E in H. destruct w; [by simplify_eq|]. rewrite Hro in H. cbn [andb] in H.
  assert (reduce_only_capacity o b1 = reduce_only_capacity o b) as Ecap
    by (unfold reduce_only_capacity; by rewrite (sb_positions _ _ Hs)).
  rewrite Ecap in H. set (cap := reduce_only_capacity o b) in *.
  destruct (o_client_id o =? 0) eqn:Hcl; [by simplify_eq|].
  destruct (cap <=? 0) eqn:Hcap; [by simplify_eq|]. bool_split. split_and!; [done|done|].
  set (o2 := if cap <? o_leaves o then set_o_qty cap (set_o_leaves cap o) else o) in H.
  assert (o_leaves o2 ≤ cap ∧ o_filled o2 = o_filled o ∧ 0 ≤ o_leaves o2) as (Hl2 & Hf2 & Hle2).
  { unfold o2. destruct Ho as [? _]. case_if; simpl; lia. }
  destruct (HasFlag (o_flags o2) kAon && (available_fill o2 b1 <? o_leaves o2)).
  { destruct (_ || _); [by simplify_eq|]. destruct (rest o2 b1 []) as [[r b2] ev].
    destruct (reprice_pegs b2); [|done]. simpl in H. simplify_eq. simpl. lia. }
  destruct ((0 <? o_min_qty o2) && (o_qty o2 <? o_min_qty o2)); [by simplify_eq|].
  destruct ((0 <? o_min_qty o2) && (available_fill o2 b1 <? o_min_qty o2)); [by simplify_eq|].
  apply submit_match_filled in H as (_ & c & o3 & b3 & ts & Hm & ->).
  destruct (match_ok o2 b1 [] (wf_core _ HW1) Hle2) as (c4 & o4 & b4 & ts4 & Hm4 & [_ HM _ _ _]).
  rewrite Hm in Hm4. simplify_eq. pose proof (mt_leaves _ _ _ _ _ HM) as Hl.
  rewrite (mt_fill _ _ _ _ _ HM) in *. simpl in *. lia.
Qed.

(** Account 9 bought four lots in the sample session; it may sell at most four. *)
Definition reducer : Order :=
  set_o_leaves 6 (set_o_display_qty 6 (limit 8 9 Sell 98 6 IOC (flag_bit kReduceOnly))).

Lemma reduce_only_bounded_witness :
  match submit_continuous (λ _ _, Err OutOfFuel) reducer sample with
  | Ok (out, b') =>
      o_client_id reducer ≠ 0 ∧ 0 < reduce_only_capacity reducer sample ∧
      out_filled out ≤ o_filled reducer + reduce_only_capacity reducer sample
  | Err _ => False
  end.
Proof.
  destruct (submit_continuous (λ _ _, Err OutOfFuel) reducer sample) as [[out b']|] eqn:H;
    [|vm_compute in H; discriminate H].
  apply (reduce_only_bounded (λ _ _, Err OutOfFuel) reducer sample out b');
    [exact sample_WF|by split_and!|done|reflexivity|exact H|].
  assert (match submit_continuous (λ _ _, Err OutOfFuel) reducer sample with
          | Ok (out, _) => out_accepted out = true | Err _ => False end) as E by (vm_compute; reflexivity).
  rewrite H in E. exact E.
Defined.
