(* ===== verification/Findings.v ===== *)
(** * Behaviours at odds with the documented intent

    Concrete sessions, evaluated, in which the code departs from what its
    comments promise.  None of them contradicts the theorems of the other
    files, whose hypotheses exclude them. *)

From S2P Require Import Prelude.
From S2P Require Import Order.
From S2P Require Import Ladder.
From S2P Require Import Book.
From S2P Require Import Sample.

(** The outcome of a submission, if it returns. *)
Definition outcome (o : Order) (b : Impl) : option SubmitOutcome :=
  match submit o b with Ok (out, _) => Some out | Err _ => None end.

(** ** Fill-or-kill against one's own quote

    [available_fill] counts the aggressor's own resting order, which self-trade
    prevention then cancels instead of filling. *)
Definition own_quote : Impl :=
  submit_all (new_book kCancelResting 0)
    [limit 1 7 Sell 100 5 GTC 0; limit 2 8 Sell 100 5 GTC 0].

Theorem fok_partially_filled :
  (λ out, (out_accepted out, out_filled out)) <$> outcome (limit 3 7 Buy 100 10 FOK 0) own_quote
  = Some (true, 5).
Proof. vm_compute. reflexivity. Qed.

(** ** Hidden icebergs

    A hidden iceberg shows nothing until its first slice is exhausted; the
    replenishment then adds the new slice to the lit quantity. *)
Definition hidden_iceberg : Impl :=
  submit_all (new_book kStpNone 0)
    [set_o_display_qty 2 (limit 1 7 Sell 100 6 GTC (Z.lor (flag_bit kHidden) (flag_bit kIceberg)))].

Theorem hidden_iceberg_leaks :
  displayed_qty_at Sell 100 hidden_iceberg = 0 ∧
  displayed_qty_at Sell 100 (submit_all hidden_iceberg [limit 2 8 Buy 100 2 GTC 0]) = 2.
Proof. by vm_compute. Qed.

(** ** A fired stop against one's own quote

    [inject] ignores the self-trade verdict of [match], so the remainder of an
    aggressor that should have been cancelled rests, crossing the book. *)
Definition armed : Impl :=
  submit_all (new_book kCancelAggressor 0)
    [limit 1 7 Sell 102 5 GTC 0;
     set_o_trigger (Some (mkTrigger KStop 101 0 0 false)) (limit 2 7 Buy 103 5 GTC 0);
     limit 3 8 Sell 101 1 GTC 0; limit 4 9 Buy 101 1 GTC 0].

Theorem fired_stop_crosses_book :
  (best_bid armed).1 = Some 103 ∧ (best_ask armed).1 = Some 102.
Proof. by vm_compute. Qed.

(** ** Reduce-only orders beyond the window

    A reduce-only order that rests deep reserves nothing, but when it is pulled
    back and cancelled its leaves are released: the reservation goes negative
    and the next reduce-only order may exceed the position. *)
Definition long_ten : Impl := seed_position 7 10 (new_book kStpNone 1).

Definition deep_reduce : Impl :=
  let b := submit_all long_ten
    [limit 1 8 Sell 100 1 GTC 0; limit 2 7 Sell 105 10 GTC (flag_bit kReduceOnly)] in
  let b := insert_resident
    (set_o_leaves 10 (set_o_display_qty 10 (limit 2 7 Sell 105 10 GTC (flag_bit kReduceOnly)))) b in
  after b (cancel 2 b).

Theorem deep_reduce_only_overreleases :
  reduce_only_capacity (limit 3 7 Sell 100 30 GTC (flag_bit kReduceOnly)) deep_reduce = 20 ∧
  position 7 deep_reduce = 10.
Proof. by vm_compute. Qed.

(** ** Duplicate ids

    The duplicate check consults resting orders and parked stops only: a second
    order with the id of a queued auction order is accepted. *)
Theorem auction_duplicate_accepted :
  let b := submit_all (new_book kStpNone 0) [limit 1 7 Buy 100 5 GTC (flag_bit kLoo)] in
  out_accepted <$> outcome (limit 1 8 Sell 100 5 GTC (flag_bit kLoo)) b = Some true.
Proof. vm_compute. reflexivity. Qed.

(** ** The rank of a fired stop

    A stop-limit keeps the rank of its submission, so when it fires and rests
    behind an order that arrived later its rank is the smaller of the two: a
    reconstruction of the level in rank order restores it in front. *)
Definition queue_ranks (s : Side) (p : Ticks) (b : Impl) : list (OrderId * SeqNo) :=
  (λ i, (i, from_option (λ e, o_rank (e_order e)) 0 (orders b !! i))) <$> fifo (level_at (ladder s b) p).

Definition fired_behind : Impl :=
  submit_all (new_book kStpNone 0)
    [set_o_trigger (Some (mkTrigger KStop 101 0 0 false)) (limit 1 7 Buy 100 5 GTC 0);
     limit 2 8 Buy 100 5 GTC 0; limit 3 8 Sell 101 1 GTC 0; limit 4 9 Buy 101 1 GTC 0].

Theorem fired_stop_rank_inverted : queue_ranks Buy 100 fired_behind = [(2, 2); (1, 1)].
Proof. vm_compute. reflexivity. Qed.

(** ** A post-only stop takes

    A stop skips the post-only gate when it is parked and when it fires. *)
Definition post_only_stop : Impl :=
  submit_all (new_book kStpNone 0)
    [limit 1 8 Sell 101 1 GTC 0; limit 2 8 Sell 102 5 GTC 0;
     set_o_trigger (Some (mkTrigger KStop 101 0 0 false)) (limit 3 7 Buy 102 5 GTX 0)].

Theorem post_only_stop_takes :
  (λ out, (λ t, (t_taker_id t, t_maker_id t)) <$> out_trades out) <$>
    outcome (limit 4 9 Buy 101 1 GTC 0) post_only_stop = Some [(4, 1); (3, 2)].
Proof. by vm_compute. Qed.

(** ** Auctions and self-trade prevention

    The cross pairs queued orders by price and arrival only: under any policy an
    account can trade with itself there. *)
Definition own_auction : Impl :=
  submit_all (new_book kCancelResting 0)
    [limit 1 7 Buy 100 5 GTC (flag_bit kLoo); limit 2 7 Sell 100 5 GTC (flag_bit kLoo)].

Theorem auction_trades_with_itself :
  match run_opening_auction own_auction with
  | Ok (ts, _) => (λ t, (t_taker_id t, t_maker_id t, t_qty t)) <$> ts
  | Err _ => []
  end = [(1, 2, 5)].
Proof. by vm_compute. Qed.

(** ** A negative display size

    Nothing rejects an iceberg with a negative display size: its slice is
    negative, a fill takes a negative quantity, and matching against it goes on
    for ever. *)
Definition negative_iceberg : Impl :=
  submit_all (new_book kStpNone 0)
    [set_o_display_qty (-1) (limit 1 7 Sell 100 5 GTC (flag_bit kIceberg))].

Theorem negative_display_spins : submit (limit 2 8 Buy 100 5 GTC 0) negative_iceberg = Err OutOfFuel.
Proof. by vm_compute. Qed.

(** ** The ladder's memory

    A price far from the others makes the side allocate a level for every tick in
    between, whoever sends it. *)
Theorem ladder_allocates_span L p :
  has_base L = true → Z.abs (p - base L) ≤ Z.of_nat (length (levels (touch L p))).
Proof.
  intros Hb. unfold touch. rewrite Hb. simpl. destruct (Z.ltb_spec p (base L)) as [Hlt|Hge]; simpl.
  - rewrite length_app, length_replicate. lia.
  - destruct (Z.leb_spec (base L + Z.of_nat (length (levels L))) p); simpl; [|lia].
    rewrite length_app, length_replicate. lia.
Qed.

(** ** The running totals

    Quantities of the model are unbounded.  The code adds the quantities of a
    level in 64 bits, and nothing keeps the sum within them: ten orders of
    eighteen digits, each of which a client may send, exceed them. *)
Theorem level_total_exceeds_64_bits :
  let b := submit_all (new_book kStpNone 0) ((λ i, limit i i Buy 100 (10 ^ 18 - 1) GTC 0) <$> [1; 2; 3; 4; 5; 6; 7; 8; 9; 10]) in
  2 ^ 63 ≤ total_qty_at Buy 100 b.
Proof. by vm_compute. Qed.
