(* ===== verification/BookEmit.v ===== *)
(** * What a book operation does to its event stream

    Every operation only appends to the delivered events, tags what it delivers
    with the book's symbol, leaves the sequence number to the engine, and keeps
    the book's configuration. *)

From S2P Require Import Prelude.
From S2P Require Import Order.
From S2P Require Import Ladder.
From S2P Require Import Book.

Record extends (b b' : Impl) : Prop := {
  ext_symbol : symbol_ b' = symbol_ b;
  ext_sink : event_sink_ b' = event_sink_ b;
  ext_mem : mem_levels b' = mem_levels b;
  ext_emitted : ∃ evs, emitted b' = emitted b ++ evs ∧
                  Forall (λ ev, ev_symbol ev = symbol_ b ∧ ev_seq ev = 0) evs;
}.

#[export] Instance extends_preorder : PreOrder extends.
Proof.
  split.
  - intros b. split; [done..|]. exists []. by rewrite app_nil_r.
  - intros b1 b2 b3 [H1 H2 H3 (l & H4 & H5)] [K1 K2 K3 (k & K4 & K5)].
    split; [congruence..|]. exists (l ++ k). rewrite K4, H4, app_assoc. split; [done|].
    apply Forall_app. by rewrite H1 in K5.
Qed.

(** Rules of the form "if [b1] extends [a] then so does what is built on it",
    so that [eauto] walks through an operation's updates. *)
Lemma ext_quiet a b b' :
  symbol_ b' = symbol_ b → event_sink_ b' = event_sink_ b → mem_levels b' = mem_levels b →
  emitted b' = emitted b → extends a b → extends a b'.
Proof. intros H1 H2 H3 H4 Ha. etrans; [done|]. split; [done..|]. exists []. by rewrite app_nil_r. Qed.

Create HintDb emit.
#[export] Hint Extern 1 (extends ?a ?a) => reflexivity : emit.

Ltac quiet :=
  match goal with |- extends ?a (_ _ ?b) => apply (ext_quiet a b); [reflexivity..|] end.
#[export] Hint Extern 4 (extends _ (set_bids _ _)) => quiet : emit.
#[export] Hint Extern 4 (extends _ (set_asks _ _)) => quiet : emit.
#[export] Hint Extern 4 (extends _ (set_orders _ _)) => quiet : emit.
#[export] Hint Extern 4 (extends _ (set_stops _ _)) => quiet : emit.
#[export] Hint Extern 4 (extends _ (set_pegged _ _)) => quiet : emit.
#[export] Hint Extern 4 (extends _ (set_groups _ _)) => quiet : emit.
#[export] Hint Extern 4 (extends _ (set_order_group _ _)) => quiet : emit.
#[export] Hint Extern 4 (extends _ (set_positions _ _)) => quiet : emit.
#[export] Hint Extern 4 (extends _ (set_opening_auction _ _)) => quiet : emit.
#[export] Hint Extern 4 (extends _ (set_closing_auction _ _)) => quiet : emit.
#[export] Hint Extern 4 (extends _ (set_next_seq _ _)) => quiet : emit.
#[export] Hint Extern 4 (extends _ (set_have_last _ _)) => quiet : emit.
#[export] Hint Extern 4 (extends _ (set_last_price _ _)) => quiet : emit.
#[export] Hint Extern 4 (extends _ (set_requeued_ _ _)) => quiet : emit.

Lemma ext_set_ladder a s L b : extends a b → extends a (set_ladder s L b).
Proof. destruct s; simpl; eauto with emit. Qed.

Lemma ext_note_deep a s p b : extends a b → extends a (note_deep s p b).
Proof. intros. unfold note_deep. destruct s; simpl; (apply (ext_quiet a b); [reflexivity..|done]). Qed.

Lemma ext_apply_position a c s q b : extends a b → extends a (apply_position c s q b).
Proof. intros. unfold apply_position. case_if; eauto with emit. Qed.

Lemma ext_release_reserved a o q b : extends a b → extends a (release_reserved o q b).
Proof. intros. unfold release_reserved. case_if; [done|]. case_match; eauto with emit. Qed.

Lemma ext_deliver a ev b :
  ev_symbol ev = symbol_ b → ev_seq ev = 0 → extends a b → extends a (deliver ev b).
Proof.
  intros Hs Hq Ha. unfold deliver. case_if; [|done]. etrans; [done|].
  split; [done..|]. exists [ev]. split; [done|]. by repeat constructor.
Qed.

Lemma ext_emit_event a ty o q d b : extends a b → extends a (emit_event ty o q d b).
Proof. by apply ext_deliver. Qed.
Lemma ext_emit_trade a t d b : extends a b → extends a (emit_trade t d b).
Proof. by apply ext_deliver. Qed.
Lemma ext_emit_reprice a o p p' q d b : extends a b → extends a (emit_reprice o p p' q d b).
Proof. by apply ext_deliver. Qed.
#[export] Hint Resolve ext_set_ladder ext_note_deep ext_apply_position ext_release_reserved
  ext_emit_event ext_emit_trade ext_emit_reprice : emit.

Lemma res_foldl_ext {A C} (P : C → C → Prop) (f : C → A → res C) l acc r :
  PreOrder P → (∀ x y r, f x y = Ok r → P x r) → res_foldl f acc l = Ok r → P acc r.
Proof.
  intros HP Hf. revert acc. induction l as [|x l IH]; intros acc; simpl; [by intros [= <-]|].
  intros (y & Hy & Hr)%bind_Ok. etrans; [by eapply Hf|by apply IH].
Qed.

(** Take a returned run apart, one bind or branch at a time. *)
Ltac run_step :=
  match goal with
  | H : (_ ≫= _) = Ok _ |- _ =>
      let E := fresh "E" in apply bind_Ok in H as (? & E & H); simpl in H
  | H : Ok _ = Ok _ |- _ => injection H as H; try subst
  | H : Err _ = Ok _ |- _ => discriminate H
  | H : (let '(_, _) := ?x in _) = Ok _ |- _ => destruct x eqn:?
  | H : (if ?c then _ else _) = Ok _ |- _ => destruct c eqn:?
  | H : match ?c with _ => _ end = Ok _ |- _ => destruct c eqn:?
  | H : (_, _) = (_, _) |- _ => injection H as; try subst
  | p : (_ * _)%type |- _ => destruct p
  end.
Ltac run := repeat (run_step; simpl in *; try subst).

(** ** Matching *)
Lemma ext_fill_step p m mid me rest :
  match fill_step p m mid me rest with
  | Continue m' | Break m' | Cancelled m' => extends (m_book m) (m_book m') end.
Proof.
  unfold fill_step, requeue. cbv zeta.
  match goal with |- context [release_reserved ?o ?q ?b] =>
    assert (extends (m_book m) (release_reserved o q b)) as Hb by eauto 10 with emit;
    revert Hb; generalize (release_reserved o q b); intros b3 Hb
  end.
  destruct (_ =? 0); [cbn [m_book]; eauto with emit|].
  destruct (_ && _); [destruct rest; cbn [m_book]; eauto 10 with emit|done].
Qed.

Lemma ext_match_step p m st :
  match_step p m = Ok st →
  match st with Continue m' | Break m' | Cancelled m' => extends (m_book m) (m_book m') end.
Proof.
  unfold match_step. intros H. run; try done.
  - unfold stp_step. destruct (bool_decide (stp (m_book m) = kCancelAggressor) || _), (_ || _);
      simpl; eauto 10 with emit.
  - apply ext_fill_step.
Qed.

Lemma ext_match_loop fuel p m c m' :
  match_loop fuel p m = Ok (c, m') → extends (m_book m) (m_book m').
Proof.
  revert m. induction fuel as [|fuel IH]; intros m H; simpl in H; [done|].
  apply bind_Ok in H as (st & Hst%ext_match_step & H). destruct st; simplify_eq; [|done..].
  etrans; [done|by apply IH].
Qed.

Lemma ext_match_level o s lv p b ts c o' b' ts' :
  match_level o s lv p b ts = Ok (c, o', b', ts') → extends b b'.
Proof.
  unfold match_level. intros ([c1 m] & H1 & H)%bind_Ok. simplify_eq.
  apply ext_match_loop in H1. simpl in H1. by apply ext_set_ladder.
Qed.

Lemma ext_match_levels ixs s o b ts c o' b' ts' :
  match_levels ixs s o b ts = Ok (c, o', b', ts') → extends b b'.
Proof.
  revert o b ts. induction ixs as [|i ixs IH]; intros o b ts H; simpl in H; [by simplify_eq|].
  case_match; [by simplify_eq|]. apply bind_Ok in H as (lv & _ & H).
  case_match; [by eauto|]. case_match; [by simplify_eq|].
  apply bind_Ok in H as ([[[c1 o1] b1] ts1] & Hl%ext_match_level & H).
  destruct c1; [by simplify_eq|]. etrans; [done|eauto].
Qed.

Lemma ext_match a o b ts c o' b' ts' :
  match_ o b ts = Ok (c, o', b', ts') → extends a b → extends a b'.
Proof.
  unfold match_. intros H Ha. run; [done|]. etrans; [done|]. by eapply ext_match_levels.
Qed.

(** ** Resting *)
Lemma ext_evict_fold l acc : extends acc.1 (foldl evict_one acc l).1.
Proof.
  revert acc. induction l as [|i l IH]; intros [b ev]; [done|]. simpl. etrans; [|apply IH].
  destruct (orders b !! i); simpl; eauto with emit.
Qed.

Lemma ext_evict_worst a s b ev : extends a b → extends a (evict_worst s b ev).1.
Proof.
  intros Ha. unfold evict_worst. repeat case_match; simpl; try done.
  pose proof (ext_evict_fold (fifo l) (b, ev)) as He.
  match goal with E : foldl evict_one _ _ = _ |- _ => rewrite E in He end. simpl in He.
  apply ext_note_deep, ext_set_ladder. by etrans.
Qed.

Lemma ext_rest_tail a (c : bool) s o q d b ev :
  extends a b →
  extends a (let '(b, ev) := if c then evict_worst s b ev else (b, ev) in
             (true, emit_event kAdd o q d b, ev)).1.2.
Proof.
  intros Hb. destruct c; simpl; [|eauto with emit].
  pose proof (ext_evict_worst a s b ev Hb). destruct (evict_worst s b ev). simpl in *. eauto with emit.
Qed.

Lemma ext_rest a o b ev : extends a b → extends a (rest o b ev).1.2.
Proof.
  intros Ha. unfold rest. case_if; simpl; [eauto with emit|].
  destruct (is_reduce_only o && _); apply ext_rest_tail; eauto 10 with emit.
Qed.

Lemma ext_rest_eq a o b ev r b' ev' : rest o b ev = (r, b', ev') → extends a b → extends a b'.
Proof. intros H Ha. pose proof (ext_rest a o b ev Ha) as Hr. by rewrite H in Hr. Qed.
#[export] Hint Resolve ext_match ext_rest_eq : emit.

Lemma ext_inject a o b ts o' b' ts' :
  inject o b ts = Ok (o', b', ts') → extends a b → extends a b'.
Proof. unfold inject. intros H Ha. run; eauto with emit. Qed.
#[export] Hint Resolve ext_inject : emit.

(** ** Stops and pegs *)
Definition ext_fst {A} (x y : Impl * A) : Prop := extends x.1 y.1.
#[export] Instance ext_fst_preorder {A} : PreOrder (@ext_fst A).
Proof. split; unfold ext_fst; [by intros x|intros x y z ? ?; by etrans]. Qed.

Lemma ext_fire_stop x i y : fire_stop x i = Ok y → ext_fst x y.
Proof. unfold fire_stop, ext_fst. intros H. run. eauto 10 with emit. Qed.

Lemma ext_evaluate_loop fuel b ts b' ts' :
  evaluate_loop fuel b ts = Ok (b', ts') → extends b b'.
Proof.
  revert b ts. induction fuel as [|fuel IH]; intros b ts H; [done|]. cbn [evaluate_loop] in H.
  assert (extends b (trail_stops b)) as Ht by (unfold trail_stops; case_if; eauto with emit).
  destruct (firing (trail_stops b)) as [|i l]; [by simplify_eq|].
  apply bind_Ok in H as ([b1 ts1] & H1 & H).
  apply (res_foldl_ext ext_fst) in H1; [|apply _|apply ext_fire_stop].
  etrans; [done|]. etrans; [apply H1|]. by eapply IH.
Qed.

Lemma ext_evaluate_stops a b ts b' ts' :
  evaluate_stops b ts = Ok (b', ts') → extends a b → extends a b'.
Proof. intros H Ha. etrans; [done|]. by eapply ext_evaluate_loop. Qed.

Lemma ext_reprice_one b i b' : reprice_one b i = Ok b' → extends b b'.
Proof.
  unfold reprice_one, move_pegged. intros H. run; eauto 10 with emit.
  all: unfold requeue in *; simplify_eq; eauto 10 with emit.
Qed.

Lemma ext_reprice_pegs a b b' : reprice_pegs b = Ok b' → extends a b → extends a b'.
Proof.
  unfold reprice_pegs. intros H Ha. run. etrans; [done|].
  by eapply (res_foldl_ext extends); [apply _|apply ext_reprice_one|].
Qed.
#[export] Hint Resolve ext_evaluate_stops ext_reprice_pegs : emit.

(** ** Cancels, expiry and auctions *)
Lemma ext_cancel a i b r b' : cancel i b = Ok (r, b') → extends a b → extends a b'.
Proof. unfold cancel. intros H Ha. run; eauto 12 with emit. Qed.
#[export] Hint Resolve ext_cancel : emit.

Lemma ext_expire a now b ids b' : expire now b = Ok (ids, b') → extends a b → extends a b'.
Proof.
  unfold expire. intros H Ha. run. etrans; [done|].
  eapply (res_foldl_ext extends); [apply _| |done]. intros x y r Hr. simpl in Hr. run. eauto with emit.
Qed.

Lemma ext_cross_loop fuel p q bs ss rem b ts q' b' ts' :
  cross_loop fuel p q bs ss rem b ts = Ok (q', b', ts') → extends b b'.
Proof.
  revert q bs ss rem b ts. induction fuel as [|fuel IH]; intros q bs ss rem b ts H; [done|].
  cbn [cross_loop] in H. destruct bs as [|i bs]; [by simplify_eq|].
  destruct ss as [|j ss]; [by simplify_eq|]. case_match; [by simplify_eq|].
  case_match; [by simplify_eq|]. etrans; [|by eapply IH]. eauto with emit.
Qed.

Lemma ext_inject_remainder x o y : inject_remainder x o = Ok y → ext_fst x y.
Proof. unfold inject_remainder, ext_fst. intros H. run; eauto with emit. Qed.

Lemma ext_cross_auction a opening b ts b' :
  cross_auction opening b = Ok (ts, b') → extends a b → extends a b'.
Proof.
  unfold cross_auction. intros H Ha. destruct (auction_queue opening b) as [|o0 q0]; [by simplify_eq|].
  apply bind_Ok in H as ([[q b1] ts1] & H1 & H). apply bind_Ok in H as ([b2 ts2] & H2 & H).
  assert (extends a b1) as Hb1.
  { destruct (clearing _ b); [|by simplify_eq]. unfold run_cross in H1. clear H H2.
    apply bind_Ok in H1 as ([[q1 b3] ts3] & H1%ext_cross_loop & H). simplify_eq.
    assert (extends a b3) by (by etrans). eauto with emit. }
  apply (res_foldl_ext ext_fst) in H2; [|apply _|apply ext_inject_remainder].
  assert (extends a (clear_auction opening b2)) as Hb2.
  { assert (extends a b2) by (etrans; [done|apply H2]). unfold clear_auction. case_if; eauto with emit. }
  simpl in H. run; eauto with emit.
Qed.

(** ** Submission *)
Definition ext_snd {A} (x y : A * Impl) : Prop := extends x.2 y.2.
#[export] Instance ext_snd_preorder {A} : PreOrder (@ext_snd A).
Proof. split; unfold ext_snd; [by intros x|intros x y z ? ?; by etrans]. Qed.

Section Submit.
Context (sub : Order → Impl → res (SubmitOutcome * Impl)).
Hypothesis ext_sub : ∀ a o b out b', sub o b = Ok (out, b') → extends a b → extends a b'.
#[local] Hint Resolve ext_sub : emit.

Lemma ext_release_children a gid out b out' b' :
  release_children sub gid out b = Ok (out', b') → extends a b → extends a b'.
Proof.
  unfold release_children. intros H Ha. apply bind_Ok in H as ([out1 b1] & H1 & H).
  assert (extends a b1) as Hb1 by (run; eauto with emit).
  apply (res_foldl_ext ext_snd) in H; [|apply _|].
  - unfold ext_snd in H. simpl in H. etrans; [|done]. eauto with emit.
  - intros [out2 b2] o r Hr. unfold ext_snd. apply bind_Ok in Hr as ([co b3] & Hs & Hr). simplify_eq.
    by eapply ext_sub.
Qed.

Lemma ext_link_fill o x i y : link_fill sub o x i = Ok y → ext_snd x y.
Proof.
  unfold link_fill, ext_snd. destruct x as [out b], y as [out' b']. intros H. simpl.
  destruct (match o_link o with Some _ => _ | None => _ end) as [gid|]; [|by simplify_eq].
  destruct (groups b !! gid) as [g|]; [|by simplify_eq].
  apply bind_Ok in H as (b1 & H1 & H).
  assert (extends b b1) as Hb1.
  { destruct (bool_decide _); [|by simplify_eq]. apply bind_Ok in H1 as (b2 & H2 & [= <-]).
    apply (res_foldl_ext extends) in H2; [eauto with emit|apply _|].
    unfold cancel_leg. intros c j r Hr. run; eauto with emit. }
  simpl in H. case_match; [|simplify_eq; eauto with emit].
  eapply ext_release_children; [done|]. eauto with emit.
Qed.

Lemma ext_process_link_fills a o out b out' b' :
  process_link_fills sub o out b = Ok (out', b') → extends a b → extends a b'.
Proof.
  unfold process_link_fills. intros H Ha.
  apply (res_foldl_ext ext_snd) in H; [|apply _|apply ext_link_fill]. etrans; [done|apply H].
Qed.

Lemma ext_register_link a o r b : extends a b → extends a (register_link o r b).
Proof.
  intros Ha. unfold register_link. destruct (o_link o) as [l|]; [|done].
  destruct (lk_role l), r; eauto with emit.
Qed.

Lemma ext_submit_match a o b out b' :
  submit_match sub o b = Ok (out, b') → extends a b → extends a b'.
Proof.
  unfold submit_match. intros H Ha. apply bind_Ok in H as ([[[c o1] b1] ts] & H1 & H).
  assert (extends a b1) as Hb1 by eauto with emit.
  match type of H with (let '(_, _) := ?x in _) = _ => destruct x as [out1 b2] eqn:E1 end.
  assert (extends a b2) as Hb2.
  { clear H. revert E1. destruct (_ && _); [destruct (rest o1 b1 []) as [[r b5] ev] eqn:?|];
      intros [= <- <-]; eauto with emit. }
  apply bind_Ok in H as ([b3 ts3] & H3 & H). apply bind_Ok in H as (b4 & H4 & H).
  assert (extends a b3) as Hb3 by (clear H H4; run; eauto with emit).
  eapply ext_process_link_fills; [done|]. apply ext_register_link. eauto with emit.
Qed.

Lemma ext_crosses a o b : extends a b → extends a (crosses o b).2.
Proof. intros Ha. unfold crosses. repeat case_match; simpl; simplify_eq; eauto with emit. Qed.

Lemma ext_submit_continuous a o b out b' :
  submit_continuous sub o b = Ok (out, b') → extends a b → extends a b'.
Proof.
  unfold submit_continuous. intros H Ha.
  match type of H with (let '(_, _) := ?x in _) = _ =>
    assert (extends a x.2) as Hx by (case_if; [by apply ext_crosses|done]);
    destruct x as [w b1]; simpl in Hx end.
  repeat (case_match; try (by simplify_eq)).
  all: try (by eapply ext_submit_match).
  all: apply bind_Ok in H as (b3 & Hp & H); simplify_eq; eauto with emit.
Qed.

Lemma ext_submit_stamped a o b out b' :
  submit_stamped sub o b = Ok (out, b') → extends a b → extends a b'.
Proof.
  unfold submit_stamped. intros H Ha. cbv zeta in H.
  assert (∀ out b', submit_stop o b = Ok (out, b') → extends a b') as Hstop.
  { clear H. unfold submit_stop. intros ? ? K. run; eauto with emit. }
  assert (∀ out b', submit_peg o b = Ok (out, b') → extends a b') as Hpeg.
  { clear H. unfold submit_peg. intros ? ? K. destruct (compute_peg_price o b); [|by simplify_eq].
    destruct (rest _ b []) as [[r b1] ev] eqn:Hr. injection K as _ <-. destruct r; eauto with emit. }
  assert (∀ out b', submit_continuous sub o b = Ok (out, b') → extends a b') as Hcont.
  { intros ? ? K. by eapply ext_submit_continuous. }
  repeat (case_match; try (by simplify_eq); try (by eauto); try (by simplify_eq; eauto with emit)).
Qed.
End Submit.

Lemma submit_fuel_S fuel o b :
  submit_fuel (S fuel) o b = submit_stamped (submit_fuel fuel) (stamp o b).1 (stamp o b).2.
Proof. reflexivity. Qed.

Lemma ext_submit_fuel fuel a o b out b' :
  submit_fuel fuel o b = Ok (out, b') → extends a b → extends a b'.
Proof.
  revert a o b out b'. induction fuel as [|fuel IH]; intros a o b out b' H Ha; [done|].
  assert (extends a (stamp o b).2) as Hst by (unfold stamp; simpl; eauto with emit).
  rewrite submit_fuel_S in H. revert H Hst. generalize (stamp o b). intros [o1 b1] H Hst.
  exact (ext_submit_stamped (submit_fuel fuel) IH _ _ _ _ _ H Hst).
Qed.

Lemma ext_submit a o b out b' : submit o b = Ok (out, b') → extends a b → extends a b'.
Proof. apply ext_submit_fuel. Qed.

Lemma ext_insert_resident a o b : extends a b → extends a (insert_resident o b).
Proof. intros. unfold insert_resident. eauto with emit. Qed.
Lemma ext_seed_next_seq a n b : extends a b → extends a (seed_next_seq n b).
Proof. intros. unfold seed_next_seq. case_if; eauto with emit. Qed.
Lemma ext_seed_position a c n b : extends a b → extends a (seed_position c n b).
Proof. intros. unfold seed_position. case_if; eauto with emit. Qed.
Lemma ext_best_bid a b : extends a b → extends a (best_bid b).2.
Proof. intros. unfold best_bid. case_match. simpl. eauto with emit. Qed.
Lemma ext_best_ask a b : extends a b → extends a (best_ask b).2.
Proof. intros. unfold best_ask. case_match. simpl. eauto with emit. Qed.
Lemma ext_take_requeued a b : extends a b → extends a (take_requeued b).2.
Proof. intros. unfold take_requeued. simpl. eauto with emit. Qed.
