(* ===== verification/MatchingEngine.v ===== *)
(** * The matching engine ([core/matching_engine.cc])

    A registry of one book per symbol, created on first use, and the sink of
    every book: each delivered event gets the next number of one global feed
    clock before it is forwarded.  The forwarded events are kept in
    [e_forwarded], in order. *)

From S2P Require Import Prelude.
From S2P Require Import Order.
From S2P Require Import Ladder.
From S2P Require Import Book.
From S2P Require Import Replica.
From S2P Require Import BookInv.
From S2P Require Import BookFlow.
From S2P Require Import BookAuction.
From S2P Require Import BookSubmit.
From S2P Require Import BookDepth.
From S2P Require Import BookProps.
From S2P Require Import BookEmit.
From S2P Require Import Sample.

Record MatchingEngine := mkEngine {
  e_stp : StpPolicy;
  e_mem_levels : nat;
  e_books : gmap Symbol Impl;
  e_feed_sink : bool;
  e_event_seq : SeqNo;
  e_seq_base : SeqNo;
  e_forwarded : list BookEvent;
}.

Definition new_engine (policy : StpPolicy) (mem : nat) : MatchingEngine :=
  mkEngine policy mem ∅ false 0 1 [].

Definition set_books v (e : MatchingEngine) : MatchingEngine :=
  mkEngine (e_stp e) (e_mem_levels e) v (e_feed_sink e) (e_event_seq e) (e_seq_base e)
    (e_forwarded e).

Definition set_book_event_sink (on : bool) (e : MatchingEngine) : MatchingEngine :=
  mkEngine (e_stp e) (e_mem_levels e) (e_books e) on (e_event_seq e) (e_seq_base e)
    (e_forwarded e).

(** The copy [stamped] of an event. *)
Definition stamp_event (n : SeqNo) (ev : BookEvent) : BookEvent :=
  mkEvent n (ev_symbol ev) (ev_type ev) (ev_order_id ev) (ev_taker_id ev) (ev_side ev)
    (ev_price ev) (ev_prev_price ev) (ev_qty ev) (ev_displayed ev).

Definition on_book_event (e : MatchingEngine) (ev : BookEvent) : MatchingEngine :=
  let n := e_event_seq e + 1 in
  mkEngine (e_stp e) (e_mem_levels e) (e_books e) (e_feed_sink e) n (e_seq_base e)
    (if e_feed_sink e then e_forwarded e ++ [stamp_event n ev] else e_forwarded e).

(** A call on the book of [sym] that took it from [b] to [b']: the events it
    delivered reach the engine in order. *)
Definition update_book (sym : Symbol) (b b' : Impl) (e : MatchingEngine) : MatchingEngine :=
  foldl on_book_event (set_books (<[sym := b']> (e_books e)) e)
    (drop (length (emitted b)) (emitted b')).

Definition call_book {A} (sym : Symbol) (f : Impl → res (A * Impl)) (b : Impl)
    (e : MatchingEngine) : res (A * MatchingEngine) :=
  '(r, b') ← f b; Ok (r, update_book sym b b' e).

Definition book_for (sym : Symbol) (e : MatchingEngine) : Impl * MatchingEngine :=
  match e_books e !! sym with
  | Some b => (b, e)
  | None =>
      let b := new_book (e_stp e) (e_mem_levels e) in
      let b := set_symbol sym b in
      let b := set_event_sink true b in
      let b := seed_next_seq (e_seq_base e) b in
      (b, set_books (<[sym := b]> (e_books e)) e)
  end.

Definition book_of (sym : Symbol) (e : MatchingEngine) : option Impl := e_books e !! sym.

Definition set_seq_base (n : SeqNo) (e : MatchingEngine) : MatchingEngine :=
  mkEngine (e_stp e) (e_mem_levels e) (seed_next_seq n <$> e_books e) (e_feed_sink e)
    (e_event_seq e) n (e_forwarded e).

Definition engine_submit (sym : Symbol) (o : Order) (e : MatchingEngine)
    : res (SubmitOutcome * MatchingEngine) :=
  let '(b, e) := book_for sym e in call_book sym (submit o) b e.

Definition engine_cancel (sym : Symbol) (i : OrderId) (e : MatchingEngine)
    : res (bool * MatchingEngine) :=
  match e_books e !! sym with
  | None => Ok (false, e)
  | Some b => call_book sym (cancel i) b e
  end.

Definition engine_take_requeued (sym : Symbol) (e : MatchingEngine)
    : list Order * MatchingEngine :=
  match e_books e !! sym with
  | None => ([], e)
  | Some b => let '(r, b') := take_requeued b in (r, update_book sym b b' e)
  end.

Definition engine_find (sym : Symbol) (i : OrderId) (e : MatchingEngine) : option Order :=
  b ← book_of sym e; find i b.

(** The quotes refresh the book's cached best price. *)
Definition engine_best_bid (sym : Symbol) (e : MatchingEngine) : option Ticks * MatchingEngine :=
  match book_of sym e with
  | None => (None, e)
  | Some b => let '(r, b') := best_bid b in (r, update_book sym b b' e)
  end.
Definition engine_best_ask (sym : Symbol) (e : MatchingEngine) : option Ticks * MatchingEngine :=
  match book_of sym e with
  | None => (None, e)
  | Some b => let '(r, b') := best_ask b in (r, update_book sym b b' e)
  end.

Definition engine_total_qty_at (sym : Symbol) (s : Side) (p : Ticks) (e : MatchingEngine) : Quantity :=
  match book_of sym e with None => 0 | Some b => total_qty_at s p b end.
Definition engine_displayed_qty_at (sym : Symbol) (s : Side) (p : Ticks) (e : MatchingEngine)
    : Quantity :=
  match book_of sym e with None => 0 | Some b => displayed_qty_at s p b end.
Definition engine_resting_count (sym : Symbol) (e : MatchingEngine) : nat :=
  match book_of sym e with None => 0%nat | Some b => resting_count b end.

Definition engine_expire (sym : Symbol) (now : Timestamp) (e : MatchingEngine)
    : res (list OrderId * MatchingEngine) :=
  match e_books e !! sym with
  | None => Ok ([], e)
  | Some b => call_book sym (expire now) b e
  end.

Definition engine_seed_position (sym : Symbol) (c : ClientId) (n : Quantity) (e : MatchingEngine)
    : MatchingEngine :=
  let '(b, e) := book_for sym e in update_book sym b (seed_position c n b) e.

Definition engine_position (sym : Symbol) (c : ClientId) (e : MatchingEngine) : Quantity :=
  match book_of sym e with None => 0 | Some b => position c b end.

Definition engine_run_opening_auction (sym : Symbol) (e : MatchingEngine)
    : res (list Trade * MatchingEngine) :=
  let '(b, e) := book_for sym e in call_book sym run_opening_auction b e.
Definition engine_run_closing_auction (sym : Symbol) (e : MatchingEngine)
    : res (list Trade * MatchingEngine) :=
  let '(b, e) := book_for sym e in call_book sym run_closing_auction b e.

Definition engine_auction_count (sym : Symbol) (opening : bool) (e : MatchingEngine) : nat :=
  match book_of sym e with None => 0%nat | Some b => auction_count opening b end.

Definition engine_insert_resident (sym : Symbol) (o : Order) (e : MatchingEngine) : MatchingEngine :=
  let '(b, e) := book_for sym e in update_book sym b (insert_resident o b) e.

Definition engine_has_deep (sym : Symbol) (s : Side) (e : MatchingEngine) : bool :=
  match book_of sym e with None => false | Some b => has_deep s b end.
Definition engine_worst_resident (sym : Symbol) (s : Side) (e : MatchingEngine) : option Ticks :=
  b ← book_of sym e; worst_resident s b.

Definition has_symbol (sym : Symbol) (e : MatchingEngine) : bool :=
  bool_decide (is_Some (e_books e !! sym)).
Definition symbol_count (e : MatchingEngine) : nat := size (e_books e).
Definition last_event_seq (e : MatchingEngine) : SeqNo := e_event_seq e.

(** ** The feed invariant *)

(** The delivered events of a symbol's book; none before it exists. *)
Definition history (e : MatchingEngine) (sym : Symbol) : list BookEvent :=
  from_option emitted [] (e_books e !! sym).

(** The stream so far: numbered from one without a gap, and for each symbol
    exactly its history [H]. *)
Record feed_inv (e : MatchingEngine) (H : Symbol → list BookEvent) : Prop := {
  fi_clock : e_event_seq e = Z.of_nat (length (e_forwarded e));
  fi_seq : ∀ i ev, e_forwarded e !! i = Some ev → ev_seq ev = Z.of_nat i + 1;
  fi_symbol : ∀ sym, stamp_event 0 <$> filter (λ ev, ev_symbol ev = sym) (e_forwarded e) = H sym;
}.

Lemma stamp_event_stamp m n ev : stamp_event m (stamp_event n ev) = stamp_event m ev.
Proof. done. Qed.
Lemma stamp_event_id ev : ev_seq ev = 0 → stamp_event 0 ev = ev.
Proof. by destruct ev; simpl; intros ->. Qed.

Lemma on_book_event_ok e H ev :
  e_feed_sink e = true → feed_inv e H → ev_seq ev = 0 →
  feed_inv (on_book_event e ev)
    (λ sym, H sym ++ if decide (ev_symbol ev = sym) then [ev] else []).
Proof.
  intros Hs [Hc Hq Hsym] H0. unfold on_book_event. split; simpl; rewrite Hs.
  - rewrite length_app, Hc. simpl. lia.
  - intros i x Hi. apply lookup_app_Some in Hi as [Hi|[Hlen Hi]]; [by apply Hq|].
    apply list_lookup_singleton_Some in Hi as [Hi <-]. simpl. lia.
  - intros sym. rewrite filter_app, fmap_app, Hsym. f_equal.
    rewrite filter_cons, filter_nil. simpl. case_decide; [|done].
    change ([stamp_event 0 ev] = [ev]). by rewrite stamp_event_id.
Qed.

Lemma forward_ok evs : ∀ e H sym,
  e_feed_sink e = true → feed_inv e H → Forall (λ ev, ev_symbol ev = sym ∧ ev_seq ev = 0) evs →
  feed_inv (foldl on_book_event e evs) (λ s, H s ++ if decide (sym = s) then evs else []).
Proof.
  induction evs as [|ev evs IH]; intros e H sym Hs Hi Hev; simpl.
  - destruct Hi as [H1 H2 H3]. split; [done..|]. intros s. rewrite H3. by case_decide; rewrite app_nil_r.
  - apply Forall_cons in Hev as [[Hsym H0] Hev].
    pose proof (on_book_event_ok e H ev Hs Hi H0) as Hi'.
    destruct (IH (on_book_event e ev) _ sym Hs Hi' Hev) as [H1 H2 H3]. split; [done..|].
    intros s. rewrite H3, Hsym, <-app_assoc. by case_decide.
Qed.

Lemma on_book_events_frame evs : ∀ e,
  e_books (foldl on_book_event e evs) = e_books e ∧
  e_feed_sink (foldl on_book_event e evs) = e_feed_sink e ∧
  e_stp (foldl on_book_event e evs) = e_stp e ∧
  e_mem_levels (foldl on_book_event e evs) = e_mem_levels e.
Proof. induction evs as [|ev evs IH]; intros e; [done|]. simpl. by destruct (IH (on_book_event e ev)). Qed.

(** ** Reachable engines *)

(** A book of the engine: reachable, tagged with its symbol and wired. *)
Definition wired (e : MatchingEngine) (sym : Symbol) (b : Impl) : Prop :=
  reachable b ∧ symbol_ b = sym ∧ event_sink_ b = true ∧ mem_levels b = e_mem_levels e.

Record engine_ok (e : MatchingEngine) : Prop := {
  eo_books : ∀ sym b, e_books e !! sym = Some b → wired e sym b;
  eo_feed : e_feed_sink e = true → feed_inv e (history e);
}.

Lemma update_book_books sym b b' e : e_books (update_book sym b b' e) = <[sym := b']> (e_books e).
Proof. unfold update_book. by rewrite (proj1 (on_book_events_frame _ _)). Qed.

Lemma update_book_ok sym b b' e :
  engine_ok e → e_books e !! sym = Some b → extends b b' → reachable b' →
  engine_ok (update_book sym b b' e).
Proof.
  intros [Hb Hf] Hl Hx Hr. destruct (Hb _ _ Hl) as (_ & Hsym & Hsink & Hmem).
  destruct Hx as [E1 E2 E3 (evs & E4 & E5)].
  destruct (on_book_events_frame (drop (length (emitted b)) (emitted b'))
              (set_books (<[sym:=b']> (e_books e)) e)) as (F1 & F2 & F3 & F4).
  split.
  - unfold update_book, wired. rewrite F1, F4. simpl. intros s c Hc.
    apply lookup_insert_Some in Hc as [[<- <-]|[_ Hc]]; [|by apply Hb].
    split_and!; [done|congruence..].
  - unfold update_book in *. rewrite F2. simpl. intros Hs. specialize (Hf Hs).
    rewrite E4, drop_app_length in *. rewrite Hsym in E5.
    assert (feed_inv (set_books (<[sym:=b']> (e_books e)) e) (history e)) as Hf'
      by (destruct Hf; by split).
    destruct (forward_ok evs (set_books (<[sym:=b']> (e_books e)) e) _ sym Hs Hf' E5) as [H1 H2 H3]. split; [done..|].
    intros s. rewrite H3. unfold history. rewrite F1. simpl. case_decide as Hd.
    + subst s. rewrite lookup_insert_eq, Hl. simpl. by rewrite E4.
    + by rewrite lookup_insert_ne, app_nil_r.
Qed.

Lemma book_for_ok sym e :
  engine_ok e →
  let '(b, e') := book_for sym e in
  engine_ok e' ∧ e_books e' !! sym = Some b ∧ wired e' sym b ∧
  (∀ s, s ≠ sym → e_books e' !! s = e_books e !! s) ∧
  e_feed_sink e' = e_feed_sink e ∧ e_mem_levels e' = e_mem_levels e.
Proof.
  intros [Hb Hf]. unfold book_for. destruct (e_books e !! sym) as [b|] eqn:E.
  { split_and!; try done. by apply Hb. }
  set (b := seed_next_seq _ _).
  assert (wired e sym b) as Hw.
  { unfold wired. subst b. split.
    { eapply reach_step; [apply (reach_new (e_stp e) (e_mem_levels e) true sym)|constructor]. }
    unfold seed_next_seq. case_if; done. }
  assert (emitted b = []) as Hem by (subst b; unfold seed_next_seq; case_if; done).
  split_and!; try done; [split| |]; simpl.
  - intros s c Hc. apply lookup_insert_Some in Hc as [[<- <-]|[_ Hc]]; [done|by apply Hb].
  - intros Hs. destruct (Hf Hs) as [H1 H2 H3]. split; [done..|]. intros s. simpl. rewrite H3.
    unfold history. simpl. destruct (decide (sym = s)) as [<-|Hne].
    + by rewrite lookup_insert_eq, E.
    + by rewrite lookup_insert_ne.
  - apply lookup_insert_eq.
  - intros s Hs. by rewrite lookup_insert_ne.
Qed.

(** One call of the engine's interface on [sym], with the obligations of a book
    step; [set_seq_base] touches every book. *)
Inductive engine_step : MatchingEngine → MatchingEngine → Prop :=
  | es_submit sym o e out e' :
      submittable o → occ (book_for sym e).1 (o_id o) = 0%nat →
      engine_submit sym o e = Ok (out, e') → engine_step e e'
  | es_cancel sym i e r e' : engine_cancel sym i e = Ok (r, e') → engine_step e e'
  | es_expire sym now e ids e' : engine_expire sym now e = Ok (ids, e') → engine_step e e'
  | es_opening sym e ts e' : engine_run_opening_auction sym e = Ok (ts, e') → engine_step e e'
  | es_closing sym e ts e' : engine_run_closing_auction sym e = Ok (ts, e') → engine_step e e'
  | es_insert_resident sym o e :
      order_ok o → occ (book_for sym e).1 (o_id o) = 0%nat → e_mem_levels e ≠ 0%nat →
      engine_step e (engine_insert_resident sym o e)
  | es_seed_position sym c n e : engine_step e (engine_seed_position sym c n e)
  | es_take_requeued sym e : engine_step e (engine_take_requeued sym e).2
  | es_best_bid sym e : engine_step e (engine_best_bid sym e).2
  | es_best_ask sym e : engine_step e (engine_best_ask sym e).2
  | es_seq_base n e : engine_step e (set_seq_base n e).

(** The feed is attached before the first call, as the server does. *)
Inductive engine_reachable : MatchingEngine → Prop :=
  | er_new policy mem : engine_reachable (set_book_event_sink true (new_engine policy mem))
  | er_step e e' : engine_reachable e → engine_step e e' → engine_reachable e'.

Lemma call_book_ok {A} sym (f : Impl → res (A * Impl)) b e r e' :
  engine_ok e → e_books e !! sym = Some b →
  (∀ r b', f b = Ok (r, b') → extends b b' ∧ step b b') →
  call_book sym f b e = Ok (r, e') → engine_ok e'.
Proof.
  intros He Hb Hf Hc. unfold call_book in Hc. apply bind_Ok in Hc as ([r' b'] & Hr & Hc). simplify_eq.
  destruct (Hf _ _ Hr) as [Hx Hs]. destruct (eo_books _ He _ _ Hb) as [HR _].
  apply update_book_ok; [done..|]. by eapply reach_step.
Qed.

Lemma update_step_ok sym b b' e :
  engine_ok e → e_books e !! sym = Some b → extends b b' → step b b' →
  engine_ok (update_book sym b b' e).
Proof.
  intros He Hb Hx Hs. destruct (eo_books _ He _ _ Hb) as [HR _].
  apply update_book_ok; [done..|]. by eapply reach_step.
Qed.

Lemma set_seq_base_ok n e : engine_ok e → engine_ok (set_seq_base n e).
Proof.
  intros [Hb Hf].
  assert (∀ b, extends b (seed_next_seq n b)) as Hx by (intros b; by apply ext_seed_next_seq).
  assert (∀ b, emitted (seed_next_seq n b) = emitted b) as Hem
    by (intros b; unfold seed_next_seq; by case_if).
  split; simpl.
  - intros sym b. rewrite lookup_fmap. intros (c & Hc & ->)%fmap_Some.
    destruct (Hb _ _ Hc) as (HR & Hs & Hk & Hm). destruct (Hx c) as [E1 E2 E3 _].
    unfold wired. simpl. split_and!; [|congruence..]. eapply reach_step; [done|constructor].
  - intros Hs. destruct (Hf Hs) as [H1 H2 H3]. split; [done..|]. intros sym. simpl.
    rewrite H3. unfold history. simpl. rewrite lookup_fmap. destruct (e_books e !! sym); simpl; [|done].
    by rewrite Hem.
Qed.

Lemma engine_step_ok e e' : engine_ok e → engine_step e e' → engine_ok e'.
Proof.
  intros He Hs. destruct Hs as [sym o e out e' Hsub Hocc Hr|sym i e r e' Hr|sym now e ids e' Hr|
    sym e ts e' Hr|sym e ts e' Hr|sym o e Ho Hocc Hm|sym c n e|sym e|sym e|sym e|n e];
    try (pose proof (book_for_ok sym e He) as Hbf; destruct (book_for sym e) as [b e1] eqn:Ebf;
         destruct Hbf as (He1 & Hl & (HR & _ & _ & Hmem) & _ & _ & Hme)).
  - unfold engine_submit in Hr. rewrite Ebf in Hr.
    refine (call_book_ok sym _ b e1 _ _ He1 Hl _ Hr).
    intros out1 b1 H1. split; [by eapply ext_submit|by econstructor].
  - unfold engine_cancel in Hr. destruct (e_books e !! sym) as [c|] eqn:Ec; [|by simplify_eq].
    refine (call_book_ok sym _ c e _ _ He Ec _ Hr). intros r1 b1 H1. split; [by eapply ext_cancel|by econstructor].
  - unfold engine_expire in Hr. destruct (e_books e !! sym) as [c|] eqn:Ec; [|by simplify_eq].
    refine (call_book_ok sym _ c e _ _ He Ec _ Hr). intros r1 b1 H1. split; [by eapply ext_expire|by econstructor].
  - unfold engine_run_opening_auction in Hr. rewrite Ebf in Hr.
    refine (call_book_ok sym _ b e1 _ _ He1 Hl _ Hr).
    intros r1 b1 H1. split; [by eapply ext_cross_auction|by econstructor].
  - unfold engine_run_closing_auction in Hr. rewrite Ebf in Hr.
    refine (call_book_ok sym _ b e1 _ _ He1 Hl _ Hr).
    intros r1 b1 H1. split; [by eapply ext_cross_auction|]. by apply (step_closing _ r1).
  - unfold engine_insert_resident. rewrite Ebf. simpl in Hocc.
    apply update_step_ok; [done..|by apply ext_insert_resident|]. constructor; [done..|congruence].
  - unfold engine_seed_position. rewrite Ebf.
    apply update_step_ok; [done..|by apply ext_seed_position|constructor].
  - unfold engine_take_requeued. destruct (e_books e !! sym) as [c|] eqn:Ec; [|done]. simpl.
    apply update_step_ok; [done..|by apply (ext_take_requeued c c)|apply (step_take_requeued c)].
  - unfold engine_best_bid, book_of. destruct (e_books e !! sym) as [c|] eqn:Ec; [|done].
    pose proof (ext_best_bid c c (reflexivity c)) as Hx. pose proof (step_best_bid c) as Hst.
    destruct (best_bid c) as [q c']. by apply update_step_ok.
  - unfold engine_best_ask, book_of. destruct (e_books e !! sym) as [c|] eqn:Ec; [|done].
    pose proof (ext_best_ask c c (reflexivity c)) as Hx. pose proof (step_best_ask c) as Hst.
    destruct (best_ask c) as [q c']. by apply update_step_ok.
  - by apply set_seq_base_ok.
Qed.

(** What no call changes. *)
Lemma update_book_frame sym b b' e :
  e_feed_sink (update_book sym b b' e) = e_feed_sink e ∧
  e_mem_levels (update_book sym b b' e) = e_mem_levels e.
Proof.
  unfold update_book. destruct (on_book_events_frame (drop (length (emitted b)) (emitted b'))
    (set_books (<[sym:=b']> (e_books e)) e)) as (_ & -> & _ & ->). done.
Qed.

Lemma call_book_frame {A} sym (f : Impl → res (A * Impl)) b e r e' :
  call_book sym f b e = Ok (r, e') →
  e_feed_sink e' = e_feed_sink e ∧ e_mem_levels e' = e_mem_levels e.
Proof. intros ([r' b'] & Hr & Hc)%bind_Ok. simplify_eq. apply update_book_frame. Qed.

Lemma book_for_frame sym e :
  e_feed_sink (book_for sym e).2 = e_feed_sink e ∧ e_mem_levels (book_for sym e).2 = e_mem_levels e.
Proof. unfold book_for. by destruct (e_books e !! sym). Qed.

Lemma engine_step_frame e e' :
  engine_step e e' → e_feed_sink e' = e_feed_sink e ∧ e_mem_levels e' = e_mem_levels e.
Proof.
  intros Hs. destruct Hs as [sym o e out e' _ _ Hr|sym i e r e' Hr|sym now e ids e' Hr|
    sym e ts e' Hr|sym e ts e' Hr|sym o e _ _ _|sym c n e|sym e|sym e|sym e|n e].
  all: try (unfold engine_submit, engine_run_opening_auction, engine_run_closing_auction in Hr;
            pose proof (book_for_frame sym e) as [F1 F2]; destruct (book_for sym e) as [b e1];
            apply call_book_frame in Hr as [-> ->]; done).
  all: try (unfold engine_cancel, engine_expire in Hr; destruct (e_books e !! sym);
            [by apply call_book_frame in Hr|by simplify_eq]).
  - unfold engine_insert_resident. pose proof (book_for_frame sym e) as [F1 F2].
    destruct (book_for sym e) as [b e1]. by destruct (update_book_frame sym b (insert_resident o b) e1) as [-> ->].
  - unfold engine_seed_position. pose proof (book_for_frame sym e) as [F1 F2].
    destruct (book_for sym e) as [b e1]. by destruct (update_book_frame sym b (seed_position c n b) e1) as [-> ->].
  - unfold engine_take_requeued. destruct (e_books e !! sym); [|done]. apply update_book_frame.
  - unfold engine_best_bid. destruct (book_of sym e) as [c|]; [|done].
    destruct (best_bid c). apply update_book_frame.
  - unfold engine_best_ask. destruct (book_of sym e) as [c|]; [|done].
    destruct (best_ask c). apply update_book_frame.
  - done.
Qed.

Lemma engine_reachable_ok e : engine_reachable e → engine_ok e ∧ e_feed_sink e = true.
Proof.
  induction 1 as [policy mem|e e' _ [IH Hs] Hst].
  - split; [|done]. split; simpl.
    + intros sym b. by rewrite lookup_empty.
    + intros _. split; simpl; [done..|]. intros sym. unfold history. simpl. by rewrite lookup_empty.
  - split; [by eapply engine_step_ok|]. by destruct (engine_step_frame _ _ Hst) as [-> _].
Qed.

(** ** A replica behind the engine *)

(** Applying a stream to a replica, event by event. *)
Definition feed_replica (r : BookReplica) (evs : list BookEvent) : BookReplica :=
  foldl (λ r ev, (apply r ev).2) r evs.

Lemma feed_replica_snoc r evs ev :
  feed_replica r (evs ++ [ev]) = (apply (feed_replica r evs) ev).2.
Proof. unfold feed_replica. by rewrite foldl_app. Qed.

(** A numbered stream shows no gap. *)
Lemma feed_replica_clock evs :
  (∀ i ev, evs !! i = Some ev → ev_seq ev = Z.of_nat i + 1) →
  r_gaps (feed_replica new_replica evs) = 0 ∧
  r_last_seq (feed_replica new_replica evs) = Z.of_nat (length evs).
Proof.
  induction evs as [|ev evs IH] using rev_ind; [done|]. intros Hq. rewrite feed_replica_snoc.
  destruct IH as [Hg Hl].
  { intros i x Hi. apply Hq. by rewrite lookup_app_l by (by eapply lookup_lt_Some). }
  assert (ev_seq ev = Z.of_nat (length evs) + 1) as He.
  { apply Hq. rewrite lookup_app_r by lia. by rewrite Nat.sub_diag. }
  unfold apply. simpl. rewrite Hg, Hl, He, length_app. simpl.
  replace (negb (Z.of_nat (length evs) + 1 =? Z.of_nat (length evs) + 1)) with false
    by (rewrite Z.eqb_refl; done). rewrite andb_false_r. split; [done|].
  case_if; lia.
Qed.

(** Each symbol's book of the replica sees the events of that symbol. *)
Lemma feed_replica_sym evs sym :
  default empty_sym (r_books (feed_replica new_replica evs) !! sym) =
  replay (stamp_event 0 <$> filter (λ ev, ev_symbol ev = sym) evs).
Proof.
  unfold replay. induction evs as [|ev evs IH] using rev_ind; [simpl; by rewrite lookup_empty|].
  rewrite feed_replica_snoc, filter_app, fmap_app, foldl_app, <-IH. unfold apply. simpl.
  rewrite filter_cons, filter_nil. case_decide as Hd; simpl.
  - rewrite Hd, lookup_insert_eq. done.
  - by rewrite lookup_insert_ne.
Qed.

(** The engine's feed.  The forwarded events are numbered one after the
    other from 1, the counter is the number of the last one, and the events of
    each symbol are, in order, exactly those its book delivered (none for a
    symbol without a book). *)
Lemma engine_feed_complete e :
  engine_reachable e →
  last_event_seq e = Z.of_nat (length (e_forwarded e)) ∧
  (∀ i ev, e_forwarded e !! i = Some ev → ev_seq ev = Z.of_nat i + 1) ∧
  ∀ sym, stamp_event 0 <$> filter (λ ev, ev_symbol ev = sym) (e_forwarded e) = history e sym.
Proof. intros HR. destruct (engine_reachable_ok e HR) as [[_ Hf] Hs]. by destruct (Hf Hs). Qed.

(** Routing.  Submitting a fresh order to a symbol always returns what
    that symbol's book (created on first use) answers, stores the book it
    becomes, and leaves the books of all other symbols alone. *)
Lemma engine_submit_routes sym o e :
  engine_reachable e → submittable o → occ (book_for sym e).1 (o_id o) = 0%nat →
  ∃ out b' e', engine_submit sym o e = Ok (out, e') ∧ engine_reachable e' ∧
    submit o (book_for sym e).1 = Ok (out, b') ∧ e_books e' !! sym = Some b' ∧
    ∀ s, s ≠ sym → e_books e' !! s = e_books e !! s.
Proof.
  intros HR Hsub Hocc. destruct (engine_reachable_ok e HR) as [He _].
  pose proof (book_for_ok sym e He) as Hb. pose proof Hocc as Hocc'.
  destruct (book_for sym e) as [b e1] eqn:E. destruct Hb as (_ & Hl & (Hr & _) & Hoth & _).
  simpl in Hocc'. destruct (submit_returns o b (reachable_WF _ Hr) Hsub Hocc') as (out & b' & Hs & _).
  assert (engine_submit sym o e = Ok (out, update_book sym b b' e1)) as Hes.
  { unfold engine_submit, call_book. rewrite E, Hs. done. }
  exists out, b', (update_book sym b b' e1). split_and!; try done.
  - eapply er_step; [done|]. eapply es_submit; [done| |done]. by rewrite E.
  - rewrite update_book_books. apply lookup_insert_eq.
  - intros s Hne. rewrite update_book_books, lookup_insert_ne by done. by apply Hoth.
Qed.

(** C15: end to end, without a window. A replica that receives the feed of an
    engine whose books have no window bound ([e_mem_levels] is 0, which the
    server's options exclude) detects no gap, and for every symbol it holds
    exactly the resting orders of the symbol's book and its total and displayed
    depth at every price. *)
Theorem engine_feed_replicates e :
  engine_reachable e → e_mem_levels e = 0%nat →
  let r := feed_replica new_replica (e_forwarded e) in
  r_gaps r = 0 ∧ r_last_seq r = last_event_seq e ∧
  ∀ sym b, book_of sym e = Some b →
    let sb := default empty_sym (r_books r !! sym) in
    r_orders sb = view <$> orders b ∧
    ∀ s p, side_map sb s !! p = stored (engine_total_qty_at sym s p e) ∧
           disp_map sb s !! p = stored (engine_displayed_qty_at sym s p e).
Proof.
  intros HR Hm r. destruct (engine_reachable_ok e HR) as [[Hb Hf] Hs].
  destruct (Hf Hs) as [Hc Hq Hsym]. destruct (feed_replica_clock _ Hq) as [Hg Hl].
  split_and!; [done|unfold last_event_seq; by rewrite Hc|]. intros sym b Hbk sb. subst sb r.
  rewrite feed_replica_sym, Hsym. unfold history, engine_total_qty_at, engine_displayed_qty_at.
  unfold book_of in Hbk |- *. rewrite Hbk. simpl.
  destruct (Hb _ _ Hbk) as (Hr & _ & Hk & Hmem). pose proof (wf_core _ (reachable_WF _ Hr)) as HC.
  split.
  - by destruct (feed_depth b Buy 0 HC Hk) as (_ & _ & ?); [congruence|].
  - intros s p. destruct (feed_depth b s p HC Hk) as (? & ? & _); [congruence|]. done.
Qed.

(** ** A sample session *)
Definition engine_after {A} (e : MatchingEngine) (r : res (A * MatchingEngine)) : MatchingEngine :=
  match r with Ok (_, e') => e' | Err _ => e end.

Definition submit_to (sym : Symbol) (o : Order) (e : MatchingEngine) : MatchingEngine :=
  engine_after e (engine_submit sym o e).

Lemma submit_to_reachable sym o e :
  engine_reachable e → submittable o → occ (book_for sym e).1 (o_id o) = 0%nat →
  engine_reachable (submit_to sym o e).
Proof.
  intros HR Hs Ho. unfold submit_to. destruct (engine_submit sym o e) as [[out e']|] eqn:E; [|done].
  eapply er_step; [done|]. by eapply es_submit.
Qed.

(** Two symbols, an iceberg, a trade on each side. *)
Definition two_symbols : MatchingEngine :=
  submit_to "XYZ" (limit 4 0 Buy 50 3 GTC 0)
    (submit_to "ACME" (limit 3 0 Buy 100 7 GTC 0)
      (submit_to "XYZ" (limit 2 0 Sell 50 4 GTC 0)
        (submit_to "ACME" (set_o_display_qty 2 (limit 1 0 Sell 100 5 GTC (flag_bit kIceberg)))
          (set_book_event_sink true (new_engine kCancelResting 0))))).

Lemma two_symbols_reachable : engine_reachable two_symbols.
Proof.
  unfold two_symbols.
  repeat (apply submit_to_reachable; [|by split|vm_compute; reflexivity]). apply er_new.
Qed.

Lemma engine_feed_complete_witness :
  last_event_seq two_symbols = Z.of_nat (length (e_forwarded two_symbols)) ∧
  (∀ i ev, e_forwarded two_symbols !! i = Some ev → ev_seq ev = Z.of_nat i + 1) ∧
  ∀ sym, stamp_event 0 <$> filter (λ ev, ev_symbol ev = sym) (e_forwarded two_symbols)
         = history two_symbols sym.
Proof. apply (engine_feed_complete two_symbols). exact two_symbols_reachable. Defined.

Lemma engine_submit_routes_witness :
  ∃ out b' e', engine_submit "ACME" (limit 9 0 Sell 101 1 GTC 0) two_symbols = Ok (out, e') ∧
    engine_reachable e' ∧
    submit (limit 9 0 Sell 101 1 GTC 0) (book_for "ACME" two_symbols).1 = Ok (out, b') ∧
    e_books e' !! "ACME" = Some b' ∧ ∀ s, s ≠ "ACME" → e_books e' !! s = e_books two_symbols !! s.
Proof.
  apply (engine_submit_routes "ACME" (limit 9 0 Sell 101 1 GTC 0) two_symbols);
    [exact two_symbols_reachable|by split|vm_compute; reflexivity].
Defined.

Lemma engine_feed_replicates_witness :
  let r := feed_replica new_replica (e_forwarded two_symbols) in
  r_gaps r = 0 ∧ r_last_seq r = last_event_seq two_symbols ∧
  ∀ sym b, book_of sym two_symbols = Some b →
    let sb := default empty_sym (r_books r !! sym) in
    r_orders sb = view <$> orders b ∧
    ∀ s p, side_map sb s !! p = stored (engine_total_qty_at sym s p two_symbols) ∧
           disp_map sb s !! p = stored (engine_displayed_qty_at sym s p two_symbols).
Proof.
  apply (engine_feed_replicates two_symbols); [exact two_symbols_reachable|vm_compute; reflexivity].
Defined.
