(* ===== verification/Bytes.v ===== *)
(** * Bytes, fixed-width integers and byte queues

    What the wire codecs share: strings of bytes as lists of [ascii] (all 256
    values), the little-endian integer helpers of [feed_wire.cc] and
    [helper_codec.cc], the casts between signed and unsigned 64-bit integers,
    and the interface [ByteQueue] through which every decoder sees its receive
    buffer. *)

From Stdlib Require Export Ascii.
From S2P Require Import Prelude.

Abbreviation bytes := (list ascii) (only parsing).

(** The bytes of a string literal. *)
Definition lit (s : string) : bytes := String.list_ascii_of_string s.

(** ** One byte *)

(** [static_cast<std::uint8_t>(c)] and its inverse, which keeps the low eight
    bits of its argument. *)
Definition byte_val (a : ascii) : Z := Z.of_N (N_of_ascii a).
Definition to_byte (z : Z) : ascii := ascii_of_N (Z.to_N (z mod 256)).

Lemma byte_val_range a : 0 ≤ byte_val a < 256.
Proof. unfold byte_val. pose proof (N_ascii_bounded a). lia. Qed.

Lemma byte_val_to_byte z : byte_val (to_byte z) = z mod 256.
Proof.
  unfold byte_val, to_byte. pose proof (Z.mod_pos_bound z 256 ltac:(lia)).
  rewrite N_ascii_embedding; lia.
Qed.

Lemma to_byte_val a : to_byte (byte_val a) = a.
Proof.
  unfold byte_val, to_byte. pose proof (byte_val_range a) as H. unfold byte_val in H.
  rewrite Z.mod_small by done. rewrite N2Z.id. apply ascii_N_embedding.
Qed.

Lemma byte_val_inj a a' : byte_val a = byte_val a' → a = a'.
Proof. intros H. rewrite <-(to_byte_val a), <-(to_byte_val a'). by rewrite H. Qed.

(** Two bytes agree when their eight bits do. *)
Lemma to_byte_small z : 0 ≤ z < 256 → byte_val (to_byte z) = z.
Proof. intros Hz. rewrite byte_val_to_byte. by apply Z.mod_small. Qed.

(** [p[i]] of a byte array; the callers stay in range. *)
Definition byte_at (p : bytes) (i : nat) : Z := byte_val (default "000"%char (p !! i)).

Lemma byte_at_app_l p q i : (i < length p)%nat → byte_at (p ++ q) i = byte_at p i.
Proof. intros Hi. unfold byte_at. by rewrite lookup_app_l. Qed.

Lemma byte_at_app_r p q i : byte_at (p ++ q) (length p + i) = byte_at q i.
Proof. unfold byte_at. rewrite lookup_app_r by lia. by replace (length p + i - length p)%nat with i by lia. Qed.

(** ** Little-endian integers *)
Definition PutUint (v : Z) (n : nat) : bytes :=
  (λ i, to_byte (Z.land (Z.shiftr v (8 * Z.of_nat i)) 255)) <$> seq 0 n.

Definition GetUint (p : bytes) (n : nat) : Z :=
  foldl (λ v i, Z.lor v (Z.shiftl (byte_at p i) (8 * Z.of_nat i))) 0 (seq 0 n).

#[global] Arguments PutUint : simpl never.
#[global] Arguments GetUint : simpl never.

Lemma PutUint_length v n : length (PutUint v n) = n.
Proof. unfold PutUint. by rewrite length_fmap, length_seq. Qed.

Lemma GetUint_S p n :
  GetUint p (S n) = Z.lor (GetUint p n) (Z.shiftl (byte_at p n) (8 * Z.of_nat n)).
Proof. unfold GetUint. by rewrite seq_S, foldl_app. Qed.

Lemma byte_at_Put v n i q :
  (i < n)%nat → byte_at (PutUint v n ++ q) i = (v / 2 ^ (8 * Z.of_nat i)) mod 256.
Proof.
  intros Hi. rewrite byte_at_app_l by (by rewrite PutUint_length).
  unfold byte_at, PutUint. rewrite list_lookup_fmap, lookup_seq_lt by done. simpl.
  rewrite byte_val_to_byte, Z.shiftr_div_pow2 by lia.
  rewrite (Z.land_ones _ 8) by lia. by rewrite Z.mod_mod by lia.
Qed.

(** Joining a low part of [k] bits with a shifted high part is an addition. *)
Lemma lor_shift_add a b k : 0 ≤ k → 0 ≤ a < 2 ^ k → Z.lor a (Z.shiftl b k) = a + b * 2 ^ k.
Proof.
  intros Hk Ha. rewrite <-Z.shiftl_mul_pow2 by done.
  assert (Z.land a (Z.shiftl b k) = 0) as Hd.
  { apply Z.bits_inj'. intros i Hi. rewrite Z.land_spec, Z.bits_0.
    destruct (Z.lt_ge_cases i k) as [Hlt|Hge].
    - rewrite Z.shiftl_spec_low by done. by rewrite andb_false_r.
    - replace a with (a mod 2 ^ k) by (by apply Z.mod_small).
      rewrite Z.mod_pow2_bits_high by lia. done. }
  rewrite <-(Z.lxor_lor _ _ Hd). by rewrite <-Z.add_nocarry_lxor.
Qed.

Lemma GetUint_range p n : 0 ≤ GetUint p n < 2 ^ (8 * Z.of_nat n).
Proof.
  induction n as [|n IH]; [done|]. rewrite GetUint_S, lor_shift_add by lia.
  assert (0 ≤ byte_at p n < 256) by apply byte_val_range.
  replace (8 * Z.of_nat (S n)) with (8 + 8 * Z.of_nat n) by lia.
  rewrite Z.pow_add_r by lia. change (2 ^ 8) with 256. nia.
Qed.

Lemma GetUint_Put_mod v m n q :
  (n ≤ m)%nat → GetUint (PutUint v m ++ q) n = v mod 2 ^ (8 * Z.of_nat n).
Proof.
  intros Hn. induction n as [|n IH].
  { unfold GetUint. simpl. by rewrite Z.mod_1_r. }
  assert (0 < 2 ^ (8 * Z.of_nat n)) by (apply Z.pow_pos_nonneg; lia).
  rewrite GetUint_S, IH by lia. rewrite lor_shift_add, byte_at_Put;
    [|lia|lia|by apply Z.mod_pos_bound].
  replace (8 * Z.of_nat (S n)) with (8 * Z.of_nat n + 8) by lia.
  rewrite Z.pow_add_r by lia. change (2 ^ 8) with 256.
  rewrite Z.rem_mul_r by lia. lia.
Qed.

(** What was put is what is got, for a value that fits. *)
Lemma GetUint_PutUint v n q :
  0 ≤ v < 2 ^ (8 * Z.of_nat n) → GetUint (PutUint v n ++ q) n = v.
Proof. intros Hv. rewrite GetUint_Put_mod by done. by apply Z.mod_small. Qed.

(** ** Signed 64-bit integers on the wire *)
Definition to_u64 (z : Z) : Z := z mod 2 ^ 64.
Definition to_i64 (u : Z) : Z := if u <? 2 ^ 63 then u else u - 2 ^ 64.
Definition is_u64 (z : Z) : Prop := 0 ≤ z < 2 ^ 64.
Definition is_i64 (z : Z) : Prop := - 2 ^ 63 ≤ z < 2 ^ 63.

Lemma to_u64_range z : 0 ≤ to_u64 z < 2 ^ (8 * Z.of_nat 8).
Proof. unfold to_u64. by apply Z.mod_pos_bound. Qed.

Lemma to_i64_to_u64 z : is_i64 z → to_i64 (to_u64 z) = z.
Proof.
  unfold is_i64, to_i64, to_u64. intros Hz. destruct (Z.lt_ge_cases z 0).
  - rewrite <-(Z.mod_add z 1) by lia. rewrite Z.mod_small by lia.
    case_if; lia.
  - rewrite Z.mod_small by lia. case_if; lia.
Qed.

(** Reading [n] bytes and writing them back gives the same bytes. *)
Lemma PutUint_S v n :
  PutUint v (S n) = PutUint v n ++ [to_byte (Z.land (Z.shiftr v (8 * Z.of_nat n)) 255)].
Proof. unfold PutUint. by rewrite seq_S, fmap_app. Qed.

Lemma PutUint_add_high a b n : 0 ≤ a → PutUint (a + b * 2 ^ (8 * Z.of_nat n)) n = PutUint a n.
Proof.
  intros Ha. unfold PutUint. apply list_fmap_ext. intros k i Hi.
  apply lookup_seq in Hi as [-> Hi]. f_equal. simpl.
  rewrite !(Z.land_ones _ 8), !Z.shiftr_div_pow2 by lia.
  replace (8 * Z.of_nat n) with (8 * (Z.of_nat n - Z.of_nat k - 1) + 8 + 8 * Z.of_nat k) by lia.
  rewrite !Z.pow_add_r, Z.mul_assoc, Z.div_add by lia.
  rewrite Z.mul_assoc. by rewrite Z.mod_add.
Qed.

Lemma PutUint_GetUint p n : (n ≤ length p)%nat → PutUint (GetUint p n) n = take n p.
Proof.
  induction n as [|n IH]; intros Hn; [done|]. rewrite GetUint_S.
  pose proof (GetUint_range p n) as Hr. rewrite lor_shift_add by lia.
  rewrite PutUint_S, PutUint_add_high, IH by lia.
  destruct (lookup_lt_is_Some_2 p n ltac:(lia)) as [x Hx].
  rewrite (take_S_r p n x Hx). f_equal. f_equal.
  assert (byte_at p n = byte_val x) as -> by (unfold byte_at; by rewrite Hx).
  pose proof (byte_val_range x) as Hx'. change 255 with (Z.ones 8). rewrite Z.land_ones, Z.shiftr_div_pow2 by lia.
  rewrite Z.div_add, Z.div_small by lia. rewrite Z.add_0_l, Z.mod_small by lia. apply to_byte_val.
Qed.

(** Lengths as integers. *)
Definition zlen (s : bytes) : Z := Z.of_nat (length s).

Lemma zlen_nonneg s : 0 ≤ zlen s.
Proof. unfold zlen. lia. Qed.
Lemma zlen_app s t : zlen (s ++ t) = zlen s + zlen t.
Proof. unfold zlen. rewrite length_app. lia. Qed.
Lemma zlen_put v n : zlen (PutUint v n) = Z.of_nat n.
Proof. unfold zlen. by rewrite PutUint_length. Qed.
Lemma take_zlen s q : take (Z.to_nat (zlen s)) (s ++ q) = s.
Proof. unfold zlen. rewrite Nat2Z.id. apply take_app_length. Qed.
Lemma drop_zlen s q : drop (Z.to_nat (zlen s)) (s ++ q) = q.
Proof. unfold zlen. rewrite Nat2Z.id. apply drop_app_length. Qed.

(** Two splits of the same stream: the longer head extends the shorter one. *)
Lemma prefix_split {A} (s t u v : list A) :
  s ++ t = u ++ v → (length u ≤ length s)%nat → ∃ r, s = u ++ r ∧ v = r ++ t.
Proof.
  intros H Hle. apply app_eq_app in H as (r & [[-> ->]|[-> ->]]); [by exists r|].
  rewrite length_app in Hle. destruct r; [|simpl in Hle; lia]. exists []. by rewrite !app_nil_r.
Qed.

(** ** Big-endian integers *)
Definition put_be (v : Z) (n : nat) : bytes :=
  (λ i, to_byte (Z.land (Z.shiftr v (8 * Z.of_nat i)) 255)) <$> reverse (seq 0 n).

Definition get_be (p : bytes) : Z := foldl (λ v c, Z.lor (Z.shiftl v 8) (byte_val c)) 0 p.

Lemma put_be_length v n : length (put_be v n) = n.
Proof. unfold put_be. by rewrite length_fmap, length_reverse, length_seq. Qed.

Lemma put_be_S v n :
  put_be v (S n) = to_byte (Z.land (Z.shiftr v (8 * Z.of_nat n)) 255) :: put_be v n.
Proof. unfold put_be. by rewrite seq_S, reverse_app. Qed.

Lemma get_put_be_go v n : ∀ acc, 0 ≤ acc →
  foldl (λ v c, Z.lor (Z.shiftl v 8) (byte_val c)) acc (put_be v n) =
  acc * 2 ^ (8 * Z.of_nat n) + v mod 2 ^ (8 * Z.of_nat n).
Proof.
  induction n as [|n IH]; intros acc Hacc; [simpl; rewrite Z.mod_1_r; lia|].
  rewrite put_be_S. cbn [foldl]. change 255 with (Z.ones 8).
  rewrite byte_val_to_byte, Z.land_ones, Z.shiftr_div_pow2 by lia.
  change (2 ^ 8) with 256. rewrite Z.mod_mod by lia.
  pose proof (Z.mod_pos_bound (v / 2 ^ (8 * Z.of_nat n)) 256 ltac:(lia)) as Hm.
  rewrite Z.lor_comm, lor_shift_add by lia. rewrite IH by lia.
  replace (8 * Z.of_nat (S n)) with (8 * Z.of_nat n + 8) by lia. rewrite Z.pow_add_r by lia.
  change (2 ^ 8) with 256. rewrite Z.rem_mul_r by lia. lia.
Qed.

Lemma get_put_be v n : 0 ≤ v < 2 ^ (8 * Z.of_nat n) → get_be (put_be v n) = v.
Proof. intros Hv. unfold get_be. rewrite get_put_be_go by lia. by rewrite Z.mod_small. Qed.

Lemma get_be_nonneg p : 0 ≤ get_be p.
Proof.
  unfold get_be. induction p as [|c p IH] using rev_ind; [done|]. rewrite foldl_app. cbn [foldl].
  apply Z.lor_nonneg. rewrite Z.shiftl_nonneg. split; [done|apply byte_val_range].
Qed.

(** ** Byte queues

    Decoders read the unconsumed bytes and drop a prefix; writers append.  The
    laws are all that the codecs' theorems use of a receive buffer. *)
Class ByteQueue (B : Type) := {
  bq_ok : B → Prop;
  bq_view : B → bytes;
  bq_append : bytes → B → B;
  bq_consume : nat → B → B;
  append_ok b s : bq_ok b → bq_ok (bq_append s b);
  append_view b s : bq_ok b → bq_view (bq_append s b) = bq_view b ++ s;
  consume_ok b n : bq_ok b → bq_ok (bq_consume n b);
  consume_view b n : bq_ok b → bq_view (bq_consume n b) = drop n (bq_view b);
}.

#[export] Hint Resolve append_ok consume_ok : codicis.

(** The abstract queue: just the bytes. *)
#[export, program] Instance list_queue : ByteQueue (list ascii) := {
  bq_ok _ := True; bq_view l := l; bq_append s l := l ++ s; bq_consume n l := drop n l
}.
Solve All Obligations with done.

(** ** Searching strings *)

(** [std::string_view::find] of a character from the start. *)
Fixpoint find_char (c : ascii) (s : bytes) : option nat :=
  match s with
  | [] => None
  | x :: s => if Ascii.eqb x c then Some 0%nat else S <$> find_char c s
  end.

Lemma find_char_Some c s n :
  find_char c s = Some n ↔ s !! n = Some c ∧ c ∉ take n s.
Proof.
  revert n. induction s as [|x s IH]; intros n; simpl.
  { split; [done|]. intros [H _]. done. }
  destruct (Ascii.eqb_spec x c) as [->|Hne].
  - split; [intros [= <-]; split; [done|set_solver]|]. intros [H1 H2].
    destruct n as [|n]; [done|]. simpl in H2. set_solver.
  - rewrite fmap_Some. split.
    + intros (m & Hm & ->). apply IH in Hm as [H1 H2]. simpl. set_solver.
    + intros [H1 H2]. destruct n as [|n]; [simpl in H1; congruence|].
      exists n. split; [|done]. apply IH. simpl in *. set_solver.
Qed.

Lemma find_char_None c s : find_char c s = None ↔ c ∉ s.
Proof.
  induction s as [|x s IH]; simpl; [set_solver|].
  destruct (Ascii.eqb_spec x c) as [->|Hne]; [set_solver|].
  rewrite fmap_None, IH. set_solver.
Qed.

Lemma find_char_split c s1 s2 : c ∉ s1 → find_char c (s1 ++ c :: s2) = Some (length s1).
Proof.
  intros Hs. apply find_char_Some. rewrite take_app_length. split; [|done].
  rewrite lookup_app_r by done. by rewrite Nat.sub_diag.
Qed.

(** [std::string_view::find] of a string from the start. *)
Fixpoint find_str (pat s : bytes) : option nat :=
  if decide (take (length pat) s = pat) then Some 0%nat
  else match s with
       | [] => None
       | _ :: s => S <$> find_str pat s
       end.

Lemma find_str_Some pat s n :
  find_str pat s = Some n →
  ∃ s1 s2, s = s1 ++ pat ++ s2 ∧ length s1 = n.
Proof.
  revert n. induction s as [|x s IH]; intros n; simpl; case_decide as Hd.
  - intros [= <-]. exists [], []. simpl. rewrite app_nil_r. split; [|done].
    destruct pat; [done|discriminate].
  - done.
  - intros [= <-]. exists [], (drop (length pat) (x :: s)). split; [|done]. simpl.
    rewrite <-Hd at 1. by rewrite take_drop.
  - intros (m & Hm & ->)%fmap_Some. destruct (IH m Hm) as (s1 & s2 & -> & <-).
    by exists (x :: s1), s2.
Qed.

(** ** Reading records laid out field by field *)
Lemma find_str_here pat t : find_str pat (pat ++ t) = Some 0%nat.
Proof. pose proof (take_app_length pat t). destruct (pat ++ t); simpl; by rewrite decide_True. Qed.

(** Text without the pattern's first character is skipped. *)
Lemma find_str_free a pat s t :
  a ∉ s → find_str (a :: pat) (s ++ t) = (λ n, length s + n)%nat <$> find_str (a :: pat) t.
Proof.
  induction s as [|c s IH]; intros Hs; [simpl; by destruct (find_str (a :: pat) t)|].
  change ((c :: s) ++ t) with (c :: (s ++ t)). cbn [find_str length]. case_decide as Hd.
  - simpl in Hd. simplify_eq. set_solver.
  - rewrite IH by set_solver. by destruct (find_str (a :: pat) t).
Qed.

Lemma GetUint_app_l p q n : (n ≤ length p)%nat → GetUint (p ++ q) n = GetUint p n.
Proof.
  intros Hn. induction n as [|n IH]; [done|].
  rewrite !GetUint_S, IH by lia. by rewrite byte_at_app_l by lia.
Qed.

Lemma drop_put k v n r : (n ≤ k)%nat → drop k (PutUint v n ++ r) = drop (k - n) r.
Proof. intros Hk. rewrite drop_app_ge; rewrite PutUint_length; done. Qed.

(** A match found in a prefix is the match found in the whole. *)
Lemma find_str_app pat s q n :
  find_str pat s = Some n → find_str pat (s ++ q) = Some n.
Proof.
  revert n. induction s as [|x s IH]; intros n.
  - simpl. case_decide as Hd; [|done]. intros [= <-]. destruct q as [|y q]; simpl.
    + by rewrite decide_True.
    + destruct pat; [done|discriminate Hd].
  - intros H. pose proof (find_str_Some _ _ _ H) as (s1 & s2 & Hs & Hn).
    assert (take (length pat) ((x :: s) ++ q) = take (length pat) (x :: s)) as Ht.
    { apply take_app_le. rewrite Hs, !length_app. lia. }
    cbn [app] in Ht |- *. cbn [find_str] in H |- *. rewrite Ht.
    case_decide; [done|]. apply fmap_Some in H as (m & Hm & ->). by rewrite (IH m).
Qed.

(** ** Decimal numbers

    [std::to_string] of an unsigned 64-bit integer: at most 20 digits. *)
Definition digit (d : Z) : ascii := to_byte (48 + d).
Definition digit_val (c : ascii) : Z := byte_val c - 48.
Definition isdigit (c : ascii) : bool := (48 <=? byte_val c) && (byte_val c <=? 57).

Fixpoint dec_go (fuel : nat) (z : Z) (acc : bytes) : bytes :=
  match fuel with
  | O => acc
  | S fuel =>
      let acc := digit (z mod 10) :: acc in
      if z / 10 =? 0 then acc else dec_go fuel (z / 10) acc
  end.

Definition dec (z : Z) : bytes := dec_go 20 z [].

Lemma digit_digit d : 0 ≤ d < 10 → isdigit (digit d) = true ∧ digit_val (digit d) = d.
Proof.
  intros Hd. unfold isdigit, digit_val, digit. rewrite to_byte_small by lia.
  split; [|lia]. apply andb_true_iff. split; apply Z.leb_le; lia.
Qed.

(** Reading digits back, most significant first. *)
Definition undec (acc : Z) (s : bytes) : Z := foldl (λ a c, a * 10 + digit_val c) acc s.

Lemma dec_go_spec fuel : ∀ z acc,
  0 ≤ z < 10 ^ Z.of_nat fuel → fuel ≠ 0%nat →
  ∃ ds, dec_go fuel z acc = ds ++ acc ∧ Forall (λ c, isdigit c = true) ds ∧
        undec 0 ds = z ∧ (0 < length ds ≤ fuel)%nat.
Proof.
  induction fuel as [|fuel IH]; intros z acc Hz Hf; [done|]. cbn [dec_go].
  assert (0 ≤ z mod 10 < 10) as Hm by (apply Z.mod_pos_bound; lia).
  destruct (digit_digit _ Hm) as [Hd1 Hd2]. pose proof (Z.div_mod z 10 ltac:(lia)) as Hdm.
  destruct (Z.eqb_spec (z / 10) 0) as [E|E].
  - exists [digit (z mod 10)]. unfold undec. simpl. rewrite Hd2.
    split_and!; [done|by repeat constructor|lia|lia|lia].
  - assert (fuel ≠ 0%nat) as Hne.
    { intros ->. change (10 ^ Z.of_nat 1) with 10 in Hz. rewrite Z.div_small in E; lia. }
    destruct (IH (z / 10) (digit (z mod 10) :: acc)) as (ds & H1 & H2 & H3 & H4 & H5); [|done|].
    { split; [apply Z.div_pos; lia|]. apply Z.div_lt_upper_bound; [lia|].
      rewrite Nat2Z.inj_succ, Z.pow_succ_r in Hz by lia. lia. }
    exists (ds ++ [digit (z mod 10)]). rewrite H1, <-app_assoc. split_and!; [done| | |..].
    + apply Forall_app. split; [done|by repeat constructor].
    + unfold undec in *. rewrite foldl_app, H3. simpl. rewrite Hd2. lia.
    + rewrite length_app. simpl. lia.
    + rewrite length_app. simpl. lia.
Qed.

Lemma dec_spec z :
  is_u64 z → Forall (λ c, isdigit c = true) (dec z) ∧ undec 0 (dec z) = z ∧
  (0 < length (dec z) ≤ 20)%nat.
Proof.
  intros Hz. destruct (dec_go_spec 20 z []) as (ds & H1 & H2 & H3 & H4); [|done|].
  - unfold is_u64 in Hz. assert (2 ^ 64 < 10 ^ Z.of_nat 20) by reflexivity. lia.
  - unfold dec. rewrite H1, app_nil_r. split; [done|]. split; [done|exact H4].
Qed.

(** [std::to_string] of a signed integer. *)
Definition minus : ascii := "-"%char.
Definition to_dec (z : Z) : bytes := if z <? 0 then minus :: dec (- z) else dec z.

(** ** Signed 64-bit decimals

    The loop the code writes in several places: multiply, add, no test.  A value
    of 2^63 or more is signed overflow. *)
Fixpoint i64_digits (v : Z) (s : bytes) : res (option Z) :=
  match s with
  | [] => Ok (Some v)
  | c :: s =>
      if negb (isdigit c) then Ok None
      else
        let v := v * 10 + digit_val c in
        if v <? 2 ^ 63 then i64_digits v s else Err Overflow
  end.

(** Eighteen digits always fit. *)
Lemma i64_digits_short s : ∀ v k, 0 ≤ v < 10 ^ Z.of_nat k → (length s + k ≤ 18)%nat → ∃ r, i64_digits v s = Ok r.
Proof.
  induction s as [|c s IH]; intros v k Hv Hk; simpl; [by eexists|].
  destruct (isdigit c) eqn:Ec; simpl; [|by eexists]. unfold isdigit in Ec. bool_split. unfold digit_val.
  assert (v * 10 + (byte_val c - 48) < 10 ^ Z.of_nat (S k)) as Hlt.
  { rewrite Nat2Z.inj_succ, Z.pow_succ_r by lia. lia. }
  assert (10 ^ Z.of_nat (S k) ≤ 10 ^ 18) as Hp by (simpl in Hk; apply Z.pow_le_mono_r; lia).
  assert (10 ^ 18 < 2 ^ 63) by reflexivity. case_if; [|lia]. apply (IH _ (S k)); [lia|simpl in Hk; lia].
Qed.
