(* ===== verification/Buffer.v ===== *)
(** * The receive and send buffer ([util/buffer.h])

    A growable array with a read and a write cursor, compacted lazily.  The
    cursors and the storage, stale bytes included, are modelled as the class
    keeps them; the theorems show that it implements a byte queue. *)

From S2P Require Import Prelude.
From S2P Require Import Bytes.
Local Open Scope nat_scope.

Record Buffer := mkBuffer {
  storage_ : bytes;
  read_pos_ : nat;
  write_pos_ : nat;
}.

Definition new_buffer : Buffer := mkBuffer [] 0 0.

Definition buf_size (b : Buffer) : nat := write_pos_ b - read_pos_ b.
Definition buf_empty (b : Buffer) : bool := buf_size b =? 0.

(** The bytes from [data()] on. *)
Definition data (b : Buffer) : bytes := drop (read_pos_ b) (storage_ b).
Definition buffer_view (b : Buffer) : bytes := take (buf_size b) (data b).

Definition clear (b : Buffer) : Buffer := mkBuffer (storage_ b) 0 0.

(** [memcpy]/[memmove] of [s] to offset [pos]. *)
Definition write_at (pos : nat) (s l : bytes) : bytes :=
  take pos l ++ s ++ drop (pos + length s) l.

Definition compact (b : Buffer) : Buffer :=
  let n := buf_size b in
  let st := if (0 <? n) && (0 <? read_pos_ b)
            then write_at 0 (take n (data b)) (storage_ b) else storage_ b in
  mkBuffer st 0 n.

Definition maybe_compact (b : Buffer) : Buffer :=
  if (0 <? read_pos_ b) && (length (storage_ b) / 2 <=? read_pos_ b) then compact b else b.

(** [vector::resize] to a larger size appends zero bytes. *)
Definition resize (n : nat) (l : bytes) : bytes :=
  l ++ replicate (n - length l) "000"%char.

Definition reserve_tail (len : nat) (b : Buffer) : Buffer :=
  if len <=? length (storage_ b) - write_pos_ b then b
  else
    let b := if 0 <? read_pos_ b then compact b else b in
    if length (storage_ b) - write_pos_ b <? len
    then mkBuffer (resize (write_pos_ b + len) (storage_ b)) (read_pos_ b) (write_pos_ b)
    else b.

Definition buffer_append (s : bytes) (b : Buffer) : Buffer :=
  if length s =? 0 then b
  else
    let b := reserve_tail (length s) b in
    mkBuffer (write_at (write_pos_ b) s (storage_ b)) (read_pos_ b) (write_pos_ b + length s).

(** [reserve] hands out the tail; the caller's write through that pointer is
    [fill_tail]; [commit] makes the bytes readable. *)
Definition reserve (len : nat) (b : Buffer) : Buffer := reserve_tail len b.
Definition fill_tail (s : bytes) (b : Buffer) : Buffer :=
  mkBuffer (write_at (write_pos_ b) s (storage_ b)) (read_pos_ b) (write_pos_ b).
Definition commit (len : nat) (b : Buffer) : Buffer :=
  mkBuffer (storage_ b) (read_pos_ b) (write_pos_ b + len).

Definition buffer_consume (len : nat) (b : Buffer) : Buffer :=
  if buf_size b <=? len then clear b
  else maybe_compact (mkBuffer (storage_ b) (read_pos_ b + len) (write_pos_ b)).

(** ** The class invariant *)
Definition buffer_ok (b : Buffer) : Prop :=
  read_pos_ b ≤ write_pos_ b ≤ length (storage_ b).

Lemma new_buffer_ok : buffer_ok new_buffer.
Proof. unfold buffer_ok. simpl. lia. Qed.

(** A comparison of naturals made a proposition. *)
Ltac nat_split :=
  repeat match goal with
  | H : (_ <? _) = true |- _ => apply Nat.ltb_lt in H
  | H : (_ <? _) = false |- _ => apply Nat.ltb_ge in H
  | H : (_ <=? _) = true |- _ => apply Nat.leb_le in H
  | H : (_ <=? _) = false |- _ => apply Nat.leb_gt in H
  | H : (_ =? _) = true |- _ => apply Nat.eqb_eq in H
  | H : (_ =? _) = false |- _ => apply Nat.eqb_neq in H
  end.

Lemma view_length b : buffer_ok b → length (buffer_view b) = buf_size b.
Proof.
  unfold buffer_ok, buffer_view, data, buf_size. intros H.
  rewrite length_take, length_drop. lia.
Qed.

Lemma write_at_length pos s l :
  pos + length s ≤ length l → length (write_at pos s l) = length l.
Proof. intros H. unfold write_at. rewrite !length_app, length_take, length_drop. lia. Qed.

Lemma compact_ok b :
  buffer_ok b → buffer_ok (compact b) ∧ read_pos_ (compact b) = 0 ∧
  write_pos_ (compact b) = buf_size b ∧ length (storage_ (compact b)) = length (storage_ b) ∧
  buffer_view (compact b) = buffer_view b.
Proof.
  intros Hok. pose proof (view_length b Hok) as Hlen. unfold buffer_ok, buf_size in *.
  fold (buffer_view b). unfold compact, buf_size. fold (buf_size b). unfold buffer_view at 1.
  destruct ((0 <? buf_size b) && (0 <? read_pos_ b)) eqn:E; simpl.
  - change (take (buf_size b) (data b)) with (buffer_view b).
    assert (length (write_at 0 (buffer_view b) (storage_ b)) = length (storage_ b)) as Hl.
    { apply write_at_length. unfold buf_size in *. lia. }
    rewrite Hl. unfold buf_size. simpl. unfold buf_size in Hlen.
    repeat split; try lia. unfold data, write_at, buf_size. simpl.
    rewrite Nat.sub_0_r, drop_0. by rewrite take_app_le, take_ge by lia.
  - unfold buf_size in *. simpl. repeat split; try lia. unfold data, buf_size. simpl.
    rewrite Nat.sub_0_r, ?drop_0. unfold buffer_view, data, buf_size.
    apply andb_false_iff in E as [E|E]; nat_split; unfold buf_size in E.
    + by replace (write_pos_ b - read_pos_ b) with 0 by lia.
    + by replace (read_pos_ b) with 0 by lia.
Qed.

(** Bytes past the write cursor do not show. *)
Lemma view_ext b b' :
  read_pos_ b' = read_pos_ b → write_pos_ b' = write_pos_ b →
  take (write_pos_ b) (storage_ b') = take (write_pos_ b) (storage_ b) →
  buffer_view b' = buffer_view b.
Proof.
  intros Hr Hw Hs. unfold buffer_view, data, buf_size. rewrite Hr, Hw, !take_drop_commute.
  destruct (le_lt_dec (read_pos_ b) (write_pos_ b)).
  - replace (read_pos_ b + (write_pos_ b - read_pos_ b)) with (write_pos_ b) by lia. by rewrite Hs.
  - replace (read_pos_ b + (write_pos_ b - read_pos_ b)) with (read_pos_ b) by lia.
    rewrite !drop_ge; [done|rewrite length_take; lia..].
Qed.

Lemma reserve_tail_ok len b :
  buffer_ok b → buffer_ok (reserve_tail len b) ∧
  write_pos_ (reserve_tail len b) + len ≤ length (storage_ (reserve_tail len b)) ∧
  buffer_view (reserve_tail len b) = buffer_view b.
Proof.
  intros Hok. unfold reserve_tail.
  destruct (len <=? _) eqn:E1; nat_split; [unfold buffer_ok in *; repeat split; lia|].
  set (b1 := if 0 <? read_pos_ b then compact b else b).
  assert (buffer_ok b1 ∧ buffer_view b1 = buffer_view b) as [Hok1 <-].
  { subst b1. destruct (0 <? read_pos_ b); [|done]. pose proof (compact_ok b Hok). tauto. }
  destruct (_ <? len) eqn:E2; nat_split; [|unfold buffer_ok in *; repeat split; lia].
  unfold buffer_ok, resize in *. simpl. rewrite length_app, length_replicate.
  repeat split; try lia. apply view_ext; [done..|]. simpl. by rewrite take_app_le by lia.
Qed.

Lemma write_tail_view s b :
  read_pos_ b ≤ write_pos_ b → write_pos_ b + length s ≤ length (storage_ b) →
  buffer_view (mkBuffer (write_at (write_pos_ b) s (storage_ b)) (read_pos_ b)
                 (write_pos_ b + length s)) = buffer_view b ++ s.
Proof.
  intros Hrw Hle. unfold buffer_view, data, buf_size, write_at. simpl.
  replace (write_pos_ b + length s - read_pos_ b)
    with ((write_pos_ b - read_pos_ b) + length s) by lia.
  rewrite drop_app_le by (rewrite length_take; lia).
  rewrite take_app_ge by (rewrite length_drop, length_take; lia).
  rewrite length_drop, length_take.
  replace (write_pos_ b - read_pos_ b + length s - (write_pos_ b `min` length (storage_ b) - read_pos_ b))
    with (length s) by lia.
  rewrite take_app_length. rewrite (take_drop_commute (storage_ b)).
  by replace (read_pos_ b + (write_pos_ b - read_pos_ b)) with (write_pos_ b) by lia.
Qed.

Lemma buffer_append_ok s b : buffer_ok b → buffer_ok (buffer_append s b).
Proof.
  intros Hok. unfold buffer_append. destruct (length s =? 0); [done|].
  destruct (reserve_tail_ok (length s) b Hok) as (Hok' & Hroom & _).
  unfold buffer_ok in *. simpl. rewrite write_at_length by done. lia.
Qed.

Lemma buffer_append_view s b : buffer_ok b → buffer_view (buffer_append s b) = buffer_view b ++ s.
Proof.
  intros Hok. unfold buffer_append. destruct (length s =? 0) eqn:E; nat_split.
  { destruct s; [by rewrite app_nil_r|done]. }
  destruct (reserve_tail_ok (length s) b Hok) as (Hok' & Hroom & <-).
  apply write_tail_view; [apply Hok'|done].
Qed.

Lemma commit_ok n s b :
  buffer_ok b → length s ≤ n →
  buffer_ok (commit (length s) (fill_tail s (reserve n b))) ∧
  buffer_view (commit (length s) (fill_tail s (reserve n b))) = buffer_view b ++ s.
Proof.
  intros Hok Hs. unfold reserve, commit, fill_tail. simpl.
  destruct (reserve_tail_ok n b Hok) as (Hok' & Hroom & <-).
  split; [|apply write_tail_view; [apply Hok'|lia]].
  unfold buffer_ok in *. simpl. rewrite write_at_length by lia. lia.
Qed.

Lemma maybe_compact_ok b :
  buffer_ok b → buffer_ok (maybe_compact b) ∧ buffer_view (maybe_compact b) = buffer_view b.
Proof.
  intros Hok. unfold maybe_compact. destruct (_ && _); [|done].
  pose proof (compact_ok b Hok). tauto.
Qed.

Lemma buffer_consume_ok n b :
  buffer_ok b → buffer_ok (buffer_consume n b) ∧
  buffer_view (buffer_consume n b) = drop n (buffer_view b).
Proof.
  intros Hok. unfold buffer_consume. destruct (buf_size b <=? n) eqn:E; nat_split.
  - split; [unfold buffer_ok; simpl; lia|].
    rewrite drop_ge by (rewrite view_length by done; done). done.
  - unfold buf_size in E. destruct (maybe_compact_ok (mkBuffer (storage_ b) (read_pos_ b + n) (write_pos_ b)))
      as [H1 H2]; [unfold buffer_ok in *; simpl; lia|]. split; [done|]. rewrite H2.
    unfold buffer_view, data, buf_size. simpl. rewrite skipn_firstn_comm, drop_drop.
    f_equal. lia.
Qed.

(** ** The class is a byte queue *)
#[export] Instance buffer_queue : ByteQueue Buffer := {
  bq_ok := buffer_ok; bq_view := buffer_view; bq_append := buffer_append; bq_consume := buffer_consume;
  append_ok b s := buffer_append_ok s b;
  append_view b s := buffer_append_view s b;
  consume_ok b n H := proj1 (buffer_consume_ok n b H);
  consume_view b n H := proj2 (buffer_consume_ok n b H);
}.

(** ** Refinement of the abstract queue *)
Inductive buffer_op :=
  | OpAppend (s : bytes)
  | OpRead (n : nat) (s : bytes)  (** reserve [n], receive [s], commit *)
  | OpConsume (n : nat)
  | OpClear.

Definition op_ok (op : buffer_op) : Prop :=
  match op with OpRead n s => length s ≤ n | _ => True end.

Definition run_op (b : Buffer) (op : buffer_op) : Buffer :=
  match op with
  | OpAppend s => buffer_append s b
  | OpRead n s => commit (length s) (fill_tail s (reserve n b))
  | OpConsume n => buffer_consume n b
  | OpClear => clear b
  end.

(** The specification: a first-in first-out string of bytes. *)
Definition spec_op (l : bytes) (op : buffer_op) : bytes :=
  match op with
  | OpAppend s | OpRead _ s => l ++ s
  | OpConsume n => drop n l
  | OpClear => []
  end.

Lemma run_op_ok b op :
  buffer_ok b → op_ok op →
  buffer_ok (run_op b op) ∧ buffer_view (run_op b op) = spec_op (buffer_view b) op.
Proof.
  intros Hok Hop. destruct op as [s|n s|n|]; simpl in *.
  - split; [by apply buffer_append_ok|by apply buffer_append_view].
  - by apply commit_ok.
  - by apply buffer_consume_ok.
  - split; [unfold buffer_ok; simpl; lia|done].
Qed.

(** The buffer refines a byte queue.  After any sequence of appends,
    reads into reserved space, consumes and clears, the cursors are in range,
    the readable bytes are those of the first-in first-out specification, and
    [buf_size]/[buf_empty] report their number. *)
Lemma buffer_refines_queue ops :
  Forall op_ok ops →
  let b := foldl run_op new_buffer ops in
  buffer_ok b ∧ buffer_view b = foldl spec_op [] ops ∧
  buf_size b = length (foldl spec_op [] ops) ∧ (buf_empty b = true ↔ foldl spec_op [] ops = []).
Proof.
  intros Hops b. assert (buffer_ok b ∧ buffer_view b = foldl spec_op [] ops) as [Hok Hview].
  { subst b. assert (buffer_ok new_buffer ∧ buffer_view new_buffer = []) as [H1 H2]
      by (split; [apply new_buffer_ok|done]). revert H1 H2. generalize new_buffer ([] : bytes).
    induction Hops as [|op ops Hop Hops IH]; intros b l Hb <-; [done|]. simpl.
    destruct (run_op_ok b op Hb Hop) as [? <-]. by apply IH. }
  assert (buf_size b = length (foldl spec_op [] ops)) as Hs by (by rewrite <-Hview, view_length).
  split; [done|]. split; [done|]. split; [done|].
  unfold buf_empty. rewrite Hs, Nat.eqb_eq. apply length_zero_iff_nil.
Qed.

Lemma buffer_refines_queue_witness :
  let b := foldl run_op new_buffer [OpAppend (lit "abc"); OpConsume 2; OpRead 4 (lit "de"); OpConsume 1] in
  buffer_ok b ∧ buffer_view b = lit "de" ∧ buf_size b = 2 ∧ (buf_empty b = true ↔ lit "de" = []).
Proof.
  apply (buffer_refines_queue [OpAppend (lit "abc"); OpConsume 2; OpRead 4 (lit "de"); OpConsume 1]).
  repeat constructor.
Defined.
