(* ===== verification/FeedWire.v ===== *)
(** * The book-event wire codec ([feed/feed_wire.cc])

    Encoding of a book event as a fixed little-endian record with a
    length-prefixed symbol, and the incremental decoder over a byte queue. *)

From S2P Require Import Prelude.
From S2P Require Import Order.
From S2P Require Import Bytes.
From S2P Require Import Buffer.

Definition kFeedRecordFixed : nat := 1 + 1 + 2 + 8 + 8 + 8 + 8 + 8 + 8 + 8.

Inductive FeedDecode :=
  | FeedIncomplete
  | FeedComplete (ev : BookEvent)
  | FeedError.

(** [static_cast] of the event type to and from its tag. *)
Definition type_tag (t : BookEventType) : Z :=
  match t with
  | kAdd => 0 | kCancel => 1 | kTrade => 2 | kReprice => 3 | kReplenish => 4 | kTrigger => 5
  end.

Definition tag_type (t : Z) : BookEventType :=
  match t with
  | 0 => kAdd | 1 => kCancel | 2 => kTrade | 3 => kReprice | 4 => kReplenish | _ => kTrigger
  end.

Definition kMaxType : Z := type_tag kTrigger.

Definition symbol_bytes (s : Symbol) : bytes := String.list_ascii_of_string s.

Definition EncodeBookEvent (ev : BookEvent) : bytes :=
  to_byte (type_tag (ev_type ev)) ::
  to_byte (match ev_side ev with Sell => 1 | Buy => 0 end) ::
  PutUint (Z.of_nat (length (symbol_bytes (ev_symbol ev))) mod 2 ^ 16) 2 ++
  PutUint (ev_seq ev) 8 ++
  PutUint (ev_order_id ev) 8 ++
  PutUint (ev_taker_id ev) 8 ++
  PutUint (to_u64 (ev_price ev)) 8 ++
  PutUint (to_u64 (ev_prev_price ev)) 8 ++
  PutUint (to_u64 (ev_qty ev)) 8 ++
  PutUint (to_u64 (ev_displayed ev)) 8 ++
  symbol_bytes (ev_symbol ev).

#[global] Arguments EncodeBookEvent : simpl never.

Definition DecodeBookEvent {B} `{ByteQueue B} (in_ : B) : FeedDecode * B :=
  let v := bq_view in_ in
  if (length v <? kFeedRecordFixed)%nat then (FeedIncomplete, in_)
  else
    let type := byte_at v 0 in
    if kMaxType <? type then (FeedError, in_)
    else
      let side := byte_at v 1 in
      let symbol_len := Z.to_nat (GetUint (drop 2 v) 2) in
      let total := (kFeedRecordFixed + symbol_len)%nat in
      if (length v <? total)%nat then (FeedIncomplete, in_)
      else
        (FeedComplete {|
           ev_seq := GetUint (drop 4 v) 8;
           ev_symbol := String.string_of_list_ascii (take symbol_len (drop kFeedRecordFixed v));
           ev_type := tag_type type;
           ev_order_id := GetUint (drop 12 v) 8;
           ev_taker_id := GetUint (drop 20 v) 8;
           ev_side := if side =? 1 then Sell else Buy;
           ev_price := to_i64 (GetUint (drop 28 v) 8);
           ev_prev_price := to_i64 (GetUint (drop 36 v) 8);
           ev_qty := to_i64 (GetUint (drop 44 v) 8);
           ev_displayed := to_i64 (GetUint (drop 52 v) 8) |},
         bq_consume total in_).

(** ** Round trip *)

(** An event whose fields have their machine widths and whose symbol fits the
    16-bit length prefix. *)
Record event_fits (ev : BookEvent) : Prop := {
  fits_seq : is_u64 (ev_seq ev);
  fits_order : is_u64 (ev_order_id ev);
  fits_taker : is_u64 (ev_taker_id ev);
  fits_price : is_i64 (ev_price ev);
  fits_prev : is_i64 (ev_prev_price ev);
  fits_qty : is_i64 (ev_qty ev);
  fits_displayed : is_i64 (ev_displayed ev);
  fits_symbol : Z.of_nat (length (symbol_bytes (ev_symbol ev))) < 2 ^ 16;
}.

#[export] Instance is_u64_dec z : Decision (is_u64 z).
Proof. unfold is_u64. apply _. Defined.
#[export] Instance is_i64_dec z : Decision (is_i64 z).
Proof. unfold is_i64. apply _. Defined.

#[export] Instance event_fits_dec ev : Decision (event_fits ev).
Proof.
  refine (cast_if (decide (is_u64 (ev_seq ev) ∧ is_u64 (ev_order_id ev) ∧ is_u64 (ev_taker_id ev) ∧
    is_i64 (ev_price ev) ∧ is_i64 (ev_prev_price ev) ∧ is_i64 (ev_qty ev) ∧
    is_i64 (ev_displayed ev) ∧ Z.of_nat (length (symbol_bytes (ev_symbol ev))) < 2 ^ 16)));
    [by destruct_and!; split|intros []; naive_solver].
Defined.

Lemma tag_type_tag t : tag_type (type_tag t) = t ∧ 0 ≤ type_tag t ≤ kMaxType.
Proof. by destruct t. Qed.

Lemma EncodeBookEvent_length ev :
  length (EncodeBookEvent ev) = (kFeedRecordFixed + length (symbol_bytes (ev_symbol ev)))%nat.
Proof. unfold EncodeBookEvent. cbn [length]. rewrite !length_app, !PutUint_length. done. Qed.

(** The header of an encoding, whatever follows it. *)
Lemma Encode_header ev q :
  event_fits ev →
  byte_at (EncodeBookEvent ev ++ q) 0 = type_tag (ev_type ev) ∧
  GetUint (drop 2 (EncodeBookEvent ev ++ q)) 2 = Z.of_nat (length (symbol_bytes (ev_symbol ev))).
Proof.
  intros Hf. pose proof (fits_symbol _ Hf). split.
  - unfold EncodeBookEvent, byte_at. simpl. rewrite to_byte_small; [done|].
    pose proof (proj2 (tag_type_tag (ev_type ev))). unfold kMaxType in *. simpl in *. lia.
  - unfold EncodeBookEvent. cbn [app drop]. rewrite drop_0, <-app_assoc, GetUint_PutUint by (apply Z.mod_pos_bound; lia).
    apply Z.mod_small. lia.
Qed.

Section Decode.
Context {B : Type} `{ByteQueue B}.

Lemma decode_encoded b ev rest :
  bq_ok b → event_fits ev → bq_view b = EncodeBookEvent ev ++ rest →
  ∃ b', DecodeBookEvent b = (FeedComplete ev, b') ∧ bq_ok b' ∧ bq_view b' = rest.
Proof.
  intros Hb Hf Hv. unfold DecodeBookEvent. rewrite Hv.
  destruct (Encode_header ev rest Hf) as [-> ->].
  destruct (tag_type_tag (ev_type ev)) as [Htag Hmax].
  rewrite length_app, EncodeBookEvent_length, Nat2Z.id.
  case_if; [apply Nat.ltb_lt in Heqb0; lia|]. clear Heqb0. case_if; [lia|]. clear Heqb0.
  case_if; [apply Nat.ltb_lt in Heqb0; lia|]. clear Heqb0.
  exists (bq_consume (kFeedRecordFixed + length (symbol_bytes (ev_symbol ev))) b).
  split; [|split; [by apply consume_ok|]].
  2: { rewrite consume_view by done. rewrite Hv, <-EncodeBookEvent_length. apply drop_app_length. }
  f_equal. f_equal. rewrite Htag. destruct ev as [seq sym ty oid tid sd px prev q d].
  destruct Hf as [H1 H2 H3 H4 H5 H6 H7 H8]. unfold EncodeBookEvent, kFeedRecordFixed. cbn [app drop] in *. cbn [Nat.add drop ev_seq ev_symbol ev_type ev_order_id ev_taker_id ev_side ev_price ev_prev_price ev_qty ev_displayed] in *.
  unfold is_u64 in *. rewrite <-!app_assoc. f_equal.
  all: rewrite ?drop_put by lia; cbn [Nat.sub]; rewrite ?drop_0.
  all: try by rewrite GetUint_PutUint.
  all: try by rewrite GetUint_PutUint, to_i64_to_u64 by (apply to_u64_range || done).
  - rewrite take_app_le, firstn_all by done. apply String.string_of_list_ascii_of_string.
  - unfold byte_at. simpl. destruct sd; by rewrite to_byte_small.
Qed.

(** A strict prefix of an encoding is not consumed. *)
Lemma decode_prefix b ev q :
  event_fits ev → bq_view b ++ q = EncodeBookEvent ev → q ≠ [] →
  DecodeBookEvent b = (FeedIncomplete, b).
Proof.
  intros Hf Hv Hq. unfold DecodeBookEvent.
  destruct (length (bq_view b) <? kFeedRecordFixed)%nat eqn:E; [done|]. apply Nat.ltb_ge in E.
  unfold kFeedRecordFixed in E. destruct (Encode_header ev [] Hf) as [H0 H2].
  rewrite app_nil_r, <-Hv in H0, H2. rewrite byte_at_app_l in H0 by lia.
  rewrite drop_app_le, GetUint_app_l in H2 by (rewrite ?length_drop; lia).
  rewrite H0, H2, Nat2Z.id, <-EncodeBookEvent_length, <-Hv, length_app.
  destruct (tag_type_tag (ev_type ev)) as [_ Hmax]. case_if; [lia|]. clear Heqb0.
  case_if; [done|]. apply Nat.ltb_ge in Heqb0. destruct q; [done|]. simpl in *. lia.
Qed.

End Decode.

(** The bytes of a stream of events. *)
Definition stream (evs : list BookEvent) : bytes := mjoin (EncodeBookEvent <$> evs).

Lemma stream_app l k : stream (l ++ k) = stream l ++ stream k.
Proof. unfold stream. by rewrite fmap_app, join_app. Qed.
Lemma stream_single ev : stream [ev] = EncodeBookEvent ev.
Proof. unfold stream. simpl. by rewrite app_nil_r. Qed.

(** Round trip.  A byte queue that starts with the encoding of an event
    whose fields have their machine widths decodes to that event, consuming
    exactly its bytes; a queue that holds only a strict prefix of it is left
    untouched, waiting for more. *)
Lemma feed_event_roundtrip {B} `{ByteQueue B} (b : B) ev :
  bq_ok b → event_fits ev →
  (∀ rest, bq_view b = EncodeBookEvent ev ++ rest →
     ∃ b', DecodeBookEvent b = (FeedComplete ev, b') ∧ bq_ok b' ∧ bq_view b' = rest) ∧
  (∀ missing, bq_view b ++ missing = EncodeBookEvent ev → missing ≠ [] →
     DecodeBookEvent b = (FeedIncomplete, b)).
Proof.
  intros Hb Hf. split; [intros rest; by apply decode_encoded|].
  intros missing. by apply decode_prefix.
Qed.

Definition sample_event : BookEvent :=
  mkEvent 7 "ACME" kReprice 42 0 Sell 101 (-3) 10 4.

Lemma sample_event_fits : event_fits sample_event.
Proof. split; by vm_compute. Qed.

Lemma feed_event_roundtrip_witness :
  let b := bq_append (EncodeBookEvent sample_event ++ lit "x") new_buffer in
  ∃ b', DecodeBookEvent b = (FeedComplete sample_event, b') ∧ bq_ok b' ∧ bq_view b' = lit "x".
Proof.
  assert (bq_ok new_buffer) as Hn by (vm_compute; auto).
  apply (feed_event_roundtrip (bq_append (EncodeBookEvent sample_event ++ lit "x") new_buffer)
           sample_event); [by apply append_ok|exact sample_event_fits|].
  by rewrite append_view.
Defined.
