(* ===== verification/PipeIO.v ===== *)
(** * Non-blocking reads and writes

    The write and read loops that the feed publisher, the feed helper and its
    subscribers run on a descriptor.  The system calls are outside the program:
    a loop is given the script of results its calls return, and a script that
    is used up stands for a descriptor that would block. *)

From S2P Require Import Prelude.
From S2P Require Import Bytes.
From S2P Require Import Buffer.
Local Open Scope nat_scope.

(** Results of [::write]: a count, [EINTR], [EAGAIN]/[EWOULDBLOCK], an error. *)
Inductive io_write := WCount (n : nat) | WIntr | WAgain | WFail.

(** Results of [::read]: data (none is end of file), [EINTR], [EAGAIN], an
    error. *)
Inductive io_read := RData (s : bytes) | RIntr | RAgain | RFail.

(** How the write loop ends: buffer empty, would block, or descriptor gone. *)
Inductive write_end := Drained | Blocked | Broken.

Fixpoint write_loop (ws : list io_write) (out : Buffer) (sent : bytes)
    : write_end * Buffer * bytes :=
  if buf_empty out then (Drained, out, sent)
  else match ws with
       | [] | WAgain :: _ => (Blocked, out, sent)
       | WIntr :: ws => write_loop ws out sent
       | WFail :: _ => (Broken, out, sent)
       | WCount n :: ws =>
           if 0 <? n then
             write_loop ws (buffer_consume n out) (sent ++ take n (buffer_view out))
           else (Broken, out, sent)
       end.

(** How the read loop ends: would block, or end of file or error. *)
Fixpoint read_loop (chunk : nat) (rs : list io_read) (in_ : Buffer) : bool * Buffer :=
  let in_ := reserve chunk in_ in
  match rs with
  | [] | RAgain :: _ => (true, in_)
  | RIntr :: rs => read_loop chunk rs in_
  | RFail :: _ => (false, in_)
  | RData s :: rs =>
      if 0 <? length s then read_loop chunk rs (commit (length s) (fill_tail s in_))
      else (false, in_)
  end.

(** The kernel writes at most what it is given and reads at most a chunk. *)
Definition reads_ok (chunk : nat) (rs : list io_read) : Prop :=
  Forall (λ r, match r with RData s => 0 < length s ≤ chunk | RIntr | RAgain => True | RFail => False end) rs.

(** The data of a script up to the first call that would block. *)
Fixpoint read_data (rs : list io_read) : bytes :=
  match rs with
  | [] | RAgain :: _ | RFail :: _ => []
  | RIntr :: rs => read_data rs
  | RData s :: rs => s ++ read_data rs
  end.

Lemma write_loop_ok ws : ∀ out sent,
  buffer_ok out →
  let '(en, out', sent') := write_loop ws out sent in
  buffer_ok out' ∧ sent' ++ buffer_view out' = sent ++ buffer_view out ∧
  buf_size out' ≤ buf_size out ∧ (en = Drained → buffer_view out' = []) ∧
  ∃ more, sent' = sent ++ more.
Proof.
  induction ws as [|w ws IH]; intros out sent Hok; simpl.
  all: destruct (buf_empty out) eqn:E;
    [unfold buf_empty in E; apply Nat.eqb_eq in E; split_and!; try done;
       [intros _; apply length_zero_iff_nil; by rewrite view_length|exists []; by rewrite app_nil_r]|].
  1: { split_and!; try done. exists []. by rewrite app_nil_r. }
  destruct w as [n| | |].
  2: by apply IH.
  2,3: split_and!; try done; exists []; by rewrite app_nil_r.
  destruct (0 <? n); [|split_and!; try done; exists []; by rewrite app_nil_r].
  destruct (buffer_consume_ok n out Hok) as [Hok' Hv].
  specialize (IH (buffer_consume n out) (sent ++ take n (buffer_view out)) Hok').
  destruct (write_loop ws _ _) as [[en out'] sent']. destruct IH as (H1 & H2 & H3 & H4 & more & H5).
  split_and!; try done.
  - rewrite H2, Hv, <-app_assoc. by rewrite take_drop.
  - rewrite <-(view_length _ Hok'), Hv, length_drop, view_length in H3 by done. lia.
  - exists (take n (buffer_view out) ++ more). by rewrite app_assoc.
Qed.

Lemma read_loop_ok chunk rs : ∀ in_,
  buffer_ok in_ → reads_ok chunk rs →
  let '(more, in') := read_loop chunk rs in_ in
  more = true ∧ buffer_ok in' ∧ buffer_view in' = buffer_view in_ ++ read_data rs.
Proof.
  induction rs as [|r rs IH]; intros in_ Hok Hrs; simpl.
  { destruct (reserve_tail_ok chunk in_ Hok) as (H1 & _ & H3). by rewrite app_nil_r. }
  apply Forall_cons in Hrs as [Hr Hrs].
  destruct (reserve_tail_ok chunk in_ Hok) as (H1 & _ & H3). fold (reserve chunk in_) in H1, H3.
  destruct r as [s| | |]; [|..|done].
  - destruct Hr as [Hs1 Hs2]. destruct (0 <? length s) eqn:E; [|apply Nat.ltb_ge in E; lia].
    destruct (commit_ok chunk s in_ Hok Hs2) as [K1 K2]. specialize (IH _ K1 Hrs).
    destruct (read_loop chunk rs _) as [more in']. destruct IH as (-> & ? & ->).
    by rewrite K2, <-app_assoc.
  - specialize (IH _ H1 Hrs). destruct (read_loop chunk rs _) as [more in'].
    destruct IH as (-> & ? & ->). by rewrite H3.
  - by rewrite app_nil_r.
Qed.

Lemma buf_empty_view b : buffer_ok b → buf_empty b = true ↔ buffer_view b = [].
Proof.
  intros Hb. unfold buf_empty. rewrite Nat.eqb_eq, <-(view_length b Hb). apply length_zero_iff_nil.
Qed.

(** The write loop stops early only with bytes left. *)
Lemma write_loop_blocked ws : ∀ out sent out' sent',
  write_loop ws out sent = (Blocked, out', sent') → buf_empty out' = false.
Proof.
  induction ws as [|w ws IH]; intros b s out' sent'; simpl; destruct (buf_empty b) eqn:Eb; try done.
  - by intros [= <- <-].
  - destruct w as [n| | |]; [|by apply IH|by intros [= <- <-]|done].
    destruct (0 <? n)%nat; [apply IH|done].
Qed.

(** A script the kernel can produce: no read returns more than was asked. *)
Definition kernel_reads (chunk : nat) (rs : list io_read) : Prop :=
  Forall (λ r, match r with RData s => length s ≤ chunk | _ => True end) rs.

Lemma read_loop_buffer chunk rs : ∀ in_,
  buffer_ok in_ → kernel_reads chunk rs → buffer_ok (read_loop chunk rs in_).2.
Proof.
  induction rs as [|r rs IH]; intros in_ Hok Hrs; simpl.
  all: destruct (reserve_tail_ok chunk in_ Hok) as (H1 & _ & _); fold (reserve chunk in_) in H1.
  { done. }
  apply Forall_cons in Hrs as [Hr Hrs]. destruct r as [s| | |]; [|by apply IH|done|done].
  destruct (0 <? length s); [|done]. apply IH; [|done]. by apply commit_ok.
Qed.

(** ** Reading until the descriptor would block

    The loop of connections, which tell the end of the stream from an error. *)
Inductive read_end := WouldBlock | EndOfFile | ReadFailed.

Fixpoint read_all (chunk : nat) (rs : list io_read) (in_ : Buffer) : read_end * Buffer :=
  let in_ := reserve chunk in_ in
  match rs with
  | [] | RAgain :: _ => (WouldBlock, in_)
  | RIntr :: rs => read_all chunk rs in_
  | RFail :: _ => (ReadFailed, in_)
  | RData s :: rs =>
      if 0 <? length s then read_all chunk rs (commit (length s) (fill_tail s in_))
      else (EndOfFile, in_)
  end.

(** The bytes the loop takes from a script. *)
Fixpoint received (rs : list io_read) : bytes :=
  match rs with
  | [] | RAgain :: _ | RFail :: _ => []
  | RIntr :: rs => received rs
  | RData s :: rs => if 0 <? length s then s ++ received rs else []
  end.

Lemma read_all_ok chunk rs : ∀ in_,
  buffer_ok in_ → kernel_reads chunk rs →
  buffer_ok (read_all chunk rs in_).2 ∧
  buffer_view (read_all chunk rs in_).2 = buffer_view in_ ++ received rs.
Proof.
  induction rs as [|r rs IH]; intros in_ Hok Hrs; simpl;
    destruct (reserve_tail_ok chunk in_ Hok) as (H1 & _ & H3); fold (reserve chunk in_) in H1, H3.
  { by rewrite app_nil_r. }
  apply Forall_cons in Hrs as [Hr Hrs].
  destruct r as [s| | |]; [|by rewrite <-H3; apply IH|by rewrite app_nil_r|by rewrite app_nil_r].
  destruct (0 <? length s); [|by rewrite app_nil_r].
  destruct (commit_ok chunk s in_ Hok Hr) as [K1 K2]. destruct (IH _ K1 Hrs) as [L1 L2].
  split; [done|]. by rewrite L2, K2, <-app_assoc.
Qed.

Lemma write_loop_empty ws out sent : buf_empty out = true → write_loop ws out sent = (Drained, out, sent).
Proof. intros E. destruct ws; simpl; by rewrite E. Qed.
