(* ===== verification/FeedPublisher.v ===== *)
(** * The feed publisher ([feed/feed_publisher.cc])

    The engine's downstream sink: encodes each event into a bounded outbound
    buffer drained by non-blocking writes, dropping whole events when the
    buffer is full.  [fp_sent] records the bytes the descriptor took. *)

From S2P Require Import Prelude.
From S2P Require Import Order.
From S2P Require Import Bytes.
From S2P Require Import Buffer.
From S2P Require Import PipeIO.
From S2P Require Import FeedWire.

Definition kOutCap : Z := 16 * 1024 * 1024.

Record FeedPublisher := mkPublisher {
  fp_out : Buffer;
  fp_write_armed : bool;
  fp_closed : bool;
  fp_dropped : Z;
  fp_sent : bytes;
}.

Definition new_publisher : FeedPublisher := mkPublisher new_buffer false false 0 [].

Definition arm_write (on : bool) (p : FeedPublisher) : FeedPublisher :=
  if fp_closed p || Bool.eqb on (fp_write_armed p) then p
  else mkPublisher (fp_out p) on (fp_closed p) (fp_dropped p) (fp_sent p).

Definition handle_close (p : FeedPublisher) : FeedPublisher :=
  if fp_closed p then p
  else mkPublisher new_buffer false true (fp_dropped p) (fp_sent p).

Definition flush (ws : list io_write) (p : FeedPublisher) : FeedPublisher :=
  let '(en, out, sent) := write_loop ws (fp_out p) (fp_sent p) in
  let p := mkPublisher out (fp_write_armed p) (fp_closed p) (fp_dropped p) sent in
  match en with
  | Drained => arm_write false p
  | Blocked => p
  | Broken => handle_close p
  end.

Definition publish (ws : list io_write) (ev : BookEvent) (p : FeedPublisher) : FeedPublisher :=
  if fp_closed p then p
  else
    let bs := EncodeBookEvent ev in
    if kOutCap <? Z.of_nat (buf_size (fp_out p)) + Z.of_nat (length bs) then
      mkPublisher (fp_out p) (fp_write_armed p) (fp_closed p) (fp_dropped p + 1) (fp_sent p)
    else
      let p := mkPublisher (buffer_append bs (fp_out p)) (fp_write_armed p) (fp_closed p)
                 (fp_dropped p) (fp_sent p) in
      flush ws (arm_write true p).

Definition on_io_ready (writable error : bool) (ws : list io_write) (p : FeedPublisher)
    : FeedPublisher :=
  let p := if writable then flush ws p else p in
  if writable && fp_closed p then p
  else if error then handle_close p else p.

(** ** Sessions *)

(** The calls a publisher receives: an event from the engine, or readiness
    from the loop, each with the results of the writes it makes. *)
Inductive publisher_call :=
  | CallEvent (ev : BookEvent) (ws : list io_write)
  | CallReady (writable error : bool) (ws : list io_write).

(** Whether an event enters the stream. *)
Definition accepts (p : FeedPublisher) (ev : BookEvent) : bool :=
  negb (fp_closed p) &&
  (Z.of_nat (buf_size (fp_out p)) + Z.of_nat (length (EncodeBookEvent ev)) <=? kOutCap).

Definition call (acc : FeedPublisher * list BookEvent) (c : publisher_call)
    : FeedPublisher * list BookEvent :=
  let '(p, evs) := acc in
  match c with
  | CallEvent ev ws => (publish ws ev p, if accepts p ev then evs ++ [ev] else evs)
  | CallReady w err ws => (on_io_ready w err ws p, evs)
  end.

Definition session (cs : list publisher_call) : FeedPublisher * list BookEvent :=
  foldl call (new_publisher, []) cs.

(** The events offered in a session. *)
Definition offered (cs : list publisher_call) : list BookEvent :=
  omap (λ c, match c with CallEvent ev _ => Some ev | CallReady _ _ _ => None end) cs.

(** While open, what was sent and what is buffered is the accepted stream, and
    write interest is on exactly when bytes are waiting; once closed, what was
    sent is a prefix of it. *)
Record publisher_ok (p : FeedPublisher) (evs : list BookEvent) : Prop := {
  po_buffer : buffer_ok (fp_out p);
  po_bound : Z.of_nat (buf_size (fp_out p)) ≤ kOutCap;
  po_open : fp_closed p = false → fp_sent p ++ buffer_view (fp_out p) = stream evs;
  po_armed : fp_closed p = false → fp_write_armed p = negb (buf_empty (fp_out p));
  po_closed : fp_closed p = true → fp_out p = new_buffer;
  po_disarmed : fp_closed p = true → fp_write_armed p = false;
  po_sent : ∃ rest, stream evs = fp_sent p ++ rest;
}.

(** Flushing keeps the stream; it leaves interest on only with bytes left. *)
Lemma flush_ok ws p evs :
  buffer_ok (fp_out p) → Z.of_nat (buf_size (fp_out p)) ≤ kOutCap →
  fp_closed p = false → fp_sent p ++ buffer_view (fp_out p) = stream evs →
  (fp_write_armed p = true ∨ buf_empty (fp_out p) = true) → publisher_ok (flush ws p) evs.
Proof.
  intros Hb Hc Ho Hs Ha. unfold flush.
  pose proof (write_loop_ok ws (fp_out p) (fp_sent p) Hb) as Hw.
  destruct (write_loop ws (fp_out p) (fp_sent p)) as [[en out] sent] eqn:E.
  destruct Hw as (H1 & H2 & H3 & H4 & more & H5). rewrite Hs in H2.
  assert (∃ rest, stream evs = sent ++ rest) as Hpre by (exists (buffer_view out); done).
  destruct en; unfold arm_write, handle_close; simpl; rewrite ?Ho.
  - assert (buf_empty out = true) as He by (apply buf_empty_view; auto).
    simpl. destruct (fp_write_armed p) eqn:Ea; simpl; split; simpl; rewrite ?He, ?Ea, ?Ho; try done; lia.
  - split; simpl; rewrite ?Ho; try done; [lia|]. intros _.
    rewrite (write_loop_blocked _ _ _ _ _ E). destruct Ha as [->|Ha]; [done|].
    destruct ws; simpl in E; rewrite Ha in E; simplify_eq.
  - by split.
Qed.

Lemma publisher_ok_close p evs : publisher_ok p evs → publisher_ok (handle_close p) evs.
Proof.
  intros [H1 H2 H3 H4 H5 H6 H7]. unfold handle_close. destruct (fp_closed p) eqn:E; [split; by rewrite ?E|].
  by split.
Qed.

Lemma on_io_ready_ok w err ws p evs : publisher_ok p evs → publisher_ok (on_io_ready w err ws p) evs.
Proof.
  intros Hp. unfold on_io_ready.
  assert (publisher_ok (if w then flush ws p else p) evs) as Hf.
  { destruct w; [|done]. pose proof Hp as [H1 H2 H3 H4 H5 H6 H7]. destruct (fp_closed p) eqn:E.
    - unfold flush. rewrite (H5 eq_refl). destruct ws; simpl; unfold arm_write; simpl; rewrite E;
        simpl; rewrite <-(H5 eq_refl), <-E; by destruct p.
    - apply flush_ok; auto. rewrite (H4 eq_refl). destruct (buf_empty (fp_out p)); auto. }
  destruct (w && _); [done|]. destruct err; [by apply publisher_ok_close|done].
Qed.

Lemma publish_ok ws ev p evs :
  publisher_ok p evs →
  publisher_ok (publish ws ev p) (if accepts p ev then evs ++ [ev] else evs).
Proof.
  intros Hp. pose proof Hp as [H1 H2 H3 H4 H5 H6 H7]. unfold publish, accepts.
  destruct (fp_closed p) eqn:E; [done|]. cbn [negb andb]. rewrite Z.leb_antisym.
  case_if; cbn [negb].
  { destruct p; split; simpl in *; auto. }
  set (bs := EncodeBookEvent ev) in *.
  assert (buffer_ok (buffer_append bs (fp_out p))) as Hb by (by apply buffer_append_ok).
  assert (buf_size (buffer_append bs (fp_out p)) = (buf_size (fp_out p) + length bs)%nat) as Hsz.
  { by rewrite <-!view_length, buffer_append_view, length_app. }
  assert (∀ q, fp_out q = buffer_append bs (fp_out p) → fp_closed q = false → fp_sent q = fp_sent p →
               fp_write_armed q = true → publisher_ok (flush ws q) (evs ++ [ev])) as Hq.
  { intros q Q1 Q2 Q3 Q4. apply flush_ok; rewrite ?Q1; auto; [rewrite Hsz; lia|].
    rewrite Q3, buffer_append_view, app_assoc, H3 by done. by rewrite stream_app, stream_single. }
  unfold arm_write. simpl. apply Hq; destruct (fp_write_armed p) eqn:Ea; simpl; done.
Qed.

Lemma call_ok c p evs :
  publisher_ok p evs → publisher_ok (call (p, evs) c).1 (call (p, evs) c).2.
Proof. destruct c; simpl; [apply publish_ok|apply on_io_ready_ok]. Qed.

(** An open publisher has accounted for every event offered to it. *)
Lemma call_closed c p evs : fp_closed p = true → fp_closed (call (p, evs) c).1 = true.
Proof.
  intros Hc. destruct c as [ev ws|w err ws]; simpl; [unfold publish; by rewrite Hc|].
  unfold on_io_ready, flush, arm_write, handle_close. destruct w, err; simpl; rewrite ?Hc; simpl;
    try done; destruct (write_loop ws (fp_out p) (fp_sent p)) as [[[] ?] ?]; simpl; by rewrite ?Hc.
Qed.

Lemma flush_dropped ws p : fp_dropped (flush ws p) = fp_dropped p.
Proof.
  unfold flush, arm_write, handle_close. destruct (write_loop ws (fp_out p) (fp_sent p)) as [[[] ?] ?];
    simpl; repeat case_if; done.
Qed.

Lemma call_count c p evs :
  fp_closed (call (p, evs) c).1 = false →
  fp_dropped (call (p, evs) c).1 + Z.of_nat (length (call (p, evs) c).2) =
  fp_dropped p + Z.of_nat (length evs) + Z.of_nat (length (offered [c])).
Proof.
  intros Ho. destruct (fp_closed p) eqn:Hc; [by rewrite call_closed in Ho|].
  destruct c as [ev ws|w err ws]; cbn [call fst snd offered omap list_omap length] in *.
  - unfold publish, accepts in *. rewrite Hc in *. cbn [negb andb] in *. rewrite Z.leb_antisym.
    case_if; cbn [negb fp_dropped]; [lia|].
    rewrite flush_dropped, length_app. unfold arm_write. simpl. case_if; simpl; lia.
  - unfold on_io_ready, handle_close. destruct w, err; simpl; repeat case_if; simpl;
      rewrite ?flush_dropped; lia.
Qed.

Lemma session_ok cs :
  publisher_ok (session cs).1 (session cs).2 ∧ (session cs).2 `sublist_of` offered cs ∧
  (fp_closed (session cs).1 = false →
   fp_dropped (session cs).1 + Z.of_nat (length (session cs).2) = Z.of_nat (length (offered cs))).
Proof.
  unfold session. induction cs as [|c cs IH] using rev_ind.
  { split_and!; try done. split; try done; by exists []. }
  rewrite foldl_app. simpl. destruct (foldl call (new_publisher, []) cs) as [p evs].
  destruct IH as (IH1 & IH2 & IH3). simpl in IH1, IH2, IH3. unfold offered. rewrite omap_app.
  fold (offered cs) (offered [c]). split_and!.
  - by apply call_ok.
  - destruct c as [ev ws|w err ws]; simpl; [|by rewrite app_nil_r].
    destruct (accepts p ev); [by apply sublist_app|by apply sublist_inserts_r].
  - intros Ho. rewrite call_count by done. rewrite length_app.
    destruct (fp_closed p) eqn:Hc; [by rewrite call_closed in Ho|]. rewrite IH3 by done. lia.
Qed.

(** A closed publisher ignores its calls. *)
Lemma closed_inert cs p evs : publisher_ok p evs → fp_closed p = true → foldl call (p, evs) cs = (p, evs).
Proof.
  intros Hp Hc. pose proof (po_closed _ _ Hp Hc) as Ho.
  assert (∀ ws, flush ws p = p) as Hf.
  { intros ws. unfold flush. rewrite Ho. destruct ws; simpl; unfold arm_write; simpl; rewrite Hc; simpl;
      rewrite <-Ho, <-Hc; by destruct p. }
  induction cs as [|c cs IH]; [done|]. cbn [foldl]. assert (call (p, evs) c = (p, evs)) as ->; [|done].
  destruct c as [ev ws|w err ws]; simpl.
  - unfold publish, accepts. by rewrite Hc.
  - unfold on_io_ready, handle_close. destruct w, err; rewrite ?Hf, ?Hc; done.
Qed.

(** C29: the publisher.  Whatever the calls and however the descriptor
    answers, the outbound buffer stays within its cap; the bytes written are a
    prefix of the encodings, whole and in order, of a subsequence of the events
    offered.  While the descriptor is up, sent and buffered bytes together are
    that stream, every other event offered was counted as dropped, and write
    interest is on exactly while bytes wait.  Once it is closed no call changes
    anything: events offered then are neither sent nor counted. *)
Theorem publisher_bounded_stream cs :
  let p := (session cs).1 in
  let evs := (session cs).2 in
  Z.of_nat (buf_size (fp_out p)) ≤ kOutCap ∧ evs `sublist_of` offered cs ∧
  (∃ rest, stream evs = fp_sent p ++ rest) ∧
  (fp_closed p = false →
     fp_sent p ++ buffer_view (fp_out p) = stream evs ∧
     fp_dropped p + Z.of_nat (length evs) = Z.of_nat (length (offered cs)) ∧
     fp_write_armed p = negb (buf_empty (fp_out p))) ∧
  (fp_closed p = true → fp_write_armed p = false ∧ ∀ cs', session (cs ++ cs') = session cs).
Proof.
  destruct (session_ok cs) as (Hok & Hs & Hd). pose proof Hok as [H1 H2 H3 H4 H5 H6 H7]. split_and!; try done.
  - intros Ho. auto.
  - intros Hc. split; [auto|]. intros cs'. unfold session in *. rewrite foldl_app. destruct (foldl call _ cs). by apply closed_inert.
Qed.
