(* ===== verification/FeedHelper.v ===== *)
(** * The feed helper ([tools/feed_helper/main.cc])

    The process behind the publisher's pipe: it decodes the event stream from
    its standard input, keeps a book replica, and fans L1 updates out to
    subscribers, each with a bounded outbound buffer and a line-based command
    reader. *)

From stdpp Require Import pretty.
From S2P Require Import Prelude.
From S2P Require Import Order.
From S2P Require Import Ladder.
From S2P Require Import Book.
From S2P Require Import Replica.
From S2P Require Import BookInv.
From S2P Require Import BookFlow.
From S2P Require Import BookDepth.
From S2P Require Import BookProps.
From S2P Require Import MatchingEngine.
From S2P Require Import Bytes.
From S2P Require Import Buffer.
From S2P Require Import PipeIO.
From S2P Require Import FeedWire.

Definition kSubscriberOutCap : Z := 4 * 1024 * 1024.

(** ** Rendering *)
Definition to_string (z : Z) : string := pretty z.

(** The double quote, and a string in double quotes. *)
Definition dq : string := String.String (ascii_of_nat 34) "".
Definition quoted (s : string) : string := dq +:+ s +:+ dq.
Definition field (k : string) : string := quoted k +:+ ":".

Definition best_px (q : option (Ticks * Quantity)) : string :=
  match q with Some (p, _) => to_string p | None => "null" end.
Definition best_qty (q : option (Ticks * Quantity)) : string :=
  to_string (match q with Some (_, n) => n | None => 0 end).

Definition L1Json (r : BookReplica) (sym : Symbol) : string :=
  let bid := best_of r sym Buy false in
  let ask := best_of r sym Sell false in
  let lbid := best_of r sym Buy true in
  let lask := best_of r sym Sell true in
  "{" +:+ field "t" +:+ quoted "l1" +:+ "," +:+ field "sym" +:+ quoted sym +:+
  "," +:+ field "seq" +:+ to_string (r_last_seq r) +:+
  "," +:+ field "bid" +:+ best_px bid +:+ "," +:+ field "bid_qty" +:+ best_qty bid +:+
  "," +:+ field "ask" +:+ best_px ask +:+ "," +:+ field "ask_qty" +:+ best_qty ask +:+
  "," +:+ field "lit_bid" +:+ best_px lbid +:+ "," +:+ field "lit_bid_qty" +:+ best_qty lbid +:+
  "," +:+ field "lit_ask" +:+ best_px lask +:+ "," +:+ field "lit_ask_qty" +:+ best_qty lask +:+
  "}" +:+ String.String (ascii_of_nat 10) "".

(** Pairs of numbers as a JSON array, comma separated. *)
Definition pair_json (x y : Z) : string := "[" +:+ to_string x +:+ "," +:+ to_string y +:+ "]".
Definition comma_list (l : list string) : string := String.concat "," l.

Definition L2Json (r : BookReplica) (sym : Symbol) (displayed : bool) : string :=
  let emit lv := "[" +:+ comma_list ((λ x : Ticks * Quantity, pair_json x.1 x.2) <$> lv) +:+ "]" in
  "{" +:+ field "t" +:+ quoted (if displayed then "l2d" else "l2") +:+
  "," +:+ field "sym" +:+ quoted sym +:+
  "," +:+ field "bids" +:+ emit (depth_of r sym Buy displayed 10) +:+
  "," +:+ field "asks" +:+ emit (depth_of r sym Sell displayed 10) +:+
  "}" +:+ String.String (ascii_of_nat 10) "".

Definition L3Json (r : BookReplica) (sym : Symbol) (s : Side) (price : Ticks) : string :=
  "{" +:+ field "t" +:+ quoted "l3" +:+ "," +:+ field "sym" +:+ quoted sym +:+
  "," +:+ field "side" +:+ quoted (match s with Buy => "b" | Sell => "s" end) +:+
  "," +:+ field "price" +:+ to_string price +:+
  "," +:+ field "orders" +:+ "[" +:+
  comma_list ((λ ov, pair_json (v_id ov) (v_qty ov)) <$> orders_at r sym s price) +:+
  "]}" +:+ String.String (ascii_of_nat 10) "".

(** ** Subscribers *)
Record Subscriber := mkSub {
  s_in : Buffer;
  s_out : Buffer;
  s_write_armed : bool;
  s_dropped : bool;
  s_sent : bytes;  (** what the descriptor took *)
}.

Definition new_subscriber : Subscriber := mkSub new_buffer new_buffer false false [].

(** [drop]: the flag; the registry entry goes with the deferred [reap]. *)
Definition sub_drop (s : Subscriber) : Subscriber :=
  mkSub (s_in s) (s_out s) (s_write_armed s) true (s_sent s).

Definition sub_arm_write (on : bool) (s : Subscriber) : Subscriber :=
  mkSub (s_in s) (s_out s) on (s_dropped s) (s_sent s).

Definition sub_flush (ws : list io_write) (s : Subscriber) : Subscriber :=
  let '(en, out, sent) := write_loop ws (s_out s) (s_sent s) in
  let s := mkSub (s_in s) out (s_write_armed s) (s_dropped s) sent in
  match en with
  | Drained => sub_arm_write false s
  | Blocked => s
  | Broken => sub_drop s
  end.

Definition queue (ws : list io_write) (msg : string) (s : Subscriber) : Subscriber :=
  let m := lit msg in
  if kSubscriberOutCap <? Z.of_nat (buf_size (s_out s)) + Z.of_nat (length m) then sub_drop s
  else
    let s := mkSub (s_in s) (buffer_append m (s_out s)) (s_write_armed s) (s_dropped s) (s_sent s) in
    sub_flush ws (sub_arm_write true s).

(** Tokens separated by runs of spaces. *)
Fixpoint tokens (cur l : bytes) : list bytes :=
  let close := match cur with [] => [] | _ => [cur] end in
  match l with
  | [] => close
  | c :: l => if Ascii.eqb c " " then close ++ tokens [] l else tokens (cur ++ [c]) l
  end.

(** [std::atoll]: white space, a sign, then digits up to the first other
    character; a value that is no [long long] is undefined. *)
Definition is_space (c : ascii) : bool :=
  let v := byte_val c in (v =? 32) || ((9 <=? v) && (v <=? 13)).
Definition is_digit (c : ascii) : bool := let v := byte_val c in (48 <=? v) && (v <=? 57).

Fixpoint digits (acc : Z) (l : bytes) : Z :=
  match l with
  | c :: l => if is_digit c then digits (acc * 10 + (byte_val c - 48)) l else acc
  | [] => acc
  end.

Fixpoint signed_digits (l : bytes) : Z :=
  match l with
  | [] => 0
  | c :: l' =>
      if is_space c then signed_digits l'
      else if Ascii.eqb c "-" then - digits 0 l'
      else if Ascii.eqb c "+" then digits 0 l'
      else digits 0 l
  end.

Definition atoll (l : bytes) : res Z :=
  let v := signed_digits l in if (- 2 ^ 63 <=? v) && (v <? 2 ^ 63) then Ok v else Err Overflow.

Definition handle_command (r : BookReplica) (ws : list io_write) (line : bytes) (s : Subscriber)
    : res Subscriber :=
  match tokens [] line with
  | cmd :: rest =>
      let sym t := String.string_of_list_ascii t in
      if bool_decide (cmd = lit "l1") && (2 <=? length (cmd :: rest))%nat then
        Ok (queue ws (L1Json r (sym (nth 0 rest []))) s)
      else if bool_decide (cmd = lit "l2") && (2 <=? length (cmd :: rest))%nat then
        Ok (queue ws (L2Json r (sym (nth 0 rest [])) false) s)
      else if bool_decide (cmd = lit "l2d") && (2 <=? length (cmd :: rest))%nat then
        Ok (queue ws (L2Json r (sym (nth 0 rest [])) true) s)
      else if bool_decide (cmd = lit "l3") && (4 <=? length (cmd :: rest))%nat then
        let side := if bool_decide (nth 1 rest [] = lit "s") then Sell else Buy in
        px ← atoll (nth 2 rest []);
        Ok (queue ws (L3Json r (sym (nth 0 rest [])) side px) s)
      else Ok s
  | [] => Ok s
  end.

(** The command loop: one whole line at a time, [wss] one write script per
    command. *)
Fixpoint command_loop (fuel : nat) (r : BookReplica) (wss : list (list io_write)) (s : Subscriber)
    : res Subscriber :=
  match fuel with
  | O => Err OutOfFuel
  | S fuel =>
      let v := buffer_view (s_in s) in
      match find_char (ascii_of_nat 10) v with
      | None => Ok s
      | Some nl =>
          let line := take nl v in
          let s := mkSub (buffer_consume (nl + 1) (s_in s)) (s_out s) (s_write_armed s)
                     (s_dropped s) (s_sent s) in
          let line := match last line with
                      | Some c => if Ascii.eqb c (ascii_of_nat 13)
                                  then take (length line - 1) line else line
                      | None => line
                      end in
          s ← handle_command r (default [] (head wss)) line s;
          if s_dropped s then Ok s else command_loop fuel r (tail wss) s
      end
  end.

Definition on_readable (r : BookReplica) (rs : list io_read) (wss : list (list io_write))
    (s : Subscriber) : res Subscriber :=
  let '(more, in_) := read_loop 4096 rs (s_in s) in
  let s := mkSub in_ (s_out s) (s_write_armed s) (s_dropped s) (s_sent s) in
  if negb more then Ok (sub_drop s)
  else command_loop (S (buf_size in_)) r wss s.

Definition sub_on_io_ready (r : BookReplica) (readable writable error : bool)
    (rs : list io_read) (wss : list (list io_write)) (ws : list io_write) (s : Subscriber)
    : res Subscriber :=
  s ← (if readable then on_readable r rs wss s else Ok s);
  if readable && s_dropped s then Ok s
  else
    let s := if writable then sub_flush ws s else s in
    if writable && s_dropped s then Ok s
    else if error then Ok (sub_drop s) else Ok s.

(** ** The helper *)
Record FeedHelper := mkHelper {
  fh_replica : BookReplica;
  fh_in : Buffer;
  fh_subs : gmap Z Subscriber;
  fh_seen : gset Symbol;
  fh_stopped : bool;
}.


Definition on_stdin_eof (h : FeedHelper) : FeedHelper :=
  mkHelper (fh_replica h) (fh_in h) (fh_subs h) (fh_seen h) true.

(** [broadcast], with the write results of each subscriber's descriptor. *)
Definition broadcast (ws : Z → list io_write) (msg : string) (h : FeedHelper) : FeedHelper :=
  mkHelper (fh_replica h) (fh_in h)
    (map_imap (λ fd s, Some (queue (ws fd) msg s)) (fh_subs h)) (fh_seen h) (fh_stopped h).

Definition on_event (ws : Z → list io_write) (ev : BookEvent) (h : FeedHelper) : FeedHelper :=
  let h := mkHelper (apply (fh_replica h) ev).2 (fh_in h) (fh_subs h) (fh_seen h) (fh_stopped h) in
  broadcast ws (L1Json (fh_replica h) (ev_symbol ev)) h.

Definition note_symbol (sym : Symbol) (h : FeedHelper) : FeedHelper :=
  mkHelper (fh_replica h) (fh_in h) (fh_subs h) ({[sym]} ∪ fh_seen h) (fh_stopped h).

(** The deferred erasures of [remove_subscriber]. *)
Definition reap (h : FeedHelper) : FeedHelper :=
  mkHelper (fh_replica h) (fh_in h) (filter (λ x, s_dropped x.2 = false) (fh_subs h))
    (fh_seen h) (fh_stopped h).

(** [std::set<Symbol>] iterates in byte order. *)
Definition symbol_le (x y : Symbol) : Prop := String.leb x y = true.
#[export] Instance symbol_le_dec : RelDecision symbol_le.
Proof. intros x y. unfold symbol_le. apply _. Defined.
Definition known_symbols (h : FeedHelper) : list Symbol :=
  merge_sort symbol_le (elements (fh_seen h)).

Definition ready_line : string :=
  "{" +:+ field "t" +:+ quoted "ready" +:+ "}" +:+ String.String (ascii_of_nat 10) "".

(** [on_accept]: [added] is whether the loop took the descriptor. *)
Definition on_accept (added : bool) (fd : Z) (ws : list (list io_write)) (h : FeedHelper) : FeedHelper :=
  if negb added then h
  else
    let s := foldl (λ s '(i, sym), queue (default [] (ws !! i)) (L1Json (fh_replica h) sym) s)
               new_subscriber (imap pair (known_symbols h)) in
    let s := queue (default [] (ws !! length (known_symbols h))) ready_line s in
    mkHelper (fh_replica h) (fh_in h)
      (match fh_subs h !! fd with Some _ => fh_subs h | None => <[fd := s]> (fh_subs h) end)
      (fh_seen h) (fh_stopped h).

(** The decode loop of [StdinReader::on_io_ready]; [ws] gives the write results
    of each decoded event's broadcast. *)
Fixpoint drain (fuel : nat) (ws : nat → Z → list io_write) (h : FeedHelper) : res FeedHelper :=
  match fuel with
  | O => Err OutOfFuel
  | S fuel =>
      let '(d, in_) := DecodeBookEvent (fh_in h) in
      let h := mkHelper (fh_replica h) in_ (fh_subs h) (fh_seen h) (fh_stopped h) in
      match d with
      | FeedIncomplete => Ok h
      | FeedError => Ok (on_stdin_eof h)
      | FeedComplete ev => drain fuel ws (on_event (ws fuel) ev (note_symbol (ev_symbol ev) h))
      end
  end.


(** ** The decoded stream *)

(** Any buffer content is worked off within the fuel. *)
Lemma decode_progress (b b' : Buffer) ev :
  buffer_ok b → DecodeBookEvent b = (FeedComplete ev, b') →
  buffer_ok b' ∧ (buf_size b' < buf_size b)%nat.
Proof.
  intros Hb. unfold DecodeBookEvent. cbn [bq_view bq_consume buffer_queue].
  destruct (_ <? kFeedRecordFixed)%nat eqn:E; [done|]. destruct (kMaxType <? _); [done|].
  destruct (_ <? kFeedRecordFixed + _)%nat; [done|]. intros H. apply (f_equal snd) in H. unfold snd in H. subst b'.
  set (n := (kFeedRecordFixed + _)%nat). destruct (buffer_consume_ok n b Hb) as [Hok Hv].
  split; [done|]. rewrite <-(view_length _ Hok), Hv, length_drop, view_length by done.
  rewrite view_length in E by done. apply Nat.ltb_ge in E. subst n. unfold kFeedRecordFixed in *. lia.
Qed.

Lemma drain_total fuel : ∀ ws h,
  buffer_ok (fh_in h) → (buf_size (fh_in h) < fuel)%nat →
  ∃ h', drain fuel ws h = Ok h' ∧ buffer_ok (fh_in h').
Proof.
  induction fuel as [|fuel IH]; intros ws h Hb Hf; [lia|]. cbn [drain].
  destruct (DecodeBookEvent (fh_in h)) as [[|ev|] in_] eqn:E.
  - eexists. split; [done|]. simpl. unfold DecodeBookEvent in E. repeat case_match; by simplify_eq.
  - destruct (decode_progress _ _ _ Hb E) as [Hok Hlt]. apply IH; [done|simpl; lia].
  - eexists. split; [done|]. simpl. unfold DecodeBookEvent in E. repeat case_match; by simplify_eq.
Qed.






(** ** Quotes of the replica *)
#[export] Instance price_better_total s : Total (price_better s).
Proof. intros x y. unfold price_better. destruct s; lia. Qed.
#[export] Instance price_better_trans s : Transitive (price_better s).
Proof. intros x y z. unfold price_better. destruct s; lia. Qed.









(** ** Lost events *)
Lemma feed_replica_gaps_nonneg got : 0 ≤ r_gaps (feed_replica new_replica got).
Proof.
  induction got as [|ev got IH] using rev_ind; [done|]. rewrite feed_replica_snoc. unfold apply. simpl.
  case_if; lia.
Qed.

Lemma gap_free_run evs got :
  (∀ i ev, evs !! i = Some ev → ev_seq ev = Z.of_nat i + 1) →
  Forall (λ ev, ev ∈ evs) got → r_gaps (feed_replica new_replica got) = 0 → got ≠ [] →
  ∃ k, got = take (length got) (drop k evs) ∧
       r_last_seq (feed_replica new_replica got) = Z.of_nat (k + length got).
Proof.
  intros Hq. induction got as [|ev got IH] using rev_ind; [done|]. intros Hin Hg _.
  apply Forall_app in Hin as [Hin Hev]. rewrite Forall_singleton in Hev.
  apply list_elem_of_lookup in Hev as [j Hj]. pose proof (Hq _ _ Hj) as Hseq.
  rewrite feed_replica_snoc in Hg |- *. pose proof (feed_replica_gaps_nonneg got) as Hnn.
  unfold apply in Hg |- *. simpl in Hg |- *. rewrite Hseq in Hg |- *.
  set (r := feed_replica new_replica got) in *.
  destruct (decide (got = [])) as [->|Hne].
  - exists j. simpl. split; [by rewrite (drop_S _ ev)|].
    change (r_last_seq r) with 0. case_if; lia.
  - destruct (_ && _) eqn:Heqb in Hg; [lia|]. destruct (IH Hin Hg Hne) as (k & Hgot & Hlast).
    assert (length got ≠ 0%nat) by (by destruct got).
    assert (j = (k + length got)%nat) as ->.
    { rewrite Hlast in Heqb. destruct (Z.eqb_spec (Z.of_nat j + 1) 0); [lia|].
      destruct (Z.eqb_spec (Z.of_nat (k + length got)) 0); [lia|].
      destruct (Z.eqb_spec (Z.of_nat j + 1) (Z.of_nat (k + length got) + 1)); [lia|done]. }
    exists k. rewrite length_app, Hlast. simpl. split; [|case_if; lia].
    rewrite Nat.add_1_r, (take_S_r _ _ ev) by (by rewrite lookup_drop). by rewrite <-Hgot.
Qed.

(** Losses show.  A replica that received some of the events of a
    numbered feed, in order, and counted no gap received a contiguous run of
    it: whatever a full buffer dropped in between would have been counted. *)
Lemma gap_free_means_contiguous evs got :
  (∀ i ev, evs !! i = Some ev → ev_seq ev = Z.of_nat i + 1) →
  got `sublist_of` evs → r_gaps (feed_replica new_replica got) = 0 →
  ∃ before after, evs = before ++ got ++ after.
Proof.
  intros Hq Hsub Hg. destruct (decide (got = [])) as [->|Hne]; [by exists [], evs|].
  assert (Forall (λ ev, ev ∈ evs) got) as Hin.
  { apply Forall_forall. intros ev Hev. by eapply elem_of_sublist. }
  destruct (gap_free_run evs got Hq Hin Hg Hne) as (k & Hgot & _).
  exists (take k evs), (drop (length got) (drop k evs)).
  rewrite Hgot at 1. by rewrite take_drop, take_drop.
Qed.

Lemma gap_free_means_contiguous_witness :
  ∃ before after, e_forwarded two_symbols = before ++ take 3 (e_forwarded two_symbols) ++ after.
Proof.
  apply (gap_free_means_contiguous (e_forwarded two_symbols) (take 3 (e_forwarded two_symbols))).
  - destruct (engine_reachable_ok _ two_symbols_reachable) as [[_ Hf] Hs]. by destruct (Hf Hs).
  - apply sublist_take.
  - vm_compute. reflexivity.
Defined.
