(* ===== verification/HelperCodec.v ===== *)
(** * Helper messages and their codecs ([ipc/helper_message.h],
    [ipc/helper_codec.cc])

    The message exchanged with child processes and its two encodings.  The
    abstract class [HelperCodec] of the code is a type class here: what a codec
    promises the client that uses it. *)

From S2P Require Import Prelude.
From S2P Require Import Bytes.
From S2P Require Import Buffer.

Record HelperMessage := mkMessage {
  msg_req_id : Z;
  msg_type : bytes;
  msg_fields : list (bytes * bytes);
}.

Definition empty_message : HelperMessage := mkMessage 0 [] [].

Fixpoint get_field (key : bytes) (fs : list (bytes * bytes)) : option bytes :=
  match fs with
  | [] => None
  | (k, v) :: fs => if bool_decide (k = key) then Some v else get_field key fs
  end.

Definition get (key : bytes) (m : HelperMessage) : option bytes := get_field key (msg_fields m).

Definition set_field (key value : bytes) (m : HelperMessage) : HelperMessage :=
  mkMessage (msg_req_id m) (msg_type m) (msg_fields m ++ [(key, value)]).

Inductive HelperDecode :=
  | HelperIncomplete
  | HelperComplete (m : HelperMessage)
  | HelperError (err : string).

(** ** The interface *)
Class HelperCodec (C : Type) := {
  encode : C → HelperMessage → bytes;
  decode : C → Buffer → HelperDecode * Buffer;
  encodable : C → HelperMessage → Prop;
  codec_decode c b m rest :
    buffer_ok b → encodable c m → buffer_view b = encode c m ++ rest →
    ∃ b', decode c b = (HelperComplete m, b') ∧ buffer_ok b' ∧ buffer_view b' = rest;
  codec_prefix c b m missing :
    encodable c m → buffer_view b ++ missing = encode c m → missing ≠ [] →
    decode c b = (HelperIncomplete, b);
  codec_progress c b m b' :
    buffer_ok b → decode c b = (HelperComplete m, b') →
    buffer_ok b' ∧ (buf_size b' < buf_size b)%nat;
  codec_idle c b d b' :
    decode c b = (d, b') → (∀ m, d ≠ HelperComplete m) → b' = b;
  codec_empty c b : buffer_view b = [] → decode c b = (HelperIncomplete, b);
}.

(** ** The text codec *)
Definition nl : ascii := ascii_of_nat 10.
Definition cr : ascii := ascii_of_nat 13.

(** 64 MiB; compared as integers. *)
Definition kMaxTextRecord : Z := 64 * 1024 * 1024.
Definition kMaxBinaryPayload : Z := 64 * 1024 * 1024.
Definition UINT64_MAX : Z := 2 ^ 64 - 1.

Definition text_line (k v : bytes) : bytes := k ++ "="%char :: v ++ [nl].

Definition text_encode (m : HelperMessage) : bytes :=
  text_line (lit "req_id") (dec (msg_req_id m)) ++
  text_line (lit "type") (msg_type m) ++
  mjoin ((λ kv, text_line kv.1 kv.2) <$> msg_fields m) ++ [nl].

Definition TrimCr (s : bytes) : bytes :=
  match last s with
  | Some c => if Ascii.eqb c cr then take (length s - 1) s else s
  | None => s
  end.

(** The pieces of a block between its newlines. *)
Fixpoint split_lines (cur s : bytes) : list bytes :=
  match s with
  | [] => [cur]
  | c :: s => if Ascii.eqb c nl then cur :: split_lines [] s else split_lines (cur ++ [c]) s
  end.

(** The digits of [req_id], with the overflow test. *)
Fixpoint text_req_id (acc : Z) (s : bytes) : string + Z :=
  match s with
  | [] => inr acc
  | c :: s =>
      if negb (isdigit c) then inl "text codec: bad req_id"
      else
        let d := digit_val c in
        if (UINT64_MAX - d) / 10 <? acc then inl "text codec: req_id overflow"
        else text_req_id (acc * 10 + d) s
  end.

(** One line of the record: the [have_req_id] flag and the message so far. *)
Definition text_field (st : bool * HelperMessage) (line : bytes) : string + bool * HelperMessage :=
  let '(have, m) := st in
  let line := TrimCr line in
  match line with
  | [] => inr (have, m)
  | _ =>
      match find_char "=" line with
      | None => inl "text codec: line without '='"
      | Some eq =>
          let key := take eq line in
          let value := drop (eq + 1) line in
          if bool_decide (key = lit "req_id") then
            if (length value =? 0)%nat || (20 <? length value)%nat then inl "text codec: bad req_id"
            else match text_req_id 0 value with
                 | inl err => inl err
                 | inr z => inr (true, mkMessage z (msg_type m) (msg_fields m))
                 end
          else if bool_decide (key = lit "type") then
            inr (have, mkMessage (msg_req_id m) value (msg_fields m))
          else inr (have, set_field key value m)
      end
  end.

Fixpoint text_fields (st : bool * HelperMessage) (ls : list bytes) : string + bool * HelperMessage :=
  match ls with
  | [] => inr st
  | l :: ls => match text_field st l with inl e => inl e | inr st => text_fields st ls end
  end.

Definition text_decode (in_ : Buffer) : HelperDecode * Buffer :=
  let v := buffer_view in_ in
  match find_str [nl; nl] v with
  | None =>
      if kMaxTextRecord <? Z.of_nat (length v)
      then (HelperError "text codec: record exceeds cap without terminator", in_)
      else (HelperIncomplete, in_)
  | Some term =>
      match text_fields (false, empty_message) (split_lines [] (take term v)) with
      | inl err => (HelperError err, in_)
      | inr (have_req_id, m) =>
          if negb have_req_id then (HelperError "text codec: missing req_id", in_)
          else (HelperComplete m, buffer_consume (term + 2) in_)
      end
  end.

(** ** The binary codec *)
Definition kBinaryMagic : Z := 0x434F4443.

Definition PutU16 (v : Z) : bytes := PutUint (v mod 2 ^ 16) 2.
Definition PutU32 (v : Z) : bytes := PutUint (v mod 2 ^ 32) 4.
Definition PutU64 (v : Z) : bytes := PutUint v 8.

Definition binary_field (kv : bytes * bytes) : bytes :=
  PutU32 (zlen kv.1) ++ kv.1 ++ PutU32 (zlen kv.2) ++ kv.2.

Definition binary_payload (m : HelperMessage) : bytes :=
  PutU64 (msg_req_id m) ++ PutU16 (zlen (msg_type m)) ++ msg_type m ++
  PutU32 (Z.of_nat (length (msg_fields m))) ++ mjoin (binary_field <$> msg_fields m).

Definition binary_encode (m : HelperMessage) : bytes :=
  PutU32 kBinaryMagic ++ PutU32 (zlen (binary_payload m)) ++ binary_payload m.

(** The field loop over the bytes from [p] to [end]. *)
Fixpoint binary_fields (count : nat) (p : bytes) (m : HelperMessage) : string + HelperMessage :=
  match count with
  | O => inr m
  | S count =>
      if zlen p <? 4 then inl "binary codec: truncated field key length"
      else
        let klen := GetUint p 4 in
        let p := drop 4 p in
        if zlen p <? klen + 4 then inl "binary codec: truncated field key"
        else
          let key := take (Z.to_nat klen) p in
          let p := drop (Z.to_nat klen) p in
          let vlen := GetUint p 4 in
          let p := drop 4 p in
          if zlen p <? vlen then inl "binary codec: truncated field value"
          else
            let value := take (Z.to_nat vlen) p in
            binary_fields count (drop (Z.to_nat vlen) p) (set_field key value m)
  end.

(** The payload: header, type, fields. *)
Definition binary_message (p : bytes) : string + HelperMessage :=
  if zlen p <? 8 + 2 then inl "binary codec: truncated header"
  else
    let req_id := GetUint p 8 in
    let p := drop 8 p in
    let type_len := GetUint p 2 in
    let p := drop 2 p in
    if zlen p <? type_len + 4 then inl "binary codec: truncated type"
    else
      let type := take (Z.to_nat type_len) p in
      let p := drop (Z.to_nat type_len) p in
      let count := GetUint p 4 in
      binary_fields (Z.to_nat count) (drop 4 p) (mkMessage req_id type []).

Definition binary_decode (in_ : Buffer) : HelperDecode * Buffer :=
  let v := buffer_view in_ in
  if zlen v <? 8 then (HelperIncomplete, in_)
  else if negb (GetUint v 4 =? kBinaryMagic) then (HelperError "binary codec: bad magic", in_)
  else
    let payload_len := GetUint (drop 4 v) 4 in
    if kMaxBinaryPayload <? payload_len then (HelperError "binary codec: payload too large", in_)
    else if zlen v <? 8 + payload_len then (HelperIncomplete, in_)
    else match binary_message (take (Z.to_nat payload_len) (drop 8 v)) with
         | inl err => (HelperError err, in_)
         | inr m => (HelperComplete m, buffer_consume (8 + Z.to_nat payload_len) in_)
         end.

(** ** Binary: what is written is read back *)
Lemma Get_PutU32 v q : 0 ≤ v < 2 ^ 32 → GetUint (PutU32 v ++ q) 4 = v.
Proof. intros Hv. unfold PutU32. rewrite GetUint_PutUint by (by apply Z.mod_pos_bound). by apply Z.mod_small. Qed.
Lemma Get_PutU16 v q : 0 ≤ v < 2 ^ 16 → GetUint (PutU16 v ++ q) 2 = v.
Proof. intros Hv. unfold PutU16. rewrite GetUint_PutUint by (by apply Z.mod_pos_bound). by apply Z.mod_small. Qed.
Lemma drop_U32 v q : drop 4 (PutU32 v ++ q) = q.
Proof. unfold PutU32. by rewrite drop_put. Qed.
#[local] Opaque PutUint GetUint.

Lemma binary_fields_ok fs : ∀ m,
  Forall (λ kv : bytes * bytes, zlen kv.1 < 2 ^ 32 ∧ zlen kv.2 < 2 ^ 32) fs →
  binary_fields (length fs) (mjoin (binary_field <$> fs)) m =
  inr (mkMessage (msg_req_id m) (msg_type m) (msg_fields m ++ fs)).
Proof.
  induction fs as [|[k v] fs IH]; intros m Hf.
  { simpl. rewrite app_nil_r. by destruct m. }
  apply Forall_cons in Hf as [[Hk Hv] Hf]. cbn [fst snd] in Hk, Hv.
  pose proof (zlen_nonneg k). pose proof (zlen_nonneg v).
  cbn [length binary_fields]. rewrite fmap_cons. cbn [mjoin list_join].
  set (rest := mjoin (binary_field <$> fs)). unfold binary_field. cbn [fst snd].
  rewrite <-!app_assoc. rewrite !Get_PutU32, !drop_U32 by lia.
  rewrite !take_zlen, !drop_zlen, !Get_PutU32, !drop_U32 by lia.
  rewrite !take_zlen, !drop_zlen, !zlen_app. unfold PutU32. rewrite !zlen_put.
  pose proof (zlen_nonneg rest). repeat (case_if; [lia|]).
  subst rest. rewrite IH by done. unfold set_field. simpl. by rewrite <-app_assoc.
Qed.

Record binary_encodable (m : HelperMessage) : Prop := {
  be_id : is_u64 (msg_req_id m);
  be_type : zlen (msg_type m) < 2 ^ 16;
  be_size : zlen (binary_payload m) ≤ kMaxBinaryPayload;
}.

(** The payload bounds the lengths inside it. *)
Lemma binary_payload_bounds fs :
  8 * Z.of_nat (length fs) ≤ zlen (mjoin (binary_field <$> fs)) ∧
  Forall (λ kv : bytes * bytes, zlen kv.1 ≤ zlen (mjoin (binary_field <$> fs)) ∧
                                zlen kv.2 ≤ zlen (mjoin (binary_field <$> fs))) fs.
Proof.
  induction fs as [|[k v] fs [IH1 IH2]]; [done|]. rewrite fmap_cons. cbn [mjoin list_join length].
  rewrite zlen_app. set (r := zlen (mjoin (binary_field <$> fs))) in *.
  assert (zlen (binary_field (k, v)) = 8 + zlen k + zlen v) as Hb.
  { unfold binary_field, PutU32. cbn [fst snd]. rewrite !zlen_app, !zlen_put. lia. }
  pose proof (zlen_nonneg k). pose proof (zlen_nonneg v). assert (0 ≤ r) by apply zlen_nonneg.
  split; [lia|]. constructor; [cbn [fst snd]; lia|].
  eapply Forall_impl; [exact IH2|]. cbn. intros kv [? ?]. lia.
Qed.

Lemma binary_message_ok m : binary_encodable m → binary_message (binary_payload m) = inr m.
Proof.
  intros [Hid Hty Hsz]. unfold kMaxBinaryPayload in Hsz.
  destruct (binary_payload_bounds (msg_fields m)) as [Hc Hf].
  pose proof (zlen_nonneg (msg_type m)). unfold is_u64 in Hid.
  unfold binary_message, binary_payload in *. unfold PutU64, PutU16 in *.
  set (r := mjoin (binary_field <$> msg_fields m)) in *. pose proof (zlen_nonneg r).
  assert (zlen (PutU32 (Z.of_nat (length (msg_fields m)))) = 4) as H4 by apply zlen_put.
  rewrite !zlen_app, H4, !zlen_put in *. fold (PutU16 (zlen (msg_type m))).
  rewrite GetUint_PutUint by done. rewrite drop_put by lia. cbn [Nat.sub]. rewrite drop_0.
  rewrite Get_PutU16 by lia. unfold PutU16. rewrite drop_put by lia. cbn [Nat.sub]. rewrite drop_0.
  rewrite take_zlen, drop_zlen, Get_PutU32, drop_U32, Nat2Z.id by lia.
  rewrite !zlen_app, H4. repeat (case_if; [lia|]). subst r. rewrite binary_fields_ok.
  - simpl. by destruct m.
  - eapply Forall_impl; [exact Hf|]. cbn. intros kv [? ?]. lia.
Qed.

Lemma binary_decode_ok b m rest :
  buffer_ok b → binary_encodable m → buffer_view b = binary_encode m ++ rest →
  ∃ b', binary_decode b = (HelperComplete m, b') ∧ buffer_ok b' ∧ buffer_view b' = rest.
Proof.
  intros Hb Hm Hv. pose proof (be_size _ Hm) as Hsz. unfold kMaxBinaryPayload in Hsz.
  unfold binary_decode. rewrite Hv. unfold binary_encode. rewrite <-!app_assoc.
  pose proof (zlen_nonneg (binary_payload m)). pose proof (zlen_nonneg rest).
  rewrite Get_PutU32, drop_U32, Get_PutU32 by (done || lia).
  change (drop 8 ?x) with (drop 4 (drop 4 x)). rewrite !drop_U32, take_zlen, binary_message_ok by done.
  rewrite !zlen_app. unfold PutU32 at 1 2 3 4. rewrite !zlen_put, Z.eqb_refl. cbn [negb].
  unfold kMaxBinaryPayload. repeat (case_if; [lia|]).
  eexists. split; [done|]. split; [by apply buffer_consume_ok|].
  destruct (buffer_consume_ok (8 + Z.to_nat (zlen (binary_payload m))) b Hb) as [_ ->].
  rewrite Hv, <-drop_drop. unfold binary_encode. rewrite <-!app_assoc.
  change (drop 8 ?x) with (drop 4 (drop 4 x)). by rewrite !drop_U32, drop_zlen.
Qed.

Lemma binary_decode_prefix b m missing :
  binary_encodable m → buffer_view b ++ missing = binary_encode m → missing ≠ [] →
  binary_decode b = (HelperIncomplete, b).
Proof.
  intros Hm Hv Hne. pose proof (be_size _ Hm) as Hsz. unfold kMaxBinaryPayload in Hsz.
  unfold binary_decode. set (v := buffer_view b) in *. case_if; [done|].
  pose proof (zlen_nonneg (binary_payload m)). unfold zlen in Heqb0.
  assert (GetUint v 4 = kBinaryMagic) as Hmg.
  { rewrite <-(GetUint_app_l v missing), Hv by lia. by apply Get_PutU32. }
  assert (GetUint (drop 4 v) 4 = zlen (binary_payload m)) as Hl.
  { rewrite <-(GetUint_app_l (drop 4 v) missing) by (rewrite length_drop; lia).
    rewrite <-drop_app_le, Hv by lia. unfold binary_encode. rewrite drop_U32.
    apply Get_PutU32. lia. }
  rewrite Hmg, Hl, Z.eqb_refl. cbn [negb]. unfold kMaxBinaryPayload. case_if; [lia|].
  case_if; [done|]. exfalso. apply (f_equal zlen) in Hv. unfold binary_encode in Hv.
  rewrite !zlen_app in Hv. unfold PutU32 in Hv. rewrite !zlen_put in Hv.
  assert (0 < zlen missing) by (unfold zlen; destruct missing; [done|simpl; lia]). lia.
Qed.

Lemma binary_decode_progress b m b' :
  buffer_ok b → binary_decode b = (HelperComplete m, b') →
  buffer_ok b' ∧ (buf_size b' < buf_size b)%nat.
Proof.
  intros Hb. unfold binary_decode. repeat case_if; try done.
  set (n := (8 + Z.to_nat (GetUint (drop 4 (buffer_view b)) 4))%nat).
  assert (8 ≤ n)%nat by lia. clearbody n. case_match; [done|]. intros [= _ <-]. destruct (buffer_consume_ok n b Hb) as [Hok Hv]. split; [done|].
  rewrite <-(view_length _ Hok), Hv, length_drop, view_length by done.
  unfold zlen in *. rewrite view_length in * by done. lia.
Qed.

Inductive BinaryHelperCodec := binary_codec.

#[export, program] Instance BinaryHelperCodec_codec : HelperCodec BinaryHelperCodec := {
  encode _ := binary_encode; decode _ := binary_decode; encodable _ := binary_encodable
}.
Next Obligation. intros. by apply binary_decode_ok. Qed.
Next Obligation. intros. by eapply binary_decode_prefix. Qed.
Next Obligation. intros. by eapply binary_decode_progress. Qed.
Next Obligation.
  intros c b d b'. unfold binary_decode. repeat case_match; intros [= <- <-] Hd; try done.
  by edestruct Hd.
Qed.
Next Obligation. intros c b Hv. unfold binary_decode. by rewrite Hv. Qed.

(** ** Text: what is written is read back *)

(** The record without its terminator: lines separated by newlines. *)
Definition block (l : bytes) (ls : list bytes) : bytes := l ++ mjoin ((λ x, nl :: x) <$> ls).

Lemma split_lines_free cur s t :
  nl ∉ s → split_lines cur (s ++ nl :: t) = (cur ++ s) :: split_lines [] t.
Proof.
  revert cur. induction s as [|c s IH]; intros cur Hs; simpl.
  - by rewrite app_nil_r.
  - destruct (Ascii.eqb_spec c nl) as [->|_]; [set_solver|].
    rewrite IH by set_solver. by rewrite <-app_assoc.
Qed.

Lemma split_lines_last cur s : nl ∉ s → split_lines cur s = [cur ++ s].
Proof.
  revert cur. induction s as [|c s IH]; intros cur Hs; simpl; [by rewrite app_nil_r|].
  destruct (Ascii.eqb_spec c nl) as [->|_]; [set_solver|].
  rewrite IH by set_solver. by rewrite <-app_assoc.
Qed.

Lemma split_lines_block ls : ∀ l,
  nl ∉ l → Forall (λ x, nl ∉ x) ls → split_lines [] (block l ls) = l :: ls.
Proof.
  induction ls as [|x ls IH]; intros l Hl Hls; unfold block; simpl.
  - rewrite app_nil_r. by apply split_lines_last.
  - apply Forall_cons in Hls as [Hx Hls]. rewrite split_lines_free by done. simpl. f_equal.
    by apply (IH x).
Qed.

Lemma find_nn_free s t : nl ∉ s → find_str [nl; nl] (s ++ t) = (λ n, length s + n)%nat <$> find_str [nl; nl] t.
Proof. apply find_str_free. Qed.

Lemma block_cons l x ls : block l (x :: ls) = l ++ nl :: block x ls.
Proof. done. Qed.

Lemma find_nn_skip c t : c ≠ nl → find_str [nl; nl] (nl :: c :: t) = S <$> find_str [nl; nl] (c :: t).
Proof.
  intros Hc. remember (c :: t) as s eqn:Es. cbn [find_str]. rewrite decide_False; [done|].
  rewrite Es. simpl. intros [= E]. done.
Qed.

Lemma find_nn_block ls : ∀ l rest,
  nl ∉ l → Forall (λ x, nl ∉ x ∧ x ≠ []) ls →
  find_str [nl; nl] (block l ls ++ nl :: nl :: rest) = Some (length (block l ls)).
Proof.
  induction ls as [|x ls IH]; intros l rest Hl Hls.
  - unfold block. simpl. rewrite app_nil_r, find_nn_free by done. simpl. f_equal. lia.
  - apply Forall_cons in Hls as [[Hx Hne] Hls]. rewrite block_cons, <-app_assoc, find_nn_free by done.
    specialize (IH x rest Hx Hls). destruct x as [|c x]; [done|].
    change (block (c :: x) ls) with (c :: block x ls) in *. cbn [app] in *.
    rewrite find_nn_skip, IH by set_solver. simpl. rewrite length_app. simpl. f_equal.
Qed.

(** The lines of a message. *)
Definition kv_line (k v : bytes) : bytes := k ++ "="%char :: v.
Definition first_line (m : HelperMessage) : bytes := kv_line (lit "req_id") (dec (msg_req_id m)).
Definition text_lines (m : HelperMessage) : list bytes :=
  kv_line (lit "type") (msg_type m) :: ((λ kv, kv_line kv.1 kv.2) <$> msg_fields m).

Lemma text_encode_block m :
  text_encode m = block (first_line m) (text_lines m) ++ [nl; nl].
Proof.
  unfold text_encode, block, text_lines, first_line, text_line, kv_line.
  assert (∀ fs : list (bytes * bytes),
    [nl] ++ mjoin ((λ kv, kv.1 ++ "="%char :: kv.2 ++ [nl]) <$> fs) ++ [nl] =
    mjoin ((λ x, nl :: x) <$> ((λ kv, kv.1 ++ "="%char :: kv.2) <$> fs)) ++ [nl; nl]) as Hfs.
  { induction fs as [|[k v] fs IH]; [done|]. simpl in *. rewrite <-!app_assoc. simpl.
    rewrite <-!app_assoc. f_equal. f_equal. f_equal. f_equal. exact IH. }
  simpl. rewrite <-!app_assoc. simpl. rewrite <-!app_assoc. simpl. repeat f_equal. exact (Hfs _).
Qed.

(** What the text form can carry: no newline in type, keys or values, no '=' in
    a key, no reserved key, no trailing carriage return. *)
Definition line_ok (v : bytes) : Prop := nl ∉ v ∧ last v ≠ Some cr.

Record text_encodable (m : HelperMessage) : Prop := {
  te_id : is_u64 (msg_req_id m);
  te_type : line_ok (msg_type m);
  te_fields : Forall (λ kv : bytes * bytes,
    nl ∉ kv.1 ∧ "="%char ∉ kv.1 ∧ kv.1 ≠ lit "req_id" ∧ kv.1 ≠ lit "type" ∧ line_ok kv.2)
    (msg_fields m);
  te_size : zlen (text_encode m) ≤ kMaxTextRecord;
}.

Lemma TrimCr_line k v : last v ≠ Some cr → TrimCr (kv_line k v) = kv_line k v.
Proof.
  intros Hv. unfold TrimCr, kv_line. rewrite last_app_cons. destruct v as [|c v]; [done|].
  rewrite last_cons_cons. destruct (last (c :: v)) as [x|]; [|done].
  destruct (Ascii.eqb_spec x cr) as [->|]; [done|done].
Qed.

(** The line [k=v] is taken apart at its first '='. *)
Lemma text_field_kv st k v :
  "="%char ∉ k → last v ≠ Some cr →
  text_field st (kv_line k v) =
  let '(have, m) := st in
  if bool_decide (k = lit "req_id") then
    if (length v =? 0)%nat || (20 <? length v)%nat then inl "text codec: bad req_id"
    else match text_req_id 0 v with
         | inl err => inl err
         | inr z => inr (true, mkMessage z (msg_type m) (msg_fields m))
         end
  else if bool_decide (k = lit "type") then inr (have, mkMessage (msg_req_id m) v (msg_fields m))
  else inr (have, set_field k v m).
Proof.
  intros Hk Hv. unfold text_field. destruct st as [have m]. rewrite TrimCr_line by done.
  assert (find_char "=" (kv_line k v) = Some (length k)) as Hf by (by apply find_char_split).
  assert (take (length k) (kv_line k v) = k) as Ht by apply take_app_length.
  assert (drop (length k + 1) (kv_line k v) = v) as Hd.
  { unfold kv_line. rewrite drop_app_ge by lia. by replace (length k + 1 - length k)%nat with 1%nat by lia. }
  destruct (kv_line k v) as [|c l] eqn:E; [by destruct k|]. by rewrite Hf, Ht, Hd.
Qed.

Lemma text_req_id_ok s : ∀ acc,
  0 ≤ acc → Forall (λ c, isdigit c = true) s → undec acc s ≤ UINT64_MAX →
  text_req_id acc s = inr (undec acc s) ∧ acc ≤ undec acc s.
Proof.
  induction s as [|c s IH]; intros acc Hacc Hs Hmax; [done|].
  apply Forall_cons in Hs as [Hc Hs]. cbn [text_req_id]. rewrite Hc. cbn [negb].
  unfold isdigit in Hc. bool_split. unfold digit_val in *. set (d := byte_val c - 48) in *.
  change (undec acc (c :: s)) with (undec (acc * 10 + d) s) in *.
  destruct (IH (acc * 10 + d)) as [H1 H2]; [lia|done|done|].
  case_if; [|split; [done|lia]]. exfalso.
  pose proof (Z.div_mod (UINT64_MAX - d) 10 ltac:(lia)).
  pose proof (Z.mod_pos_bound (UINT64_MAX - d) 10 ltac:(lia)). lia.
Qed.

Lemma text_fields_ok fs : ∀ m,
  Forall (λ kv : bytes * bytes,
    nl ∉ kv.1 ∧ "="%char ∉ kv.1 ∧ kv.1 ≠ lit "req_id" ∧ kv.1 ≠ lit "type" ∧ line_ok kv.2) fs →
  text_fields (true, m) ((λ kv, kv_line kv.1 kv.2) <$> fs) =
  inr (true, mkMessage (msg_req_id m) (msg_type m) (msg_fields m ++ fs)).
Proof.
  induction fs as [|[k v] fs IH]; intros m Hf.
  { simpl. rewrite app_nil_r. by destruct m. }
  apply Forall_cons in Hf as [(H1 & H2 & H3 & H4 & H5 & H6) Hf]. cbn [fst snd] in *.
  rewrite fmap_cons. cbn [text_fields fst snd]. rewrite text_field_kv by done.
  rewrite !bool_decide_eq_false_2 by done. rewrite IH by done. simpl. by rewrite <-app_assoc.
Qed.

Lemma digits_line s : Forall (λ c, isdigit c = true) s → line_ok s.
Proof.
  intros Hs. rewrite Forall_forall in Hs. split.
  - intros H%Hs. discriminate H.
  - intros H. apply last_Some_elem_of in H. apply Hs in H. discriminate H.
Qed.

Lemma kv_line_free k v : nl ∉ k → nl ∉ v → nl ∉ kv_line k v ∧ kv_line k v ≠ [].
Proof.
  intros Hk Hv. split; [|by destruct k]. unfold kv_line. intros [H|H]%elem_of_app; [done|].
  apply elem_of_cons in H as [H|H]; [discriminate H|done].
Qed.

Lemma reserved_free :
  (nl ∉ lit "req_id" ∧ "="%char ∉ lit "req_id") ∧ nl ∉ lit "type" ∧ "="%char ∉ lit "type".
Proof. by apply (bool_decide_unpack _). Qed.

Lemma text_lines_ok m :
  text_encodable m → nl ∉ first_line m ∧ Forall (λ x, nl ∉ x ∧ x ≠ []) (text_lines m).
Proof.
  intros [Hid [Hty1 Hty2] Hf Hsz]. destruct (dec_spec _ Hid) as (Hdig & _).
  destruct (digits_line _ Hdig) as [Hd1 _]. destruct reserved_free as [[Hr1 _] [Ht1 _]].
  split; [by apply kv_line_free|]. unfold text_lines. constructor; [by apply kv_line_free|].
  apply Forall_fmap. eapply Forall_impl; [exact Hf|]. intros [k v] (K1 & _ & _ & _ & K2 & _).
  by apply kv_line_free.
Qed.

Lemma text_decode_ok b m rest :
  buffer_ok b → text_encodable m → buffer_view b = text_encode m ++ rest →
  ∃ b', text_decode b = (HelperComplete m, b') ∧ buffer_ok b' ∧ buffer_view b' = rest.
Proof.
  intros Hb Hm Hv. destruct (text_lines_ok m Hm) as [Hl Hls]. destruct Hm as [Hid [Hty1 Hty2] Hf Hsz].
  destruct (dec_spec _ Hid) as (Hdig & Hval & Hlen). destruct (digits_line _ Hdig) as [Hd1 Hd2].
  destruct reserved_free as [[_ Hr2] [_ Ht2]]. set (l := first_line m) in *.
  unfold text_decode. rewrite Hv, text_encode_block. fold l. rewrite <-app_assoc. cbn [app].
  rewrite find_nn_block, take_app_length, split_lines_block; [|done|..|done|done].
  2: { eapply Forall_impl; [exact Hls|]. by intros x [? _]. }
  assert (text_fields (false, empty_message) (l :: text_lines m) = inr (true, m)) as ->.
  { cbn [text_fields]. subst l. unfold first_line. rewrite text_field_kv by done.
    rewrite bool_decide_eq_true_2 by done.
    destruct (Nat.eqb_spec (length (dec (msg_req_id m))) 0); [lia|].
    destruct (Nat.ltb_spec 20 (length (dec (msg_req_id m)))); [lia|]. cbn [orb].
    assert (undec 0 (dec (msg_req_id m)) ≤ UINT64_MAX) as Hmax
      by (rewrite Hval; unfold is_u64, UINT64_MAX in *; lia).
    destruct (text_req_id_ok (dec (msg_req_id m)) 0 ltac:(lia) Hdig Hmax) as [-> _].
    unfold text_lines. cbn [text_fields]. rewrite text_field_kv by done.
    rewrite bool_decide_eq_false_2 by done. rewrite bool_decide_eq_true_2 by done.
    rewrite text_fields_ok by done. simpl. rewrite Hval. by destruct m. }
  cbn [negb]. eexists. split; [done|]. split; [by apply buffer_consume_ok|].
  destruct (buffer_consume_ok (length (block l (text_lines m)) + 2) b Hb) as [_ ->].
  rewrite Hv, text_encode_block, <-app_assoc. fold l. rewrite <-drop_drop, drop_app_length. done.
Qed.

Lemma text_decode_prefix b m missing :
  text_encodable m → buffer_view b ++ missing = text_encode m → missing ≠ [] →
  text_decode b = (HelperIncomplete, b).
Proof.
  intros Hm Hv Hne. pose proof (te_size _ Hm) as Hsz.
  assert (zlen missing > 0) as Hpos by (unfold zlen; destruct missing; [done|simpl; lia]).
  rewrite <-Hv, zlen_app in Hsz. unfold text_decode.
  destruct (find_str [nl; nl] (buffer_view b)) as [n|] eqn:E.
  - exfalso. pose proof (find_str_Some _ _ _ E) as (s1 & s2 & Hs & Hn).
    apply (find_str_app _ _ missing) in E. rewrite Hv, text_encode_block in E.
    destruct (text_lines_ok m Hm) as [Hl Hls]. fold (first_line m) in E.
    rewrite find_nn_block in E by done. injection E as E.
    apply (f_equal length) in Hv. rewrite Hs, text_encode_block, !length_app in Hv.
    fold (first_line m) in Hv. simpl in Hv. unfold zlen in Hpos. lia.
  - fold (zlen (buffer_view b)). case_if; [lia|done].
Qed.

Lemma text_decode_progress b m b' :
  buffer_ok b → text_decode b = (HelperComplete m, b') →
  buffer_ok b' ∧ (buf_size b' < buf_size b)%nat.
Proof.
  intros Hb. unfold text_decode. destruct (find_str [nl; nl] (buffer_view b)) as [n|] eqn:E; [|by case_if].
  destruct (text_fields _ _) as [|[[] m1]]; [done| |done]. cbn [negb]. intros H.
  apply (f_equal snd) in H. simpl in H. subst b'.
  destruct (buffer_consume_ok (n + 2) b Hb) as [Hok Hv]. split; [done|].
  apply find_str_Some in E as (s1 & s2 & Hs & Hn). apply (f_equal length) in Hs.
  rewrite !length_app in Hs. simpl in Hs.
  rewrite <-(view_length _ Hok), Hv, length_drop, <-(view_length _ Hb). lia.
Qed.

Inductive TextHelperCodec := text_codec.

#[export, program] Instance TextHelperCodec_codec : HelperCodec TextHelperCodec := {
  encode _ := text_encode; decode _ := text_decode; encodable _ := text_encodable
}.
Next Obligation. intros. by apply text_decode_ok. Qed.
Next Obligation. intros. by eapply text_decode_prefix. Qed.
Next Obligation. intros. by eapply text_decode_progress. Qed.
Next Obligation.
  intros c b d b'. unfold text_decode. repeat case_match; intros [= <- <-] Hd; try done.
  by edestruct Hd.
Qed.
Next Obligation. intros c b Hv. unfold text_decode. by rewrite Hv. Qed.

(** ** Streams of messages *)

(** Decoding until the buffer holds no whole message: the messages and how the
    loop ended ([None]: waiting for more). *)
Fixpoint decode_all {C} `{HelperCodec C} (fuel : nat) (c : C) (b : Buffer)
    : res (list HelperMessage * option string * Buffer) :=
  match fuel with
  | O => Err OutOfFuel
  | S fuel =>
      let '(d, b) := decode c b in
      match d with
      | HelperIncomplete => Ok ([], None, b)
      | HelperError err => Ok ([], Some err, b)
      | HelperComplete m =>
          '(ms, e, b) ← decode_all fuel c b; Ok (m :: ms, e, b)
      end
  end.

Section Stream.
Context {C : Type} `{HelperCodec C} (c : C).

Definition messages (ms : list HelperMessage) : bytes := mjoin (encode c <$> ms).

Lemma decode_all_total fuel : ∀ b,
  buffer_ok b → (buf_size b < fuel)%nat →
  ∃ ms e b', decode_all fuel c b = Ok (ms, e, b') ∧ buffer_ok b'.
Proof.
  induction fuel as [|fuel IH]; intros b Hb Hf; [lia|]. cbn [decode_all].
  destruct (decode c b) as [d b1] eqn:E. destruct d as [|m|err].
  - exists [], None, b1. split; [done|]. by rewrite (codec_idle c b _ b1 E).
  - destruct (codec_progress c b m b1 Hb E) as [Hok Hlt].
    destruct (IH b1 Hok) as (ms & e & b' & Hr & Hok'); [lia|]. rewrite Hr. cbn. eauto.
  - exists [], (Some err), b1. split; [done|]. by rewrite (codec_idle c b _ b1 E).
Qed.

(** The stream of messages is decoded one by one, whatever split the reads made
    of it: what is left over is the undecoded part, and nothing is left once
    every byte has arrived. *)
Lemma decode_all_stream ms : ∀ fuel b later,
  buffer_ok b → Forall (encodable c) ms →
  buffer_view b ++ later = messages ms → (buf_size b < fuel)%nat →
  ∃ done todo b', decode_all fuel c b = Ok (done, None, b') ∧ ms = done ++ todo ∧ buffer_ok b' ∧
    buffer_view b' ++ later = messages todo ∧ (later = [] → todo = []).
Proof.
  induction ms as [|m ms IH]; intros fuel b later Hb Hms Hv Hf.
  - unfold messages in Hv. simpl in Hv. apply app_eq_nil in Hv as [Hv ->].
    destruct fuel as [|fuel]; [lia|]. cbn [decode_all]. rewrite codec_empty by done.
    exists [], [], b. rewrite Hv. done.
  - inversion Hms as [|?? Hm Hms']; subst. unfold messages in Hv. simpl in Hv. fold (messages ms) in Hv.
    destruct (decide (length (encode c m) ≤ length (buffer_view b))%nat) as [Hle|Hlt].
    + destruct (prefix_split _ _ _ _ Hv Hle) as (rest & Hr & Hl).
      destruct (codec_decode c b m rest Hb Hm Hr) as (b1 & Hd & Hok & Hv1).
      destruct fuel as [|fuel]; [lia|]. cbn [decode_all]. rewrite Hd.
      destruct (codec_progress c b m b1 Hb Hd) as [_ Hlt].
      destruct (IH fuel b1 later Hok Hms') as (dn & todo & b' & He & -> & Hok' & Hv' & Hn);
        [by rewrite Hv1|lia|].
      rewrite He. exists (m :: dn), todo, b'. done.
    + destruct (prefix_split _ _ _ _ (eq_sym Hv)) as (missing & Hr & Hl); [lia|].
      destruct fuel as [|fuel]; [lia|]. cbn [decode_all].
      rewrite (codec_prefix c b m missing); [|done|done|].
      * exists [], (m :: ms), b. split_and!; try done. intros ->.
        apply eq_sym, app_nil in Hl as [-> _]. rewrite app_nil_r in Hr. by rewrite Hr in Hlt.
      * intros ->. rewrite app_nil_r in Hr. by rewrite Hr in Hlt.
Qed.
End Stream.

(** ** The binary decoder accepts only encodings *)
Lemma take4_U32 p : 4 ≤ zlen p → PutU32 (GetUint p 4) = take 4 p.
Proof.
  intros Hp. unfold PutU32. rewrite Z.mod_small by apply (GetUint_range p 4).
  apply PutUint_GetUint. unfold zlen in Hp. lia.
Qed.

(** A length-prefixed piece at the head of [p]. *)
Lemma sized_split p :
  4 ≤ zlen p → GetUint p 4 ≤ zlen (drop 4 p) →
  let s := take (Z.to_nat (GetUint p 4)) (drop 4 p) in
  p = PutU32 (zlen s) ++ s ++ drop (Z.to_nat (GetUint p 4)) (drop 4 p).
Proof.
  intros Hp Hl s. pose proof (GetUint_range p 4) as Hr. subst s. rewrite take_drop.
  assert (zlen (take (Z.to_nat (GetUint p 4)) (drop 4 p)) = GetUint p 4) as ->.
  { unfold zlen in *. rewrite length_take. lia. }
  by rewrite take4_U32, take_drop.
Qed.

Lemma binary_fields_sound count : ∀ p m m',
  binary_fields count p m = inr m' →
  ∃ fs slack, length fs = count ∧ p = mjoin (binary_field <$> fs) ++ slack ∧
    m' = mkMessage (msg_req_id m) (msg_type m) (msg_fields m ++ fs).
Proof.
  induction count as [|count IH]; intros p m m' H.
  { exists [], p. injection H as <-. rewrite app_nil_r. by destruct m. }
  revert H. cbn [binary_fields]. case_if; [done|]. case_if; [done|].
  set (q := drop (Z.to_nat (GetUint p 4)) (drop 4 p)) in *. case_if; [done|]. intros H.
  pose proof (GetUint_range p 4) as Hr. pose proof (sized_split p ltac:(lia) ltac:(lia)) as Hp.
  fold q in Hp. set (k := take (Z.to_nat (GetUint p 4)) (drop 4 p)) in *.
  assert (4 ≤ zlen q) as Hq.
  { unfold zlen in Heqb0 |- *. unfold q. rewrite length_drop. lia. }
  pose proof (sized_split q Hq ltac:(lia)) as Hq'.
  apply IH in H as (fs & slack & <- & Hs & ->).
  exists ((k, take (Z.to_nat (GetUint q 4)) (drop 4 q)) :: fs), slack. split; [done|]. split.
  - rewrite Hp, Hq', Hs at 1. rewrite fmap_cons. cbn [mjoin list_join]. unfold binary_field.
    cbn [fst snd]. by rewrite <-!app_assoc.
  - unfold set_field. simpl. by rewrite <-app_assoc.
Qed.

Lemma binary_message_sound p m :
  binary_message p = inr m → ∃ slack, p = binary_payload m ++ slack.
Proof.
  unfold binary_message. case_if; [done|]. set (q := drop 2 (drop 8 p)). case_if; [done|]. intros H.
  apply binary_fields_sound in H as (fs & slack & Hc & Hs & ->). exists slack.
  set (t := GetUint (drop 8 p) 2) in *. pose proof (GetUint_range (drop 8 p) 2) as Ht. fold t in Ht.
  set (ty := take (Z.to_nat t) q) in *. set (r := drop (Z.to_nat t) q) in *.
  unfold binary_payload. cbn [msg_req_id msg_type msg_fields app].
  assert (zlen ty = t) as Hty by (unfold ty, zlen in *; rewrite length_take; lia).
  assert (4 ≤ zlen r) as Hr by (unfold r, zlen in *; rewrite length_drop; lia).
  rewrite Hc, Z2Nat.id by apply (GetUint_range r 4). rewrite take4_U32, Hty by done.
  unfold PutU64, PutU16. rewrite Z.mod_small by done. unfold t.
  rewrite !PutUint_GetUint by (rewrite ?length_drop; unfold zlen in *; lia).
  rewrite <-!app_assoc, <-Hs, take_drop. unfold ty, r. rewrite take_drop. unfold q.
  by rewrite !take_drop.
Qed.

(** The binary decoder accepts nothing but encodings.  Whenever it returns
    a message, the bytes it consumed are the magic, the payload length, and a
    payload that starts with exactly the encoding of that message; the rest of
    the buffer is untouched.  (The decoder does not require the payload to end
    there: the slack is skipped.) *)
Lemma binary_decode_sound b m b' :
  buffer_ok b → binary_decode b = (HelperComplete m, b') →
  ∃ slack, buffer_view b =
    PutU32 kBinaryMagic ++ PutU32 (zlen (binary_payload m ++ slack)) ++
    (binary_payload m ++ slack) ++ buffer_view b'.
Proof.
  intros Hb. unfold binary_decode. set (v := buffer_view b). case_if; [done|].
  destruct (Z.eqb_spec (GetUint v 4) kBinaryMagic) as [Hm|]; [|done]. cbn [negb].
  set (n := GetUint (drop 4 v) 4). case_if; [done|]. case_if; [done|].
  pose proof (GetUint_range (drop 4 v) 4) as Hn. fold n in Hn.
  destruct (binary_message _) as [|m1] eqn:E; [done|]. intros H.
  apply pair_equal_spec in H as [[= ->] <-]. apply binary_message_sound in E as [slack E].
  exists slack. destruct (buffer_consume_ok (8 + Z.to_nat n) b Hb) as [_ ->]. fold v. rewrite <-E.
  assert (zlen (take (Z.to_nat n) (drop 8 v)) = n) as ->.
  { unfold zlen in *. rewrite length_take, length_drop. lia. }
  rewrite <-Hm. unfold n at 1. rewrite !take4_U32 by (unfold zlen in *; rewrite ?length_drop; lia).
  rewrite <-drop_drop, take_drop.
  replace (drop 8 v) with (drop 4 (drop 4 v)) by (by rewrite drop_drop). by rewrite !take_drop.
Qed.

Definition sample_message : HelperMessage :=
  mkMessage 7 (lit "store") [(lit "key", lit "order:1"); (lit "value", lit "open")].

Lemma binary_decode_sound_witness :
  let b := buffer_append (binary_encode sample_message) new_buffer in
  match binary_decode b with
  | (HelperComplete m, b') =>
      m = sample_message ∧
      ∃ slack, buffer_view b =
        PutU32 kBinaryMagic ++ PutU32 (zlen (binary_payload m ++ slack)) ++
        (binary_payload m ++ slack) ++ buffer_view b'
  | _ => False
  end.
Proof.
  intros b. destruct (binary_decode b) as [d b'] eqn:E.
  assert (d = HelperComplete sample_message) as -> by (apply (f_equal fst) in E; cbn [fst] in E; rewrite <-E; by vm_compute).
  split; [done|]. apply (binary_decode_sound b sample_message b'); [|exact E].
  apply buffer_append_ok, new_buffer_ok.
Defined.

(** ** Receiving a stream *)

(** The read handler of every user of a codec: append what arrived, decode. *)
Definition receive {C} `{HelperCodec C} (c : C) (b : Buffer) (chunk : bytes)
    : res (list HelperMessage * option string * Buffer) :=
  let b := buffer_append chunk b in decode_all (S (buf_size b)) c b.

Fixpoint receive_all {C} `{HelperCodec C} (c : C) (b : Buffer) (chunks : list bytes)
    : res (list HelperMessage * option string * Buffer) :=
  match chunks with
  | [] => Ok ([], None, b)
  | chunk :: chunks =>
      '(ms, e, b) ← receive c b chunk;
      match e with
      | Some _ => Ok (ms, e, b)
      | None => '(ms', e, b) ← receive_all c b chunks; Ok (ms ++ ms', e, b)
      end
  end.

Lemma receive_all_stream {C} `{HelperCodec C} (c : C) chunks : ∀ b ms,
  buffer_ok b → Forall (encodable c) ms → buffer_view b ++ mjoin chunks = messages c ms →
  (ms ≠ [] → chunks ≠ []) →
  ∃ b', receive_all c b chunks = Ok (ms, None, b') ∧ buffer_ok b' ∧ buffer_view b' = [].
Proof.
  induction chunks as [|chunk chunks IH]; intros b ms Hb Hms Hv Hne.
  { destruct ms; [|by destruct Hne]. exists b. split_and!; try done. by apply app_nil in Hv as [? _]. }
  cbn [receive_all]. unfold receive. assert (buffer_ok (buffer_append chunk b)) as Hb1 by (by apply buffer_append_ok).
  destruct (decode_all_stream c ms (S (buf_size (buffer_append chunk b))) (buffer_append chunk b) (mjoin chunks))
    as (dn & todo & b1 & Hd & -> & Hok & Hv1 & Hlast); [done|done| |lia|].
  { by rewrite buffer_append_view, <-app_assoc by done. }
  rewrite Hd. cbn [mbind res_bind]. apply Forall_app in Hms as [_ Htodo].
  destruct (IH b1 todo Hok Htodo Hv1) as (b' & Hr & Hok' & Hv').
  { intros Ht ->. by apply Ht, Hlast. }
  rewrite Hr. by exists b'.
Qed.

(** Messages survive the pipe.  For every codec that keeps the promises of
    the interface: encode a list of messages back to back, cut the bytes into
    chunks in any way, and the receiver that appends each chunk and decodes
    gets exactly these messages in order, no error, and an empty buffer. *)
Lemma helper_stream_roundtrip {C} `{HelperCodec C} (c : C) chunks ms :
  Forall (encodable c) ms → mjoin chunks = messages c ms → chunks ≠ [] →
  ∃ b', receive_all c new_buffer chunks = Ok (ms, None, b') ∧ buffer_view b' = [].
Proof.
  intros Hms Hv Hne. destruct (receive_all_stream c chunks new_buffer ms) as (b' & Hr & _ & Hv'); eauto.
  apply new_buffer_ok.
Qed.

(** The messages of the witnesses are encodable in both codecs. *)
Lemma sample_encodable : binary_encodable sample_message ∧ text_encodable sample_message.
Proof.
  split; split; try (by vm_compute).
  - apply (bool_decide_unpack _). by vm_compute.
  - repeat constructor; apply (bool_decide_unpack _); by vm_compute.
Qed.

Lemma helper_stream_roundtrip_witness :
  (let s := messages binary_codec [sample_message; sample_message] in
   match receive_all binary_codec new_buffer [take 11 s; drop 11 s] with
   | Ok (ms, None, b) => ms = [sample_message; sample_message] ∧ buffer_view b = []
   | _ => False
   end) ∧
  (let s := messages text_codec [sample_message; sample_message] in
   match receive_all text_codec new_buffer [take 11 s; drop 11 s] with
   | Ok (ms, None, b) => ms = [sample_message; sample_message] ∧ buffer_view b = []
   | _ => False
   end).
Proof.
  split; intros s.
  all: match goal with |- match receive_all ?c _ ?ch with _ => _ end =>
    destruct (helper_stream_roundtrip c ch [sample_message; sample_message]) as (b' & -> & Hv) end;
    [apply Forall_cons; split; [apply sample_encodable|apply Forall_singleton, sample_encodable]
    |cbn [mjoin list_join]; by rewrite app_nil_r, take_drop|done|by split].
Defined.
