(* ===== verification/EventLoop.v ===== *)
(** * The event loop ([event/event_loop.cc], [event/event_loop.h])

    The part of the loop that does not depend on the platform: descriptor
    registrations, timers and deferred work.  The poller ([epoll], [kqueue]) is
    outside: the [Status] its primitives return and the descriptors it reports
    ready are inputs.  A timer handler is what it does to the loop's timers; it
    is a parameter of the section. *)

From S2P Require Import Prelude.

(** ** Masks *)
Definition kRead : Z := Z.shiftl 1 0.
Definition kWrite : Z := Z.shiftl 1 1.
Definition kReadable : Z := Z.shiftl 1 0.
Definition kWritable : Z := Z.shiftl 1 1.
Definition kError : Z := Z.shiftl 1 2.
Definition kHangup : Z := Z.shiftl 1 3.

Definition HasInterest (mask bit : Z) : bool := negb (Z.land mask bit =? 0).
Definition HasEvent (mask bit : Z) : bool := negb (Z.land mask bit =? 0).

(** ** State *)
Record Registration := mkReg { reg_interest : Z; reg_handler : nat }.

Record TimerEntry := mkTimer {
  t_id : Z;
  t_deadline : Z;
  t_interval : Z;
  t_repeat : bool;
  t_handler : nat;
}.

(** [el_timers] is the priority queue in pop order: by deadline, and entries of
    equal deadline in the order they were pushed (the standard leaves that
    order open; no theorem depends on it). *)
Record EventLoop := mkLoop {
  el_running : bool;
  el_registrations : gmap Z Registration;
  el_deferred : list nat;
  el_timers : list TimerEntry;
  el_cancelled : gset Z;
  el_next_timer_id : Z;
}.

Definition new_loop : EventLoop := mkLoop false ∅ [] [] ∅ 1.

Definition set_registrations (r : gmap Z Registration) (l : EventLoop) : EventLoop :=
  mkLoop (el_running l) r (el_deferred l) (el_timers l) (el_cancelled l) (el_next_timer_id l).
Definition set_timers (ts : list TimerEntry) (c : gset Z) (l : EventLoop) : EventLoop :=
  mkLoop (el_running l) (el_registrations l) (el_deferred l) ts c (el_next_timer_id l).

(** ** Registrations *)
Inductive loop_error := Conflict | NotFound | Backend.

(** [ok] is the verdict of the backend primitive. *)
Definition el_add (ok : bool) (fd interest : Z) (h : nat) (l : EventLoop)
    : (loop_error + unit) * EventLoop :=
  match el_registrations l !! fd with
  | Some _ => (inl Conflict, l)
  | None =>
      if negb ok then (inl Backend, l)
      else (inr tt, set_registrations (<[fd := mkReg interest h]> (el_registrations l)) l)
  end.

Definition el_modify (ok : bool) (fd interest : Z) (l : EventLoop)
    : (loop_error + unit) * EventLoop :=
  match el_registrations l !! fd with
  | None => (inl NotFound, l)
  | Some r =>
      if negb ok then (inl Backend, l)
      else (inr tt, set_registrations (<[fd := mkReg interest (reg_handler r)]> (el_registrations l)) l)
  end.

Definition el_remove (ok : bool) (fd : Z) (l : EventLoop) : (loop_error + unit) * EventLoop :=
  match el_registrations l !! fd with
  | None => (inl NotFound, l)
  | Some _ =>
      if negb ok then (inl Backend, l)
      else (inr tt, set_registrations (delete fd (el_registrations l)) l)
  end.

(** The handler a ready descriptor is delivered to, if it is still registered. *)
Definition dispatch_io (fd : Z) (l : EventLoop) : option nat :=
  reg_handler <$> el_registrations l !! fd.

Definition fd_count (l : EventLoop) : nat := size (el_registrations l).
Definition defer (f : nat) (l : EventLoop) : EventLoop :=
  mkLoop (el_running l) (el_registrations l) (el_deferred l ++ [f]) (el_timers l) (el_cancelled l)
    (el_next_timer_id l).
Definition stop (l : EventLoop) : EventLoop :=
  mkLoop false (el_registrations l) (el_deferred l) (el_timers l) (el_cancelled l) (el_next_timer_id l).

(** ** Timers *)
Fixpoint push_timer (t : TimerEntry) (ts : list TimerEntry) : list TimerEntry :=
  match ts with
  | [] => [t]
  | u :: ts => if t_deadline t <? t_deadline u then t :: u :: ts else u :: push_timer t ts
  end.

Definition add_timer (now delay_ns : Z) (repeat : bool) (h : nat) (l : EventLoop) : Z * EventLoop :=
  let delay_ns := if delay_ns <? 0 then 0 else delay_ns in
  let id := el_next_timer_id l in
  (id, mkLoop (el_running l) (el_registrations l) (el_deferred l)
         (push_timer (mkTimer id (now + delay_ns) delay_ns repeat h) (el_timers l))
         (el_cancelled l) (id + 1)).

Definition cancel_timer (id : Z) (l : EventLoop) : EventLoop :=
  set_timers (el_timers l) ({[id]} ∪ el_cancelled l) l.

Definition INT_MAX : Z := 2 ^ 31 - 1.

Definition compute_timeout_ms (now max_wait_ms : Z) (l : EventLoop) : Z :=
  match el_timers l with
  | [] => max_wait_ms
  | t :: _ =>
      if t_deadline t <=? now then 0
      else
        let remaining_ns := t_deadline t - now in
        let ms64 := Z.quot (remaining_ns + 999999) 1000000 in
        let ms := if INT_MAX <? ms64 then INT_MAX else ms64 in
        if 0 <=? max_wait_ms then Z.min ms max_wait_ms else ms
  end.

(** Cancelled timers at the head are dropped before the timeout is computed. *)
Fixpoint drop_cancelled (ts : list TimerEntry) (c : gset Z) : list TimerEntry * gset Z :=
  match ts with
  | [] => ([], c)
  | t :: ts => if bool_decide (t_id t ∈ c) then drop_cancelled ts (c ∖ {[t_id t]}) else (t :: ts, c)
  end.

(** What a handler does to the timers while it runs. *)
Inductive timer_call :=
  | CallAdd (now delay_ns : Z) (repeat : bool) (h : nat)
  | CallCancel (id : Z).

Definition run_call (l : EventLoop) (c : timer_call) : EventLoop :=
  match c with
  | CallAdd now delay repeat h => (add_timer now delay repeat h l).2
  | CallCancel id => cancel_timer id l
  end.

Section Fire.
(** [on_timer h id]: the calls the handler [h] makes when timer [id] fires. *)
Variable on_timer : nat → Z → list timer_call.

(** The entries fired, in order, and the loop afterwards. *)
Fixpoint fire_due_timers (fuel : nat) (now : Z) (l : EventLoop) : res (list TimerEntry * EventLoop) :=
  match fuel with
  | O => Err OutOfFuel
  | S fuel =>
      match el_timers l with
      | [] => Ok ([], l)
      | t :: ts =>
          if negb (t_deadline t <=? now) then Ok ([], l)
          else if bool_decide (t_id t ∈ el_cancelled l) then
            fire_due_timers fuel now (set_timers ts (el_cancelled l ∖ {[t_id t]}) l)
          else
            let l := foldl run_call (set_timers ts (el_cancelled l) l) (on_timer (t_handler t) (t_id t)) in
            let l :=
              if t_repeat t then
                if bool_decide (t_id t ∈ el_cancelled l)
                then set_timers (el_timers l) (el_cancelled l ∖ {[t_id t]}) l
                else set_timers (push_timer (mkTimer (t_id t) (now + t_interval t) (t_interval t) true (t_handler t))
                                   (el_timers l)) (el_cancelled l) l
              else l in
            '(fired, l) ← fire_due_timers fuel now l; Ok (t :: fired, l)
      end
  end.

(** The deferred callbacks run, in order; what they defer waits for the next
    iteration. *)
Definition run_deferred (l : EventLoop) : list nat * EventLoop :=
  (el_deferred l,
   mkLoop (el_running l) (el_registrations l) [] (el_timers l) (el_cancelled l) (el_next_timer_id l)).

(** An iteration's inputs: the clock when the timeout is computed and after the
    poll, and the poll itself: its status and its effect on the loop. *)
Record Iteration := mkIteration {
  it_before : Z;
  it_after : Z;
  it_poll : Z → EventLoop → (loop_error + unit) * EventLoop;
}.

Definition run_once (fuel : nat) (max_wait_ms : Z) (it : Iteration) (l : EventLoop)
    : res ((loop_error + unit) * list TimerEntry * list nat * EventLoop) :=
  let '(ts, c) := drop_cancelled (el_timers l) (el_cancelled l) in
  let l := set_timers ts c l in
  let timeout_ms := compute_timeout_ms (it_before it) max_wait_ms l in
  let '(s, l) := it_poll it timeout_ms l in
  '(fired, l) ← fire_due_timers fuel (it_after it) l;
  let '(ran, l) := run_deferred l in
  Ok (s, fired, ran, l).

(** [run] over the iterations that happen; when they are used up it is still in
    the poll. *)
Fixpoint run_while (fuel : nat) (its : list Iteration) (l : EventLoop) : res ((loop_error + unit) * EventLoop) :=
  if negb (el_running l) then Ok (inr tt, l)
  else match its with
       | [] => Ok (inr tt, l)
       | it :: its =>
           '(s, _, _, l) ← run_once fuel (-1) it l;
           match s with
           | inl e => Ok (inl e, stop l)
           | inr _ => run_while fuel its l
           end
       end.

Definition run (fuel : nat) (its : list Iteration) (l : EventLoop) : res ((loop_error + unit) * EventLoop) :=
  run_while fuel its
    (mkLoop true (el_registrations l) (el_deferred l) (el_timers l) (el_cancelled l) (el_next_timer_id l)).
End Fire.

(** ** The timer queue *)
Definition earlier (t u : TimerEntry) : Prop := t_deadline t ≤ t_deadline u.

(** Ids in use: those of the queue and [held], the ones popped and not yet
    pushed back. *)
Record timers_ok (held : list Z) (l : EventLoop) : Prop := {
  to_sorted : StronglySorted earlier (el_timers l);
  to_repeat : Forall (λ t, t_repeat t = true → 0 < t_interval t) (el_timers l);
  to_ids : NoDup (held ++ (t_id <$> el_timers l));
  to_next : Forall (λ i, i < el_next_timer_id l) (held ++ (t_id <$> el_timers l));
}.

Lemma push_timer_perm t ts : push_timer t ts ≡ₚ t :: ts.
Proof.
  induction ts as [|u ts IH]; [done|]. simpl. case_if; [done|]. rewrite IH. apply Permutation_swap.
Qed.

Lemma push_timer_sorted t ts : StronglySorted earlier ts → StronglySorted earlier (push_timer t ts).
Proof.
  induction 1 as [|u ts Hs IH Hu]; simpl; [repeat constructor|]. case_if.
  - constructor; [by constructor|]. constructor; [unfold earlier; lia|].
    eapply Forall_impl; [exact Hu|]. unfold earlier. intros; lia.
  - constructor; [done|]. rewrite push_timer_perm. constructor; [unfold earlier; lia|done].
Qed.

(** A timer due after [now] goes behind those due by [now]. *)
Lemma push_timer_later now t d r :
  Forall (λ u, t_deadline u ≤ now) d → now < t_deadline t → push_timer t (d ++ r) = d ++ push_timer t r.
Proof.
  intros Hd Ht. induction Hd as [|u d Hu Hd IH]; [done|]. simpl. case_if; [lia|]. by rewrite IH.
Qed.

Lemma timers_ok_push held t l n :
  timers_ok held l → (t_repeat t = true → 0 < t_interval t) →
  t_id t ∉ held ++ (t_id <$> el_timers l) → el_next_timer_id l ≤ n → t_id t < n →
  timers_ok held (mkLoop (el_running l) (el_registrations l) (el_deferred l) (push_timer t (el_timers l))
                    (el_cancelled l) n).
Proof.
  intros [H1 H2 H3 H4] Hr Hid Hn Ht.
  assert (held ++ (t_id <$> push_timer t (el_timers l)) ≡ₚ t_id t :: held ++ (t_id <$> el_timers l)) as Hp.
  { rewrite push_timer_perm. by rewrite fmap_cons, Permutation_middle. }
  split; simpl; rewrite ?Hp, ?push_timer_perm; [by apply push_timer_sorted|by constructor|by constructor|].
  constructor; [done|]. eapply Forall_impl; [exact H4|]. simpl. lia.
Qed.

Lemma add_timer_ok held n dl rp h l :
  timers_ok held l → (rp = true → 0 < dl) → timers_ok held (add_timer n dl rp h l).2.
Proof.
  intros Hok Hp. apply timers_ok_push; simpl; try done; try lia.
  - intros Hr. specialize (Hp Hr). case_if; lia.
  - intros Hin. pose proof (to_next _ _ Hok) as Hn. rewrite Forall_forall in Hn. apply Hn in Hin. lia.
Qed.

Lemma cancel_timer_ok held id l : timers_ok held l → timers_ok held (cancel_timer id l).
Proof. by intros []. Qed.

Lemma new_loop_ok : timers_ok [] new_loop.
Proof. split; constructor. Qed.

(** Handlers that only schedule for later than [now], repeating ones with a
    positive period. *)
Definition call_future (now : Z) (c : timer_call) : Prop :=
  match c with
  | CallAdd n d r _ => now < n + Z.max 0 d ∧ (r = true → 0 < d)
  | CallCancel _ => True
  end.

Lemma run_call_ok now held c l d r :
  timers_ok held l → call_future now c → el_timers l = d ++ r →
  Forall (λ t, t_deadline t ≤ now) d → Forall (λ t, now < t_deadline t) r →
  let l' := run_call l c in
  timers_ok held l' ∧ (∀ i, i ∈ el_cancelled l' ↔ i ∈ el_cancelled l ∨ c = CallCancel i) ∧
  ∃ r', el_timers l' = d ++ r' ∧ r ⊆ r' ∧ Forall (λ t, now < t_deadline t) r'.
Proof.
  intros Hok Hc Hl Hd Hr. destruct c as [n dl rp h|id]; simpl.
  - destruct Hc as [Hc1 Hc2]. set (dl' := if dl <? 0 then 0 else dl).
    assert (dl' = Z.max 0 dl) as Hdl by (unfold dl'; case_if; lia).
    set (t := mkTimer (el_next_timer_id l) (n + dl') dl' rp h). split; [|split].
    + by apply (add_timer_ok held n dl rp h).
    + intros i. split; [by left|by intros [?|?]].
    + exists (push_timer t r). rewrite Hl, (push_timer_later now) by (simpl; done || lia).
      split; [done|]. rewrite push_timer_perm. split; [set_solver|]. constructor; [simpl; lia|done].
  - split; [|split].
    + by destruct Hok.
    + intros i. rewrite elem_of_union, elem_of_singleton. split; [intros [->|?]; auto|intros [?|[= ->]]; auto].
    + by exists r.
Qed.

Lemma run_calls_ok now held cs : ∀ l d r,
  timers_ok held l → Forall (call_future now) cs → el_timers l = d ++ r →
  Forall (λ t, t_deadline t ≤ now) d → Forall (λ t, now < t_deadline t) r →
  let l' := foldl run_call l cs in
  timers_ok held l' ∧ (∀ i, i ∈ el_cancelled l' ↔ i ∈ el_cancelled l ∨ CallCancel i ∈ cs) ∧
  ∃ r', el_timers l' = d ++ r' ∧ r ⊆ r' ∧ Forall (λ t, now < t_deadline t) r'.
Proof.
  induction cs as [|c cs IH]; intros l d r Hok Hcs Hl Hd Hr; simpl.
  { split; [done|]. split; [set_solver|]. by exists r. }
  apply Forall_cons in Hcs as [Hc Hcs].
  destruct (run_call_ok now held c l d r) as (Hok1 & Hcan & r1 & Hl1 & Hsub & Hr1); try done.
  destruct (IH (run_call l c) d r1) as (Hok2 & Hcan2 & r2 & Hl2 & Hsub2 & Hr2); try done.
  split; [done|]. split; [|exists r2; split_and!; [done|by etrans|done]].
  intros i. rewrite Hcan2, Hcan, elem_of_cons. naive_solver.
Qed.

Section FireOk.
Context (on_timer : nat → Z → list timer_call) (now : Z).
Hypothesis handlers_future : ∀ h i, Forall (call_future now) (on_timer h i).

(** A fired timer's handler cancelled timer [i]. *)
Definition cancelled_by (fired : list TimerEntry) (i : Z) : Prop :=
  ∃ u, u ∈ fired ∧ CallCancel i ∈ on_timer (t_handler u) (t_id u).

Definition rescheduled (t : TimerEntry) : TimerEntry :=
  mkTimer (t_id t) (now + t_interval t) (t_interval t) true (t_handler t).

(** One timer fires: its handler's calls, then the push back of a repeater. *)
Definition fire_one (t : TimerEntry) (ts : list TimerEntry) (l : EventLoop) : EventLoop :=
  let l := foldl run_call (set_timers ts (el_cancelled l) l) (on_timer (t_handler t) (t_id t)) in
  if t_repeat t then
    if bool_decide (t_id t ∈ el_cancelled l)
    then set_timers (el_timers l) (el_cancelled l ∖ {[t_id t]}) l
    else set_timers (push_timer (rescheduled t) (el_timers l)) (el_cancelled l) l
  else l.

Lemma timers_ok_pop held t ts c l :
  timers_ok held l → el_timers l = t :: ts → timers_ok (t_id t :: held) (set_timers ts c l).
Proof.
  intros [H1 H2 H3 H4] Hl. rewrite Hl in *. rewrite fmap_cons, <-Permutation_middle in H3, H4.
  apply StronglySorted_inv in H1 as [H1 _]. apply Forall_cons in H2 as [_ H2]. by split.
Qed.

Lemma timers_ok_release t held l : timers_ok (t :: held) l → timers_ok held l.
Proof.
  intros [H1 H2 H3 H4]. simpl in H3, H4. apply NoDup_cons in H3 as [_ H3]. apply Forall_cons in H4 as [_ H4].
  by split.
Qed.

Lemma fire_one_ok t d r l :
  timers_ok [] l → el_timers l = (t :: d) ++ r → t_deadline t ≤ now →
  Forall (λ t, t_deadline t ≤ now) d → Forall (λ t, now < t_deadline t) r →
  let l' := fire_one t (d ++ r) l in
  timers_ok [] l' ∧
  (∀ i, i ≠ t_id t → i ∈ el_cancelled l' ↔
     i ∈ el_cancelled l ∨ CallCancel i ∈ on_timer (t_handler t) (t_id t)) ∧
  (∃ r', el_timers l' = d ++ r' ∧ r ⊆ r' ∧ Forall (λ t, now < t_deadline t) r' ∧
     (t_repeat t = true → rescheduled t ∈ r' ∨ t_id t ∈ el_cancelled l ∨
        CallCancel (t_id t) ∈ on_timer (t_handler t) (t_id t))).
Proof.
  intros Hok Hl Ht Hd Hr. unfold fire_one.
  assert (t_repeat t = true → 0 < t_interval t) as Hpos.
  { pose proof (to_repeat _ _ Hok) as H. rewrite Hl in H. by apply Forall_cons in H as [? _]. }
  destruct (run_calls_ok now [t_id t] (on_timer (t_handler t) (t_id t))
              (set_timers (d ++ r) (el_cancelled l) l) d r)
    as (Hok1 & Hcan & r1 & Hl1 & Hsub & Hr1); try done.
  { by apply timers_ok_pop. }
  set (l1 := foldl run_call _ _) in *. clearbody l1. simpl in Hcan.
  destruct (t_repeat t) eqn:Er; [|split_and!; [by eapply timers_ok_release|by intros|by exists r1]].
  case_bool_decide as Hc.
  - apply timers_ok_release in Hok1 as Hok2. destruct Hok2 as [H1 H2 H3 H4]. split; [by split|].
    split; [intros i Hi; rewrite <-Hcan; simpl; set_solver|]. exists r1. split_and!; try done.
    intros _. right. by apply Hcan.
  - split_and!.
    + apply (timers_ok_push [] (rescheduled t) l1 (el_next_timer_id l1)); simpl; try done; try lia.
      * by eapply timers_ok_release.
      * pose proof (to_ids _ _ Hok1) as H. by apply NoDup_cons in H as [? _].
      * pose proof (to_next _ _ Hok1) as H. by apply Forall_cons in H as [? _].
    + intros i Hi. by rewrite <-Hcan.
    + exists (push_timer (rescheduled t) r1). specialize (Hpos eq_refl). simpl.
      rewrite Hl1, (push_timer_later now) by (done || simpl; lia).
      split_and!; [done|rewrite push_timer_perm; set_solver| |intros _; left; rewrite push_timer_perm; set_solver].
      rewrite push_timer_perm. constructor; [simpl; lia|done].
Qed.

Lemma fire_due_timers_ok d : ∀ fuel l r,
  timers_ok [] l → el_timers l = d ++ r → (length d < fuel)%nat →
  Forall (λ t, t_deadline t ≤ now) d → Forall (λ t, now < t_deadline t) r →
  ∃ fired l', fire_due_timers on_timer fuel now l = Ok (fired, l') ∧ timers_ok [] l' ∧
    fired `sublist_of` d ∧
    (∀ t, t ∈ d → t ∈ fired ∨ t_id t ∈ el_cancelled l ∨ cancelled_by fired (t_id t)) ∧
    (∀ t, t ∈ fired → t_id t ∉ el_cancelled l) ∧
    Forall (λ t, now < t_deadline t) (el_timers l') ∧ r ⊆ el_timers l' ∧
    (∀ t, t ∈ fired → t_repeat t = true →
       rescheduled t ∈ el_timers l' ∨ cancelled_by fired (t_id t)).
Proof.
  induction d as [|t d IH]; intros fuel l r Hok Hl Hf Hd Hr; (destruct fuel as [|fuel]; [lia|]).
  { exists [], l. simpl in Hl. cbn [fire_due_timers]. rewrite Hl. split; [|set_solver].
    destruct r as [|u r]; [done|]. apply Forall_cons in Hr as [Hu _]. case_if; [done|lia]. }
  apply Forall_cons in Hd as [Ht Hd]. simpl in Hf. cbn [fire_due_timers]. rewrite Hl. cbn [app].
  case_if; [lia|]. assert (∀ u, u ∈ d → t_id u ≠ t_id t) as Hne.
  { intros u Hu Heq. pose proof (to_ids _ _ Hok) as H. rewrite Hl in H. simpl in H.
    apply NoDup_cons in H as [H _]. apply H. rewrite <-Heq. set_solver. }
  case_bool_decide as Hc.
  - destruct (IH fuel (set_timers (d ++ r) (el_cancelled l ∖ {[t_id t]}) l) r)
      as (fired & l' & Hrun & Hok' & Hsub & H1 & H2 & H3 & H4 & H5); try done; [|lia|].
    { eapply timers_ok_release, timers_ok_pop; [exact Hok|done]. }
    exists fired, l'. split_and!; try done; [by apply sublist_cons| |].
    + intros u [->|Hu]%elem_of_cons; [auto|]. destruct (H1 u Hu) as [?|[?|?]]; set_solver.
    + intros u Hu. pose proof (H2 u Hu). assert (u ∈ d) as Hin by (by eapply elem_of_sublist).
      pose proof (Hne u Hin). set_solver.
  - fold (fire_one t (d ++ r) l). destruct (fire_one_ok t d r l) as (Hok1 & Hcan & r1 & Hl1 & Hsub1 & Hr1 & Hre); try done.
    destruct (IH fuel (fire_one t (d ++ r) l) r1)
      as (fired & l' & Hrun & Hok' & Hsub & H1 & H2 & H3 & H4 & H5); try done; [lia|].
    change (foldl run_call _ _) with (foldl run_call (set_timers (d ++ r) (el_cancelled l) l) (on_timer (t_handler t) (t_id t))).
    exists (t :: fired), l'.
    assert (∀ i, cancelled_by fired i → cancelled_by (t :: fired) i) as Hmono.
    { intros i (u & Hu & Hi). exists u. set_solver. }
    split_and!; try done; [| by apply sublist_skip| | |by etrans|].
    + unfold fire_one, rescheduled in Hrun. cbn zeta in Hrun |- *. by rewrite Hrun.
    + intros u [->|Hu]%elem_of_cons; [set_solver|]. destruct (H1 u Hu) as [?|[Hx|?]]; [set_solver| |auto].
      apply Hcan in Hx; [|auto]. destruct Hx as [?|?]; [auto|]. right. right. exists t. set_solver.
    + intros u [->|Hu]%elem_of_cons; [done|]. assert (u ∈ d) as Hin by (by eapply elem_of_sublist).
      intros Hx. apply (H2 u Hu), Hcan; auto.
    + intros u [->|Hu]%elem_of_cons Hrep; [|destruct (H5 u Hu Hrep); auto].
      destruct (Hre Hrep) as [?|[?|?]]; [left; set_solver|done|]. right. exists t. set_solver.
Qed.
End FireOk.

(** A queue in deadline order splits at [now]. *)
Lemma sorted_split now ts :
  StronglySorted earlier ts →
  ∃ d r, ts = d ++ r ∧ Forall (λ t, t_deadline t ≤ now) d ∧ Forall (λ t, now < t_deadline t) r.
Proof.
  induction 1 as [|t ts Hs (d & r & -> & Hd & Hr) Ht]; [by exists [], []|].
  destruct (decide (t_deadline t ≤ now)) as [Hle|Hgt].
  - exists (t :: d), r. split_and!; [done|by constructor|done].
  - exists [], (t :: d ++ r). split_and!; [done|done|]. constructor; [lia|].
    eapply Forall_impl; [exact Ht|]. unfold earlier. simpl. lia.
Qed.

(** C31: timers.  When repeating timers have a positive period and handlers
    schedule only for later, firing returns after at most one round per timer.
    The timers it fires are due and not cancelled, each once and in deadline
    order; a due timer it does not fire was cancelled, before or by a handler
    that fired; a repeating timer that fired is queued again one period later
    unless a handler cancelled it; and no timer in the queue is due. *)
Theorem timers_fire_due on_timer now l :
  timers_ok [] l → (∀ h i, Forall (call_future now) (on_timer h i)) →
  ∃ fired l', fire_due_timers on_timer (S (length (el_timers l))) now l = Ok (fired, l') ∧
    timers_ok [] l' ∧ fired `sublist_of` el_timers l ∧
    (∀ t, t ∈ fired → t_deadline t ≤ now ∧ t_id t ∉ el_cancelled l) ∧
    (∀ t, t ∈ el_timers l → t_deadline t ≤ now →
       t ∈ fired ∨ t_id t ∈ el_cancelled l ∨ cancelled_by on_timer fired (t_id t)) ∧
    (∀ t, t ∈ fired → t_repeat t = true →
       rescheduled now t ∈ el_timers l' ∨ cancelled_by on_timer fired (t_id t)) ∧
    Forall (λ t, now < t_deadline t) (el_timers l').
Proof.
  intros Hok Hfut. destruct (sorted_split now _ (to_sorted _ _ Hok)) as (d & r & Hl & Hd & Hr).
  destruct (fire_due_timers_ok on_timer now Hfut d (S (length (el_timers l))) l r)
    as (fired & l' & Hrun & Hok' & Hsub & H1 & H2 & H3 & H4 & H5); try done.
  { rewrite Hl, length_app. lia. }
  assert (∀ t, t ∈ fired → t_deadline t ≤ now) as Hdue.
  { intros t Ht. rewrite Forall_forall in Hd. apply Hd. by eapply elem_of_sublist. }
  exists fired, l'. split_and!; try done; [|auto|].
  - rewrite Hl. etrans; [exact Hsub|]. by apply sublist_inserts_r.
  - intros t Ht Hle. rewrite Hl in Ht. apply elem_of_app in Ht as [Ht|Ht]; [by apply H1|].
    rewrite Forall_forall in Hr. specialize (Hr t Ht). lia.
Qed.

(** Three timers, one cancelled, one repeating and cancelling the fourth. *)
Definition sample_loop : EventLoop :=
  let l := (add_timer 0 5 true 1 new_loop).2 in
  let l := (add_timer 0 3 false 2 l).2 in
  let l := (add_timer 0 4 false 3 l).2 in
  let l := (add_timer 0 6 false 4 l).2 in
  cancel_timer 3 l.
Definition sample_on_timer (h : nat) (i : Z) : list timer_call :=
  if (h =? 1)%nat then [CallCancel 4; CallAdd 10 1 false 2] else [].

Lemma timers_fire_due_witness :
  match fire_due_timers sample_on_timer 5 10 sample_loop with
  | Ok (fired, l') =>
      t_id <$> fired = [2; 1] ∧ t_id <$> el_timers l' = [5; 1] ∧
      Forall (λ t, 10 < t_deadline t) (el_timers l')
  | Err _ => False
  end.
Proof.
  destruct (timers_fire_due sample_on_timer 10 sample_loop) as (fired & l' & Hrun & _ & _ & _ & _ & _ & Hlater).
  - unfold sample_loop. apply cancel_timer_ok. do 4 (apply add_timer_ok; [|done]). apply new_loop_ok.
  - intros h i. unfold sample_on_timer. destruct (h =? 1)%nat; repeat constructor; done.
  - change (S (length (el_timers sample_loop))) with 5%nat in Hrun. rewrite Hrun. vm_compute in Hrun.
    by injection Hrun as <- <-.
Defined.

(** The poll never wakes before the next timer is due because of it, and never
    sleeps past the next whole millisecond (unless the wait exceeds what an
    [int] holds). *)
Lemma compute_timeout_bounds now l t ts :
  el_timers l = t :: ts → now < t_deadline t → t_deadline t - now ≤ INT_MAX * 1000000 →
  t_deadline t ≤ now + 1000000 * compute_timeout_ms now (-1) l < t_deadline t + 1000000.
Proof.
  intros Hl Hlt Hmax. unfold compute_timeout_ms, INT_MAX in *. rewrite Hl. case_if; [lia|].
  rewrite Z.quot_div_nonneg by lia.
  pose proof (Z.div_mod (t_deadline t - now + 999999) 1000000 ltac:(lia)).
  pose proof (Z.mod_pos_bound (t_deadline t - now + 999999) 1000000 ltac:(lia)).
  case_if; [lia|]. case_if; lia.
Qed.

(** A repeating timer without a period keeps the loop busy for ever: it is due
    again as soon as it is pushed back. *)
Lemma zero_period_spins fuel now :
  fire_due_timers (λ _ _, []) fuel now (add_timer now 0 true 0 new_loop).2 = Err OutOfFuel.
Proof.
  set (l := (add_timer now 0 true 0 new_loop).2). induction fuel as [|fuel IH]; [done|].
  cbn [fire_due_timers]. change (el_timers l) with [mkTimer 1 (now + 0) 0 true 0]. cbn [t_deadline].
  replace (now + 0 <=? now) with true by (symmetry; apply Z.leb_le; lia). cbn [negb].
  change (bool_decide _) with false. cbn [t_repeat]. change (bool_decide _) with false. cbn match.
  change (fire_due_timers _ fuel now _) with (fire_due_timers (λ _ _, []) fuel now l). by rewrite IH.
Qed.
