(* ===== verification/HelperClient.v ===== *)
(** * The helper client ([ipc/helper_client.cc])

    Pipelined requests to a child process over a pair of descriptors.  The
    codec is any instance of [HelperCodec]; the results of the read and write
    calls are scripts ([PipeIO]).  A callback is a number, and calling it is an
    entry of the log [hc_answers]; a request a callback issues is a later
    [send].  Registrations with the poller are taken to succeed (the client
    ignores their status). *)

From S2P Require Import Prelude.
From S2P Require Import Bytes.
From S2P Require Import Buffer.
From S2P Require Import PipeIO.
From S2P Require Import EventLoop.
From S2P Require Import HelperCodec.

Definition kClientChunk : nat := Z.to_nat (16 * 1024).

Record Pending := mkPending { p_cb : nat; p_deadline : Z }.

(** A call of a callback: the request's id, the callback, [ok] and the reply. *)
Record Answer := mkAnswer { a_id : Z; a_cb : nat; a_ok : bool; a_reply : HelperMessage }.

Record HelperClient := mkClient {
  hc_loop : EventLoop;
  hc_in : Buffer;
  hc_out : Buffer;
  hc_pending : gmap Z Pending;
  hc_next_req_id : Z;
  hc_write_enabled : bool;
  hc_write_registered : bool;
  hc_closed : bool;
  hc_answers : list Answer;
  hc_sweep_timer : Z;
  hc_sent : bytes;
}.

Definition hc_set_loop (l : EventLoop) (c : HelperClient) : HelperClient :=
  mkClient l (hc_in c) (hc_out c) (hc_pending c) (hc_next_req_id c) (hc_write_enabled c)
    (hc_write_registered c) (hc_closed c) (hc_answers c) (hc_sweep_timer c) (hc_sent c).
Definition hc_set_flags (enabled registered : bool) (c : HelperClient) : HelperClient :=
  mkClient (hc_loop c) (hc_in c) (hc_out c) (hc_pending c) (hc_next_req_id c) enabled registered
    (hc_closed c) (hc_answers c) (hc_sweep_timer c) (hc_sent c).
Definition hc_set_in (b : Buffer) (c : HelperClient) : HelperClient :=
  mkClient (hc_loop c) b (hc_out c) (hc_pending c) (hc_next_req_id c) (hc_write_enabled c)
    (hc_write_registered c) (hc_closed c) (hc_answers c) (hc_sweep_timer c) (hc_sent c).
Definition hc_set_out (b : Buffer) (sent : bytes) (c : HelperClient) : HelperClient :=
  mkClient (hc_loop c) (hc_in c) b (hc_pending c) (hc_next_req_id c) (hc_write_enabled c)
    (hc_write_registered c) (hc_closed c) (hc_answers c) (hc_sweep_timer c) sent.
Definition hc_set_pending (p : gmap Z Pending) (answers : list Answer) (c : HelperClient) : HelperClient :=
  mkClient (hc_loop c) (hc_in c) (hc_out c) p (hc_next_req_id c) (hc_write_enabled c)
    (hc_write_registered c) (hc_closed c) answers (hc_sweep_timer c) (hc_sent c).
Definition hc_set_next (n : Z) (c : HelperClient) : HelperClient :=
  mkClient (hc_loop c) (hc_in c) (hc_out c) (hc_pending c) n (hc_write_enabled c)
    (hc_write_registered c) (hc_closed c) (hc_answers c) (hc_sweep_timer c) (hc_sent c).
Definition hc_set_closed (c : HelperClient) : HelperClient :=
  mkClient (hc_loop c) (hc_in c) (hc_out c) (hc_pending c) (hc_next_req_id c) (hc_write_enabled c)
    (hc_write_registered c) true (hc_answers c) (hc_sweep_timer c) (hc_sent c).

Section Client.
Context {C : Type} `{HelperCodec C} (codec_ : C).
(** The constructor's arguments; [handler] is the client as the loop knows it. *)
Context (read_fd_ write_fd_ timeout_ns_ : Z) (handler : nat).

Definition same_fd_ : bool := read_fd_ =? write_fd_.

Definition new_client (now : Z) (loop : EventLoop) : HelperClient :=
  let loop := (el_add true read_fd_ kRead handler loop).2 in
  let '(sweep, loop) :=
    if 0 <? timeout_ns_ then
      let interval := if 0 <? Z.quot timeout_ns_ 2 then Z.quot timeout_ns_ 2 else timeout_ns_ in
      add_timer now interval true handler loop
    else (0, loop) in
  mkClient loop new_buffer new_buffer ∅ 1 false false false [] sweep [].

(** The destructor's effect on the loop (closing descriptors and reaping the
    child are system calls). *)
Definition destroy_client (c : HelperClient) : EventLoop :=
  let loop := if negb (hc_sweep_timer c =? 0) then cancel_timer (hc_sweep_timer c) (hc_loop c) else hc_loop c in
  if negb (hc_closed c) then
    let loop := (el_remove true read_fd_ loop).2 in
    if hc_write_registered c then (el_remove true write_fd_ loop).2 else loop
  else loop.

Definition set_write_interest (on : bool) (c : HelperClient) : HelperClient :=
  if same_fd_ then
    if Bool.eqb on (hc_write_enabled c) then c
    else
      let c := hc_set_flags on (hc_write_registered c) c in
      hc_set_loop (el_modify true read_fd_ (if on then Z.lor kRead kWrite else kRead) (hc_loop c)).2 c
  else if on && negb (hc_write_registered c) then
    hc_set_flags (hc_write_enabled c) true
      (hc_set_loop (el_add true write_fd_ kWrite handler (hc_loop c)).2 c)
  else if negb on && hc_write_registered c then
    hc_set_flags (hc_write_enabled c) false (hc_set_loop (el_remove true write_fd_ (hc_loop c)).2 c)
  else c.

(** The failure of every request in flight. *)
Definition fail_answer (kv : Z * Pending) : Answer := mkAnswer kv.1 (p_cb kv.2) false empty_message.

Definition client_close (c : HelperClient) : HelperClient :=
  if hc_closed c then c
  else
    let c := hc_set_closed c in
    let c := hc_set_loop (el_remove true read_fd_ (hc_loop c)).2 c in
    let c :=
      if hc_write_registered c then
        hc_set_flags (hc_write_enabled c) false (hc_set_loop (el_remove true write_fd_ (hc_loop c)).2 c)
      else c in
    hc_set_pending ∅ (hc_answers c ++ (fail_answer <$> map_to_list (hc_pending c))) c.

Definition on_writable (ws : list io_write) (c : HelperClient) : HelperClient :=
  let '(en, out, sent) := write_loop ws (hc_out c) (hc_sent c) in
  let c := hc_set_out out sent c in
  match en with
  | Drained => set_write_interest false c
  | Blocked => c
  | Broken => client_close c
  end.

Definition send (now : Z) (ws : list io_write) (type : bytes) (fields : list (bytes * bytes))
    (cb : option nat) (c : HelperClient) : Z * HelperClient :=
  let id := hc_next_req_id c in
  let c := hc_set_next (to_u64 (id + 1)) c in
  if hc_closed c then
    (id, match cb with
         | Some cb => hc_set_pending (hc_pending c) (hc_answers c ++ [mkAnswer id cb false empty_message]) c
         | None => c
         end)
  else
    let msg := mkMessage id type fields in
    let c := hc_set_out (buffer_append (encode codec_ msg) (hc_out c)) (hc_sent c) c in
    let c :=
      match cb with
      | Some cb =>
          let deadline := if 0 <? timeout_ns_ then now + timeout_ns_ else 0 in
          match hc_pending c !! id with
          | Some _ => c
          | None => hc_set_pending (<[id := mkPending cb deadline]> (hc_pending c)) (hc_answers c) c
          end
      | None => c
      end in
    (id, on_writable ws (set_write_interest true c)).

(** The decode loop of [on_readable]. *)
Fixpoint reply_loop (fuel : nat) (c : HelperClient) : res HelperClient :=
  match fuel with
  | O => Err OutOfFuel
  | S fuel =>
      let '(d, in_) := decode codec_ (hc_in c) in
      let c := hc_set_in in_ c in
      match d with
      | HelperIncomplete => Ok c
      | HelperError _ => Ok (client_close c)
      | HelperComplete msg =>
          match hc_pending c !! msg_req_id msg with
          | Some p =>
              reply_loop fuel
                (hc_set_pending (delete (msg_req_id msg) (hc_pending c))
                   (hc_answers c ++ [mkAnswer (msg_req_id msg) (p_cb p) true msg]) c)
          | None => reply_loop fuel c
          end
      end
  end.

Definition client_readable (rs : list io_read) (c : HelperClient) : res HelperClient :=
  let '(more, in_) := read_loop kClientChunk rs (hc_in c) in
  let c := hc_set_in in_ c in
  if negb more then Ok (client_close c) else reply_loop (S (buf_size in_)) c.

Definition client_io_ready (fd events : Z) (rs : list io_read) (ws : list io_write) (c : HelperClient)
    : res HelperClient :=
  c ← (if (fd =? read_fd_) && HasEvent events kReadable then client_readable rs c else Ok c);
  if (fd =? read_fd_) && HasEvent events kReadable && hc_closed c then Ok c
  else
    let c := if (fd =? write_fd_) && HasEvent events kWritable then on_writable ws c else c in
    if (fd =? write_fd_) && HasEvent events kWritable && hc_closed c then Ok c
    else if HasEvent events kError then Ok (client_close c) else Ok c.

(** One expired request. *)
Definition expire_request (c : HelperClient) (id : Z) : HelperClient :=
  match hc_pending c !! id with
  | None => c
  | Some p =>
      hc_set_pending (delete id (hc_pending c))
        (hc_answers c ++ [mkAnswer id (p_cb p) false empty_message]) c
  end.

Definition client_timer (now : Z) (c : HelperClient) : HelperClient :=
  if (timeout_ns_ <=? 0) || bool_decide (hc_pending c = ∅) then c
  else
    let expired :=
      (filter (λ kv : Z * Pending, p_deadline kv.2 ≠ 0 ∧ p_deadline kv.2 ≤ now)
         (map_to_list (hc_pending c))).*1 in
    foldl expire_request c expired.

Definition pending_count (c : HelperClient) : nat := size (hc_pending c).

(** ** Sessions

    The calls a client receives: a request, readiness of its write or read
    descriptor (delivered by the loop while that is registered), its timer. *)
Inductive client_call :=
  | CallSend (now : Z) (ws : list io_write) (type : bytes) (fields : list (bytes * bytes)) (cb : option nat)
  | CallIo (on_write : bool) (events : Z) (rs : list io_read) (ws : list io_write)
  | CallTimer (now : Z).

(** The requests issued with a callback, and the messages put on the wire. *)
Record Ledger := mkLedger { lg_requests : list (Z * nat); lg_wire : list HelperMessage }.

Definition client_step (acc : HelperClient * Ledger) (k : client_call) : res (HelperClient * Ledger) :=
  let '(c, g) := acc in
  match k with
  | CallSend now ws type fields cb =>
      let id := hc_next_req_id c in
      let reqs := match cb with Some cb => lg_requests g ++ [(id, cb)] | None => lg_requests g end in
      let wire := if hc_closed c then lg_wire g else lg_wire g ++ [mkMessage id type fields] in
      Ok ((send now ws type fields cb c).2, mkLedger reqs wire)
  | CallIo on_write events rs ws =>
      let fd := if on_write then write_fd_ else read_fd_ in
      match dispatch_io fd (hc_loop c) with
      | None => Ok (c, g)
      | Some _ => c ← client_io_ready fd events rs ws c; Ok (c, g)
      end
  | CallTimer now => Ok (client_timer now c, g)
  end.

Definition client_session (now : Z) (loop : EventLoop) (ks : list client_call)
    : res (HelperClient * Ledger) :=
  res_foldl client_step (new_client now loop, mkLedger [] []) ks.
End Client.

(** ** Invariant *)
Section ClientOk.
Context {C : Type} `{HelperCodec C} (codec_ : C).
Context (read_fd_ write_fd_ timeout_ns_ : Z) (handler : nat).

Definition answered (a : Answer) : Z * nat := (a_id a, a_cb a).
Definition inflight (kv : Z * Pending) : Z * nat := (kv.1, p_cb kv.2).

(** Requests and bytes. *)
Record client_core (c : HelperClient) (g : Ledger) : Prop := {
  co_in : buffer_ok (hc_in c);
  co_out : buffer_ok (hc_out c);
  co_wire : hc_closed c = false → hc_sent c ++ buffer_view (hc_out c) = messages codec_ (lg_wire g);
  co_sent : ∃ rest, messages codec_ (lg_wire g) = hc_sent c ++ rest;
  co_requests : lg_requests g ≡ₚ (answered <$> hc_answers c) ++ (inflight <$> map_to_list (hc_pending c));
  co_reply : Forall (λ a, a_ok a = true → msg_req_id (a_reply a) = a_id a) (hc_answers c);
  co_closed : hc_closed c = true → hc_pending c = ∅;
  co_ids : NoDup (lg_requests g).*1;
  co_next : 1 ≤ hc_next_req_id c ∧ Forall (λ i, i < hc_next_req_id c) (lg_requests g).*1;
}.

(** Whether the loop watches for writability. *)
Definition writing (c : HelperClient) : bool :=
  if same_fd_ read_fd_ write_fd_ then hc_write_enabled c else hc_write_registered c.

(** What the loop watches. *)
Definition wired (c : HelperClient) : Prop :=
  let r := el_registrations (hc_loop c) in
  if hc_closed c then r !! read_fd_ = None ∧ r !! write_fd_ = None
  else if same_fd_ read_fd_ write_fd_ then
    hc_write_registered c = false ∧
    r !! read_fd_ = Some (mkReg (if hc_write_enabled c then Z.lor kRead kWrite else kRead) handler)
  else
    r !! read_fd_ = Some (mkReg kRead handler) ∧
    r !! write_fd_ = if hc_write_registered c then Some (mkReg kWrite handler) else None.

Record client_ok (c : HelperClient) (g : Ledger) : Prop := {
  co_core : client_core c g;
  co_wired : wired c;
  co_interest : hc_closed c = false → writing c = negb (buf_empty (hc_out c));
}.

(** Everything but the loop and the interest flags. *)
Definition unrewired (c c' : HelperClient) : Prop :=
  hc_in c' = hc_in c ∧ hc_out c' = hc_out c ∧ hc_pending c' = hc_pending c ∧
  hc_next_req_id c' = hc_next_req_id c ∧ hc_closed c' = hc_closed c ∧
  hc_answers c' = hc_answers c ∧ hc_sent c' = hc_sent c.

Lemma client_core_unrewired c c' g : unrewired c c' → client_core c g → client_core c' g.
Proof.
  intros (H1 & H2 & H3 & H4 & H5 & H6 & H7) []. split; rewrite ?H1, ?H2, ?H3, ?H4, ?H5, ?H6, ?H7; done.
Qed.

Lemma set_write_interest_ok on c :
  wired c → hc_closed c = false →
  let c' := set_write_interest read_fd_ write_fd_ handler on c in
  unrewired c c' ∧ wired c' ∧ writing c' = on.
Proof.
  unfold wired, writing, set_write_interest. intros Hw Hc. rewrite Hc in Hw.
  destruct (same_fd_ read_fd_ write_fd_) eqn:Es.
  - destruct Hw as [Hwr Hr]. destruct (Bool.eqb on (hc_write_enabled c)) eqn:Ee.
    + apply Bool.eqb_prop in Ee. rewrite Hc. by repeat split.
    + simpl. unfold el_modify. rewrite Hr. simpl. rewrite Hc, lookup_insert_eq. by repeat split.
  - destruct Hw as [Hr Hwr]. unfold same_fd_ in Es. apply Z.eqb_neq in Es.
    destruct on, (hc_write_registered c) eqn:Er; simpl; try (rewrite ?Hc, ?Er; by repeat split).
    + unfold el_add. rewrite Hwr. simpl. rewrite Hc, lookup_insert_eq, lookup_insert_ne by done. by repeat split.
    + unfold el_remove. rewrite Hwr. simpl. rewrite Hc, lookup_delete_eq, lookup_delete_ne by done. by repeat split.
Qed.

Lemma inflight_delete (p : gmap Z Pending) i q :
  p !! i = Some q →
  inflight <$> map_to_list p ≡ₚ (i, p_cb q) :: (inflight <$> map_to_list (delete i p)).
Proof. intros Hi. by rewrite <-(map_to_list_delete p i q Hi). Qed.

(** Answering a request in flight. *)
Lemma answer_core c g i q ok m :
  client_core c g → hc_pending c !! i = Some q → (ok = true → msg_req_id m = i) →
  client_core (hc_set_pending (delete i (hc_pending c)) (hc_answers c ++ [mkAnswer i (p_cb q) ok m]) c) g.
Proof.
  intros [H1 H2 H3 H4 H5 H6 H7 H8 H9] Hi Hm. split; simpl; try done.
  - rewrite H5, (inflight_delete _ _ _ Hi), fmap_app, <-app_assoc. simpl.
    done.
  - apply Forall_app. split; [done|]. by constructor.
  - intros Hc. rewrite (H7 Hc). apply delete_empty.
Qed.

Lemma client_close_core c g :
  client_core c g → client_core (client_close read_fd_ write_fd_ c) g.
Proof.
  intros Hc. pose proof Hc as [H1 H2 H3 H4 H5 H6 H7 H8 H9]. unfold client_close.
  destruct (hc_closed c) eqn:E; [done|].
  assert (∀ c', hc_in c' = hc_in c → hc_out c' = hc_out c → hc_pending c' = hc_pending c →
    hc_next_req_id c' = hc_next_req_id c → hc_answers c' = hc_answers c → hc_sent c' = hc_sent c →
    hc_closed c' = true →
    client_core (hc_set_pending ∅ (hc_answers c' ++ (fail_answer <$> map_to_list (hc_pending c'))) c') g) as Hgo.
  { intros c' K1 K2 K3 K4 K5 K6 K7. split; simpl; rewrite ?K1, ?K2, ?K3, ?K4, ?K5, ?K6, ?K7; try done.
    - rewrite map_to_list_empty, app_nil_r, fmap_app, <-list_fmap_compose. by rewrite H5.
    - apply Forall_app. split; [done|]. apply Forall_fmap, Forall_true. by intros []. }
  cbv zeta. destruct (hc_write_registered _); by apply Hgo.
Qed.

Lemma client_close_ok c g :
  client_core c g → wired c → client_ok (client_close read_fd_ write_fd_ c) g ∧
  hc_closed (client_close read_fd_ write_fd_ c) = true.
Proof.
  intros Hc Hw. pose proof (client_close_core c g Hc) as Hcore. revert Hcore.
  unfold client_close. destruct (hc_closed c) eqn:E.
  { intros. split; [|done]. split; [done|done|congruence]. }
  assert (hc_closed (client_close read_fd_ write_fd_ c) = true ∧ wired (client_close read_fd_ write_fd_ c)) as [Hcl Hw'].
  { unfold wired in *. unfold client_close. rewrite E in *. simpl.
    destruct (same_fd_ read_fd_ write_fd_) eqn:Es; unfold same_fd_ in Es.
    - apply Z.eqb_eq in Es. destruct Hw as [-> Hr]. unfold el_remove. simpl. rewrite Hr. simpl.
      rewrite <-Es, lookup_delete_eq. done.
    - apply Z.eqb_neq in Es. destruct Hw as [Hr Hwr]. unfold el_remove. rewrite Hr. simpl.
      destruct (hc_write_registered c) eqn:Er; simpl.
      + rewrite lookup_delete_ne, Hwr by done. simpl.
        rewrite lookup_delete_eq, lookup_delete_ne, lookup_delete_eq by done. done.
      + rewrite lookup_delete_eq, lookup_delete_ne by done. done. }
  unfold client_close in Hcl, Hw'. rewrite E in Hcl, Hw'. intros Hcore. split; [|done].
  split; [done|done|]. rewrite Hcl. done.
Qed.

Lemma on_writable_ok ws c g :
  client_core c g → wired c → hc_closed c = false →
  (writing c = true ∨ buf_empty (hc_out c) = true) →
  client_ok (on_writable read_fd_ write_fd_ handler ws c) g ∧
  hc_next_req_id (on_writable read_fd_ write_fd_ handler ws c) = hc_next_req_id c.
Proof.
  intros Hc Hw Ho Ha. pose proof Hc as [H1 H2 H3 H4 H5 H6 H7 H8 H9]. unfold on_writable.
  pose proof (write_loop_ok ws (hc_out c) (hc_sent c) H2) as Hl.
  destruct (write_loop ws (hc_out c) (hc_sent c)) as [[en out] sent] eqn:E.
  destruct Hl as (K1 & K2 & K3 & K4 & more & K5). rewrite (H3 Ho) in K2.
  assert (client_core (hc_set_out out sent c) g) as Hc'.
  { split; simpl; try done. by exists (buffer_view out). }
  destruct en.
  - destruct (set_write_interest_ok false (hc_set_out out sent c)) as (Hu & Hw' & Hwr); [done|done|].
    split; [|by apply Hu]. split; [by eapply client_core_unrewired|done|]. intros _. rewrite Hwr.
    destruct Hu as (_ & -> & _). simpl. symmetry. apply negb_false_iff.
    unfold buf_empty. apply Nat.eqb_eq. rewrite <-(view_length out K1). by rewrite K4.
  - split; [|done]. split; [done|done|]. intros _. change (writing (hc_set_out out sent c)) with (writing c).
    simpl. rewrite (write_loop_blocked _ _ _ _ _ E). destruct Ha as [->|Ha]; [done|].
    destruct ws; simpl in E; rewrite Ha in E; simplify_eq.
  - split; [by apply client_close_ok|]. unfold client_close. simpl. rewrite Ho. by destruct (hc_write_registered c).
Qed.

Lemma send_ok now ws type fields cb c g :
  client_ok c g → hc_next_req_id c + 1 < 2 ^ 64 →
  let id := hc_next_req_id c in
  let reqs := match cb with Some cb => lg_requests g ++ [(id, cb)] | None => lg_requests g end in
  let wire := if hc_closed c then lg_wire g else lg_wire g ++ [mkMessage id type fields] in
  let c' := (send codec_ read_fd_ write_fd_ timeout_ns_ handler now ws type fields cb c).2 in
  client_ok c' (mkLedger reqs wire) ∧ hc_next_req_id c' = id + 1.
Proof.
  intros [Hc Hw Hi] Hn. pose proof Hc as [H1 H2 H3 H4 H5 H6 H7 H8 [H9 H10]]. simpl.
  set (id := hc_next_req_id c). assert (to_u64 (id + 1) = id + 1) as Hid by (unfold to_u64; apply Z.mod_small; lia).
  assert (id ∉ (lg_requests g).*1) as Hfresh.
  { intros Hin. rewrite Forall_forall in H10. apply H10 in Hin. lia. }
  assert (Forall (λ i, i < id + 1) (lg_requests g).*1) as H10'.
  { eapply Forall_impl; [exact H10|]. simpl. lia. }
  assert (NoDup (match cb with Some cb => lg_requests g ++ [(id, cb)] | None => lg_requests g end).*1 ∧
          Forall (λ i, i < id + 1) (match cb with Some cb => lg_requests g ++ [(id, cb)] | None => lg_requests g end).*1)
    as [Hnd Hlt].
  { destruct cb as [k|]; [|done]. rewrite fmap_app. split.
    - apply NoDup_app. split_and!; [done|set_solver|apply NoDup_singleton].
    - apply Forall_app. split; [done|]. constructor; [simpl; lia|constructor]. }
  unfold send. fold id. rewrite Hid. destruct (hc_closed c) eqn:E; simpl; rewrite E.
  - destruct cb as [k|]; (split; [|done]); split.
    1,4: split; simpl; rewrite ?E; try done; try (split; [lia|done]).
    + rewrite (H7 eq_refl), map_to_list_empty, app_nil_r in *. rewrite fmap_app. simpl. by rewrite H5.
    + apply Forall_app. split; [done|]. by constructor.
    + exact Hw.
    + simpl. by rewrite E.
    + exact Hw.
    + simpl. by rewrite E.
  - set (msg := mkMessage id type fields).
    pose proof (buffer_append_ok (encode codec_ msg) (hc_out c) H2) as Hout.
    match goal with |- context [on_writable _ _ _ _ (set_write_interest _ _ _ _ ?x)] => set (c1 := x) end.
    assert (hc_pending c !! id = None) as Hnone.
    { destruct (hc_pending c !! id) as [q|] eqn:Eq; [|done]. exfalso. apply Hfresh.
      rewrite H5, fmap_app. apply elem_of_app. right. apply list_elem_of_fmap. exists (id, p_cb q). split; [done|].
      apply list_elem_of_fmap. exists (id, q). split; [done|]. by apply elem_of_map_to_list. }
    assert (client_core c1 (mkLedger (match cb with Some cb => lg_requests g ++ [(id, cb)] | None => lg_requests g end)
                              (lg_wire g ++ [msg])) ∧ wired c1 ∧ hc_closed c1 = false ∧ hc_next_req_id c1 = id + 1)
      as (Hc1 & Hw1 & Hcl1 & Hn1).
    { assert (hc_sent c ++ buffer_view (buffer_append (encode codec_ msg) (hc_out c)) =
              messages codec_ (lg_wire g ++ [msg])) as Hwire.
      { rewrite buffer_append_view, app_assoc, (H3 eq_refl) by done. unfold messages.
        rewrite fmap_app, join_app. simpl. by rewrite app_nil_r. }
      subst c1. destruct cb as [k|]; [rewrite Hnone|]; (split_and!; [split|..]); simpl; try done; try (split; [lia|done]);
        try (by eexists); try (intros; congruence).
      rewrite map_to_list_insert by done. rewrite fmap_cons, H5, <-app_assoc.
      by rewrite (Permutation_app_comm _ [(id, k)]). }
    destruct (set_write_interest_ok true c1 Hw1 Hcl1) as (Hu & Hw2 & Hwr).
    edestruct (on_writable_ok ws (set_write_interest read_fd_ write_fd_ handler true c1)) as [Hok Hnx].
    + by eapply client_core_unrewired.
    + done.
    + by destruct Hu as (_ & _ & _ & _ & -> & _).
    + by left.
    + split; [exact Hok|]. etrans; [exact Hnx|]. by destruct Hu as (_ & _ & _ & -> & _).
Qed.

Lemma reply_loop_ok fuel : ∀ c g,
  client_ok c g → hc_closed c = false → (buf_size (hc_in c) < fuel)%nat →
  ∃ c', reply_loop codec_ read_fd_ write_fd_ fuel c = Ok c' ∧ client_ok c' g ∧
    hc_next_req_id c' = hc_next_req_id c.
Proof.
  induction fuel as [|fuel IH]; intros c g Hok Ho Hf; [lia|]. cbn [reply_loop].
  destruct (decode codec_ (hc_in c)) as [d in_] eqn:E.
  pose proof Hok as [Hc Hw Hi]. pose proof (co_in _ _ Hc) as Hin.
  assert (buffer_ok in_ ∧ (∀ m, d = HelperComplete m → (buf_size in_ < buf_size (hc_in c))%nat)) as [Hin' Hlt].
  { destruct d as [|m|e].
    - by rewrite (codec_idle codec_ _ _ _ E).
    - destruct (codec_progress codec_ _ _ _ Hin E). split; [done|]. by intros ? [= <-].
    - by rewrite (codec_idle codec_ _ _ _ E). }
  assert (client_ok (hc_set_in in_ c) g) as Hok1.
  { split; [|done|done]. destruct Hc. by split. }
  destruct d as [|m|e].
  - by eexists.
  - specialize (Hlt m eq_refl). destruct (hc_pending (hc_set_in in_ c) !! msg_req_id m) as [q|] eqn:Eq.
    + destruct (IH (hc_set_pending (delete (msg_req_id m) (hc_pending (hc_set_in in_ c)))
          (hc_answers (hc_set_in in_ c) ++ [mkAnswer (msg_req_id m) (p_cb q) true m]) (hc_set_in in_ c)) g)
        as (c' & Hr & Hok' & Hn'); [|done|simpl; lia|by exists c'].
      split; [|done|done]. apply answer_core; [apply Hok1|done|done].
    + destruct (IH (hc_set_in in_ c) g Hok1 Ho) as (c' & Hr & Hok' & Hn'); [simpl; lia|by exists c'].
  - exists (client_close read_fd_ write_fd_ (hc_set_in in_ c)). split; [done|]. split.
    + by apply client_close_ok; [apply Hok1|].
    + unfold client_close. simpl. rewrite Ho. by destruct (hc_write_registered c).
Qed.

Lemma client_close_next c : hc_next_req_id (client_close read_fd_ write_fd_ c) = hc_next_req_id c.
Proof. unfold client_close. destruct (hc_closed c); [done|]. simpl. by destruct (hc_write_registered c). Qed.

Lemma client_readable_ok rs c g :
  client_ok c g → hc_closed c = false → kernel_reads kClientChunk rs →
  ∃ c', client_readable codec_ read_fd_ write_fd_ rs c = Ok c' ∧ client_ok c' g ∧
    hc_next_req_id c' = hc_next_req_id c.
Proof.
  intros Hok Ho Hrs. pose proof Hok as [Hc Hw Hi]. unfold client_readable.
  pose proof (read_loop_buffer kClientChunk rs (hc_in c) (co_in _ _ Hc) Hrs) as Hb.
  destruct (read_loop kClientChunk rs (hc_in c)) as [more in_]. simpl in Hb.
  assert (client_ok (hc_set_in in_ c) g) as Hok1.
  { split; [|done|done]. destruct Hc. by split. }
  destruct more; simpl.
  - apply (reply_loop_ok (S (buf_size in_)) (hc_set_in in_ c) g); [done|done|simpl; lia].
  - eexists. split; [done|]. split; [by apply client_close_ok; apply Hok1|by rewrite client_close_next].
Qed.

Lemma client_io_ready_ok fd events rs ws c g :
  client_ok c g → hc_closed c = false → kernel_reads kClientChunk rs →
  ∃ c', client_io_ready codec_ read_fd_ write_fd_ handler fd events rs ws c = Ok c' ∧ client_ok c' g ∧
    hc_next_req_id c' = hc_next_req_id c.
Proof.
  intros Hok Ho Hrs. unfold client_io_ready. set (rd := (fd =? read_fd_) && HasEvent events kReadable).
  assert (∃ c1, (if rd then client_readable codec_ read_fd_ write_fd_ rs c else Ok c) = Ok c1 ∧
            client_ok c1 g ∧ hc_next_req_id c1 = hc_next_req_id c ∧ (rd = false → hc_closed c1 = false))
    as (c1 & -> & Hok1 & Hn1 & Hcl).
  { destruct rd; [|by exists c]. destruct (client_readable_ok rs c g Hok Ho Hrs) as (c' & ? & ? & ?). by exists c'. }
  cbn [mbind res_bind]. destruct (rd && hc_closed c1) eqn:Er; [by exists c1|].
  assert (hc_closed c1 = false) as Ho1 by (destruct rd; [done|by apply Hcl]).
  set (wr := (fd =? write_fd_) && HasEvent events kWritable).
  assert (client_ok (if wr then on_writable read_fd_ write_fd_ handler ws c1 else c1) g ∧
    hc_next_req_id (if wr then on_writable read_fd_ write_fd_ handler ws c1 else c1) = hc_next_req_id c) as [Hok2 Hn2].
  { destruct wr; [|done]. pose proof Hok1 as [Hc1 Hw1 Hi1].
    destruct (on_writable_ok ws c1 g Hc1 Hw1 Ho1) as [? Hn]; [|by rewrite Hn].
    rewrite (Hi1 Ho1). destruct (buf_empty (hc_out c1)); auto. }
  set (c2 := if wr then _ else c1) in *. clearbody c2. destruct (wr && hc_closed c2); [by exists c2|].
  destruct (HasEvent events kError); [|by exists c2]. eexists. split; [done|].
  split; [by apply client_close_ok; apply Hok2|by rewrite client_close_next].
Qed.

Lemma expire_request_ok c g i : client_ok c g →
  client_ok (expire_request c i) g ∧ hc_next_req_id (expire_request c i) = hc_next_req_id c.
Proof.
  intros [Hc Hw Hi]. unfold expire_request. destruct (hc_pending c !! i) as [q|] eqn:E; [|by split].
  split; [|done]. split; [|done|done]. by apply answer_core.
Qed.

Lemma client_timer_ok now c g : client_ok c g →
  client_ok (client_timer timeout_ns_ now c) g ∧
  hc_next_req_id (client_timer timeout_ns_ now c) = hc_next_req_id c.
Proof.
  intros Hok. unfold client_timer. case_if; [done|].
  generalize ((filter (λ kv : Z * Pending, p_deadline kv.2 ≠ 0 ∧ p_deadline kv.2 ≤ now)
                 (map_to_list (hc_pending c))).*1).
  intros ids. clear -Hok. revert c Hok. induction ids as [|i ids IH]; intros c Hok; [done|]. simpl.
  destruct (expire_request_ok c g i Hok) as [Hok1 Hn1]. destruct (IH _ Hok1) as [? ->]. done.
Qed.

Definition call_ok (k : client_call) : Prop :=
  match k with CallIo _ _ rs _ => kernel_reads kClientChunk rs | _ => True end.

Lemma client_step_ok k c g :
  client_ok c g → call_ok k → hc_next_req_id c + 1 < 2 ^ 64 →
  ∃ c' g', client_step codec_ read_fd_ write_fd_ timeout_ns_ handler (c, g) k = Ok (c', g') ∧
    client_ok c' g' ∧ hc_next_req_id c' ≤ hc_next_req_id c + 1.
Proof.
  intros Hok Hk Hn. destruct k as [now ws ty fs cb|w ev rs ws|now]; cbn [client_step].
  - destruct (send_ok now ws ty fs cb c g Hok Hn) as [Hok' Hn']. eexists _, _. split; [done|].
    split; [exact Hok'|]. cbn zeta in Hn'. lia.
  - destruct (dispatch_io _ _) as [h|] eqn:Ed; [|exists c, g; split_and!; [done|done|lia]].
    assert (hc_closed c = false) as Ho.
    { destruct (hc_closed c) eqn:E; [|done]. pose proof (co_wired _ _ Hok) as Hw. unfold wired in Hw.
      rewrite E in Hw. destruct Hw as [Hr Hwr]. unfold dispatch_io in Ed. by destruct w; rewrite ?Hr, ?Hwr in Ed. }
    destruct (client_io_ready_ok (if w then write_fd_ else read_fd_) ev rs ws c g Hok Ho Hk) as (c' & -> & Hok' & Hn').
    exists c', g. split_and!; [done|done|lia].
  - destruct (client_timer_ok now c g Hok) as [Hok' Hn']. eexists _, g. split_and!; [done|exact Hok'|lia].
Qed.

Lemma client_session_ok ks : ∀ c g,
  client_ok c g → Forall call_ok ks → hc_next_req_id c + Z.of_nat (length ks) < 2 ^ 64 →
  ∃ c' g', res_foldl (client_step codec_ read_fd_ write_fd_ timeout_ns_ handler) (c, g) ks = Ok (c', g') ∧
    client_ok c' g'.
Proof.
  induction ks as [|k ks IH]; intros c g Hok Hks Hn; [by exists c, g|].
  apply Forall_cons in Hks as [Hk Hks]. cbn [length] in Hn.
  destruct (client_step_ok k c g Hok Hk) as (c1 & g1 & Hstep & Hok1 & Hn1); [lia|].
  cbn [res_foldl]. rewrite Hstep. cbn [mbind res_bind]. apply IH; [done|done|lia].
Qed.

Lemma new_client_ok now loop :
  el_registrations loop !! read_fd_ = None → el_registrations loop !! write_fd_ = None →
  client_ok (new_client read_fd_ timeout_ns_ handler now loop) (mkLedger [] []).
Proof.
  intros Hr Hw. unfold new_client, el_add. rewrite Hr. cbn [negb snd].
  match goal with |- context [let '(_, _) := ?x in _] => destruct x as [sweep l] eqn:Ex end.
  assert (el_registrations l = <[read_fd_ := mkReg kRead handler]> (el_registrations loop)) as Hl.
  { destruct (0 <? timeout_ns_); by injection Ex as _ <-. }
  split.
  - split; simpl; try done; try apply new_buffer_ok; try constructor; try lia; try constructor. by exists [].
  - unfold wired. simpl. rewrite Hl. destruct (same_fd_ read_fd_ write_fd_) eqn:E; unfold same_fd_ in E.
    + split; [done|]. by rewrite lookup_insert_eq.
    + apply Z.eqb_neq in E. by rewrite lookup_insert_eq, lookup_insert_ne.
  - intros _. unfold writing. simpl. by destruct (same_fd_ read_fd_ write_fd_).
Qed.

(** A destroyed client leaves none of its descriptors with the loop. *)
Lemma destroy_client_unwired c :
  wired c → let r := el_registrations (destroy_client read_fd_ write_fd_ c) in
  r !! read_fd_ = None ∧ r !! write_fd_ = None.
Proof.
  unfold wired, destroy_client. intros Hw.
  set (loop := if negb (hc_sweep_timer c =? 0) then _ else _).
  assert (el_registrations loop = el_registrations (hc_loop c)) as Hl by (subst loop; by case_if).
  clearbody loop. destruct (hc_closed c); cbn [negb]; [by rewrite Hl|].
  unfold el_remove. rewrite Hl. destruct (same_fd_ read_fd_ write_fd_) eqn:E; unfold same_fd_ in E.
  - apply Z.eqb_eq in E. destruct Hw as [-> Hr]. rewrite Hr. simpl. rewrite <-E. split; apply lookup_delete_eq.
  - apply Z.eqb_neq in E. destruct Hw as [Hr Hwr]. rewrite Hr. simpl. destruct (hc_write_registered c).
    + rewrite lookup_delete_ne, Hwr by done. simpl.
      by rewrite lookup_delete_eq, lookup_delete_ne, lookup_delete_eq.
    + simpl. by rewrite lookup_delete_eq, lookup_delete_ne.
Qed.
End ClientOk.

(** C30: every request is answered exactly once.  Over any session (requests,
    readiness in any order, any results of the system calls, timeouts), the
    callbacks registered are, each with its own id, exactly those called so far
    plus those still waiting; a closed client has none waiting; a callback is
    given a reply only if the reply carries its id; the bytes written are a
    prefix of the encoded requests, of which an open client buffers the rest;
    and the loop watches the descriptors exactly while they are open, for
    writing only while bytes wait. *)
Theorem helper_answers_once {C} `{HelperCodec C} (codec : C) rfd wfd timeout handler now loop ks :
  el_registrations loop !! rfd = None → el_registrations loop !! wfd = None →
  Forall call_ok ks → Z.of_nat (length ks) < 2 ^ 64 - 1 →
  ∃ c g, client_session codec rfd wfd timeout handler now loop ks = Ok (c, g) ∧
    lg_requests g ≡ₚ (answered <$> hc_answers c) ++ (inflight <$> map_to_list (hc_pending c)) ∧
    NoDup (lg_requests g).*1 ∧ (hc_closed c = true → hc_pending c = ∅) ∧
    Forall (λ a, a_ok a = true → msg_req_id (a_reply a) = a_id a) (hc_answers c) ∧
    (∃ rest, messages codec (lg_wire g) = hc_sent c ++ rest ∧
             (hc_closed c = false → rest = buffer_view (hc_out c))) ∧
    wired rfd wfd handler c ∧ (hc_closed c = false → writing rfd wfd c = negb (buf_empty (hc_out c))).
Proof.
  intros Hr Hw Hks Hlen. unfold client_session.
  destruct (client_session_ok codec rfd wfd timeout handler ks
              (new_client rfd timeout handler now loop) (mkLedger [] [])) as (c & g & Hrun & [Hc Hwr Hi]).
  - by apply new_client_ok.
  - done.
  - unfold new_client. simpl. destruct (0 <? timeout); simpl; lia.
  - destruct Hc. exists c, g. split_and!; try done. destruct (hc_closed c) eqn:E.
    + destruct co_sent0 as [rest Hrest]. by exists rest.
    + exists (buffer_view (hc_out c)). split; [|done]. by rewrite co_wire0.
Qed.

(** Failing a list of requests in flight, one after the other. *)
Lemma expire_requests_eq l : ∀ c1,
  NoDup l.*1 → (∀ kv : Z * Pending, kv ∈ l → hc_pending c1 !! kv.1 = Some kv.2) →
  hc_pending (foldl expire_request c1 l.*1) = filter (λ kv : Z * Pending, kv.1 ∉ l.*1) (hc_pending c1) ∧
  hc_answers (foldl expire_request c1 l.*1) = hc_answers c1 ++ (fail_answer <$> l).
Proof.
  induction l as [|[i q] l IH]; intros c1 Hnd Hl.
  - simpl. rewrite app_nil_r. split; [|done]. rewrite map_filter_id; [done|]. intros. apply not_elem_of_nil.
  - rewrite !fmap_cons. cbn [foldl fst]. apply NoDup_cons in Hnd as [Hi Hnd].
    assert (expire_request c1 i = hc_set_pending (delete i (hc_pending c1))
              (hc_answers c1 ++ [mkAnswer i (p_cb q) false empty_message]) c1) as ->.
    { unfold expire_request. pose proof (Hl (i, q) ltac:(set_solver)) as Hq. cbn [fst snd] in Hq. by rewrite Hq. }
    destruct (IH (hc_set_pending (delete i (hc_pending c1))
              (hc_answers c1 ++ [mkAnswer i (p_cb q) false empty_message]) c1) Hnd) as [-> ->].
    + intros kv Hkv. simpl. rewrite lookup_delete_ne; [by apply Hl; set_solver|].
      intros ->. apply Hi. apply list_elem_of_fmap. by exists kv.
    + simpl. split; [|by rewrite <-app_assoc]. apply map_eq. intros j.
      rewrite !map_lookup_filter. destruct (decide (i = j)) as [<-|Hne].
      * rewrite lookup_delete_eq. simpl. destruct (hc_pending c1 !! i); simpl; [|done].
        case_guard; [|done]. set_solver.
      * rewrite lookup_delete_ne by done. destruct (hc_pending c1 !! j); simpl; [|done].
        repeat case_guard; set_solver.
Qed.

(** The timeout sweep.  It fails exactly the requests whose deadline has
    passed, once each, and leaves every other request waiting. *)
Lemma helper_timeout_sweep timeout now c :
  0 < timeout →
  let expired := filter (λ kv : Z * Pending, p_deadline kv.2 ≠ 0 ∧ p_deadline kv.2 ≤ now) in
  let c' := client_timer timeout now c in
  hc_pending c' = filter (λ kv : Z * Pending, ¬ (p_deadline kv.2 ≠ 0 ∧ p_deadline kv.2 ≤ now)) (hc_pending c) ∧
  hc_answers c' = hc_answers c ++ (fail_answer <$> expired (map_to_list (hc_pending c))).
Proof.
  intros Ht expired. unfold client_timer.
  case_if.
  - apply orb_true_iff in Heqb as [Hb|Hb]; [bool_split; lia|]. apply bool_decide_eq_true in Hb.
    subst expired. rewrite Hb, map_to_list_empty. by rewrite app_nil_r.
  - subst expired. match goal with |- context [foldl _ _ ?l.*1] => destruct (expire_requests_eq l c) as [-> ->] end.
    + apply (sublist_NoDup _ (map_to_list (hc_pending c)).*1); [apply NoDup_fst_map_to_list|apply fmap_sublist, sublist_filter].
    + intros [i q] Hin. apply list_elem_of_filter in Hin as [_ Hin]. by apply elem_of_map_to_list in Hin.
    + split; [|done]. apply map_filter_ext. intros i q Hq. simpl. split; intros Hn Hx; apply Hn.
      * apply list_elem_of_fmap. exists (i, q). split; [done|]. apply list_elem_of_filter. split; [done|].
        by apply elem_of_map_to_list.
      * apply list_elem_of_fmap in Hx as ([i' q'] & -> & Hin). apply list_elem_of_filter in Hin as [Hd Hin].
        apply elem_of_map_to_list in Hin. simpl in *. congruence.
Qed.

(** A session over a pair of pipes: two requests, one reply that arrives in two
    reads, a sweep past the second one's deadline, and end of file. *)
Definition sample_reply : bytes := binary_encode (mkMessage 1 (lit "ok") []).
Definition sample_calls : list client_call :=
  [ CallSend 100 [WCount 5; WAgain] (lit "store") [] (Some 7%nat);
    CallSend 200 [WAgain] (lit "load") [] (Some 8%nat);
    CallIo true kWritable [] [WCount 1000];
    CallIo false kReadable [RData (take 9 sample_reply); RAgain] [];
    CallIo false kReadable [RData (drop 9 sample_reply); RAgain] [];
    CallTimer 260;
    CallIo false kReadable [RData []] [] ].

Lemma sample_calls_ok : Forall call_ok sample_calls.
Proof.
  assert (∀ s, Z.of_nat (length s) <= 100 → kernel_reads kClientChunk [RData s; RAgain]) as Hs.
  { intros s Hs. apply Forall_cons. split; [unfold kClientChunk; lia|by apply Forall_singleton]. }
  unfold sample_calls. do 3 (apply Forall_cons; split; [constructor|]).
  do 2 (apply Forall_cons; split; [by apply Hs|]).
  apply Forall_cons; split; [done|]. apply Forall_singleton, Forall_singleton. simpl. lia.
Qed.

Lemma sample_session_eval :
  match client_session binary_codec 3 4 50 0 0 new_loop sample_calls with
  | Ok (c, g) =>
      lg_requests g = [(1, 7%nat); (2, 8%nat)] ∧
      (λ a, (a_id a, a_ok a)) <$> hc_answers c = [(1, true); (2, false)] ∧ hc_closed c = true
  | Err _ => False
  end.
Proof. by vm_compute. Qed.

Lemma helper_answers_once_witness :
  match client_session binary_codec 3 4 50 0 0 new_loop sample_calls with
  | Ok (c, g) =>
      lg_requests g = [(1, 7%nat); (2, 8%nat)] ∧
      (λ a, (a_id a, a_ok a)) <$> hc_answers c = [(1, true); (2, false)] ∧
      lg_requests g ≡ₚ (answered <$> hc_answers c) ++ (inflight <$> map_to_list (hc_pending c)) ∧
      hc_closed c = true ∧ hc_pending c = ∅
  | Err _ => False
  end.
Proof.
  destruct (helper_answers_once binary_codec 3 4 50 0 0 new_loop sample_calls)
    as (c & g & Hrun & Hreq & _ & Hcl & _); [done|done|apply sample_calls_ok|done|].
  pose proof sample_session_eval as Heval.
  rewrite Hrun in Heval |- *. destruct Heval as (H1 & H2 & H3).
  exact (conj H1 (conj H2 (conj Hreq (conj H3 (Hcl H3))))).
Defined.

(** The client of the sample session just before the sweep. *)
Definition waiting_client : HelperClient :=
  match client_session binary_codec 3 4 50 0 0 new_loop (take 5 sample_calls) with
  | Ok (c, _) => c
  | Err _ => new_client 3 50 0 0 new_loop
  end.

Lemma helper_timeout_sweep_witness :
  map_to_list (hc_pending waiting_client) = [(2, mkPending 8 250)] ∧
  hc_pending (client_timer 50 260 waiting_client) = ∅ ∧
  hc_answers (client_timer 50 260 waiting_client) =
    hc_answers waiting_client ++ [mkAnswer 2 8 false empty_message].
Proof.
  destruct (helper_timeout_sweep 50 260 waiting_client ltac:(done)) as [-> ->].
  split; [by vm_compute|]. split; [|by vm_compute]. apply (bool_decide_unpack _). by vm_compute.
Defined.

(** A reply that arrives together with the end of file is thrown away: its
    request is failed although the whole reply is in the buffer. *)
Lemma eof_drops_reply :
  match client_session binary_codec 3 4 0 0 0 new_loop
          [ CallSend 0 [WCount 1000] (lit "store") [] (Some 7%nat);
            CallIo false kReadable [RData sample_reply; RData []] [] ] with
  | Ok (c, _) => hc_answers c = [mkAnswer 1 7 false empty_message] ∧ buffer_view (hc_in c) = sample_reply
  | Err _ => False
  end.
Proof. by vm_compute. Qed.
