(* ===== verification/IngressHelper.v ===== *)
(** * The ingress helper ([ipc/ingress_helper.cc])

    Requests a child process initiates, and the replies sent back to it.  The
    codec is any instance of [HelperCodec]; the results of the read and write
    calls are scripts ([PipeIO]).  Requests are numbered in the order of dispatch.
    The application's handler is given by the replies it makes, to this or to
    earlier requests: those made before it returns are the next entry of
    [ih_answers], one made later is an [IngressReplies] event.  The loop's
    registrations are the flags the code keeps of them.  [ih_requests],
    [ih_replies], [ih_received] and [ih_sent] record the requests dispatched,
    the replies queued with the number of their request, and the bytes read and
    written. *)

From S2P Require Import Prelude.
From S2P Require Import Bytes.
From S2P Require Import Buffer.
From S2P Require Import PipeIO.
From S2P Require Import EventLoop.
From S2P Require Import HelperCodec.

Definition kIngressChunk : nat := Z.to_nat (16 * 1024).

(** The replies the handler makes before it returns, by the number of their
    request. *)
Abbreviation handler_answer := (list (nat * HelperMessage * list io_write)).

Record IngressHelper := mkIngress {
  ih_in : Buffer;
  ih_out : Buffer;
  ih_write_enabled : bool;
  ih_write_registered : bool;
  ih_closed : bool;
  ih_requests : list HelperMessage;
  ih_replies : list (nat * HelperMessage);
  ih_received : bytes;
  ih_sent : bytes;
  ih_answers : list handler_answer;
}.

Definition new_ingress : IngressHelper := mkIngress new_buffer new_buffer false false false [] [] [] [] [].

(** Field assignment. *)
Definition ih_set_in (b : Buffer) (rcvd : bytes) (c : IngressHelper) : IngressHelper :=
  mkIngress b (ih_out c) (ih_write_enabled c) (ih_write_registered c) (ih_closed c) (ih_requests c) (ih_replies c)
    rcvd (ih_sent c) (ih_answers c).
Definition ih_set_out (b : Buffer) (replies : list (nat * HelperMessage)) (sent : bytes) (c : IngressHelper) : IngressHelper :=
  mkIngress (ih_in c) b (ih_write_enabled c) (ih_write_registered c) (ih_closed c) (ih_requests c) replies
    (ih_received c) sent (ih_answers c).
Definition ih_set_flags (enabled registered closed : bool) (c : IngressHelper) : IngressHelper :=
  mkIngress (ih_in c) (ih_out c) enabled registered closed (ih_requests c) (ih_replies c) (ih_received c) (ih_sent c)
    (ih_answers c).
Definition ih_set_app (requests : list HelperMessage) (answers : list handler_answer) (c : IngressHelper) : IngressHelper :=
  mkIngress (ih_in c) (ih_out c) (ih_write_enabled c) (ih_write_registered c) (ih_closed c) requests (ih_replies c)
    (ih_received c) (ih_sent c) answers.

Definition set_req_id (id : Z) (m : HelperMessage) : HelperMessage := mkMessage id (msg_type m) (msg_fields m).

Section Ingress.
Context {C : Type} `{HelperCodec C} (codec_ : C) (same_fd_ : bool).

Definition ingress_write_interest (on : bool) (c : IngressHelper) : IngressHelper :=
  if same_fd_ then
    if Bool.eqb on (ih_write_enabled c) then c else ih_set_flags on (ih_write_registered c) (ih_closed c) c
  else if on && negb (ih_write_registered c) then ih_set_flags (ih_write_enabled c) true (ih_closed c) c
  else if negb on && ih_write_registered c then ih_set_flags (ih_write_enabled c) false (ih_closed c) c
  else c.

Definition ingress_close (c : IngressHelper) : IngressHelper :=
  if ih_closed c then c else ih_set_flags (ih_write_enabled c) false true c.

Definition ingress_writable (ws : list io_write) (c : IngressHelper) : IngressHelper :=
  let '(en, out, sent) := write_loop ws (ih_out c) (ih_sent c) in
  let c := ih_set_out out (ih_replies c) sent c in
  match en with
  | Drained => ingress_write_interest false c
  | Blocked => c
  | Broken => ingress_close c
  end.

Definition queue_reply (ws : list io_write) (k : nat) (msg : HelperMessage) (c : IngressHelper) : IngressHelper :=
  if ih_closed c then c
  else
    let c := ih_set_out (buffer_append (encode codec_ msg) (ih_out c)) (ih_replies c ++ [(k, msg)]) (ih_sent c) c in
    ingress_writable ws (ingress_write_interest true c).

(** The reply callback of request [k], which captured its id. *)
Definition send_reply (ws : list io_write) (k : nat) (req_id : Z) (reply : HelperMessage) (c : IngressHelper) : IngressHelper :=
  queue_reply ws k (set_req_id req_id reply) c.

(** A reply by the number of its request: there is a callback once the request
    was dispatched. *)
Definition make_reply (c : IngressHelper) (a : nat * HelperMessage * list io_write) : IngressHelper :=
  let '(k, reply, ws) := a in
  match ih_requests c !! k with Some req => send_reply ws k (msg_req_id req) reply c | None => c end.

Definition dispatch_message (msg : HelperMessage) (c : IngressHelper) : IngressHelper :=
  foldl make_reply (ih_set_app (ih_requests c ++ [msg]) (tail (ih_answers c)) c) (hd [] (ih_answers c)).

Fixpoint request_loop (fuel : nat) (c : IngressHelper) : res IngressHelper :=
  match fuel with
  | O => Err OutOfFuel
  | S fuel =>
      let '(d, in_) := decode codec_ (ih_in c) in
      let c := ih_set_in in_ (ih_received c) c in
      match d with
      | HelperIncomplete => Ok c
      | HelperError _ => Ok (ingress_close c)
      | HelperComplete msg =>
          let c := dispatch_message msg c in
          if ih_closed c then Ok c else request_loop fuel c
      end
  end.

Definition ingress_readable (rs : list io_read) (c : IngressHelper) : res IngressHelper :=
  let '(en, b) := read_all kIngressChunk rs (ih_in c) in
  let c := ih_set_in b (ih_received c ++ received rs) c in
  match en with
  | WouldBlock => request_loop (S (buf_size b)) c
  | EndOfFile | ReadFailed => Ok (ingress_close c)
  end.

(** [is_read], [is_write]: whether the descriptor is the read, the write one. *)
Definition ingress_io_ready (is_read is_write : bool) (events : Z) (rs : list io_read) (ws : list io_write) (c : IngressHelper)
    : res IngressHelper :=
  c ← (if is_read && HasEvent events kReadable then ingress_readable rs c else Ok c);
  if is_read && HasEvent events kReadable && ih_closed c then Ok c
  else
    let c := if is_write && HasEvent events kWritable then ingress_writable ws c else c in
    if is_write && HasEvent events kWritable && ih_closed c then Ok c
    else Ok (if HasEvent events kError then ingress_close c else c).

(** ** Sessions

    The loop calls a handler while it is registered for the descriptor; a reply
    can only be for a request that was dispatched. *)
Inductive ingress_event :=
  | IngressIo (on_write : bool) (events : Z) (rs : list io_read) (ws : list io_write) (answers : list handler_answer)
  | IngressReplies (k : nat) (reply : HelperMessage) (ws : list io_write).

Definition ingress_step (c : IngressHelper) (e : ingress_event) : res IngressHelper :=
  match e with
  | IngressIo on_write events rs ws answers =>
      if ih_closed c || on_write && negb same_fd_ && negb (ih_write_registered c) then Ok c
      else ingress_io_ready (same_fd_ || negb on_write) (same_fd_ || on_write) events rs ws
             (ih_set_app (ih_requests c) answers c)
  | IngressReplies k reply ws =>
      Ok (make_reply c (k, reply, ws))
  end.
Definition ingress_session (es : list ingress_event) : res IngressHelper := res_foldl ingress_step new_ingress es.

(** ** Invariant *)

(** Replies carry the id of the request they answer, and are sent in order. *)
Record ingress_core (c : IngressHelper) : Prop := {
  ic_in : buffer_ok (ih_in c);
  ic_out : buffer_ok (ih_out c);
  ic_ids : Forall (λ r, ∃ q, ih_requests c !! r.1 = Some q ∧ msg_req_id r.2 = msg_req_id q) (ih_replies c);
  ic_wire : ih_closed c = false → ih_sent c ++ buffer_view (ih_out c) = messages codec_ (ih_replies c).*2;
  ic_sent : ih_sent c `prefix_of` messages codec_ (ih_replies c).*2;
  ic_stream : ∀ ms later, Forall (encodable codec_) ms → ih_received c ++ later = messages codec_ ms →
    ∃ todo, ms = ih_requests c ++ todo ∧ (ih_closed c = false → buffer_view (ih_in c) ++ later = messages codec_ todo);
}.

Definition ingress_writing (c : IngressHelper) : bool :=
  if same_fd_ then ih_write_enabled c else ih_write_registered c.

Record ingress_ok (c : IngressHelper) : Prop := {
  io_core : ingress_core c;
  io_interest : ih_closed c = false → ingress_writing c = negb (buf_empty (ih_out c));
  io_settled : ih_closed c = false → ∃ b, decode codec_ (ih_in c) = (HelperIncomplete, b);
}.

(** What a call on the output leaves alone. *)
Definition same_requests (c c' : IngressHelper) : Prop :=
  ih_in c' = ih_in c ∧ ih_requests c' = ih_requests c ∧ ih_received c' = ih_received c ∧ ih_answers c' = ih_answers c.

#[local] Instance same_requests_preorder : PreOrder same_requests.
Proof. split; [by intros c|]. intros c1 c2 c3 (?&?&?&?) (?&?&?&?). unfold same_requests. split_and!; congruence. Qed.

Lemma ingress_core_flags e r cl c :
  ingress_core c → (ih_closed c = true → cl = true) → ingress_core (ih_set_flags e r cl c).
Proof.
  intros [H1 H2 H3 H4 H5 H6] Hcl. split; simpl; try done.
  - intros ->. apply H4. destruct (ih_closed c); [by specialize (Hcl eq_refl)|done].
  - intros ms later Hms Hv. destruct (H6 ms later Hms Hv) as (todo & -> & Ht). exists todo. split; [done|].
    intros ->. apply Ht. destruct (ih_closed c); [by specialize (Hcl eq_refl)|done].
Qed.

Lemma ingress_close_ok c : ingress_core c → ingress_ok (ingress_close c) ∧ same_requests c (ingress_close c) ∧ ih_closed (ingress_close c) = true.
Proof.
  intros Hc. unfold ingress_close. destruct (ih_closed c) eqn:E.
  - split; [|by split]. split; [done|congruence|congruence].
  - split; [|by split]. split; [by apply ingress_core_flags|done|done].
Qed.

Lemma ingress_interest_ok on c :
  ingress_core c → let c' := ingress_write_interest on c in
  ingress_core c' ∧ same_requests c c' ∧ ih_closed c' = ih_closed c ∧ ih_out c' = ih_out c ∧ ih_replies c' = ih_replies c ∧
  ingress_writing c' = on.
Proof.
  intros Hc. unfold ingress_write_interest, ingress_writing.
  assert (∀ e r, ingress_core (ih_set_flags e r (ih_closed c) c)) as Hf by (intros; by apply ingress_core_flags).
  destruct same_fd_.
  - destruct (Bool.eqb_spec on (ih_write_enabled c)); by split_and!.
  - destruct on, (ih_write_registered c) eqn:E; simpl; split_and!; try done.
Qed.

Lemma ingress_writable_ok ws c :
  ingress_core c → ih_closed c = false → let c' := ingress_writable ws c in
  ingress_core c' ∧ same_requests c c' ∧
  (ingress_writing c = true ∨ buf_empty (ih_out c) = true → ih_closed c' = false →
   ingress_writing c' = negb (buf_empty (ih_out c'))).
Proof.
  intros Hc Hcl. pose proof Hc as [H1 H2 H3 H4 H5 H6]. unfold ingress_writable.
  pose proof (write_loop_ok ws (ih_out c) (ih_sent c) H2) as Hw.
  pose proof (write_loop_blocked ws (ih_out c) (ih_sent c)) as Hb.
  pose proof (write_loop_empty ws (ih_out c) (ih_sent c)) as He.
  destruct (write_loop ws (ih_out c) (ih_sent c)) as [[en out] sent]. destruct Hw as (Hok & Hs & _ & Hd & _).
  set (c1 := ih_set_out out (ih_replies c) sent c).
  assert (ingress_core c1) as K.
  { split; simpl; try done; [by rewrite Hs|]. rewrite <-H4, <-Hs by done. by apply prefix_app_r. }
  destruct en; cbv zeta.
  - destruct (ingress_interest_ok false c1 K) as (K1 & K2 & K3 & K4 & K5 & K6). split_and!; [done|by etrans; [|exact K2]|].
    intros _ _. rewrite K6, K4. simpl. by rewrite (proj2 (buf_empty_view out Hok) (Hd eq_refl)).
  - split_and!; [done|done|]. intros Hor _. simpl. rewrite (Hb out sent eq_refl). simpl.
    destruct Hor as [Hw|Hw]; [done|]. by specialize (He Hw).
  - destruct (ingress_close_ok c1 K) as ([K1 _ _] & K2 & K3). split_and!; [done|by etrans; [|exact K2]|congruence].
Qed.

Lemma messages_snoc ms m : messages codec_ (ms ++ [m]) = messages codec_ ms ++ encode codec_ m.
Proof. unfold messages. rewrite fmap_app, join_app. simpl. by rewrite app_nil_r. Qed.

(** A reply to request [k]. *)
Lemma send_reply_ok ws k q reply c :
  ingress_core c → ih_requests c !! k = Some q → let c' := send_reply ws k (msg_req_id q) reply c in
  ingress_core c' ∧ same_requests c c' ∧
  ((ih_closed c = false → ingress_writing c = negb (buf_empty (ih_out c))) →
   ih_closed c' = false → ingress_writing c' = negb (buf_empty (ih_out c'))).
Proof.
  intros Hc Hk. unfold send_reply, queue_reply. destruct (ih_closed c) eqn:Ecl; [by split_and!; [|done|congruence]|].
  pose proof Hc as [H1 H2 H3 H4 H5 H6]. set (m := set_req_id _ reply).
  set (c1 := ih_set_out _ _ _ c).
  assert (ingress_core c1) as K.
  { split; simpl; try done.
    - by apply buffer_append_ok.
    - apply Forall_app. split; [done|]. apply Forall_singleton. by exists q.
    - intros _. rewrite fmap_app. simpl. by rewrite messages_snoc, <-H4, buffer_append_view, app_assoc.
    - rewrite fmap_app. simpl. rewrite messages_snoc. by apply prefix_app_r. }
  destruct (ingress_interest_ok true c1 K) as (K1 & K2 & K3 & K4 & K5 & K6).
  destruct (ingress_writable_ok ws (ingress_write_interest true c1)) as (L1 & L2 & L3); [done|by rewrite K3|].
  split_and!; [done|by etrans; [etrans; [|exact K2]|exact L2]|]. intros _. apply L3. by left.
Qed.

Lemma make_replies_ok l : ∀ c,
  ingress_core c → let c' := foldl make_reply c l in
  ingress_core c' ∧ same_requests c c' ∧
  ((ih_closed c = false → ingress_writing c = negb (buf_empty (ih_out c))) →
   ih_closed c' = false → ingress_writing c' = negb (buf_empty (ih_out c'))).
Proof.
  induction l as [|[[k reply] ws] l IH]; intros c Hc; [by split_and!|]. cbn [foldl make_reply].
  destruct (ih_requests c !! k) as [q|] eqn:Hq; [|by apply IH].
  destruct (send_reply_ok ws k q reply c Hc Hq) as (K1 & K2 & K3). destruct (IH _ K1) as (L1 & L2 & L3).
  split_and!; [done|by etrans|]. intros Hw. apply L3. intros Hcl. by apply K3.
Qed.

(** ** Requests *)

Lemma decode_stream b m b' later todo :
  buffer_ok b → Forall (encodable codec_) todo → buffer_view b ++ later = messages codec_ todo →
  decode codec_ b = (HelperComplete m, b') → ∃ todo', todo = m :: todo' ∧ buffer_view b' ++ later = messages codec_ todo'.
Proof.
  intros Hb Htodo Hv Hd. destruct todo as [|m0 todo].
  { unfold messages in Hv. simpl in Hv. apply app_eq_nil in Hv as [Hv _]. rewrite codec_empty in Hd by done. done. }
  apply Forall_cons in Htodo as [Hm0 _]. change (messages codec_ (m0 :: todo)) with (encode codec_ m0 ++ messages codec_ todo) in Hv.
  destruct (decide (length (encode codec_ m0) ≤ length (buffer_view b))%nat) as [Hle|Hlt].
  - destruct (prefix_split _ _ _ _ Hv Hle) as (rest & Hr & Hl).
    destruct (codec_decode codec_ b m0 rest Hb Hm0 Hr) as (b1 & Hd1 & _ & Hv1). rewrite Hd in Hd1. injection Hd1 as <- <-.
    exists todo. split; [done|]. by rewrite Hv1.
  - destruct (prefix_split _ _ _ _ (eq_sym Hv)) as (missing & Hr & _); [lia|].
    rewrite (codec_prefix codec_ b m0 missing Hm0 (eq_sym Hr)) in Hd; [done|].
    intros ->. rewrite app_nil_r in Hr. rewrite Hr in Hlt. lia.
Qed.

Lemma dispatch_ok msg b c :
  ingress_core c → ih_closed c = false → decode codec_ (ih_in c) = (HelperComplete msg, b) →
  let c' := dispatch_message msg (ih_set_in b (ih_received c) c) in
  ingress_core c' ∧ ih_in c' = b ∧
  ((ih_closed c = false → ingress_writing c = negb (buf_empty (ih_out c))) →
   ih_closed c' = false → ingress_writing c' = negb (buf_empty (ih_out c'))).
Proof.
  intros [H1 H2 H3 H4 H5 H6] Hcl Hd. unfold dispatch_message. cbn [ih_requests ih_answers ih_set_in].
  destruct (codec_progress codec_ _ _ _ H1 Hd) as [Hb _].
  set (c1 := ih_set_app _ _ _).
  assert (ingress_core c1) as K.
  { split; simpl; try done.
    - eapply Forall_impl; [exact H3|]. intros r (q & Hq & E). exists q. split; [by apply lookup_app_l_Some|done].
    - intros ms later Hms Hv. destruct (H6 ms later Hms Hv) as (todo & -> & Ht). specialize (Ht Hcl).
      apply Forall_app in Hms as [_ Htodo]. destruct (decode_stream _ _ _ _ _ H1 Htodo Ht Hd) as (todo' & -> & Hv').
      exists todo'. split; [by rewrite <-app_assoc|done]. }
  destruct (make_replies_ok (hd [] (ih_answers c)) c1 K) as (L1 & (L2 & _) & L4). by split_and!.
Qed.

Lemma request_loop_ok fuel : ∀ c,
  ingress_core c → ih_closed c = false → (ingress_writing c = negb (buf_empty (ih_out c))) →
  (buf_size (ih_in c) < fuel)%nat → ∃ c', request_loop fuel c = Ok c' ∧ ingress_ok c'.
Proof.
  induction fuel as [|fuel IH]; intros c Hc Hcl Hw Hf; [lia|]. cbn [request_loop].
  destruct (decode codec_ (ih_in c)) as [d b] eqn:Hd. destruct d as [|m|e].
  - assert (b = ih_in c) as -> by (by eapply codec_idle). eexists. split; [done|].
    split; [by destruct Hc|done|]. intros _. by exists (ih_in c).
  - destruct (dispatch_ok m b c Hc Hcl Hd) as (K1 & K2 & K3). specialize (K3 (λ _, Hw)).
    destruct (codec_progress codec_ _ _ _ (ic_in _ Hc) Hd) as [_ Hlt].
    destruct (ih_closed (dispatch_message m _)) eqn:E.
    + eexists. split; [done|]. split; [done|congruence|congruence].
    + apply IH; [done|done|by apply K3|]. rewrite K2. lia.
  - assert (b = ih_in c) as -> by (by eapply codec_idle). eexists. split; [done|].
    apply ingress_close_ok. by destruct Hc.
Qed.

Lemma ingress_readable_ok rs c :
  ingress_core c → ih_closed c = false → ingress_writing c = negb (buf_empty (ih_out c)) → kernel_reads kIngressChunk rs →
  ∃ c', ingress_readable rs c = Ok c' ∧ ingress_ok c'.
Proof.
  intros Hc Hcl Hw Hrs. unfold ingress_readable. pose proof Hc as [H1 H2 H3 H4 H5 H6].
  destruct (read_all_ok kIngressChunk rs (ih_in c) H1 Hrs) as [Hb Hv].
  destruct (read_all kIngressChunk rs (ih_in c)) as [en b]. cbn [snd] in Hb, Hv.
  assert (ingress_core (ih_set_in b (ih_received c ++ received rs) c)) as K.
  { split; simpl; try done. intros ms later Hms E. rewrite <-app_assoc in E.
    destruct (H6 ms _ Hms E) as (todo & -> & Ht). exists todo. split; [done|]. intros _. rewrite Hv, <-app_assoc. by apply Ht. }
  destruct en; [|by eexists; split; [done|apply ingress_close_ok]..]. apply request_loop_ok; try done. simpl. lia.
Qed.

Definition ingress_event_ok (e : ingress_event) : Prop :=
  match e with IngressIo _ _ rs _ _ => kernel_reads kIngressChunk rs | IngressReplies _ _ _ => True end.

Lemma ingress_io_ok is_read is_write events rs ws c :
  ingress_ok c → ih_closed c = false → kernel_reads kIngressChunk rs →
  ∃ c', ingress_io_ready is_read is_write events rs ws c = Ok c' ∧ ingress_ok c'.
Proof.
  intros Hc Hcl Hrs. unfold ingress_io_ready.
  assert (∃ c1, (if is_read && HasEvent events kReadable then ingress_readable rs c else Ok c) = Ok c1 ∧ ingress_ok c1 ∧
    (is_read && HasEvent events kReadable = false → ih_closed c1 = false)) as (c1 & -> & H1 & Hcl1).
  { destruct (is_read && _); [|by exists c]. destruct (ingress_readable_ok rs c) as (c1 & ? & ?); [apply Hc|done|by apply Hc|done|].
    by exists c1. }
  cbn [mbind res_bind]. destruct (is_read && _ && ih_closed c1) eqn:E1; [by exists c1|].
  assert (ih_closed c1 = false) as Ec1.
  { destruct (is_read && HasEvent events kReadable); [done|by apply Hcl1]. }
  set (c2 := if is_write && HasEvent events kWritable then ingress_writable ws c1 else c1).
  assert (ingress_ok c2) as H2.
  { unfold c2. destruct (is_write && _); [|done]. destruct H1 as [K1 K2 K3].
    destruct (ingress_writable_ok ws c1 K1 Ec1) as (L1 & (L2 & _) & L3). split; [done| |].
    - apply L3. rewrite (K2 Ec1). destruct (buf_empty (ih_out c1)); auto.
    - intros _. rewrite L2. auto. }
  destruct (_ && ih_closed c2); [by exists c2|]. eexists. split; [done|].
  destruct (HasEvent events kError); [|done]. apply ingress_close_ok, H2.
Qed.

Lemma ingress_step_ok c e : ingress_ok c → ingress_event_ok e → ∃ c', ingress_step c e = Ok c' ∧ ingress_ok c'.
Proof.
  intros Hc He. destruct e as [on_write events rs ws answers|k reply ws]; simpl.
  - destruct (_ || _) eqn:E; [by exists c|]. apply orb_false_iff in E as [Ecl _].
    apply ingress_io_ok; try done. by destruct Hc as [[] ? ?].
  - eexists. split; [done|]. unfold make_reply. destruct (ih_requests c !! k) as [q|] eqn:Hq; [|done]. destruct Hc as [K1 K2 K3].
    destruct (send_reply_ok ws k q reply c K1 Hq) as (L1 & (L2 & _) & L4). split; [done|by apply L4|].
    intros Hcl. rewrite L2. apply K3. revert Hcl. unfold send_reply, queue_reply. by destruct (ih_closed c) eqn:E; [congruence|].
Qed.

Lemma new_ingress_ok : ingress_ok new_ingress.
Proof.
  split; [split|..]; simpl; try (exact new_buffer_ok || done).
  - intros ms later _ E. by exists ms.
  - intros _. unfold ingress_writing. by destruct same_fd_.
  - intros _. rewrite codec_empty by done. by eexists.
Qed.

Lemma ingress_session_ok es : Forall ingress_event_ok es → ∃ c, ingress_session es = Ok c ∧ ingress_ok c.
Proof.
  unfold ingress_session. intros Hes. pose proof new_ingress_ok as Hc. revert Hc. generalize new_ingress.
  induction Hes as [|e es He Hes IH]; intros c Hc; [by exists c|]. cbn [res_foldl].
  destruct (ingress_step_ok c e Hc He) as (c' & -> & Hc'). by apply IH.
Qed.
End Ingress.

Lemma messages_app {C} `{HelperCodec C} (c : C) ms1 ms2 : messages c (ms1 ++ ms2) = messages c ms1 ++ messages c ms2.
Proof. unfold messages. by rewrite fmap_app, join_app. Qed.

(** C35: the ingress helper's requests and replies. Whatever the descriptors do
    and whenever the application answers, every event is handled. Of a child
    that writes encoded messages a prefix is dispatched, in order and once;
    while the helper is open it leaves out only messages not yet received whole
    (at the end of the input received messages may be lost, see
    [request_before_eof_lost]). Every reply carries the id of the request it
    answers; what the child receives is a prefix of the encoded replies in the
    order they were given, and while the helper is open the rest waits with
    write interest. *)
Theorem ingress_replies_correlated {C} `{HelperCodec C} (codec : C) same_fd es :
  Forall ingress_event_ok es →
  ∃ c, ingress_session codec same_fd es = Ok c ∧
    (∀ ms later, Forall (encodable codec) ms → ih_received c ++ later = messages codec ms →
       ∃ todo, ms = ih_requests c ++ todo ∧
         (ih_closed c = false → ∀ m, head todo = Some m →
          (length (ih_received c) < length (messages codec (ih_requests c ++ [m])))%nat)) ∧
    Forall (λ r, ∃ q, ih_requests c !! r.1 = Some q ∧ msg_req_id r.2 = msg_req_id q) (ih_replies c) ∧
    ih_sent c `prefix_of` messages codec (ih_replies c).*2 ∧
    (ih_closed c = false →
     ih_sent c ++ buffer_view (ih_out c) = messages codec (ih_replies c).*2 ∧
     (buffer_view (ih_out c) ≠ [] → ingress_writing same_fd c = true)).
Proof.
  intros Hes. destruct (ingress_session_ok codec same_fd es Hes) as (c & Hrun & [[H1 H2 H3 H4 H5 H6] Hint Hset]).
  exists c. split; [done|]. split_and!; try done.
  - intros ms later Hms Hv. destruct (H6 ms later Hms Hv) as (todo & -> & Ht). exists todo. split; [done|].
    intros Hcl m Hm. specialize (Ht Hcl). destruct todo as [|m' todo]; [done|]. injection Hm as ->.
    rewrite messages_app, <-Ht, app_assoc in Hv. apply app_inv_tail in Hv as ->.
    rewrite messages_app, !length_app. apply Nat.add_lt_mono_l. apply Nat.nle_gt. intros Hle.
    apply Forall_app in Hms as [_ [Hm _]%Forall_cons]. destruct (Hset Hcl) as [b Hd].
    change (messages codec (m :: todo)) with (encode codec m ++ messages codec todo) in Ht.
    change (messages codec [m]) with (encode codec m ++ []) in Hle. rewrite app_nil_r in Hle.
    destruct (prefix_split _ _ _ _ Ht Hle) as (rest & Hr & _).
    destruct (codec_decode codec _ m rest H1 Hm Hr) as (b' & Hd' & _). congruence.
  - intros Hcl. split; [by apply H4|]. intros Hne. rewrite (Hint Hcl). destruct (buf_empty (ih_out c)) eqn:E; [|done].
    destruct Hne. by apply buf_empty_view.
Qed.

(** ** A concrete session *)

Definition ingress_request (id : Z) : HelperMessage := mkMessage id (lit "submit") [(lit "user", lit "u1")].
Definition ingress_result : HelperMessage := mkMessage 0 (lit "result") [(lit "ok", lit "1")].

(** Three requests in two reads; the second is answered at once, the first from
    the handler of the third, which is answered later. *)
Definition sample_ingress : list ingress_event :=
  let s := messages binary_codec [ingress_request 7; ingress_request 9; ingress_request 11] in
  [IngressIo false kReadable [RData (take 70 s); RIntr; RAgain] [] [];
   IngressIo false kReadable [RData (drop 70 s)] [] [[(1%nat, ingress_result, [WCount 5; WAgain])]; [(0%nat, ingress_result, [])]];
   IngressReplies 2 ingress_result [WAgain]; IngressIo true kWritable [] [WCount 1000] []].

Definition ingress_probe (r : res IngressHelper) : option (list Z * list (nat * Z) * nat * nat * bool) :=
  match r with
  | Ok c => Some (msg_req_id <$> ih_requests c, prod_map id msg_req_id <$> ih_replies c, length (ih_received c),
                  length (buffer_view (ih_out c)), ih_closed c)
  | Err _ => None
  end.

Lemma ingress_replies_correlated_witness :
  match ingress_session binary_codec false sample_ingress with
  | Ok c => msg_req_id <$> ih_requests c = [7; 9; 11] ∧ prod_map id msg_req_id <$> ih_replies c = [(1%nat, 9); (0%nat, 7); (2%nat, 11)] ∧
      ih_sent c = messages binary_codec (ih_replies c).*2
  | Err _ => False
  end.
Proof.
  destruct (ingress_replies_correlated binary_codec false sample_ingress) as (c & Hrun & _ & _ & _ & Hout).
  { repeat apply Forall_cons_2; try exact I; try apply Forall_nil_2; unfold ingress_event_ok, kernel_reads;
      repeat apply Forall_cons_2; try exact I; try apply Forall_nil_2; apply Nat.leb_le; by vm_compute. }
  assert (∃ n, ingress_probe (ingress_session binary_codec false sample_ingress) =
    Some ([7; 9; 11], [(1%nat, 9); (0%nat, 7); (2%nat, 11)], n, 0%nat, false)) as [n Hp] by (eexists; vm_compute; reflexivity).
  rewrite Hrun in Hp |- *. injection Hp as Hq Hr _ Hlen Hcl. destruct (Hout Hcl) as [Hw _].
  rewrite (nil_length_inv _ Hlen), app_nil_r in Hw. by split_and!.
Defined.

(** A request read in the same call as the end of the stream is not dispatched. *)
Lemma request_before_eof_lost :
  match ingress_session binary_codec false
          [IngressIo false kReadable [RData (encode binary_codec (ingress_request 7)); RData []] [] []] with
  | Ok c => ih_requests c = [] ∧ ih_received c = encode binary_codec (ingress_request 7) ∧ ih_closed c = true
  | Err _ => False
  end.
Proof. vm_compute. by split_and!. Qed.
