(* ===== verification/WsFrame.v ===== *)
(** * WebSocket frames ([net/ws_frame.cc], [net/ws_frame.h])

    The frame encoder and the incremental decoder, over any byte queue. *)

From S2P Require Import Prelude.
From S2P Require Import Bytes.
From S2P Require Import Buffer.

Inductive WsOpcode := kContinuation | kText | kBinary | kClose | kPing | kPong.

Definition opcode_val (op : WsOpcode) : Z :=
  match op with
  | kContinuation => 0x0 | kText => 0x1 | kBinary => 0x2 | kClose => 0x8 | kPing => 0x9 | kPong => 0xA
  end.

Definition IsValidOpcode (op : Z) : bool :=
  match op with 0x0 | 0x1 | 0x2 | 0x8 | 0x9 | 0xA => true | _ => false end.

(** [static_cast<WsOpcode>], used on valid opcodes only. *)
Definition to_opcode (op : Z) : WsOpcode :=
  match op with
  | 0x0 => kContinuation | 0x1 => kText | 0x2 => kBinary | 0x8 => kClose | 0x9 => kPing | _ => kPong
  end.

Record WsFrame := mkFrame { f_fin : bool; f_opcode : WsOpcode; f_payload : bytes }.

Definition is_control (op : WsOpcode) : bool := negb (Z.land (opcode_val op) 0x08 =? 0).

Inductive WsDecode := WsIncomplete | WsComplete (f : WsFrame) | WsError (err : string).

(** Exclusive or of each byte with [key[i % 4]]. *)
Definition ws_mask (key payload : bytes) : bytes :=
  imap (λ i c, to_byte (Z.lxor (byte_val c) (byte_at key (i mod 4)))) payload.

(** The payload length and the header length so far; [None]: more bytes needed. *)
Definition ws_length (v : bytes) : option (Z * nat) :=
  let payload_len := Z.land (byte_at v 1) 0x7F in
  if payload_len =? 126 then
    if zlen v <? 4 then None
    else Some (Z.lor (Z.shiftl (byte_at v 2) 8) (byte_at v 3), 4%nat)
  else if payload_len =? 127 then
    if zlen v <? 10 then None else Some (get_be (take 8 (drop 2 v)), 10%nat)
  else Some (payload_len, 2%nat).

(** The masking key, when the frame is masked. *)
Definition ws_key (masked : bool) (v : bytes) (header_len : nat) : option (bytes * nat) :=
  if masked then
    if zlen v <? Z.of_nat header_len + 4 then None
    else Some (take 4 (drop header_len v), (header_len + 4)%nat)
  else Some ([], header_len).

Definition DecodeWsFrame {B} `{ByteQueue B} (max_payload : Z) (require_masked : bool) (in_ : B)
    : WsDecode * B :=
  let v := bq_view in_ in
  if zlen v <? 2 then (WsIncomplete, in_)
  else
    let b0 := byte_at v 0 in
    let b1 := byte_at v 1 in
    let fin := negb (Z.land b0 0x80 =? 0) in
    if negb (Z.land b0 0x70 =? 0) then (WsError "reserved bits set", in_)
    else
      let opcode := Z.land b0 0x0F in
      let masked := negb (Z.land b1 0x80 =? 0) in
      match ws_length v with
      | None => (WsIncomplete, in_)
      | Some (payload_len, header_len) =>
          match ws_key masked v header_len with
          | None => (WsIncomplete, in_)
          | Some (mask_key, header_len) =>
              if require_masked && negb masked then (WsError "unmasked client frame", in_)
              else if negb (IsValidOpcode opcode) then (WsError "invalid opcode", in_)
              else if negb (Z.land opcode 0x08 =? 0) && (negb fin || (125 <? payload_len))
              then (WsError "invalid control frame", in_)
              else if max_payload <? payload_len then (WsError "frame payload too large", in_)
              else
                let total := to_u64 (Z.of_nat header_len + payload_len) in
                if zlen v <? total then (WsIncomplete, in_)
                else
                  let payload := take (Z.to_nat payload_len) (drop header_len v) in
                  let payload := if masked then ws_mask mask_key payload else payload in
                  (WsComplete (mkFrame fin (to_opcode opcode) payload), bq_consume (Z.to_nat total) in_)
          end
      end.

(** The first two bytes and the extended length. *)
Definition ws_header (opcode : WsOpcode) (len : Z) (fin masked : bool) : bytes :=
  let mask_bit := if masked then 0x80 else 0x00 in
  to_byte (Z.lor (if fin then 0x80 else 0x00) (opcode_val opcode)) ::
  (if len <? 126 then [to_byte (Z.lor mask_bit len)]
   else if len <=? 0xFFFF then
     [to_byte (Z.lor mask_bit 126); to_byte (Z.land (Z.shiftr len 8) 0xFF); to_byte (Z.land len 0xFF)]
   else to_byte (Z.lor mask_bit 127) :: put_be len 8).

Definition EncodeWsFrame (opcode : WsOpcode) (payload : bytes) (fin : bool) (mask : option bytes) : bytes :=
  ws_header opcode (zlen payload) fin (match mask with Some _ => true | None => false end) ++
  match mask with
  | Some key => key ++ ws_mask key payload
  | None => payload
  end.

(** ** Masking *)
Lemma ws_mask_length key s : length (ws_mask key s) = length s.
Proof. unfold ws_mask. by rewrite length_imap. Qed.

Lemma lxor_byte a b : 0 ≤ a < 256 → 0 ≤ b < 256 → 0 ≤ Z.lxor a b < 256.
Proof.
  intros Ha Hb. split; [apply Z.lxor_nonneg; lia|].
  destruct (decide (Z.lxor a b = 0)) as [->|Hne]; [lia|]. apply (Z.log2_lt_pow2 _ 8).
  - assert (0 ≤ Z.lxor a b) by (apply Z.lxor_nonneg; lia). lia.
  - eapply Z.le_lt_trans; [apply Z.log2_lxor; lia|]. apply Z.max_lub_lt;
      (destruct (decide (0 < a)), (decide (0 < b)); try (apply Z.log2_lt_pow2; lia); by rewrite Z.log2_nonpos by lia).
Qed.

(** Masking twice with the same key is the identity. *)
Lemma ws_mask_mask key s : ws_mask key (ws_mask key s) = s.
Proof.
  unfold ws_mask. apply list_eq. intros i. rewrite !list_lookup_imap. destruct (s !! i) as [c|]; [|done]. simpl.
  pose proof (byte_val_range c). pose proof (byte_val_range (default "000"%char (key !! (i mod 4)%nat))) as Hk.
  fold (byte_at key (i mod 4)) in Hk. rewrite to_byte_small by (by apply lxor_byte).
  by rewrite Z.lxor_assoc, Z.lxor_nilpotent, Z.lxor_0_r, to_byte_val.
Qed.

(** ** The header is read back *)
Lemma b1_fields (masked : bool) n :
  0 ≤ n < 128 →
  let b := Z.lor (if masked then 0x80 else 0x00) n in
  0 ≤ b < 256 ∧ negb (Z.land b 0x80 =? 0) = masked ∧ Z.land b 0x7F = n.
Proof.
  intros Hn. assert (forallb (λ n, forallb (λ m : bool, let b := Z.lor (if m then 0x80 else 0x00) n in
    (0 <=? b) && (b <? 256) && Bool.eqb (negb (Z.land b 0x80 =? 0)) m && (Z.land b 0x7F =? n))
    [true; false]) (seqZ 0 128) = true) as H by (by vm_compute).
  rewrite forallb_forall in H. specialize (H n ltac:(apply list_elem_of_In, elem_of_seqZ; lia)).
  rewrite forallb_forall in H. specialize (H masked ltac:(destruct masked; simpl; auto)).
  cbn zeta in H |- *. bool_split. rewrite Bool.eqb_true_iff in *. done.
Qed.

Lemma b0_fields op (fin : bool) :
  let b := Z.lor (if fin then 0x80 else 0x00) (opcode_val op) in
  0 ≤ b < 256 ∧ negb (Z.land b 0x80 =? 0) = fin ∧ Z.land b 0x70 = 0 ∧ Z.land b 0x0F = opcode_val op.
Proof. destruct fin, op; vm_compute; done. Qed.

Lemma opcode_back op : IsValidOpcode (opcode_val op) = true ∧ to_opcode (opcode_val op) = op.
Proof. by destruct op. Qed.

Lemma byte_at_cons0 c s : byte_at (c :: s) 0 = byte_val c.
Proof. done. Qed.
Lemma byte_at_consS c s i : byte_at (c :: s) (S i) = byte_at s i.
Proof. done. Qed.

Lemma ws_header_length op len fin masked :
  length (ws_header op len fin masked) =
  if len <? 126 then 2%nat else if len <=? 0xFFFF then 4%nat else 10%nat.
Proof. unfold ws_header. repeat case_if; simpl; rewrite ?put_be_length; done. Qed.

Lemma ws_header_fields op len fin masked q :
  0 ≤ len < 2 ^ 64 →
  let v := ws_header op len fin masked ++ q in
  byte_at v 0 = Z.lor (if fin then 0x80 else 0x00) (opcode_val op) ∧
  negb (Z.land (byte_at v 1) 0x80 =? 0) = masked ∧
  ws_length v = Some (len, length (ws_header op len fin masked)).
Proof.
  intros Hlen v. assert (2 ≤ zlen v) as Hz.
  { unfold v. rewrite zlen_app. pose proof (zlen_nonneg q). unfold zlen in *. rewrite ws_header_length.
    repeat case_if; lia. }
  destruct (b0_fields op fin) as (H0 & _). rewrite ws_header_length. unfold ws_length.
  assert (zlen v = zlen (ws_header op len fin masked) + zlen q) as Hv by apply zlen_app.
  unfold zlen in Hv at 2. rewrite ws_header_length in Hv. pose proof (zlen_nonneg q).
  subst v. unfold ws_header. cbn [app]. rewrite byte_at_cons0, to_byte_small by done. split; [done|].
  rewrite !byte_at_consS. destruct (len <? 126) eqn:E1; [|destruct (len <=? 0xFFFF) eqn:E2]; bool_split; cbn [app].
  - destruct (b1_fields masked len ltac:(lia)) as (B1 & B2 & B3). rewrite byte_at_cons0, to_byte_small, B2, B3 by done.
    split; [done|]. do 2 (case_if; [lia|]). done.
  - destruct (b1_fields masked 126 ltac:(lia)) as (B1 & B2 & B3). rewrite byte_at_cons0, to_byte_small, B2, B3 by done.
    split; [done|]. rewrite Z.eqb_refl. unfold zlen. cbn [length]. case_if; [lia|].
    rewrite !byte_at_consS, !byte_at_cons0, !byte_val_to_byte.
    f_equal. f_equal. rewrite !(Z.land_ones _ 8), Z.shiftr_div_pow2, !Z.mod_mod by lia. change (2 ^ 8) with 256.
    rewrite Z.lor_comm, lor_shift_add by (try apply Z.mod_pos_bound; lia).
    pose proof (Z.div_mod len 256 ltac:(lia)). rewrite (Z.mod_small (len / 256)); [lia|].
    split; [apply Z.div_pos; lia|apply Z.div_lt_upper_bound; lia].
  - destruct (b1_fields masked 127 ltac:(lia)) as (B1 & B2 & B3). rewrite byte_at_cons0, to_byte_small, B2, B3 by done.
    split; [done|]. cbn [Z.eqb Pos.eqb]. case_if.
    { unfold zlen in *. cbn [length app] in *. rewrite length_app, put_be_length in *. lia. }
    cbn [drop app]. f_equal. f_equal.
    rewrite drop_0, take_app_length' by (by rewrite put_be_length). by apply get_put_be.
Qed.

(** What the decoder accepts: the limits it enforces. *)
Record frame_valid (max_payload : Z) (require_masked : bool) (f : WsFrame) (mask : option bytes) : Prop := {
  fv_len : zlen (f_payload f) ≤ max_payload;
  fv_size : zlen (f_payload f) < 2 ^ 63;
  fv_control : is_control (f_opcode f) = true → f_fin f = true ∧ zlen (f_payload f) ≤ 125;
  fv_masked : require_masked = true → mask ≠ None;
  fv_key : ∀ key, mask = Some key → length key = 4%nat;
}.

Definition frame_bytes (f : WsFrame) (mask : option bytes) : bytes :=
  EncodeWsFrame (f_opcode f) (f_payload f) (f_fin f) mask.
Definition has_mask (mask : option bytes) : bool := match mask with Some _ => true | None => false end.

(** The guards on the header let a valid frame pass. *)
Lemma guards_pass mp rm f mask :
  frame_valid mp rm f mask →
  rm && negb (has_mask mask) = false ∧
  negb (Z.land (opcode_val (f_opcode f)) 0x08 =? 0) && (negb (f_fin f) || (125 <? zlen (f_payload f))) = false ∧
  (mp <? zlen (f_payload f)) = false.
Proof.
  intros [H1 H2 H3 H4 H5]. split_and!.
  - destruct rm, mask; try done. by destruct H4.
  - fold (is_control (f_opcode f)). destruct (is_control (f_opcode f)); [|done].
    destruct H3 as [-> ?]; [done|]. simpl. apply Z.ltb_ge. lia.
  - apply Z.ltb_ge. lia.
Qed.

(** The bytes after the header: key and payload. *)
Definition frame_body (f : WsFrame) (mask : option bytes) : bytes :=
  match mask with Some key => key ++ ws_mask key (f_payload f) | None => f_payload f end.

Lemma frame_bytes_split f mask :
  frame_bytes f mask =
  ws_header (f_opcode f) (zlen (f_payload f)) (f_fin f) (has_mask mask) ++ frame_body f mask.
Proof. done. Qed.

Definition header_size (f : WsFrame) (mask : option bytes) : nat :=
  (length (ws_header (f_opcode f) (zlen (f_payload f)) (f_fin f) (has_mask mask)) +
   if has_mask mask then 4 else 0)%nat.

Lemma frame_bytes_length mp rm f mask :
  frame_valid mp rm f mask →
  zlen (frame_bytes f mask) = Z.of_nat (header_size f mask) + zlen (f_payload f) ∧
  to_u64 (Z.of_nat (header_size f mask) + zlen (f_payload f)) = zlen (frame_bytes f mask).
Proof.
  intros [_ Hsz _ _ Hk]. rewrite frame_bytes_split, zlen_app. unfold header_size, frame_body.
  assert (zlen (match mask with Some key => key ++ ws_mask key (f_payload f) | None => f_payload f end) =
          (if has_mask mask then 4 else 0) + zlen (f_payload f)) as ->.
  { destruct mask as [key|]; simpl; [|done]. rewrite zlen_app. unfold zlen.
    by rewrite ws_mask_length, (Hk key eq_refl). }
  pose proof (ws_header_length (f_opcode f) (zlen (f_payload f)) (f_fin f) (has_mask mask)) as Hl.
  set (hl := length (ws_header _ _ _ _)) in *. assert (hl ≤ 10)%nat by (rewrite Hl; repeat case_if; lia).
  change (zlen (ws_header _ _ _ _)) with (Z.of_nat hl). pose proof (zlen_nonneg (f_payload f)).
  unfold to_u64. destruct (has_mask mask); (split; [lia|rewrite Z.mod_small; lia]).
Qed.

Lemma ws_decode_encoded {B} `{ByteQueue B} (b : B) mp rm f mask rest :
  bq_ok b → frame_valid mp rm f mask → bq_view b = frame_bytes f mask ++ rest →
  ∃ b', DecodeWsFrame mp rm b = (WsComplete f, b') ∧ bq_ok b' ∧ bq_view b' = rest.
Proof.
  intros Hb Hf Hv. destruct (frame_bytes_length mp rm f mask Hf) as [Hl Htot].
  destruct (guards_pass mp rm f mask Hf) as (G1 & G2 & G3).
  pose proof (zlen_nonneg (f_payload f)) as Hp. pose proof (zlen_nonneg rest).
  destruct (ws_header_fields (f_opcode f) (zlen (f_payload f)) (f_fin f) (has_mask mask) (frame_body f mask ++ rest))
    as (F0 & F1 & F2); [pose proof (fv_size _ _ _ _ Hf); lia|].
  pose proof (ws_header_length (f_opcode f) (zlen (f_payload f)) (f_fin f) (has_mask mask)) as Hhl.
  set (hd := ws_header _ _ _ _) in *. assert (2 ≤ length hd)%nat by (rewrite Hhl; repeat case_if; lia).
  assert (bq_view b = hd ++ frame_body f mask ++ rest) as Hv' by (by rewrite Hv, frame_bytes_split, <-app_assoc).
  destruct (b0_fields (f_opcode f) (f_fin f)) as (_ & B1 & B2 & B3). destruct (opcode_back (f_opcode f)) as [O1 O2].
  unfold DecodeWsFrame. rewrite Hv', F0, F1, F2, B2, B3, B1. change (0 =? 0) with true. cbn [negb].
  rewrite zlen_app. unfold zlen at 1. case_if; [pose proof (zlen_nonneg (frame_body f mask ++ rest)); lia|].
  assert (ws_key (has_mask mask) (hd ++ frame_body f mask ++ rest) (length hd) =
          Some (default [] mask, header_size f mask)) as ->.
  { unfold ws_key, header_size. fold hd. destruct mask as [key|]; cbn [has_mask frame_body default from_option id];
      [|by rewrite Nat.add_0_r].
    rewrite drop_app_length, <-app_assoc, take_app_length' by (symmetry; by apply (fv_key _ _ _ _ Hf)).
    rewrite !zlen_app. unfold zlen at 1 2. rewrite (fv_key _ _ _ _ Hf key eq_refl).
    pose proof (zlen_nonneg (ws_mask key (f_payload f))). case_if; [lia|done]. }
  rewrite G1, O1, G2. cbn [negb]. case_if; [lia|]. rewrite Htot, <-Hv', Hv.
  assert (zlen hd + zlen (frame_body f mask) = zlen (frame_bytes f mask)) by (by rewrite frame_bytes_split, zlen_app).
  rewrite zlen_app. case_if; [lia|].
  eexists. split; [|split; [by apply consume_ok|]].
  - rewrite O2. f_equal. f_equal. destruct f as [fin op pl]. cbn [f_fin f_opcode f_payload] in *. f_equal.
    rewrite <-Hv, Hv'. unfold header_size. fold hd. destruct mask as [key|]; cbn [has_mask frame_body default f_payload].
    + rewrite <-drop_drop, drop_app_length, <-!app_assoc.
      rewrite drop_app_length' by (symmetry; by apply (fv_key _ _ _ _ Hf)).
      unfold zlen. rewrite Nat2Z.id, take_app_length' by (by rewrite ws_mask_length). apply ws_mask_mask.
    + rewrite Nat.add_0_r, drop_app_length. unfold zlen. rewrite Nat2Z.id. by rewrite take_app_length.
  - rewrite consume_view, Hv by done. apply drop_zlen.
Qed.

(** A longer view of the same bytes gives the same length and key, once they
    can be read at all. *)
Lemma ws_length_prefix v q r : 2 ≤ zlen v → ws_length (v ++ q) = r → ws_length v = None ∨ ws_length v = r.
Proof.
  unfold zlen. intros Hv <-. unfold ws_length. rewrite zlen_app, !byte_at_app_l by lia.
  pose proof (zlen_nonneg q). unfold zlen in *. repeat case_if; auto; try lia.
  - rewrite !byte_at_app_l by lia. auto.
  - right. rewrite drop_app_le, take_app_le by (rewrite ?length_drop; lia). done.
Qed.

Lemma ws_decode_prefix {B} `{ByteQueue B} (b : B) mp rm f mask missing :
  frame_valid mp rm f mask → bq_view b ++ missing = frame_bytes f mask → missing ≠ [] →
  DecodeWsFrame mp rm b = (WsIncomplete, b).
Proof.
  intros Hf Hv Hne. destruct (frame_bytes_length mp rm f mask Hf) as [Hl Htot].
  destruct (guards_pass mp rm f mask Hf) as (G1 & G2 & G3).
  destruct (ws_header_fields (f_opcode f) (zlen (f_payload f)) (f_fin f) (has_mask mask) (frame_body f mask))
    as (F0 & F1 & F2); [pose proof (fv_size _ _ _ _ Hf); pose proof (zlen_nonneg (f_payload f)); lia|].
  rewrite <-frame_bytes_split, <-Hv in F0, F1, F2.
  assert (0 < zlen missing) by (unfold zlen; destruct missing; [done|simpl; lia]).
  assert (zlen (bq_view b) < zlen (frame_bytes f mask)) as Hlt by (rewrite <-Hv, zlen_app; lia).
  destruct (b0_fields (f_opcode f) (f_fin f)) as (_ & B1 & B2 & B3). destruct (opcode_back (f_opcode f)) as [O1 O2].
  unfold DecodeWsFrame. destruct (Z.ltb_spec (zlen (bq_view b)) 2) as [|Hge]; [done|].
  rewrite byte_at_app_l in F0, F1 by (unfold zlen in *; lia).
  rewrite F0, F1, B1, B2, B3. change (0 =? 0) with true. cbn [negb].
  destruct (ws_length_prefix _ _ _ Hge F2) as [->| ->]; [done|].
  set (hl := length (ws_header _ _ _ _)) in *. set (v := bq_view b) in *.
  assert (ws_key (has_mask mask) v hl = None ∨ ∃ key, ws_key (has_mask mask) v hl = Some (key, header_size f mask))
    as [->|[key ->]]; [|done|].
  { unfold ws_key, header_size. fold hl. destruct (has_mask mask); [case_if; eauto|]. rewrite Nat.add_0_r. eauto. }
  rewrite G1, O1, G2, G3, Htot. cbn [negb]. case_if; [done|lia].
Qed.

(** WebSocket round trip.  A queue that starts with an encoded frame within
    the limits, masked or not, decodes to that frame, consuming exactly its
    bytes; a queue that holds a strict prefix of it is left waiting. *)
Lemma ws_frame_roundtrip {B} `{ByteQueue B} (b : B) max_payload require_masked f mask :
  bq_ok b → frame_valid max_payload require_masked f mask →
  (∀ rest, bq_view b = frame_bytes f mask ++ rest →
     ∃ b', DecodeWsFrame max_payload require_masked b = (WsComplete f, b') ∧ bq_ok b' ∧ bq_view b' = rest) ∧
  (∀ missing, bq_view b ++ missing = frame_bytes f mask → missing ≠ [] →
     DecodeWsFrame max_payload require_masked b = (WsIncomplete, b)).
Proof.
  intros Hb Hf. split; [intros rest; by apply ws_decode_encoded|intros missing; by apply ws_decode_prefix].
Qed.

Definition sample_frame : WsFrame := mkFrame true kText (lit "order accepted").
Definition sample_key : bytes := [to_byte 0x37; to_byte 0xfa; to_byte 0x21; to_byte 0x3d].

Lemma sample_frame_valid : frame_valid 1024 true sample_frame (Some sample_key).
Proof. split; try done. by intros key [= <-]. Qed.

Lemma ws_frame_roundtrip_witness :
  match DecodeWsFrame 1024 true (buffer_append (frame_bytes sample_frame (Some sample_key) ++ lit "xy") new_buffer) with
  | (WsComplete f, b) => f = sample_frame ∧ buffer_view b = lit "xy"
  | _ => False
  end.
Proof.
  set (b := buffer_append _ _).
  assert (buffer_ok b) as Hb by apply buffer_append_ok, new_buffer_ok.
  destruct (@ws_frame_roundtrip Buffer buffer_queue b 1024 true sample_frame (Some sample_key) Hb sample_frame_valid) as [Hd _].
  destruct (Hd (lit "xy")) as (b' & -> & _ & Hv); [by vm_compute|done].
Defined.

Lemma valid_opcode o : IsValidOpcode o = true → opcode_val (to_opcode o) = o.
Proof. unfold IsValidOpcode. intros H. repeat case_match; done. Qed.

Lemma ws_length_bounds v pl hl : ws_length v = Some (pl, hl) → 0 ≤ pl ∧ (2 ≤ hl ≤ 10)%nat.
Proof.
  unfold ws_length. repeat case_if; intros [= <- <-]; (split; [|lia]).
  - apply Z.lor_nonneg. rewrite Z.shiftl_nonneg. split; apply byte_val_range.
  - apply get_be_nonneg.
  - apply Z.land_nonneg. left. apply byte_val_range.
Qed.

(** The decoder's limits.  Whatever the bytes: a frame it returns is within
    the payload limit, a control frame is final and short, and (when masks are
    required) was masked; the bytes consumed were all there; an error or a
    partial frame consumes nothing. *)
Lemma ws_decode_limits {B} `{ByteQueue B} (b : B) max_payload require_masked :
  bq_ok b → 0 ≤ max_payload < 2 ^ 63 →
  match DecodeWsFrame max_payload require_masked b with
  | (WsComplete f, b') =>
      zlen (f_payload f) ≤ max_payload ∧
      (is_control (f_opcode f) = true → f_fin f = true ∧ zlen (f_payload f) ≤ 125) ∧
      (require_masked = true → Z.testbit (byte_at (bq_view b) 1) 7 = true) ∧
      ∃ n, (2 + length (f_payload f) ≤ n ≤ length (bq_view b))%nat ∧ bq_view b' = drop n (bq_view b)
  | (_, b') => b' = b
  end.
Proof.
  intros Hb Hmp. unfold DecodeWsFrame. set (v := bq_view b). repeat (case_if; [done|]).
  destruct (ws_length v) as [[pl hl]|] eqn:El; [|done].
  destruct (ws_length_bounds _ _ _ El) as [Hpl Hhl].
  destruct (ws_key _ v hl) as [[key hl']|] eqn:Ek; [|done].
  assert (hl ≤ hl' ≤ 14)%nat as Hhl'.
  { revert Ek. unfold ws_key. repeat case_if; intros [= <- <-]; lia. }
  destruct (require_masked && _) eqn:Em; [done|]. case_if; [done|].
  destruct (negb (Z.land (Z.land _ _) 8 =? 0) && _) eqn:Ec; [done|]. case_if; [done|].
  assert (to_u64 (Z.of_nat hl' + pl) = Z.of_nat hl' + pl) as Htot by (unfold to_u64; apply Z.mod_small; lia).
  rewrite Htot. case_if; [done|]. cbn [f_payload f_opcode f_fin].
  assert (length (take (Z.to_nat pl) (drop hl' v)) = Z.to_nat pl) as Hlen.
  { unfold zlen in *. rewrite length_take, length_drop. lia. }
  match goal with |- zlen ?p ≤ _ ∧ _ => assert (length p = Z.to_nat pl) as Hp end.
  { case_if; by rewrite ?ws_mask_length. }
  split_and!.
  - unfold zlen. rewrite Hp. lia.
  - unfold is_control. rewrite valid_opcode by done. intros Hctl. rewrite Hctl in Ec. simpl in Ec. bool_split.
    split; [by apply negb_true_iff, Z.eqb_neq|]. unfold zlen. rewrite Hp. lia.
  - intros ->. simpl in Em. bool_split. destruct (Z.testbit (byte_at v 1) 7) eqn:Et; [done|].
    destruct Em. apply Z.bits_inj'. intros n Hn. rewrite Z.land_spec, Z.bits_0.
    change 128 with (2 ^ 7). rewrite Z.pow2_bits_eqb by lia.
    destruct (Z.eqb_spec 7 n) as [<-|]; [by rewrite Et|by rewrite andb_false_r].
  - exists (Z.to_nat (Z.of_nat hl' + pl)). rewrite Hp, consume_view by done. split; [unfold zlen in *; lia|done].
Qed.

Lemma ws_decode_limits_witness :
  let b := buffer_append (frame_bytes sample_frame (Some sample_key)) new_buffer in
  match DecodeWsFrame 1024 true b with
  | (WsComplete f, b') =>
      f = sample_frame ∧ zlen (f_payload f) ≤ 1024 ∧
      ∃ n, (2 + length (f_payload f) ≤ n ≤ length (buffer_view b))%nat ∧ buffer_view b' = drop n (buffer_view b)
  | _ => False
  end.
Proof.
  intros b. assert (buffer_ok b) as Hb by apply buffer_append_ok, new_buffer_ok.
  assert ((DecodeWsFrame 1024 true b).1 = WsComplete sample_frame) as He by (by vm_compute).
  pose proof (@ws_decode_limits Buffer buffer_queue b 1024 true Hb ltac:(done)) as Hl.
  destruct (DecodeWsFrame 1024 true b) as [d b']. cbn [fst] in He. rewrite He in Hl |- *.
  destruct Hl as (H1 & _ & _ & H4). by split_and!.
Defined.
