(* ===== verification/HttpParser.v ===== *)
(** * The HTTP request parser ([net/http_parser.cc], [net/http_message.cc])

    The incremental parser of one HTTP/1.x request at a time: request line,
    headers, framing, and bodies by length or in chunks.  [size_t] values are
    64-bit and wrap where the code's do. *)

From S2P Require Import Prelude.
From S2P Require Import Bytes.
From S2P Require Import Buffer.

Definition CR : ascii := ascii_of_nat 13.
Definition LF : ascii := ascii_of_nat 10.
Definition HT : ascii := ascii_of_nat 9.
Definition SP : ascii := " ".
Definition kCrlf : bytes := [CR; LF].
Definition kCrlfCrlf : bytes := [CR; LF; CR; LF].

(** ** Character classes *)
Definition tolower (c : ascii) : Z :=
  let u := byte_val c in if (65 <=? u) && (u <=? 90) then u + 32 else u.

Fixpoint IEquals (a b : bytes) : bool :=
  match a, b with
  | [], [] => true
  | x :: a, y :: b => (tolower x =? tolower y) && IEquals a b
  | _, _ => false
  end.

Definition IsTokenChar (c : ascii) : bool :=
  let u := byte_val c in
  if (48 <=? u) && (u <=? 57) || (65 <=? u) && (u <=? 90) || (97 <=? u) && (u <=? 122) then true
  else existsb (Ascii.eqb c) (lit "!#$%&'*+-.^_`|~").

Definition IsToken (s : bytes) : bool :=
  match s with [] => false | _ => forallb IsTokenChar s end.

Definition ctl (c : ascii) : bool :=
  let u := byte_val c in (u <? 0x20) && negb (Ascii.eqb c HT) || (u =? 0x7F).
Definition HasCtl (s : bytes) : bool := existsb ctl s.

Definition ows (c : ascii) : bool := Ascii.eqb c SP || Ascii.eqb c HT.
Fixpoint trim_front (s : bytes) : bytes :=
  match s with c :: t => if ows c then trim_front t else s | [] => [] end.
Definition TrimOws (s : bytes) : bytes := reverse (trim_front (reverse (trim_front s))).

(** The value of a chunk-size line; extensions after ';' are ignored. *)
Definition hex_val (c : ascii) : option Z :=
  let u := byte_val c in
  if (48 <=? u) && (u <=? 57) then Some (u - 48)
  else if (97 <=? u) && (u <=? 102) then Some (10 + (u - 97))
  else if (65 <=? u) && (u <=? 70) then Some (10 + (u - 65))
  else None.

Fixpoint hex_digits (value : Z) (digits : nat) (s : bytes) : option (Z * nat) :=
  match s with
  | [] => Some (value, digits)
  | c :: s =>
      if Ascii.eqb c ";" then Some (value, digits)
      else match hex_val c with
           | None => None
           | Some d => hex_digits (to_u64 (value * 16 + d)) (S digits) s
           end
  end.

Definition ParseHexSize (s : bytes) : option Z :=
  match hex_digits 0 0 s with
  | Some (value, digits) => if (digits =? 0)%nat then None else Some value
  | None => None
  end.

(** ** Messages *)
Record HttpHeader := mkHeader { h_name : bytes; h_value : bytes }.

Record HttpRequest := mkRequest {
  q_method : bytes;
  q_target : bytes;
  q_path : bytes;
  q_query : bytes;
  q_minor : Z;
  q_headers : list HttpHeader;
  q_body : bytes;
  q_keep_alive : bool;
}.

Definition empty_request : HttpRequest := mkRequest [] [] [] [] 1 [] [] true.

(** Case-insensitive lookup, first match. *)
Fixpoint find_header (name : bytes) (hs : list HttpHeader) : option bytes :=
  match hs with
  | [] => None
  | h :: hs => if IEquals (h_name h) name then Some (h_value h) else find_header name hs
  end.

(** ** Parser state *)
Inductive Progress := Incomplete | Complete | Error.
Inductive State := kHead | kBodyLength | kBodyChunked | kComplete | kFailed.
Inductive ChunkPhase := kSize | kData | kDataCrlf | kTrailer.

Record Parser := mkParser {
  state_ : State;
  request_ : HttpRequest;
  error_ : string;
  body_remaining_ : Z;
  chunk_phase_ : ChunkPhase;
  chunk_remaining_ : Z;
  body_total_ : Z;
}.

(** A new parser, and what [reset] makes of any parser. *)
Definition reset : Parser := mkParser kHead empty_request "" 0 kSize 0 0.

Definition with_body (r : HttpRequest) (body : bytes) : HttpRequest :=
  mkRequest (q_method r) (q_target r) (q_path r) (q_query r) (q_minor r) (q_headers r) body (q_keep_alive r).
Definition set_state (s : State) (p : Parser) : Parser :=
  mkParser s (request_ p) (error_ p) (body_remaining_ p) (chunk_phase_ p) (chunk_remaining_ p) (body_total_ p).
Definition set_phase (c : ChunkPhase) (p : Parser) : Parser :=
  mkParser (state_ p) (request_ p) (error_ p) (body_remaining_ p) c (chunk_remaining_ p) (body_total_ p).
Definition fail (msg : string) (p : Parser) : Parser :=
  mkParser kFailed (request_ p) msg (body_remaining_ p) (chunk_phase_ p) (chunk_remaining_ p) (body_total_ p).

(** ** The head *)

(** The pieces of the block between its CRLFs. *)
Fixpoint split_crlf (cur s : bytes) : list bytes :=
  match s with
  | [] => [cur]
  | [c] => [cur ++ [c]]
  | c :: ((d :: t) as s) =>
      if Ascii.eqb c CR && Ascii.eqb d LF then cur :: split_crlf [] t else split_crlf (cur ++ [c]) s
  end.

Definition parse_version (version : bytes) : option Z :=
  if bool_decide (version = lit "HTTP/1.0") then Some 0
  else if bool_decide (version = lit "HTTP/1.1") then Some 1 else None.

(** METHOD SP TARGET SP VERSION, then the target's path and query. *)
Definition parse_request_line (request_line : bytes) : string + HttpRequest :=
  match find_char SP request_line with
  | None => inl "malformed request line"
  | Some sp1 =>
      let rest := drop (sp1 + 1) request_line in
      match find_char SP rest with
      | None => inl "malformed request line"
      | Some sp2 =>
          let method := take sp1 request_line in
          let target := take sp2 rest in
          match parse_version (drop (sp2 + 1) rest) with
          | None => inl "unsupported HTTP version"
          | Some minor =>
              if (length method =? 0)%nat || (length target =? 0)%nat then inl "empty method or target"
              else if negb (IsToken method) then inl "invalid method"
              else if HasCtl target then inl "control character in target"
              else
                let '(path, query) :=
                  match find_char "?" target with
                  | None => (target, [])
                  | Some q => (take q target, drop (q + 1) target)
                  end in
                inr (mkRequest method target path query minor [] [] true)
          end
      end
  end.

(** One header line; [None] for an empty line, which is skipped. *)
Definition parse_header_line (line : bytes) : string + option HttpHeader :=
  match line with
  | [] => inr None
  | c :: _ =>
      if ows c then inl "obsolete header line folding"
      else match find_char ":" line with
           | None => inl "malformed header line"
           | Some colon =>
               let name := take colon line in
               let value := TrimOws (drop (colon + 1) line) in
               if negb (IsToken name) then inl "invalid header name"
               else if HasCtl value then inl "control character in header value"
               else inr (Some (mkHeader name value))
           end
  end.

Fixpoint parse_headers (lines : list bytes) (acc : list HttpHeader) : string + list HttpHeader :=
  match lines with
  | [] => inr acc
  | l :: lines =>
      match parse_header_line l with
      | inl e => inl e
      | inr None => parse_headers lines acc
      | inr (Some h) => parse_headers lines (acc ++ [h])
      end
  end.

Definition resolve_keep_alive (minor : Z) (hs : list HttpHeader) : bool :=
  let ka := minor =? 1 in
  match find_header (lit "Connection") hs with
  | Some conn =>
      if IEquals (TrimOws conn) (lit "close") then false
      else if IEquals (TrimOws conn) (lit "keep-alive") then true else ka
  | None => ka
  end.

(** The last Content-Length value; all must agree. *)
Fixpoint content_length (cl : option bytes) (hs : list HttpHeader) : string + option bytes :=
  match hs with
  | [] => inr cl
  | h :: hs =>
      if negb (IEquals (h_name h) (lit "Content-Length")) then content_length cl hs
      else match cl with
           | Some v =>
               if negb (bool_decide (TrimOws (h_value h) = TrimOws v)) then inl "conflicting Content-Length"
               else content_length (Some (h_value h)) hs
           | None => content_length (Some (h_value h)) hs
           end
  end.

Definition kMaxSize : Z := 2 ^ 64 - 1.

Fixpoint length_digits (len : Z) (s : bytes) : string + Z :=
  match s with
  | [] => inr len
  | c :: s =>
      if negb (isdigit c) then inl "invalid Content-Length"
      else if (kMaxSize - 9) / 10 <? len then inl "Content-Length overflow"
      else length_digits (len * 10 + digit_val c) s
  end.

(** How the body is framed: the next state, and the length when one is given. *)
Definition framing (max_body : Z) (hs : list HttpHeader) : string + State * option Z :=
  let te := find_header (lit "Transfer-Encoding") hs in
  match content_length None hs with
  | inl e => inl e
  | inr cl =>
      match te, cl with
      | Some _, Some _ => inl "Content-Length with Transfer-Encoding"
      | Some te, None =>
          if IEquals (TrimOws te) (lit "chunked") then inr (kBodyChunked, None)
          else inl "unsupported Transfer-Encoding"
      | None, Some cl =>
          match length_digits 0 (TrimOws cl) with
          | inl e => inl e
          | inr len =>
              if max_body <? len then inl "body exceeds limit"
              else inr (if len =? 0 then kComplete else kBodyLength, Some len)
          end
      | None, None => inr (kComplete, None)
      end
  end.

(** The request a failed head leaves behind is not observable: [request()] is
    read only after completion. *)
Definition parse_head (max_body : Z) (block : bytes) (p : Parser) : string + Parser :=
  match split_crlf [] block with
  | [] => inl "malformed request line"
  | request_line :: lines =>
      match parse_request_line request_line with
      | inl e => inl e
      | inr r =>
          match parse_headers lines [] with
          | inl e => inl e
          | inr hs =>
              let r := mkRequest (q_method r) (q_target r) (q_path r) (q_query r) (q_minor r) hs
                         (q_body (request_ p)) (resolve_keep_alive (q_minor r) hs) in
              match framing max_body hs with
              | inl e => inl e
              | inr (s, len) =>
                  inr (mkParser s r (error_ p)
                         (default (body_remaining_ p) len)
                         (match s with kBodyChunked => kSize | _ => chunk_phase_ p end)
                         (chunk_remaining_ p) (body_total_ p))
              end
          end
      end
  end.

(** ** The body *)
Section Parse.
Context {B : Type} `{ByteQueue B} (max_header_bytes_ max_body_bytes_ : Z).

(** One pass through the loop of [parse_chunked]; [None]: go on. *)
Definition chunk_step (p : Parser) (in_ : B) : option Progress * Parser * B :=
  let v := bq_view in_ in
  match chunk_phase_ p with
  | kSize =>
      match find_str kCrlf v with
      | None =>
          if 1024 <? zlen v then (Some Error, fail "chunk-size line too long" p, in_)
          else (Some Incomplete, p, in_)
      | Some eol =>
          match ParseHexSize (take eol v) with
          | None => (Some Error, fail "invalid chunk size" p, in_)
          | Some size =>
              let in_ := bq_consume (eol + 2) in_ in
              if size =? 0 then (None, set_phase kTrailer p, in_)
              else
                let total := to_u64 (body_total_ p + size) in
                let p := mkParser (state_ p) (request_ p) (error_ p) (body_remaining_ p) (chunk_phase_ p)
                           (chunk_remaining_ p) total in
                if max_body_bytes_ <? total then (Some Error, fail "body exceeds limit" p, in_)
                else (None, mkParser (state_ p) (request_ p) (error_ p) (body_remaining_ p) kData size total, in_)
          end
      end
  | kData =>
      let n := Z.to_nat (Z.min (zlen v) (chunk_remaining_ p)) in
      let left := chunk_remaining_ p - Z.of_nat n in
      let p := mkParser (state_ p) (with_body (request_ p) (q_body (request_ p) ++ take n v)) (error_ p)
                 (body_remaining_ p) (chunk_phase_ p) left (body_total_ p) in
      let in_ := bq_consume n in_ in
      if 0 <? left then (Some Incomplete, p, in_) else (None, set_phase kDataCrlf p, in_)
  | kDataCrlf =>
      match v with
      | c :: d :: _ =>
          if negb (Ascii.eqb c CR) || negb (Ascii.eqb d LF)
          then (Some Error, fail "missing CRLF after chunk data" p, in_)
          else (None, set_phase kSize p, bq_consume 2 in_)
      | _ => (Some Incomplete, p, in_)
      end
  | kTrailer =>
      match find_str kCrlf v with
      | None => (Some Incomplete, p, in_)
      | Some eol =>
          let in_ := bq_consume (eol + 2) in_ in
          if (eol =? 0)%nat then (Some Complete, set_state kComplete p, in_) else (None, p, in_)
      end
  end.

Fixpoint parse_chunked (fuel : nat) (p : Parser) (in_ : B) : res (Progress * Parser * B) :=
  match fuel with
  | O => Err OutOfFuel
  | S fuel =>
      let '(r, p, in_) := chunk_step p in_ in
      match r with
      | Some g => Ok (g, p, in_)
      | None => parse_chunked fuel p in_
      end
  end.

(** One pass through the loop of [parse]. *)
Definition parse_step (p : Parser) (in_ : B) : res (option Progress * Parser * B) :=
  let v := bq_view in_ in
  match state_ p with
  | kHead =>
      match find_str kCrlfCrlf v with
      | None =>
          if max_header_bytes_ <? zlen v then Ok (Some Error, fail "header block too large" p, in_)
          else Ok (Some Incomplete, p, in_)
      | Some term =>
          if max_header_bytes_ <? Z.of_nat term then Ok (Some Error, fail "header block too large" p, in_)
          else match parse_head max_body_bytes_ (take term v) p with
               | inl e => Ok (Some Error, fail e p, in_)
               | inr p => Ok (None, p, bq_consume (term + 4) in_)
               end
      end
  | kBodyLength =>
      let n := Z.to_nat (Z.min (zlen v) (body_remaining_ p)) in
      let left := body_remaining_ p - Z.of_nat n in
      let p := mkParser (state_ p) (with_body (request_ p) (q_body (request_ p) ++ take n v)) (error_ p)
                 left (chunk_phase_ p) (chunk_remaining_ p) (body_total_ p) in
      let in_ := bq_consume n in_ in
      if 0 <? left then Ok (Some Incomplete, p, in_) else Ok (None, set_state kComplete p, in_)
  | kBodyChunked =>
      '(g, p, in_) ← parse_chunked (S (length v)) p in_;
      match g with Complete => Ok (None, p, in_) | _ => Ok (Some g, p, in_) end
  | kComplete => Ok (Some Complete, p, in_)
  | kFailed => Ok (Some Error, p, in_)
  end.

(** Head, body, completion: at most three passes. *)
Fixpoint parse_loop (fuel : nat) (p : Parser) (in_ : B) : res (Progress * Parser * B) :=
  match fuel with
  | O => Err OutOfFuel
  | S fuel =>
      '(r, p, in_) ← parse_step p in_;
      match r with
      | Some g => Ok (g, p, in_)
      | None => parse_loop fuel p in_
      end
  end.

Definition parse (p : Parser) (in_ : B) : res (Progress * Parser * B) := parse_loop 3 p in_.
End Parse.
