(* ===== verification/HttpResume.v ===== *)
(** * The HTTP parser is incremental

    Parsing does not depend on how the bytes arrive: a parser that asked for
    more and is then given more ends where one that had all the bytes at once
    ends.  Parsing always returns. *)

From S2P Require Import Prelude.
From S2P Require Import Bytes.
From S2P Require Import Buffer.
From S2P Require Import HttpParser.

(** ** Only the unconsumed bytes matter *)
Section View.
Context {B : Type} `{ByteQueue B} (mh mb : Z).

(** A result over a queue is the result over its bytes. *)
Definition viewed {R} (x : R * Parser * B) (y : R * Parser * bytes) : Prop :=
  x.1 = y.1 ∧ bq_ok x.2 ∧ bq_view x.2 = y.2.

Lemma chunk_step_view p b :
  bq_ok b → viewed (chunk_step mb p b) (chunk_step mb p (bq_view b)).
Proof.
  intros Hb. unfold chunk_step, viewed. simpl. repeat case_match; simpl; simplify_eq;
    (split; [done|]); (split; [by auto using consume_ok|]); rewrite ?consume_view by done;
    first [done|by rewrite drop_0; match goal with Hv : bq_view b = _ |- _ => rewrite Hv end].
Qed.

Lemma parse_chunked_view fuel : ∀ p b,
  bq_ok b →
  match parse_chunked mb fuel p b, parse_chunked mb fuel p (bq_view b) with
  | Ok x, Ok y => viewed x y
  | Err e, Err e' => e = e'
  | _, _ => False
  end.
Proof.
  induction fuel as [|fuel IH]; intros p b Hb; [done|]. cbn [parse_chunked].
  pose proof (chunk_step_view p b Hb) as (H1 & H2 & H3).
  destruct (chunk_step mb p b) as [[r p1] b1], (chunk_step mb p (bq_view b)) as [[r' p1'] b1'].
  simpl in H1, H2, H3. simplify_eq. destruct r' as [g|]; [done|]. by apply IH.
Qed.

Lemma parse_step_view p b :
  bq_ok b →
  match parse_step mh mb p b, parse_step mh mb p (bq_view b) with
  | Ok x, Ok y => viewed x y
  | Err e, Err e' => e = e'
  | _, _ => False
  end.
Proof.
  intros Hb. unfold parse_step. cbn [bq_view list_queue]. destruct (state_ p).
  - repeat case_match; simplify_eq; unfold viewed; simpl; rewrite ?consume_view by done; auto using consume_ok.
  - repeat case_match; simplify_eq; unfold viewed; simpl; rewrite ?consume_view by done; auto using consume_ok.
  - pose proof (parse_chunked_view (S (length (bq_view b))) p b Hb) as Hv.
    destruct (parse_chunked mb _ p b) as [[[g p1] b1]|e], (parse_chunked mb _ p (bq_view b)) as [[[g' p1'] b1']|e'];
      try done; simpl; try (by subst).
    destruct Hv as (H1 & H2 & H3). simpl in H1, H2, H3. simplify_eq. by destruct g'.
  - done.
  - done.
Qed.

Lemma parse_loop_view fuel : ∀ p b,
  bq_ok b →
  match parse_loop mh mb fuel p b, parse_loop mh mb fuel p (bq_view b) with
  | Ok x, Ok y => viewed x y
  | Err e, Err e' => e = e'
  | _, _ => False
  end.
Proof.
  induction fuel as [|fuel IH]; intros p b Hb; [done|]. cbn [parse_loop].
  pose proof (parse_step_view p b Hb) as Hv.
  destruct (parse_step mh mb p b) as [[[r p1] b1]|e], (parse_step mh mb p (bq_view b)) as [[[r' p1'] b1']|e'];
    try done; simpl; try (by subst).
  destruct Hv as (H1 & H2 & H3). simpl in H1, H2, H3. simplify_eq. destruct r' as [g|]; [done|]. by apply IH.
Qed.
End View.

(** ** Parsing returns *)

(** A chunk being read has bytes left. *)
Definition parser_ok (p : Parser) : Prop := chunk_phase_ p = kData → 0 < chunk_remaining_ p.

Lemma find_crlf_len v n : find_str kCrlf v = Some n → (n + 2 ≤ length v)%nat.
Proof.
  intros (s1 & s2 & -> & <-)%find_str_Some. rewrite !length_app. simpl. lia.
Qed.

Section Total.
Context (mh mb : Z).

Lemma ParseHexSize_nonneg s n : ParseHexSize s = Some n → 0 ≤ n.
Proof.
  assert (∀ t a k r, hex_digits a k t = Some r → 0 ≤ a → 0 ≤ r.1) as Hgo.
  { induction t as [|c t IH]; intros a k r; simpl; [by intros [= <-]|]. case_if; [by intros [= <-]|].
    destruct (hex_val c); [|done]. intros Hr _. eapply IH; [exact Hr|]. apply Z.mod_pos_bound. lia. }
  unfold ParseHexSize. destruct (hex_digits 0 0 s) as [[a k]|] eqn:E; [|done]. case_match; [done|].
  intros [= <-]. by apply (Hgo s 0 0%nat (a, k)).
Qed.

(** A pass that goes on has consumed something. *)
Lemma chunk_step_progress p v p' v' :
  parser_ok p → chunk_step mb p v = (None, p', v') → (length v' < length v)%nat ∧ parser_ok p'.
Proof.
  intros Hp. unfold chunk_step, parser_ok in *. cbn [bq_view bq_consume list_queue].
  destruct (chunk_phase_ p) eqn:Ep.
  - destruct (find_str kCrlf v) as [n|] eqn:E; [|by case_if]. apply find_crlf_len in E.
    destruct (ParseHexSize _) as [size|] eqn:Eh; [|done]. apply ParseHexSize_nonneg in Eh.
    repeat case_if; intros [= <- <-]; rewrite length_drop; simpl; (split; [lia|done || lia]).
  - specialize (Hp eq_refl). case_if; intros [= <- <-]. rewrite length_drop. unfold zlen in *. simpl.
    split; [lia|done].
  - destruct v as [|c [|d v]]; [done..|]. case_if; [done|]. intros [= <- <-]. simpl. rewrite drop_0. split; [lia|done].
  - destruct (find_str kCrlf v) as [n|] eqn:E; [|done]. apply find_crlf_len in E.
    case_match; intros [= <- <-]. rewrite length_drop. rewrite Ep. split; [lia|done].
Qed.

Lemma parse_chunked_total fuel : ∀ p v,
  parser_ok p → (length v < fuel)%nat → ∃ r, parse_chunked mb fuel p v = Ok r.
Proof.
  induction fuel as [|fuel IH]; intros p v Hp Hf; [lia|]. cbn [parse_chunked].
  destruct (chunk_step mb p v) as [[[g|] p1] v1] eqn:E; [by eexists|].
  apply chunk_step_progress in E as [Hlt Hp1]; [|done]. apply IH; [done|lia].
Qed.

Lemma parse_chunked_mono fuel : ∀ fuel' p (v : bytes) r,
  parse_chunked mb fuel p v = Ok r → (fuel ≤ fuel')%nat → parse_chunked mb fuel' p v = Ok r.
Proof.
  induction fuel as [|fuel IH]; intros fuel' p v r Hr Hle; [done|]. destruct fuel' as [|fuel']; [lia|].
  cbn [parse_chunked] in *. destruct (chunk_step mb p v) as [[[g|] p1] v1]; [done|]. apply IH; [done|lia].
Qed.

Lemma parse_chunked_agree f f' p (v : bytes) r r' :
  parse_chunked mb f p v = Ok r → parse_chunked mb f' p v = Ok r' → r = r'.
Proof.
  intros H1 H2. apply (parse_chunked_mono _ (f + f')) in H1; [|lia].
  apply (parse_chunked_mono _ (f + f')) in H2; [|lia]. congruence.
Qed.
End Total.

(** ** More bytes do not change what was done *)
Section Resume.
Context (mh mb : Z).

Lemma drop_more (v s : bytes) n : (n ≤ length v)%nat → drop n (v ++ s) = drop n v ++ s.
Proof. apply drop_app_le. Qed.

(** Reading up to [k] bytes in two goes. *)
Lemma take_resume (v s : bytes) k :
  zlen v < k →
  let n := Z.to_nat (Z.min (zlen (v ++ s)) k) in
  let n' := Z.to_nat (Z.min (zlen s) (k - zlen v)) in
  take n (v ++ s) = v ++ take n' s ∧ drop n (v ++ s) = drop n' s ∧ Z.of_nat n = zlen v + Z.of_nat n'.
Proof.
  intros Hk n n'. pose proof (zlen_nonneg s). pose proof (zlen_nonneg v).
  assert (n = length v + n')%nat as Hn by (unfold n, n', zlen in *; rewrite length_app; lia).
  rewrite Hn, take_app_add, drop_app_add. unfold zlen in *. split_and!; [done|done|lia].
Qed.

Lemma take_enough (v s : bytes) k :
  k - Z.of_nat (Z.to_nat (Z.min (zlen v) k)) ≤ 0 →
  Z.to_nat (Z.min (zlen (v ++ s)) k) = Z.to_nat (Z.min (zlen v) k) ∧ (Z.to_nat (Z.min (zlen v) k) ≤ length v)%nat.
Proof.
  intros Hn. rewrite zlen_app. pose proof (zlen_nonneg s). pose proof (zlen_nonneg v). unfold zlen in *. lia.
Qed.

Lemma chunk_step_none p v p' v' s :
  parser_ok p → chunk_step mb p v = (None, p', v') → chunk_step mb p (v ++ s) = (None, p', v' ++ s).
Proof.
  intros Hp. unfold chunk_step, parser_ok in *. cbn [bq_view bq_consume list_queue].
  destruct (chunk_phase_ p) eqn:Ep.
  - destruct (find_str kCrlf v) as [n|] eqn:E; [|by case_if]. pose proof (find_crlf_len _ _ E).
    rewrite (find_str_app _ _ s _ E), take_app_le, drop_more by lia.
    destruct (ParseHexSize _) as [size|]; [|done]. repeat case_if; by intros [= <- <-].
  - specialize (Hp eq_refl). case_if; intros [= <- <-].
    destruct (take_enough v s (chunk_remaining_ p)) as [-> Hle]; [lia|]. rewrite take_app_le, drop_more by done.
    by case_if; [lia|].
  - destruct v as [|c [|d v]]; [done..|]. simpl. case_if; [done|]. intros [= <- <-]. by rewrite !drop_0.
  - destruct (find_str kCrlf v) as [n|] eqn:E; [|done]. pose proof (find_crlf_len _ _ E).
    rewrite (find_str_app _ _ s _ E), drop_more by lia. case_match; by intros [= <- <-].
Qed.

Lemma chunk_step_complete p v p' v' s :
  chunk_step mb p v = (Some Complete, p', v') → chunk_step mb p (v ++ s) = (Some Complete, p', v' ++ s).
Proof.
  unfold chunk_step. cbn [bq_view bq_consume list_queue]. destruct (chunk_phase_ p) eqn:Ep.
  - destruct (find_str kCrlf v); [|by case_if]. by destruct (ParseHexSize _); repeat case_if.
  - by case_if.
  - destruct v as [|c [|d v]]; [done..|]. by case_if.
  - destruct (find_str kCrlf v) as [n|] eqn:E; [|done]. pose proof (find_crlf_len _ _ E).
    rewrite (find_str_app _ _ s _ E), drop_more by lia. case_match; by intros [= <- <-].
Qed.

Lemma chunk_step_incomplete p v p' v' s :
  parser_ok p → chunk_step mb p v = (Some Incomplete, p', v') →
  chunk_step mb p (v ++ s) = chunk_step mb p' (v' ++ s) ∧ parser_ok p' ∧ state_ p' = state_ p.
Proof.
  intros Hp. unfold chunk_step. cbn [bq_view bq_consume list_queue]. destruct (chunk_phase_ p) eqn:Ep.
  - destruct (find_str kCrlf v) as [n|] eqn:E; [by destruct (ParseHexSize _); repeat case_if|].
    case_if; [done|]. intros [= <- <-]. by rewrite Ep.
  - specialize (Hp Ep). pose proof (zlen_nonneg v). case_if; intros [= <- <-].
    assert (zlen v < chunk_remaining_ p) as Hlt by (unfold zlen in *; lia).
    assert (Z.to_nat (Z.min (zlen v) (chunk_remaining_ p)) = length v) as -> by (unfold zlen in *; lia).
    rewrite (take_ge v), (drop_ge v) by done. cbn [chunk_phase_ chunk_remaining_ request_ state_ app error_ body_remaining_ body_total_].
    fold (zlen v). destruct (take_resume v s _ Hlt) as (-> & -> & ->).
    split; [|unfold parser_ok; simpl; split; [lia|done]]. unfold with_body, set_phase. simpl.
    replace (chunk_remaining_ p - zlen v - Z.of_nat (Z.to_nat (Z.min (zlen s) (chunk_remaining_ p - zlen v))))
      with (chunk_remaining_ p - (zlen v + Z.of_nat (Z.to_nat (Z.min (zlen s) (chunk_remaining_ p - zlen v))))) by lia.
    by rewrite app_assoc.
  - destruct v as [|c [|d v]]; [..|by case_if]; intros [= <- <-]; by rewrite Ep.
  - destruct (find_str kCrlf v) as [n|] eqn:E; [by case_match|]. intros [= <- <-]. by rewrite Ep.
Qed.

Lemma parse_chunked_resume fuel : ∀ fuel' p v p' v' s r,
  parser_ok p → parse_chunked mb fuel p v = Ok (Incomplete, p', v') →
  parse_chunked mb fuel' p' (v' ++ s) = Ok r →
  parser_ok p' ∧ state_ p' = state_ p ∧ parse_chunked mb (fuel + fuel') p (v ++ s) = Ok r.
Proof.
  induction fuel as [|fuel IH]; intros fuel' p v p' v' s r Hp Hrun Hr; [done|].
  cbn [Nat.add]. cbn [parse_chunked] in Hrun |- *.
  destruct (chunk_step mb p v) as [[[g|] p1] v1] eqn:E.
  - apply (f_equal (λ x, match x with Ok y => Some y | Err _ => None end)) in Hrun. injection Hrun as -> -> ->.
    destruct (chunk_step_incomplete p v p' v' s Hp E) as (Hs & Hok & Hst). split_and!; [done|done|].
    rewrite Hs. destruct fuel' as [|fuel']; [done|]. cbn [parse_chunked] in Hr.
    destruct (chunk_step mb p' (v' ++ s)) as [[[g|] p2] v2]; [done|].
    eapply parse_chunked_mono; [exact Hr|lia].
  - rewrite (chunk_step_none _ _ _ _ s Hp E).
    destruct (chunk_step_progress mb p v p1 v1 Hp E) as [_ Hp1].
    destruct (IH fuel' p1 v1 p' v' s r Hp1 Hrun Hr) as (? & Hst & ?). split_and!; [done| |done].
    rewrite Hst. revert E. clear. unfold chunk_step. cbn [bq_view bq_consume list_queue].
    repeat case_match; intros [= <- <-]; done.
Qed.

Lemma parse_chunked_complete fuel : ∀ p v p' v' s,
  parser_ok p → parse_chunked mb fuel p v = Ok (Complete, p', v') →
  parse_chunked mb fuel p (v ++ s) = Ok (Complete, p', v' ++ s).
Proof.
  induction fuel as [|fuel IH]; intros p v p' v' s Hp Hrun; [done|]. cbn [parse_chunked] in Hrun |- *.
  destruct (chunk_step mb p v) as [[[g|] p1] v1] eqn:E.
  - injection Hrun as -> -> ->. by rewrite (chunk_step_complete _ _ _ _ s E).
  - rewrite (chunk_step_none _ _ _ _ s Hp E). apply IH; [|done]. by eapply chunk_step_progress.
Qed.

Lemma chunk_step_ok p (v : bytes) r p' v' :
  parser_ok p → chunk_step mb p v = (r, p', v') →
  parser_ok p' ∧ (r = Some Complete → state_ p' = kComplete).
Proof.
  intros Hp. unfold chunk_step. cbn [bq_view bq_consume list_queue]. destruct (chunk_phase_ p) eqn:Ep.
  - destruct (find_str kCrlf v) as [n|]; [|case_if; intros [= <- <- <-]; unfold parser_ok; simpl; by rewrite ?Ep].
    destruct (ParseHexSize _) as [size|] eqn:Eh; [|intros [= <- <- <-]; unfold parser_ok; simpl; by rewrite Ep].
    apply ParseHexSize_nonneg in Eh. repeat case_if; intros [= <- <- <-]; unfold parser_ok; simpl; rewrite ?Ep;
      (split; [done || lia|done]).
  - case_if; intros [= <- <- <-]; unfold parser_ok; simpl; [|done]. split; [lia|done].
  - destruct v as [|c [|d v]]; [..|case_if]; intros [= <- <- <-]; unfold parser_ok; simpl; by rewrite ?Ep.
  - destruct (find_str kCrlf v) as [n|]; [case_match|]; intros [= <- <- <-]; unfold parser_ok; simpl; by rewrite ?Ep.
Qed.

Lemma parse_chunked_ok fuel : ∀ p (v : bytes) g p' v',
  parser_ok p → parse_chunked mb fuel p v = Ok (g, p', v') →
  parser_ok p' ∧ (g = Complete → state_ p' = kComplete).
Proof.
  induction fuel as [|fuel IH]; intros p v g p' v' Hp Hrun; [done|]. cbn [parse_chunked] in Hrun.
  destruct (chunk_step mb p v) as [[[g1|] p1] v1] eqn:E; destruct (chunk_step_ok _ _ _ _ _ Hp E) as [Hp1 Hst].
  - injection Hrun as -> -> ->. split; [done|]. intros ->. by apply Hst.
  - by eapply (IH p1 v1).
Qed.

(** Head before body before completion. *)
Definition rank (s : State) : nat :=
  match s with kHead => 3 | kBodyLength | kBodyChunked => 2 | kComplete | kFailed => 1 end.

Lemma parse_head_ok block p p' :
  parser_ok p → parse_head mb block p = inr p' → parser_ok p' ∧ (rank (state_ p') < 3)%nat.
Proof.
  intros Hp. unfold parse_head. destruct (split_crlf [] block) as [|l ls]; [done|].
  destruct (parse_request_line l) as [|r]; [done|]. destruct (parse_headers ls []) as [|hs]; [done|].
  destruct (framing mb hs) as [|[s len]] eqn:Ef; [done|]. intros [= <-]. simpl. split.
  - unfold parser_ok in *. simpl. by destruct s.
  - revert Ef. unfold framing. repeat case_match; intros [= <- <-]; simpl; lia.
Qed.

Lemma find_crlfcrlf_len v n : find_str kCrlfCrlf v = Some n → (n + 4 ≤ length v)%nat.
Proof. intros (s1 & s2 & -> & <-)%find_str_Some. rewrite !length_app. simpl. lia. Qed.

Lemma parse_step_none p v p' v' s :
  parser_ok p → parse_step mh mb p v = Ok (None, p', v') →
  parse_step mh mb p (v ++ s) = Ok (None, p', v' ++ s) ∧ parser_ok p' ∧ (rank (state_ p') < rank (state_ p))%nat.
Proof.
  intros Hp. unfold parse_step. cbn [bq_view bq_consume list_queue]. destruct (state_ p) eqn:Es; try done.
  - destruct (find_str kCrlfCrlf v) as [n|] eqn:E; [|by case_if]. pose proof (find_crlfcrlf_len _ _ E).
    rewrite (find_str_app _ _ s _ E), take_app_le, drop_more by lia. case_if; [done|].
    destruct (parse_head mb (take n v) p) as [|p1] eqn:Eh; [done|]. intros [= <- <-].
    destruct (parse_head_ok _ _ _ Hp Eh). done.
  - case_if; intros [= <- <-]. destruct (take_enough v s (body_remaining_ p)) as [-> Hle]; [lia|].
    rewrite take_app_le, drop_more by done. case_if; [lia|]. split_and!; [done|exact Hp|simpl; lia].
  - destruct (parse_chunked mb (S (length v)) p v) as [[[g p1] v1]|] eqn:E; [|done]. cbn [mbind res_bind].
    destruct (parse_chunked_ok _ _ _ _ _ _ Hp E) as [Hp1 Hst].
    destruct g; [done| |done]. intros [= <- <-]. apply (parse_chunked_complete _ _ _ _ _ s Hp) in E.
    destruct (parse_chunked_total mb (S (length (v ++ s))) p (v ++ s) Hp) as [r Hr]; [lia|].
    pose proof (parse_chunked_agree _ _ _ _ _ _ _ E Hr) as <-. rewrite Hr. cbn [mbind res_bind]. rewrite Hst by done. simpl.
    split_and!; [done|done|lia].
Qed.

Lemma parse_step_incomplete p v p' v' s :
  parser_ok p → parse_step mh mb p v = Ok (Some Incomplete, p', v') →
  parse_step mh mb p (v ++ s) = parse_step mh mb p' (v' ++ s) ∧ parser_ok p' ∧ state_ p' = state_ p.
Proof.
  intros Hp. unfold parse_step. cbn [bq_view bq_consume list_queue]. destruct (state_ p) eqn:Es; try done.
  - destruct (find_str kCrlfCrlf v) as [n|] eqn:E; [case_if; [done|]; by destruct (parse_head _ _ _)|].
    case_if; [done|]. intros [= <- <-]. by rewrite Es.
  - pose proof (zlen_nonneg v). case_if; intros [= <- <-].
    assert (zlen v < body_remaining_ p) as Hlt by (unfold zlen in *; lia).
    assert (Z.to_nat (Z.min (zlen v) (body_remaining_ p)) = length v) as -> by (unfold zlen in *; lia).
    rewrite (take_ge v), (drop_ge v) by done. cbn [chunk_phase_ chunk_remaining_ request_ state_ app error_ body_remaining_ body_total_].
    fold (zlen v). destruct (take_resume v s _ Hlt) as (-> & -> & ->). split; [|done]. unfold with_body, set_state. simpl.
    replace (body_remaining_ p - zlen v - Z.of_nat (Z.to_nat (Z.min (zlen s) (body_remaining_ p - zlen v))))
      with (body_remaining_ p - (zlen v + Z.of_nat (Z.to_nat (Z.min (zlen s) (body_remaining_ p - zlen v))))) by lia.
    by rewrite app_assoc.
  - destruct (parse_chunked mb (S (length v)) p v) as [[[g p1] v1]|] eqn:E; [|done]. cbn [mbind res_bind].
    destruct g; [|done|done]. intros [= -> ->]. destruct (parse_chunked_ok _ _ _ _ _ _ Hp E) as [Hp1 _].
    destruct (parse_chunked_total mb (S (length (v' ++ s))) p' (v' ++ s) Hp1) as [r Hr]; [lia|].
    destruct (parse_chunked_resume _ _ _ _ _ _ s r Hp E Hr) as (_ & Hst & Hrun).
    destruct (parse_chunked_total mb (S (length (v ++ s))) p (v ++ s) Hp) as [r' Hr']; [lia|].
    pose proof (parse_chunked_agree _ _ _ _ _ _ _ Hrun Hr') as <-. rewrite Hst, Es. by rewrite Hr, Hr'.
Qed.

Lemma parse_step_total p (v : bytes) : parser_ok p → ∃ r, parse_step mh mb p v = Ok r.
Proof.
  intros Hp. unfold parse_step. cbn [bq_view list_queue]. destruct (state_ p); [..|by eexists|by eexists].
  - repeat case_match; by eexists.
  - case_if; by eexists.
  - destruct (parse_chunked_total mb (S (length v)) p v Hp) as [[[g p1] v1] ->]; [lia|]. simpl. by destruct g; eexists.
Qed.

Lemma parse_loop_total fuel : ∀ p (v : bytes),
  parser_ok p → (rank (state_ p) ≤ fuel)%nat → ∃ r, parse_loop mh mb fuel p v = Ok r.
Proof.
  induction fuel as [|fuel IH]; intros p v Hp Hf; [by destruct (state_ p); simpl in Hf; lia|].
  cbn [parse_loop]. destruct (parse_step_total p v Hp) as [[[r p1] v1] E]. rewrite E. simpl.
  destruct r as [g|]; [by eexists|]. destruct (parse_step_none _ _ _ _ [] Hp E) as (_ & Hp1 & Hr). apply IH; [done|lia].
Qed.

Lemma parse_loop_mono fuel : ∀ fuel' p (v : bytes) r,
  parse_loop mh mb fuel p v = Ok r → (fuel ≤ fuel')%nat → parse_loop mh mb fuel' p v = Ok r.
Proof.
  induction fuel as [|fuel IH]; intros fuel' p v r Hr Hle; [done|]. destruct fuel' as [|fuel']; [lia|].
  cbn [parse_loop] in *. destruct (parse_step mh mb p v) as [[[[g|] p1] v1]|]; [done| |done]. apply IH; [done|lia].
Qed.

Lemma parse_loop_resume fuel : ∀ p v p' v' s,
  parser_ok p → (rank (state_ p) ≤ fuel)%nat → parse_loop mh mb fuel p v = Ok (Incomplete, p', v') →
  parser_ok p' ∧ ∃ r, parse_loop mh mb fuel p (v ++ s) = Ok r ∧ parse_loop mh mb 3 p' (v' ++ s) = Ok r.
Proof.
  induction fuel as [|fuel IH]; intros p v p' v' s Hp Hf Hrun; [done|]. cbn [parse_loop] in Hrun.
  destruct (parse_step mh mb p v) as [[[[g|] p1] v1]|] eqn:E; [..|done]; simpl in Hrun.
  - injection Hrun as -> -> ->. destruct (parse_step_incomplete _ _ _ _ s Hp E) as (Hs & Hp1 & Hst).
    split; [done|]. assert (parse_loop mh mb (S fuel) p (v ++ s) = parse_loop mh mb (S fuel) p' (v' ++ s)) as ->.
    { cbn [parse_loop]. by rewrite Hs. }
    destruct (parse_loop_total 3 p' (v' ++ s) Hp1) as [r Hr]; [by destruct (state_ p'); simpl; lia|].
    destruct (parse_loop_total (S fuel) p' (v' ++ s) Hp1) as [r' Hr']; [by rewrite Hst|].
    exists r. split; [|done]. rewrite Hr'. apply (parse_loop_mono _ (3 + S fuel)) in Hr; [|lia].
    apply (parse_loop_mono _ (3 + S fuel)) in Hr'; [|lia]. congruence.
  - destruct (parse_step_none _ _ _ _ s Hp E) as (Hs & Hp1 & Hrk).
    destruct (IH _ _ _ _ s Hp1 ltac:(lia) Hrun) as (Hp' & r & Hr1 & Hr2).
    split; [done|]. exists r. cbn [parse_loop]. rewrite Hs. done.
Qed.
End Resume.

(** C32: incremental parsing.  From any state of a request's parse, parsing always
    returns.  When it asks for more bytes, parsing on after they arrive gives the
    progress, the request and the unconsumed bytes that parsing everything at once
    gives.  (A parse that ended in an error is not resumed; a cut can cause such an
    error, see [long_chunk_line_cut].) *)
Theorem http_parse_resumes {B} `{ByteQueue B} mh mb p (b : B) :
  bq_ok b → parser_ok p →
  ∃ g p' b', parse mh mb p b = Ok (g, p', b') ∧ bq_ok b' ∧
    (g = Incomplete → parser_ok p' ∧
     ∀ s, ∃ g2 p2 b2 b2', parse mh mb p (bq_append s b) = Ok (g2, p2, b2) ∧
       parse mh mb p' (bq_append s b') = Ok (g2, p2, b2') ∧ bq_view b2 = bq_view b2').
Proof.
  intros Hb Hp. assert (∀ st, rank st ≤ 3)%nat as Hrk by (intros []; simpl; lia). unfold parse.
  pose proof (parse_loop_view mh mb 3 p b Hb) as Hv.
  destruct (parse_loop_total mh mb 3 p (bq_view b) Hp (Hrk _)) as [[[g p'] v'] Hr]. rewrite Hr in Hv.
  destruct (parse_loop mh mb 3 p b) as [[[g0 p0] b0]|]; [|done]. destruct Hv as (H1 & Hok & Hvw).
  simpl in H1, Hok, Hvw. simplify_eq. exists g, p', b0. split; [done|]. split; [done|]. intros ->.
  split; [by eapply (parse_loop_resume mh mb 3 p (bq_view b) p' (bq_view b0) [])|]. intros s.
  destruct (parse_loop_resume mh mb 3 p (bq_view b) p' (bq_view b0) s Hp (Hrk _) Hr) as (_ & [[g2 p2] v2] & Ha & Hc).
  pose proof (parse_loop_view mh mb 3 p (bq_append s b) (append_ok b s Hb)) as Hv1.
  pose proof (parse_loop_view mh mb 3 p' (bq_append s b0) (append_ok b0 s Hok)) as Hv2.
  rewrite append_view, Ha in Hv1 by done. rewrite append_view, Hc in Hv2 by done.
  destruct (parse_loop mh mb 3 p (bq_append s b)) as [[[x1 x2] x3]|]; [|done].
  destruct (parse_loop mh mb 3 p' (bq_append s b0)) as [[[y1 y2] y3]|]; [|done].
  destruct Hv1 as (E1 & _ & E2), Hv2 as (F1 & _ & F2). simpl in E1, E2, F1, F2. simplify_eq.
  exists g2, p2, x3, y3. split_and!; [done|done|congruence].
Qed.

Definition crlf_join (ls : list bytes) : bytes := mjoin ((λ l, l ++ kCrlf) <$> ls).

(** A chunked request: two chunks, an extension and a trailer. *)
Definition chunked_request : bytes :=
  crlf_join [lit "POST /orders?dry=1 HTTP/1.1"; lit "Host: x"; lit "transfer-encoding:  chunked "; [];
             lit "5;ext=1"; lit "hello"; lit "A"; lit "0123456789"; lit "0"; lit "Trailer: t"; []].

Lemma http_parse_resumes_witness :
  let b := buffer_append (take 80 chunked_request) new_buffer in
  match parse 65536 1024 reset b with
  | Ok (Incomplete, p', b') =>
      match parse 65536 1024 p' (buffer_append (drop 80 chunked_request) b') with
      | Ok (Complete, p2, b2) => q_body (request_ p2) = lit "hello0123456789" ∧ buffer_view b2 = []
      | _ => False
      end
  | _ => False
  end.
Proof.
  intros b. assert (buffer_ok b) as Hb by apply buffer_append_ok, new_buffer_ok.
  destruct (@http_parse_resumes Buffer buffer_queue 65536 1024 reset b Hb ltac:(done))
    as (g & p' & b' & Hrun & _ & Hres).
  assert (match parse 65536 1024 reset b with Ok (Incomplete, _, _) => True | _ => False end ∧
          match parse 65536 1024 reset (buffer_append (drop 80 chunked_request) b) with
          | Ok (Complete, p2, b2) => q_body (request_ p2) = lit "hello0123456789" ∧ buffer_view b2 = []
          | _ => False end) as [He1 He2] by (clear; by vm_compute).
  rewrite Hrun in He1 |- *. destruct g; [|done|done].
  destruct (Hres eq_refl) as [_ Hs]. destruct (Hs (drop 80 chunked_request)) as (g2 & p2 & b2 & b2' & H1 & H2 & H3).
  cbn [bq_append buffer_queue bq_view] in H1, H2, H3. rewrite H1 in He2. rewrite H2. destruct g2; [done| |done].
  by rewrite <-H3.
Defined.

(** ** Chunk sizes wrap

    The sum of the chunk sizes is kept modulo 2^64 and so is each size: a chunk
    may announce more than the limit when the sum wraps, and a size of sixteen
    zeros after a one reads as the last chunk. *)
Lemma chunk_limit_bypassed :
  match parse 65536 16 reset
          (crlf_join [lit "POST / HTTP/1.1"; lit "Transfer-Encoding: chunked"; [];
                      lit "5"; lit "hello"; lit "fffffffffffffffc"] : bytes) with
  | Ok (Incomplete, p, _) => chunk_remaining_ p = 2 ^ 64 - 4 ∧ body_total_ p = 1
  | _ => False
  end.
Proof. by vm_compute. Qed.

Lemma chunk_size_wraps : ParseHexSize (lit "10000000000000000") = Some 0.
Proof. by vm_compute. Qed.

(** ** Where a cut matters

    The length of a chunk-size line is tested only while its end has not arrived:
    an extension of more than 1024 bytes is accepted when the line arrives whole
    and refused when it arrives in two pieces. *)
Definition long_chunk_request : bytes :=
  crlf_join [lit "POST / HTTP/1.1"; lit "Transfer-Encoding: chunked"; [];
             lit "5;" ++ replicate 1100 "x"%char; lit "hello"; lit "0"; []].

Lemma long_chunk_line_cut :
  match parse 65536 1024 reset long_chunk_request, parse 65536 1024 reset (take 1100 long_chunk_request) with
  | Ok (Complete, p, _), Ok (Error, p', _) =>
      q_body (request_ p) = lit "hello" ∧ error_ p' = "chunk-size line too long"%string
  | _, _ => False
  end.
Proof. by vm_compute. Qed.
