(* ===== verification/HttpRoundtrip.v ===== *)
(** * HTTP requests: print and parse

    A request line, headers and a body written the way RFC 7230 says, and the
    proof that the parser reads back what was written. *)

From S2P Require Import Prelude.
From S2P Require Import Bytes.
From S2P Require Import Buffer.
From S2P Require Import HttpParser.
From S2P Require Import HttpResume.

Definition version_bytes (minor : Z) : bytes := if minor =? 0 then lit "HTTP/1.0" else lit "HTTP/1.1".

Definition render_request_line (r : HttpRequest) : bytes :=
  q_method r ++ SP :: q_target r ++ SP :: version_bytes (q_minor r).
Definition render_header (h : HttpHeader) : bytes := h_name h ++ ":"%char :: SP :: h_value h.

Definition head_block (l : bytes) (ls : list bytes) : bytes := l ++ mjoin ((λ x, kCrlf ++ x) <$> ls).

Definition render_head (r : HttpRequest) : bytes :=
  head_block (render_request_line r) (render_header <$> q_headers r).
Definition render (r : HttpRequest) : bytes := render_head r ++ kCrlfCrlf ++ q_body r.

(** ** Requests that can be written *)
Definition header_wf (h : HttpHeader) : Prop :=
  IsToken (h_name h) = true ∧ TrimOws (h_value h) = h_value h ∧ HasCtl (h_value h) = false.

(** The target's path and query. *)
Definition split_target (target : bytes) : bytes * bytes :=
  match find_char "?" target with
  | None => (target, [])
  | Some q => (take q target, drop (q + 1) target)
  end.

Record request_wf (mb : Z) (r : HttpRequest) : Prop := {
  wf_method : IsToken (q_method r) = true;
  wf_target : q_target r ≠ [] ∧ SP ∉ q_target r ∧ HasCtl (q_target r) = false;
  wf_split : (q_path r, q_query r) = split_target (q_target r);
  wf_minor : q_minor r = 0 ∨ q_minor r = 1;
  wf_headers : Forall header_wf (q_headers r);
  wf_keep_alive : q_keep_alive r = resolve_keep_alive (q_minor r) (q_headers r);
  wf_te : find_header (lit "Transfer-Encoding") (q_headers r) = None;
  wf_length : content_length None (q_headers r) = inr (Some (dec (zlen (q_body r)))) ∨
              content_length None (q_headers r) = inr None ∧ q_body r = [];
  wf_body : zlen (q_body r) ≤ mb < 2 ^ 63;
}.

(** ** Character facts *)
Lemma token_char_free c : IsTokenChar c = true → c ≠ SP ∧ c ≠ HT ∧ c ≠ CR ∧ c ≠ LF ∧ c ≠ ":"%char.
Proof. intros Hc. split_and!; intros ->; vm_compute in Hc; discriminate. Qed.

Lemma token_free s x : IsToken s = true → IsTokenChar x = false → x ∉ s.
Proof.
  unfold IsToken. destruct s as [|c s]; [done|]. rewrite forallb_forall. intros Hs Hx Hin.
  rewrite (Hs x) in Hx; [done|]. by apply list_elem_of_In.
Qed.

Lemma ctl_free s x : HasCtl s = false → ctl x = true → x ∉ s.
Proof.
  unfold HasCtl. intros Hs Hx Hin. assert (existsb ctl s = true); [|congruence].
  apply existsb_exists. exists x. split; [by apply list_elem_of_In|done].
Qed.

Lemma version_free minor : CR ∉ version_bytes minor.
Proof. unfold version_bytes. case_if; by apply (bool_decide_unpack _). Qed.

Lemma render_line_free r : IsToken (q_method r) = true → HasCtl (q_target r) = false → CR ∉ render_request_line r.
Proof.
  intros Hm Ht. unfold render_request_line. pose proof (version_free (q_minor r)).
  pose proof (token_free _ CR Hm eq_refl). pose proof (ctl_free _ CR Ht eq_refl).
  rewrite elem_of_app, elem_of_cons, elem_of_app, elem_of_cons. intros [?|[?|[?|[?|?]]]]; done.
Qed.

Lemma render_header_free h : header_wf h → CR ∉ render_header h ∧ render_header h ≠ [].
Proof.
  intros (Hn & _ & Hv). unfold render_header. split; [|by destruct (h_name h)].
  pose proof (token_free _ CR Hn eq_refl). pose proof (ctl_free _ CR Hv eq_refl).
  rewrite elem_of_app, !elem_of_cons. intros [?|[?|[?|?]]]; done.
Qed.

(** ** Lines *)
Lemma split_crlf_free cur s t :
  CR ∉ s → split_crlf cur (s ++ CR :: LF :: t) = (cur ++ s) :: split_crlf [] t.
Proof.
  revert cur. induction s as [|c s IH]; intros cur Hs; [by rewrite app_nil_r|].
  assert (c ≠ CR) as Hc by set_solver. specialize (IH (cur ++ [c]) ltac:(set_solver)).
  rewrite <-app_assoc in IH. etrans; [|exact IH]. destruct (s ++ CR :: LF :: t) as [|d u] eqn:E; [by destruct s|].
  change ((c :: s) ++ CR :: LF :: t) with (c :: (s ++ CR :: LF :: t)). rewrite E. simpl.
  destruct (Ascii.eqb_spec c CR); [done|]. by destruct u.
Qed.

Lemma split_crlf_last cur s : CR ∉ s → split_crlf cur s = [cur ++ s].
Proof.
  revert cur. induction s as [|c s IH]; intros cur Hs; [by rewrite app_nil_r|].
  assert (c ≠ CR) as Hc by set_solver. specialize (IH (cur ++ [c]) ltac:(set_solver)).
  rewrite <-app_assoc in IH. destruct s as [|d s]; [done|]. simpl in *.
  destruct (Ascii.eqb_spec c CR); [done|]. exact IH.
Qed.

Lemma split_crlf_block ls : ∀ l,
  CR ∉ l → Forall (λ x, CR ∉ x) ls → split_crlf [] (head_block l ls) = l :: ls.
Proof.
  induction ls as [|x ls IH]; intros l Hl Hls; unfold head_block.
  - simpl. rewrite app_nil_r. by apply split_crlf_last.
  - apply Forall_cons in Hls as [Hx Hls]. rewrite fmap_cons. cbn [mjoin list_join kCrlf app].
    rewrite split_crlf_free by done. simpl. f_equal. by apply (IH x).
Qed.

(** The blank line is found at the end of the block. *)
Lemma find_crlfcrlf_lines ls t :
  Forall (λ x, CR ∉ x ∧ x ≠ []) ls →
  find_str kCrlfCrlf (mjoin ((λ x, kCrlf ++ x) <$> ls) ++ kCrlfCrlf ++ t) =
  Some (length (mjoin ((λ x, kCrlf ++ x) <$> ls))).
Proof.
  induction 1 as [|x ls [Hx Hne] Hls IH]; [apply (find_str_here kCrlfCrlf t)|].
  rewrite fmap_cons. cbn [mjoin list_join]. rewrite <-app_assoc. set (rest := mjoin _ ++ _) in *.
  destruct x as [|c x]; [done|]. assert (c ≠ CR) as Hc by set_solver.
  change ((kCrlf ++ c :: x) ++ rest) with (CR :: LF :: ((c :: x) ++ rest)).
  cbn [find_str length]. rewrite decide_False by (simpl; intros [=]; done).
  rewrite decide_False by (simpl; intros [=]; done).
  unfold kCrlfCrlf at 1. rewrite (find_str_free CR [LF; CR; LF]) by done. fold kCrlfCrlf. rewrite IH. simpl. rewrite length_app. reflexivity.
Qed.

Lemma find_crlfcrlf_block l ls t :
  CR ∉ l → Forall (λ x, CR ∉ x ∧ x ≠ []) ls →
  find_str kCrlfCrlf (head_block l ls ++ kCrlfCrlf ++ t) = Some (length (head_block l ls)).
Proof.
  intros Hl Hls. unfold head_block. rewrite <-app_assoc. unfold kCrlfCrlf at 1.
  rewrite (find_str_free CR [LF; CR; LF]) by done. fold kCrlfCrlf. rewrite find_crlfcrlf_lines by done.
  simpl. by rewrite length_app.
Qed.

(** ** The head is read back *)
Lemma parse_version_back minor : minor = 0 ∨ minor = 1 → parse_version (version_bytes minor) = Some minor.
Proof. by intros [-> | ->]. Qed.

Lemma parse_request_line_back mb r :
  request_wf mb r →
  parse_request_line (render_request_line r) =
  inr (mkRequest (q_method r) (q_target r) (q_path r) (q_query r) (q_minor r) [] [] true).
Proof.
  intros [Hm (Ht1 & Ht2 & Ht3) Hsp Hmin _ _ _ _ _]. unfold parse_request_line, render_request_line.
  rewrite find_char_split by (by apply (token_free _ SP Hm)).
  rewrite take_app_length. replace (length (q_method r) + 1)%nat with (length (q_method r ++ [SP])) by (by rewrite length_app).
  change (q_method r ++ SP :: q_target r ++ SP :: version_bytes (q_minor r))
    with (q_method r ++ [SP] ++ q_target r ++ SP :: version_bytes (q_minor r)).
  rewrite app_assoc, drop_app_length, find_char_split by done. rewrite take_app_length.
  replace (length (q_target r) + 1)%nat with (length (q_target r ++ [SP])) by (by rewrite length_app).
  change (q_target r ++ SP :: version_bytes (q_minor r)) with (q_target r ++ [SP] ++ version_bytes (q_minor r)).
  rewrite app_assoc, drop_app_length, parse_version_back, Hm, Ht3 by done.
  assert (length (q_method r) ≠ 0%nat) by (by destruct (q_method r)).
  assert (length (q_target r) ≠ 0%nat) by (by destruct (q_target r)).
  destruct (Nat.eqb_spec (length (q_method r)) 0); [done|]. destruct (Nat.eqb_spec (length (q_target r)) 0); [done|].
  cbn [orb negb]. unfold split_target in Hsp. rewrite <-Hsp. done.
Qed.

Lemma parse_header_back h : header_wf h → parse_header_line (render_header h) = inr (Some h).
Proof.
  intros (Hn & Hv & Hc). unfold parse_header_line, render_header.
  destruct (h_name h) as [|c n] eqn:En; [done|]. cbn [app].
  assert (IsTokenChar c = true) as Hc0 by (simpl in Hn; by apply andb_true_iff in Hn as [? _]).
  destruct (token_char_free c Hc0) as (K1 & K2 & _). unfold ows.
  destruct (Ascii.eqb_spec c SP); [done|]. destruct (Ascii.eqb_spec c HT); [done|]. cbn [orb].
  change (c :: n ++ ":"%char :: SP :: h_value h) with ((c :: n) ++ ":"%char :: SP :: h_value h).
  rewrite find_char_split by (by apply (token_free (c :: n))). rewrite take_app_length, Hn.
  replace (length (c :: n) + 1)%nat with (length ((c :: n) ++ [":"%char])) by (by rewrite length_app).
  change ((c :: n) ++ ":"%char :: SP :: h_value h) with ((c :: n) ++ [":"%char] ++ SP :: h_value h).
  rewrite app_assoc, drop_app_length. change (TrimOws (SP :: h_value h)) with (TrimOws (h_value h)).
  rewrite Hv, Hc, <-En. cbn [negb]. by destruct h.
Qed.

Lemma parse_headers_back hs : ∀ acc,
  Forall header_wf hs → parse_headers (render_header <$> hs) acc = inr (acc ++ hs).
Proof.
  induction hs as [|h hs IH]; intros acc Hh; [simpl; by rewrite app_nil_r|].
  apply Forall_cons in Hh as [Hh Hhs]. rewrite fmap_cons. cbn [parse_headers].
  rewrite parse_header_back, IH by done. by rewrite <-app_assoc.
Qed.

Lemma length_digits_ok s : ∀ acc,
  0 ≤ acc → Forall (λ c, isdigit c = true) s → undec acc s < 2 ^ 63 →
  length_digits acc s = inr (undec acc s) ∧ acc ≤ undec acc s.
Proof.
  induction s as [|c s IH]; intros acc Hacc Hs Hmax; [done|].
  apply Forall_cons in Hs as [Hc Hs]. cbn [length_digits]. rewrite Hc. cbn [negb].
  unfold isdigit in Hc. bool_split. unfold digit_val in *. set (d := byte_val c - 48) in *.
  change (undec acc (c :: s)) with (undec (acc * 10 + d) s) in *.
  destruct (IH (acc * 10 + d)) as [H1 H2]; [lia|done|done|].
  case_if; [|split; [done|lia]]. exfalso. unfold kMaxSize in *.
  assert ((2 ^ 64 - 1 - 9) / 10 = 1844674407370955160) as Hq by reflexivity. rewrite Hq in *. lia.
Qed.

(** Decimal digits need no trimming. *)
Lemma trim_front_digits s : Forall (λ c, isdigit c = true) s → trim_front s = s.
Proof.
  intros Hs. destruct s as [|c s]; [done|]. apply Forall_cons in Hs as [Hc _]. simpl. unfold ows.
  destruct (Ascii.eqb_spec c SP) as [->|_]; [discriminate Hc|].
  by destruct (Ascii.eqb_spec c HT) as [->|_]; [discriminate Hc|].
Qed.

Lemma TrimOws_digits s : Forall (λ c, isdigit c = true) s → TrimOws s = s.
Proof.
  intros Hs. unfold TrimOws. rewrite (trim_front_digits s) by done.
  rewrite trim_front_digits by (by apply Forall_reverse). apply reverse_involutive.
Qed.

Lemma framing_back mb r :
  request_wf mb r →
  ∃ len, framing mb (q_headers r) = inr (if zlen (q_body r) =? 0 then kComplete else kBodyLength, len) ∧
         (zlen (q_body r) ≠ 0 → len = Some (zlen (q_body r))).
Proof.
  intros [_ _ _ _ _ _ Hte Hcl Hb]. unfold framing. rewrite Hte. pose proof (zlen_nonneg (q_body r)).
  destruct Hcl as [->|[-> Hnil]].
  - destruct (dec_spec (zlen (q_body r))) as (Hd & Hu & _); [unfold is_u64; lia|].
    rewrite TrimOws_digits by done. destruct (length_digits_ok (dec (zlen (q_body r))) 0) as [-> _]; [done|done|lia|].
    rewrite Hu. case_if; [lia|]. eexists. by split.
  - rewrite Hnil. eexists. split; [done|]. by intros [].
Qed.

Lemma render_head_lines mb r :
  request_wf mb r → CR ∉ render_request_line r ∧ Forall (λ x, CR ∉ x ∧ x ≠ []) (render_header <$> q_headers r).
Proof.
  intros [Hm (_ & _ & Ht) _ _ Hh _ _ _ _]. split; [by apply render_line_free|].
  apply Forall_fmap. eapply Forall_impl; [exact Hh|]. intros h Hw. by apply render_header_free.
Qed.

(** The parser after the head of [r]. *)
Lemma parse_head_back mb r :
  request_wf mb r →
  ∃ p, parse_head mb (render_head r) reset = inr p ∧ request_ p = with_body r [] ∧
    state_ p = (if zlen (q_body r) =? 0 then kComplete else kBodyLength) ∧
    (zlen (q_body r) ≠ 0 → body_remaining_ p = zlen (q_body r)).
Proof.
  intros Hr. destruct (render_head_lines mb r Hr) as [Hl Hls]. destruct (framing_back mb r Hr) as (len & Hf & Hlen).
  unfold parse_head, render_head. rewrite split_crlf_block; [|done|eapply Forall_impl; [exact Hls|by intros x [? _]]].
  rewrite (parse_request_line_back mb) by done. rewrite parse_headers_back by apply (wf_headers _ _ Hr). cbn [app].
  rewrite Hf. eexists. split; [done|]. cbn [request_ state_ body_remaining_]. split_and!; [|done|].
  - unfold with_body. simpl. by rewrite (wf_keep_alive _ _ Hr).
  - intros Hb. by rewrite (Hlen Hb).
Qed.

(** The passes over the head, the body and the completed request. *)
Section Passes.
Context {B : Type} `{ByteQueue B} (mh mb : Z).

Lemma parse_loop_S fuel p (b : B) r p' b' :
  parse_step mh mb p b = Ok (r, p', b') →
  parse_loop mh mb (S fuel) p b =
  match r with Some g => Ok (g, p', b') | None => parse_loop mh mb fuel p' b' end.
Proof. intros E. cbn [parse_loop]. by rewrite E. Qed.

Lemma parse_step_head r p (b : B) t :
  request_wf mb r → zlen (render_head r) ≤ mh → parse_head mb (render_head r) reset = inr p →
  bq_view b = render_head r ++ kCrlfCrlf ++ t →
  parse_step mh mb reset b = Ok (None, p, bq_consume (length (render_head r) + 4) b).
Proof.
  intros Hr Hmh Hp Hv. destruct (render_head_lines mb r Hr) as [Hl Hls]. unfold parse_step. rewrite Hv.
  change (state_ reset) with kHead. cbn match.
  assert (find_str kCrlfCrlf (render_head r ++ kCrlfCrlf ++ t) = Some (length (render_head r))) as ->
    by (by apply find_crlfcrlf_block).
  fold (zlen (render_head r)). case_if; [lia|]. by rewrite take_app_length, Hp.
Qed.

Lemma parse_step_body p (b : B) body rest :
  state_ p = kBodyLength → body_remaining_ p = zlen body → bq_view b = body ++ rest →
  ∃ p', parse_step mh mb p b = Ok (None, p', bq_consume (length body) b) ∧ state_ p' = kComplete ∧
    request_ p' = with_body (request_ p) (q_body (request_ p) ++ body).
Proof.
  intros Hst Hrem Hv. unfold parse_step. rewrite Hst, Hv, Hrem, zlen_app. pose proof (zlen_nonneg rest).
  assert (Z.to_nat (Z.min (zlen body + zlen rest) (zlen body)) = length body) as -> by (unfold zlen in *; lia).
  fold (zlen body). case_if; [lia|]. eexists. split; [done|]. simpl. by rewrite take_app_length.
Qed.

Lemma parse_step_complete p (b : B) :
  state_ p = kComplete → parse_step mh mb p b = Ok (Some Complete, p, b).
Proof. intros Hst. unfold parse_step. by rewrite Hst. Qed.
End Passes.

(** C39: HTTP round trip.  A well-formed request written out (request line,
    headers, Content-Length body) and followed by anything is parsed back to
    the same request, and exactly its bytes are consumed. *)
Theorem http_request_roundtrip {B} `{ByteQueue B} mh mb r (b : B) rest :
  bq_ok b → request_wf mb r → zlen (render_head r) ≤ mh → bq_view b = render r ++ rest →
  ∃ p b', parse mh mb reset b = Ok (Complete, p, b') ∧ request_ p = r ∧ bq_ok b' ∧ bq_view b' = rest.
Proof.
  intros Hb Hr Hmh Hv. destruct (parse_head_back mb r Hr) as (p & Hp & Hreq & Hst & Hrem).
  assert (bq_view b = render_head r ++ kCrlfCrlf ++ (q_body r ++ rest)) as Hv'.
  { rewrite Hv. unfold render. by rewrite <-!app_assoc. }
  unfold parse. rewrite (parse_loop_S _ _ _ _ _ _ _ _ (parse_step_head mh mb r p b _ Hr Hmh Hp Hv')).
  set (b1 := bq_consume (length (render_head r) + 4) b). assert (bq_ok b1) as Hb1 by (by apply consume_ok).
  assert (bq_view b1 = q_body r ++ rest) as Hv1.
  { unfold b1. rewrite consume_view, Hv', <-drop_drop, drop_app_length by done. done. }
  destruct (Z.eqb_spec (zlen (q_body r)) 0) as [Hz|Hz].
  - rewrite (parse_loop_S _ _ _ _ _ _ _ _ (parse_step_complete mh mb p b1 Hst)).
    assert (q_body r = []) as Hnil by (unfold zlen in Hz; destruct (q_body r); [done|simpl in Hz; lia]).
    exists p, b1. split_and!; [done| |done|by rewrite Hv1, Hnil]. rewrite Hreq. destruct r. simpl in *. by subst.
  - destruct (parse_step_body mh mb p b1 (q_body r) rest Hst (Hrem Hz) Hv1) as (p2 & Hs2 & Hst2 & Hreq2).
    rewrite (parse_loop_S _ _ _ _ _ _ _ _ Hs2), (parse_loop_S _ _ _ _ _ _ _ _ (parse_step_complete mh mb p2 _ Hst2)).
    eexists p2, _. split; [done|]. rewrite Hreq2, Hreq. split_and!; [by destruct r|by apply consume_ok|].
    rewrite consume_view, Hv1 by done. apply drop_app_length.
Qed.

Definition sample_request : HttpRequest :=
  mkRequest (lit "POST") (lit "/orders?dry=1") (lit "/orders") (lit "dry=1") 1
    [mkHeader (lit "Host") (lit "x"); mkHeader (lit "content-length") (lit "5")] (lit "hello") true.

Lemma sample_request_wf : request_wf 1024 sample_request.
Proof.
  split; try (by vm_compute); [|by right| |by left; vm_compute].
  - split; [done|]. split; [|by vm_compute]. apply (bool_decide_unpack _). by vm_compute.
  - apply Forall_cons. split; [by vm_compute|]. apply Forall_singleton. by vm_compute.
Qed.

Lemma http_request_roundtrip_witness :
  match parse 8192 1024 reset (buffer_append (render sample_request ++ lit "GET") new_buffer) with
  | Ok (Complete, p, b') => request_ p = sample_request ∧ buffer_view b' = lit "GET"
  | _ => False
  end.
Proof.
  set (b := buffer_append _ _). assert (buffer_ok b) as Hb by apply buffer_append_ok, new_buffer_ok.
  destruct (@http_request_roundtrip Buffer buffer_queue 8192 1024 sample_request b (lit "GET") Hb sample_request_wf)
    as (p & b' & -> & Hr & _ & Hv); [by vm_compute|by vm_compute|done].
Defined.
