(* ===== verification/HttpMessage.v ===== *)
(** * HTTP responses and the router ([net/http_message.cc], [net/router.cc])

    How a response is built and written out, and how a request finds its
    handler.  A reader of responses, written after RFC 7230 with the header
    functions of the parser, serves to state that what is written can be read
    back whatever follows it. *)

From S2P Require Import Prelude.
From S2P Require Import Bytes.
From S2P Require Import Buffer.
From S2P Require Import HttpParser.
From S2P Require Import HttpResume.
From S2P Require Import HttpRoundtrip.

Record HttpResponse := mkResponse {
  rs_status : Z;
  rs_reason : bytes;
  rs_headers : list HttpHeader;
  rs_body : bytes;
}.

Definition default_response : HttpResponse := mkResponse 200 (lit "OK") [] [].

Definition HttpReasonPhrase (code : Z) : bytes :=
  match code with
  | 200 => lit "OK"
  | 201 => lit "Created"
  | 204 => lit "No Content"
  | 400 => lit "Bad Request"
  | 404 => lit "Not Found"
  | 405 => lit "Method Not Allowed"
  | 409 => lit "Conflict"
  | 411 => lit "Length Required"
  | 413 => lit "Payload Too Large"
  | 500 => lit "Internal Server Error"
  | 501 => lit "Not Implemented"
  | 503 => lit "Service Unavailable"
  | _ => lit "Unknown"
  end.

Definition set_status (code : Z) (r : HttpResponse) : HttpResponse :=
  mkResponse code (HttpReasonPhrase code) (rs_headers r) (rs_body r).

Fixpoint put_header (name value : bytes) (hs : list HttpHeader) : list HttpHeader :=
  match hs with
  | [] => [mkHeader name value]
  | h :: hs =>
      if IEquals (h_name h) name then mkHeader (h_name h) value :: hs else h :: put_header name value hs
  end.
Definition set_header (name value : bytes) (r : HttpResponse) : HttpResponse :=
  mkResponse (rs_status r) (rs_reason r) (put_header name value (rs_headers r)) (rs_body r).
Definition set_body (body : bytes) (r : HttpResponse) : HttpResponse :=
  mkResponse (rs_status r) (rs_reason r) (rs_headers r) body.

Definition has_header (name : bytes) (hs : list HttpHeader) : bool := existsb (λ h, IEquals (h_name h) name) hs.

Definition serialize (keep_alive : bool) (r : HttpResponse) : bytes :=
  lit "HTTP/1.1 " ++ to_dec (rs_status r) ++ lit " " ++ rs_reason r ++ kCrlf ++
  mjoin ((λ h, h_name h ++ lit ": " ++ h_value h ++ kCrlf) <$> rs_headers r) ++
  (if has_header (lit "Content-Length") (rs_headers r) then []
   else lit "Content-Length: " ++ to_dec (zlen (rs_body r)) ++ kCrlf) ++
  (if has_header (lit "Connection") (rs_headers r) then []
   else lit "Connection: " ++ (if keep_alive then lit "keep-alive" else lit "close") ++ kCrlf) ++
  kCrlf ++ rs_body r.

(** ** The router *)
Section Router.
(** [A]: the state the handlers share. *)
Context {A : Type}.

(** An asynchronous handler may call its responder before it returns, or keep
    it for later. *)
Inductive Handler :=
  | SyncHandler (f : HttpRequest → A → HttpResponse * A)
  | AsyncHandler (f : HttpRequest → A → option HttpResponse * A).

Record RouteEntry := mkEntry { en_method : bytes; en_path : bytes; en_handler : Handler }.

Definition add_sync (method path : bytes) (f : HttpRequest → A → HttpResponse * A) (routes : list RouteEntry)
    : list RouteEntry := routes ++ [mkEntry method path (SyncHandler f)].
Definition add_async (method path : bytes) (f : HttpRequest → A → option HttpResponse * A) (routes : list RouteEntry)
    : list RouteEntry := routes ++ [mkEntry method path (AsyncHandler f)].

Definition plain_text (code : Z) (body : bytes) : HttpResponse :=
  set_body body (set_header (lit "Content-Type") (lit "text/plain") (set_status code default_response)).

(** The response passed to the responder before [dispatch] returns, if any. *)
Fixpoint route_loop (routes : list RouteEntry) (path_matched : bool) (req : HttpRequest) (a : A)
    : option HttpResponse * A :=
  match routes with
  | [] =>
      (Some (if path_matched then plain_text 405 (lit "Method Not Allowed") else plain_text 404 (lit "Not Found")), a)
  | e :: routes =>
      if negb (bool_decide (en_path e = q_path req)) then route_loop routes path_matched req a
      else if bool_decide (en_method e = q_method req) then
        match en_handler e with
        | AsyncHandler f => f req a
        | SyncHandler f => let '(resp, a) := f req a in (Some resp, a)
        end
      else route_loop routes true req a
  end.
Definition dispatch (routes : list RouteEntry) (req : HttpRequest) (a : A) : option HttpResponse * A :=
  route_loop routes false req a.

(** The first route with the request's path and method. *)
Definition matching_route (routes : list RouteEntry) (req : HttpRequest) : option RouteEntry :=
  list_find (λ e, en_path e = q_path req ∧ en_method e = q_method req) routes ≫= λ x, Some x.2.

Lemma route_loop_spec routes req a : ∀ matched,
  route_loop routes matched req a =
  match matching_route routes req with
  | Some e => match en_handler e with
              | AsyncHandler f => f req a
              | SyncHandler f => let '(resp, a) := f req a in (Some resp, a)
              end
  | None => (Some (if matched || existsb (λ e, bool_decide (en_path e = q_path req)) routes
                   then plain_text 405 (lit "Method Not Allowed") else plain_text 404 (lit "Not Found")), a)
  end.
Proof.
  unfold matching_route. induction routes as [|e routes IH]; intros matched; [by rewrite orb_false_r|].
  cbn [route_loop list_find existsb]. destruct (decide (en_path e = q_path req)) as [Hp|Hp].
  - rewrite !(bool_decide_true _ Hp). cbn [negb]. destruct (decide (en_method e = q_method req)) as [Hm|Hm].
    + rewrite (bool_decide_true _ Hm), decide_True by done. done.
    + rewrite (bool_decide_false _ Hm), decide_False, IH by (by intros [_ ?]).
      rewrite orb_true_r. cbn [orb]. by destruct (list_find _ routes) as [[i e']|].
  - rewrite !(bool_decide_false _ Hp), decide_False, IH by (by intros [? _]). cbn [negb orb].
    by destruct (list_find _ routes) as [[i e']|].
Qed.
End Router.
Arguments RouteEntry : clear implicits.
Arguments Handler : clear implicits.

(** ** Reading responses back *)

Definition status_line (r : HttpResponse) : bytes := lit "HTTP/1.1 " ++ to_dec (rs_status r) ++ lit " " ++ rs_reason r.

(** The headers that are written: those set, and the two added ones. *)
Definition wire_headers (keep_alive : bool) (r : HttpResponse) : list HttpHeader :=
  rs_headers r ++
  (if has_header (lit "Content-Length") (rs_headers r) then []
   else [mkHeader (lit "Content-Length") (to_dec (zlen (rs_body r)))]) ++
  (if has_header (lit "Connection") (rs_headers r) then []
   else [mkHeader (lit "Connection") (if keep_alive then lit "keep-alive" else lit "close")]).

Lemma lines_shift (l : bytes) ls : l ++ kCrlf ++ mjoin ((λ x, x ++ kCrlf) <$> ls) = head_block l ls ++ kCrlf.
Proof.
  unfold head_block. revert l. induction ls as [|x ls IH]; intros l; [cbn; by rewrite app_nil_r|].
  rewrite !fmap_cons. cbn [mjoin list_join]. rewrite <-!app_assoc. f_equal. f_equal.
  rewrite IH. by rewrite <-app_assoc.
Qed.

Lemma serialize_lines ka r :
  serialize ka r = head_block (status_line r) (render_header <$> wire_headers ka r) ++ kCrlfCrlf ++ rs_body r.
Proof.
  change kCrlfCrlf with (kCrlf ++ kCrlf). rewrite <-app_assoc, (app_assoc _ kCrlf), <-lines_shift.
  unfold serialize, wire_headers, status_line. rewrite !fmap_app, !join_app, <-!app_assoc.
  do 5 f_equal. f_equal.
  { rewrite <-list_fmap_compose. f_equal. apply list_fmap_ext. intros _ h _. unfold compose, render_header.
    by rewrite <-!app_assoc. }
  f_equal; [by destruct (has_header _ _); [done|]; cbn; rewrite app_nil_r|].
  f_equal. by destruct (has_header _ _), ka.
Qed.

(** One response from the front of a stream: status line, headers, body. *)
Definition read_response (v : bytes) : option (bytes * list HttpHeader * bytes * bytes) :=
  match find_str kCrlfCrlf v with
  | None => None
  | Some n =>
      match split_crlf [] (take n v) with
      | [] => None
      | line :: lines =>
          match parse_headers lines [] with
          | inl _ => None
          | inr hs =>
              match content_length None hs with
              | inr (Some s) =>
                  match length_digits 0 (TrimOws s) with
                  | inr len =>
                      let rest := drop (n + 4) v in
                      if len <=? zlen rest
                      then Some (line, hs, take (Z.to_nat len) rest, drop (Z.to_nat len) rest) else None
                  | inl _ => None
                  end
              | _ => None
              end
          end
      end
  end.

(** Headers and reason that fit on their lines, and a length that is right. *)
Record response_wf (r : HttpResponse) : Prop := {
  rw_status : 0 ≤ rs_status r < 2 ^ 31;
  rw_reason : HasCtl (rs_reason r) = false;
  rw_headers : Forall header_wf (rs_headers r);
  rw_length : has_header (lit "Content-Length") (rs_headers r) = false;
  rw_body : zlen (rs_body r) < 2 ^ 63;
}.

Lemma digits_free s x : Forall (λ c, isdigit c = true) s → isdigit x = false → x ∉ s.
Proof. rewrite Forall_forall. intros Hs Hx Hin. rewrite (Hs x Hin) in Hx. done. Qed.

Lemma to_dec_digits z : 0 ≤ z < 2 ^ 63 → to_dec z = dec z ∧ Forall (λ c, isdigit c = true) (dec z) ∧ undec 0 (dec z) = z.
Proof.
  intros Hz. unfold to_dec. case_if; [lia|]. destruct (dec_spec z) as (? & ? & _); [unfold is_u64; lia|]. done.
Qed.

Lemma digits_no_ctl s : Forall (λ c, isdigit c = true) s → HasCtl s = false.
Proof.
  intros Hs. unfold HasCtl. destruct (existsb ctl s) eqn:E; [|done]. apply existsb_exists in E as (c & Hin & Hc).
  apply list_elem_of_In in Hin. rewrite Forall_forall in Hs. specialize (Hs c Hin). unfold isdigit, ctl in *.
  revert Hs Hc. clear. destruct c as [[] [] [] [] [] [] [] []]; by vm_compute.
Qed.

Lemma wire_headers_wf ka r : response_wf r → Forall header_wf (wire_headers ka r).
Proof.
  intros [_ _ Hh Hl Hb]. pose proof (zlen_nonneg (rs_body r)) as Hz. unfold wire_headers. rewrite Hl.
  destruct (to_dec_digits (zlen (rs_body r))) as (-> & Hd & _); [lia|]. rewrite !Forall_app. split_and!; [done| |].
  - apply Forall_singleton. split_and!; [by vm_compute|by apply TrimOws_digits|by apply digits_no_ctl].
  - destruct (has_header (lit "Connection") (rs_headers r)); [done|]. apply Forall_singleton.
    destruct ka; unfold header_wf; split_and!; by vm_compute.
Qed.

Lemma content_length_absent hs : has_header (lit "Content-Length") hs = false →
  ∀ cl tail, content_length cl (hs ++ tail) = content_length cl tail.
Proof.
  intros Hh. induction hs as [|h hs IH]; intros cl tail; [done|]. cbn [has_header existsb] in Hh.
  apply orb_false_iff in Hh as [Hh1 Hh2]. cbn [app content_length]. rewrite Hh1. by apply IH.
Qed.

(** A response on the wire.  Whatever follows it, the reader gets back the
    status line, the headers that were set with Content-Length and Connection
    added, and the body, and stops at its end. *)
Lemma http_response_roundtrip ka r rest :
  response_wf r →
  read_response (serialize ka r ++ rest) = Some (status_line r, wire_headers ka r, rs_body r, rest).
Proof.
  intros Hr. pose proof (wire_headers_wf ka r Hr) as Hw. destruct Hr as [Hs Hre Hh Hl Hb].
  pose proof (zlen_nonneg (rs_body r)) as Hz.
  assert (CR ∉ status_line r) as Hline.
  { unfold status_line. destruct (to_dec_digits (rs_status r)) as (-> & Hd & _); [lia|].
    rewrite !elem_of_app. intros [Hc|[Hc|[Hc|Hc]]].
    - revert Hc. apply (bool_decide_unpack (CR ∉ lit "HTTP/1.1 ")). by vm_compute.
    - by apply (digits_free _ CR Hd).
    - revert Hc. apply (bool_decide_unpack (CR ∉ lit " ")). by vm_compute.
    - by apply (ctl_free _ CR Hre). }
  assert (Forall (λ x, CR ∉ x ∧ x ≠ []) (render_header <$> wire_headers ka r)) as Hls.
  { apply Forall_fmap. eapply Forall_impl; [exact Hw|]. intros h. by apply render_header_free. }
  unfold read_response. rewrite serialize_lines, <-!app_assoc, find_crlfcrlf_block by done.
  rewrite take_app_length, split_crlf_block; [|done|eapply Forall_impl; [exact Hls|by intros x [? _]]].
  rewrite parse_headers_back by done. cbn [app].
  assert (content_length None (wire_headers ka r) = inr (Some (dec (zlen (rs_body r))))) as ->.
  { unfold wire_headers. rewrite content_length_absent by done. rewrite Hl.
    destruct (to_dec_digits (zlen (rs_body r))) as (-> & _); [lia|]. cbn [app content_length].
    replace (IEquals (h_name (mkHeader (lit "Content-Length") (dec (zlen (rs_body r))))) (lit "Content-Length"))
      with true by (by vm_compute). cbn match. by destruct (has_header (lit "Connection") (rs_headers r)), ka. }
  destruct (to_dec_digits (zlen (rs_body r))) as (_ & Hd & Hu); [lia|]. rewrite TrimOws_digits by done.
  destruct (length_digits_ok (dec (zlen (rs_body r))) 0) as [-> _]; [done|done|lia|]. rewrite Hu.
  set (hb := head_block _ _). assert (drop (length hb + 4) (hb ++ kCrlfCrlf ++ rs_body r ++ rest) = rs_body r ++ rest) as ->.
  { rewrite <-drop_drop, drop_app_length. done. }
  pose proof (zlen_nonneg rest). rewrite zlen_app. case_if; [|lia].
  by rewrite take_zlen, drop_zlen.
Qed.

Definition sample_response : HttpResponse :=
  set_body (lit "{}") (set_header (lit "Retry-After") (lit "1") (set_status 503 default_response)).

Lemma http_response_roundtrip_witness :
  read_response (serialize true sample_response ++ lit "HTTP") =
  Some (lit "HTTP/1.1 503 Service Unavailable",
        [mkHeader (lit "Retry-After") (lit "1"); mkHeader (lit "Content-Length") (lit "2");
         mkHeader (lit "Connection") (lit "keep-alive")], lit "{}", lit "HTTP").
Proof.
  rewrite http_response_roundtrip; [by vm_compute|]. split; try (by vm_compute).
  apply Forall_singleton. by vm_compute.
Defined.

(** The server answers 401 and 403, for which the table has no phrase. *)
Lemma refusals_have_no_phrase :
  HttpReasonPhrase 401 = lit "Unknown" ∧ HttpReasonPhrase 403 = lit "Unknown".
Proof. done. Qed.
