(* ===== verification/HttpStream.v ===== *)
(** * The requests of a byte stream

    The requests a parser finds in a stream, one after the other, as a function
    of the bytes; and how the parser's results relate to it when the bytes come
    in pieces. *)

From S2P Require Import Prelude.
From S2P Require Import Bytes.
From S2P Require Import Buffer.
From S2P Require Import HttpParser.
From S2P Require Import HttpResume.

Section Stream.
Context (mh mb : Z).

Fixpoint requests_fuel (fuel : nat) (p : Parser) (v : bytes) : list HttpRequest :=
  match fuel with
  | O => []
  | S fuel =>
      match parse mh mb p v with
      | Ok (Complete, p', v') => request_ p' :: requests_fuel fuel reset v'
      | _ => []
      end
  end.
Definition requests_from (p : Parser) (v : bytes) : list HttpRequest := requests_fuel (S (S (length v))) p v.
Definition requests_of (v : bytes) : list HttpRequest := requests_from reset v.

(** ** A request takes bytes *)

Lemma chunk_step_length p (v : bytes) r p' v' : chunk_step mb p v = (r, p', v') → (length v' ≤ length v)%nat.
Proof.
  unfold chunk_step. cbn [bq_view bq_consume list_queue].
  repeat case_match; intros [= <- <- <-]; rewrite ?length_drop; simplify_eq; simpl; rewrite ?length_drop; lia.
Qed.

Lemma parse_chunked_length fuel : ∀ p (v : bytes) g p' v',
  parse_chunked mb fuel p v = Ok (g, p', v') → (length v' ≤ length v)%nat.
Proof.
  induction fuel as [|fuel IH]; intros p v g p' v'; [done|]. cbn [parse_chunked].
  destruct (chunk_step mb p v) as [[[g1|] p1] v1] eqn:E; apply chunk_step_length in E.
  - by intros [= <- <- <-].
  - intros H%IH. lia.
Qed.

Lemma parse_step_length p (v : bytes) r p' v' :
  parse_step mh mb p v = Ok (r, p', v') →
  (length v' ≤ length v)%nat ∧ (state_ p = kHead → r = None → (length v' < length v)%nat) ∧
  (state_ p = kHead → r ≠ Some Complete).
Proof.
  unfold parse_step. cbn [bq_view bq_consume list_queue]. destruct (state_ p) eqn:Es.
  - destruct (find_str kCrlfCrlf v) as [n|] eqn:E; [|case_if; by intros [= <- <- <-]].
    apply find_crlfcrlf_len in E. case_if; [by intros [= <- <- <-]|].
    case_match; intros [= <- <- <-]; [done|]. rewrite length_drop. split_and!; [lia|intros; lia|done].
  - case_if; intros [= <- <- <-]; rewrite length_drop; (split_and!; [lia|done|done]).
  - destruct (parse_chunked mb _ p v) as [[[g p1] v1]|] eqn:E; [|done]. apply parse_chunked_length in E. simpl.
    destruct g; intros [= <- <- <-]; done.
  - by intros [= <- <- <-].
  - by intros [= <- <- <-].
Qed.

Lemma parse_loop_length fuel : ∀ p (v : bytes) g p' v',
  parse_loop mh mb fuel p v = Ok (g, p', v') → (length v' ≤ length v)%nat.
Proof.
  induction fuel as [|fuel IH]; intros p v g p' v'; [done|]. cbn [parse_loop].
  destruct (parse_step mh mb p v) as [[[r p1] v1]|] eqn:E; [|done]. simpl.
  apply parse_step_length in E as (Hle & _). destruct r; [by intros [= <- <- <-]|].
  intros H%IH. lia.
Qed.

Lemma parse_reset_shrinks (v : bytes) p' v' :
  parse mh mb reset v = Ok (Complete, p', v') → (length v' < length v)%nat.
Proof.
  unfold parse. cbn [parse_loop]. destruct (parse_step mh mb reset v) as [[[r p1] v1]|] eqn:E; [|done]. simpl.
  apply parse_step_length in E as (_ & Hlt & Hnc). destruct r as [g|].
  - intros [= -> -> ->]. by destruct Hnc.
  - specialize (Hlt eq_refl eq_refl). intros H%(parse_loop_length 2). lia.
Qed.

Lemma requests_fuel_enough n : ∀ m v, (length v < n)%nat → (length v < m)%nat →
  requests_fuel n reset v = requests_fuel m reset v.
Proof.
  induction n as [|n IH]; intros [|m] v Hn Hm; try lia. cbn [requests_fuel].
  destruct (parse mh mb reset v) as [[[g p'] v']|] eqn:E; [|done]. destruct g; try done.
  apply parse_reset_shrinks in E. f_equal. apply IH; lia.
Qed.

Lemma requests_from_eq p v :
  requests_from p v =
  match parse mh mb p v with
  | Ok (Complete, p', v') => request_ p' :: requests_of v'
  | _ => []
  end.
Proof.
  unfold requests_from at 1. cbn [requests_fuel].
  destruct (parse mh mb p v) as [[[g p'] v']|] eqn:E; [|done]. destruct g; try done.
  apply (parse_loop_length 3) in E. f_equal. apply (requests_fuel_enough (S (length v))); lia.
Qed.

(** ** More bytes *)

Lemma parse_loop_complete fuel : ∀ p v p' v' s,
  parser_ok p → parse_loop mh mb fuel p v = Ok (Complete, p', v') →
  parse_loop mh mb fuel p (v ++ s) = Ok (Complete, p', v' ++ s).
Proof.
  induction fuel as [|fuel IH]; intros p v p' v' s Hp Hrun; [done|]. cbn [parse_loop] in Hrun |- *.
  destruct (parse_step mh mb p v) as [[[[g|] p1] v1]|] eqn:E; [..|done]; simpl in Hrun.
  - injection Hrun as -> -> ->. revert E. unfold parse_step. destruct (state_ p).
    + repeat case_match; done.
    + by case_if.
    + destruct (parse_chunked mb _ p v) as [[[g p1] v1]|]; [|done]. by destruct g.
    + by intros [= -> ->].
    + done.
  - destruct (parse_step_none mh mb _ _ _ _ s Hp E) as (-> & Hp1 & _). simpl. by apply IH.
Qed.

Lemma parse_more_incomplete p v p' v' s :
  parser_ok p → parse mh mb p v = Ok (Incomplete, p', v') →
  parser_ok p' ∧ parse mh mb p (v ++ s) = parse mh mb p' (v' ++ s).
Proof.
  intros Hp Hrun. destruct (parse_loop_resume mh mb 3 p v p' v' s Hp) as (Hp' & r & H1 & H2);
    [by destruct (state_ p); simpl; lia|done|]. split; [done|]. unfold parse. congruence.
Qed.

Lemma requests_from_incomplete p v p' v' s :
  parser_ok p → parse mh mb p v = Ok (Incomplete, p', v') → requests_from p (v ++ s) = requests_from p' (v' ++ s).
Proof.
  intros Hp Hrun. destruct (parse_more_incomplete p v p' v' s Hp Hrun) as [_ E]. by rewrite !requests_from_eq, E.
Qed.

Lemma requests_from_complete p v p' v' s :
  parser_ok p → parse mh mb p v = Ok (Complete, p', v') →
  requests_from p (v ++ s) = request_ p' :: requests_from reset (v' ++ s).
Proof.
  intros Hp Hrun. rewrite requests_from_eq. unfold parse in Hrun |- *.
  by rewrite (parse_loop_complete 3 p v p' v' s Hp Hrun).
Qed.

(** ** Errors stay *)

Lemma parse_chunked_error fuel : ∀ p (v : bytes) p' v',
  parse_chunked mb fuel p v = Ok (Error, p', v') → state_ p' = kFailed.
Proof.
  induction fuel as [|fuel IH]; intros p v p' v'; [done|]. cbn [parse_chunked].
  destruct (chunk_step mb p v) as [[[g1|] p1] v1] eqn:E; [|apply IH]. intros [= -> -> ->].
  revert E. unfold chunk_step. repeat case_match; intros [= <- <-]; done.
Qed.

Lemma parse_loop_error fuel : ∀ p (v : bytes) p' v',
  parse_loop mh mb fuel p v = Ok (Error, p', v') → state_ p' = kFailed.
Proof.
  induction fuel as [|fuel IH]; intros p v p' v'; [done|]. cbn [parse_loop].
  destruct (parse_step mh mb p v) as [[[[g1|] p1] v1]|] eqn:E; [|simpl; apply IH|done]. simpl. intros [= -> -> ->].
  revert E. unfold parse_step. destruct (state_ p) eqn:Es.
  - repeat case_match; intros [= <- <-]; done.
  - case_if; done.
  - destruct (parse_chunked mb _ p v) as [[[g p1] v1]|] eqn:E; [|done]. simpl. destruct g; intros [= <- <-].
    by eapply parse_chunked_error.
  - done.
  - by intros [= <- <-].
Qed.

Lemma parse_failed p (v : bytes) : state_ p = kFailed → parse mh mb p v = Ok (Error, p, v).
Proof. intros Hp. unfold parse. cbn [parse_loop]. unfold parse_step. by rewrite Hp. Qed.

(** A parser that can go on. *)
Definition parser_live (p : Parser) : Prop := parser_ok p ∨ state_ p = kFailed.

(** Parsing a buffer: the result over its bytes. *)
Lemma parse_buffer p (b : Buffer) :
  buffer_ok b → parser_live p →
  ∃ g p' b', parse mh mb p b = Ok (g, p', b') ∧ parse mh mb p (buffer_view b) = Ok (g, p', buffer_view b') ∧ buffer_ok b'.
Proof.
  intros Hb Hp. pose proof (parse_loop_view mh mb 3 p b Hb) as Hv. unfold parse.
  assert (∃ r, parse_loop mh mb 3 p (buffer_view b) = Ok r) as [[[g p'] v'] Hr].
  { destruct Hp as [Hp|Hp]; [apply parse_loop_total; [done|by destruct (state_ p); simpl; lia]|].
    eexists. by apply parse_failed. }
  cbn [bq_view buffer_queue] in Hv. rewrite Hr in Hv |- *.
  destruct (parse_loop mh mb 3 p b) as [[[g0 p0] b0]|]; [|done]. destruct Hv as (H1 & H2 & H3).
  simpl in H1, H2, H3. simplify_eq. by exists g, p', b0.
Qed.
End Stream.
