(* ===== verification/HttpServer.v ===== *)
(** * The HTTP server ([net/http_server.cc])

    A connection reads, parses, dispatches and writes without blocking; the
    server finds the connection of a response by descriptor and connection id.
    The results of the read and write calls are scripts ([PipeIO]).  A handler
    answers its request before it returns or later; a response that arrives
    later, also one that another connection's handler causes, is an event of the
    session.  [cn_write_enabled] is the interest registered with the event loop,
    which delivers events to open connections only.

    [cn_received], [cn_sent], [cn_requests] and [cn_responses] record what the
    connection read, wrote, dispatched and answered.  A response carries the
    request it answers: connection id and number of the request on it. *)

From S2P Require Import Prelude.
From S2P Require Import Bytes.
From S2P Require Import Buffer.
From S2P Require Import PipeIO.
From S2P Require Import EventLoop.
From S2P Require Import HttpParser.
From S2P Require Import HttpResume.
From S2P Require Import HttpMessage.

Definition kHttpChunk : nat := Z.to_nat (16 * 1024).

(** The parser's default limits. *)
Definition kMaxHeaderBytes : Z := 64 * 1024.
Definition kMaxBodyBytes : Z := 8 * 1024 * 1024.

(** Whose request a response answers. *)
Definition Tag : Type := Z * nat.

Record HttpConnection := mkConn {
  cn_id : Z;
  cn_in : Buffer;
  cn_out : Buffer;
  cn_parser : Parser;
  cn_write_enabled : bool;
  cn_closing : bool;
  cn_peer_closed : bool;
  cn_closed : bool;
  cn_awaiting : bool;
  cn_in_dispatch : bool;
  cn_keep_alive : bool;
  cn_received : bytes;
  cn_sent : bytes;
  cn_requests : list HttpRequest;
  cn_responses : list (option Tag * bool * HttpResponse);
}.

Definition new_conn (id : Z) : HttpConnection :=
  mkConn id new_buffer new_buffer reset false false false false false false true [] [] [] [].

(** Field assignment. *)
Definition set_input (b : Buffer) (p : Parser) (rcvd : bytes) (c : HttpConnection) : HttpConnection :=
  mkConn (cn_id c) b (cn_out c) p (cn_write_enabled c) (cn_closing c) (cn_peer_closed c) (cn_closed c)
    (cn_awaiting c) (cn_in_dispatch c) (cn_keep_alive c) rcvd (cn_sent c) (cn_requests c) (cn_responses c).
Definition set_output (b : Buffer) (sent : bytes) (c : HttpConnection) : HttpConnection :=
  mkConn (cn_id c) (cn_in c) b (cn_parser c) (cn_write_enabled c) (cn_closing c) (cn_peer_closed c) (cn_closed c)
    (cn_awaiting c) (cn_in_dispatch c) (cn_keep_alive c) (cn_received c) sent (cn_requests c) (cn_responses c).
Definition set_flags (write_enabled closing peer_closed closed : bool) (c : HttpConnection) : HttpConnection :=
  mkConn (cn_id c) (cn_in c) (cn_out c) (cn_parser c) write_enabled closing peer_closed closed
    (cn_awaiting c) (cn_in_dispatch c) (cn_keep_alive c) (cn_received c) (cn_sent c) (cn_requests c) (cn_responses c).
Definition set_dispatch (awaiting in_dispatch keep_alive : bool) (requests : list HttpRequest) (c : HttpConnection)
    : HttpConnection :=
  mkConn (cn_id c) (cn_in c) (cn_out c) (cn_parser c) (cn_write_enabled c) (cn_closing c) (cn_peer_closed c)
    (cn_closed c) awaiting in_dispatch keep_alive (cn_received c) (cn_sent c) requests (cn_responses c).

(** A response is queued. *)
Definition put_response (tag : option Tag) (ka : bool) (resp : HttpResponse) (c : HttpConnection) : HttpConnection :=
  mkConn (cn_id c) (cn_in c) (buffer_append (serialize ka resp) (cn_out c)) (cn_parser c) (cn_write_enabled c)
    (cn_closing c) (cn_peer_closed c) (cn_closed c) (cn_awaiting c) (cn_in_dispatch c) (cn_keep_alive c)
    (cn_received c) (cn_sent c) (cn_requests c) (cn_responses c ++ [(tag, ka, resp)]).

Definition conn_close (c : HttpConnection) : HttpConnection :=
  set_flags (cn_write_enabled c) (cn_closing c) (cn_peer_closed c) true c.
Definition conn_closing (c : HttpConnection) : HttpConnection :=
  set_flags (cn_write_enabled c) true (cn_peer_closed c) (cn_closed c) c.

Definition want_write (on : bool) (c : HttpConnection) : HttpConnection :=
  set_flags on (cn_closing c) (cn_peer_closed c) (cn_closed c) c.

Definition conn_writable (ws : list io_write) (c : HttpConnection) : HttpConnection :=
  let '(en, out, sent) := write_loop ws (cn_out c) (cn_sent c) in
  let c := set_output out sent c in
  match en with
  | Drained => let c := want_write false c in if cn_closing c then conn_close c else c
  | Blocked => c
  | Broken => conn_close c
  end.

(** The end of [process_input]. *)
Definition flush_input (ws : list io_write) (c : HttpConnection) : HttpConnection :=
  let c := if negb (buf_empty (cn_out c)) then conn_writable ws (want_write true c) else c in
  if cn_closed c then c
  else if buf_empty (cn_out c) && negb (cn_awaiting c) && (cn_closing c || cn_peer_closed c)
       then conn_close c else c.

(** [complete_response] up to the call of [process_input]. *)
Definition accept_response (tag : Tag) (resp : HttpResponse) (ka : bool) (c : HttpConnection) : HttpConnection :=
  let c := put_response (Some tag) ka resp c in
  let c := set_dispatch false (cn_in_dispatch c) (cn_keep_alive c) (cn_requests c) c in
  if negb ka then conn_closing c else c.

Definition bad_request : HttpResponse := plain_text 400 (lit "Bad Request").

Section Connection.
Context {A : Type} (routes : list (RouteEntry A)).

(** The request's tag is its number on the connection. *)
Definition dispatch_request (a : A) (c : HttpConnection) : A * HttpConnection :=
  let req := request_ (cn_parser c) in
  let keep_alive := q_keep_alive req in
  let c := set_dispatch true true keep_alive (cn_requests c ++ [req]) c in
  let '(r, a) := dispatch routes req a in
  let c := match r with
           | Some resp => accept_response (cn_id c, length (cn_requests c)) resp keep_alive c
           | None => c
           end in
  let c := set_input (cn_in c) reset (cn_received c) c in
  (a, set_dispatch (cn_awaiting c) false (cn_keep_alive c) (cn_requests c) c).

(** The loop of [process_input]; [true]: it returned from inside the loop. *)
Fixpoint input_loop (fuel : nat) (a : A) (c : HttpConnection) : res (bool * A * HttpConnection) :=
  match fuel with
  | O => Err OutOfFuel
  | S fuel =>
      if cn_awaiting c then Ok (false, a, c)
      else
        '(g, p, b) ← parse kMaxHeaderBytes kMaxBodyBytes (cn_parser c) (cn_in c);
        let c := set_input b p (cn_received c) c in
        match g with
        | Complete =>
            let '(a, c) := dispatch_request a c in
            if cn_awaiting c then Ok (true, a, c)
            else if cn_closing c then Ok (false, a, c)
            else input_loop fuel a c
        | Incomplete => Ok (false, a, c)
        | Error => Ok (false, a, conn_closing (put_response None false bad_request c))
        end
  end.

(** A request takes at least four bytes, the first perhaps none that are still
    in the buffer. *)
Definition process_input (ws : list io_write) (a : A) (c : HttpConnection) : res (A * HttpConnection) :=
  '(returned, a, c) ← input_loop (S (S (buf_size (cn_in c)))) a c;
  Ok (a, if (returned : bool) then c else flush_input ws c).

Definition conn_readable (rs : list io_read) (ws : list io_write) (a : A) (c : HttpConnection)
    : res (A * HttpConnection) :=
  let '(en, b) := read_all kHttpChunk rs (cn_in c) in
  let c := set_input b (cn_parser c) (cn_received c ++ received rs) c in
  match en with
  | WouldBlock => process_input ws a c
  | EndOfFile => process_input ws a (set_flags (cn_write_enabled c) (cn_closing c) true (cn_closed c) c)
  | ReadFailed => Ok (a, conn_close c)
  end.

Definition conn_io_ready (events : Z) (rs : list io_read) (ws ws' : list io_write) (a : A) (c : HttpConnection)
    : res (A * HttpConnection) :=
  '(a, c) ← (if HasEvent events kReadable then conn_readable rs ws a c else Ok (a, c));
  if cn_closed c then Ok (a, c)
  else
    let c := if HasEvent events kWritable then conn_writable ws' c else c in
    if cn_closed c then Ok (a, c)
    else Ok (a, if HasEvent events kError then conn_close c else c).

Definition complete_response (tag : Tag) (resp : HttpResponse) (ka : bool) (ws : list io_write) (a : A)
    (c : HttpConnection) : res (A * HttpConnection) :=
  if cn_closed c then Ok (a, c)
  else
    let c := accept_response tag resp ka c in
    if cn_in_dispatch c then Ok (a, c) else process_input ws a c.
End Connection.

(** ** The server *)

(** What the responder of a request captures, and the request it is for. *)
Record Responder := mkResponder { rp_fd : Z; rp_id : Z; rp_request : nat; rp_keep_alive : bool }.

(** [hs_responders]: those of requests not answered yet; [hs_doomed]: the
    descriptors whose connection the loop's deferred calls will erase. *)
Record HttpServer (A : Type) := mkServer {
  hs_app : A;
  hs_conns : gmap Z HttpConnection;
  hs_next_conn_id : Z;
  hs_doomed : list Z;
  hs_responders : list Responder;
}.
Arguments mkServer {A}. Arguments hs_app {A}. Arguments hs_conns {A}. Arguments hs_next_conn_id {A}.
Arguments hs_doomed {A}. Arguments hs_responders {A}.

Section Server.
Context {A : Type} (routes : list (RouteEntry A)).

Definition new_server (a : A) : HttpServer A := mkServer a ∅ 1 [] [].

(** [ok]: the loop took the descriptor. *)
Definition server_accept (fd : Z) (ok : bool) (s : HttpServer A) : HttpServer A :=
  let id := hs_next_conn_id s in
  mkServer (hs_app s)
    (if ok then match hs_conns s !! fd with Some _ => hs_conns s | None => <[fd := new_conn id]> (hs_conns s) end
     else hs_conns s)
    (id + 1) (hs_doomed s) (hs_responders s).

(** The responder of a request that was dispatched and not answered. *)
Definition kept_responder (fd : Z) (c c' : HttpConnection) : list Responder :=
  if cn_awaiting c' && (length (cn_requests c) <? length (cn_requests c'))%nat
  then [mkResponder fd (cn_id c') (length (cn_requests c')) (cn_keep_alive c')] else [].

(** [close_connection] if the connection closed. *)
Definition after_call (fd : Z) (c : HttpConnection) (x : A * HttpConnection) (s : HttpServer A) : HttpServer A :=
  let '(a, c') := x in
  mkServer a (<[fd := c']> (hs_conns s)) (hs_next_conn_id s)
    (hs_doomed s ++ if negb (cn_closed c) && cn_closed c' then [fd] else [])
    (hs_responders s ++ kept_responder fd c c').

(** The loop reports events on a registered descriptor. *)
Definition server_io (fd events : Z) (rs : list io_read) (ws ws' : list io_write) (s : HttpServer A)
    : res (HttpServer A) :=
  match hs_conns s !! fd with
  | None => Ok s
  | Some c =>
      if cn_closed c then Ok s
      else x ← conn_io_ready routes events rs ws ws' (hs_app s) c; Ok (after_call fd c x s)
  end.

Definition deliver_response (fd id : Z) (n : nat) (resp : HttpResponse) (ka : bool) (ws : list io_write)
    (s : HttpServer A) : res (HttpServer A) :=
  match hs_conns s !! fd with
  | None => Ok s
  | Some c =>
      if negb (cn_id c =? id) then Ok s
      else x ← complete_response routes (id, n) resp ka ws (hs_app s) c; Ok (after_call fd c x s)
  end.

(** The deferred calls of the loop. *)
Definition erase_closed (s : HttpServer A) : HttpServer A :=
  mkServer (hs_app s) (foldl (λ m fd, delete fd m) (hs_conns s) (hs_doomed s)) (hs_next_conn_id s) []
    (hs_responders s).

(** ** Sessions *)

(** The application changes its state or answers the [k]-th open request, the
    loop reports a descriptor or runs its deferred calls, a connection comes. *)
Inductive http_event :=
  | Accepts (fd : Z) (ok : bool)
  | Ready (fd events : Z) (rs : list io_read) (ws ws' : list io_write)
  | Responds (k : nat) (resp : HttpResponse) (ws : list io_write)
  | AppChanges (f : A → A)
  | Deferred.

Definition http_step (s : HttpServer A) (e : http_event) : res (HttpServer A) :=
  match e with
  | Accepts fd ok => Ok (server_accept fd ok s)
  | Ready fd events rs ws ws' => server_io fd events rs ws ws' s
  | Responds k resp ws =>
      match hs_responders s !! k with
      | None => Ok s
      | Some r =>
          deliver_response (rp_fd r) (rp_id r) (rp_request r) resp (rp_keep_alive r) ws
            (mkServer (hs_app s) (hs_conns s) (hs_next_conn_id s) (hs_doomed s) (delete k (hs_responders s)))
      end
  | AppChanges f => Ok (mkServer (f (hs_app s)) (hs_conns s) (hs_next_conn_id s) (hs_doomed s) (hs_responders s))
  | Deferred => Ok (erase_closed s)
  end.

Definition http_session (a : A) (es : list http_event) : res (HttpServer A) :=
  res_foldl http_step (new_server a) es.
End Server.
