(* ===== verification/HttpServerProps.v ===== *)
(** * The HTTP server answers requests in order

    The invariant of a connection and of the server, and the theorem on any
    session: the requests dispatched are those of the bytes received, responses
    go out in the order of the requests, each to the request it answers. *)

From S2P Require Import Prelude.
From S2P Require Import Bytes.
From S2P Require Import Buffer.
From S2P Require Import PipeIO.
From S2P Require Import EventLoop.
From S2P Require Import HttpParser.
From S2P Require Import HttpResume.
From S2P Require Import HttpStream.
From S2P Require Import HttpMessage.
From S2P Require Import HttpServer.

Abbreviation stream_requests := (requests_of kMaxHeaderBytes kMaxBodyBytes).
Abbreviation more_requests := (requests_from kMaxHeaderBytes kMaxBodyBytes).

(** ** Invariant of a connection *)

(** The requests answered so far: all but the one being handled. *)
Definition answered (c : HttpConnection) : list HttpRequest :=
  if cn_awaiting c then removelast (cn_requests c) else cn_requests c.

(** The tags and keep-alive flags their responses must have. *)
Definition due_tags (id : Z) (qs : list HttpRequest) : list (option Tag * bool) :=
  imap (λ i q, (Some (id, S i), q_keep_alive q)) qs.

Definition wire (rs : list (option Tag * bool * HttpResponse)) : bytes :=
  mjoin ((λ x, serialize x.1.2 x.2) <$> rs).

Record conn_core (c : HttpConnection) : Prop := {
  cc_in : buffer_ok (cn_in c);
  cc_out : buffer_ok (cn_out c);
  cc_parser : parser_live (cn_parser c);
  cc_dispatch : cn_in_dispatch c = false;
  cc_wire : cn_sent c ++ buffer_view (cn_out c) = wire (cn_responses c);
  cc_answers : ∃ k, fst <$> cn_responses c = due_tags (cn_id c) (answered c) ++ replicate k (None, false) ∧
                    (k ≠ 0%nat → state_ (cn_parser c) = kFailed ∧ cn_awaiting c = false);
  cc_bad : Forall (λ x, x.1.1 = None → x.2 = bad_request) (cn_responses c);
  cc_waits : cn_awaiting c = true → q_keep_alive <$> last (cn_requests c) = Some (cn_keep_alive c);
  cc_prefix : ∀ s, cn_requests c `prefix_of` stream_requests (cn_received c ++ s);
  cc_requests : state_ (cn_parser c) ≠ kFailed → ∀ s,
    stream_requests (cn_received c ++ s) = cn_requests c ++ more_requests (cn_parser c) (buffer_view (cn_in c) ++ s);
}.

(** Between calls: what waits to be written will be written, and no complete
    request waits to be dispatched. *)
Record conn_ok (c : HttpConnection) : Prop := {
  co_core : conn_core c;
  co_flush : cn_closed c = false → buffer_view (cn_out c) ≠ [] → cn_write_enabled c = true ∨ cn_awaiting c = true;
  co_done : cn_closed c = false → cn_awaiting c = false → cn_closing c = false → state_ (cn_parser c) ≠ kFailed →
    more_requests (cn_parser c) (buffer_view (cn_in c)) = [];
}.

Lemma due_tags_snoc id qs q : due_tags id (qs ++ [q]) = due_tags id qs ++ [(Some (id, S (length qs)), q_keep_alive q)].
Proof. unfold due_tags. rewrite imap_app. simpl. by rewrite Nat.add_0_r. Qed.

Lemma wire_snoc rs x : wire (rs ++ [x]) = wire rs ++ serialize x.1.2 x.2.
Proof. unfold wire. rewrite fmap_app, join_app. simpl. by rewrite app_nil_r. Qed.

Lemma new_conn_ok id : conn_ok (new_conn id).
Proof.
  split; [split|done|done]; try (exact new_buffer_ok || done); try (by left).
  - by exists 0%nat.
  - simpl. intros s. apply prefix_nil.
Qed.

(** ** Calls on a connection *)

(** A field that the input and the requests do not depend on. *)
Lemma conn_core_flags w cl pc cd c : conn_core c → conn_core (set_flags w cl pc cd c).
Proof. by intros []. Qed.

Lemma conn_core_output b sent c :
  conn_core c → buffer_ok b → sent ++ buffer_view b = cn_sent c ++ buffer_view (cn_out c) → conn_core (set_output b sent c).
Proof. intros [] Hb Hs. split; try done. simpl. by rewrite Hs. Qed.

(** How a call changes a connection. *)
Definition evolves (c c' : HttpConnection) : Prop :=
  cn_id c' = cn_id c ∧ (cn_closed c = true → cn_closed c' = true) ∧
  (cn_awaiting c = true → cn_awaiting c' = true ∧ cn_requests c' = cn_requests c ∧ cn_keep_alive c' = cn_keep_alive c) ∧
  (cn_awaiting c = false → cn_awaiting c' = true → (length (cn_requests c) < length (cn_requests c'))%nat).

Lemma evolves_refl c : evolves c c.
Proof. split_and!; try done. congruence. Qed.

Lemma evolves_trans c1 c2 c3 : cn_requests c2 = cn_requests c1 → cn_awaiting c2 = cn_awaiting c1 →
  cn_keep_alive c2 = cn_keep_alive c1 → evolves c1 c2 → evolves c2 c3 → evolves c1 c3.
Proof.
  intros Hr Ha Hk (A1 & A2 & _ & _) (B1 & B2 & B3 & B4). unfold evolves. rewrite B1, <-A1, <-Hr, <-Ha, <-Hk. auto.
Qed.

(** A call that neither dispatches nor answers. *)
Definition same_requests (c c' : HttpConnection) : Prop :=
  cn_id c' = cn_id c ∧ (cn_closed c = true → cn_closed c' = true) ∧ cn_requests c' = cn_requests c ∧
  cn_awaiting c' = cn_awaiting c ∧ cn_keep_alive c' = cn_keep_alive c ∧ cn_parser c' = cn_parser c ∧
  cn_in c' = cn_in c ∧ cn_closing c' = cn_closing c.

Lemma same_requests_evolves c c' : same_requests c c' → evolves c c'.
Proof.
  intros (H1 & H2 & H3 & H4 & H5 & _). unfold evolves. rewrite H1, H3, H4, H5. split_and!; try done. congruence.
Qed.

Lemma conn_writable_ok ws c :
  conn_core c →
  let c' := conn_writable ws c in
  conn_core c' ∧ same_requests c c' ∧
  (cn_write_enabled c = true → cn_closed c' = false → buffer_view (cn_out c') ≠ [] → cn_write_enabled c' = true).
Proof.
  intros Hc. unfold conn_writable. pose proof (write_loop_ok ws (cn_out c) (cn_sent c) (cc_out _ Hc)) as Hw.
  destruct (write_loop ws (cn_out c) (cn_sent c)) as [[en out] sent].
  destruct Hw as (Hok & Hs & _ & Hd & _).
  assert (conn_core (set_output out sent c)) as H' by (by apply conn_core_output).
  destruct en; cbv zeta.
  - destruct (cn_closing _).
    + split; [by apply conn_core_flags, conn_core_flags|]. by split.
    + split; [by apply conn_core_flags|]. split; [done|]. intros _ _ Hne. by destruct Hne; apply Hd.
  - split; [done|]. by split.
  - split; [by apply conn_core_flags|]. by split.
Qed.

Lemma flush_input_ok ws c :
  conn_core c →
  (cn_awaiting c = true ∨ cn_closing c = true ∨ state_ (cn_parser c) = kFailed ∨
   more_requests (cn_parser c) (buffer_view (cn_in c)) = []) →
  conn_ok (flush_input ws c) ∧ same_requests c (flush_input ws c).
Proof.
  intros Hc Hdone. unfold flush_input.
  set (c1 := if negb (buf_empty (cn_out c)) then conn_writable ws (want_write true c) else c).
  assert (conn_core c1 ∧ same_requests c c1 ∧
          (cn_closed c1 = false → buffer_view (cn_out c1) ≠ [] → cn_write_enabled c1 = true)) as (H1 & H2 & H3).
  { unfold c1. destruct (buf_empty (cn_out c)) eqn:E; simpl.
    - split_and!; try done. intros _ Hne. destruct Hne. apply buf_empty_view; [by apply cc_out|done].
    - destruct (conn_writable_ok ws (want_write true c)) as (K1 & K2 & K3); [by apply conn_core_flags|].
      split; [done|]. split; [done|]. by apply K3. }
  assert (same_requests c (conn_close c1)) as H4 by (unfold same_requests in *; naive_solver).
  assert (conn_ok (conn_close c1)) as H5 by (split; [by apply conn_core_flags|done|done]).
  clearbody c1. destruct (cn_closed c1) eqn:Ecl; [split; [split; [done|congruence|congruence]|done]|].
  destruct (_ && _); [done|]. split; [|done]. destruct H2 as (_ & _ & Hr & Ha & _ & Hp & Hi & Hcl).
  split; [done|by left; apply H3|]. rewrite Ha, Hcl, Hp, Hi. intros _ F1 F2 F3.
  destruct Hdone as [?|[?|[?|?]]]; congruence.
Qed.

(** A dispatched request, answered at once or not. *)
Lemma dispatch_request_ok {A} (routes : list (RouteEntry A)) a c b p :
  conn_core c → cn_awaiting c = false → buffer_ok b →
  parse kMaxHeaderBytes kMaxBodyBytes (cn_parser c) (buffer_view (cn_in c)) = Ok (Complete, p, buffer_view b) →
  let c' := (dispatch_request routes a (set_input b p (cn_received c) c)).2 in
  conn_core c' ∧ cn_parser c' = reset ∧ cn_in c' = b ∧ cn_id c' = cn_id c ∧ cn_closed c' = cn_closed c ∧
  cn_requests c' = cn_requests c ++ [request_ p].
Proof.
  intros [Hin Hout Hp Hd Hw (k & Ha & Hk) Hb _ Hpre Hreq] Haw Hbok Hparse. unfold dispatch_request.
  assert (state_ (cn_parser c) ≠ kFailed) as Hnf by (intros Hf; by rewrite (parse_failed _ _ _ _ Hf) in Hparse).
  destruct Hp as [Hp|?]; [|done]. specialize (Hreq Hnf).
  assert (k = 0%nat) as -> by (destruct (decide (k = 0%nat)); [done|by destruct Hk]).
  simpl in Ha. rewrite app_nil_r in Ha. unfold answered in Ha. rewrite Haw in Ha.
  assert (∀ s, stream_requests (cn_received c ++ s) =
    (cn_requests c ++ [request_ p]) ++ more_requests reset (buffer_view b ++ s)) as Hs.
  { intros s. rewrite Hreq, (requests_from_complete _ _ _ _ _ _ s Hp Hparse). by rewrite <-app_assoc. }
  assert (∀ s, cn_requests c ++ [request_ p] `prefix_of` stream_requests (cn_received c ++ s)) as Hpre'.
  { intros s. rewrite Hs. by apply prefix_app_r. }
  cbn [cn_parser set_input request_ set_dispatch cn_requests cn_id].
  destruct (dispatch routes (request_ p) a) as [[resp|] a']; cbn [snd].
  - unfold accept_response, put_response, conn_closing. set (ka := q_keep_alive (request_ p)).
    split; [|by destruct ka; simpl].
    assert (buffer_ok (buffer_append (serialize ka resp) (cn_out c))) as Hok by (by apply buffer_append_ok).
    assert (cn_sent c ++ buffer_view (buffer_append (serialize ka resp) (cn_out c)) =
            wire (cn_responses c ++ [(Some (cn_id c, length (cn_requests c ++ [request_ p])), ka, resp)])) as Hw'.
    { rewrite buffer_append_view, app_assoc, Hw, wire_snoc by done. done. }
    assert (fst <$> (cn_responses c ++ [(Some (cn_id c, length (cn_requests c ++ [request_ p])), ka, resp)]) =
            due_tags (cn_id c) (cn_requests c ++ [request_ p]) ++ replicate 0 (None, false)) as Ha'.
    { rewrite fmap_app, Ha, due_tags_snoc. simpl. rewrite app_nil_r, length_app. simpl. by rewrite Nat.add_1_r. }
    assert (Forall (λ x : option Tag * bool * HttpResponse, x.1.1 = None → x.2 = bad_request)
      (cn_responses c ++ [(Some (cn_id c, length (cn_requests c ++ [request_ p])), ka, resp)])) as Hb'.
    { apply Forall_app. split; [done|]. by apply Forall_singleton. }
    destruct ka; split; simpl; try done; try (by left); by exists 0%nat.
  - split; [|done]. split; simpl; try done; try (by left).
    + exists 0%nat. unfold answered. simpl. rewrite removelast_last, Ha, app_nil_r. done.
    + intros _. by rewrite last_snoc.
Qed.

(** More input is asked for. *)
Lemma incomplete_ok c b p :
  conn_core c → buffer_ok b →
  parse kMaxHeaderBytes kMaxBodyBytes (cn_parser c) (buffer_view (cn_in c)) = Ok (Incomplete, p, buffer_view b) →
  let c' := set_input b p (cn_received c) c in
  conn_core c' ∧ more_requests p (buffer_view b) = [].
Proof.
  intros [Hin Hout Hp Hd Hw Ha Hb Hwt Hpre Hreq] Hbok Hparse.
  assert (state_ (cn_parser c) ≠ kFailed) as Hnf by (intros Hf; by rewrite (parse_failed _ _ _ _ Hf) in Hparse).
  destruct Hp as [Hp|?]; [|done]. specialize (Hreq Hnf).
  destruct (parse_more_incomplete _ _ _ _ _ _ [] Hp Hparse) as [Hp' _]. split.
  - split; try done; [by left| |].
    + destruct Ha as (k & Ha & Hk). exists k. split; [done|]. intros Hk0. by destruct (Hk Hk0).
    + intros _ s. simpl. by rewrite Hreq, (requests_from_incomplete _ _ _ _ _ _ s Hp Hparse).
  - pose proof (requests_from_incomplete _ _ _ _ _ _ [] Hp Hparse) as E. rewrite !app_nil_r in E.
    by rewrite <-E, requests_from_eq, Hparse.
Qed.

(** Malformed input is answered with 400. *)
Lemma malformed_ok c b p :
  conn_core c → cn_awaiting c = false → buffer_ok b →
  parse kMaxHeaderBytes kMaxBodyBytes (cn_parser c) (buffer_view (cn_in c)) = Ok (Error, p, buffer_view b) →
  conn_core (conn_closing (put_response None false bad_request (set_input b p (cn_received c) c))).
Proof.
  intros [Hin Hout Hp Hd Hw (k & Ha & Hk) Hb Hwt Hpre Hreq] Haw Hbok Hparse.
  pose proof (parse_loop_error _ _ _ _ _ _ _ Hparse) as Hf. split; simpl; try done.
  - by apply buffer_append_ok.
  - by right.
  - by rewrite buffer_append_view, app_assoc, Hw, wire_snoc.
  - exists (S k). split; [|done]. rewrite fmap_app, Ha. unfold answered. simpl.
    by rewrite replicate_cons_app, app_assoc.
  - apply Forall_app. split; [done|]. by apply Forall_singleton.
Qed.

Lemma input_loop_ok {A} (routes : list (RouteEntry A)) fuel : ∀ a c,
  conn_core c →
  (cn_parser c = reset ∧ (buf_size (cn_in c) < fuel)%nat ∨ (S (buf_size (cn_in c)) < fuel)%nat) →
  ∃ ret a' c', input_loop routes fuel a c = Ok (ret, a', c') ∧ conn_core c' ∧ evolves c c' ∧
    (ret = true → cn_awaiting c' = true) ∧
    (cn_awaiting c' = true ∨ cn_closing c' = true ∨ state_ (cn_parser c') = kFailed ∨
     more_requests (cn_parser c') (buffer_view (cn_in c')) = []).
Proof.
  induction fuel as [|fuel IH]; intros a c Hc Hfuel; [lia|]. cbn [input_loop].
  destruct (cn_awaiting c) eqn:Haw.
  { exists false, a, c. split_and!; [done|done|apply evolves_refl|done|by left]. }
  destruct (parse_buffer kMaxHeaderBytes kMaxBodyBytes _ _ (cc_in _ Hc) (cc_parser _ Hc)) as (g & p & b & Hrun & Hparse & Hbok).
  rewrite Hrun. cbn [mbind res_bind]. destruct g.
  - destruct (incomplete_ok c b p Hc Hbok Hparse) as [H1 H2]. eexists false, a, _. split; [done|]. split; [done|].
    split_and!; [|done|by auto]. split_and!; simpl; congruence.
  - pose proof (dispatch_request_ok routes a c b p Hc Haw Hbok Hparse) as (K1 & K2 & K3 & K4 & K5 & K6).
    destruct (dispatch_request routes a _) as [a1 c1]. cbn [snd] in *.
    assert (∀ c2, evolves c1 c2 → evolves c c2) as Hev.
    { intros c2 (E1 & E2 & E3 & E4). rewrite K4 in E1. rewrite K5 in E2. split_and!; [done|done|congruence|].
      intros _ Ha2. destruct (cn_awaiting c1) eqn:Ha1.
      - destruct (E3 eq_refl) as (_ & -> & _). rewrite K6, length_app. simpl. lia.
      - specialize (E4 eq_refl Ha2). rewrite K6, length_app in E4. simpl in E4. lia. }
    destruct (cn_awaiting c1) eqn:Ha1; [|destruct (cn_closing c1) eqn:Hc1].
    + exists true, a1, c1. split_and!; [done|done|apply Hev, evolves_refl|done|by left].
    + exists false, a1, c1. split_and!; [done|done|apply Hev, evolves_refl|done|by auto].
    + destruct (IH a1 c1 K1) as (ret & a2 & c2 & -> & L2 & L3 & L4).
      { left. split; [done|]. rewrite K3. rewrite <-(view_length _ Hbok).
        destruct Hfuel as [[Hr Hf]|Hf].
        - rewrite Hr in Hparse. apply parse_reset_shrinks in Hparse.
          rewrite (view_length (cn_in c)) in Hparse by apply Hc. lia.
        - apply (parse_loop_length _ _ 3) in Hparse. rewrite (view_length (cn_in c)) in Hparse by apply Hc. lia. }
      exists ret, a2, c2. split_and!; [done|done|by apply Hev|apply L4|apply L4].
  - eexists false, a, _. split; [done|]. split; [by eapply malformed_ok|].
    split_and!; [|done|by auto]. split_and!; simpl; congruence.
Qed.

Lemma process_input_ok {A} (routes : list (RouteEntry A)) ws a c :
  conn_core c → ∃ a' c', process_input routes ws a c = Ok (a', c') ∧ conn_ok c' ∧ evolves c c'.
Proof.
  intros Hc. unfold process_input.
  destruct (input_loop_ok routes (S (S (buf_size (cn_in c)))) a c Hc) as (ret & a1 & c1 & -> & H1 & H2 & H3 & H4); [lia|].
  cbn [mbind res_bind]. destruct ret.
  - exists a1, c1. specialize (H3 eq_refl). split_and!; [done| |done]. split; [done|by auto|congruence].
  - destruct (flush_input_ok ws c1 H1 H4) as [K1 K2]. eexists a1, _. split_and!; [done|done|].
    destruct H2 as (E1 & E2 & E3 & E4), K2 as (F1 & F2 & F3 & F4 & F5 & _). unfold evolves. rewrite F1, F3, F4, F5.
    split_and!; [done|auto|done|done].
Qed.

Lemma conn_readable_ok {A} (routes : list (RouteEntry A)) rs ws a c :
  conn_core c → kernel_reads kHttpChunk rs →
  ∃ a' c', conn_readable routes rs ws a c = Ok (a', c') ∧ conn_ok c' ∧ evolves c c'.
Proof.
  intros Hc Hrs. unfold conn_readable.
  pose proof (read_all_ok kHttpChunk rs (cn_in c) (cc_in _ Hc) Hrs) as [Hb Hv].
  destruct (read_all kHttpChunk rs (cn_in c)) as [en b]. simpl in Hb, Hv.
  set (c1 := set_input b (cn_parser c) (cn_received c ++ received rs) c).
  assert (conn_core c1) as Hc1.
  { destruct Hc as [Hin Hout Hp Hd Hw Ha Hbd Hwt Hpre Hreq]. split; simpl; try done.
    - intros s. rewrite <-app_assoc. apply Hpre.
    - intros Hnf s. rewrite <-app_assoc, Hreq, Hv, <-app_assoc by done. done. }
  assert (∀ c2, evolves c1 c2 → evolves c c2) as Hev by (intros c2 H; exact H).
  destruct en.
  - destruct (process_input_ok routes ws a c1 Hc1) as (a' & c' & -> & H1 & H2). eauto 10.
  - destruct (process_input_ok routes ws a (set_flags (cn_write_enabled c1) (cn_closing c1) true (cn_closed c1) c1))
      as (a' & c' & -> & H1 & H2); [by apply conn_core_flags|]. eauto 10.
  - eexists a, _. split; [done|]. split; [split; [by apply conn_core_flags|done|done]|].
    unfold evolves. simpl. split_and!; try done. congruence.
Qed.

Lemma conn_io_ready_ok {A} (routes : list (RouteEntry A)) events rs ws ws' a c :
  conn_ok c → kernel_reads kHttpChunk rs →
  ∃ a' c', conn_io_ready routes events rs ws ws' a c = Ok (a', c') ∧ conn_ok c' ∧ evolves c c'.
Proof.
  intros Hc Hrs. unfold conn_io_ready.
  assert (∃ a1 c1, (if HasEvent events kReadable then conn_readable routes rs ws a c else Ok (a, c)) = Ok (a1, c1) ∧
                   conn_ok c1 ∧ evolves c c1) as (a1 & c1 & -> & H1 & H2).
  { destruct (HasEvent events kReadable); [by apply conn_readable_ok; [apply co_core|]|].
    exists a, c. split_and!; [done|done|apply evolves_refl]. }
  cbn [mbind res_bind]. destruct (cn_closed c1) eqn:Ecl; [by eauto 10|].
  set (c2 := if HasEvent events kWritable then conn_writable ws' c1 else c1).
  assert (conn_ok c2 ∧ same_requests c1 c2) as [K1 K2].
  { unfold c2. destruct (HasEvent events kWritable); [|by split].
    destruct (conn_writable_ok ws' c1 (co_core _ H1)) as (L1 & L2 & L3). split; [|done].
    pose proof L2 as (_ & _ & Hr & Ha & _ & Hp & Hi & Hcl). split; [done| |].
    - intros Hop Hne. rewrite Ha. destruct (cn_awaiting c1) eqn:Ha1; [by right|]. left. apply L3; [|done|done].
      destruct (co_flush _ H1 Ecl) as [?|?]; [|done|congruence]. intros Hnil. apply Hne.
      unfold conn_writable. rewrite write_loop_empty by (apply buf_empty_view; [apply (co_core _ H1)|done]).
      by destruct (cn_closing (want_write _ _)).
    - rewrite Ha, Hcl, Hp, Hi. intros _. by apply co_done. }
  assert (∀ c3, same_requests c2 c3 → evolves c c3) as Hev.
  { intros c3 (F1 & F2 & F3 & F4 & F5 & _). destruct K2 as (G1 & G2 & G3 & G4 & G5 & _), H2 as (E1 & E2 & E3 & E4).
    unfold evolves. rewrite F1, F3, F4, F5, G1, G3, G4, G5. split_and!; [done|auto|done|done]. }
  clearbody c2. destruct (cn_closed c2); [exists a1, c2; split_and!; [done|done|by apply Hev]|].
  eexists a1, _. split; [done|]. destruct (HasEvent events kError); [|split; [done|by apply Hev]].
  split; [split; [by apply conn_core_flags, co_core|done|done]|]. by apply Hev.
Qed.

Lemma accept_response_ok resp c :
  conn_core c → cn_awaiting c = true →
  conn_core (accept_response (cn_id c, length (cn_requests c)) resp (cn_keep_alive c) c).
Proof.
  intros [Hin Hout Hp Hd Hw (k & Ha & Hk) Hb Hwt Hpre Hreq] Haw. specialize (Hwt Haw).
  destruct (last (cn_requests c)) as [q|] eqn:El; [|done]. apply last_Some in El as [qs Eq].
  injection Hwt as Hka. assert (k = 0%nat) as -> by (destruct (decide (k = 0%nat)); [done|destruct Hk; congruence]).
  unfold answered in Ha. rewrite Haw, Eq, removelast_last, app_nil_r in Ha.
  unfold accept_response, conn_closing. destruct (cn_keep_alive c) eqn:Ek; split; simpl; try done.
  all: try (by apply buffer_append_ok).
  all: try (by rewrite buffer_append_view, app_assoc, Hw, wire_snoc).
  all: try (apply Forall_app; split; [done|]; by apply Forall_singleton).
  all: exists 0%nat; split; [|done]; rewrite fmap_app, Ha, app_nil_r; unfold answered; simpl.
  all: rewrite Eq, due_tags_snoc, Hka, length_app; simpl; by rewrite Nat.add_1_r.
Qed.

Lemma complete_response_ok {A} (routes : list (RouteEntry A)) resp ws a c :
  conn_ok c → cn_awaiting c = true →
  ∃ a' c', complete_response routes (cn_id c, length (cn_requests c)) resp (cn_keep_alive c) ws a c = Ok (a', c') ∧
    conn_ok c' ∧ cn_id c' = cn_id c ∧ (cn_closed c = true → c' = c) ∧
    (cn_awaiting c' = true → cn_closed c = false → (length (cn_requests c) < length (cn_requests c'))%nat).
Proof.
  intros Hc Haw. unfold complete_response. destruct (cn_closed c) eqn:Ecl.
  { exists a, c. by split_and!. }
  pose proof (accept_response_ok resp c (co_core _ Hc) Haw) as H1. set (c1 := accept_response _ _ _ c) in *.
  rewrite (cc_dispatch _ H1). destruct (process_input_ok routes ws a c1 H1) as (a' & c' & -> & H2 & E1 & E2 & E3 & E4).
  exists a', c'. assert (cn_id c1 = cn_id c ∧ cn_awaiting c1 = false ∧ cn_requests c1 = cn_requests c) as (G1 & G2 & G3)
    by (unfold c1, accept_response; by destruct (cn_keep_alive c)).
  split_and!; [done|done|congruence|done|]. intros Ha' _. rewrite <-G3. by apply E4.
Qed.

(** ** Invariant of the server *)
Section ServerInv.
Context {A : Type} (routes : list (RouteEntry A)).
Implicit Types s : HttpServer A.

Definition responder_key (r : Responder) : Z * Z := (rp_fd r, rp_id r).

(** The responder is for the request its connection is handling. *)
Definition current (r : Responder) (c : HttpConnection) : Prop :=
  cn_awaiting c = true ∧ rp_request r = length (cn_requests c) ∧ rp_keep_alive r = cn_keep_alive c.

Record responders_ok s : Prop := {
  ro_conns fd c : hs_conns s !! fd = Some c → conn_ok c ∧ cn_id c < hs_next_conn_id s;
  ro_unique fd fd' c c' :
    hs_conns s !! fd = Some c → hs_conns s !! fd' = Some c' → cn_id c = cn_id c' → fd = fd';
  ro_current r : r ∈ hs_responders s → rp_id r < hs_next_conn_id s ∧
    ∀ c, hs_conns s !! rp_fd r = Some c → cn_id c = rp_id r → current r c;
  ro_nodup : NoDup (responder_key <$> hs_responders s);
}.

(** An open connection that handles a request has its responder out. *)
Definition awaited s (fd : Z) (c : HttpConnection) : Prop :=
  cn_closed c = false → cn_awaiting c = true → ∃ r, r ∈ hs_responders s ∧ responder_key r = (fd, cn_id c).

Definition server_ok s : Prop :=
  responders_ok s ∧ ∀ fd c, hs_conns s !! fd = Some c → awaited s fd c.

Lemma after_call_ok fd c a c' s :
  responders_ok s → (∀ fd' x, fd' ≠ fd → hs_conns s !! fd' = Some x → awaited s fd' x) →
  hs_conns s !! fd = Some c → conn_ok c' → cn_id c' = cn_id c →
  (kept_responder fd c c' ≠ [] → ∀ r, r ∈ hs_responders s → responder_key r ≠ (fd, cn_id c)) →
  (kept_responder fd c c' = [] → (∀ r, r ∈ hs_responders s → responder_key r = (fd, cn_id c) → current r c') ∧
     awaited s fd c') →
  server_ok (after_call fd c (a, c') s).
Proof.
  intros [Hc Hu Hr Hn] Hw Hfd Hok Hid Hnew Hold. unfold after_call.
  assert (kept_responder fd c c' = [] ∨
    kept_responder fd c c' = [mkResponder fd (cn_id c') (length (cn_requests c')) (cn_keep_alive c')] ∧
    cn_awaiting c' = true) as Hk.
  { unfold kept_responder. destruct (cn_awaiting c'); [|by left]. simpl. destruct (_ <? _)%nat; auto. }
  destruct (Hc _ _ Hfd) as [_ Hlt]. split; [split|]; simpl.
  - intros fd' x. rewrite lookup_insert_Some. intros [[<- <-]|[? ?]]; [split; [done|by rewrite Hid]|eauto].
  - intros fd1 fd2 c1 c2. rewrite !lookup_insert_Some. intros [[<- <-]|[Hne1 H1]] [[<- <-]|[Hne2 H2]] E; [done|..].
    + rewrite Hid in E. by apply (Hu fd fd2 c c2).
    + rewrite Hid in E. by apply (Hu fd1 fd c1 c).
    + by apply (Hu fd1 fd2 c1 c2).
  - intros r. rewrite elem_of_app. intros [Hin|Hin].
    + destruct (Hr r Hin) as [Hlr Hcur]. split; [done|]. intros x. rewrite lookup_insert_Some.
      intros [[Ef <-]|[? ?]] E; [|by apply Hcur]. destruct Hk as [Hk|[Hk _]].
      * destruct (Hold Hk) as [H1 _]. apply H1; [done|]. unfold responder_key. by rewrite <-E, Hid, Ef.
      * exfalso. rewrite Hk in Hnew. apply (Hnew ltac:(done) r Hin). unfold responder_key. by rewrite <-E, Hid, Ef.
    + destruct Hk as [Hk|[Hk Haw]]; rewrite Hk in Hin; [by apply not_elem_of_nil in Hin|].
      apply list_elem_of_singleton in Hin as ->. simpl. split; [by rewrite Hid|]. intros x. rewrite lookup_insert_eq.
      by intros [= <-] _.
  - rewrite fmap_app, NoDup_app. split; [done|]. destruct Hk as [Hk|[Hk _]]; rewrite Hk in *; simpl.
    + split; [set_solver|constructor].
    + split; [|apply NoDup_singleton]. intros x (r & -> & Hin)%list_elem_of_fmap Hx.
      apply list_elem_of_singleton in Hx. unfold responder_key in Hx at 2. simpl in Hx. rewrite Hid in Hx.
      by apply (Hnew ltac:(done) r Hin).
  - intros fd' x. rewrite lookup_insert_Some. intros [[<- <-]|[Hne Hx]]; intros Hcl Haw.
    + destruct Hk as [Hk|[Hk _]].
      * destruct (Hold Hk) as [_ H2]. destruct (H2 Hcl Haw) as (r & ? & ?). exists r. simpl. rewrite Hk, app_nil_r. done.
      * rewrite Hk. eexists. simpl. rewrite elem_of_app, list_elem_of_singleton. split; [by right|done].
    + destruct (Hw fd' x (not_eq_sym Hne) Hx Hcl Haw) as (r & ? & ?). exists r. simpl. rewrite elem_of_app. auto.
Qed.

(** A call that starts from an open request keeps it; one that starts from none
    has no responder out. *)
Lemma server_io_ok fd events rs ws ws' s :
  server_ok s → kernel_reads kHttpChunk rs →
  ∃ s', server_io routes fd events rs ws ws' s = Ok s' ∧ server_ok s'.
Proof.
  intros [Hs Hw] Hrs. unfold server_io. destruct (hs_conns s !! fd) as [c|] eqn:Hfd; [|by exists s].
  destruct (cn_closed c) eqn:Ecl; [by exists s|]. destruct (ro_conns _ Hs _ _ Hfd) as [Hc Hlt].
  destruct (conn_io_ready_ok routes events rs ws ws' (hs_app s) c Hc Hrs) as (a' & c' & -> & H1 & E1 & E2 & E3 & E4).
  eexists. split; [done|]. apply after_call_ok; try done; [by intros; apply Hw| |].
  - intros Hk r Hin Er. destruct (ro_current _ Hs r Hin) as [_ Hcur]. injection Er as Ef Ei.
    destruct (Hcur c) as (Haw & _); [by rewrite Ef|done|]. destruct (E3 Haw) as (_ & Hq & _).
    unfold kept_responder in Hk. rewrite Hq, Nat.ltb_irrefl, andb_false_r in Hk. done.
  - intros Hk. split.
    + intros r Hin Er. destruct (ro_current _ Hs r Hin) as [_ Hcur]. injection Er as Ef Ei.
      destruct (Hcur c) as (Haw & Hn & Hka); [by rewrite Ef|done|]. destruct (E3 Haw) as (? & Eq & Ek). split_and!; congruence.
    + intros Hcl' Haw'. rewrite E1. destruct (cn_awaiting c) eqn:Haw; [by apply (Hw fd c Hfd)|].
      specialize (E4 eq_refl Haw'). unfold kept_responder in Hk. rewrite Haw' in Hk. simpl in Hk.
      apply Nat.ltb_lt in E4. by rewrite E4 in Hk.
Qed.

Definition forget (k : nat) s : HttpServer A :=
  mkServer (hs_app s) (hs_conns s) (hs_next_conn_id s) (hs_doomed s) (delete k (hs_responders s)).

Lemma responder_delete k r (l : list Responder) :
  NoDup (responder_key <$> l) → l !! k = Some r →
  NoDup (responder_key <$> delete k l) ∧
  (∀ x, x ∈ delete k l → x ∈ l ∧ responder_key x ≠ responder_key r) ∧
  (∀ x, x ∈ l → responder_key x ≠ responder_key r → x ∈ delete k l).
Proof.
  intros Hn Hk. apply list_elem_of_split_length in Hk as (l1 & l2 & -> & ->).
  rewrite delete_middle. rewrite fmap_app, fmap_cons in Hn.
  apply NoDup_middle in Hn as [Hnot Hn]. split_and!.
  - by rewrite fmap_app.
  - intros x Hx. split; [set_solver|]. intros E. apply Hnot. rewrite <-E, <-fmap_app. by apply list_elem_of_fmap_2.
  - intros x. rewrite elem_of_app, elem_of_cons, elem_of_app. intros [?|[->|?]] ?; [by left|done|by right].
Qed.

Lemma responds_ok k r resp ws s :
  server_ok s → hs_responders s !! k = Some r →
  ∃ s', deliver_response routes (rp_fd r) (rp_id r) (rp_request r) resp (rp_keep_alive r) ws (forget k s) = Ok s' ∧
    server_ok s'.
Proof.
  intros [Hs Hw] Hk. destruct (responder_delete k r _ (ro_nodup _ Hs) Hk) as (D1 & D2 & D3).
  pose proof (list_elem_of_lookup_2 _ _ _ Hk) as Hin. destruct (ro_current _ Hs r Hin) as [Hlr Hcur].
  assert (responders_ok (forget k s)) as Hf.
  { destruct Hs as [P1 P2 P3 P4]. split; try done. intros x [Hx _]%D2. by apply P3. }
  assert (∀ fd x, (fd, cn_id x) ≠ responder_key r → hs_conns s !! fd = Some x → awaited (forget k s) fd x) as Hoth.
  { intros fd x Hne Hx Hcl Haw. destruct (Hw fd x Hx Hcl Haw) as (r' & Hr' & Ek). exists r'. split; [|done].
    apply D3; [done|]. by rewrite Ek. }
  unfold deliver_response. simpl. destruct (hs_conns s !! rp_fd r) as [c|] eqn:Hfd.
  2: { eexists. split; [done|]. split; [done|]. intros fd x Hx. simpl in Hx. apply Hoth; [|done].
       unfold responder_key. intros [= ? ?]. congruence. }
  destruct (Z.eqb_spec (cn_id c) (rp_id r)) as [Eid|Eid]; simpl.
  2: { eexists. split; [done|]. split; [done|]. intros fd x Hx. simpl in Hx. apply Hoth; [|done].
       unfold responder_key. intros [= ? ?]. congruence. }
  destruct (Hcur c eq_refl Eid) as (Haw & Hn & Hka). destruct (ro_conns _ Hs _ _ Hfd) as [Hc Hlt].
  rewrite <-Eid, Hn, Hka.
  destruct (complete_response_ok routes resp ws (hs_app s) c Hc Haw) as (a' & c' & -> & H1 & H2 & H3 & H4).
  eexists. split; [done|]. apply after_call_ok; try done.
  - intros fd' x Hne Hx. simpl in Hx. apply Hoth; [|done]. unfold responder_key. intros [= ? _]. congruence.
  - intros _ x [_ Hx]%D2 Ex. apply Hx. unfold responder_key at 2. by rewrite Ex, Eid.
  - intros Hkept. split.
    + intros x [_ Hx]%D2 Ex. destruct Hx. unfold responder_key at 2. by rewrite Ex, Eid.
    + intros Hcl' Haw'. exfalso. destruct (cn_closed c) eqn:Ecl; [rewrite H3 in Hcl' by done; congruence|].
      specialize (H4 Haw' eq_refl). apply Nat.ltb_lt in H4. unfold kept_responder in Hkept.
      by rewrite Haw', H4 in Hkept.
Qed.

Lemma server_accept_ok fd ok s : server_ok s → server_ok (server_accept fd ok s).
Proof.
  intros [[P1 P2 P3 P4] Hw]. unfold server_accept.
  assert (server_ok (mkServer (hs_app s) (hs_conns s) (hs_next_conn_id s + 1) (hs_doomed s) (hs_responders s))) as Hsame.
  { split; [split; simpl; try done|done].
    - intros fd' c Hc. destruct (P1 fd' c Hc). split; [done|lia].
    - intros r Hr. destruct (P3 r Hr). split; [lia|done]. }
  destruct ok; [|done]. destruct (hs_conns s !! fd) as [c|] eqn:Hfd; [done|]. clear Hsame.
  assert (∀ fd' x, fd' ≠ fd → <[fd := new_conn (hs_next_conn_id s)]> (hs_conns s) !! fd' = Some x →
                   hs_conns s !! fd' = Some x) as Hne by (intros ???; by rewrite lookup_insert_ne).
  split; [split; simpl|simpl].
  - intros fd' c. rewrite lookup_insert_Some. intros [[_ <-]|[_ Hc]]; [split; [apply new_conn_ok|simpl; lia]|].
    destruct (P1 fd' c Hc). split; [done|lia].
  - intros fd1 fd2 c1 c2. rewrite !lookup_insert_Some. intros [[<- <-]|[_ H1]] [[<- <-]|[_ H2]] E; [done|..].
    + destruct (P1 _ _ H2). simpl in E. lia.
    + destruct (P1 _ _ H1). simpl in E. lia.
    + by apply (P2 fd1 fd2 c1 c2).
  - intros r Hr. destruct (P3 r Hr) as [Hlr Hcur]. split; [lia|]. intros c. rewrite lookup_insert_Some.
    intros [[_ <-]|[_ Hc]]; [simpl; lia|by apply Hcur].
  - done.
  - intros fd' c. rewrite lookup_insert_Some. intros [[_ <-]|[_ Hc]]; [done|]. by apply Hw.
Qed.

Lemma lookup_doomed l : ∀ (m : gmap Z HttpConnection) fd c,
  foldl (λ m fd, delete fd m) m l !! fd = Some c → m !! fd = Some c.
Proof.
  induction l as [|x l IH]; intros m fd c; [done|]. simpl. intros H%IH. by apply lookup_delete_Some in H as [_ ?].
Qed.

Lemma erase_closed_ok s : server_ok s → server_ok (erase_closed s).
Proof.
  intros [[P1 P2 P3 P4] Hw]. split; [split; simpl|simpl].
  - intros fd c Hc%lookup_doomed. eauto.
  - intros fd1 fd2 c1 c2 H1%lookup_doomed H2%lookup_doomed. eauto.
  - intros r Hr. destruct (P3 r Hr) as [Hlr Hcur]. split; [done|]. intros c Hc%lookup_doomed. auto.
  - done.
  - intros fd c Hc%lookup_doomed. by apply Hw.
Qed.

(** A read returns at most a chunk. *)
Definition event_ok (e : http_event (A := A)) : Prop :=
  match e with Ready _ _ rs _ _ => kernel_reads kHttpChunk rs | _ => True end.

Lemma http_step_ok s e : server_ok s → event_ok e → ∃ s', http_step routes s e = Ok s' ∧ server_ok s'.
Proof.
  intros Hs He. destruct e as [fd ok|fd events rs ws ws'|k resp ws|f|]; simpl.
  - eexists. split; [done|]. by apply server_accept_ok.
  - by apply server_io_ok.
  - destruct (hs_responders s !! k) as [r|] eqn:Hk; [by apply responds_ok|by exists s].
  - eexists. split; [done|]. by destruct Hs as [[P1 P2 P3 P4] Hw].
  - eexists. split; [done|]. by apply erase_closed_ok.
Qed.

Lemma http_session_ok a es : Forall event_ok es → ∃ s, http_session routes a es = Ok s ∧ server_ok s.
Proof.
  intros Hes. unfold http_session. assert (server_ok (new_server a)) as Hs.
  { split; [split; simpl|simpl]; try done; try set_solver. constructor. }
  revert Hs. generalize (new_server a). induction Hes as [|e es He Hes IH]; intros s Hs; [by exists s|].
  destruct (http_step_ok s e Hs He) as (s1 & Hs1 & Hok). cbn [res_foldl]. rewrite Hs1. by apply IH.
Qed.
End ServerInv.

(** C33: responses in order.  Whatever the connections, the bytes they carry and
    how they are cut, the results of the system calls, the handlers and the
    moments they answer, the server returns, and for every connection: the
    requests dispatched are a prefix of the requests in the bytes received; what
    was written and what waits to be written are the responses in the order of
    the requests, each answering its own (the tag names connection and request)
    with its keep-alive flag, followed by [400] responses only if the input was
    malformed; and an open connection either waits for the answer to its last
    request, whose responder the application holds, or has dispatched everything
    it received, unless it is closing, and has write interest while bytes are
    left. *)
Theorem http_answers_in_order {A} (routes : list (RouteEntry A)) a es :
  Forall event_ok es →
  ∃ s, http_session routes a es = Ok s ∧
    (∀ fd fd' c c', hs_conns s !! fd = Some c → hs_conns s !! fd' = Some c' → cn_id c = cn_id c' → fd = fd') ∧
    ∀ fd c, hs_conns s !! fd = Some c →
      cn_requests c `prefix_of` stream_requests (cn_received c) ∧
      cn_sent c ++ buffer_view (cn_out c) = wire (cn_responses c) ∧
      (∃ bad, fst <$> cn_responses c = due_tags (cn_id c) (answered c) ++ replicate bad (None, false) ∧
              (bad ≠ 0%nat → state_ (cn_parser c) = kFailed ∧ cn_awaiting c = false)) ∧
      Forall (λ x, x.1.1 = None → x.2 = bad_request) (cn_responses c) ∧
      (cn_closed c = false →
       if cn_awaiting c
       then ∃ ka, mkResponder fd (cn_id c) (length (cn_requests c)) ka ∈ hs_responders s
       else (cn_closing c = true ∨ state_ (cn_parser c) = kFailed ∨ cn_requests c = stream_requests (cn_received c)) ∧
            (buffer_view (cn_out c) ≠ [] → cn_write_enabled c = true)).
Proof.
  intros Hes. destruct (http_session_ok routes a es Hes) as (s & Hrun & Hs & Hw). exists s. split; [done|].
  split; [exact (ro_unique _ Hs)|]. intros fd c Hc. destruct (ro_conns _ Hs fd c Hc) as [Hok _].
  pose proof (co_core _ Hok) as [_ _ _ _ Hwire Ha Hb _ Hp Hr]. split_and!; try done.
  { specialize (Hp []). by rewrite app_nil_r in Hp. }
  intros Hop. destruct (cn_awaiting c) eqn:Haw.
  - destruct (Hw fd c Hc Hop Haw) as (r & Hin & [= E1 E2]). destruct (ro_current _ Hs r Hin) as [_ Hcur].
    rewrite E1 in Hcur. destruct (Hcur c Hc (eq_sym E2)) as (_ & Hn & _). exists (rp_keep_alive r). rewrite <-Hn, <-E1, <-E2.
    by destruct r.
  - split.
    + destruct (cn_closing c) eqn:Ecl; [by left|]. right.
      assert (state_ (cn_parser c) = kFailed ∨ state_ (cn_parser c) ≠ kFailed) as [Hf|Hnf]
        by (destruct (state_ (cn_parser c)); auto); [by left|]. right.
      specialize (Hr Hnf []). by rewrite !app_nil_r, (co_done _ Hok Hop Haw Ecl Hnf), app_nil_r in Hr.
    + intros Hne. by destruct (co_flush _ Hok Hop Hne) as [?|?]; [|congruence].
Qed.

(** ** A concrete server: a health check and an asynchronous order entry *)

Definition sample_routes : list (RouteEntry nat) :=
  add_async (lit "POST") (lit "/orders") (λ _ n, (None, S n))
    (add_sync (lit "GET") (lit "/health") (λ _ n, (plain_text 200 (lit "ok"), n)) []).

Definition get_health : bytes := crlf_join [lit "GET /health HTTP/1.1"; lit "Host: x"; []].
Definition post_order (extra : list bytes) : bytes :=
  crlf_join ([lit "POST /orders HTTP/1.1"; lit "Content-Length: 2"] ++ extra ++ [[]]) ++ lit "a=".

(** A request cut in two, one that another path answers with 404, an answer that
    comes when the connection has gone. *)
Definition sample_session : list (http_event (A := nat)) :=
  [Accepts 5 true; Ready 5 kReadable [RData (take 30 get_health); RIntr; RAgain] [] [];
   Ready 5 kReadable [RData (drop 30 get_health ++ post_order [])] [WCount 1000] [];
   Accepts 6 true; Ready 6 kReadable [RData (lit "DELETE"); RData (lit " /x HTTP/1.0"); RData kCrlfCrlf] [WCount 20] [];
   Responds 0 (plain_text 200 (lit "{}")) [WCount 40; WAgain]; Ready 5 kWritable [] [] [WCount 1000]].

Lemma sample_session_ok : Forall event_ok sample_session.
Proof.
  unfold sample_session. repeat (apply Forall_cons; split); try exact I; try (by apply Forall_nil).
  all: unfold event_ok, kernel_reads; repeat (apply Forall_cons; split); try exact I; try (by apply Forall_nil).
  all: apply Nat.leb_le; by vm_compute.
Qed.

(** What can be seen of the connection on descriptor 5: the requests the
    handlers counted, the tags of the responses, the requests in the bytes
    received, the bytes sent and those that wait. *)
Definition probe (r : res (HttpServer nat)) : option (nat * list (option Tag * bool) * nat * bytes * bytes * bool) :=
  match r with
  | Ok s =>
      match hs_conns s !! 5 with
      | Some c => Some (hs_app s, fst <$> cn_responses c, length (stream_requests (cn_received c)), cn_sent c,
                        buffer_view (cn_out c), cn_write_enabled c)
      | None => None
      end
  | Err _ => None
  end.

Lemma http_answers_in_order_witness :
  match http_session sample_routes 0%nat sample_session with
  | Ok s => hs_app s = 1%nat ∧
      ∃ c, hs_conns s !! 5 = Some c ∧ cn_sent c = wire (cn_responses c) ∧
        fst <$> cn_responses c = [(Some (1, 1%nat), true); (Some (1, 2%nat), true)] ∧
        length (stream_requests (cn_received c)) = 2%nat
  | Err _ => False
  end.
Proof.
  destruct (http_answers_in_order sample_routes 0%nat sample_session sample_session_ok) as (s & Hrun & _ & Hs).
  assert (∃ sent, probe (http_session sample_routes 0%nat sample_session) =
            Some (1%nat, [(Some (1, 1%nat), true); (Some (1, 2%nat), true)], 2%nat, sent, [], false)) as [sent He]
    by (eexists; vm_compute; reflexivity).
  rewrite Hrun in He |- *. unfold probe in He. destruct (hs_conns s !! 5) as [c|] eqn:Hc; [|done].
  injection He as Happ Htags Hlen _ Hout _. split; [done|]. exists c.
  destruct (Hs 5 c Hc) as (_ & Hwire & _). rewrite Hout, app_nil_r in Hwire. by split_and!.
Defined.

(** ** Pipelining around asynchronous handlers *)

(** The response to a first request stays in the buffer, without write interest,
    until the second, asynchronous one is answered: [process_input] returns from
    inside its loop. *)
Lemma response_withheld :
  probe (http_session sample_routes 0%nat
           [Accepts 5 true; Ready 5 kReadable [RData (get_health ++ post_order [])] [WCount 1000] []]) =
  Some (1%nat, [(Some (1, 1%nat), true)], 2%nat, [], serialize true (plain_text 200 (lit "ok")), false).
Proof. vm_compute. reflexivity. Qed.

(** A request pipelined behind one that asked to close the connection is
    dispatched if the first handler was asynchronous, and is not if it was
    synchronous. *)
Definition closing_health : bytes := crlf_join [lit "GET /health HTTP/1.1"; lit "Connection: close"; []].
Definition orders_dispatched (es : list (http_event (A := nat))) : option nat :=
  match http_session sample_routes 0%nat es with Ok s => Some (hs_app s) | Err _ => None end.

Lemma dispatched_after_close :
  orders_dispatched
    [Accepts 5 true; Ready 5 kReadable [RData (post_order [lit "Connection: close"] ++ post_order [])] [] [];
     Responds 0 (plain_text 200 (lit "{}")) [WCount 1000]] = Some 2%nat ∧
  orders_dispatched
    [Accepts 5 true; Ready 5 kReadable [RData (closing_health ++ post_order [])] [WCount 1000] []] = Some 0%nat.
Proof. vm_compute. split; reflexivity. Qed.
