(* ===== verification/Base64.v ===== *)
(** * Base64 ([util/base64.cc])

    The encoder, and that a decoder written from the alphabet gets the bytes
    back. *)

From S2P Require Import Prelude.
From S2P Require Import Bytes.

Definition kAlphabet : bytes := lit "ABCDEFGHIJKLMNOPQRSTUVWXYZabcdefghijklmnopqrstuvwxyz0123456789+/".
Definition b64_char (n : Z) : ascii := nth (Z.to_nat n) kAlphabet "="%char.

(** The group of three bytes as a number, and its [k]-th six bits. *)
Definition group (a b c : Z) : Z := Z.lor (Z.lor (Z.shiftl a 16) (Z.shiftl b 8)) c.
Definition sextet (n : Z) (shift : Z) : ascii := b64_char (Z.land (Z.shiftr n shift) 0x3F).

Fixpoint Base64Encode (data : bytes) : bytes :=
  match data with
  | a :: b :: c :: rest =>
      let n := group (byte_val a) (byte_val b) (byte_val c) in
      sextet n 18 :: sextet n 12 :: sextet n 6 :: sextet n 0 :: Base64Encode rest
  | [a; b] =>
      let n := group (byte_val a) (byte_val b) 0 in
      [sextet n 18; sextet n 12; sextet n 6; "="%char]
  | [a] =>
      let n := group (byte_val a) 0 0 in
      [sextet n 18; sextet n 12; "="%char; "="%char]
  | [] => []
  end.

(** ** Reading it back *)

(** The value of a character of the alphabet. *)
Definition b64_value (c : ascii) : option Z := Z.of_nat <$> find_char c kAlphabet.

Fixpoint base64_decode (s : bytes) : option bytes :=
  match s with
  | [] => Some []
  | c1 :: c2 :: c3 :: c4 :: rest =>
      v1 ← b64_value c1; v2 ← b64_value c2;
      if Ascii.eqb c4 "=" then
        match rest with
        | [] =>
            if Ascii.eqb c3 "=" then Some [to_byte ((v1 * 2 ^ 18 + v2 * 2 ^ 12) / 2 ^ 16)]
            else
              v3 ← b64_value c3;
              let n := v1 * 2 ^ 18 + v2 * 2 ^ 12 + v3 * 2 ^ 6 in
              Some [to_byte (n / 2 ^ 16); to_byte (n / 2 ^ 8)]
        | _ => None
        end
      else
        v3 ← b64_value c3; v4 ← b64_value c4;
        let n := v1 * 2 ^ 18 + v2 * 2 ^ 12 + v3 * 2 ^ 6 + v4 in
        l ← base64_decode rest;
        Some (to_byte (n / 2 ^ 16) :: to_byte (n / 2 ^ 8) :: to_byte n :: l)
  | _ => None
  end.

Lemma b64_char_value n : 0 ≤ n < 64 → b64_value (b64_char n) = Some n ∧ b64_char n ≠ "="%char.
Proof.
  intros Hn. assert (forallb (λ n, bool_decide (b64_value (b64_char n) = Some n) && bool_decide (b64_char n ≠ "="%char))
    (seqZ 0 64) = true) as H by (by vm_compute).
  rewrite forallb_forall in H. specialize (H n ltac:(apply list_elem_of_In, elem_of_seqZ; lia)).
  apply andb_true_iff in H as [H1 H2]. by rewrite bool_decide_eq_true in H1, H2.
Qed.

Lemma group_sum a b c : 0 ≤ b < 256 → 0 ≤ c < 256 → group a b c = a * 2 ^ 16 + b * 2 ^ 8 + c.
Proof.
  intros Hb Hc. unfold group. rewrite Z.lor_comm, (Z.lor_comm (Z.shiftl a 16)), Z.lor_assoc.
  rewrite (lor_shift_add c b 8), (lor_shift_add _ a 16); lia.
Qed.

(** The six bits at a position. *)
Lemma sextet_value n k :
  0 ≤ n → 0 ≤ k → b64_value (sextet n k) = Some (n / 2 ^ k mod 64) ∧ sextet n k ≠ "="%char.
Proof.
  intros Hn Hk. unfold sextet. change 0x3F with (Z.ones 6). rewrite Z.land_ones, Z.shiftr_div_pow2 by lia.
  apply b64_char_value. apply Z.mod_pos_bound. lia.
Qed.

(** The bytes of a group come back from its sextets. *)
Lemma group_bytes a b c :
  let n := a * 2 ^ 16 + b * 2 ^ 8 + c in
  0 ≤ a < 256 → 0 ≤ b < 256 → 0 ≤ c < 256 →
  n / 2 ^ 18 mod 64 * 2 ^ 18 + n / 2 ^ 12 mod 64 * 2 ^ 12 + n / 2 ^ 6 mod 64 * 2 ^ 6 + n / 2 ^ 0 mod 64 = n ∧
  n / 2 ^ 16 = a ∧ n / 2 ^ 8 mod 256 = b ∧ n mod 256 = c.
Proof.
  intros n Ha Hb Hc. unfold n. change (2 ^ 18) with 262144. change (2 ^ 16) with 65536. change (2 ^ 12) with 4096.
  change (2 ^ 8) with 256. change (2 ^ 6) with 64. change (2 ^ 0) with 1. rewrite Z.div_1_r.
  split_and!; Z.to_euclidean_division_equations; lia.
Qed.

Lemma to_byte_mod z a : z mod 256 = byte_val a → to_byte z = a.
Proof. intros H. apply byte_val_inj. by rewrite byte_val_to_byte. Qed.

Lemma base64_decode_encode n : ∀ s, (length s ≤ n)%nat → base64_decode (Base64Encode s) = Some s.
Proof.
  induction n as [|n IH]; intros s Hs; [by destruct s; [|simpl in Hs; lia]|].
  destruct s as [|a [|b [|c rest]]]; [done|..]; cbn [Base64Encode].
  - pose proof (byte_val_range a) as Ha. rewrite group_sum by lia.
    destruct (group_bytes (byte_val a) 0 0 Ha ltac:(lia) ltac:(lia)) as (H1 & H2 & _ & _).
    set (n0 := _ * 2 ^ 16 + 0 * 2 ^ 8 + 0) in *. assert (0 ≤ n0) as H0 by (unfold n0; lia).
    destruct (sextet_value n0 18 H0 ltac:(lia)) as [E1 _], (sextet_value n0 12 H0 ltac:(lia)) as [E2 _].
    cbn [base64_decode Ascii.eqb Bool.eqb]. rewrite E1, E2. cbn [mbind option_bind]. do 2 f_equal.
    apply to_byte_mod. unfold n0. change (2 ^ 18) with 262144. change (2 ^ 16) with 65536. change (2 ^ 12) with 4096.
    Z.to_euclidean_division_equations; lia.
  - pose proof (byte_val_range a) as Ha. pose proof (byte_val_range b) as Hb. rewrite group_sum by lia.
    set (n0 := _ * 2 ^ 16 + _ * 2 ^ 8 + 0). assert (0 ≤ n0) as H0 by (unfold n0; lia).
    destruct (sextet_value n0 18 H0 ltac:(lia)) as [E1 _], (sextet_value n0 12 H0 ltac:(lia)) as [E2 _],
      (sextet_value n0 6 H0 ltac:(lia)) as [E3 N3].
    cbn [base64_decode]. rewrite E1, E2. cbn [mbind option_bind]. rewrite (proj2 (Ascii.eqb_neq _ _) N3), E3.
    change (Ascii.eqb "=" "=") with true. cbn iota. cbn [mbind option_bind]. do 2 f_equal; [|f_equal]; apply to_byte_mod;
      unfold n0; change (2 ^ 18) with 262144; change (2 ^ 16) with 65536; change (2 ^ 12) with 4096;
      change (2 ^ 8) with 256; change (2 ^ 6) with 64; Z.to_euclidean_division_equations; lia.
  - pose proof (byte_val_range a) as Ha. pose proof (byte_val_range b) as Hb. pose proof (byte_val_range c) as Hc.
    rewrite group_sum by lia. destruct (group_bytes _ _ _ Ha Hb Hc) as (H1 & H2 & H3 & H4).
    set (n0 := _ * 2 ^ 16 + _ * 2 ^ 8 + _) in *. assert (0 ≤ n0) as H0 by (unfold n0; lia).
    destruct (sextet_value n0 18 H0 ltac:(lia)) as [E1 _], (sextet_value n0 12 H0 ltac:(lia)) as [E2 _],
      (sextet_value n0 6 H0 ltac:(lia)) as [E3 _], (sextet_value n0 0 H0 ltac:(lia)) as [E4 N4].
    cbn [base64_decode]. rewrite E1, E2, (proj2 (Ascii.eqb_neq _ _) N4), E3, E4. cbn [mbind option_bind].
    rewrite H1, (IH rest) by (simpl in Hs; lia). cbn [mbind option_bind].
    rewrite (to_byte_mod _ a), (to_byte_mod _ b), (to_byte_mod _ c); [done|done|done|].
    rewrite H2. apply Z.mod_small. lia.
Qed.

(** Decoding what the encoder wrote gives the bytes back; the text
    has four characters per group of three bytes, the last group padded. *)
Lemma base64_encoded s :
  base64_decode (Base64Encode s) = Some s ∧ length (Base64Encode s) = (4 * ((length s + 2) / 3))%nat.
Proof.
  split; [by apply (base64_decode_encode (length s))|].
  induction s as [s IH] using (induction_ltof1 _ length); unfold ltof in IH.
  destruct s as [|a [|b [|c rest]]]; [done|done|done|]. cbn [Base64Encode length].
  rewrite IH by (simpl; lia). replace (S (S (S (length rest))) + 2)%nat with (length rest + 2 + 1 * 3)%nat by lia.
  rewrite Nat.div_add by lia. lia.
Qed.

(** The test vectors of RFC 4648. *)
Example base64_vectors :
  Base64Encode <$> [lit ""; lit "f"; lit "fo"; lit "foo"; lit "foob"; lit "fooba"; lit "foobar"] =
  [lit ""; lit "Zg=="; lit "Zm8="; lit "Zm9v"; lit "Zm9vYg=="; lit "Zm9vYmE="; lit "Zm9vYmFy"].
Proof. by vm_compute. Qed.
