(* ===== verification/Sha1.v ===== *)
(** * SHA-1 ([util/sha1.cc])

    The digest with its 32-bit arithmetic written out, the shape of the padded
    message and of the message schedule, and the published test vectors. *)

From S2P Require Import Prelude.
From S2P Require Import Bytes.

Definition u32 (z : Z) : Z := z mod 2 ^ 32.

Definition Rotl (v bits : Z) : Z := Z.lor (u32 (Z.shiftl v bits)) (Z.shiftr v (32 - bits)).

(** ** Padding *)

(** [while (total % 64 != 56) ++total]: at most 63 rounds. *)
Fixpoint pad_to (fuel total : nat) : nat :=
  match fuel with
  | O => total
  | S fuel => if (total mod 64 =? 56)%nat then total else pad_to fuel (S total)
  end.
Definition padded_length (len : nat) : nat := (pad_to 64 (len + 1) + 8)%nat.

(** The message, the bit 1, zeros, and the bit length written from the end. *)
Definition padded (data : bytes) : bytes :=
  let len := length data in
  let bit_len := to_u64 (Z.of_nat len * 8) in
  let total := padded_length len in
  let msg := data ++ replicate (total - len) (to_byte 0) in
  let msg := <[len := to_byte 0x80]> msg in
  foldl (λ msg i, <[(total - 1 - i)%nat := to_byte (Z.land (Z.shiftr bit_len (8 * Z.of_nat i)) 0xFF)]> msg) msg (seq 0 8).

(** ** Blocks *)

(** The [i]-th word of a block. *)
Definition block_word (block : bytes) (i : nat) : Z :=
  let j := (i * 4)%nat in
  Z.lor (Z.lor (Z.lor (Z.shiftl (byte_at block j) 24) (Z.shiftl (byte_at block (j + 1)) 16))
           (Z.shiftl (byte_at block (j + 2)) 8)) (byte_at block (j + 3)).

Definition next_word (w : list Z) (i : nat) : Z :=
  Rotl (Z.lxor (Z.lxor (Z.lxor (w !!! (i - 3)%nat) (w !!! (i - 8)%nat)) (w !!! (i - 14)%nat)) (w !!! (i - 16)%nat)) 1.
Definition schedule (block : bytes) : list Z :=
  foldl (λ w i, w ++ [next_word w i]) (block_word block <$> seq 0 16) (seq 16 64).

Record Sha1State := mkSha1 { sa : Z; sb : Z; sc : Z; sd : Z; se : Z }.
Definition sha1_init : Sha1State := mkSha1 0x67452301 0xEFCDAB89 0x98BADCFE 0x10325476 0xC3D2E1F0.

Definition round_fk (i : nat) (s : Sha1State) : Z * Z :=
  let b := sb s in let c := sc s in let d := sd s in
  if (i <? 20)%nat then (Z.lor (Z.land b c) (Z.land (Z.land (Z.lnot b) 0xFFFFFFFF) d), 0x5A827999)
  else if (i <? 40)%nat then (Z.lxor (Z.lxor b c) d, 0x6ED9EBA1)
  else if (i <? 60)%nat then (Z.lor (Z.lor (Z.land b c) (Z.land b d)) (Z.land c d), 0x8F1BBCDC)
  else (Z.lxor (Z.lxor b c) d, 0xCA62C1D6).

Definition sha1_round (w : list Z) (s : Sha1State) (i : nat) : Sha1State :=
  let '(f, k) := round_fk i s in
  mkSha1 (u32 (Rotl (sa s) 5 + f + se s + k + w !!! i)) (sa s) (Rotl (sb s) 30) (sc s) (sd s).

Definition sha1_block (h : Sha1State) (block : bytes) : Sha1State :=
  let s := foldl (sha1_round (schedule block)) h (seq 0 80) in
  mkSha1 (u32 (sa h + sa s)) (u32 (sb h + sb s)) (u32 (sc h + sc s)) (u32 (sd h + sd s)) (u32 (se h + se s)).

(** The loop over blocks of 64 bytes. *)
Fixpoint sha1_blocks (n : nat) (h : Sha1State) (msg : bytes) : Sha1State :=
  match n with
  | O => h
  | S n => sha1_blocks n (sha1_block h (take 64 msg)) (drop 64 msg)
  end.

Definition word_bytes (z : Z) : bytes :=
  [to_byte (Z.land (Z.shiftr z 24) 0xFF); to_byte (Z.land (Z.shiftr z 16) 0xFF);
   to_byte (Z.land (Z.shiftr z 8) 0xFF); to_byte (Z.land z 0xFF)].

Definition Sha1 (data : bytes) : bytes :=
  let msg := padded data in
  let h := sha1_blocks (length msg / 64) sha1_init msg in
  word_bytes (sa h) ++ word_bytes (sb h) ++ word_bytes (sc h) ++ word_bytes (sd h) ++ word_bytes (se h).

Definition hex_digit (d : Z) : ascii := nth (Z.to_nat d) (lit "0123456789abcdef") "0"%char.
Definition Sha1Hex (d : bytes) : bytes :=
  d ≫= λ c, [hex_digit (Z.shiftr (byte_val c) 4); hex_digit (Z.land (byte_val c) 0x0F)].

(** The test vectors of RFC 3174 and FIPS 180: empty, one block, two blocks. *)
Example sha1_vectors :
  (λ s, Sha1Hex (Sha1 s)) <$> [lit ""; lit "abc"; lit "abcdbcdecdefdefgefghfghighijhijkijkljklmklmnlmnomnopnopq"] =
  [lit "da39a3ee5e6b4b0d3255bfef95601890afd80709"; lit "a9993e364706816aba3e25717850c26c9cd0d89d";
   lit "84983e441c3bd26ebaae4aa1f95129e5e54670f1"].
Proof. by vm_compute. Qed.

(** ** The padded message *)

Lemma pad_to_reaches fuel : ∀ total k,
  (k < fuel)%nat → ((total + k) mod 64 = 56)%nat → (∀ j, j < k → (total + j) mod 64 ≠ 56)%nat →
  pad_to fuel total = (total + k)%nat.
Proof.
  induction fuel as [|fuel IH]; intros total k Hk Hm Hj; [lia|]. cbn [pad_to].
  destruct (total mod 64 =? 56)%nat eqn:E.
  - apply Nat.eqb_eq in E. destruct k as [|k]; [lia|]. specialize (Hj 0%nat ltac:(lia)). by rewrite Nat.add_0_r in Hj.
  - apply Nat.eqb_neq in E. destruct k as [|k]; [by rewrite Nat.add_0_r in Hm|].
    rewrite (IH (S total) k); [lia|lia|by replace (S total + k)%nat with (total + S k)%nat by lia|].
    intros j Hlt. replace (S total + j)%nat with (total + S j)%nat by lia. apply Hj. lia.
Qed.

(** The number of zero bytes. *)
Definition zeros (len : nat) : nat :=
  (if len mod 64 <? 56 then 55 - len mod 64 else 119 - len mod 64)%nat.

Lemma padded_length_eq len : padded_length len = (len + 1 + zeros len + 8)%nat ∧ (padded_length len mod 64 = 0)%nat.
Proof.
  pose proof (Nat.div_mod_eq len 64) as Hd. assert (len mod 64 < 64)%nat as Hr by (apply Nat.mod_upper_bound; lia).
  assert (∀ x k, x = 64 * k + 56 → x mod 64 = 56)%nat as H56.
  { intros x k ->. replace (64 * k + 56)%nat with (56 + k * 64)%nat by lia. by rewrite Nat.Div0.mod_add. }
  assert ((len + 1 + zeros len) mod 64 = 56)%nat as Hm.
  { unfold zeros. destruct (len mod 64 <? 56)%nat eqn:E; [apply Nat.ltb_lt in E|apply Nat.ltb_ge in E].
    - apply (H56 _ (len / 64)%nat). lia.
    - apply (H56 _ (len / 64 + 1)%nat). lia. }
  assert (zeros len < 64)%nat as Hz.
  { unfold zeros. destruct (len mod 64 <? 56)%nat eqn:E; [apply Nat.ltb_lt in E|apply Nat.ltb_ge in E]; lia. }
  unfold padded_length. rewrite (pad_to_reaches 64 (len + 1) (zeros len) Hz Hm).
  - split; [lia|]. rewrite Nat.Div0.add_mod, Hm. done.
  - intros j Hj Hjm. pose proof (Nat.div_mod_eq (len + 1 + j) 64) as H1.
    pose proof (Nat.div_mod_eq (len + 1 + zeros len) 64) as H2. rewrite Hjm in H1. rewrite Hm in H2. lia.
Qed.

(** The message, one byte 0x80, as few zeros as make whole blocks, and the
    length in bits. *)
Lemma padded_shape data :
  padded data = data ++ [to_byte 0x80] ++ replicate (zeros (length data)) (to_byte 0) ++
    put_be (to_u64 (Z.of_nat (length data) * 8)) 8 ∧
  (length (padded data) mod 64 = 0)%nat.
Proof.
  destruct (padded_length_eq (length data)) as [Hl Hm].
  assert (padded data = data ++ [to_byte 0x80] ++ replicate (zeros (length data)) (to_byte 0) ++
    put_be (to_u64 (Z.of_nat (length data) * 8)) 8) as E.
  { unfold padded. rewrite Hl. set (z := zeros (length data)). set (n := to_u64 _).
    replace (length data + 1 + z + 8 - length data)%nat with (1 + (z + 8))%nat by lia.
    rewrite !replicate_add. cbn [replicate app]. rewrite (insert_app_r_alt _ _ (length data)), Nat.sub_diag by lia. cbn [insert list_insert].
    set (pre := data ++ to_byte 128 :: replicate z (to_byte 0)).
    assert (length pre = length data + 1 + z)%nat as Hpre by (unfold pre; rewrite length_app; simpl; rewrite length_replicate; lia).
    change (data ++ to_byte 128 :: replicate z (to_byte 0) ++ ?x) with (data ++ (to_byte 128 :: replicate z (to_byte 0)) ++ x).
    rewrite (app_assoc data). fold pre. cbn [seq foldl].
    do 8 (rewrite (insert_app_r_alt pre) by (rewrite Hpre; lia)).
    rewrite <-Hpre.
    repeat match goal with |- context [<[(length pre + 8 - 1 - ?k - length pre)%nat := _]> _] =>
      replace (length pre + 8 - 1 - k - length pre)%nat with (7 - k)%nat by lia end.
    cbn [insert list_insert Nat.sub]. unfold pre. rewrite <-app_assoc. cbn [app]. do 3 f_equal. }
  split; [done|]. rewrite E, !length_app, length_replicate, put_be_length. cbn [length].
  replace (length data + (1 + (zeros (length data) + 8)))%nat with (padded_length (length data)) by lia. done.
Qed.
