(* ===== verification/WsHandshake.v ===== *)
(** * The WebSocket opening handshake ([net/ws_handshake.cc]) *)

From S2P Require Import Prelude.
From S2P Require Import Bytes.
From S2P Require Import HttpParser.
From S2P Require Import Base64.
From S2P Require Import Sha1.

Definition kWsGuid : bytes := lit "258EAFA5-E914-47DA-95CA-C5AB0DC85B11".

Definition IContains (haystack needle : bytes) : bool :=
  bool_decide (is_Some (find_str needle ((λ c, to_byte (tolower c)) <$> haystack))).

(** [IEquals] of this file compares with a C string. *)
Fixpoint ws_IEquals (a b : bytes) : bool :=
  match a, b with
  | x :: a, y :: b => if negb (tolower x =? tolower y) then false else ws_IEquals a b
  | [], [] => true
  | _, _ => false
  end.

Definition WsComputeAcceptKey (client_key : bytes) : bytes := Base64Encode (Sha1 (client_key ++ kWsGuid)).

(** The client's key, if the request is an upgrade. *)
Definition WsIsUpgradeRequest (req : HttpRequest) : option bytes :=
  let header name := find_header (lit name) (q_headers req) in
  match header "Upgrade", header "Connection", header "Sec-WebSocket-Key", header "Sec-WebSocket-Version" with
  | Some upgrade, Some connection, Some key, Some version =>
      if negb (ws_IEquals upgrade (lit "websocket")) then None
      else if negb (IContains connection (lit "upgrade")) then None
      else if negb (bool_decide (version = lit "13")) then None
      else if bool_decide (key = []) then None
      else Some key
  | _, _, _, _ => None
  end.

Definition WsBuildHandshakeResponse (client_key : bytes) : bytes :=
  lit "HTTP/1.1 101 Switching Protocols" ++ kCrlf ++ lit "Upgrade: websocket" ++ kCrlf ++
  lit "Connection: Upgrade" ++ kCrlf ++ lit "Sec-WebSocket-Accept: " ++ WsComputeAcceptKey client_key ++ kCrlf ++ kCrlf.

(** The example of RFC 6455, section 1.3. *)
Example accept_key_rfc6455 :
  WsComputeAcceptKey (lit "dGhlIHNhbXBsZSBub25jZQ==") = lit "s3pPLMBiTxaQ9kYGzzhZRbK+xOo=".
Proof. by vm_compute. Qed.

(** The accept key is the digest in base64: 28 characters for any key, and the
    digest of 20 bytes can be read back from it. *)
Lemma sha1_length s : length (Sha1 s) = 20%nat.
Proof. done. Qed.
Lemma accept_key_length key :
  length (WsComputeAcceptKey key) = 28%nat ∧ base64_decode (WsComputeAcceptKey key) = Some (Sha1 (key ++ kWsGuid)).
Proof.
  unfold WsComputeAcceptKey. generalize (Sha1 (key ++ kWsGuid)) (sha1_length (key ++ kWsGuid)). intros d Hd.
  destruct (base64_encoded d) as [H1 H2]. rewrite Hd in H2. done.
Qed.
