(* ===== verification/WsConnection.v ===== *)
(** * WebSocket connections and their server ([net/websocket.cc])

    A connection reads the opening request, answers it, then decodes frames,
    reassembles messages and answers control frames; the server finds a
    connection by descriptor and id.

    The results of the read and write calls are scripts ([PipeIO]); every call of
    [on_writable] uses the next write script.  What the application sends from
    inside a callback is given the same way: every callback uses the next list of
    [wc_sends].  A message the application sends to another connection, or later,
    is a [Delivers] event.  [wc_log] records the callbacks made, [wc_received],
    [wc_queued] and [wc_sent] the bytes read, queued and written. *)

From S2P Require Import Prelude.
From S2P Require Import Bytes.
From S2P Require Import Buffer.
From S2P Require Import PipeIO.
From S2P Require Import EventLoop.
From S2P Require Import HttpParser.
From S2P Require Import HttpServer.
From S2P Require Import WsFrame.
From S2P Require Import WsHandshake.

Definition kWsChunk : nat := Z.to_nat (16 * 1024).
Definition kMaxFramePayload : Z := 16 * 1024 * 1024.
Definition kMaxMessageBytes : Z := 64 * 1024 * 1024.

Inductive WsSend :=
  | SendText (text : bytes)
  | SendBinary (data : bytes)
  | SendClose (code : Z) (reason : bytes).

Inductive WsEvent :=
  | Opened (handshake : HttpRequest)
  | Message (is_binary : bool) (payload : bytes)
  | Closed.

Record WsConnection := mkWs {
  wc_id : Z;
  wc_aggregator : bool;
  wc_in : Buffer;
  wc_out : Buffer;
  wc_parser : Parser;
  wc_open : bool;
  wc_write_enabled : bool;
  wc_closing : bool;
  wc_closed : bool;
  wc_assembling : bool;
  wc_assembling_binary : bool;
  wc_assembly : bytes;
  wc_log : list WsEvent;
  wc_received : bytes;
  wc_queued : bytes;
  wc_sent : bytes;
  wc_writes : list (list io_write);
  wc_sends : list (list WsSend);
}.

Definition new_ws (id : Z) (aggregator : bool) : WsConnection :=
  mkWs id aggregator new_buffer new_buffer reset false false false false false false [] [] [] [] [] [] [].

(** Field assignment. *)
Definition ws_set_in (b : Buffer) (p : Parser) (rcvd : bytes) (c : WsConnection) : WsConnection :=
  mkWs (wc_id c) (wc_aggregator c) b (wc_out c) p (wc_open c) (wc_write_enabled c) (wc_closing c) (wc_closed c)
    (wc_assembling c) (wc_assembling_binary c) (wc_assembly c) (wc_log c) rcvd (wc_queued c) (wc_sent c)
    (wc_writes c) (wc_sends c).
Definition ws_set_out (b : Buffer) (queued sent : bytes) (writes : list (list io_write)) (c : WsConnection) : WsConnection :=
  mkWs (wc_id c) (wc_aggregator c) (wc_in c) b (wc_parser c) (wc_open c) (wc_write_enabled c) (wc_closing c) (wc_closed c)
    (wc_assembling c) (wc_assembling_binary c) (wc_assembly c) (wc_log c) (wc_received c) queued sent
    writes (wc_sends c).
Definition ws_set_flags (open write_enabled closing closed : bool) (log : list WsEvent) (c : WsConnection) : WsConnection :=
  mkWs (wc_id c) (wc_aggregator c) (wc_in c) (wc_out c) (wc_parser c) open write_enabled closing closed
    (wc_assembling c) (wc_assembling_binary c) (wc_assembly c) log (wc_received c) (wc_queued c) (wc_sent c)
    (wc_writes c) (wc_sends c).
Definition ws_set_assembly (on binary : bool) (data : bytes) (c : WsConnection) : WsConnection :=
  mkWs (wc_id c) (wc_aggregator c) (wc_in c) (wc_out c) (wc_parser c) (wc_open c) (wc_write_enabled c) (wc_closing c)
    (wc_closed c) on binary data (wc_log c) (wc_received c) (wc_queued c) (wc_sent c)
    (wc_writes c) (wc_sends c).
Definition ws_set_script (writes : list (list io_write)) (sends : list (list WsSend)) (c : WsConnection) : WsConnection :=
  mkWs (wc_id c) (wc_aggregator c) (wc_in c) (wc_out c) (wc_parser c) (wc_open c) (wc_write_enabled c) (wc_closing c)
    (wc_closed c) (wc_assembling c) (wc_assembling_binary c) (wc_assembly c) (wc_log c) (wc_received c) (wc_queued c)
    (wc_sent c) writes sends.

(** ** Output *)

Definition ws_close (c : WsConnection) : WsConnection :=
  if wc_closed c then c
  else ws_set_flags (wc_open c) (wc_write_enabled c) (wc_closing c) true (wc_log c ++ [Closed]) c.

Definition ws_begin_close (c : WsConnection) : WsConnection :=
  ws_set_flags (wc_open c) (wc_write_enabled c) true (wc_closed c) (wc_log c) c.

Definition ws_want_write (on : bool) (c : WsConnection) : WsConnection :=
  if Bool.eqb on (wc_write_enabled c) then c
  else ws_set_flags (wc_open c) on (wc_closing c) (wc_closed c) (wc_log c) c.

Definition ws_queue (s : bytes) (c : WsConnection) : WsConnection :=
  ws_set_out (buffer_append s (wc_out c)) (wc_queued c ++ s) (wc_sent c) (wc_writes c) c.

Definition ws_writable (c : WsConnection) : WsConnection :=
  let '(en, out, sent) := write_loop (hd [] (wc_writes c)) (wc_out c) (wc_sent c) in
  let c := ws_set_out out (wc_queued c) sent (tail (wc_writes c)) c in
  match en with
  | Drained => let c := ws_want_write false c in if wc_closing c then ws_close c else c
  | Blocked => c
  | Broken => ws_close c
  end.

Definition ws_send_text (text : bytes) (c : WsConnection) : WsConnection :=
  ws_writable (ws_want_write true (ws_queue (EncodeWsFrame kText text true None) c)).
Definition ws_send_binary (data : bytes) (c : WsConnection) : WsConnection :=
  ws_writable (ws_want_write true (ws_queue (EncodeWsFrame kBinary data true None) c)).
Definition ws_send_close (code : Z) (reason : bytes) (c : WsConnection) : WsConnection :=
  let payload := to_byte (Z.land (Z.shiftr code 8) 0xFF) :: to_byte (Z.land code 0xFF) :: reason in
  ws_writable (ws_want_write true (ws_begin_close (ws_queue (EncodeWsFrame kClose payload true None) c))).

Definition ws_send (c : WsConnection) (x : WsSend) : WsConnection :=
  match x with
  | SendText text => ws_send_text text c
  | SendBinary data => ws_send_binary data c
  | SendClose code reason => ws_send_close code reason c
  end.

(** A callback: what the application does on this connection before it returns. *)
Definition ws_callback (e : WsEvent) (c : WsConnection) : WsConnection :=
  let c' := ws_set_script (wc_writes c) (tail (wc_sends c)) c in
  foldl ws_send
    (ws_set_flags (wc_open c') (wc_write_enabled c') (wc_closing c') (wc_closed c') (wc_log c' ++ [e]) c')
    (hd [] (wc_sends c)).

(** ** Input *)

Definition bad_handshake : bytes :=
  lit "HTTP/1.1 400 Bad Request" ++ kCrlf ++ lit "Content-Length: 0" ++ kCrlf ++ lit "Connection: close" ++ kCrlf ++ kCrlf.

Definition do_handshake (c : WsConnection) : res WsConnection :=
  '(g, p, b) ← parse kMaxHeaderBytes kMaxBodyBytes (wc_parser c) (wc_in c);
  let c := ws_set_in b p (wc_received c) c in
  match g with
  | Incomplete => Ok c
  | Error => Ok (ws_close c)
  | Complete =>
      match WsIsUpgradeRequest (request_ p) with
      | None => Ok (ws_begin_close (ws_queue bad_handshake c))
      | Some key =>
          let c := ws_queue (WsBuildHandshakeResponse key) c in
          let c := ws_set_flags true (wc_write_enabled c) (wc_closing c) (wc_closed c) (wc_log c) c in
          Ok (ws_callback (Opened (request_ p)) c)
      end
  end.

Definition handle_frame (f : WsFrame) (c : WsConnection) : WsConnection :=
  match f_opcode f with
  | kPing => ws_queue (EncodeWsFrame kPong (f_payload f) true None) c
  | kPong => c
  | kClose => ws_begin_close (ws_queue (EncodeWsFrame kClose (f_payload f) true None) c)
  | kText | kBinary =>
      if wc_assembling c then ws_close c
      else
        let is_binary := match f_opcode f with kBinary => true | _ => false end in
        if f_fin f then ws_callback (Message is_binary (f_payload f)) c
        else ws_set_assembly true is_binary (f_payload f) c
  | kContinuation =>
      if negb (wc_assembling c) then ws_close c
      else if kMaxMessageBytes <? zlen (wc_assembly c) + zlen (f_payload f) then ws_close c
      else
        let c := ws_set_assembly true (wc_assembling_binary c) (wc_assembly c ++ f_payload f) c in
        if f_fin f then
          let c := ws_set_assembly false (wc_assembling_binary c) (wc_assembly c) c in
          let c := ws_callback (Message (wc_assembling_binary c) (wc_assembly c)) c in
          ws_set_assembly (wc_assembling c) (wc_assembling_binary c) [] c
        else c
  end.

Fixpoint frames_loop (fuel : nat) (c : WsConnection) : res WsConnection :=
  match fuel with
  | O => Err OutOfFuel
  | S fuel =>
      match DecodeWsFrame kMaxFramePayload true (wc_in c) with
      | (WsIncomplete, b) => Ok (ws_set_in b (wc_parser c) (wc_received c) c)
      | (WsError _, b) => Ok (ws_close (ws_set_in b (wc_parser c) (wc_received c) c))
      | (WsComplete f, b) =>
          let c := handle_frame f (ws_set_in b (wc_parser c) (wc_received c) c) in
          if wc_closed c || wc_closing c then Ok c else frames_loop fuel c
      end
  end.
(** A frame takes at least two bytes. *)
Definition process_frames (c : WsConnection) : res WsConnection := frames_loop (S (buf_size (wc_in c))) c.

Definition ws_readable (rs : list io_read) (c : WsConnection) : res WsConnection :=
  let '(en, b) := read_all kWsChunk rs (wc_in c) in
  let c := ws_set_in b (wc_parser c) (wc_received c ++ received rs) c in
  match en with
  | EndOfFile | ReadFailed => Ok (ws_close c)
  | WouldBlock =>
      c ← (if wc_open c then Ok c else do_handshake c);
      if wc_closed c then Ok c
      else
        c ← (if wc_open c then process_frames c else Ok c);
        if wc_closed c then Ok c
        else Ok (if buf_empty (wc_out c) then c else ws_writable (ws_want_write true c))
  end.

Definition ws_io_ready (events : Z) (rs : list io_read) (c : WsConnection) : res WsConnection :=
  c ← (if HasEvent events kReadable then ws_readable rs c else Ok c);
  if wc_closed c then Ok c
  else
    let c := if HasEvent events kWritable then ws_writable c else c in
    if wc_closed c then Ok c
    else Ok (if HasEvent events kError then ws_close c else c).

(** ** The server *)

(** [wv_doomed]: descriptors whose connection the loop's deferred calls will
    erase; [wv_closed]: ids passed to the close callback. *)
Record WsServer := mkWsServer {
  wv_conns : gmap Z WsConnection;
  wv_next_conn_id : Z;
  wv_doomed : list Z;
  wv_closed : list Z;
}.
Definition new_ws_server : WsServer := mkWsServer ∅ 1 [] [].

Definition ws_accept (fd : Z) (aggregator ok : bool) (s : WsServer) : WsServer :=
  let id := wv_next_conn_id s in
  mkWsServer
    (if ok then match wv_conns s !! fd with Some _ => wv_conns s | None => <[fd := new_ws id aggregator]> (wv_conns s) end
     else wv_conns s)
    (id + 1) (wv_doomed s) (wv_closed s).

(** [close_connection], if the connection closed in a call. *)
Definition ws_after_call (fd : Z) (c c' : WsConnection) (s : WsServer) : WsServer :=
  let newly := negb (wc_closed c) && wc_closed c' in
  mkWsServer (<[fd := c']> (wv_conns s)) (wv_next_conn_id s) (wv_doomed s ++ if newly then [fd] else [])
    (wv_closed s ++ if newly then [wc_id c'] else []).

Definition ws_server_io (fd events : Z) (rs : list io_read) (writes : list (list io_write)) (sends : list (list WsSend))
    (s : WsServer) : res WsServer :=
  match wv_conns s !! fd with
  | None => Ok s
  | Some c =>
      if wc_closed c then Ok s
      else c' ← ws_io_ready events rs (ws_set_script writes sends c); Ok (ws_after_call fd c c' s)
  end.

Definition deliver_text (fd id : Z) (text : bytes) (writes : list (list io_write)) (s : WsServer) : WsServer :=
  match wv_conns s !! fd with
  | None => s
  | Some c =>
      if negb (wc_id c =? id) then s
      else ws_after_call fd c (ws_send_text text (ws_set_script writes [] c)) s
  end.

Definition ws_erase_closed (s : WsServer) : WsServer :=
  mkWsServer (foldl (λ m fd, delete fd m) (wv_conns s) (wv_doomed s)) (wv_next_conn_id s) [] (wv_closed s).

Inductive ws_event :=
  | WsAccepts (fd : Z) (aggregator ok : bool)
  | WsReady (fd events : Z) (rs : list io_read) (writes : list (list io_write)) (sends : list (list WsSend))
  | Delivers (fd id : Z) (text : bytes) (writes : list (list io_write))
  | WsDeferred.

Definition ws_step (s : WsServer) (e : ws_event) : res WsServer :=
  match e with
  | WsAccepts fd aggregator ok => Ok (ws_accept fd aggregator ok s)
  | WsReady fd events rs writes sends => ws_server_io fd events rs writes sends s
  | Delivers fd id text writes => Ok (deliver_text fd id text writes s)
  | WsDeferred => Ok (ws_erase_closed s)
  end.
Definition ws_session (es : list ws_event) : res WsServer := res_foldl ws_step new_ws_server es.
