(* ===== verification/WsStream.v ===== *)
(** * The messages of a WebSocket byte stream

    What a connection tells the application, as a function of the bytes it
    received; and how the decoder's results relate to it when the bytes come in
    pieces. *)

From S2P Require Import Prelude.
From S2P Require Import Bytes.
From S2P Require Import Buffer.
From S2P Require Import HttpParser.
From S2P Require Import HttpResume.
From S2P Require Import HttpStream.
From S2P Require Import HttpServer.
From S2P Require Import WsFrame.
From S2P Require Import WsHandshake.
From S2P Require Import WsConnection.

(** ** The decoder and more bytes *)

Lemma ws_decode_view {B} `{ByteQueue B} (b : B) mp rm :
  bq_ok b →
  DecodeWsFrame mp rm (bq_view b) = ((DecodeWsFrame mp rm b).1, bq_view (DecodeWsFrame mp rm b).2) ∧
  bq_ok (DecodeWsFrame mp rm b).2.
Proof.
  intros Hb. unfold DecodeWsFrame. cbn [bq_view bq_consume list_queue]. set (v := bq_view b).
  destruct (zlen v <? 2); [done|]. destruct (negb (Z.land (byte_at v 0) 0x70 =? 0)); [done|].
  destruct (ws_length v) as [[pl hl]|]; [|done]. destruct (ws_key _ v hl) as [[key hl']|]; [|done].
  repeat (match goal with |- context [if ?x then (WsError _, _) else _] => destruct x; [done|] end).
  destruct (zlen v <? _); [done|]. split; [|by apply consume_ok]. cbn [fst snd]. by rewrite consume_view.
Qed.

Lemma ws_length_more v s r : ws_length v = Some r → 2 ≤ zlen v → ws_length (v ++ s) = Some r.
Proof. intros E Hv. destruct (ws_length_prefix v s _ Hv eq_refl) as [H|H]; congruence. Qed.

Lemma ws_key_more masked v s hl r : ws_key masked v hl = Some r → ws_key masked (v ++ s) hl = Some r.
Proof.
  unfold ws_key. destruct masked; [|done]. rewrite zlen_app. pose proof (zlen_nonneg s).
  repeat case_if; try done; [lia|]. intros [= <-]. do 2 f_equal. unfold zlen in *.
  rewrite drop_app_le, take_app_le by (rewrite ?length_drop; lia). done.
Qed.

Lemma ws_decode_more (v s : bytes) mp rm :
  0 ≤ mp < 2 ^ 63 →
  match DecodeWsFrame mp rm v with
  | (WsComplete f, v') => DecodeWsFrame mp rm (v ++ s) = (WsComplete f, v' ++ s)
  | (WsError e, _) => DecodeWsFrame mp rm (v ++ s) = (WsError e, v ++ s)
  | _ => True
  end.
Proof.
  intros Hmp. unfold DecodeWsFrame. cbn [bq_view bq_consume list_queue]. pose proof (zlen_nonneg s) as Hs.
  rewrite zlen_app. destruct (zlen v <? 2) eqn:E2; [done|]. apply Z.ltb_ge in E2.
  destruct (zlen v + zlen s <? 2) eqn:E2'; [apply Z.ltb_lt in E2'; lia|].
  rewrite !byte_at_app_l by (unfold zlen in *; lia). case_if; [done|].
  destruct (ws_length v) as [[pl hl]|] eqn:El; [|done].
  assert (0 ≤ pl ∧ (2 ≤ hl ≤ 10)%nat) as [Hpl Hhl] by (by eapply ws_length_bounds).
  rewrite (ws_length_more v s _ El E2).
  destruct (ws_key _ v hl) as [[key hl']|] eqn:Ek; [|done]. rewrite (ws_key_more _ v s _ _ Ek).
  assert (hl ≤ hl' ≤ 14)%nat as Hhl'.
  { revert Ek. unfold ws_key. repeat case_if; intros [= <- <-]; lia. }
  repeat (case_if; [done|]).
  assert (to_u64 (Z.of_nat hl' + pl) = Z.of_nat hl' + pl) as Htot by (unfold to_u64; apply Z.mod_small; lia).
  rewrite Htot in *. destruct (zlen v + zlen s <? _) eqn:Et'; bool_split; [lia|].
  unfold zlen in *. rewrite !drop_app_le, take_app_le by (rewrite ?length_drop; lia). done.
Qed.

(** ** What a stream of frames says *)

(** The fragments of the message under way, and whether it is binary. *)
Abbreviation fragments := (option (bool * bytes)).

(** What a frame adds: [None] when it breaks the protocol. *)
Definition frame_step (st : fragments) (f : WsFrame) : option (list WsEvent * fragments) :=
  match f_opcode f, st with
  | (kPing | kPong | kClose), _ => Some ([], st)
  | (kText | kBinary), Some _ => None
  | (kText | kBinary) as op, None =>
      let binary := match op with kBinary => true | _ => false end in
      Some (if f_fin f then ([Message binary (f_payload f)], None) else ([], Some (binary, f_payload f)))
  | kContinuation, None => None
  | kContinuation, Some (binary, data) =>
      if kMaxMessageBytes <? zlen data + zlen (f_payload f) then None
      else Some (if f_fin f then ([Message binary (data ++ f_payload f)], None)
                 else ([], Some (binary, data ++ f_payload f)))
  end.

Fixpoint messages_fuel (fuel : nat) (st : fragments) (v : bytes) : list WsEvent :=
  match fuel with
  | O => []
  | S fuel =>
      match DecodeWsFrame kMaxFramePayload true v with
      | (WsComplete f, v') =>
          match frame_step st f with
          | Some (es, st') => es ++ messages_fuel fuel st' v'
          | None => []
          end
      | _ => []
      end
  end.
Definition messages_from (st : fragments) (v : bytes) : list WsEvent := messages_fuel (S (length v)) st v.

Definition stream_from (p : Parser) (v : bytes) : list WsEvent :=
  match parse kMaxHeaderBytes kMaxBodyBytes p v with
  | Ok (Complete, p', v') =>
      match WsIsUpgradeRequest (request_ p') with
      | Some _ => Opened (request_ p') :: messages_from None v'
      | None => []
      end
  | _ => []
  end.
(** What a connection has to tell the application of the bytes [v]. *)
Definition ws_events (v : bytes) : list WsEvent := stream_from reset v.

Lemma ws_decode_shrinks v f v' : DecodeWsFrame kMaxFramePayload true v = (WsComplete f, v') →
  (length v' < length v)%nat ∧ zlen (f_payload f) ≤ kMaxFramePayload.
Proof.
  intros E. pose proof (ws_decode_limits v kMaxFramePayload true I ltac:(unfold kMaxFramePayload; lia)) as H.
  rewrite E in H. destruct H as (H1 & _ & _ & n & Hn & Hv). cbn [bq_view list_queue] in *. split; [|done].
  rewrite Hv, length_drop. lia.
Qed.

Lemma messages_fuel_enough n : ∀ m st v, (length v < n)%nat → (length v < m)%nat →
  messages_fuel n st v = messages_fuel m st v.
Proof.
  induction n as [|n IH]; intros [|m] st v Hn Hm; try lia. cbn [messages_fuel].
  destruct (DecodeWsFrame _ _ v) as [[|f|e] v'] eqn:E; try done. apply ws_decode_shrinks in E as [Hlt _].
  destruct (frame_step st f) as [[es st']|]; [|done]. f_equal. apply IH; lia.
Qed.

Lemma messages_from_eq st v :
  messages_from st v =
  match DecodeWsFrame kMaxFramePayload true v with
  | (WsComplete f, v') =>
      match frame_step st f with Some (es, st') => es ++ messages_from st' v' | None => [] end
  | _ => []
  end.
Proof.
  unfold messages_from at 1. cbn [messages_fuel].
  destruct (DecodeWsFrame _ _ v) as [[|f|e] v'] eqn:E; try done. apply ws_decode_shrinks in E as [Hlt _].
  destruct (frame_step st f) as [[es st']|]; [|done]. f_equal. apply messages_fuel_enough; lia.
Qed.

(** A frame decoded from the first bytes is decoded from all. *)
Lemma messages_from_complete st v s f v' es st' :
  DecodeWsFrame kMaxFramePayload true v = (WsComplete f, v') → frame_step st f = Some (es, st') →
  messages_from st (v ++ s) = es ++ messages_from st' (v' ++ s).
Proof.
  intros E Hf. rewrite messages_from_eq.
  pose proof (ws_decode_more v s kMaxFramePayload true ltac:(unfold kMaxFramePayload; lia)) as Hm.
  rewrite E in Hm. by rewrite Hm, Hf.
Qed.

Lemma frame_step_not_closed st f es st' : frame_step st f = Some (es, st') → Closed ∉ es.
Proof.
  unfold frame_step. destruct (f_opcode f), st as [[bin data]|]; try done; repeat case_if; intros [= <- <-];
    rewrite ?list_elem_of_singleton; try done; by apply not_elem_of_nil.
Qed.

Lemma messages_not_closed n : ∀ st v, Closed ∉ messages_fuel n st v.
Proof.
  induction n as [|n IH]; intros st v; [by apply not_elem_of_nil|]. cbn [messages_fuel].
  destruct (DecodeWsFrame _ _ v) as [[|f|e] v']; try by apply not_elem_of_nil.
  destruct (frame_step st f) as [[es st']|] eqn:E; [|by apply not_elem_of_nil].
  apply frame_step_not_closed in E. rewrite elem_of_app. intros [?|?]; [done|by eapply IH].
Qed.

(** The stream never tells of the end. *)
Lemma events_not_closed v : Closed ∉ ws_events v.
Proof.
  unfold ws_events, stream_from. destruct (parse _ _ reset v) as [[[g p] v']|]; [|by apply not_elem_of_nil].
  destruct g; try by apply not_elem_of_nil. destruct (WsIsUpgradeRequest _); [|by apply not_elem_of_nil].
  rewrite elem_of_cons. intros [?|?]; [done|]. by eapply messages_not_closed.
Qed.

(** ** The opening request and more bytes *)

Lemma parse_complete_state p (v : bytes) p' v' :
  parser_ok p → parse kMaxHeaderBytes kMaxBodyBytes p v = Ok (Complete, p', v') → parser_ok p' ∧ state_ p' = kComplete.
Proof.
  unfold parse. generalize 3%nat. intros fuel. revert p v. induction fuel as [|fuel IH]; intros p v Hp; [done|].
  cbn [parse_loop]. destruct (parse_step _ _ p v) as [[[[g|] p1] v1]|] eqn:E; [..|done]; simpl.
  - intros [= -> -> ->]. revert E. unfold parse_step. destruct (state_ p) eqn:Es.
    + repeat case_match; done.
    + by case_if.
    + destruct (parse_chunked _ _ p v) as [[[g p1] v1]|]; [|done]. by destruct g.
    + by intros [= -> ->].
    + done.
  - destruct (parse_step_none _ _ _ _ _ _ [] Hp E) as (_ & Hp1 & _). by apply IH.
Qed.

(** A parser that is done stays so. *)
Lemma parse_completed p (v : bytes) : state_ p = kComplete → parse kMaxHeaderBytes kMaxBodyBytes p v = Ok (Complete, p, v).
Proof. intros Hp. unfold parse. cbn [parse_loop]. unfold parse_step. by rewrite Hp. Qed.

Lemma stream_from_complete p v p' v' s :
  parser_ok p → parse kMaxHeaderBytes kMaxBodyBytes p v = Ok (Complete, p', v') →
  stream_from p (v ++ s) =
  match WsIsUpgradeRequest (request_ p') with
  | Some _ => Opened (request_ p') :: messages_from None (v' ++ s)
  | None => []
  end.
Proof.
  intros Hp E. unfold stream_from. unfold parse in *. by rewrite (parse_loop_complete _ _ 3 p v p' v' s Hp E).
Qed.

Lemma stream_from_incomplete p v p' v' s :
  parser_ok p → parse kMaxHeaderBytes kMaxBodyBytes p v = Ok (Incomplete, p', v') →
  parser_ok p' ∧ stream_from p (v ++ s) = stream_from p' (v' ++ s) ∧ stream_from p' v' = [].
Proof.
  intros Hp E. destruct (parse_more_incomplete _ _ p v p' v' s Hp E) as [Hp' Hs]. split; [done|].
  unfold stream_from. rewrite Hs. split; [done|].
  destruct (parse_more_incomplete _ _ p v p' v' [] Hp E) as [_ Hn]. rewrite !app_nil_r in Hn. by rewrite <-Hn, E.
Qed.
