(* ===== verification/WsConnectionProps.v ===== *)
(** * WebSocket connections tell what they receive

    The invariant of a connection, of the server, and the theorem on any
    session: every connection tells the application the messages of the bytes it
    received, in order and once; its output is sent in the order it was queued;
    each connection's end is reported once. *)

From S2P Require Import Prelude.
From S2P Require Import Bytes.
From S2P Require Import Buffer.
From S2P Require Import PipeIO.
From S2P Require Import EventLoop.
From S2P Require Import HttpParser.
From S2P Require Import HttpResume.
From S2P Require Import HttpStream.
From S2P Require Import HttpServer.
From S2P Require Import WsFrame.
From S2P Require Import WsHandshake.
From S2P Require Import WsConnection.
From S2P Require Import WsStream.

(** ** What a call leaves alone *)

Record same_input (c c' : WsConnection) : Prop := {
  si_id : wc_id c' = wc_id c;
  si_in : wc_in c' = wc_in c;
  si_parser : wc_parser c' = wc_parser c;
  si_open : wc_open c' = wc_open c;
  si_assembling : wc_assembling c' = wc_assembling c;
  si_binary : wc_assembling_binary c' = wc_assembling_binary c;
  si_assembly : wc_assembly c' = wc_assembly c;
  si_received : wc_received c' = wc_received c;
  si_closing : wc_closing c = true → wc_closing c' = true;
  si_closed : wc_closed c = true → wc_closed c' = true;
}.

#[export] Instance same_input_preorder : PreOrder same_input.
Proof.
  split.
  - intros c. by split.
  - intros c1 c2 c3 [] []. split; solve [congruence|auto].
Qed.

Definition out_ok (c : WsConnection) : Prop :=
  buffer_ok (wc_out c) ∧ wc_queued c = wc_sent c ++ buffer_view (wc_out c).

(** What waits to be written will be. *)
Definition flushed (c : WsConnection) : Prop :=
  wc_closed c = false → buffer_view (wc_out c) ≠ [] → wc_write_enabled c = true.

(** The events told so far, of a stream that has [T s] left to tell once [s] has
    come. *)
Definition tells (T : bytes → list WsEvent) (c : WsConnection) : Prop :=
  ∃ l, wc_log c = l ++ (if wc_closed c then [Closed] else []) ∧
    (∀ s, l `prefix_of` ws_events (wc_received c ++ s)) ∧
    (wc_closed c = false → ∀ s, ws_events (wc_received c ++ s) = l ++ T s).

Lemma tells_ext T c c' :
  wc_log c' = wc_log c → wc_closed c' = wc_closed c → wc_received c' = wc_received c → tells T c → tells T c'.
Proof. unfold tells. by intros -> -> ->. Qed.

Lemma tells_weaken T T' c : (wc_closed c = false → ∀ s, T s = T' s) → tells T c → tells T' c.
Proof. intros H (l & H1 & H2 & H3). exists l. split_and!; try done. intros Hc s. by rewrite <-H, H3. Qed.

Lemma close_closed c : wc_closed (ws_close c) = true.
Proof. unfold ws_close. by destruct (wc_closed c) eqn:E. Qed.

Lemma tells_close T T' c : tells T c → tells T' (ws_close c).
Proof.
  intros (l & H1 & H2 & H3). unfold ws_close. destruct (wc_closed c) eqn:E; exists l.
  - rewrite E. split_and!; [done|done|congruence].
  - simpl. rewrite H1, app_nil_r. by split_and!.
Qed.

Lemma tells_event T e c : wc_closed c = false → tells (λ s, e :: T s) c →
  tells T (ws_set_flags (wc_open c) (wc_write_enabled c) (wc_closing c) (wc_closed c) (wc_log c ++ [e]) c).
Proof.
  intros Hc (l & H1 & H2 & H3). exists (l ++ [e]). simpl. rewrite H1, Hc, !app_nil_r. specialize (H3 Hc).
  split_and!; [done|intros s|intros _ s]; rewrite H3, (cons_middle e l (T s)), app_assoc; [by apply prefix_app_r|done].
Qed.

Lemma same_input_close c : same_input c (ws_close c).
Proof. unfold ws_close. destruct (wc_closed c) eqn:E; [done|]. by split. Qed.

Lemma out_ok_queue s c : out_ok c → out_ok (ws_queue s c).
Proof.
  intros [H1 H2]. split; simpl; [by apply buffer_append_ok|]. by rewrite buffer_append_view, app_assoc, H2.
Qed.

Lemma out_ok_close c : out_ok c → out_ok (ws_close c).
Proof. unfold ws_close. by destruct (wc_closed c). Qed.

Lemma want_write_ok T on c :
  same_input c (ws_want_write on c) ∧ (out_ok c → out_ok (ws_want_write on c)) ∧
  (tells T c → tells T (ws_want_write on c)) ∧ wc_write_enabled (ws_want_write on c) = on ∧
  wc_out (ws_want_write on c) = wc_out c ∧ wc_closed (ws_want_write on c) = wc_closed c.
Proof. unfold ws_want_write. destruct (Bool.eqb_spec on (wc_write_enabled c)); by split_and!. Qed.

(** ** Output *)

Lemma ws_writable_ok T c :
  out_ok c → tells T c →
  let c' := ws_writable c in
  same_input c c' ∧ out_ok c' ∧ tells T c' ∧ (flushed c → flushed c').
Proof.
  intros [Ho Hq] Ht. unfold ws_writable.
  pose proof (write_loop_ok (hd [] (wc_writes c)) (wc_out c) (wc_sent c) Ho) as Hw.
  destruct (write_loop _ _ _) as [[en out] sent]. destruct Hw as (Hok & Hs & Hle & Hd & _).
  set (c1 := ws_set_out out (wc_queued c) sent (tail (wc_writes c)) c).
  assert (same_input c c1) as S1 by done.
  assert (out_ok c1) as O1 by (split; [done|]; simpl; congruence).
  assert (tells T c1) as T1 by done.
  assert (∀ x, same_input c x → out_ok x → tells T x →
    same_input c (ws_close x) ∧ out_ok (ws_close x) ∧ tells T (ws_close x) ∧ (flushed c → flushed (ws_close x))) as Hcl.
  { intros x Sx Ox Tx. split_and!; [|by apply out_ok_close|by eapply tells_close|].
    - etrans; [done|apply same_input_close].
    - intros _ ?. pose proof (close_closed x). congruence. }
  destruct en; cbv zeta.
  - destruct (want_write_ok T false c1) as (W1 & W2 & W3 & W4 & W5 & W6).
    assert (same_input c (ws_want_write false c1)) as S2 by (by etrans).
    destruct (wc_closing _); [by apply Hcl; auto|]. split_and!; [done|auto|auto|].
    intros _ _ Hne. rewrite W5 in Hne. by destruct Hne; apply Hd.
  - split_and!; try done. intros Hf Hc Hne. apply (Hf Hc). intros Hn. apply Hne. simpl.
    apply (f_equal length) in Hn. rewrite view_length in Hn by done. simpl in Hn.
    apply length_zero_iff_nil. rewrite view_length by done. lia.
  - by apply Hcl.
Qed.

(** Queue, ask for write events, try at once. *)
Lemma ws_flush_ok T c :
  out_ok c → tells T c →
  let c' := ws_writable (ws_want_write true c) in
  same_input c c' ∧ out_ok c' ∧ tells T c' ∧ flushed c'.
Proof.
  intros Ho Ht. destruct (want_write_ok T true c) as (W1 & W2 & W3 & W4 & _ & _).
  destruct (ws_writable_ok T (ws_want_write true c)) as (H1 & H2 & H3 & H4); [by auto..|].
  split_and!; [by etrans|done|done|]. apply H4. intros _ _. done.
Qed.

Lemma ws_send_ok T c x :
  out_ok c → tells T c →
  same_input c (ws_send c x) ∧ out_ok (ws_send c x) ∧ tells T (ws_send c x) ∧ flushed (ws_send c x).
Proof.
  intros Ho Ht. destruct x as [text|data|code reason]; simpl.
  - unfold ws_send_text. set (c1 := ws_queue _ c).
    destruct (ws_flush_ok T c1) as (H1 & H2 & H3 & H4); [by apply out_ok_queue|done|].
    split_and!; try done. by etrans; [|exact H1].
  - unfold ws_send_binary. set (c1 := ws_queue _ c).
    destruct (ws_flush_ok T c1) as (H1 & H2 & H3 & H4); [by apply out_ok_queue|done|].
    split_and!; try done. by etrans; [|exact H1].
  - unfold ws_send_close. set (c1 := ws_begin_close _).
    destruct (ws_flush_ok T c1) as (H1 & H2 & H3 & H4); [by apply (out_ok_queue _ c)|done|].
    split_and!; try done. by etrans; [|exact H1].
Qed.

Lemma ws_sends_ok T xs : ∀ c,
  out_ok c → tells T c →
  same_input c (foldl ws_send c xs) ∧ out_ok (foldl ws_send c xs) ∧ tells T (foldl ws_send c xs).
Proof.
  induction xs as [|x xs IH]; intros c Ho Ht; [done|]. simpl.
  destruct (ws_send_ok T c x Ho Ht) as (H1 & H2 & H3 & _). destruct (IH _ H2 H3) as (K1 & K2 & K3).
  split_and!; try done. by etrans.
Qed.

(** A callback tells one event, whatever the application sends from it. *)
Lemma ws_callback_ok T e c :
  wc_closed c = false → out_ok c → tells (λ s, e :: T s) c →
  same_input c (ws_callback e c) ∧ out_ok (ws_callback e c) ∧ tells T (ws_callback e c).
Proof.
  intros Hc Ho Ht. unfold ws_callback.
  destruct (ws_sends_ok T (hd [] (wc_sends c))
    (ws_set_flags (wc_open c) (wc_write_enabled c) (wc_closing c) (wc_closed c) (wc_log c ++ [e])
      (ws_set_script (wc_writes c) (tail (wc_sends c)) c))) as (H1 & H2 & H3).
  - done.
  - by apply (tells_event T e (ws_set_script (wc_writes c) (tail (wc_sends c)) c)).
  - split_and!; try done. by etrans; [|exact H1].
Qed.

(** ** Input *)

Definition fragments_of (c : WsConnection) : fragments :=
  if wc_assembling c then Some (wc_assembling_binary c, wc_assembly c) else None.

(** What [v], the unread bytes, has left to tell. *)
Definition left_to_tell (c : WsConnection) (v : bytes) : list WsEvent :=
  if wc_open c then messages_from (fragments_of c) v else stream_from (wc_parser c) v.

Record ws_core (c : WsConnection) : Prop := {
  wk_in : buffer_ok (wc_in c);
  wk_out : out_ok c;
  wk_parser : wc_open c = false → parser_live (wc_parser c) ∧ wc_assembling c = false;
  wk_assembly : zlen (wc_assembly c) ≤ kMaxMessageBytes;
  wk_tells : tells (λ s, left_to_tell c (buffer_view (wc_in c) ++ s)) c;
}.

(** Between calls: nothing complete waits unless the connection is closing. *)
Record ws_ok (c : WsConnection) : Prop := {
  wo_core : ws_core c;
  wo_flushed : flushed c;
  wo_settled : wc_closed c = true ∨ wc_closing c = true ∨ left_to_tell c (buffer_view (wc_in c)) = [];
}.

Lemma left_to_tell_same c c' v : same_input c c' → left_to_tell c' v = left_to_tell c v.
Proof. intros [_ _ H1 H2 H3 H4 H5 _ _ _]. unfold left_to_tell, fragments_of. by rewrite H1, H2, H3, H4, H5. Qed.

(** A call that leaves the input alone keeps the invariant. *)
Lemma ws_core_same c c' :
  ws_core c → same_input c c' → out_ok c' → tells (λ s, left_to_tell c (buffer_view (wc_in c) ++ s)) c' → ws_core c'.
Proof.
  intros [] Hs Ho Ht. pose proof Hs as []. split; [congruence|done| |congruence|].
  { rewrite si_parser0, si_open0, si_assembling0. done. }
  eapply tells_weaken; [|exact Ht]. intros _ s. cbn beta. rewrite (left_to_tell_same c c') by done. congruence.
Qed.

Lemma ws_core_close c : ws_core c → ws_core (ws_close c).
Proof.
  intros Hc. eapply ws_core_same; [done|apply same_input_close|by apply out_ok_close, Hc|].
  by eapply tells_close, wk_tells.
Qed.

Lemma ws_ok_closed c : ws_core c → wc_closed c = true → ws_ok c.
Proof. intros Hc E. split; [done| |by left]. intros ?. congruence. Qed.

Lemma ws_ok_close c : ws_core c → ws_ok (ws_close c).
Proof. intros Hc. apply ws_ok_closed; [by apply ws_core_close|apply close_closed]. Qed.

(** A connection about to handle a frame: the frame is out of the buffer, the
    stream has [T s] left to tell. *)
Record frame_pre (T : bytes → list WsEvent) (c : WsConnection) : Prop := {
  fp_open : wc_open c = true;
  fp_closed : wc_closed c = false;
  fp_in : buffer_ok (wc_in c);
  fp_out : out_ok c;
  fp_assembly : zlen (wc_assembly c) ≤ kMaxMessageBytes;
  fp_tells : tells T c;
}.

(** And after it. *)
Definition frame_post (c c' : WsConnection) : Prop :=
  ws_core c' ∧ wc_in c' = wc_in c ∧ wc_open c' = true ∧ wc_id c' = wc_id c ∧ (wc_closing c = true → wc_closing c' = true).

Lemma frame_post_core T c :
  frame_pre T c → (∀ s, T s = messages_from (fragments_of c) (buffer_view (wc_in c) ++ s)) → frame_post c c.
Proof.
  intros [] HT. split; [|by rewrite fp_open0]. split; try done; [congruence|]. unfold left_to_tell. rewrite fp_open0.
  eapply tells_weaken; [|done]. auto.
Qed.

Lemma frame_post_close T c : frame_pre T c → frame_post c (ws_close c).
Proof.
  intros [H1 H2 H3 H4 H5 H6]. pose proof (same_input_close c) as []. split; [|by rewrite si_open0].
  split; [congruence|by apply out_ok_close|congruence|congruence|]. by eapply tells_close.
Qed.

Lemma frame_post_message binary data c :
  frame_pre (λ s, Message binary data :: messages_from None (buffer_view (wc_in c) ++ s)) c → wc_assembling c = false →
  let c' := ws_callback (Message binary data) c in frame_post c c' ∧ wc_assembling c' = false.
Proof.
  intros [H1 H2 H3 H4 H5 H6] Has. destruct (ws_callback_ok _ _ _ H2 H4 H6) as (S1 & S2 & S3). pose proof S1 as [].
  split; [|by rewrite si_assembling0]. split; [|by rewrite si_open0].
  split; [congruence|done|congruence|congruence|]. unfold left_to_tell, fragments_of.
  rewrite si_open0, H1, si_assembling0, Has. eapply tells_weaken; [|exact S3]. cbn beta. congruence.
Qed.

(** Clearing the fragments of a finished message. *)
Lemma frame_post_clear bin c c' :
  wc_assembling c' = false → frame_post c c' → frame_post c (ws_set_assembly (wc_assembling c') bin [] c').
Proof.
  intros Has ([] & H). split; [|done]. split; try done. rewrite Has. unfold left_to_tell, fragments_of in *.
  rewrite Has in wk_tells0. done.
Qed.

Lemma handle_frame_ok f c :
  frame_pre (λ s, match frame_step (fragments_of c) f with
                  | Some (es, st) => es ++ messages_from st (buffer_view (wc_in c) ++ s)
                  | None => []
                  end) c →
  zlen (f_payload f) ≤ kMaxFramePayload →
  frame_post c (handle_frame f c).
Proof.
  intros Hpre Hp. unfold handle_frame, frame_step in *.
  assert (zlen (f_payload f) ≤ kMaxMessageBytes) as Hp' by (unfold kMaxFramePayload, kMaxMessageBytes in *; lia).
  pose proof Hpre as [H1 H2 H3 H4 H5 H6]. unfold fragments_of in *.
  destruct (f_opcode f).
  - destruct (wc_assembling c) eqn:Has; simpl negb; cbv iota; [|by eapply frame_post_close].
    case_if; [by eapply frame_post_close|]. destruct (f_fin f).
    + set (c2 := ws_set_assembly false _ _ _).
      destruct (frame_post_message (wc_assembling_binary c) (wc_assembly c ++ f_payload f) c2) as [K1 K2]; [|done|].
      { split; try done. simpl. rewrite zlen_app. lia. }
      by apply frame_post_clear.
    + set (c2 := ws_set_assembly true _ _ c). eapply (frame_post_core _ c2); [split; try done; simpl; rewrite zlen_app; lia|].
      done.
  - destruct (wc_assembling c) eqn:Has; [by eapply frame_post_close|]. destruct (f_fin f).
    + by apply frame_post_message.
    + set (c2 := ws_set_assembly true _ _ c). by eapply (frame_post_core _ c2); [split|].
  - destruct (wc_assembling c) eqn:Has; [by eapply frame_post_close|]. destruct (f_fin f).
    + by apply frame_post_message.
    + set (c2 := ws_set_assembly true _ _ c). by eapply (frame_post_core _ c2); [split|].
  - set (c2 := ws_begin_close _). assert (frame_post c2 c2) as [K _]; [|by split].
    eapply frame_post_core; [split; try done; by apply (out_ok_queue _ c)|done].
  - set (c2 := ws_queue _ c). eapply (frame_post_core _ c2); [split; try done; by apply (out_ok_queue _ c)|done].
  - by eapply frame_post_core.
Qed.

Lemma frames_loop_ok fuel : ∀ c,
  ws_core c → wc_closed c = false → wc_open c = true → (buf_size (wc_in c) < fuel)%nat →
  ∃ c', frames_loop fuel c = Ok c' ∧ ws_core c' ∧ wc_id c' = wc_id c ∧
    (wc_closed c' = true ∨ wc_closing c' = true ∨ left_to_tell c' (buffer_view (wc_in c')) = []).
Proof.
  induction fuel as [|fuel IH]; intros c Hc Hcl Hop Hf; [lia|]. cbn [frames_loop].
  pose proof Hc as [Hin Hout _ Ha Ht]. destruct (@ws_decode_view Buffer buffer_queue (wc_in c) kMaxFramePayload true Hin) as [Hd Hb].
  cbn [bq_view buffer_queue bq_ok] in Hd, Hb.
  destruct (DecodeWsFrame kMaxFramePayload true (wc_in c)) as [[|f|e] b]; cbn [fst snd] in Hd, Hb.
  - pose proof (@ws_decode_limits _ list_queue (buffer_view (wc_in c)) kMaxFramePayload true I ltac:(unfold kMaxFramePayload; lia)) as Hv.
    rewrite Hd in Hv. eexists. split; [done|].
    assert (ws_core (ws_set_in b (wc_parser c) (wc_received c) c)) as Hk.
    { split; try done; [by simpl; rewrite Hop|]. simpl. by rewrite Hv. }
    split_and!; [done|done|]. do 2 right. unfold left_to_tell. simpl. rewrite Hop, messages_from_eq, Hv, Hd. done.
  - set (c1 := ws_set_in b (wc_parser c) (wc_received c) c).
    destruct (ws_decode_shrinks _ _ _ Hd) as [Hlt Hpl]. rewrite !view_length in Hlt by done.
    destruct (handle_frame_ok f c1) as (K1 & K2 & K3 & K4 & _); [|done|].
    { split; try done. unfold left_to_tell in Ht. rewrite Hop in Ht. eapply tells_weaken; [|exact Ht]. intros _ s. cbn beta.
      rewrite messages_from_eq.
      pose proof (ws_decode_more (buffer_view (wc_in c)) s kMaxFramePayload true ltac:(unfold kMaxFramePayload; lia)) as Hm.
      rewrite Hd in Hm. by rewrite Hm. }
    destruct (wc_closed (handle_frame f c1)) eqn:E1; [|destruct (wc_closing (handle_frame f c1)) eqn:E2]; cbn [orb].
    1, 2: by eexists; split_and!; [done|done|by rewrite K4|by auto].
    destruct (IH (handle_frame f c1)) as (c' & -> & L1 & L2 & L3); try done; [rewrite K2; simpl; lia|].
    exists c'. split_and!; try done. by rewrite L2, K4.
  - eexists. split; [done|]. set (c1 := ws_set_in b (wc_parser c) (wc_received c) c).
    assert (ws_core (ws_close c1)) as Hk.
    { pose proof (same_input_close c1) as S. pose proof (si_open _ _ S) as So. split.
      - by rewrite (si_in _ _ S).
      - by apply out_ok_close.
      - rewrite So. simpl. congruence.
      - by rewrite (si_assembly _ _ S).
      - by eapply tells_close. }
    split_and!; [done|by rewrite (si_id _ _ (same_input_close c1))|left; apply close_closed].
Qed.

(** The opening request. *)
Lemma do_handshake_ok c :
  ws_core c → wc_closed c = false → wc_open c = false →
  ∃ c', do_handshake c = Ok c' ∧ ws_core c' ∧ wc_id c' = wc_id c ∧
    (wc_closed c' = true ∨ wc_closing c' = true ∨ wc_open c' = true ∨ left_to_tell c' (buffer_view (wc_in c')) = []).
Proof.
  intros Hc Hcl Hop. pose proof Hc as [Hin Hout Hp Ha Ht]. destruct (Hp Hop) as [Hp' Has]. clear Hp. rename Hp' into Hp. unfold do_handshake.
  destruct (parse_buffer kMaxHeaderBytes kMaxBodyBytes _ _ Hin Hp) as (g & p & b & -> & Hparse & Hb). cbn [mbind res_bind].
  set (c1 := ws_set_in b p (wc_received c) c). unfold left_to_tell in Ht. rewrite Hop in Ht.
  assert (g = Error ∨ parser_ok (wc_parser c)) as Hok.
  { destruct Hp as [?|Hp]; [by auto|]. left. rewrite (parse_failed _ _ _ _ Hp) in Hparse. congruence. }
  destruct g.
  - destruct Hok as [?|Hok]; [done|]. eexists. split; [done|].
    assert (∀ s, stream_from (wc_parser c) (buffer_view (wc_in c) ++ s) = stream_from p (buffer_view b ++ s)) as Hs.
    { intros s. by destruct (stream_from_incomplete _ _ _ _ s Hok Hparse) as (_ & ? & _). }
    destruct (stream_from_incomplete _ _ _ _ [] Hok Hparse) as (Hp' & _ & Hn). split_and!; [|done|].
    + split; try done; [by split; [left|]|]. unfold left_to_tell. simpl. rewrite Hop. eapply tells_weaken; [|exact Ht]. auto.
    + unfold left_to_tell. simpl. rewrite Hop. auto.
  - destruct Hok as [?|Hok]; [done|]. destruct (parse_complete_state _ _ _ _ Hok Hparse) as [Hp' Hst].
    assert (∀ s, stream_from (wc_parser c) (buffer_view (wc_in c) ++ s) =
      match WsIsUpgradeRequest (request_ p) with
      | Some _ => Opened (request_ p) :: messages_from None (buffer_view b ++ s) | None => [] end) as Hs.
    { intros s. by apply stream_from_complete. }
    destruct (WsIsUpgradeRequest (request_ p)) as [key|] eqn:Ek; (eexists; split; [done|]).
    + set (c2 := ws_set_flags true _ _ _ _ _).
      destruct (ws_callback_ok (λ s, messages_from None (buffer_view b ++ s)) (Opened (request_ p)) c2) as (S1 & S2 & S3).
      * done.
      * by apply (out_ok_queue _ c1).
      * eapply (tells_ext _ c); try done. eapply tells_weaken; [|exact Ht]. auto.
      * pose proof S1 as []. split_and!; [|by rewrite si_id0|by rewrite si_open0; auto].
        split; [by rewrite si_in0|done|by rewrite si_open0|by rewrite si_assembly0|].
        unfold left_to_tell, fragments_of. rewrite si_open0, si_assembling0. simpl. rewrite Has, si_in0. exact S3.
    + split_and!; [|done|by auto]. split; try done; [by apply (out_ok_queue _ c1)|by split; [left|]|].
      unfold left_to_tell. simpl. rewrite Hop. eapply (tells_ext _ c); try done. eapply tells_weaken; [|exact Ht].
      intros _ s. cbn beta. unfold stream_from at 2. by rewrite Hs, (parse_completed p _ Hst), Ek.
  - eexists. split; [done|]. split_and!; [|by rewrite (si_id _ _ (same_input_close c1))|left; apply close_closed].
    pose proof (same_input_close c1) as []. split; [by rewrite si_in0|by apply out_ok_close| |by rewrite si_assembly0|].
    + intros _. rewrite si_parser0, si_assembling0. split; [|done]. right. by eapply parse_loop_error.
    + by eapply tells_close.
Qed.

(** More bytes come. *)
Lemma ws_core_read b rs c :
  ws_core c → buffer_ok b → buffer_view b = buffer_view (wc_in c) ++ received rs →
  ws_core (ws_set_in b (wc_parser c) (wc_received c ++ received rs) c).
Proof.
  intros [Hin Hout Hp Ha (l & L1 & L2 & L3)] Hb Hv. split; try done. exists l. simpl. split_and!; [done| |].
  - intros s. rewrite <-app_assoc. apply L2.
  - intros Hcl s. rewrite Hv, <-!app_assoc. by apply L3.
Qed.

Lemma ws_readable_ok rs c :
  ws_core c → wc_closed c = false → kernel_reads kWsChunk rs → ∃ c', ws_readable rs c = Ok c' ∧ ws_ok c' ∧ wc_id c' = wc_id c.
Proof.
  intros Hc Hcl Hrs. unfold ws_readable.
  destruct (read_all_ok kWsChunk rs (wc_in c) (wk_in _ Hc) Hrs) as [Hb Hv].
  destruct (read_all kWsChunk rs (wc_in c)) as [en b]. cbn [snd] in Hb, Hv. set (c1 := ws_set_in b _ _ c).
  assert (ws_core c1) as H1 by (by apply ws_core_read). assert (wc_closed c1 = false) as Hc1 by done.
  assert (wc_id c1 = wc_id c) as Hid by done. clearbody c1.
  destruct en; [|by eexists; split_and!; [done|by apply ws_ok_close|by rewrite (si_id _ _ (same_input_close c1))]..].
  assert (∃ c2, (if wc_open c1 then Ok c1 else do_handshake c1) = Ok c2 ∧ ws_core c2 ∧ wc_id c2 = wc_id c ∧
    (wc_closed c2 = true ∨ wc_closing c2 = true ∨ wc_open c2 = true ∨ left_to_tell c2 (buffer_view (wc_in c2)) = []))
    as (c2 & -> & H2 & Hid2 & Hs2).
  { destruct (wc_open c1) eqn:Eo; [by exists c1; split_and!; auto|]. destruct (do_handshake_ok c1 H1 Hc1 Eo) as (c2 & ? & ? & ? & ?).
    exists c2. rewrite <-Hid. auto. }
  cbn [mbind res_bind]. destruct (wc_closed c2) eqn:Ec2; [by exists c2; split_and!; [|apply ws_ok_closed|]|].
  assert (∃ c3, (if wc_open c2 then process_frames c2 else Ok c2) = Ok c3 ∧ ws_core c3 ∧ wc_id c3 = wc_id c ∧
    (wc_closed c3 = true ∨ wc_closing c3 = true ∨ left_to_tell c3 (buffer_view (wc_in c3)) = []))
    as (c3 & -> & H3 & Hid3 & Hs3).
  { destruct (wc_open c2) eqn:Eo.
    - destruct (frames_loop_ok (S (buf_size (wc_in c2))) c2 H2 Ec2 Eo) as (c3 & ? & ? & ? & ?); [lia|].
      exists c3. rewrite <-Hid2. auto.
    - exists c2. split_and!; try done. destruct Hs2 as [?|[?|[?|?]]]; [by auto..|congruence|by auto]. }
  cbn [mbind res_bind]. destruct (wc_closed c3) eqn:Ec3; [by exists c3; split_and!; [|apply ws_ok_closed|]|].
  eexists. split; [done|]. destruct (buf_empty (wc_out c3)) eqn:Eb.
  - split; [|done]. split; [done| |destruct Hs3 as [?|[?|?]]; auto; congruence].
    intros _ Hne. destruct Hne. by apply buf_empty_view; [apply H3|].
  - destruct (ws_flush_ok _ c3 (wk_out _ H3) (wk_tells _ H3)) as (K1 & K2 & K3 & K4).
    split; [|by rewrite (si_id _ _ K1)]. split; [by eapply ws_core_same|done|].
    rewrite (left_to_tell_same _ _ _ K1), (si_in _ _ K1).
    destruct Hs3 as [?|[?|?]]; [congruence|right; left; by apply (si_closing _ _ K1)|by auto].
Qed.

(** A call that leaves the input alone, between calls. *)
Lemma ws_ok_same c c' :
  ws_ok c → same_input c c' → out_ok c' → flushed c' →
  tells (λ s, left_to_tell c (buffer_view (wc_in c) ++ s)) c' → ws_ok c'.
Proof.
  intros [Hk _ Hs] Hi Ho Hf Ht. split; [by eapply ws_core_same|done|].
  rewrite (left_to_tell_same _ _ _ Hi), (si_in _ _ Hi). pose proof (si_closing _ _ Hi). pose proof (si_closed _ _ Hi). naive_solver.
Qed.

Lemma ws_io_ready_ok events rs c :
  ws_ok c → wc_closed c = false → kernel_reads kWsChunk rs →
  ∃ c', ws_io_ready events rs c = Ok c' ∧ ws_ok c' ∧ wc_id c' = wc_id c.
Proof.
  intros Hc Hcl Hrs. unfold ws_io_ready.
  assert (∃ c1, (if HasEvent events kReadable then ws_readable rs c else Ok c) = Ok c1 ∧ ws_ok c1 ∧ wc_id c1 = wc_id c)
    as (c1 & -> & H1 & <-).
  { destruct (HasEvent events kReadable); [|by exists c]. apply ws_readable_ok; [apply Hc|done|done]. }
  cbn [mbind res_bind]. destruct (wc_closed c1) eqn:E1; [by exists c1|].
  set (c2 := if HasEvent events kWritable then ws_writable c1 else c1).
  assert (ws_ok c2 ∧ wc_id c2 = wc_id c1) as (H2 & <-).
  { unfold c2. destruct (HasEvent events kWritable); [|done]. pose proof (wo_core _ H1) as Hk.
    destruct (ws_writable_ok _ c1 (wk_out _ Hk) (wk_tells _ Hk)) as (K1 & K2 & K3 & K4).
    split; [|apply (si_id _ _ K1)]. eapply ws_ok_same; try done. by apply K4, H1. }
  destruct (wc_closed c2) eqn:E2; [by exists c2|]. eexists. split; [done|].
  destruct (HasEvent events kError); [|done]. split; [apply ws_ok_close, H2|apply (si_id _ _ (same_input_close c2))].
Qed.

Lemma ws_send_text_ok text c : ws_ok c → ws_ok (ws_send_text text c) ∧ same_input c (ws_send_text text c).
Proof.
  intros Hc. pose proof (wo_core _ Hc) as Hk.
  destruct (ws_send_ok _ c (SendText text) (wk_out _ Hk) (wk_tells _ Hk)) as (K1 & K2 & K3 & K4).
  split; [by eapply ws_ok_same|done].
Qed.

Lemma new_ws_ok id agg : ws_ok (new_ws id agg).
Proof.
  split; [split|by intros _ []|do 2 right; by vm_compute]; simpl; try (exact new_buffer_ok || done).
  - intros _. split; [by left|done].
  - exists []. split_and!; [done|intros s; apply prefix_nil|done].
Qed.

(** ** The server *)

(** Connections by descriptor: ids are theirs alone, a closed one was reported
    and waits to be erased. *)
Record server_ok (s : WsServer) : Prop := {
  so_conns : ∀ fd c, wv_conns s !! fd = Some c → ws_ok c ∧ wc_id c < wv_next_conn_id s;
  so_unique : ∀ fd fd' c c', wv_conns s !! fd = Some c → wv_conns s !! fd' = Some c' → wc_id c = wc_id c' → fd = fd';
  so_doomed : ∀ fd, fd ∈ wv_doomed s ↔ ∃ c, wv_conns s !! fd = Some c ∧ wc_closed c = true;
  so_closed : ∀ fd c, wv_conns s !! fd = Some c → wc_closed c = true ↔ wc_id c ∈ wv_closed s;
  so_once : NoDup (wv_closed s);
  so_ids : ∀ id, id ∈ wv_closed s → id < wv_next_conn_id s;
}.

Lemma new_ws_server_ok : server_ok new_ws_server.
Proof.
  split; simpl; try done.
  - intros fd. split; [by intros ?%not_elem_of_nil|by intros (c & ? & _)].
  - apply NoDup_nil_2.
  - by intros id ?%not_elem_of_nil.
Qed.

Lemma ws_accept_ok fd agg ok s : server_ok s → server_ok (ws_accept fd agg ok s).
Proof.
  intros [H1 H2 H3 H4 H5 H6].
  assert (ws_accept fd agg ok s =
    mkWsServer (if ok && bool_decide (wv_conns s !! fd = None) then <[fd := new_ws (wv_next_conn_id s) agg]> (wv_conns s) else wv_conns s)
      (wv_next_conn_id s + 1) (wv_doomed s) (wv_closed s)) as ->.
  { unfold ws_accept. destruct ok; [|done]. destruct (wv_conns s !! fd) eqn:E; [by rewrite bool_decide_eq_false_2|].
    by rewrite bool_decide_eq_true_2. }
  destruct (ok && _) eqn:Ein.
  - apply andb_true_iff in Ein as [_ Hn%bool_decide_eq_true]. split; simpl.
    + intros fd' c. rewrite lookup_insert_Some. intros [[<- <-]|[_ Hc]]; [split; [apply new_ws_ok|simpl; lia]|].
      destruct (H1 _ _ Hc). split; [done|lia].
    + intros fd1 fd2 c1 c2. rewrite !lookup_insert_Some.
      intros [[<- <-]|[_ Hc1]] [[<- <-]|[_ Hc2]] He; try done; simpl in He.
      * destruct (H1 _ _ Hc2). lia.
      * destruct (H1 _ _ Hc1). lia.
      * by eapply H2.
    + intros fd'. rewrite H3. split; intros (c & Hc & Hcl); exists c; (split; [|done]).
      * rewrite lookup_insert_ne; [done|]. intros ->. congruence.
      * apply lookup_insert_Some in Hc as [[<- <-]|[_ Hc]]; done.
    + intros fd' c. rewrite lookup_insert_Some. intros [[<- <-]|[_ Hc]]; [|by eapply H4].
      split; [done|]. intros Hi%H6. simpl in Hi. lia.
    + done.
    + intros id Hi%H6. lia.
  - split; simpl; try done.
    + intros fd' c Hc. destruct (H1 _ _ Hc). split; [done|lia].
    + intros id Hi%H6. lia.
Qed.

(** A call on a connection. *)
Lemma ws_after_call_ok fd c c' s :
  server_ok s → wv_conns s !! fd = Some c → ws_ok c' → wc_id c' = wc_id c → (wc_closed c = true → wc_closed c' = true) →
  server_ok (ws_after_call fd c c' s).
Proof.
  intros [H1 H2 H3 H4 H5 H6] Hfd Hok Hid Hmono. destruct (H1 _ _ Hfd) as [_ Hlt]. pose proof (H4 _ _ Hfd) as Hrep.
  assert (∀ fd' x, wv_conns s !! fd' = Some x → fd' ≠ fd → wc_id x ≠ wc_id c) as Hne.
  { intros fd' x Hx Hn He. apply Hn. by eapply H2. }
  set (newly := negb (wc_closed c) && wc_closed c').
  assert (newly = true ↔ wc_closed c = false ∧ wc_closed c' = true) as Hnew.
  { unfold newly. destruct (wc_closed c), (wc_closed c'); naive_solver. }
  unfold ws_after_call. fold newly. split; simpl.
  - intros fd' x. rewrite lookup_insert_Some. intros [[<- <-]|[_ Hx]]; [by rewrite Hid|by eapply H1].
  - intros fd1 fd2 c1 c2. rewrite !lookup_insert_Some.
    intros [[<- <-]|[E1 Hc1]] [[<- <-]|[E2 Hc2]] He; rewrite ?Hid in He; try done.
    + by destruct (Hne _ _ Hc2).
    + by destruct (Hne _ _ Hc1).
    + by eapply H2.
  - intros fd'. rewrite elem_of_app, H3. destruct (decide (fd' = fd)) as [->|Hn].
    + rewrite lookup_insert_eq. split.
      * intros [(x & Hx & Hcl)|Hi]; exists c'; (split; [done|]).
        -- apply Hmono. congruence.
        -- destruct newly; [by apply Hnew|by apply not_elem_of_nil in Hi].
      * intros (x & [= <-] & Hcl). destruct (wc_closed c) eqn:E; [left; by exists c|right].
        assert (newly = true) as -> by (by apply Hnew). by apply list_elem_of_singleton.
    + rewrite lookup_insert_ne by done. split; [|by auto]. intros [?|Hi]; [done|]. exfalso. destruct newly.
      * by apply list_elem_of_singleton in Hi.
      * by apply not_elem_of_nil in Hi.
  - intros fd' x. rewrite lookup_insert_Some, elem_of_app. intros [[<- <-]|[E Hx]].
    + rewrite Hid, <-Hrep. split.
      * intros Hcl. destruct (wc_closed c) eqn:E; [by left|right].
        assert (newly = true) as -> by (by apply Hnew). by apply list_elem_of_singleton.
      * intros [?|Hi]; [by apply Hmono|]. destruct newly; [by apply Hnew|by apply not_elem_of_nil in Hi].
    + rewrite (H4 _ _ Hx). split; [by auto|]. intros [?|Hi]; [done|]. exfalso. destruct newly; [|by apply not_elem_of_nil in Hi].
      apply list_elem_of_singleton in Hi. rewrite Hid in Hi. by apply (Hne _ _ Hx).
  - apply NoDup_app. split_and!; [done| |destruct newly; [apply NoDup_singleton|apply NoDup_nil_2]].
    intros id Hi Hi'. destruct newly; [|by apply not_elem_of_nil in Hi'].
    apply list_elem_of_singleton in Hi' as ->. rewrite Hid, <-Hrep in Hi. destruct Hnew as [[E _] _]; [done|congruence].
  - intros id. rewrite elem_of_app. intros [?|Hi]; [by apply H6|]. destruct newly; [|by apply not_elem_of_nil in Hi].
    apply list_elem_of_singleton in Hi as ->. by rewrite Hid.
Qed.

Lemma lookup_delete_all (l : list Z) : ∀ (m : gmap Z WsConnection) fd c,
  foldl (λ m fd, delete fd m) m l !! fd = Some c ↔ m !! fd = Some c ∧ fd ∉ l.
Proof.
  induction l as [|x l IH]; intros m fd c; simpl.
  - split; [|by intros []]. intros ?. split; [done|by apply not_elem_of_nil].
  - rewrite IH, lookup_delete_Some, not_elem_of_cons. naive_solver.
Qed.

Lemma ws_erase_closed_ok s : server_ok s → server_ok (ws_erase_closed s).
Proof.
  intros [H1 H2 H3 H4 H5 H6]. split; simpl; try done.
  - intros fd c [Hc _]%lookup_delete_all. by eapply H1.
  - intros fd fd' c c' [Hc _]%lookup_delete_all [Hc' _]%lookup_delete_all. by eapply H2.
  - intros fd. split; [by intros ?%not_elem_of_nil|]. intros (c & [Hc Hn]%lookup_delete_all & Hcl).
    destruct Hn. apply H3. by exists c.
  - intros fd c [Hc _]%lookup_delete_all. by eapply H4.
Qed.

(** The reads of an event are ones the kernel can produce. *)
Definition ws_event_ok (e : ws_event) : Prop :=
  match e with WsReady _ _ rs _ _ => kernel_reads kWsChunk rs | _ => True end.

Lemma ws_ok_script writes sends c : ws_ok c → ws_ok (ws_set_script writes sends c).
Proof. by intros [[]]. Qed.

Lemma ws_step_ok s e : server_ok s → ws_event_ok e → ∃ s', ws_step s e = Ok s' ∧ server_ok s'.
Proof.
  intros Hs He. destruct e as [fd agg ok|fd events rs writes sends|fd id text writes|]; simpl.
  - eexists. split; [done|]. by apply ws_accept_ok.
  - unfold ws_server_io. destruct (wv_conns s !! fd) as [c|] eqn:Hc; [|by exists s].
    destruct (wc_closed c) eqn:Ecl; [by exists s|]. destruct (so_conns _ Hs _ _ Hc) as [Hok _].
    destruct (ws_io_ready_ok events rs (ws_set_script writes sends c)) as (c' & -> & H1 & H2); [by apply ws_ok_script|done|done|].
    eexists. split; [done|]. apply ws_after_call_ok; try done. congruence.
  - eexists. split; [done|]. unfold deliver_text. destruct (wv_conns s !! fd) as [c|] eqn:Hc; [|done].
    destruct (negb _); [done|]. destruct (so_conns _ Hs _ _ Hc) as [Hok _].
    destruct (ws_send_text_ok text (ws_set_script writes [] c)) as [H1 H2]; [by apply ws_ok_script|].
    apply ws_after_call_ok; try done; [apply (si_id _ _ H2)|apply (si_closed _ _ H2)].
  - eexists. split; [done|]. by apply ws_erase_closed_ok.
Qed.

Lemma ws_session_ok es : Forall ws_event_ok es → ∃ s, ws_session es = Ok s ∧ server_ok s.
Proof.
  intros He. unfold ws_session. pose proof new_ws_server_ok as Hs. revert He Hs. generalize new_ws_server.
  induction es as [|e es IH]; intros s He Hs; [by exists s|]. apply Forall_cons in He as [He Hes]. cbn [res_foldl].
  destruct (ws_step_ok s e Hs He) as (s' & -> & Hs'). by apply IH.
Qed.

(** C34: WebSocket sessions. Whatever clients send, however it is split, and
    whatever the application sends back, the server handles every event. What a
    connection tells the application is a prefix of the opening request and
    messages of the bytes it received, in order and each once, and then at most
    the one report of its end; while it is open and not closing it has told all
    of them (one that ends may leave out messages already received, see
    [message_before_eof_lost]). Bytes go out in the order they were queued, what
    waits has write interest; reassembly stays within its cap; ids are unique,
    each end is reported once and its connection waits to be erased. *)
Theorem ws_tells_messages es :
  Forall ws_event_ok es →
  ∃ s, ws_session es = Ok s ∧ NoDup (wv_closed s) ∧
    (∀ fd fd' c c', wv_conns s !! fd = Some c → wv_conns s !! fd' = Some c' → wc_id c = wc_id c' → fd = fd') ∧
    ∀ fd c, wv_conns s !! fd = Some c →
      (∃ told, wc_log c = told ++ (if wc_closed c then [Closed] else []) ∧ Closed ∉ told ∧
         told `prefix_of` ws_events (wc_received c) ∧
         (wc_closed c = false → wc_closing c = false → told = ws_events (wc_received c))) ∧
      wc_queued c = wc_sent c ++ buffer_view (wc_out c) ∧
      (wc_closed c = false → buffer_view (wc_out c) ≠ [] → wc_write_enabled c = true) ∧
      zlen (wc_assembly c) ≤ kMaxMessageBytes ∧
      (wc_closed c = true ↔ wc_id c ∈ wv_closed s) ∧ (wc_closed c = true ↔ fd ∈ wv_doomed s).
Proof.
  intros Hes. destruct (ws_session_ok es Hes) as (s & Hrun & Hs). exists s. split; [done|].
  split; [apply Hs|]. split; [exact (so_unique _ Hs)|]. intros fd c Hc.
  destruct (so_conns _ Hs fd c Hc) as [[[_ [_ Hq] _ Ha (l & L1 & L2 & L3)] Hf Hset] _].
  specialize (L2 []). rewrite app_nil_r in L2. split_and!; try done.
  - exists l. split_and!; try done.
    + intros Hin. apply (events_not_closed (wc_received c)). by eapply elem_of_prefix.
    + intros E1 E2. specialize (L3 E1 []). rewrite !app_nil_r in L3. destruct Hset as [?|[?|Hn]]; [congruence..|].
      by rewrite L3, Hn, app_nil_r.
  - by eapply so_closed.
  - rewrite (so_doomed _ Hs). split; [by exists c|]. intros (x & Hx & ?). congruence.
Qed.

(** ** A concrete session *)

Definition ws_open_request : bytes :=
  crlf_join [lit "GET /ws HTTP/1.1"; lit "Host: x"; lit "Upgrade: websocket"; lit "Connection: Upgrade";
             lit "Sec-WebSocket-Version: 13"; lit "Sec-WebSocket-Key: dGhlIHNhbXBsZSBub25jZQ=="; []].
Definition client_frame (op : WsOpcode) (fin : bool) (payload : string) : bytes :=
  EncodeWsFrame op (lit payload) fin (Some sample_key).

(** The opening request in two pieces; a fragmented message with a ping between
    its fragments, the second cut; an answer from the callback; a message from
    another connection, half of it written. *)
Definition sample_ws_session : list ws_event :=
  [WsAccepts 7 false true; WsReady 7 kReadable [RData (take 40 ws_open_request); RAgain] [] [];
   WsReady 7 kReadable [RData (drop 40 ws_open_request); RIntr; RData (client_frame kText false "type=submit")]
     [[WCount 1000]] [];
   WsReady 7 kReadable [RData (client_frame kPing true "p" ++ take 9 (client_frame kContinuation true "&id=1"))]
     [[WCount 1000]] [];
   WsReady 7 kReadable [RData (drop 9 (client_frame kContinuation true "&id=1"))] [[WCount 1000]] [[SendText (lit "ok")]];
   Delivers 7 2 (lit "lost") [[WCount 1000]]; Delivers 7 1 (lit "trade") [[WCount 3; WAgain]]].

(** What can be seen of the connection on a descriptor: the messages told, the
    number of events in the bytes received, what waits and its flags. *)
Definition ws_probe (fd : Z) (r : res WsServer) : option (list (bool * bytes) * nat * bytes * bool * bool * bool) :=
  match r with
  | Ok s =>
      match wv_conns s !! fd with
      | Some c => Some (omap (λ e, match e with Message b p => Some (b, p) | _ => None end) (wc_log c),
                        length (ws_events (wc_received c)), buffer_view (wc_out c), wc_write_enabled c,
                        wc_closing c, wc_closed c)
      | None => None
      end
  | Err _ => None
  end.

Lemma sample_ws_session_ok : Forall ws_event_ok sample_ws_session.
Proof.
  unfold sample_ws_session. repeat (apply Forall_cons; split); try exact I; try (by apply Forall_nil).
  all: unfold ws_event_ok, kernel_reads; repeat (apply Forall_cons; split); try exact I; try (by apply Forall_nil).
  all: apply Nat.leb_le; by vm_compute.
Qed.

Lemma ws_tells_messages_witness :
  match ws_session sample_ws_session with
  | Ok s => ∃ c, wv_conns s !! 7 = Some c ∧ wc_log c = ws_events (wc_received c) ∧ length (wc_log c) = 2%nat ∧
              wc_queued c = wc_sent c ++ drop 3 (EncodeWsFrame kText (lit "trade") true None)
  | Err _ => False
  end.
Proof.
  destruct (ws_tells_messages sample_ws_session sample_ws_session_ok) as (s & Hrun & _ & _ & Hs).
  assert (ws_probe 7 (ws_session sample_ws_session) =
    Some ([(false, lit "type=submit&id=1")], 2%nat, drop 3 (EncodeWsFrame kText (lit "trade") true None), true, false, false)) as He
    by (vm_compute; reflexivity).
  rewrite Hrun in He |- *. unfold ws_probe in He. destruct (wv_conns s !! 7) as [c|] eqn:Hc; [|done].
  injection He as _ Hlen Hout _ Hcl Hcd. exists c.
  destruct (Hs 7 c Hc) as ((told & Hl & _ & _ & Ht) & Hq & _). rewrite Hcd, app_nil_r in Hl.
  specialize (Ht Hcd Hcl). rewrite Hout in Hq. split_and!; [done|by rewrite Hl|by rewrite Hl, Ht|exact Hq].
Defined.

(** ** Messages at the end of a connection *)

Definition opened_7 : list ws_event :=
  [WsAccepts 7 false true; WsReady 7 kReadable [RData ws_open_request] [[WCount 1000]] []].

(** A message read in the same call as the end of the stream is lost. *)
Lemma message_before_eof_lost :
  ws_probe 7 (ws_session (opened_7 ++
    [WsReady 7 kReadable [RData (client_frame kText true "type=cancel"); RData []] [] []])) =
  Some ([], 2%nat, [], false, false, true).
Proof. vm_compute. reflexivity. Qed.

(** While the answer to a Close frame waits to be written, messages that follow
    the Close frame are still told. *)
Lemma message_after_close_told :
  ws_probe 7 (ws_session (opened_7 ++
    [WsReady 7 kReadable [RData (client_frame kClose true "")] [[WAgain]] [];
     WsReady 7 kReadable [RData (client_frame kText true "type=submit")] [[WAgain]] []])) =
  Some ([(false, lit "type=submit")], 2%nat, EncodeWsFrame kClose [] true None, true, true, false).
Proof. vm_compute. reflexivity. Qed.
