(* ===== verification/TokenCache.v ===== *)
(** * The token cache ([auth/token_cache.cc])

    A bounded cache of credentials in a doubly linked list: entries are admitted
    and evicted at the cold end (tail) and move one place towards the hot end
    when they are used.  A node's address is modelled by its key (the index owns
    one node per key); following a pointer to a node that is gone is the fault
    [OutOfRange], and the theorems show that it does not happen.  The clock's
    readings are arguments: an insertion reads it twice ([now], [later]). *)

From S2P Require Import Prelude.

Record Node := mkNode {
  n_value : string;
  n_expiry : Z;
  n_prev : option string;
  n_next : option string;
}.

Record TokenCache := mkCache {
  tc_index : gmap string Node;
  tc_head : option string;
  tc_tail : option string;
  tc_bytes : Z;
}.

Definition new_cache : TokenCache := mkCache ∅ None None 0.

Definition EntryBytes (key value : string) : Z := Z.of_nat (String.length key) + Z.of_nat (String.length value).

Definition set_prev (p : option string) (n : Node) : Node := mkNode (n_value n) (n_expiry n) p (n_next n).
Definition set_next (q : option string) (n : Node) : Node := mkNode (n_value n) (n_expiry n) (n_prev n) q.

(** [*k = f( *k )]: an assignment through a pointer. *)
Definition update_node (k : string) (f : Node → Node) (c : TokenCache) : res TokenCache :=
  n ← at_or_throw (tc_index c !! k);
  Ok (mkCache (<[k := f n]> (tc_index c)) (tc_head c) (tc_tail c) (tc_bytes c)).
Definition set_head (h : option string) (c : TokenCache) : TokenCache :=
  mkCache (tc_index c) h (tc_tail c) (tc_bytes c).
Definition set_tail (t : option string) (c : TokenCache) : TokenCache :=
  mkCache (tc_index c) (tc_head c) t (tc_bytes c).

Definition unlink (k : string) (c : TokenCache) : res TokenCache :=
  n ← at_or_throw (tc_index c !! k);
  c ← match n_prev n with
      | Some p => update_node p (set_next (n_next n)) c
      | None => Ok (set_head (n_next n) c)
      end;
  c ← match n_next n with
      | Some q => update_node q (set_prev (n_prev n)) c
      | None => Ok (set_tail (n_prev n) c)
      end;
  update_node k (λ n, set_next None (set_prev None n)) c.

Definition push_tail (k : string) (c : TokenCache) : res TokenCache :=
  c ← update_node k (λ n, set_next None (set_prev (tc_tail c) n)) c;
  c ← match tc_tail c with
      | Some t => update_node t (set_next (Some k)) c
      | None => Ok (set_head (Some k) c)
      end;
  Ok (set_tail (Some k) c).

Definition erase (k : string) (c : TokenCache) : res TokenCache :=
  n ← at_or_throw (tc_index c !! k);
  let c := mkCache (tc_index c) (tc_head c) (tc_tail c) (tc_bytes c - EntryBytes k (n_value n)) in
  c ← unlink k c;
  Ok (mkCache (delete k (tc_index c)) (tc_head c) (tc_tail c) (tc_bytes c)).

(** Swap the node of [key] with its predecessor [p]. *)
Definition promote_node (key p : string) (c : TokenCache) : res TokenCache :=
  c ← unlink key c;
  pn ← at_or_throw (tc_index c !! p);
  c ← update_node key (λ n, set_prev (n_prev pn) (set_next (Some p) n)) c;
  c ← match n_prev pn with
      | Some pp => update_node pp (set_next (Some key)) c
      | None => Ok (set_head (Some key) c)
      end;
  update_node p (set_prev (Some key)) c.

Section Cache.
Context (capacity_ max_bytes_ max_purge_ : Z).

Fixpoint purge_loop (fuel : nat) (now purged : Z) (c : TokenCache) : res TokenCache :=
  match fuel with
  | O => Err OutOfFuel
  | S fuel =>
      match tc_tail c with
      | None => Ok c
      | Some t =>
          n ← at_or_throw (tc_index c !! t);
          if negb (n_expiry n <=? now) then Ok c
          else
            c ← erase t c;
            if negb (max_purge_ =? 0) && (max_purge_ <=? purged + 1) then Ok c
            else purge_loop fuel now (if max_purge_ =? 0 then purged else purged + 1) c
      end
  end.

Definition purge_expired_tail (now : Z) (c : TokenCache) : res TokenCache :=
  purge_loop (S (size (tc_index c))) now 0 c.

(** Eviction from the tail while the condition on the cache holds. *)
Fixpoint evict_while (fuel : nat) (over : TokenCache → bool) (c : TokenCache) : res TokenCache :=
  match fuel with
  | O => Err OutOfFuel
  | S fuel =>
      match tc_tail c with
      | Some t => if over c then c ← erase t c; evict_while fuel over c else Ok c
      | None => Ok c
      end
  end.

Definition insert_token (now later : Z) (key value : string) (expiry_ns : Z) (c : TokenCache) : res TokenCache :=
  if (capacity_ =? 0) || (expiry_ns <=? now) then Ok c
  else
    c ← purge_expired_tail later c;
    let need := EntryBytes key value in
    if negb (max_bytes_ =? 0) && (max_bytes_ <? need) then
      match tc_index c !! key with Some _ => erase key c | None => Ok c end
    else
      c ← match tc_index c !! key with Some _ => erase key c | None => Ok c end;
      c ← evict_while (S (size (tc_index c))) (λ c, capacity_ <=? Z.of_nat (size (tc_index c))) c;
      c ← evict_while (S (size (tc_index c)))
            (λ c, negb (max_bytes_ =? 0) && (max_bytes_ <? tc_bytes c + need)) c;
      push_tail key (mkCache (<[key := mkNode value expiry_ns None None]> (tc_index c))
                       (tc_head c) (tc_tail c) (tc_bytes c + need)).

Definition lookup_token (now : Z) (key : string) (c : TokenCache) : res (option string * TokenCache) :=
  match tc_index c !! key with
  | None => Ok (None, c)
  | Some n =>
      if n_expiry n <=? now then c ← erase key c; Ok (None, c)
      else
        c ← match n_prev n with
            | None => Ok c
            | Some p => promote_node key p c
            end;
        Ok (Some (n_value n), c)
  end.

Definition cache_size (c : TokenCache) : nat := size (tc_index c).

(** ** Specification: a list of entries, hot end first *)
Record CacheEntry := mkEntry { x_key : string; x_value : string; x_expiry : Z }.

Definition entry_bytes (x : CacheEntry) : Z := EntryBytes (x_key x) (x_value x).
Definition total_bytes (l : list CacheEntry) : Z := zsum entry_bytes l.
Definition remove_key (k : string) (l : list CacheEntry) : list CacheEntry := filter (λ x, x_key x ≠ k) l.

(** Drop entries off the cold end, given in reverse, while [p] holds of what is
    left. *)
Fixpoint drop_cold (p : list CacheEntry → bool) (r : list CacheEntry) : list CacheEntry :=
  match r with [] => [] | x :: r' => if p r then drop_cold p r' else r end.

(** At most [n] expired entries off the cold end ([0]: no limit). *)
Fixpoint purge_cold (now purged : Z) (r : list CacheEntry) : list CacheEntry :=
  match r with
  | [] => []
  | x :: r' =>
      if negb (x_expiry x <=? now) then r
      else if negb (max_purge_ =? 0) && (max_purge_ <=? purged + 1) then r'
      else purge_cold now (if max_purge_ =? 0 then purged else purged + 1) r'
  end.

Definition spec_insert (now later : Z) (key value : string) (expiry_ns : Z) (l : list CacheEntry) : list CacheEntry :=
  if (capacity_ =? 0) || (expiry_ns <=? now) then l
  else
    let l := reverse (purge_cold later 0 (reverse l)) in
    let need := EntryBytes key value in
    let l := remove_key key l in
    if negb (max_bytes_ =? 0) && (max_bytes_ <? need) then l
    else
      let r := drop_cold (λ r, capacity_ <=? Z.of_nat (length r)) (reverse l) in
      let r := drop_cold (λ r, negb (max_bytes_ =? 0) && (max_bytes_ <? total_bytes r + need)) r in
      reverse r ++ [mkEntry key value expiry_ns].

(** Move the entry of [key] one place towards the hot end. *)
Fixpoint promote (key : string) (l : list CacheEntry) : list CacheEntry :=
  match l with
  | x :: ((y :: l') as t) => if decide (x_key y = key) then y :: x :: l' else x :: promote key t
  | _ => l
  end.

Definition spec_lookup (now : Z) (key : string) (l : list CacheEntry) : option string * list CacheEntry :=
  match list_find (λ x, x_key x = key) l with
  | None => (None, l)
  | Some (_, x) =>
      if x_expiry x <=? now then (None, remove_key key l) else (Some (x_value x), promote key l)
  end.
End Cache.

(** ** The list in the links *)
Definition hd_key (l : list CacheEntry) (d : option string) : option string :=
  match l with [] => d | x :: _ => Some (x_key x) end.
Fixpoint last_key (l : list CacheEntry) (d : option string) : option string :=
  match l with [] => d | x :: l => last_key l (Some (x_key x)) end.

(** The nodes of [l], linked in order, between [prev] and [next]. *)
Fixpoint seg (idx : gmap string Node) (prev : option string) (l : list CacheEntry) (next : option string) : Prop :=
  match l with
  | [] => True
  | x :: l' =>
      idx !! x_key x = Some (mkNode (x_value x) (x_expiry x) prev (hd_key l' next)) ∧
      seg idx (Some (x_key x)) l' next
  end.

Definition keys (l : list CacheEntry) : list string := x_key <$> l.

Lemma hd_key_app l1 l2 d : hd_key (l1 ++ l2) d = hd_key l1 (hd_key l2 d).
Proof. by destruct l1. Qed.
Lemma last_key_app l1 l2 d : last_key (l1 ++ l2) d = last_key l2 (last_key l1 d).
Proof. revert d. induction l1 as [|x l1 IH]; intros d; [done|]. simpl. apply IH. Qed.

Lemma seg_app idx l1 l2 : ∀ prev next,
  seg idx prev (l1 ++ l2) next ↔ seg idx prev l1 (hd_key l2 next) ∧ seg idx (last_key l1 prev) l2 next.
Proof.
  induction l1 as [|x l1 IH]; intros prev next; simpl; [naive_solver|].
  rewrite IH, hd_key_app. naive_solver.
Qed.

Lemma seg_agree idx idx' l : ∀ prev next,
  (∀ k, k ∈ keys l → idx' !! k = idx !! k) → seg idx prev l next → seg idx' prev l next.
Proof.
  induction l as [|x l IH]; intros prev next Hk; [done|]. simpl. intros [Hx Hl]. split.
  - rewrite Hk; [done|]. unfold keys. set_solver.
  - apply IH; [|done]. intros k Hin. apply Hk. unfold keys in *. set_solver.
Qed.

(** Outside the keys of [l], with the same nodes allocated. *)
Definition untouched (l : list CacheEntry) (c c' : TokenCache) : Prop :=
  tc_bytes c' = tc_bytes c ∧ dom (tc_index c') = dom (tc_index c) ∧
  ∀ k, k ∉ keys l → tc_index c' !! k = tc_index c !! k.

Lemma update_node_ok k n f c :
  tc_index c !! k = Some n →
  update_node k f c = Ok (mkCache (<[k := f n]> (tc_index c)) (tc_head c) (tc_tail c) (tc_bytes c)) ∧
  dom (<[k := f n]> (tc_index c)) = dom (tc_index c).
Proof.
  intros Hk. unfold update_node. rewrite Hk. split; [done|]. apply dom_insert_lookup_L. by eexists.
Qed.

(** The link out of the last node of [l], or the head when [l] is empty. *)
Lemma relink_next c l nx0 nx :
  NoDup (keys l) → seg (tc_index c) None l nx0 → tc_head c = hd_key l nx0 →
  ∃ c', match last_key l None with
        | Some p => update_node p (set_next nx) c
        | None => Ok (set_head nx c)
        end = Ok c' ∧
    seg (tc_index c') None l nx ∧ tc_head c' = hd_key l nx ∧ tc_tail c' = tc_tail c ∧ untouched l c c'.
Proof.
  intros Hnd Hs Hh. destruct l as [|x l _] using rev_ind; [by eexists|].
  rewrite last_key_app. cbn [last_key]. apply seg_app in Hs as [Hl [Hx _]]. simpl in Hl, Hx.
  unfold keys in Hnd. rewrite fmap_app in Hnd. apply NoDup_app in Hnd as (_ & Hni & _).
  destruct (update_node_ok _ _ (set_next nx) c Hx) as [-> Hd]. eexists. split; [done|]. split_and!.
  - apply seg_app. simpl. rewrite lookup_insert_eq. split; [|done]. eapply seg_agree; [|exact Hl].
    intros k Hk. rewrite lookup_insert_ne; [done|]. intros <-. apply (Hni _ Hk). simpl. set_solver.
  - simpl. rewrite Hh. by destruct l.
  - done.
  - split_and!; [done|done|]. intros k Hk. simpl. apply lookup_insert_ne. intros <-. apply Hk.
    unfold keys. set_solver.
Qed.

(** The link into the first node of [l], or the tail when [l] is empty. *)
Lemma relink_prev c l pv0 pv :
  NoDup (keys l) → seg (tc_index c) pv0 l None → tc_tail c = last_key l pv0 →
  ∃ c', match hd_key l None with
        | Some q => update_node q (set_prev pv) c
        | None => Ok (set_tail pv c)
        end = Ok c' ∧
    seg (tc_index c') pv l None ∧ tc_tail c' = last_key l pv ∧ tc_head c' = tc_head c ∧ untouched l c c'.
Proof.
  intros Hnd Hs Ht. destruct l as [|x l]; [by eexists|]. simpl in Hs. destruct Hs as [Hx Hl].
  destruct (update_node_ok _ _ (set_prev pv) c Hx) as [Hu Hd]. cbn [hd_key]. rewrite Hu.
  eexists. split; [done|]. unfold keys in Hnd. rewrite fmap_cons in Hnd. apply NoDup_cons in Hnd as [Hni _]. split_and!.
  - simpl. rewrite lookup_insert_eq. split; [done|]. eapply seg_agree; [|exact Hl].
    intros k Hk. rewrite lookup_insert_ne; [done|]. intros <-. done.
  - done.
  - done.
  - split_and!; [done|done|]. intros k Hk. simpl. apply lookup_insert_ne. intros <-. apply Hk.
    unfold keys. set_solver.
Qed.

(** [c] links exactly the list [l]; and it accounts for its bytes. *)
Record linked (c : TokenCache) (l : list CacheEntry) : Prop := {
  st_seg : seg (tc_index c) None l None;
  st_keys : NoDup (keys l);
  st_head : tc_head c = hd_key l None;
  st_tail : tc_tail c = last_key l None;
  st_dom : dom (tc_index c) = list_to_set (keys l);
}.
Definition stores (c : TokenCache) (l : list CacheEntry) : Prop := linked c l ∧ tc_bytes c = total_bytes l.

(** [c] links the list [l1 ++ l2]; the node of [x] is allocated but linked nowhere. *)
Lemma unlink_ok c l1 x l2 :
  linked c (l1 ++ x :: l2) →
  ∃ c', unlink (x_key x) c = Ok c' ∧ seg (tc_index c') None (l1 ++ l2) None ∧
    tc_head c' = hd_key (l1 ++ l2) None ∧ tc_tail c' = last_key (l1 ++ l2) None ∧
    tc_bytes c' = tc_bytes c ∧ dom (tc_index c') = dom (tc_index c) ∧
    tc_index c' !! x_key x = Some (mkNode (x_value x) (x_expiry x) None None).
Proof.
  intros [Hs Hnd Hh Ht Hd]. apply seg_app in Hs as [H1 [Hx H2]]. simpl in H1, Hx.
  rewrite hd_key_app in Hh. rewrite last_key_app in Ht. simpl in Hh, Ht.
  unfold keys in Hnd. rewrite fmap_app, fmap_cons in Hnd. apply NoDup_app in Hnd as (Hn1 & Hdis & Hn2).
  apply NoDup_cons in Hn2 as [Hx2 Hn2]. assert (x_key x ∉ keys l1) as Hx1 by (intros ?; by eapply Hdis; [done|left]).
  assert (∀ k, k ∈ keys l2 → k ∉ keys l1) as Hd12 by (intros k Hk Hk1; by eapply Hdis; [exact Hk1|right]).
  unfold unlink. rewrite Hx. cbn [mbind res_bind at_or_throw n_prev n_next].
  destruct (relink_next c l1 (Some (x_key x)) (hd_key l2 None) Hn1 H1 Hh)
    as (c1 & -> & S1 & Hh1 & Ht1 & Hb1 & Hd1 & Hu1). cbn [mbind res_bind].
  destruct (relink_prev c1 l2 (Some (x_key x)) (last_key l1 None) Hn2) as (c2 & -> & S2 & Ht2 & Hh2 & Hb2 & Hd2 & Hu2).
  { eapply seg_agree; [|exact H2]. intros k Hk. by apply Hu1, Hd12. }
  { by rewrite Ht1. }
  cbn [mbind res_bind].
  assert (tc_index c2 !! x_key x = Some (mkNode (x_value x) (x_expiry x) (last_key l1 None) (hd_key l2 None))) as Hx'.
  { rewrite Hu2 by done. by rewrite Hu1. }
  destruct (update_node_ok _ _ (λ n, set_next None (set_prev None n)) c2 Hx') as [-> Hd3].
  eexists. split; [done|]. cbn [tc_index tc_head tc_tail tc_bytes]. split_and!.
  - apply seg_app. split.
    + eapply seg_agree; [|exact S1]. intros k Hk. rewrite lookup_insert_ne by (intros <-; done).
      apply Hu2. intros Hk2. by eapply Hd12.
    + eapply seg_agree; [|exact S2]. intros k Hk. by rewrite lookup_insert_ne by (intros <-; done).
  - by rewrite Hh2, Hh1, hd_key_app.
  - by rewrite Ht2, last_key_app.
  - congruence.
  - congruence.
  - by rewrite lookup_insert_eq.
Qed.

Lemma total_bytes_app l1 l2 : total_bytes (l1 ++ l2) = total_bytes l1 + total_bytes l2.
Proof. apply zsum_app. Qed.

Lemma keys_app l1 l2 : keys (l1 ++ l2) = keys l1 ++ keys l2.
Proof. apply fmap_app. Qed.

Lemma keys_middle l1 x l2 : NoDup (keys (l1 ++ x :: l2)) → x_key x ∉ keys (l1 ++ l2) ∧ NoDup (keys (l1 ++ l2)).
Proof.
  rewrite !keys_app. change (keys (x :: l2)) with (x_key x :: keys l2). rewrite <-Permutation_middle.
  by intros [? ?]%NoDup_cons.
Qed.

Lemma linked_lookup c l1 x l2 :
  linked c (l1 ++ x :: l2) →
  tc_index c !! x_key x = Some (mkNode (x_value x) (x_expiry x) (last_key l1 None) (hd_key l2 None)).
Proof. intros [Hs _ _ _ _]. by apply seg_app in Hs as [_ [Hx _]]. Qed.

Lemma erase_ok c l1 x l2 :
  stores c (l1 ++ x :: l2) → ∃ c', erase (x_key x) c = Ok c' ∧ stores c' (l1 ++ l2).
Proof.
  intros [Hl Hb]. pose proof Hl as [Hs Hnd Hh Ht Hd]. unfold erase. rewrite (linked_lookup _ _ _ _ Hl).
  cbn [mbind res_bind at_or_throw n_value].
  set (c0 := mkCache _ _ _ _). assert (linked c0 (l1 ++ x :: l2)) as Hl0 by (by split).
  destruct (unlink_ok c0 l1 x l2 Hl0) as (c1 & -> & S1 & Hh1 & Ht1 & Hb1 & Hd1 & Hx1). cbn [mbind res_bind].
  destruct (keys_middle _ _ _ Hnd) as [Hni Hnd']. eexists. split; [done|]. split.
  - split; cbn [tc_index tc_head tc_tail]; try done.
    + eapply seg_agree; [|exact S1]. intros k Hk. rewrite lookup_delete_ne; [done|]. by intros <-.
    + rewrite dom_delete_L, Hd1. change (dom (tc_index c0)) with (dom (tc_index c)). rewrite Hd.
      rewrite !keys_app in *. change (keys (x :: l2)) with (x_key x :: keys l2) in *.
      apply set_eq. intros k. rewrite elem_of_difference, !elem_of_list_to_set, elem_of_singleton, !elem_of_app, elem_of_cons.
      rewrite elem_of_app in Hni. naive_solver.
  - cbn [tc_bytes]. rewrite Hb1. cbn [tc_bytes c0]. rewrite Hb, !total_bytes_app. unfold total_bytes at 2. cbn [zsum].
    unfold total_bytes, entry_bytes. lia.
Qed.

Lemma stores_size c l : stores c l → size (tc_index c) = length l.
Proof.
  intros [[_ Hnd _ _ Hd] _]. rewrite <-size_dom, Hd, size_list_to_set by done. unfold keys. by rewrite length_fmap.
Qed.

(** The cold end, reading the list from there. *)
Lemma stores_cold c r :
  stores c (reverse r) →
  match r with
  | [] => tc_tail c = None
  | x :: r' => tc_tail c = Some (x_key x) ∧
      (∃ pv, tc_index c !! x_key x = Some (mkNode (x_value x) (x_expiry x) pv None)) ∧
      ∃ c', erase (x_key x) c = Ok c' ∧ stores c' (reverse r')
  end.
Proof.
  destruct r as [|x r]; intros Hs; [by destruct Hs as [[_ _ _ Ht _] _]|].
  rewrite reverse_cons in Hs. pose proof Hs as [Hl _]. split_and!.
  - rewrite (st_tail _ _ Hl), last_key_app. done.
  - eexists. apply (linked_lookup _ _ _ _ Hl).
  - destruct (erase_ok c (reverse r) x [] Hs) as (c' & ? & ?). exists c'. by rewrite app_nil_r in *.
Qed.

Lemma purge_loop_ok mp now r : ∀ fuel purged c,
  stores c (reverse r) → (length r < fuel)%nat →
  ∃ c', purge_loop mp fuel now purged c = Ok c' ∧ stores c' (reverse (purge_cold mp now purged r)).
Proof.
  induction r as [|x r IH]; intros fuel purged c Hs Hf; (destruct fuel as [|fuel]; [simpl in Hf; lia|]);
    pose proof (stores_cold _ _ Hs) as Hc; cbn [purge_loop purge_cold].
  { rewrite Hc. by exists c. }
  destruct Hc as (-> & (pv & ->) & c1 & He & Hs1). cbn [mbind res_bind at_or_throw n_expiry].
  destruct (negb (x_expiry x <=? now)); [by exists c|]. rewrite He. cbn [mbind res_bind].
  destruct (negb (mp =? 0) && (mp <=? purged + 1)); [by exists c1|]. apply IH; [done|simpl in Hf; lia].
Qed.

Lemma evict_while_ok over p r : ∀ fuel c,
  (∀ c r, stores c (reverse r) → over c = p r) →
  stores c (reverse r) → (length r < fuel)%nat →
  ∃ c', evict_while fuel over c = Ok c' ∧ stores c' (reverse (drop_cold p r)).
Proof.
  induction r as [|x r IH]; intros fuel c Hop Hs Hf; (destruct fuel as [|fuel]; [simpl in Hf; lia|]);
    pose proof (stores_cold _ _ Hs) as Hc; cbn [evict_while drop_cold].
  { rewrite Hc. by exists c. }
  destruct Hc as (-> & _ & c1 & He & Hs1). rewrite (Hop _ _ Hs). destruct (p (x :: r)); [|by exists c].
  rewrite He. cbn [mbind res_bind]. apply IH; [done|done|simpl in Hf; lia].
Qed.

(** ** Removing, admitting, promoting *)
Lemma remove_key_id k l : k ∉ keys l → remove_key k l = l.
Proof.
  unfold keys, remove_key. induction l as [|x l IH]; intros Hk; [done|]. rewrite fmap_cons in Hk.
  rewrite filter_cons_True by set_solver. rewrite IH by set_solver. done.
Qed.

Lemma keys_elem k l : k ∈ keys l → ∃ l1 x l2, l = l1 ++ x :: l2 ∧ x_key x = k.
Proof.
  intros Hk. apply list_elem_of_fmap in Hk as (x & -> & Hx). apply list_elem_of_split in Hx as (l1 & l2 & ->).
  by exists l1, x, l2.
Qed.

Lemma remove_key_middle l1 x l2 : NoDup (keys (l1 ++ x :: l2)) → remove_key (x_key x) (l1 ++ x :: l2) = l1 ++ l2.
Proof.
  intros Hnd. destruct (keys_middle _ _ _ Hnd) as [Hni _]. rewrite keys_app in Hni. unfold remove_key.
  rewrite filter_app, filter_cons_False by (simpl; intros H; by apply H).
  fold (remove_key (x_key x) l1) (remove_key (x_key x) l2). rewrite !remove_key_id by set_solver. done.
Qed.

Lemma stores_absent c l k : stores c l → k ∉ keys l → tc_index c !! k = None.
Proof.
  intros [[_ _ _ _ Hd] _] Hk. apply not_elem_of_dom. rewrite Hd. by rewrite elem_of_list_to_set.
Qed.

Lemma erase_key_ok c l k :
  stores c l →
  ∃ c', match tc_index c !! k with Some _ => erase k c | None => Ok c end = Ok c' ∧ stores c' (remove_key k l).
Proof.
  intros Hs. destruct (decide (k ∈ keys l)) as [Hk|Hk].
  - destruct (keys_elem _ _ Hk) as (l1 & x & l2 & -> & <-). pose proof Hs as [Hl _].
    rewrite (linked_lookup _ _ _ _ Hl), remove_key_middle by apply (st_keys _ _ Hl). by apply erase_ok.
  - rewrite (stores_absent _ _ _ Hs Hk), remove_key_id by done. by exists c.
Qed.

Lemma push_tail_ok c l k v e :
  stores c l → k ∉ keys l →
  ∃ c', push_tail k (mkCache (<[k := mkNode v e None None]> (tc_index c)) (tc_head c) (tc_tail c)
                       (tc_bytes c + EntryBytes k v)) = Ok c' ∧ stores c' (l ++ [mkEntry k v e]).
Proof.
  intros [[Hs Hnd Hh Ht Hd] Hb] Hk. unfold push_tail.
  set (c0 := mkCache _ _ _ _).
  assert (tc_index c0 !! k = Some (mkNode v e None None)) as Hk0 by apply lookup_insert_eq.
  destruct (update_node_ok _ _ (λ n, set_next None (set_prev (tc_tail c0) n)) c0 Hk0) as [-> Hd0].
  cbn [mbind res_bind]. set (c1 := mkCache _ (tc_head c0) _ _).
  assert (∀ j, j ∈ keys l → tc_index c1 !! j = tc_index c !! j) as Hag.
  { intros j Hj. assert (j ≠ k) by (by intros ->). cbn [c1 tc_index]. rewrite lookup_insert_ne by done.
    cbn [c0 tc_index]. by rewrite lookup_insert_ne. }
  change (tc_tail c1) with (tc_tail c). rewrite Ht.
  destruct (relink_next c1 l None (Some k) Hnd) as (c2 & -> & S2 & Hh2 & Ht2 & Hb2 & Hd2 & Hu2).
  { by eapply seg_agree. }
  { done. }
  cbn [mbind res_bind]. eexists. split; [done|].
  assert (tc_index c2 !! k = Some (mkNode v e (last_key l None) None)) as Hk2.
  { rewrite Hu2 by done. cbn [c1 tc_index]. rewrite lookup_insert_eq. cbn [c0 tc_tail]. by rewrite Ht. }
  split; [split|]; cbn [set_tail tc_index tc_head tc_tail tc_bytes].
  - apply seg_app. done.
  - rewrite keys_app. apply NoDup_app. split_and!; [done| |apply NoDup_singleton].
    intros j Hj Hj'. apply list_elem_of_singleton in Hj'. by subst.
  - by rewrite Hh2, hd_key_app.
  - by rewrite last_key_app.
  - rewrite Hd2. cbn [c1 tc_index]. rewrite Hd0. cbn [c0 tc_index]. rewrite dom_insert_L, Hd, keys_app, list_to_set_app_L. simpl. set_solver.
  - rewrite Hb2. cbn [c1 tc_bytes c0]. rewrite Hb, total_bytes_app. unfold total_bytes, entry_bytes. simpl. lia.
Qed.

Lemma promote_cons key x y l :
  promote key (x :: y :: l) = if decide (x_key y = key) then y :: x :: l else x :: promote key (y :: l).
Proof. done. Qed.

Lemma promote_first x l : x_key x ∉ keys l → promote (x_key x) (x :: l) = x :: l.
Proof.
  assert (∀ l y, x_key x ∉ keys l → promote (x_key x) (y :: l) = y :: l) as Hgo; [|apply Hgo].
  clear l. induction l as [|z l IH]; intros y Hk; [done|]. rewrite promote_cons. unfold keys in Hk. rewrite fmap_cons in Hk.
  rewrite decide_False by set_solver. by rewrite IH by set_solver.
Qed.

Lemma promote_middle l1 p x l2 :
  NoDup (keys (l1 ++ p :: x :: l2)) → promote (x_key x) (l1 ++ p :: x :: l2) = l1 ++ x :: p :: l2.
Proof.
  induction l1 as [|y l1 IH]; intros Hnd; [cbn [app]; by rewrite promote_cons, decide_True|].
  change (keys ((y :: l1) ++ p :: x :: l2)) with (x_key y :: keys (l1 ++ p :: x :: l2)) in Hnd.
  apply NoDup_cons in Hnd as [_ Hnd]. specialize (IH Hnd).
  destruct (l1 ++ p :: x :: l2) as [|z t] eqn:E; [by destruct l1|].
  change ((y :: l1) ++ p :: x :: l2) with (y :: (l1 ++ p :: x :: l2)). rewrite E, promote_cons.
  rewrite decide_False; [by rewrite IH|]. intros Hz. destruct l1 as [|w l1]; simplify_eq/=.
  - apply NoDup_cons in Hnd as [Hnd _]. apply Hnd. rewrite Hz. left.
  - apply NoDup_cons in Hnd as [Hnd _]. apply Hnd. rewrite Hz. unfold keys.
    apply list_elem_of_fmap. exists x. set_solver.
Qed.

Lemma promote_node_ok c l1 p x l2 :
  linked c (l1 ++ p :: x :: l2) →
  ∃ c', promote_node (x_key x) (x_key p) c = Ok c' ∧ linked c' (l1 ++ x :: p :: l2) ∧ tc_bytes c' = tc_bytes c.
Proof.
  intros Hl. pose proof (st_keys _ _ Hl) as Hnd. pose proof (st_dom _ _ Hl) as Hd.
  assert (NoDup (keys (l1 ++ x :: p :: l2))) as Hnd'.
  { rewrite keys_app in *. change (keys (x :: p :: l2)) with (x_key x :: x_key p :: keys l2).
    change (keys (p :: x :: l2)) with (x_key p :: x_key x :: keys l2) in Hnd. by rewrite (Permutation_swap (x_key p)). }
  pose proof (keys_middle _ _ _ Hnd') as [Hxn Hndp]. rewrite keys_app in Hxn, Hndp.
  apply NoDup_app in Hndp as (Hn1 & Hdis & Hn2).
  change (l1 ++ p :: x :: l2) with (l1 ++ [p] ++ x :: l2) in Hl. rewrite app_assoc in Hl.
  destruct (unlink_ok _ _ _ _ Hl) as (c1 & Hun & S1 & Hh1 & Ht1 & Hb1 & Hd1 & Hx1). unfold promote_node. rewrite Hun.
  rewrite <-app_assoc in S1, Hh1, Ht1. cbn [app] in S1, Hh1, Ht1. apply seg_app in S1 as [S1 S2].
  pose proof S2 as [Hp1 _]. cbn [mbind res_bind]. rewrite Hp1. cbn [mbind res_bind at_or_throw n_prev].
  destruct (update_node_ok _ _ (λ n, set_prev (last_key l1 None) (set_next (Some (x_key p)) n)) c1 Hx1) as [-> Hd2].
  cbn [mbind res_bind]. set (c2 := mkCache _ _ _ _).
  assert (∀ k, k ∈ keys l1 ++ keys (p :: l2) → tc_index c2 !! k = tc_index c1 !! k) as Hag.
  { intros k Hk. cbn [c2 tc_index]. apply lookup_insert_ne. by intros <-. }
  destruct (relink_next c2 l1 (Some (x_key p)) (Some (x_key x)) Hn1) as (c3 & -> & S3 & Hh3 & Ht3 & Hb3 & Hd3 & Hu3).
  { eapply seg_agree; [|exact S1]. intros k Hk. apply Hag. set_solver. }
  { cbn [c2 tc_head]. by rewrite Hh1, hd_key_app. }
  cbn [mbind res_bind].
  destruct (relink_prev c3 (p :: l2) (last_key l1 None) (Some (x_key x)) Hn2) as (c4 & Hup & S4 & Ht4 & Hh4 & Hb4 & Hd4 & Hu4).
  { eapply seg_agree; [|exact S2]. intros k Hk. rewrite Hu3 by (intros Hk1; by eapply Hdis). apply Hag. set_solver. }
  { rewrite Ht3. cbn [c2 tc_tail]. by rewrite Ht1, last_key_app. }
  cbn [hd_key] in Hup. rewrite Hup. exists c4. split; [done|]. split; [|rewrite Hb4, Hb3; exact Hb1]. split; [|done|..].
  - apply seg_app. split; [|split; [|exact S4]].
    + eapply seg_agree; [|exact S3]. intros k Hk. apply Hu4. intros Hk'. by eapply Hdis.
    + rewrite Hu4, Hu3 by set_solver. cbn [c2 tc_index]. by rewrite lookup_insert_eq.
  - by rewrite Hh4, Hh3, hd_key_app.
  - by rewrite Ht4, last_key_app.
  - rewrite Hd4, Hd3. cbn [c2 tc_index]. rewrite Hd2, Hd1, Hd, !keys_app, !list_to_set_app_L. simpl. set_solver.
Qed.

Lemma lookup_token_ok c l now k :
  stores c l →
  ∃ c', lookup_token now k c = Ok ((spec_lookup now k l).1, c') ∧ stores c' (spec_lookup now k l).2.
Proof.
  intros Hs. unfold lookup_token, spec_lookup. pose proof Hs as [Hl Hb]. destruct (decide (k ∈ keys l)) as [Hk|Hk].
  2: { rewrite (stores_absent _ _ _ Hs Hk).
       destruct (list_find (λ x, x_key x = k) l) as [[i x]|] eqn:E; [|by exists c].
       apply list_find_Some in E as (Hi & <- & _). exfalso. apply Hk. apply list_elem_of_fmap. exists x.
       split; [done|]. by eapply list_elem_of_lookup_2. }
  destruct (keys_elem _ _ Hk) as (l1 & x & l2 & -> & <-). rewrite (linked_lookup _ _ _ _ Hl).
  assert (list_find (λ y, x_key y = x_key x) (l1 ++ x :: l2) = Some (length l1, x)) as ->.
  { apply list_find_Some. rewrite list_lookup_middle by done. split_and!; [done|done|].
    intros j y Hj Hlt Heq. rewrite lookup_app_l in Hj by done. destruct (keys_middle _ _ _ (st_keys _ _ Hl)) as [Hni _].
    apply Hni. rewrite keys_app, <-Heq. apply elem_of_app. left. apply list_elem_of_fmap. exists y. split; [done|].
    by eapply list_elem_of_lookup_2. }
  cbn [n_expiry n_prev n_value]. destruct (x_expiry x <=? now).
  { destruct (erase_ok _ _ _ _ Hs) as (c' & -> & Hs'). exists c'. cbn [mbind res_bind fst snd].
    by rewrite remove_key_middle by apply (st_keys _ _ Hl). }
  destruct l1 as [|p l1 _] using rev_ind.
  { exists c. cbn [last_key mbind res_bind fst snd app]. rewrite promote_first; [done|].
    pose proof (st_keys _ _ Hl) as Hnd. by apply NoDup_cons in Hnd as [? _]. }
  assert ((l1 ++ [p]) ++ x :: l2 = l1 ++ p :: x :: l2) as Heq by (by rewrite <-app_assoc). rewrite Heq in *.
  rewrite last_key_app. cbn [last_key]. destruct (promote_node_ok c l1 p x l2 Hl) as (c' & -> & Hl' & Hb').
  exists c'. cbn [mbind res_bind fst snd]. rewrite promote_middle by apply (st_keys _ _ Hl). split; [done|]. split; [done|].
  rewrite Hb', Hb, !total_bytes_app. unfold total_bytes. simpl. lia.
Qed.

Lemma insert_token_ok cap mb mp c l now later k v e :
  stores c l →
  ∃ c', insert_token cap mb mp now later k v e c = Ok c' ∧ stores c' (spec_insert cap mb mp now later k v e l).
Proof.
  intros Hs. unfold insert_token, spec_insert. destruct ((cap =? 0) || (e <=? now)); [by exists c|].
  unfold purge_expired_tail. rewrite <-(reverse_involutive l) in Hs.
  destruct (purge_loop_ok mp later (reverse l) (S (size (tc_index c))) 0 c Hs) as (c1 & -> & Hs1).
  { pose proof (stores_size _ _ Hs) as Hz. rewrite !length_reverse in *. lia. }
  cbn [mbind res_bind]. set (l1 := reverse (purge_cold mp later 0 (reverse l))) in *.
  destruct (erase_key_ok c1 l1 k Hs1) as (c2 & Her & Hs2). rewrite Her.
  destruct (negb (mb =? 0) && (mb <? EntryBytes k v)); [by exists c2|]. cbn [mbind res_bind].
  rewrite <-(reverse_involutive (remove_key k l1)) in Hs2.
  destruct (evict_while_ok (λ c, cap <=? Z.of_nat (size (tc_index c))) (λ r, cap <=? Z.of_nat (length r))
              (reverse (remove_key k l1)) (S (size (tc_index c2))) c2) as (c3 & -> & Hs3); [|done| |].
  { intros c' r Hr. by rewrite (stores_size _ _ Hr), length_reverse. }
  { pose proof (stores_size _ _ Hs2) as Hz. rewrite !length_reverse in *. lia. }
  cbn [mbind res_bind]. set (r3 := drop_cold _ (reverse (remove_key k l1))) in *.
  destruct (evict_while_ok (λ c, negb (mb =? 0) && (mb <? tc_bytes c + EntryBytes k v))
              (λ r, negb (mb =? 0) && (mb <? total_bytes r + EntryBytes k v)) r3 (S (size (tc_index c3))) c3)
    as (c4 & -> & Hs4); [|done| |].
  { intros c' r [_ Hr]. rewrite Hr. unfold total_bytes. by rewrite (zsum_perm _ _ _ (reverse_Permutation r)). }
  { pose proof (stores_size _ _ Hs3) as Hz. rewrite !length_reverse in *. lia. }
  cbn [mbind res_bind]. apply push_tail_ok; [done|]. intros Hin.
  assert (∀ p r, drop_cold p r ⊆ r) as Hsub.
  { clear. intros p r. induction r as [|x r IH]; [done|]. simpl. case_match; set_solver. }
  apply list_elem_of_fmap in Hin as (x & Hx & Hin). rewrite elem_of_reverse in Hin. apply Hsub, Hsub in Hin.
  rewrite elem_of_reverse in Hin. apply list_elem_of_filter in Hin as [Hne _]. done.
Qed.

(** ** Sessions *)
Inductive cache_op :=
  | OpInsert (now later : Z) (key value : string) (expiry_ns : Z)
  | OpLookup (now : Z) (key : string).

Section Sessions.
Context (capacity_ max_bytes_ max_purge_ : Z).

(** The answers given so far (none for an insertion), and the cache. *)
Definition run_cache_op (acc : list (option string) * TokenCache) (op : cache_op)
    : res (list (option string) * TokenCache) :=
  match op with
  | OpInsert now later k v e =>
      c ← insert_token capacity_ max_bytes_ max_purge_ now later k v e acc.2; Ok (acc.1 ++ [None], c)
  | OpLookup now k => '(a, c) ← lookup_token now k acc.2; Ok (acc.1 ++ [a], c)
  end.

Definition spec_cache_op (acc : list (option string) * list CacheEntry) (op : cache_op)
    : list (option string) * list CacheEntry :=
  match op with
  | OpInsert now later k v e => (acc.1 ++ [None], spec_insert capacity_ max_bytes_ max_purge_ now later k v e acc.2)
  | OpLookup now k => let '(a, l) := spec_lookup now k acc.2 in (acc.1 ++ [a], l)
  end.

Definition spec_session (ops : list cache_op) : list (option string) * list CacheEntry :=
  foldl spec_cache_op ([], []) ops.

Lemma session_refines ops : ∀ c l outs,
  stores c l →
  ∃ c', res_foldl run_cache_op (outs, c) ops = Ok ((foldl spec_cache_op (outs, l) ops).1, c') ∧
        stores c' (foldl spec_cache_op (outs, l) ops).2.
Proof.
  induction ops as [|op ops IH]; intros c l outs Hs; [by exists c|]. cbn [res_foldl foldl].
  destruct op as [now later k v e|now k]; cbn [run_cache_op spec_cache_op fst snd].
  - destruct (insert_token_ok capacity_ max_bytes_ max_purge_ c l now later k v e Hs) as (c1 & -> & Hs1).
    cbn [mbind res_bind]. by apply IH.
  - destruct (lookup_token_ok c l now k Hs) as (c1 & -> & Hs1). cbn [mbind res_bind].
    destruct (spec_lookup now k l) as [a l1]. by apply IH.
Qed.

(** *** Bounds *)
Definition within (l : list CacheEntry) : Prop :=
  Z.of_nat (length l) ≤ capacity_ ∧ (max_bytes_ ≠ 0 → total_bytes l ≤ max_bytes_).

Lemma entry_bytes_nonneg x : 0 ≤ entry_bytes x.
Proof. unfold entry_bytes, EntryBytes. lia. Qed.

Lemma sublist_within l l' : l `sublist_of` l' → within l' → within l.
Proof.
  intros Hs [H1 H2]. split; [apply sublist_length in Hs; lia|]. intros Hm. specialize (H2 Hm).
  assert (total_bytes l ≤ total_bytes l'); [|lia]. clear -Hs. induction Hs as [|x l l' Hs IH|x l l' Hs IH]; [done|..];
    unfold total_bytes in *; simpl; pose proof (entry_bytes_nonneg x); lia.
Qed.

Lemma sublist_reverse (l l' : list CacheEntry) : l `sublist_of` l' → reverse l `sublist_of` reverse l'.
Proof.
  induction 1 as [|x l l' Hs IH|x l l' Hs IH]; [done|..]; rewrite !reverse_cons.
  - by apply sublist_app.
  - by apply sublist_inserts_r.
Qed.

Lemma drop_cold_suffix p r : drop_cold p r `sublist_of` r ∧ (drop_cold p r = [] ∨ p (drop_cold p r) = false).
Proof.
  induction r as [|x r [IH1 IH2]]; [by split; [|left]|]. simpl. destruct (p (x :: r)) eqn:E.
  - split; [by apply sublist_cons|done].
  - split; [done|by right].
Qed.

Lemma purge_cold_sublist now r : ∀ purged, purge_cold max_purge_ now purged r `sublist_of` r.
Proof.
  induction r as [|x r IH]; intros purged; [done|]. simpl.
  repeat case_match; first [done|by apply sublist_cons].
Qed.

Lemma promote_perm k l : promote k l ≡ₚ l.
Proof.
  induction l as [|x l IH]; [done|]. destruct l as [|y l]; [done|]. rewrite promote_cons.
  destruct (decide (x_key y = k)); [apply Permutation_swap|by rewrite IH].
Qed.

Lemma spec_insert_elem now later k v e l x :
  x ∈ spec_insert capacity_ max_bytes_ max_purge_ now later k v e l → x ∈ l ∨ x = mkEntry k v e.
Proof.
  unfold spec_insert. case_match; [by left|].
  set (l1 := reverse (purge_cold _ _ _ _)). assert (remove_key k l1 ⊆ l) as Hsub.
  { intros y Hy. apply list_elem_of_filter in Hy as [_ Hy]. unfold l1 in Hy. rewrite elem_of_reverse in Hy.
    eapply elem_of_sublist in Hy; [|apply purge_cold_sublist]. by rewrite elem_of_reverse in Hy. }
  case_match; [intros Hx; left; by apply Hsub|]. rewrite elem_of_app, elem_of_reverse, list_elem_of_singleton.
  intros [Hx|Hx]; [|by right]. left. apply Hsub. rewrite <-elem_of_reverse.
  eapply elem_of_sublist; [|apply drop_cold_suffix]. eapply elem_of_sublist; [exact Hx|apply drop_cold_suffix].
Qed.

Lemma spec_insert_within now later k v e l :
  0 ≤ capacity_ → 0 ≤ max_bytes_ → within l → within (spec_insert capacity_ max_bytes_ max_purge_ now later k v e l).
Proof.
  intros Hc Hm Hl. unfold spec_insert. case_match eqn:E0; [done|]. apply orb_false_iff in E0 as [E0 _].
  apply Z.eqb_neq in E0. set (l1 := reverse (purge_cold _ _ _ _)).
  assert (remove_key k l1 `sublist_of` l) as Hsub.
  { etrans; [apply sublist_filter|]. unfold l1. rewrite <-(reverse_involutive l) at 2.
    apply sublist_reverse. apply purge_cold_sublist. }
  case_match eqn:E1; [by eapply sublist_within|].
  destruct (drop_cold_suffix (λ r, capacity_ <=? Z.of_nat (length r)) (reverse (remove_key k l1))) as [_ S2].
  set (r2 := drop_cold _ (reverse (remove_key k l1))) in *.
  destruct (drop_cold_suffix (λ r, negb (max_bytes_ =? 0) && (max_bytes_ <? total_bytes r + EntryBytes k v)) r2) as [S3 S4].
  set (r3 := drop_cold _ r2) in *. apply sublist_length in S3. split.
  - rewrite length_app, length_reverse. simpl. destruct S2 as [S2|S2]; [rewrite S2 in S3; simpl in S3; lia|].
    apply Z.leb_gt in S2. lia.
  - intros Hne. rewrite total_bytes_app. unfold total_bytes. rewrite (zsum_perm _ _ _ (reverse_Permutation r3)). simpl.
    fold (total_bytes r3). unfold entry_bytes. simpl. apply Z.eqb_neq in Hne. rewrite Hne in S4, E1. cbn [negb andb] in S4, E1.
    apply Z.ltb_ge in E1. destruct S4 as [S4|S4]; [rewrite S4; unfold total_bytes; simpl; lia|]. apply Z.ltb_ge in S4. lia.
Qed.

(** A lookup keeps what it does not drop, and returns a live entry of its key. *)
Lemma spec_lookup_elem now k l :
  let '(a, l') := spec_lookup now k l in
  (∀ x, x ∈ l' → x ∈ l) ∧ (within l → within l') ∧
  (∀ v, a = Some v → ∃ x, x ∈ l ∧ x_key x = k ∧ x_value x = v ∧ now < x_expiry x).
Proof.
  unfold spec_lookup. destruct (list_find (λ x, x_key x = k) l) as [[i x]|] eqn:Ef; [|by split_and!].
  apply list_find_Some in Ef as (Hx & Hk & _). apply list_elem_of_lookup_2 in Hx.
  destruct (Z.leb_spec (x_expiry x) now).
  - split_and!; [|intros; eapply sublist_within; [apply sublist_filter|done]|done].
    intros y Hy. by apply list_elem_of_filter in Hy as [_ ?].
  - pose proof (promote_perm k l) as Hp. split_and!.
    + intros y Hy. by rewrite Hp in Hy.
    + intros [I1 I2]. split; [by rewrite Hp|]. intros Hm'. unfold total_bytes. rewrite (zsum_perm _ _ _ Hp). by apply I2.
    + intros v [= <-]. by exists x.
Qed.

(** *** Answers *)

(** [v] was stored under [k] by one of [ops], with a deadline after [now]. *)
Definition inserted (ops : list cache_op) (k v : string) (e : Z) : Prop := ∃ t t', OpInsert t t' k v e ∈ ops.

Lemma spec_session_ok ops :
  0 ≤ capacity_ → 0 ≤ max_bytes_ →
  within (spec_session ops).2 ∧ length (spec_session ops).1 = length ops ∧
  (∀ x, x ∈ (spec_session ops).2 → inserted ops (x_key x) (x_value x) (x_expiry x)) ∧
  (∀ i now k v, ops !! i = Some (OpLookup now k) → (spec_session ops).1 !! i = Some (Some v) →
     ∃ e, inserted (take i ops) k v e ∧ now < e).
Proof.
  intros Hc Hm. unfold spec_session. induction ops as [|op ops (IH1 & IH2 & IH3 & IH4)] using rev_ind.
  { split; [by split|]. split; [done|]. split; [intros x Hx; by apply elem_of_nil in Hx|done]. }
  rewrite foldl_app. cbn [foldl]. destruct (foldl spec_cache_op ([], []) ops) as [outs l]. cbn [fst snd] in *.
  assert (∀ x, x ∈ l → inserted (ops ++ [op]) (x_key x) (x_value x) (x_expiry x)) as IH3'.
  { intros x Hx. destruct (IH3 x Hx) as (t & t' & Ht). exists t, t'. set_solver. }
  assert (∀ a i now k v, (ops ++ [op]) !! i = Some (OpLookup now k) → (outs ++ [a]) !! i = Some (Some v) →
    (op = OpLookup now k → a = Some v → ∃ e, inserted ops k v e ∧ now < e) →
    ∃ e, inserted (take i (ops ++ [op])) k v e ∧ now < e) as Hlast.
  { intros a i now k v Hi Ha Hnew. destruct (decide (i < length ops)%nat) as [Hlt|Hge].
    - rewrite lookup_app_l in Hi by done. rewrite lookup_app_l in Ha by (by rewrite IH2).
      destruct (IH4 i now k v Hi Ha) as (e & (t & t' & Ht) & He). exists e. split; [|done]. exists t, t'.
      by rewrite take_app_le by lia.
    - assert (i = length ops) as ->.
      { apply lookup_lt_Some in Hi. rewrite length_app in Hi. simpl in Hi. lia. }
      rewrite take_app_length. rewrite list_lookup_middle in Hi by done. rewrite <-IH2, list_lookup_middle in Ha by done.
      apply Hnew; congruence. }
  destruct op as [now later k v e|now k]; cbn [spec_cache_op fst snd].
  - split_and!.
    + by apply spec_insert_within.
    + rewrite !length_app. simpl. lia.
    + intros x Hx. apply spec_insert_elem in Hx as [Hx| ->]; [by apply IH3'|]. exists now, later. set_solver.
    + intros i n' k' v' Hi Ha. apply (Hlast None i n' k' v' Hi Ha). done.
  - pose proof (spec_lookup_elem now k l) as Hlk. destruct (spec_lookup now k l) as [a l'].
    destruct Hlk as (Hin & Hw & Ha). specialize (Hw IH1). cbn [fst snd].
    split_and!; [done|rewrite !length_app; simpl; lia|intros x Hx; by apply IH3', Hin|].
    intros i n' k' v' Hi Hout. apply (Hlast a i n' k' v' Hi Hout). intros [= <- <-] Hav.
    destruct (Ha _ Hav) as (x & Hx & <- & <- & Hlt). exists (x_expiry x). split; [by apply IH3|done].
Qed.
End Sessions.

(** C40: the token cache.  Over any sequence of insertions and lookups the
    linked list is never broken (no dangling pointer is followed, every loop
    ends) and the cache answers exactly what the list specification answers; the
    number of entries and their bytes are exact and within the limits; and a
    lookup only returns a value stored under that key by an earlier insertion
    whose deadline has not passed. *)
Theorem token_cache_refines capacity max_bytes max_purge ops :
  0 ≤ capacity → 0 ≤ max_bytes →
  let '(outs, l) := spec_session capacity max_bytes max_purge ops in
  ∃ c, res_foldl (run_cache_op capacity max_bytes max_purge) ([], new_cache) ops = Ok (outs, c) ∧
    stores c l ∧ cache_size c = length l ∧
    Z.of_nat (cache_size c) ≤ capacity ∧ (max_bytes ≠ 0 → tc_bytes c ≤ max_bytes) ∧
    ∀ i now k v, ops !! i = Some (OpLookup now k) → outs !! i = Some (Some v) →
      ∃ t t' e, OpInsert t t' k v e ∈ take i ops ∧ now < e.
Proof.
  intros Hc Hm. assert (stores new_cache []) as H0 by (split; [by split; try done; constructor|done]).
  destruct (session_refines capacity max_bytes max_purge ops new_cache [] [] H0) as (c & Hrun & Hs).
  destruct (spec_session_ok capacity max_bytes max_purge ops Hc Hm) as ([W1 W2] & _ & _ & Hans).
  unfold spec_session in *. destruct (foldl _ _ ops) as [outs l]. cbn [fst snd] in *.
  pose proof (stores_size _ _ Hs) as Hz. exists c. unfold cache_size. split_and!; [done|done|done|by rewrite Hz| |].
  - destruct Hs as [_ ->]. done.
  - intros i now k v Hi Ha. destruct (Hans i now k v Hi Ha) as (e & (t & t' & Ht) & He). by exists t, t', e.
Qed.

Definition sample_ops : list cache_op :=
  [ OpInsert 0 0 "a" "alice" 100; OpInsert 0 0 "b" "bob" 50; OpInsert 0 0 "c" "carol" 100;
    OpLookup 10 "c"; OpLookup 60 "b"; OpInsert 60 60 "d" "dave" 100; OpInsert 60 60 "e" "erin" 100;
    OpLookup 70 "a"; OpLookup 70 "d"; OpLookup 70 "e" ].

Lemma token_cache_refines_witness :
  match res_foldl (run_cache_op 3 0 0) ([], new_cache) sample_ops with
  | Ok (outs, c) =>
      outs = [None; None; None; Some "carol"; None; None; None; Some "alice"; None; Some "erin"]%string ∧
      (cache_size c ≤ 3)%nat
  | Err _ => False
  end.
Proof.
  pose proof (token_cache_refines 3 0 0 sample_ops ltac:(lia) ltac:(lia)) as Ht.
  assert ((spec_session 3 0 0 sample_ops).1 =
          [None; None; None; Some "carol"; None; None; None; Some "alice"; None; Some "erin"]%string) as Ho by (by vm_compute).
  destruct (spec_session 3 0 0 sample_ops) as [outs l]. cbn [fst] in Ho.
  destruct Ht as (c & -> & _ & _ & Hsz & _). split; [done|lia].
Defined.
