(* ===== verification/Uuid.v ===== *)
(** * UUIDs ([util/uuid.cc])

    Version-4 UUIDs from two random words (the generator's outputs are
    arguments), their canonical text, and the check of a text's shape. *)

From S2P Require Import Prelude.
From S2P Require Import Bytes.

Definition IsHex (c : ascii) : bool :=
  let u := byte_val c in
  (48 <=? u) && (u <=? 57) || (97 <=? u) && (u <=? 102) || (65 <=? u) && (u <=? 70).

(** Sixteen bytes: [hi] and [lo] in little-endian memory order, then version and
    variant. *)
Definition generate (hi lo : Z) : list Z :=
  let u := byte_val <$> (PutUint hi 8 ++ PutUint lo 8) in
  let u := <[6%nat := Z.lor (Z.land (u !!! 6%nat) 0x0F) 0x40]> u in
  <[8%nat := Z.lor (Z.land (u !!! 8%nat) 0x3F) 0x80]> u.

Definition kHex (d : Z) : ascii := if d <? 10 then to_byte (48 + d) else to_byte (87 + d).

Definition uuid_byte (i : nat) (b : Z) : bytes :=
  (if ((i =? 4) || (i =? 6) || (i =? 8) || (i =? 10))%nat then [minus] else []) ++
  [kHex (Z.shiftr b 4); kHex (Z.land b 0x0F)].
Definition UuidToString (u : list Z) : bytes := mjoin (imap uuid_byte u).

Definition generate_string (hi lo : Z) : bytes := UuidToString (generate hi lo).

Definition uuid_char (i : nat) (c : ascii) : bool :=
  if ((i =? 8) || (i =? 13) || (i =? 18) || (i =? 23))%nat then Ascii.eqb c minus else IsHex c.
Definition IsValidUuidString (s : bytes) : bool :=
  (length s =? 36)%nat && forallb (λ x, x) (imap uuid_char s).

(** ** Generated identifiers *)

Definition hex_value (c : ascii) : Z :=
  let u := byte_val c in if u <=? 57 then u - 48 else if u <=? 70 then u - 55 else u - 87.

(** A claim about small numbers, by inspection. *)
Lemma below (P : Z → Prop) n : Forall P (seqZ 0 n) → ∀ d, 0 ≤ d < n → P d.
Proof. intros HP d Hd. rewrite Forall_forall in HP. apply HP, elem_of_seqZ. lia. Qed.

Lemma kHex_ok d : 0 ≤ d < 16 → IsHex (kHex d) = true ∧ hex_value (kHex d) = d.
Proof.
  revert d. apply below. repeat (constructor; [by vm_compute|]). constructor.
Qed.

Lemma kHex_hex d : 0 ≤ d < 16 → IsHex (kHex d) = true.
Proof. apply kHex_ok. Qed.

Definition is_byte (b : Z) : Prop := 0 ≤ b < 256.

(** Reading a text back: the hex digits in pairs, hyphens skipped. *)
Fixpoint hex_pairs (s : bytes) : list Z :=
  match s with
  | c :: ((d :: s') as t) =>
      if Ascii.eqb c minus then hex_pairs t else (16 * hex_value c + hex_value d) :: hex_pairs s'
  | _ => []
  end.

Lemma nibbles b : is_byte b → 0 ≤ Z.shiftr b 4 < 16 ∧ 0 ≤ Z.land b 15 < 16 ∧ 16 * Z.shiftr b 4 + Z.land b 15 = b.
Proof.
  intros [H1 H2]. change 15 with (Z.ones 4). rewrite Z.shiftr_div_pow2, Z.land_ones by lia. change (2 ^ 4) with 16.
  pose proof (Z.div_mod b 16). pose proof (Z.mod_pos_bound b 16). lia.
Qed.

Lemma kHex_not_minus d : 0 ≤ d < 16 → Ascii.eqb (kHex d) minus = false.
Proof.
  revert d. apply below. repeat (constructor; [by vm_compute|]). constructor.
Qed.

Lemma hex_pairs_byte i b t : is_byte b → hex_pairs (uuid_byte i b ++ t) = b :: hex_pairs t.
Proof.
  intros Hb. destruct (nibbles b Hb) as (H1 & H2 & H3). unfold uuid_byte. rewrite <-app_assoc.
  assert (hex_pairs ([kHex (Z.shiftr b 4); kHex (Z.land b 15)] ++ t) = b :: hex_pairs t) as Hp.
  { cbn [app hex_pairs]. rewrite kHex_not_minus by done. destruct (kHex_ok _ H1) as [_ ->], (kHex_ok _ H2) as [_ ->].
    by rewrite H3. }
  destruct (_ || _); exact Hp.
Qed.

Lemma UuidToString_read u : Forall is_byte u → hex_pairs (UuidToString u) = u.
Proof.
  unfold UuidToString. assert (∀ f : nat → nat, Forall is_byte u → hex_pairs (mjoin (imap (λ i, uuid_byte (f i)) u)) = u) as H;
    [|exact (H id)].
  intros f Hu. revert f. induction Hu as [|b u Hb Hu IH]; intros f; [done|]. rewrite imap_cons. cbn [mjoin list_join].
  rewrite hex_pairs_byte by done. f_equal. apply (IH (f ∘ S)).
Qed.

Lemma generate_shape hi lo :
  length (generate hi lo) = 16%nat ∧ Forall is_byte (generate hi lo) ∧
  (∃ b6, generate hi lo !! 6%nat = Some b6 ∧ Z.shiftr b6 4 = 4) ∧
  (∃ b8, generate hi lo !! 8%nat = Some b8 ∧ Z.shiftr b8 6 = 2).
Proof.
  unfold generate. set (u := byte_val <$> (PutUint hi 8 ++ PutUint lo 8)).
  assert (length u = 16%nat) as Hlen by (unfold u; by rewrite length_fmap, length_app, !PutUint_length).
  assert (Forall is_byte u) as Hu.
  { unfold u. apply Forall_fmap, Forall_true. intros a. apply byte_val_range. }
  set (x := Z.lor (Z.land (u !!! 6%nat) 15) 64). set (u1 := <[6%nat := x]> u). set (y := Z.lor (Z.land (u1 !!! 8%nat) 63) 128).
  assert (∀ i, is_byte (u !!! i)) as Hi.
  { intros i. rewrite list_lookup_total_alt. destruct (u !! i) as [b|] eqn:E; [|by compute].
    by apply (Forall_lookup_1 _ _ _ _ Hu E). }
  assert (is_byte x ∧ Z.shiftr x 4 = 4) as [Hx1 Hx2].
  { unfold x. specialize (Hi 6%nat). change 15 with (Z.ones 4). rewrite Z.land_ones by lia.
    pose proof (Z.mod_pos_bound (u !!! 6%nat) (2 ^ 4) ltac:(lia)) as Hm. generalize dependent ((u !!! 6%nat) mod 2 ^ 4).
    apply below. repeat (constructor; [by vm_compute|]). constructor. }
  assert (u1 !!! 8%nat = u !!! 8%nat) as E8 by (unfold u1; by rewrite list_lookup_total_insert_ne).
  assert (is_byte y ∧ Z.shiftr y 6 = 2) as [Hy1 Hy2].
  { unfold y. rewrite E8. specialize (Hi 8%nat). change 63 with (Z.ones 6). rewrite Z.land_ones by lia.
    pose proof (Z.mod_pos_bound (u !!! 8%nat) (2 ^ 6) ltac:(lia)) as Hm. generalize dependent ((u !!! 8%nat) mod 2 ^ 6).
    apply below. repeat (constructor; [by vm_compute|]). constructor. }
  split_and!.
  - unfold u1. by rewrite !length_insert.
  - by apply Forall_insert; [apply Forall_insert|].
  - exists x. split; [|done]. rewrite list_lookup_insert_ne by done. unfold u1. by rewrite list_lookup_insert_eq by lia.
  - exists y. split; [|done]. rewrite list_lookup_insert_eq; [done|]. unfold u1. rewrite length_insert. lia.
Qed.

(** A generated text has the canonical shape and reads back as the identifier
    it was made from, a version-4 UUID: different identifiers have different
    texts. *)
Lemma generated_uuid_valid hi lo :
  IsValidUuidString (generate_string hi lo) = true ∧ hex_pairs (generate_string hi lo) = generate hi lo ∧
  (∃ b6, generate hi lo !! 6%nat = Some b6 ∧ Z.shiftr b6 4 = 4) ∧
  (∃ b8, generate hi lo !! 8%nat = Some b8 ∧ Z.shiftr b8 6 = 2).
Proof.
  destruct (generate_shape hi lo) as (Hlen & Hb & H6 & H8). split_and!; [|by apply UuidToString_read|done|done].
  unfold generate_string. generalize dependent (generate hi lo). intros u Hlen Hb _ _.
  do 16 (destruct u as [|? u]; [done|]). destruct u; [|done].
  unfold IsValidUuidString, UuidToString, uuid_byte, uuid_char. cbn -[kHex IsHex Z.shiftr Z.land Ascii.eqb].
  repeat match goal with H : Forall _ (_ :: _) |- _ => apply Forall_cons in H as [?%nibbles H] end.
  rewrite !kHex_hex by tauto. done.
Qed.

Example sample_uuid :
  generate_string 0x0123456789abcdef 0xfedcba9876543210 = lit "efcdab89-6745-4301-9032-547698badcfe".
Proof. by vm_compute. Qed.
