(* ===== verification/AuthClient.v ===== *)
(** * The authentication client ([auth/auth_client.cc])

    Credentials become user identities through two caches and a pool of helper
    processes: concurrent resolutions of one credential share a request, each
    helper takes a bounded number of requests, the rest queue.

    The client works on any [CredentialCache]; [token_cache] is the one the
    program uses.  A callback is a number; calling it is an entry of [ac_log],
    and a resolution a callback asks for is a later call.  A request to a helper
    process that is gone fails before the call returns.  Clock readings are
    arguments. *)

From S2P Require Import Prelude.
From S2P Require Import Bytes.
From S2P Require Import HelperCodec.
From S2P Require Import TokenCache.
From S2P Require Import Uuid.

(** ** What the client relies on from a cache *)
Record CredentialCache := mkCredentialCache {
  cache_state : Type;
  cache_empty : cache_state;
  cache_insert : Z → Z → string → string → Z → cache_state → res cache_state;
  cache_lookup : Z → string → cache_state → res (option string * cache_state);
  cache_ok : cache_state → Prop;
  cache_holds : cache_state → string → string → Z → Prop;
  empty_cache_ok : cache_ok cache_empty ∧ ∀ k v e, ¬ cache_holds cache_empty k v e;
  cache_insert_ok now later k v e c : cache_ok c →
    ∃ c', cache_insert now later k v e c = Ok c' ∧ cache_ok c' ∧
      ∀ k' v' e', cache_holds c' k' v' e' → cache_holds c k' v' e' ∨ (k', v', e') = (k, v, e);
  cache_lookup_ok now k c : cache_ok c →
    ∃ r c', cache_lookup now k c = Ok (r, c') ∧ cache_ok c' ∧
      (∀ k' v' e', cache_holds c' k' v' e' → cache_holds c k' v' e') ∧
      ∀ v, r = Some v → ∃ e, cache_holds c k v e ∧ now < e;
}.

(** The token cache keeps the promise. *)
Definition token_holds (c : TokenCache) (k v : string) (e : Z) : Prop :=
  ∃ n, tc_index c !! k = Some n ∧ n_value n = v ∧ n_expiry n = e.

Lemma stores_holds c l k v e : stores c l → token_holds c k v e ↔ mkEntry k v e ∈ l.
Proof.
  intros Hs. pose proof Hs as [Hl _]. split.
  - intros (n & Hn & <- & <-). destruct (decide (k ∈ keys l)) as [Hk|Hk].
    2: { by rewrite (stores_absent _ _ _ Hs Hk) in Hn. }
    destruct (keys_elem _ _ Hk) as (l1 & x & l2 & -> & <-). rewrite (linked_lookup _ _ _ _ Hl) in Hn.
    injection Hn as <-. simpl. destruct x. set_solver.
  - intros (l1 & l2 & ->)%list_elem_of_split. eexists. split; [exact (linked_lookup _ _ _ _ Hl)|]. done.
Qed.

#[program] Definition token_cache (capacity max_bytes max_purge : Z) : CredentialCache := {|
  cache_state := TokenCache;
  cache_empty := new_cache;
  cache_insert := insert_token capacity max_bytes max_purge;
  cache_lookup := lookup_token;
  cache_ok c := ∃ l, stores c l;
  cache_holds := token_holds;
|}.
Next Obligation.
  intros _ _ _. split; [|by intros k v e (n & Hn & _)]. exists []. split; [by split; try done; constructor|done].
Qed.
Next Obligation.
  intros cap mb mp now later k v e c [l Hs].
  destruct (insert_token_ok cap mb mp c l now later k v e Hs) as (c' & Hrun & Hs'). exists c'.
  split_and!; [done|by eexists|]. intros k' v' e'. rewrite (stores_holds _ _ _ _ _ Hs'), (stores_holds _ _ _ _ _ Hs).
  intros [?|[= -> -> ->]]%spec_insert_elem; [by left|by right].
Qed.
Next Obligation.
  intros _ mb _ now k c [l Hs]. destruct (lookup_token_ok c l now k Hs) as (c' & Hrun & Hs').
  pose proof (spec_lookup_elem 0 mb now k l) as He. destruct (spec_lookup now k l) as [r l'].
  destruct He as (H1 & _ & H2). exists r, c'. split_and!; [done|by eexists| |].
  - intros k' v' e'. rewrite (stores_holds _ _ _ _ _ Hs'), (stores_holds _ _ _ _ _ Hs). apply H1.
  - intros v [[k0 v0 e0] (Hx & <- & <- & Hlt)]%H2. exists e0. by rewrite (stores_holds _ _ _ _ _ Hs).
Qed.

(** ** The client *)

(** What the client does and what it is told, in order: a resolution is asked for,
    a request goes to a helper, a request comes back (with its success, message
    and the time), a callback is answered (from a cache at the given time). *)
Inductive AuthEffect :=
  | Called (cb : nat) (cred : string)
  | Sent (idx : nat) (cred : string)
  | Replied (cred : string) (ok : bool) (m : HelperMessage) (t : Z)
  | Answered (cb : nat) (cred : string) (ok : bool) (user : string) (cached : option Z).

Record AuthConfig := mkAuthConfig {
  cfg_concurrency : nat;
  cfg_depth : nat;
  cfg_positive_ttl_ns : Z;
  cfg_negative_ttl_ns : Z;
}.

Definition ParseNanos (s : bytes) : res (option Z) := match s with [] => Ok None | _ => i64_digits 0 s end.

Section Client.
Context (PC NC : CredentialCache) (cfg : AuthConfig).

(** [ac_outstanding]: requests at live helpers, with their credential;
    [ac_dead]: the helpers whose process is gone. *)
Record AuthClient := mkAuth {
  ac_positive : cache_state PC;
  ac_negative : cache_state NC;
  ac_inflight : list nat;
  ac_next_helper : nat;
  ac_waiters : gmap string (list nat);
  ac_pending : list string;
  ac_helper_requests : Z;
  ac_dead : gset nat;
  ac_outstanding : list (nat * string);
  ac_log : list AuthEffect;
}.

Definition Create : AuthClient :=
  mkAuth (cache_empty PC) (cache_empty NC) (replicate (Nat.max 1 (cfg_concurrency cfg)) 0%nat) 0 ∅ [] 0 ∅ [] [].

Definition set_caches p n (a : AuthClient) : AuthClient :=
  mkAuth p n (ac_inflight a) (ac_next_helper a) (ac_waiters a) (ac_pending a) (ac_helper_requests a)
    (ac_dead a) (ac_outstanding a) (ac_log a).
Definition set_pool inflight next (a : AuthClient) : AuthClient :=
  mkAuth (ac_positive a) (ac_negative a) inflight next (ac_waiters a) (ac_pending a) (ac_helper_requests a)
    (ac_dead a) (ac_outstanding a) (ac_log a).
Definition set_queue waiters pending (a : AuthClient) : AuthClient :=
  mkAuth (ac_positive a) (ac_negative a) (ac_inflight a) (ac_next_helper a) waiters pending (ac_helper_requests a)
    (ac_dead a) (ac_outstanding a) (ac_log a).
Definition set_helpers requests dead outstanding (a : AuthClient) : AuthClient :=
  mkAuth (ac_positive a) (ac_negative a) (ac_inflight a) (ac_next_helper a) (ac_waiters a) (ac_pending a) requests
    dead outstanding (ac_log a).
Definition note (l : list AuthEffect) (a : AuthClient) : AuthClient :=
  mkAuth (ac_positive a) (ac_negative a) (ac_inflight a) (ac_next_helper a) (ac_waiters a) (ac_pending a)
    (ac_helper_requests a) (ac_dead a) (ac_outstanding a) (ac_log a ++ l).

(** The loop of [free_helper]: [k] of [n] helpers have been tried. *)
Fixpoint free_from (tries k : nat) (a : AuthClient) : option nat :=
  match tries with
  | O => None
  | S tries =>
      let idx := ((ac_next_helper a + k) mod length (ac_inflight a))%nat in
      if (ac_inflight a !!! idx <? cfg_depth cfg)%nat then Some idx else free_from tries (S k) a
  end.
Definition free_helper (a : AuthClient) : option (nat * AuthClient) :=
  let n := length (ac_inflight a) in
  match free_from n 0 a with
  | Some idx => Some (idx, set_pool (ac_inflight a) ((idx + 1) mod n)%nat a)
  | None => None
  end.

Definition fan_out (cred : string) (ok : bool) (user : string) (a : AuthClient) : AuthClient :=
  match ac_waiters a !! cred with
  | None => a
  | Some cbs =>
      note ((λ cb, Answered cb cred ok user None) <$> cbs) (set_queue (delete cred (ac_waiters a)) (ac_pending a) a)
  end.

Definition release_slot (idx : nat) (a : AuthClient) : AuthClient :=
  set_pool (alter pred idx (ac_inflight a)) (ac_next_helper a) a.

(** [dispatch], over the [drain_pending] that the callback of a request that
    fails at once calls. *)
Definition dispatch_via (drain : AuthClient → res AuthClient) (idx : nat) (cred : string) (a : AuthClient)
    : res AuthClient :=
  let a := set_pool (alter S idx (ac_inflight a)) (ac_next_helper a) a in
  let a := set_helpers (ac_helper_requests a + 1) (ac_dead a) (ac_outstanding a) a in
  let a := note [Sent idx cred] a in
  if decide (idx ∈ ac_dead a) then drain (fan_out cred false "" (release_slot idx a))
  else Ok (set_helpers (ac_helper_requests a) (ac_dead a) (ac_outstanding a ++ [(idx, cred)]) a).

Fixpoint drain_pool (fuel : nat) (a : AuthClient) : res AuthClient :=
  match fuel with
  | O => Err OutOfFuel
  | S fuel =>
      match ac_pending a with
      | [] => Ok a
      | cred :: rest =>
          match free_helper a with
          | None => Ok a
          | Some (idx, a) =>
              a ← dispatch_via (drain_pool fuel) idx cred (set_queue (ac_waiters a) rest a);
              drain_pool fuel a
          end
      end
  end.
(** Every pass takes a credential off the queue. *)
Definition drain_pending (a : AuthClient) : res AuthClient := drain_pool (S (length (ac_pending a))) a.
Definition dispatch_cred (idx : nat) (cred : string) (a : AuthClient) : res AuthClient :=
  dispatch_via drain_pending idx cred a.

(** [t1], [t2]: the readings of the two lookups. *)
Definition resolve (t1 t2 : Z) (cred : string) (cb : nat) (a : AuthClient) : res AuthClient :=
  let a := note [Called cb cred] a in
  '(hit, p) ← cache_lookup PC t1 cred (ac_positive a);
  let a := set_caches p (ac_negative a) a in
  match hit with
  | Some user => Ok (note [Answered cb cred true user (Some t1)] a)
  | None =>
      '(refused, n) ← cache_lookup NC t2 cred (ac_negative a);
      let a := set_caches (ac_positive a) n a in
      match refused with
      | Some _ => Ok (note [Answered cb cred false "" (Some t2)] a)
      | None =>
          match ac_waiters a !! cred with
          | Some cbs => Ok (set_queue (<[cred := cbs ++ [cb]]> (ac_waiters a)) (ac_pending a) a)
          | None =>
              let a := set_queue (<[cred := [cb]]> (ac_waiters a)) (ac_pending a) a in
              match free_helper a with
              | None => Ok (set_queue (ac_waiters a) (ac_pending a ++ [cred]) a)
              | Some (idx, a) => dispatch_cred idx cred a
              end
          end
      end
  end.

(** The identity a helper's reply grants. *)
Definition granted_user (m : HelperMessage) : option string :=
  match get (lit "status") m, get (lit "user") m with
  | Some status, Some u =>
      if bool_decide (status = lit "ok") && IsValidUuidString u then Some (String.string_of_list_ascii u) else None
  | _, _ => None
  end.

Definition positive_expiry (t : Z) (m : HelperMessage) : res Z :=
  let expiry := t + cfg_positive_ttl_ns cfg in
  match get (lit "not_after") m with
  | Some s =>
      parsed ← ParseNanos s;
      Ok (match parsed with Some not_after => Z.min expiry not_after | None => expiry end)
  | None => Ok expiry
  end.

(** [t]: the reading for the lifetime; [t1], [t2]: those of the insertion. *)
Definition on_response (idx : nat) (cred : string) (ok : bool) (m : HelperMessage) (t t1 t2 : Z) (a : AuthClient)
    : res AuthClient :=
  let a := note [Replied cred ok m t] (release_slot idx a) in
  '(allow, user, a) ←
    (if negb ok then Ok (false, ""%string, a)
     else match granted_user m with
          | Some user =>
              expiry ← positive_expiry t m;
              p ← cache_insert PC t1 t2 cred user expiry (ac_positive a);
              Ok (true, user, set_caches p (ac_negative a) a)
          | None =>
              let expiry := t + cfg_negative_ttl_ns cfg in
              n ← cache_insert NC t1 t2 cred "" expiry (ac_negative a);
              Ok (false, ""%string, set_caches (ac_positive a) n a)
          end);
  drain_pending (fan_out cred allow user a).

(** ** Sessions *)
Inductive auth_event :=
  | Resolves (t1 t2 : Z) (cred : string) (cb : nat)
  | Replies (k : nat) (ok : bool) (m : HelperMessage) (t t1 t2 : Z)
  | HelperDies (idx : nat).

(** A reply to, or the failure of, the [k]-th request at the helpers.  A helper
    that dies fails its requests, in any order. *)
Definition auth_step (a : AuthClient) (e : auth_event) : res AuthClient :=
  match e with
  | Resolves t1 t2 cred cb => resolve t1 t2 cred cb a
  | Replies k ok m t t1 t2 =>
      match ac_outstanding a !! k with
      | None => Ok a
      | Some (idx, cred) =>
          on_response idx cred (ok && negb (bool_decide (idx ∈ ac_dead a))) m t t1 t2
            (set_helpers (ac_helper_requests a) (ac_dead a) (delete k (ac_outstanding a)) a)
      end
  | HelperDies idx => Ok (set_helpers (ac_helper_requests a) ({[idx]} ∪ ac_dead a) (ac_outstanding a) a)
  end.

Definition auth_session (es : list auth_event) : res AuthClient := res_foldl auth_step Create es.
End Client.
Arguments ac_positive {PC NC}. Arguments ac_negative {PC NC}. Arguments ac_inflight {PC NC}.
Arguments ac_next_helper {PC NC}. Arguments ac_waiters {PC NC}. Arguments ac_pending {PC NC}.
Arguments ac_helper_requests {PC NC}. Arguments ac_dead {PC NC}. Arguments ac_outstanding {PC NC}.
Arguments ac_log {PC NC}.

(** ** Invariant *)

(** The resolutions asked for and those answered, with callback and credential. *)
Definition calls (l : list AuthEffect) : list (nat * string) :=
  omap (λ x, match x with Called cb cred => Some (cb, cred) | _ => None end) l.
Definition answers (l : list AuthEffect) : list (nat * string) :=
  omap (λ x, match x with Answered cb cred _ _ _ => Some (cb, cred) | _ => None end) l.

Definition callers (cred : string) (cbs : list nat) : list (nat * string) := (λ cb, (cb, cred)) <$> cbs.
Definition waiting (m : gmap string (list nat)) : list (nat * string) :=
  map_to_list m ≫= λ x, callers x.1 x.2.

(** A reply grants [user]: its status is "ok" and it names a well-formed UUID. *)
Definition grants (m : HelperMessage) (user : string) : Prop :=
  get (lit "status") m = Some (lit "ok") ∧ get (lit "user") m = Some (lit user) ∧ IsValidUuidString (lit user) = true.

(** A grant that came at [t] may be used before [e]: no longer than the configured
    time, and not past the deadline it carries. *)
Definition lives (ttl t : Z) (m : HelperMessage) (e : Z) : Prop :=
  e ≤ t + ttl ∧
  ∀ s, get (lit "not_after") m = Some s → s ≠ [] → Forall (λ c, isdigit c = true) s → e ≤ undec 0 s.

(** A helper's reply in [l] granted [user] for [cred] until [e], or refused. *)
Definition granted (ttl : Z) (l : list AuthEffect) (cred user : string) (e : Z) : Prop :=
  ∃ m t, Replied cred true m t ∈ l ∧ grants m user ∧ lives ttl t m e.
Definition refused (ttl : Z) (l : list AuthEffect) (cred : string) (e : Z) : Prop :=
  ∃ m t, Replied cred true m t ∈ l ∧ (∀ user, ¬ grants m user) ∧ e = t + ttl.

(** What must precede an answer: a helper's grant, not expired if the answer came
    from the cache, or a helper's refusal for a cached refusal. *)
Definition justified (cfg : AuthConfig) (l : list AuthEffect) (x : AuthEffect) : Prop :=
  match x with
  | Answered _ cred true user cached =>
      ∃ e, granted (cfg_positive_ttl_ns cfg) l cred user e ∧ (∀ t, cached = Some t → t < e)
  | Answered _ cred false _ (Some t) => ∃ e, refused (cfg_negative_ttl_ns cfg) l cred e ∧ t < e
  | _ => True
  end.
Definition sound (cfg : AuthConfig) (l : list AuthEffect) : Prop := ∀ i x, l !! i = Some x → justified cfg (take i l) x.

Lemma granted_app ttl l l' cred user e : granted ttl l cred user e → granted ttl (l ++ l') cred user e.
Proof. intros (m & t & H & ?). exists m, t. split; [set_solver|done]. Qed.
Lemma refused_app ttl l l' cred e : refused ttl l cred e → refused ttl (l ++ l') cred e.
Proof. intros (m & t & H & ?). exists m, t. split; [set_solver|done]. Qed.
#[local] Hint Resolve granted_app refused_app : core.

Lemma justified_app cfg l l' x : justified cfg l x → justified cfg (l ++ l') x.
Proof. destruct x as [| | |cb cred [] user [t|]]; simpl; try done; intros (e & He & Ht); exists e; auto. Qed.

Lemma sound_app cfg l l' : sound cfg l → (∀ x, x ∈ l' → justified cfg l x) → sound cfg (l ++ l').
Proof.
  intros Hl Hl' i x. rewrite lookup_app_Some. intros [Hx|[Hge Hx]].
  - rewrite take_app_le by (by apply Nat.lt_le_incl; eapply lookup_lt_Some). by apply Hl.
  - rewrite take_app, take_ge by done. apply justified_app, Hl'. by eapply list_elem_of_lookup_2.
Qed.

Lemma waiting_insert m cred cbs : m !! cred = None → waiting (<[cred := cbs]> m) ≡ₚ callers cred cbs ++ waiting m.
Proof. intros Hm. unfold waiting. by rewrite (map_to_list_insert m cred cbs Hm). Qed.
Lemma waiting_delete m cred cbs : m !! cred = Some cbs → waiting m ≡ₚ callers cred cbs ++ waiting (delete cred m).
Proof. intros Hm. rewrite <-waiting_insert by apply lookup_delete_eq. by rewrite insert_delete_id. Qed.

Definition load (i : nat) (l : list (nat * string)) : nat := length (filter (λ x, x.1 = i) l).

Lemma load_app i l l' : load i (l ++ l') = (load i l + load i l')%nat.
Proof. unfold load. by rewrite filter_app, length_app. Qed.
Lemma load_one i j cred : load i [(j, cred)] = if decide (j = i) then 1%nat else 0%nat.
Proof. unfold load. cbn [filter list_filter]. simpl. by destruct (decide (j = i)). Qed.

Lemma granted_user_spec m :
  match granted_user m with Some user => grants m user | None => ∀ user, ¬ grants m user end.
Proof.
  unfold granted_user, grants. destruct (get (lit "status") m) as [st|] eqn:Es; [|by intros user (? & _)].
  destruct (get (lit "user") m) as [u|] eqn:Eu; [|by intros user (_ & ? & _)].
  case_bool_decide as Hst; [|by intros user ([= ->] & _)]. destruct (IsValidUuidString u) eqn:Ev; cbn [andb].
  - unfold lit at 2 3. by rewrite String.list_ascii_of_string_of_list_ascii, Hst.
  - intros user (_ & [= ->] & ?). congruence.
Qed.

Lemma i64_digits_undec s : ∀ v r, Forall (λ c, isdigit c = true) s → i64_digits v s = Ok r → r = Some (undec v s).
Proof.
  induction s as [|c s IH]; intros v r Hs; simpl; [by intros [= <-]|]. apply Forall_cons in Hs as [-> Hs]. simpl.
  case_if; [by apply IH|done].
Qed.

Lemma positive_expiry_lives cfg t m e : positive_expiry cfg t m = Ok e → lives (cfg_positive_ttl_ns cfg) t m e.
Proof.
  unfold positive_expiry, lives. destruct (get (lit "not_after") m) as [s|] eqn:Es; [|intros [= <-]; split; [lia|done]].
  intros (r & Hr & [= <-])%bind_Ok. split; [case_match; lia|]. intros s' [= <-] Hne Hd.
  assert (r = Some (undec 0 s)) as ->; [|lia]. destruct s; [done|]. by eapply i64_digits_undec.
Qed.

Section Inv.
Context (PC NC : CredentialCache) (cfg : AuthConfig).
Implicit Types a : AuthClient PC NC.

(** [extra]: credentials that are awaited but neither at a helper nor queued. *)
Record auth_core (extra : list string) a : Prop := {
  au_caches : cache_ok PC (ac_positive a) ∧ cache_ok NC (ac_negative a);
  au_positive k v e : cache_holds PC (ac_positive a) k v e → granted (cfg_positive_ttl_ns cfg) (ac_log a) k v e;
  au_negative k v e : cache_holds NC (ac_negative a) k v e → refused (cfg_negative_ttl_ns cfg) (ac_log a) k e;
  au_sound : sound cfg (ac_log a);
  au_once : calls (ac_log a) ≡ₚ answers (ac_log a) ++ waiting (ac_waiters a);
  au_single : NoDup (extra ++ (ac_outstanding a).*2 ++ ac_pending a);
  au_waiters : dom (ac_waiters a) = list_to_set (extra ++ (ac_outstanding a).*2 ++ ac_pending a);
  au_pool : length (ac_inflight a) = Nat.max 1 (cfg_concurrency cfg);
  au_inflight i : (i < length (ac_inflight a))%nat → ac_inflight a !! i = Some (load i (ac_outstanding a));
  au_load i : (load i (ac_outstanding a) ≤ cfg_depth cfg)%nat;
  au_indices : Forall (λ x, (x.1 < length (ac_inflight a))%nat) (ac_outstanding a);
  au_next : (ac_next_helper a < length (ac_inflight a))%nat;
}.

(** A credential is queued only while every helper is full. *)
Definition busy a : Prop := ac_pending a ≠ [] → Forall (λ n, n = cfg_depth cfg) (ac_inflight a).

Lemma free_from_Some tries : ∀ k a idx,
  (0 < length (ac_inflight a))%nat → free_from PC NC cfg tries k a = Some idx →
  (idx < length (ac_inflight a))%nat ∧ (ac_inflight a !!! idx < cfg_depth cfg)%nat.
Proof.
  induction tries as [|tries IH]; intros k a idx Hn; [done|]. cbn [free_from].
  destruct (_ <? _)%nat eqn:E; [|by apply IH]. intros [= <-]. apply Nat.ltb_lt in E.
  split; [|done]. apply Nat.mod_upper_bound. lia.
Qed.

Lemma free_from_None tries : ∀ k a j,
  free_from PC NC cfg tries k a = None → (k ≤ j < k + tries)%nat →
  (cfg_depth cfg ≤ ac_inflight a !!! ((ac_next_helper a + j) mod length (ac_inflight a)))%nat.
Proof.
  induction tries as [|tries IH]; intros k a j; [lia|]. cbn [free_from].
  destruct (_ <? _)%nat eqn:E; [done|]. apply Nat.ltb_ge in E. intros Hnone Hj.
  destruct (decide (j = k)) as [->|]; [done|]. apply (IH (S k)); [done|lia].
Qed.

Lemma free_helper_Some extra a idx a' :
  auth_core extra a → free_helper PC NC cfg a = Some (idx, a') →
  ac_inflight a' = ac_inflight a ∧ ac_pending a' = ac_pending a ∧ ac_waiters a' = ac_waiters a ∧
  auth_core extra a' ∧ (idx < length (ac_inflight a))%nat ∧ (load idx (ac_outstanding a) < cfg_depth cfg)%nat.
Proof.
  intros [] H. unfold free_helper in H. destruct (free_from _ _ _ _ _ _) as [i|] eqn:E; [|done].
  injection H as <- <-. apply free_from_Some in E as [H1 H2]; [|lia]. split_and!; try done.
  - split; try done. simpl. apply Nat.mod_upper_bound. lia.
  - by rewrite (list_lookup_total_correct _ _ _ (au_inflight0 _ H1)) in H2.
Qed.

Lemma free_helper_None extra a : auth_core extra a → free_helper PC NC cfg a = None →
  Forall (λ n, n = cfg_depth cfg) (ac_inflight a).
Proof.
  intros [] H. unfold free_helper in H. destruct (free_from _ _ _ _ _ _) as [i|] eqn:E; [done|].
  apply Forall_lookup. intros i n Hi. pose proof (lookup_lt_Some _ _ _ Hi) as Hlt.
  rewrite au_inflight0 in Hi by done. injection Hi as <-. apply Nat.le_antisymm; [done|].
  pose (j := if decide (ac_next_helper a ≤ i)%nat then (i - ac_next_helper a)%nat
             else (i + length (ac_inflight a) - ac_next_helper a)%nat).
  assert ((ac_next_helper a + j) mod length (ac_inflight a) = i)%nat as Hj.
  { unfold j. case_decide.
    - replace (ac_next_helper a + (i - ac_next_helper a))%nat with i by lia. by apply Nat.mod_small.
    - replace (ac_next_helper a + (i + length (ac_inflight a) - ac_next_helper a))%nat
        with (i + 1 * length (ac_inflight a))%nat by lia. rewrite Nat.Div0.mod_add. by apply Nat.mod_small. }
  pose proof (free_from_None _ 0 a j E) as Hle. rewrite Hj in Hle.
  rewrite (list_lookup_total_correct _ _ _ (au_inflight0 _ Hlt)) in Hle. apply Hle. unfold j. case_decide; lia.
Qed.

(** Entries that are neither calls nor answers. *)
Definition neutral (x : AuthEffect) : bool := match x with Sent _ _ | Replied _ _ _ _ => true | _ => false end.

Lemma neutral_calls l : forallb neutral l = true → calls l = [] ∧ answers l = [].
Proof. induction l as [|x l IH]; [done|]. simpl. intros [Hx Hl]%andb_true_iff. destruct (IH Hl). by destruct x. Qed.

Lemma note_core extra a l :
  auth_core extra a → forallb neutral l = true → Forall (justified cfg (ac_log a)) l → auth_core extra (note PC NC l a).
Proof.
  intros [] Hl Hj. destruct (neutral_calls l Hl) as [Hc Ha]. split; simpl; try done.
  - intros k v e H%au_positive0. auto.
  - intros k v e H%au_negative0. auto.
  - apply sound_app; [done|]. by apply Forall_forall.
  - unfold calls, answers in *. by rewrite !omap_app, Hc, Ha, !app_nil_r.
Qed.

Lemma answers_of cred ok user cached cbs :
  answers ((λ cb, Answered cb cred ok user cached) <$> cbs) = callers cred cbs ∧
  calls ((λ cb, Answered cb cred ok user cached) <$> cbs) = [].
Proof. induction cbs as [|cb cbs [IH1 IH2]]; [done|]. simpl. rewrite <-IH1. by split. Qed.

Lemma fan_out_core cred extra ok user a :
  auth_core (cred :: extra) a → (ok = true → ∃ e, granted (cfg_positive_ttl_ns cfg) (ac_log a) cred user e) →
  let a' := fan_out PC NC cred ok user a in
  auth_core extra a' ∧ ac_pending a' = ac_pending a ∧ ac_inflight a' = ac_inflight a.
Proof.
  intros [] Hok. unfold fan_out.
  assert (cred ∈ dom (ac_waiters a)) as [cbs Hcbs]%elem_of_dom by (rewrite au_waiters0; set_solver).
  rewrite Hcbs. split; [|done]. cbn [app] in au_single0. apply NoDup_cons in au_single0 as [Hnot Hnd].
  destruct (answers_of cred ok user None cbs) as [Ea Ec]. split; simpl; try done.
  - intros k v e H%au_positive0. auto.
  - intros k v e H%au_negative0. auto.
  - apply sound_app; [done|]. intros x (cb & -> & _)%list_elem_of_fmap. simpl.
    destruct ok; [|done]. destruct (Hok eq_refl) as [e He]. by exists e.
  - unfold calls, answers in *. rewrite !omap_app, Ec, Ea, app_nil_r, au_once0.
    rewrite (waiting_delete _ _ _ Hcbs). by rewrite app_assoc.
  - rewrite dom_delete_L, au_waiters0. cbn [app list_to_set]. apply set_eq. intros x.
    rewrite elem_of_difference, elem_of_union, elem_of_singleton, !elem_of_list_to_set. naive_solver.
Qed.

Lemma alter_pred_S i (l : list nat) : alter pred i (alter S i l) = l.
Proof. rewrite list_alter_alter_eq. apply list_alter_id. done. Qed.

(** What draining promises its callers. *)
Definition drains (drain : AuthClient PC NC → res (AuthClient PC NC)) (n : nat) : Prop :=
  ∀ a, auth_core [] a → (length (ac_pending a) ≤ n)%nat →
    ∃ a', drain a = Ok a' ∧ auth_core [] a' ∧ busy a' ∧ (length (ac_pending a') ≤ length (ac_pending a))%nat.

Lemma dispatch_via_ok drain cred idx a :
  auth_core [cred] a → (idx < length (ac_inflight a))%nat → (load idx (ac_outstanding a) < cfg_depth cfg)%nat →
  drains drain (length (ac_pending a)) →
  ∃ a', dispatch_via PC NC drain idx cred a = Ok a' ∧ auth_core [] a' ∧
    (length (ac_pending a') ≤ length (ac_pending a))%nat ∧ (busy a' ∨ ac_pending a' = ac_pending a).
Proof.
  intros Hc Hidx Hload Hdrain. unfold dispatch_via. case_decide as Hdead.
  - set (a1 := release_slot _ _ _ _).
    assert (auth_core [cred] a1) as Hc1.
    { apply (note_core _ _ [Sent idx cred]) in Hc; [|done|by apply Forall_singleton]. destruct Hc. unfold a1, release_slot.
      split; simpl; rewrite ?alter_pred_S; try done. }
    destruct (fan_out_core cred [] false "" a1 Hc1) as (H1 & H2 & H3); [done|].
    destruct (Hdrain _ H1) as (a' & -> & K1 & K2 & K3); [by rewrite H2|]. exists a'. rewrite H2 in K3. auto.
  - eexists. split; [done|]. apply (note_core _ _ [Sent idx cred]) in Hc; [|done|by apply Forall_singleton]. destruct Hc. simpl in *.
    assert ((ac_outstanding a ++ [(idx, cred)]).*2 ++ ac_pending a ≡ₚ cred :: (ac_outstanding a).*2 ++ ac_pending a) as Hp.
    { rewrite fmap_app, <-app_assoc. simpl. by rewrite Permutation_middle. }
    split; [|by auto]. split; simpl; try done.
    + by rewrite Hp.
    + rewrite au_waiters0. symmetry. exact (list_to_set_perm_L _ _ Hp).
    + by rewrite length_alter.
    + intros i. rewrite length_alter. intros Hi. rewrite load_app, load_one. destruct (decide (idx = i)) as [->|Hne].
      * rewrite list_lookup_alter_eq, au_inflight0 by done. simpl. f_equal. lia.
      * rewrite list_lookup_alter_ne, au_inflight0 by done. f_equal. lia.
    + intros i. rewrite load_app, load_one. destruct (decide (idx = i)) as [->|Hne]; [lia|]. specialize (au_load0 i). lia.
    + apply Forall_app. rewrite length_alter. split; [done|]. by apply Forall_singleton.
    + by rewrite length_alter.
Qed.

Lemma drain_pool_ok fuel : ∀ n, (n < fuel)%nat → drains (drain_pool PC NC cfg fuel) n.
Proof.
  induction fuel as [|fuel IH]; intros n Hn; [lia|]. intros a Hc Hlen. cbn [drain_pool].
  destruct (ac_pending a) as [|cred rest] eqn:Ep.
  { exists a. rewrite Ep. split_and!; [done|done|by intros []|done]. }
  destruct (free_helper PC NC cfg a) as [[idx a1]|] eqn:Ef.
  2: { exists a. rewrite Ep. split_and!; [done|done|intros _; by eapply free_helper_None|done]. }
  destruct (free_helper_Some _ _ _ _ Hc Ef) as (H1 & H2 & H3 & Hc1 & H5 & H6). simpl in Hlen.
  assert (auth_core [cred] (set_queue PC NC (ac_waiters a1) rest a1)) as Hc2.
  { destruct Hc1. rewrite H2, Ep in *. simpl in *. split; simpl; try done.
    - by rewrite Permutation_middle.
    - rewrite au_waiters0. symmetry.
      exact (list_to_set_perm_L _ _ (Permutation_middle ((ac_outstanding a1).*2) rest cred)). }
  assert (ac_outstanding a1 = ac_outstanding a) as Ho.
  { unfold free_helper in Ef. destruct (free_from _ _ _ _ _ _); [|done]. by injection Ef as <- <-. }
  destruct (dispatch_via_ok (drain_pool PC NC cfg fuel) cred idx _ Hc2) as (a2 & -> & K1 & K2 & _).
  { simpl. by rewrite H1. } { simpl. by rewrite Ho. } { apply IH. simpl. lia. }
  cbn [mbind res_bind]. simpl in K2. destruct (IH (length rest) ltac:(lia) a2 K1 K2) as (a3 & -> & L1 & L2 & L3).
  exists a3. split_and!; [done|done|done|]. simpl. lia.
Qed.

Lemma drain_pending_ok n : drains (drain_pending PC NC cfg) n.
Proof. intros a Hc _. apply (drain_pool_ok _ (length (ac_pending a))); [lia|done|done]. Qed.

(** Log entries of a call and of an answer from a cache. *)
Lemma called_core extra cred cb a x :
  auth_core extra a → justified cfg (ac_log a ++ [Called cb cred]) x → answers [x] = [(cb, cred)] → calls [x] = [] →
  auth_core extra (note PC NC [x] (note PC NC [Called cb cred] a)).
Proof.
  intros [] Hj Ea Ec. split; simpl; try done.
  - intros k v e H%au_positive0. auto.
  - intros k v e H%au_negative0. auto.
  - apply sound_app; [apply sound_app; [done|]|].
    + intros y ->%list_elem_of_singleton. done.
    + by intros y ->%list_elem_of_singleton.
  - unfold calls, answers in *. rewrite !omap_app, Ec, Ea, app_nil_r. simpl. rewrite au_once0, app_nil_r.
    by rewrite <-!app_assoc, (Permutation_app_comm (waiting _)).
Qed.

Lemma caches_core extra p n a :
  auth_core extra a → cache_ok PC p → cache_ok NC n →
  (∀ k v e, cache_holds PC p k v e → granted (cfg_positive_ttl_ns cfg) (ac_log a) k v e) →
  (∀ k v e, cache_holds NC n k v e → refused (cfg_negative_ttl_ns cfg) (ac_log a) k e) → auth_core extra (set_caches PC NC p n a).
Proof. intros [] Hp Hn H1 H2. by split. Qed.

Lemma resolve_ok t1 t2 cred cb a :
  auth_core [] a → busy a → ∃ a', resolve PC NC cfg t1 t2 cred cb a = Ok a' ∧ auth_core [] a' ∧ busy a'.
Proof.
  intros Hc Hb. unfold resolve. destruct (au_caches _ _ Hc) as [Hp Hn].
  destruct (cache_lookup_ok PC t1 cred _ Hp) as (r & p & Hl & Hp' & Hsub & Hr). cbn [ac_positive note]. rewrite Hl.
  cbn [mbind res_bind]. destruct r as [user|].
  { eexists. split; [done|]. split; [|done]. destruct (Hr _ eq_refl) as (e & He & Hlt).
    apply (caches_core [] p (ac_negative a)
             (note PC NC [Answered cb cred true user (Some t1)] (note PC NC [Called cb cred] a))); try done.
    - apply called_core; try done. simpl. exists e. apply (au_positive _ _ Hc) in He. split; [auto|].
      by intros t [= <-].
    - intros k v e' H%Hsub%(au_positive _ _ Hc). simpl. auto.
    - intros k v e' H%(au_negative _ _ Hc). simpl. auto. }
  destruct (cache_lookup_ok NC t2 cred _ Hn) as (r & n & Hl2 & Hn' & Hsub2 & Hr2). cbn [ac_negative set_caches note].
  rewrite Hl2. cbn [mbind res_bind ac_positive ac_log ac_waiters ac_pending]. destruct r as [v|].
  { eexists. split; [done|]. split; [|done]. destruct (Hr2 _ eq_refl) as (e & He & Hlt).
    apply (caches_core [] p n
             (note PC NC [Answered cb cred false "" (Some t2)] (note PC NC [Called cb cred] a))); try done.
    - apply called_core; try done. simpl. exists e. apply (au_negative _ _ Hc) in He. split; [auto|done].
    - intros k v' e' H%Hsub%(au_positive _ _ Hc). simpl. auto.
    - intros k v' e' H%Hsub2%(au_negative _ _ Hc). simpl. auto. }
  pose (a1 := set_caches PC NC p n (note PC NC [Called cb cred] a)).
  match goal with |- context [set_caches PC NC ?q n ?b] => change (set_caches PC NC q n b) with a1 end.
  change (ac_waiters a1) with (ac_waiters a). change (ac_pending a1) with (ac_pending a).
  assert (∀ extra w q, NoDup (extra ++ (ac_outstanding a).*2 ++ q) →
            dom w = list_to_set (extra ++ (ac_outstanding a).*2 ++ q) →
            waiting w ≡ₚ waiting (ac_waiters a) ++ [(cb, cred)] → auth_core extra (set_queue PC NC w q a1)) as Hq.
  { intros extra w q H1 H2 H3. destruct Hc. split; simpl; try done.
    - intros k v e H%Hsub%au_positive0. auto.
    - intros k v e H%Hsub2%au_negative0. auto.
    - apply sound_app; [done|]. by intros y ->%list_elem_of_singleton.
    - unfold calls, answers in *. rewrite !omap_app. simpl. rewrite app_nil_r, H3, au_once0. by rewrite app_assoc. }
  pose proof (au_single _ _ Hc) as Hs. pose proof (au_waiters _ _ Hc) as Hw. cbn [app] in Hs, Hw.
  destruct (ac_waiters a !! cred) as [cbs|] eqn:Ew.
  - eexists. split; [done|]. split; [|done]. apply (Hq []); try done.
    + rewrite dom_insert_L. assert (cred ∈ dom (ac_waiters a)) by (by apply elem_of_dom). cbn [app]. rewrite <-Hw. set_solver.
    + rewrite <-(insert_delete_eq (ac_waiters a)), waiting_insert by apply lookup_delete_eq.
      rewrite (waiting_delete _ _ _ Ew). unfold callers. rewrite fmap_app, <-!app_assoc. f_equiv.
      by rewrite Permutation_app_comm.
  - assert (cred ∉ (ac_outstanding a).*2 ++ ac_pending a) as Hnot.
    { intros Hin. apply not_elem_of_dom in Ew. apply Ew. rewrite Hw. by apply elem_of_list_to_set. }
    assert (waiting (<[cred := [cb]]> (ac_waiters a)) ≡ₚ waiting (ac_waiters a) ++ [(cb, cred)]) as Hwt.
    { rewrite waiting_insert by done. by rewrite Permutation_app_comm. }
    assert (auth_core [cred] (set_queue PC NC (<[cred := [cb]]> (ac_waiters a)) (ac_pending a) a1)) as Hc1.
    { apply Hq; [by apply NoDup_cons|by rewrite dom_insert_L, Hw|done]. }
    destruct (free_helper PC NC cfg _) as [[idx a2]|] eqn:Ef.
    + destruct (free_helper_Some _ _ _ _ Hc1 Ef) as (H1 & H2 & H3 & Hc2 & H5 & H6). simpl in H1, H2, H3, H5, H6.
      assert (ac_outstanding a2 = ac_outstanding a) as Ho.
      { unfold free_helper in Ef. destruct (free_from _ _ _ _ _ _); [|done]. by injection Ef as <- <-. }
      destruct (dispatch_via_ok (drain_pending PC NC cfg) cred idx a2 Hc2) as (a3 & Hrun & K1 & K2 & K3);
        [by rewrite H1|by rewrite Ho|apply drain_pending_ok|].
      exists a3. split_and!; [done|done|]. destruct K3 as [?|K3]; [done|]. intros Hne. exfalso.
      rewrite K3, H2 in Hne. specialize (Hb Hne). rewrite Forall_lookup in Hb.
      assert (ac_inflight a !! idx = Some (load idx (ac_outstanding a))) as Hi.
      { pose proof (au_inflight _ _ Hc2 idx) as Hi. rewrite H1, Ho in Hi. by apply Hi. }
      specialize (Hb _ _ Hi). lia.
    + eexists. split; [done|]. split; [|intros _; exact (free_helper_None _ _ Hc1 Ef)].
      apply (Hq []); [|..|done]; simpl.
      * rewrite app_assoc, Permutation_app_comm. by apply NoDup_cons.
      * rewrite dom_insert_L, Hw, app_assoc, list_to_set_app_L. simpl. set_solver.
Qed.

(** A request comes back: its slot is free, its credential still awaited. *)
Lemma release_core k idx cred a :
  auth_core [] a → ac_outstanding a !! k = Some (idx, cred) →
  auth_core [cred] (release_slot PC NC idx
    (set_helpers PC NC (ac_helper_requests a) (ac_dead a) (delete k (ac_outstanding a)) a)).
Proof.
  intros [] (l1 & l2 & Eo & ->)%list_elem_of_split_length. rewrite Eo in *. rewrite delete_middle.
  assert (cred :: (l1 ++ l2).*2 ++ ac_pending a ≡ₚ (l1 ++ (idx, cred) :: l2).*2 ++ ac_pending a) as Hp.
  { rewrite !fmap_app, fmap_cons, <-!app_assoc. simpl. by rewrite Permutation_middle. }
  assert (∀ i, load i (l1 ++ (idx, cred) :: l2) = (load i (l1 ++ l2) + if decide (idx = i) then 1 else 0)%nat) as Hl.
  { intros i. change ((idx, cred) :: l2) with ([(idx, cred)] ++ l2). rewrite !load_app, load_one. lia. }
  unfold release_slot. split; simpl; rewrite ?length_alter, ?Eo; try done.
  - by rewrite Hp.
  - rewrite au_waiters0. symmetry. exact (list_to_set_perm_L _ _ Hp).
  - intros i Hi. destruct (decide (idx = i)) as [->|Hne].
    + rewrite list_lookup_alter_eq, au_inflight0, Hl, decide_True by done. simpl. f_equal. lia.
    + rewrite list_lookup_alter_ne, au_inflight0, Hl, decide_False by done. f_equal. lia.
  - intros i. specialize (au_load0 i). rewrite Hl in au_load0. lia.
  - apply Forall_app in au_indices0 as [H1 H2]. apply Forall_cons in H2 as [_ H2]. by apply Forall_app.
Qed.

(** A deadline of at most eighteen digits. *)
Definition nanos_fit (m : HelperMessage) : Prop := ∀ s, get (lit "not_after") m = Some s → (length s ≤ 18)%nat.
Definition event_fits (e : auth_event) : Prop := match e with Replies _ _ m _ _ _ => nanos_fit m | _ => True end.

Lemma positive_expiry_fits t m : nanos_fit m → ∃ e, positive_expiry cfg t m = Ok e.
Proof.
  intros Hm. unfold positive_expiry. destruct (get (lit "not_after") m) as [s|] eqn:E; [|by eexists].
  specialize (Hm s E). unfold ParseNanos. destruct s as [|c s]; [by eexists|].
  destruct (i64_digits_short (c :: s) 0 0) as [r ->]; [done|lia|]. by eexists.
Qed.

Lemma on_response_ok k idx cred ok m t t1 t2 a :
  auth_core [] a → ac_outstanding a !! k = Some (idx, cred) →
  match on_response PC NC cfg idx cred ok m t t1 t2
          (set_helpers PC NC (ac_helper_requests a) (ac_dead a) (delete k (ac_outstanding a)) a) with
  | Ok a' => auth_core [] a' ∧ busy a'
  | Err _ => ¬ nanos_fit m
  end.
Proof.
  intros Hc Hk. pose proof (release_core k idx cred a Hc Hk) as H1. unfold on_response.
  apply (note_core _ _ [Replied cred ok m t]) in H1; [|done|by apply Forall_singleton].
  set (a1 := note _ _ _ _) in *. assert (Replied cred ok m t ∈ ac_log a1) as Hlog by (simpl; set_solver). clearbody a1.
  assert (∀ allow user a2, auth_core [cred] a2 →
      (allow = true → ∃ e, granted (cfg_positive_ttl_ns cfg) (ac_log a2) cred user e) →
    match drain_pending PC NC cfg (fan_out PC NC cred allow user a2) with
    | Ok a' => auth_core [] a' ∧ busy a' | Err _ => ¬ nanos_fit m end) as Hend.
  { intros allow user a2 H2 Hg. destruct (fan_out_core cred [] allow user a2 H2 Hg) as (H3 & _).
    destruct (drain_pending_ok _ _ H3 (le_n _)) as (a' & -> & ? & ? & _). done. }
  destruct ok; cbn [negb]; [|apply Hend; done].
  destruct (au_caches _ _ H1) as [Hp Hn]. pose proof (granted_user_spec m) as Hg. destruct (granted_user m) as [user|].
  - destruct (positive_expiry cfg t m) as [expiry|] eqn:Ee.
    2: { intros Hm. destruct (positive_expiry_fits t m Hm) as [e' He]. congruence. }
    assert (granted (cfg_positive_ttl_ns cfg) (ac_log a1) cred user expiry) as Hgr
      by (exists m, t; split_and!; [done..|by apply positive_expiry_lives]).
    cbn [mbind res_bind]. destruct (cache_insert_ok PC t1 t2 cred user expiry _ Hp) as (p & -> & Hp' & Hsub).
    cbn [mbind res_bind]. apply Hend; [|by eexists]. apply (caches_core _ p (ac_negative a1) _ H1); try done.
    + intros k' v' e' [H%(au_positive _ _ H1)|[= -> -> ->]]%Hsub; done.
    + intros k' v' e' H%(au_negative _ _ H1). done.
  - destruct (cache_insert_ok NC t1 t2 cred "" (t + cfg_negative_ttl_ns cfg) _ Hn) as (n & -> & Hn' & Hsub).
    cbn [mbind res_bind]. apply Hend; [|done]. apply (caches_core _ (ac_positive a1) n _ H1); try done.
    + intros k' v' e' H%(au_positive _ _ H1). done.
    + intros k' v' e' [H%(au_negative _ _ H1)|[= -> -> ->]]%Hsub; [done|]. by exists m, t.
Qed.

Lemma Create_core : auth_core [] (Create PC NC cfg).
Proof.
  destruct (empty_cache_ok PC) as [Hp1 Hp2], (empty_cache_ok NC) as [Hn1 Hn2]. unfold Create.
  split; simpl; rewrite ?length_replicate; try done; try lia.
  - by intros k v e H%Hp2.
  - by intros k v e H%Hn2.
  - constructor.
  - intros i Hi. by rewrite lookup_replicate_2.
  - intros i. unfold load. simpl. lia.
Qed.

Lemma auth_step_ok e a :
  auth_core [] a → busy a →
  match auth_step PC NC cfg a e with Ok a' => auth_core [] a' ∧ busy a' | Err _ => ¬ event_fits e end.
Proof.
  intros Hc Hb. destruct e as [t1 t2 cred cb|k ok m t t1 t2|idx]; cbn [auth_step event_fits].
  - destruct (resolve_ok t1 t2 cred cb a Hc Hb) as (a' & -> & ?). done.
  - destruct (ac_outstanding a !! k) as [[idx cred]|] eqn:Ek; [by apply on_response_ok|done].
  - by destruct Hc.
Qed.

Lemma auth_session_ok es :
  Forall event_fits es → ∃ a, auth_session PC NC cfg es = Ok a ∧ auth_core [] a ∧ busy a.
Proof.
  unfold auth_session. assert (busy (Create PC NC cfg)) as Hb by (by intros []).
  pose proof Create_core as Hc. revert Hc Hb. generalize (Create PC NC cfg).
  induction es as [|e es IH]; intros a Hc Hb Hes; [by exists a|]. apply Forall_cons in Hes as [He Hes].
  pose proof (auth_step_ok e a Hc Hb) as H1. cbn [res_foldl].
  destruct (auth_step PC NC cfg a e) as [a1|]; [|done]. destruct H1. by apply IH.
Qed.

(** ** What an event adds to the log *)

(** The requests that came back. *)
Definition replies (l : list AuthEffect) : list (string * bool * HelperMessage * Z) :=
  omap (λ x, match x with Replied cred ok m t => Some (cred, ok, m, t) | _ => None end) l.

Definition adds (cs : list (nat * string)) (rs : list (string * bool * HelperMessage * Z)) a a' : Prop :=
  ∃ l, ac_log a' = ac_log a ++ l ∧ calls l = cs ∧ replies l = rs.

Lemma adds_field a a' : ac_log a' = ac_log a → adds [] [] a a'.
Proof. intros E. exists []. by rewrite app_nil_r. Qed.
Lemma adds_more cs rs a1 a2 a3 : adds cs rs a1 a2 → adds [] [] a2 a3 → adds cs rs a1 a3.
Proof.
  intros (l & E1 & <- & <-) (l' & E2 & E3 & E4). exists (l ++ l'). unfold calls, replies in *.
  by rewrite E2, E1, app_assoc, !omap_app, E3, E4, !app_nil_r.
Qed.

Lemma adds_fan_out cred ok user a : adds [] [] a (fan_out PC NC cred ok user a).
Proof.
  unfold fan_out. case_match; [|by apply adds_field].
  match goal with |- adds _ _ _ (note _ _ ?l _) => exists l end. rewrite (proj2 (answers_of _ _ _ _ _)).
  split; [done|]. split; [done|]. clear. induction l as [|cb cbs IH]; [done|]. exact IH.
Qed.

Lemma adds_dispatch_via drain idx cred a a' :
  (∀ a a', drain a = Ok a' → adds [] [] a a') → dispatch_via PC NC drain idx cred a = Ok a' → adds [] [] a a'.
Proof.
  intros Hd. unfold dispatch_via. case_decide.
  - intros Hr%Hd. eapply adds_more; [|exact Hr]. eapply adds_more; [|apply adds_fan_out]. by exists [Sent idx cred].
  - intros [= <-]. by exists [Sent idx cred].
Qed.

Lemma free_helper_log a idx a' : free_helper PC NC cfg a = Some (idx, a') → ac_log a' = ac_log a.
Proof. unfold free_helper. destruct (free_from _ _ _ _ _ _); [|done]. by intros [= <- <-]. Qed.

Lemma adds_drain_pool fuel : ∀ a a', drain_pool PC NC cfg fuel a = Ok a' → adds [] [] a a'.
Proof.
  induction fuel as [|fuel IH]; intros a a' H; [done|]. cbn [drain_pool] in H.
  destruct (ac_pending a) as [|cred rest]; [injection H as <-; by apply adds_field|].
  destruct (free_helper PC NC cfg a) as [[idx a1]|] eqn:Ef; [|injection H as <-; by apply adds_field].
  apply bind_Ok in H as (a2 & H1%(adds_dispatch_via _ _ _ _ _ IH) & H2%IH).
  eapply adds_more; [|exact H2]. eapply adds_more; [|exact H1]. apply adds_field. exact (free_helper_log _ _ _ Ef).
Qed.

Definition event_calls (e : auth_event) : list (nat * string) :=
  match e with Resolves _ _ cred cb => [(cb, cred)] | _ => [] end.
(** A request comes back with success only from a helper that is there. *)
Definition event_replies a (e : auth_event) : list (string * bool * HelperMessage * Z) :=
  match e with
  | Replies k ok m t _ _ =>
      match ac_outstanding a !! k with
      | Some (idx, cred) => [(cred, ok && negb (bool_decide (idx ∈ ac_dead a)), m, t)]
      | None => []
      end
  | _ => []
  end.

Lemma auth_step_adds e a a' : auth_step PC NC cfg a e = Ok a' → adds (event_calls e) (event_replies a e) a a'.
Proof.
  destruct e as [t1 t2 cred cb|k ok m t t1 t2|idx]; simpl.
  - unfold resolve. intros ([hit p] & _ & H)%bind_Ok.
    apply (adds_more _ _ _ (note PC NC [Called cb cred] a)); [by exists [Called cb cred]|].
    destruct hit as [user|]; [injection H as <-; by exists [Answered cb cred true user (Some t1)]|].
    apply bind_Ok in H as ([no n] & _ & H).
    destruct no; [injection H as <-; by exists [Answered cb cred false "" (Some t2)]|]. cbv zeta in H.
    case_match; [injection H as <-; by apply adds_field|].
    destruct (free_helper PC NC cfg _) as [[idx a1]|] eqn:Ef; [|injection H as <-; by apply adds_field].
    apply (adds_dispatch_via _ _ _ _ _ (adds_drain_pool _)) in H. eapply adds_more; [|exact H]. apply adds_field.
    exact (free_helper_log _ _ _ Ef).
  - destruct (ac_outstanding a !! k) as [[idx cred]|]; [|intros [= <-]; by apply adds_field]. unfold on_response.
    intros ([[allow user] a1] & H1 & H2%adds_drain_pool)%bind_Ok.
    eapply adds_more; [|exact H2]. eapply adds_more; [|apply adds_fan_out]. revert H1.
    case_match; [intros [= <- <- <-]; by eexists [_]|].
    case_match; [intros (e & _ & (c & _ & [= <- <- <-])%bind_Ok)%bind_Ok|intros (c & _ & [= <- <- <-])%bind_Ok]; by eexists [_].
  - intros [= <-]. by apply adds_field.
Qed.

(** The session [es] has a successful reply [m], at [t], to a request for [cred]
    that was at a helper that was there. *)
Definition reply_in (es : list auth_event) (cred : string) (m : HelperMessage) (t : Z) : Prop :=
  ∃ es1 k t1 t2 es2 a idx, es = es1 ++ Replies k true m t t1 t2 :: es2 ∧ auth_session PC NC cfg es1 = Ok a ∧
    ac_outstanding a !! k = Some (idx, cred) ∧ idx ∉ ac_dead a.

Lemma replied_in es : ∀ a cred m t,
  auth_session PC NC cfg es = Ok a → Replied cred true m t ∈ ac_log a → reply_in es cred m t.
Proof.
  induction es as [|e es IH] using rev_ind; intros a cred m t Hrun Hin.
  { injection Hrun as <-. by apply elem_of_nil in Hin. }
  unfold auth_session in Hrun. rewrite res_foldl_app in Hrun. apply bind_Ok in Hrun as (a1 & H1 & H2).
  cbn [res_foldl] in H2. apply bind_Ok in H2 as (a2 & H2 & [= <-]).
  destruct (auth_step_adds _ _ _ H2) as (l & El & _ & Er). rewrite El in Hin. apply elem_of_app in Hin as [Hin|Hin].
  - destruct (IH _ _ _ _ H1 Hin) as (es1 & k & t1 & t2 & es2 & a' & idx & -> & H).
    exists es1, k, t1, t2, (es2 ++ [e]), a', idx. by rewrite <-app_assoc.
  - assert ((cred, true, m, t) ∈ event_replies a1 e) as He
      by (rewrite <-Er; apply list_elem_of_omap; by eexists).
    destruct e as [|k ok m' t' t1 t2|]; simpl in He; [by apply elem_of_nil in He| |by apply elem_of_nil in He].
    destruct (ac_outstanding a1 !! k) as [[idx cred']|] eqn:Ek; [|by apply elem_of_nil in He].
    apply list_elem_of_singleton in He as [= -> Hok -> ->]. symmetry in Hok. apply andb_true_iff in Hok as [-> Hd].
    apply negb_true_iff, bool_decide_eq_false in Hd. by exists es, k, t1, t2, [], a1, idx.
Qed.
End Inv.

(** C24: authentication.  Over any session (resolutions, replies in any order
    whose deadlines have at most eighteen digits, failures, helpers dying), with
    any caches that keep their promise, the client returns; every resolution is
    answered once or still waits; a user is granted only after a successful reply
    of a live helper to a request for that very credential, whose status was "ok"
    and which named that user, a well-formed UUID, and from the cache only before
    the grant expires (the configured time, or its own deadline if earlier); a
    refusal comes from the cache only after such a reply that granted nobody, and
    for the configured time; a credential is never at two helpers or queued twice
    at the same time; no helper has more than the configured number of requests;
    and a credential is queued only while every helper has that number, so that
    some reply will free a slot. *)
Theorem auth_sound PC NC cfg es :
  Forall event_fits es →
  ∃ a, auth_session PC NC cfg es = Ok a ∧
    calls (ac_log a) ≡ₚ answers (ac_log a) ++ waiting (ac_waiters a) ∧
    (∀ i cb cred user cached, ac_log a !! i = Some (Answered cb cred true user cached) →
       ∃ m t e, Replied cred true m t ∈ take i (ac_log a) ∧ reply_in PC NC cfg es cred m t ∧
         grants m user ∧ lives (cfg_positive_ttl_ns cfg) t m e ∧ (∀ now, cached = Some now → now < e)) ∧
    (∀ i cb cred user now, ac_log a !! i = Some (Answered cb cred false user (Some now)) →
       ∃ m t, Replied cred true m t ∈ take i (ac_log a) ∧ reply_in PC NC cfg es cred m t ∧
         (∀ u, ¬ grants m u) ∧ now < t + cfg_negative_ttl_ns cfg) ∧
    NoDup ((ac_outstanding a).*2 ++ ac_pending a) ∧
    dom (ac_waiters a) = list_to_set ((ac_outstanding a).*2 ++ ac_pending a) ∧
    (∀ i, load i (ac_outstanding a) ≤ cfg_depth cfg)%nat ∧
    (ac_pending a ≠ [] → ∀ i, (i < Nat.max 1 (cfg_concurrency cfg))%nat → load i (ac_outstanding a) = cfg_depth cfg).
Proof.
  intros Hes. destruct (auth_session_ok PC NC cfg es Hes) as (a & Hrun & [] & Hb). exists a.
  assert (∀ i cred m t, Replied cred true m t ∈ take i (ac_log a) → reply_in PC NC cfg es cred m t) as Hin.
  { intros i cred m t H. eapply replied_in; [exact Hrun|]. eapply elem_of_subseteq; [|exact H].
    apply sublist_subseteq, sublist_take. }
  split_and!; try done.
  - intros i cb cred user cached Hi. destruct (au_sound0 i _ Hi) as (e & (m & t & H1 & H2 & H3) & H4).
    exists m, t, e. split_and!; [done|by eapply Hin|done..].
  - intros i cb cred user now Hi. destruct (au_sound0 i _ Hi) as (e & (m & t & H1 & H2 & ->) & H4).
    exists m, t. split_and!; [done|by eapply Hin|done..].
  - intros Hne i Hi. specialize (Hb Hne). rewrite Forall_lookup in Hb. rewrite <-au_pool0 in Hi.
    by apply (Hb i), au_inflight0.
Qed.

(** The program's client: token caches, two helpers of one request each.  Two
    resolutions of one token share a request, a third waits for a slot; the
    grant is cached until its deadline. *)
Definition sample_config : AuthConfig := mkAuthConfig 2 1 1000 500.
Definition sample_auth (es : list auth_event) : option (list AuthEffect * list string) :=
  match auth_session (token_cache 10 0 4) (token_cache 10 0 4) sample_config es with
  | Ok a => Some (ac_log a, ac_pending a)
  | Err _ => None
  end.
Definition alice : string := "0f8fad5b-d9cb-469f-a165-70867728950e".
Definition grant (user not_after : string) : HelperMessage :=
  mkMessage 1 (lit "ok") [(lit "status", lit "ok"); (lit "user", lit user); (lit "not_after", lit not_after)].
Definition refuse : HelperMessage := mkMessage 1 (lit "ok") [(lit "status", lit "denied")].

Definition sample_auth_events : list auth_event :=
  [Resolves 0 0 "tok" 1; Resolves 1 1 "tok" 2; Resolves 2 2 "bad" 3; Resolves 3 3 "late" 4;
               Replies 0 true (grant alice "90") 10 10 10; Replies 0 true refuse 20 20 20;
               Resolves 80 80 "tok" 5; Resolves 90 90 "tok" 6].
Definition sample_auth_log : list AuthEffect :=
  [Called 1 "tok"; Sent 0 "tok"; Called 2 "tok"; Called 3 "bad"; Sent 1 "bad"; Called 4 "late";
         Replied "tok" true (grant alice "90") 10; Answered 1 "tok" true alice None; Answered 2 "tok" true alice None; Sent 0 "late";
         Replied "bad" true refuse 20; Answered 3 "bad" false "" None;
         Called 5 "tok"; Answered 5 "tok" true alice (Some 80); Called 6 "tok"; Sent 1 "tok"].

Lemma sample_auth_runs : sample_auth sample_auth_events = Some (sample_auth_log, []).
Proof. by vm_compute. Qed.

Lemma auth_sound_witness :
  ∃ a, auth_session (token_cache 10 0 4) (token_cache 10 0 4) sample_config sample_auth_events = Ok a ∧
    ac_log a = sample_auth_log ∧ calls (ac_log a) ≡ₚ answers (ac_log a) ++ waiting (ac_waiters a) ∧
    ∃ m t, reply_in (token_cache 10 0 4) (token_cache 10 0 4) sample_config sample_auth_events "tok" m t ∧ grants m alice.
Proof.
  destruct (auth_sound (token_cache 10 0 4) (token_cache 10 0 4) sample_config sample_auth_events)
    as (a & Ha & Hp & Hg & _).
  { repeat (apply Forall_cons; split); [..|apply Forall_nil; exact I]; try exact I;
      intros s Hs; apply Nat.leb_le; vm_compute in Hs; by simplify_eq. }
  assert (ac_log a = sample_auth_log) as Hl.
  { pose proof sample_auth_runs as H. unfold sample_auth in H. rewrite Ha in H. congruence. }
  exists a. split_and!; [exact Ha|exact Hl|exact Hp|].
  destruct (Hg 13%nat 5%nat "tok"%string alice (Some 80)) as (m & t & e & _ & Hr & Hm & _); [by rewrite Hl|].
  exists m, t. by split.
Defined.

(** A helper that died stays in the rotation: it has no request in flight, so it
    is always free, and what is sent to it is denied at once, although another
    helper is idle; while the others are full, everything is denied. *)
Lemma dead_helper_denies :
  sample_auth [HelperDies 0; Resolves 0 0 "tok" 1; Resolves 1 1 "tok" 2; Resolves 2 2 "tok2" 3; Resolves 3 3 "tok3" 4] =
  Some ([Called 1 "tok"; Sent 0 "tok"; Answered 1 "tok" false "" None;
         Called 2 "tok"; Sent 1 "tok";
         Called 3 "tok2"; Sent 0 "tok2"; Answered 3 "tok2" false "" None;
         Called 4 "tok3"; Sent 0 "tok3"; Answered 4 "tok3" false "" None], []).
Proof. by vm_compute. Qed.

(** A deadline of 2^63 nanoseconds or more is signed overflow. *)
Lemma deadline_overflows :
  match auth_session (token_cache 10 0 4) (token_cache 10 0 4) sample_config
          [Resolves 0 0 "tok" 1; Replies 0 true (grant alice "9223372036854775808") 10 10 10] with
  | Err e => Some e
  | Ok _ => None
  end = Some Overflow.
Proof. by vm_compute. Qed.
