(* ===== verification/EngineTotal.v ===== *)
(** * What the matching engine promises its callers

    Every call of a reachable engine returns, with the obligations of the call
    met; the engine stays reachable; and the ids in its books are those it had
    and, for an accepted order, the order's own. *)

From S2P Require Import Prelude.
From S2P Require Import Order.
From S2P Require Import Ladder.
From S2P Require Import Book.
From S2P Require Import BookInv.
From S2P Require Import BookRest.
From S2P Require Import BookFlow.
From S2P Require Import BookAuction.
From S2P Require Import BookSubmit.
From S2P Require Import BookProps.
From S2P Require Import MatchingEngine.

(** How often the id [i] lives in the book of [sym]. *)
Definition engine_occ (e : MatchingEngine) (sym : Symbol) (i : OrderId) : nat :=
  match e_books e !! sym with Some b => occ b i | None => 0%nat end.

(** The engine stays reachable, with no ids beyond its own and [P]. *)
Record grows (P : Symbol → OrderId → Prop) (e e' : MatchingEngine) : Prop := mkGrows {
  gr_reach : engine_reachable e';
  gr_mem : e_mem_levels e' = e_mem_levels e;
  gr_occ : ∀ s j, engine_occ e' s j ≠ 0%nat → engine_occ e s j ≠ 0%nat ∨ P s j;
}.
Definition nothing (s : Symbol) (j : OrderId) : Prop := False.

Lemma grows_refl e : engine_reachable e → grows nothing e e.
Proof. intros H. split; [done..|]. by left. Qed.
Lemma grows_trans P e1 e2 e3 : grows P e1 e2 → grows nothing e2 e3 → grows P e1 e3.
Proof.
  intros [A1 A2 A3] [B1 B2 B3]. split; [done|congruence|]. intros s j Hj. by destruct (B3 s j Hj) as [?%A3|[]].
Qed.

Lemma occ_new policy mem i : occ (new_book policy mem) i = 0%nat.
Proof. unfold occ, present. simpl. by rewrite !lookup_empty, map_sum_empty. Qed.

Lemma book_for_occ sym e i : occ (book_for sym e).1 i = engine_occ e sym i.
Proof.
  unfold book_for, engine_occ. destruct (e_books e !! sym); [done|]. simpl.
  unfold seed_next_seq. case_if; apply (occ_new (e_stp e) (e_mem_levels e)).
Qed.

(** A call on one book, through the step it is. *)
Lemma grows_update P sym b b' e1 e :
  engine_step e (update_book sym b b' e1) → engine_reachable e →
  (∀ s, s ≠ sym → e_books e1 !! s = e_books e !! s) →
  (∀ j, occ b' j ≠ 0%nat → engine_occ e sym j ≠ 0%nat ∨ P sym j) →
  grows P e (update_book sym b b' e1).
Proof.
  intros Hst HR Hoth Hocc. split.
  - by eapply er_step.
  - by apply engine_step_frame.
  - intros s j. unfold engine_occ at 1. rewrite update_book_books. destruct (decide (s = sym)) as [->|Hne].
    + rewrite lookup_insert_eq. apply Hocc.
    + rewrite lookup_insert_ne, Hoth by done. by left.
Qed.

Section Calls.
Context (sym : Symbol) (e : MatchingEngine).
Hypothesis HR : engine_reachable e.

Lemma book_for_facts :
  let b := (book_for sym e).1 in
  WF b ∧ mem_levels b = e_mem_levels e ∧
  (∀ s, s ≠ sym → e_books (book_for sym e).2 !! s = e_books e !! s) ∧
  e_books (book_for sym e).2 !! sym = Some b.
Proof.
  destruct (engine_reachable_ok e HR) as [He _]. pose proof (book_for_ok sym e He) as Hb.
  destruct (book_for sym e) as [b e1]. destruct Hb as (_ & Hl & (Hr & _ & _ & Hm) & Ho & _ & Hm').
  simpl. split_and!; [by apply reachable_WF|congruence|done..].
Qed.

Lemma engine_submit_total o :
  submittable o → engine_occ e sym (o_id o) = 0%nat →
  ∃ out e', engine_submit sym o e = Ok (out, e') ∧ grows (λ s j, s = sym ∧ j = o_id o) e e'.
Proof.
  intros Hsub Hocc. destruct book_for_facts as (HW & _ & Ho & _). rewrite <-book_for_occ in Hocc.
  destruct (submit_returns o (book_for sym e).1 HW Hsub Hocc) as (out & b' & Hs & _ & Ha & _).
  assert (engine_submit sym o e = Ok (out, update_book sym (book_for sym e).1 b' (book_for sym e).2)) as Hes.
  { unfold engine_submit, call_book. destruct (book_for sym e). simpl in *. by rewrite Hs. }
  eexists out, _. split; [exact Hes|]. apply grows_update; [by eapply es_submit|done..|].
  intros j Hj. rewrite <-book_for_occ. specialize (Ha j). case_decide; [by right|left; lia].
Qed.

Lemma engine_cancel_total i :
  ∃ r e', engine_cancel sym i e = Ok (r, e') ∧ grows nothing e e' ∧ engine_find sym i e' = None.
Proof.
  unfold engine_cancel. destruct (e_books e !! sym) as [b|] eqn:Hb.
  2:{ exists false, e. split_and!; [done|by apply grows_refl|]. unfold engine_find, book_of. by rewrite Hb. }
  destruct (engine_reachable_ok e HR) as [He _]. destruct (eo_books _ He _ _ Hb) as [Hr _].
  destruct (cancel_ok i b (reachable_WF _ Hr)) as (r & b' & Hc & _ & Hmv & Hgone & _).
  exists r, (update_book sym b b' e). assert (engine_cancel sym i e = Ok (r, update_book sym b b' e)) as Hec.
  { unfold engine_cancel, call_book. by rewrite Hb, Hc. }
  split_and!; [unfold call_book; by rewrite Hc| |].
  - apply grows_update; [by eapply es_cancel|done..|].
    intros j Hj. left. unfold engine_occ. rewrite Hb. pose proof (mv_occ _ _ Hmv j). lia.
  - unfold engine_find, book_of. rewrite update_book_books, lookup_insert_eq. cbn [mbind option_bind]. unfold find.
    assert (orders b' !! i = None) as ->; [|done].
    destruct r; [destruct Hgone as [_ Hz]; by apply occ_fresh in Hz as [? _]|by destruct Hgone as (-> & ? & _)].
Qed.

Lemma engine_auction_total (opening : bool) :
  ∃ ts e', (if opening then engine_run_opening_auction sym e else engine_run_closing_auction sym e) = Ok (ts, e') ∧
           grows nothing e e'.
Proof.
  destruct book_for_facts as (HW & _ & Ho & _).
  destruct (cross_auction_ok opening _ HW) as (ts & b' & Hc & HA).
  exists ts, (update_book sym (book_for sym e).1 b' (book_for sym e).2).
  assert ((if opening then engine_run_opening_auction sym e else engine_run_closing_auction sym e) =
          Ok (ts, update_book sym (book_for sym e).1 b' (book_for sym e).2)) as Hes.
  { destruct opening; [unfold engine_run_opening_auction, run_opening_auction|
                       unfold engine_run_closing_auction, run_closing_auction];
    unfold call_book; destruct (book_for sym e); simpl in *; by rewrite Hc. }
  split; [done|]. apply grows_update; [destruct opening; by econstructor|done..|].
  intros j Hj. left. rewrite <-book_for_occ. pose proof (mv_occ _ _ (ao_moved _ _ _ _ HA) j). lia.
Qed.

Lemma engine_take_requeued_grows : grows nothing e (engine_take_requeued sym e).2.
Proof.
  pose proof (es_take_requeued sym e) as Hst. unfold engine_take_requeued in *.
  destruct (e_books e !! sym) as [b|] eqn:Hb; [|by apply grows_refl]. simpl in *.
  apply grows_update; [done..|]. intros j Hj. left. unfold engine_occ. by rewrite Hb.
Qed.

Lemma engine_take_requeued_find j :
  engine_find sym j (engine_take_requeued sym e).2 = engine_find sym j e.
Proof.
  unfold engine_take_requeued, engine_find, book_of. destruct (e_books e !! sym) as [b|] eqn:Hb; simpl; [|by rewrite Hb].
  by rewrite update_book_books, lookup_insert_eq.
Qed.

Lemma engine_seed_position_grows c n : grows nothing e (engine_seed_position sym c n e).
Proof.
  pose proof (es_seed_position sym c n e) as Hst. destruct book_for_facts as (HW & _ & Ho & _).
  pose proof (book_for_occ sym e) as Hbo. unfold engine_seed_position in *.
  destruct (book_for sym e) as [b e1]. simpl in *. apply grows_update; [done..|].
  intros j Hj. left. rewrite <-Hbo. unfold seed_position in Hj. by destruct (c =? 0).
Qed.

Lemma set_seq_base_grows n : grows nothing e (set_seq_base n e).
Proof.
  split; [by eapply er_step, es_seq_base|done|]. intros s j. unfold engine_occ. simpl. rewrite lookup_fmap.
  destruct (e_books e !! s) as [b|]; simpl; [|done]. unfold seed_next_seq. case_if; by left.
Qed.

Lemma engine_insert_resident_grows o :
  order_ok o → engine_occ e sym (o_id o) = 0%nat → e_mem_levels e ≠ 0%nat →
  grows (λ s j, s = sym ∧ j = o_id o) e (engine_insert_resident sym o e) ∧
  (∀ j, engine_find sym j (engine_insert_resident sym o e) =
        if decide (j = o_id o) then Some o else engine_find sym j e).
Proof.
  intros Ho Hocc Hm. destruct book_for_facts as (HW & Hml & Hoth & Hsym). rewrite <-book_for_occ in Hocc.
  pose proof (es_insert_resident sym o e Ho Hocc Hm) as Hst. rewrite <-Hml in Hm.
  destruct (occ_fresh _ _ Hocc) as [Hf _].
  destruct (insert_resident_ok o _ (wf_core _ HW) Ho Hf Hm) as (_ & Hcold & Hor).
  pose proof (book_for_occ sym e) as Hbo.
  assert (∀ j, engine_find sym j e = find j (book_for sym e).1) as Hfind.
  { intros j. unfold engine_find, book_of, book_for. destruct (e_books e !! sym); [done|]. simpl.
    unfold find, seed_next_seq. by case_if. }
  unfold engine_insert_resident in *. destruct (book_for sym e) as [b e1]. cbn [fst snd] in *. split.
  - apply grows_update; [done..|]. intros j Hj. rewrite <-Hbo.
    assert (grown (o_id o) b (insert_resident o b)) as Hg.
    { split; [done|]. intros k. rewrite Hor, lookup_insert_is_Some'. intuition. }
    pose proof (occ_grown _ _ _ j Hg). case_decide; [by right|left; lia].
  - intros j. rewrite Hfind. unfold engine_find, book_of. rewrite update_book_books, lookup_insert_eq.
    cbn [mbind option_bind]. unfold find. rewrite Hor. case_decide as Hj; [subst; by rewrite lookup_insert_eq|by rewrite lookup_insert_ne].
Qed.
End Calls.
