(* ===== verification/TradingEngine.v ===== *)
(** * The trading engine ([engine/trading_engine.cc])

    The coordinator around the matching engine and the storage client: an order
    is reported to storage first and placed, in arrival order, when storage has
    acknowledged it, its account's position is known and the resident window
    covers its reach.

    The storage client is asynchronous.  A request that carries a callback leaves
    a [Waiter] (what the callback captures) in [t_waiting]; [answer] is the
    callback's body, run when the reply arrives, in any order, each once.  When
    the helper process is gone ([t_dead]) the helper client runs the callback
    with a failure before the call returns.  [t_log] records what crosses the
    engine's boundary, in order: requests to storage, replies, results delivered.
    Generated UUIDs are arguments. *)

From S2P Require Import Prelude.
From S2P Require Import Order.
From S2P Require Import Book.
From S2P Require Import MatchingEngine.

(** ** Storage requests and replies *)

Record PulledOrder := mkPulled {
  po_id : OrderId;
  po_price : Ticks;
  po_leaves : Quantity;
  po_seq : SeqNo;
}.

Inductive StorageCall :=
  | ReportOrder (sym : Symbol) (owner : string) (i : OrderId) (s : Side) (p : Ticks) (q : Quantity)
  | ReportTrade (sym : Symbol) (taker maker : OrderId) (p : Ticks) (q : Quantity)
  | ReportFill (sym : Symbol) (i : OrderId) (q remaining : Quantity) (complete : bool)
  | ReportRest (sym : Symbol) (s : Side) (i : OrderId) (p : Ticks) (leaves : Quantity) (seq : SeqNo)
  | ReportCancel (sym : Symbol) (i : OrderId)
  | PullLevels (sym : Symbol) (s : Side) (from_price count : Z)
  | PullPosition (user : string) (sym : Symbol)
  | PullWatermarks
  | CommitAll.

(** The callbacks the engine passes, by what they capture. *)
Inductive Waiter :=
  | OnOrder (seq : SeqNo)
  | OnReport
  | OnLevels (sym : Symbol) (s : Side)
  | OnPosition (sym : Symbol) (c : ClientId)
  | OnWatermarks.
#[export] Instance Waiter_eq_dec : EqDecision Waiter.
Proof. solve_decision. Defined.

(** What a callback is called with; the fields it does not use are ignored. *)
Record Reply := mkReply {
  rp_ok : bool;
  rp_orders : list PulledOrder;
  rp_net : Quantity;
  rp_max_id : OrderId;
  rp_max_rank : SeqNo;
}.
Definition failed : Reply := mkReply false [] 0 0 0.

(** ** State *)

Inductive CancelResult := kOk | kNotFound | kForbidden.

Record Result := mkResult {
  r_storage_ok : bool;
  r_order_id : OrderId;
  r_order_uuid : string;
  r_outcome : SubmitOutcome;
}.

Record Handle := mkHandle {
  h_symbol : Symbol;
  h_id : OrderId;
  h_owner : string;
}.

Record Pending := mkPending {
  p_symbol : Symbol;
  p_owner : string;
  p_order_uuid : string;
  p_order : Order;
  p_cb : option nat;
  p_client_id : ClientId;
  p_acked : bool;
  p_ok : bool;
  p_pos_ready : bool;
}.

(** [Delivered]: the result of the pending order [seq], passed to its callback
    if it has one, which finds the matching engine as it is then. *)
Inductive Effect :=
  | Asked (c : StorageCall)
  | Got (w : Waiter) (r : Reply)
  | Delivered (seq : SeqNo) (cb : option nat) (r : Result) (m : MatchingEngine)
  | Seeded.

Record TradingEngine := mkTrading {
  t_matching : MatchingEngine;
  t_pending : gmap SeqNo Pending;
  t_handles : gmap string Handle;
  t_id_uuid : gmap OrderId string;
  t_user_client : gmap string ClientId;
  t_position_loaded : gset (Symbol * ClientId);
  t_position_loading : gset (Symbol * ClientId);
  t_mem_levels : nat;
  t_warmed : gset Symbol;
  t_depth_pulls : Z;
  t_pull_ignore : gset OrderId;
  t_next_assign_seq : SeqNo;
  t_next_place_seq : SeqNo;
  t_next_order_id : OrderId;
  t_next_client_id : ClientId;
  t_report_failures : Z;
  t_dead : bool;
  t_waiting : list Waiter;
  t_log : list Effect;
}.

(** Field assignment. *)
Definition set_t_matching v (x : TradingEngine) : TradingEngine :=
  mkTrading v (t_pending x) (t_handles x) (t_id_uuid x) (t_user_client x) (t_position_loaded x)
    (t_position_loading x) (t_mem_levels x) (t_warmed x) (t_depth_pulls x) (t_pull_ignore x)
    (t_next_assign_seq x) (t_next_place_seq x) (t_next_order_id x) (t_next_client_id x)
    (t_report_failures x) (t_dead x) (t_waiting x) (t_log x).
Definition set_t_pending v (x : TradingEngine) : TradingEngine :=
  mkTrading (t_matching x) v (t_handles x) (t_id_uuid x) (t_user_client x) (t_position_loaded x)
    (t_position_loading x) (t_mem_levels x) (t_warmed x) (t_depth_pulls x) (t_pull_ignore x)
    (t_next_assign_seq x) (t_next_place_seq x) (t_next_order_id x) (t_next_client_id x)
    (t_report_failures x) (t_dead x) (t_waiting x) (t_log x).
Definition set_t_handles v (x : TradingEngine) : TradingEngine :=
  mkTrading (t_matching x) (t_pending x) v (t_id_uuid x) (t_user_client x) (t_position_loaded x)
    (t_position_loading x) (t_mem_levels x) (t_warmed x) (t_depth_pulls x) (t_pull_ignore x)
    (t_next_assign_seq x) (t_next_place_seq x) (t_next_order_id x) (t_next_client_id x)
    (t_report_failures x) (t_dead x) (t_waiting x) (t_log x).
Definition set_t_id_uuid v (x : TradingEngine) : TradingEngine :=
  mkTrading (t_matching x) (t_pending x) (t_handles x) v (t_user_client x) (t_position_loaded x)
    (t_position_loading x) (t_mem_levels x) (t_warmed x) (t_depth_pulls x) (t_pull_ignore x)
    (t_next_assign_seq x) (t_next_place_seq x) (t_next_order_id x) (t_next_client_id x)
    (t_report_failures x) (t_dead x) (t_waiting x) (t_log x).
Definition set_t_user_client v (x : TradingEngine) : TradingEngine :=
  mkTrading (t_matching x) (t_pending x) (t_handles x) (t_id_uuid x) v (t_position_loaded x)
    (t_position_loading x) (t_mem_levels x) (t_warmed x) (t_depth_pulls x) (t_pull_ignore x)
    (t_next_assign_seq x) (t_next_place_seq x) (t_next_order_id x) (t_next_client_id x)
    (t_report_failures x) (t_dead x) (t_waiting x) (t_log x).
Definition set_t_position_loaded v (x : TradingEngine) : TradingEngine :=
  mkTrading (t_matching x) (t_pending x) (t_handles x) (t_id_uuid x) (t_user_client x) v
    (t_position_loading x) (t_mem_levels x) (t_warmed x) (t_depth_pulls x) (t_pull_ignore x)
    (t_next_assign_seq x) (t_next_place_seq x) (t_next_order_id x) (t_next_client_id x)
    (t_report_failures x) (t_dead x) (t_waiting x) (t_log x).
Definition set_t_position_loading v (x : TradingEngine) : TradingEngine :=
  mkTrading (t_matching x) (t_pending x) (t_handles x) (t_id_uuid x) (t_user_client x)
    (t_position_loaded x) v (t_mem_levels x) (t_warmed x) (t_depth_pulls x) (t_pull_ignore x)
    (t_next_assign_seq x) (t_next_place_seq x) (t_next_order_id x) (t_next_client_id x)
    (t_report_failures x) (t_dead x) (t_waiting x) (t_log x).
Definition set_t_warmed v (x : TradingEngine) : TradingEngine :=
  mkTrading (t_matching x) (t_pending x) (t_handles x) (t_id_uuid x) (t_user_client x)
    (t_position_loaded x) (t_position_loading x) (t_mem_levels x) v (t_depth_pulls x) (t_pull_ignore
    x) (t_next_assign_seq x) (t_next_place_seq x) (t_next_order_id x) (t_next_client_id x)
    (t_report_failures x) (t_dead x) (t_waiting x) (t_log x).
Definition set_t_depth_pulls v (x : TradingEngine) : TradingEngine :=
  mkTrading (t_matching x) (t_pending x) (t_handles x) (t_id_uuid x) (t_user_client x)
    (t_position_loaded x) (t_position_loading x) (t_mem_levels x) (t_warmed x) v (t_pull_ignore x)
    (t_next_assign_seq x) (t_next_place_seq x) (t_next_order_id x) (t_next_client_id x)
    (t_report_failures x) (t_dead x) (t_waiting x) (t_log x).
Definition set_t_pull_ignore v (x : TradingEngine) : TradingEngine :=
  mkTrading (t_matching x) (t_pending x) (t_handles x) (t_id_uuid x) (t_user_client x)
    (t_position_loaded x) (t_position_loading x) (t_mem_levels x) (t_warmed x) (t_depth_pulls x) v
    (t_next_assign_seq x) (t_next_place_seq x) (t_next_order_id x) (t_next_client_id x)
    (t_report_failures x) (t_dead x) (t_waiting x) (t_log x).
Definition set_t_next_assign_seq v (x : TradingEngine) : TradingEngine :=
  mkTrading (t_matching x) (t_pending x) (t_handles x) (t_id_uuid x) (t_user_client x)
    (t_position_loaded x) (t_position_loading x) (t_mem_levels x) (t_warmed x) (t_depth_pulls x)
    (t_pull_ignore x) v (t_next_place_seq x) (t_next_order_id x) (t_next_client_id x)
    (t_report_failures x) (t_dead x) (t_waiting x) (t_log x).
Definition set_t_next_place_seq v (x : TradingEngine) : TradingEngine :=
  mkTrading (t_matching x) (t_pending x) (t_handles x) (t_id_uuid x) (t_user_client x)
    (t_position_loaded x) (t_position_loading x) (t_mem_levels x) (t_warmed x) (t_depth_pulls x)
    (t_pull_ignore x) (t_next_assign_seq x) v (t_next_order_id x) (t_next_client_id x)
    (t_report_failures x) (t_dead x) (t_waiting x) (t_log x).
Definition set_t_next_order_id v (x : TradingEngine) : TradingEngine :=
  mkTrading (t_matching x) (t_pending x) (t_handles x) (t_id_uuid x) (t_user_client x)
    (t_position_loaded x) (t_position_loading x) (t_mem_levels x) (t_warmed x) (t_depth_pulls x)
    (t_pull_ignore x) (t_next_assign_seq x) (t_next_place_seq x) v (t_next_client_id x)
    (t_report_failures x) (t_dead x) (t_waiting x) (t_log x).
Definition set_t_next_client_id v (x : TradingEngine) : TradingEngine :=
  mkTrading (t_matching x) (t_pending x) (t_handles x) (t_id_uuid x) (t_user_client x)
    (t_position_loaded x) (t_position_loading x) (t_mem_levels x) (t_warmed x) (t_depth_pulls x)
    (t_pull_ignore x) (t_next_assign_seq x) (t_next_place_seq x) (t_next_order_id x) v
    (t_report_failures x) (t_dead x) (t_waiting x) (t_log x).
Definition set_t_report_failures v (x : TradingEngine) : TradingEngine :=
  mkTrading (t_matching x) (t_pending x) (t_handles x) (t_id_uuid x) (t_user_client x)
    (t_position_loaded x) (t_position_loading x) (t_mem_levels x) (t_warmed x) (t_depth_pulls x)
    (t_pull_ignore x) (t_next_assign_seq x) (t_next_place_seq x) (t_next_order_id x)
    (t_next_client_id x) v (t_dead x) (t_waiting x) (t_log x).
Definition set_t_dead v (x : TradingEngine) : TradingEngine :=
  mkTrading (t_matching x) (t_pending x) (t_handles x) (t_id_uuid x) (t_user_client x)
    (t_position_loaded x) (t_position_loading x) (t_mem_levels x) (t_warmed x) (t_depth_pulls x)
    (t_pull_ignore x) (t_next_assign_seq x) (t_next_place_seq x) (t_next_order_id x)
    (t_next_client_id x) (t_report_failures x) v (t_waiting x) (t_log x).
Definition set_t_waiting v (x : TradingEngine) : TradingEngine :=
  mkTrading (t_matching x) (t_pending x) (t_handles x) (t_id_uuid x) (t_user_client x)
    (t_position_loaded x) (t_position_loading x) (t_mem_levels x) (t_warmed x) (t_depth_pulls x)
    (t_pull_ignore x) (t_next_assign_seq x) (t_next_place_seq x) (t_next_order_id x)
    (t_next_client_id x) (t_report_failures x) (t_dead x) v (t_log x).
Definition set_t_log v (x : TradingEngine) : TradingEngine :=
  mkTrading (t_matching x) (t_pending x) (t_handles x) (t_id_uuid x) (t_user_client x)
    (t_position_loaded x) (t_position_loading x) (t_mem_levels x) (t_warmed x) (t_depth_pulls x)
    (t_pull_ignore x) (t_next_assign_seq x) (t_next_place_seq x) (t_next_order_id x)
    (t_next_client_id x) (t_report_failures x) (t_dead x) (t_waiting x) v.

Definition new_trading (m : MatchingEngine) (mem : nat) : TradingEngine :=
  mkTrading m ∅ ∅ ∅ ∅ ∅ ∅ mem ∅ 0 ∅ 1 1 1 1 0 false [] [].

Definition log (f : Effect) (te : TradingEngine) : TradingEngine := set_t_log (t_log te ++ [f]) te.

(** ** Requests *)

(** A request without a callback. *)
Definition tell (c : StorageCall) (te : TradingEngine) : TradingEngine := log (Asked c) te.

(** The callback of trade and fill reports. *)
Definition on_report (r : Reply) (te : TradingEngine) : TradingEngine :=
  if rp_ok r then te else set_t_report_failures (t_report_failures te + 1) te.

Definition report (c : StorageCall) (te : TradingEngine) : TradingEngine :=
  let te := log (Asked c) te in
  if t_dead te then on_report failed (log (Got OnReport failed) te)
  else set_t_waiting (t_waiting te ++ [OnReport]) te.

Definition report_requeued (sym : Symbol) (te : TradingEngine) : TradingEngine :=
  let '(os, m) := engine_take_requeued sym (t_matching te) in
  foldl (λ te o, tell (ReportRest sym (o_side o) (o_id o) (o_price o) (o_leaves o) (o_rank o)) te)
    (set_t_matching m te) os.

(** [map[id] += qty], and its iteration in key order. *)
Definition add_qty (m : gmap OrderId Quantity) (i : OrderId) (q : Quantity) : gmap OrderId Quantity :=
  <[i := default 0 (m !! i) + q]> m.
Definition in_id_order (m : gmap OrderId Quantity) : list (OrderId * Quantity) := by_key m.

Definition trade_report (sym : Symbol) (t : Trade) : StorageCall :=
  ReportTrade sym (t_taker_id t) (t_maker_id t) (t_price t) (t_qty t).

(** The fill of an order that rested: what is left of it is read from the book. *)
Definition fill_report (sym : Symbol) (m : MatchingEngine) (x : OrderId * Quantity) : StorageCall :=
  let o := engine_find sym x.1 m in
  ReportFill sym x.1 x.2 (from_option o_leaves 0 o) (bool_decide (o = None)).

Definition report_results (sym : Symbol) (taker : Order) (out : SubmitOutcome) (te : TradingEngine)
    : TradingEngine :=
  let te := foldl (λ te t, report (trade_report sym t) te) te (out_trades out) in
  let te :=
    if 0 <? out_filled out then
      let remaining := o_qty taker - out_filled out in
      report (ReportFill sym (o_id taker) (out_filled out) remaining (remaining =? 0)) te
    else te in
  let maker_filled := foldl (λ m t, add_qty m (t_maker_id t) (t_qty t)) ∅ (out_trades out) in
  foldl (λ te x, report (fill_report sym (t_matching te) x) te) te (in_id_order maker_filled).

Definition report_auction (sym : Symbol) (trades : list Trade) (te : TradingEngine) : TradingEngine :=
  let te := foldl (λ te t, report (trade_report sym t) te) te trades in
  let filled :=
    foldl (λ m t, add_qty (add_qty m (t_taker_id t) (t_qty t)) (t_maker_id t) (t_qty t)) ∅ trades in
  foldl (λ te x, report (fill_report sym (t_matching te) x) te) te (in_id_order filled).

(** ** Placement *)

(** [map::emplace]: an existing key keeps its value. *)
Definition emplace `{Countable K} {V} (k : K) (v : V) (m : gmap K V) : gmap K V :=
  match m !! k with Some _ => m | None => <[k := v]> m end.

Definition prune_one (sym : Symbol) (te : TradingEngine) (t : Trade) : TradingEngine :=
  match engine_find sym (t_maker_id t) (t_matching te), t_id_uuid te !! t_maker_id t with
  | None, Some u =>
      set_t_id_uuid (delete (t_maker_id t) (t_id_uuid te)) (set_t_handles (delete u (t_handles te)) te)
  | _, _ => te
  end.
Definition prune_filled (sym : Symbol) (out : SubmitOutcome) (te : TradingEngine) : TradingEngine :=
  foldl (prune_one sym) te (out_trades out).

Definition register_handle (p : Pending) (ro : Order) (te : TradingEngine) : TradingEngine :=
  let te := set_t_handles (emplace (p_order_uuid p)
              (mkHandle (p_symbol p) (o_id (p_order p)) (p_owner p)) (t_handles te)) te in
  let te := set_t_id_uuid (emplace (o_id (p_order p)) (p_order_uuid p) (t_id_uuid te)) te in
  tell (ReportRest (p_symbol p) (o_side ro) (o_id ro) (o_price ro) (o_leaves ro) (o_rank ro)) te.

(** The body of [drain]'s loop for the order [p] taken from the queue. *)
Definition place (seq : SeqNo) (p : Pending) (te : TradingEngine) : res TradingEngine :=
  if p_ok p then
    '(out, m) ← engine_submit (p_symbol p) (p_order p) (t_matching te);
    let te := set_t_matching m te in
    let te := if out_rested out || out_rested_deep out then register_handle p (out_resting out) te else te in
    let te := report_results (p_symbol p) (p_order p) out te in
    let te := report_requeued (p_symbol p) te in
    let te := prune_filled (p_symbol p) out te in
    Ok (log (Delivered seq (p_cb p) (mkResult true (o_id (p_order p)) (p_order_uuid p) out) (t_matching te)) te)
  else
    Ok (log (Delivered seq (p_cb p)
               (mkResult false (o_id (p_order p)) (p_order_uuid p) (new_outcome 0)) (t_matching te)) te).

(** ** The resident window *)

Definition kMax : Z := 2 ^ 63 - 1.
Definition kMin : Z := - 2 ^ 63.

Definition needs_deep (sym : Symbol) (o : Order) (contra : Side) (te : TradingEngine) : bool :=
  if negb (engine_has_deep sym contra (t_matching te)) then false
  else match engine_worst_resident sym contra (t_matching te) with
       | None => true
       | Some worst =>
           if decide (o_type o = Market) then true
           else match o_side o with Buy => worst <? o_price o | Sell => o_price o <? worst end
       end.

Definition pulled_order (side : Side) (po : PulledOrder) : Order :=
  mkOrder (po_id po) 0 side Limit GTC 0 (po_price po) (po_leaves po) (po_leaves po) 0 0 0 0
    (po_seq po) (po_seq po) 0 None None None.

Definition pull_one (sym : Symbol) (side : Side) (te : TradingEngine) (po : PulledOrder) : TradingEngine :=
  if decide (po_id po ∈ t_pull_ignore te) then te
  else match engine_find sym (po_id po) (t_matching te) with
       | Some _ => te
       | None => set_t_matching (engine_insert_resident sym (pulled_order side po) (t_matching te)) te
       end.

(** Calls that may come back to [drain], before they return or when the reply
    arrives, over the [drain] they come back to. *)
Section Reentry.
Context (drain : TradingEngine → res TradingEngine).

Definition on_pull (sym : Symbol) (side : Side) (orders : list PulledOrder) (te : TradingEngine)
    : res TradingEngine :=
  let te := foldl (pull_one sym side) te orders in
  let te := set_t_depth_pulls (t_depth_pulls te - 1) te in
  if t_depth_pulls te =? 0 then drain (set_t_pull_ignore ∅ te) else Ok te.

Definition on_position (sym : Symbol) (c : ClientId) (r : Reply) (te : TradingEngine) : res TradingEngine :=
  let te := if rp_ok r
            then set_t_matching (engine_seed_position sym c (rp_net r) (t_matching te)) te else te in
  let te := set_t_position_loading (t_position_loading te ∖ {[(sym, c)]}) te in
  let te := set_t_position_loaded ({[(sym, c)]} ∪ t_position_loaded te) te in
  let ready p :=
    if decide (p_client_id p = c ∧ p_symbol p = sym)
    then mkPending (p_symbol p) (p_owner p) (p_order_uuid p) (p_order p) (p_cb p) (p_client_id p)
           (p_acked p) (p_ok p) true
    else p in
  drain (set_t_pending (ready <$> t_pending te) te).

Definition on_order (seq : SeqNo) (r : Reply) (te : TradingEngine) : res TradingEngine :=
  match t_pending te !! seq with
  | None => Ok te
  | Some p =>
      drain (set_t_pending
        (<[seq := mkPending (p_symbol p) (p_owner p) (p_order_uuid p) (p_order p) (p_cb p)
                    (p_client_id p) true (rp_ok r) (p_pos_ready p)]> (t_pending te)) te)
  end.

Definition on_watermarks (r : Reply) (te : TradingEngine) : TradingEngine :=
  let te :=
    if rp_ok r then
      let te := if t_next_order_id te <? rp_max_id r + 1
                then set_t_next_order_id (rp_max_id r + 1) te else te in
      set_t_matching (set_seq_base (rp_max_rank r + 1) (t_matching te)) te
    else te in
  log Seeded te.

(** A callback runs. *)
Definition answer (w : Waiter) (r : Reply) (te : TradingEngine) : res TradingEngine :=
  let te := log (Got w r) te in
  match w with
  | OnOrder seq => on_order seq r te
  | OnReport => Ok (on_report r te)
  | OnLevels sym s => on_pull sym s (if rp_ok r then rp_orders r else []) te
  | OnPosition sym c => on_position sym c r te
  | OnWatermarks => Ok (on_watermarks r te)
  end.

(** A request with a callback. *)
Definition ask (c : StorageCall) (w : Waiter) (te : TradingEngine) : res TradingEngine :=
  let te := log (Asked c) te in
  if t_dead te then answer w failed te else Ok (set_t_waiting (t_waiting te ++ [w]) te).

Definition ensure_depth (sym : Symbol) (o : Order) (te : TradingEngine) : res (bool * TradingEngine) :=
  if (t_mem_levels te =? 0)%nat then Ok (true, te)
  else if 0 <? t_depth_pulls te then Ok (false, te)
  else
    let batch := Z.of_nat (t_mem_levels te) in
    if decide (sym ∈ t_warmed te) then
      let contra := Opposite (o_side o) in
      if needs_deep sym o contra te then
        let from := match engine_worst_resident sym contra (t_matching te) with
                    | Some worst => worst
                    | None => match contra with Sell => kMin | Buy => kMax end
                    end in
        let te := set_t_depth_pulls (t_depth_pulls te + 1) te in
        te ← ask (PullLevels sym contra from batch) (OnLevels sym contra) te;
        Ok (false, te)
      else Ok (true, te)
    else
      let te := set_t_warmed ({[sym]} ∪ t_warmed te) te in
      let te := set_t_depth_pulls (t_depth_pulls te + 2) te in
      te ← ask (PullLevels sym Buy kMax batch) (OnLevels sym Buy) te;
      te ← ask (PullLevels sym Sell kMin batch) (OnLevels sym Sell) te;
      Ok (false, te).

Definition ensure_position (sym : Symbol) (owner : string) (c : ClientId) (te : TradingEngine)
    : res (bool * TradingEngine) :=
  if c =? 0 then Ok (true, te)
  else if decide ((sym, c) ∈ t_position_loaded te) then Ok (true, te)
  else if decide ((sym, c) ∈ t_position_loading te) then Ok (false, te)
  else
    let te := set_t_position_loading ({[(sym, c)]} ∪ t_position_loading te) te in
    te ← ask (PullPosition owner sym) (OnPosition sym c) te;
    Ok (false, te).
End Reentry.

Fixpoint drain_loop (fuel : nat) (te : TradingEngine) : res TradingEngine :=
  match fuel with
  | O => Err OutOfFuel
  | S fuel =>
      let seq := t_next_place_seq te in
      match t_pending te !! seq with
      | None => Ok te
      | Some p =>
          if negb (p_acked p) || negb (p_pos_ready p) then Ok te
          else
            '(ready, te) ← ensure_depth (drain_loop fuel) (p_symbol p) (p_order p) te;
            if negb ready then Ok te
            else
              let te := set_t_pending (delete seq (t_pending te)) te in
              let te := set_t_next_place_seq (seq + 1) te in
              te ← place seq p te;
              drain_loop fuel te
      end
  end.

(** Every pass places an order or, at most once for it, warms its symbol. *)
Definition drain (te : TradingEngine) : res TradingEngine :=
  drain_loop (S (2 * size (t_pending te))) te.

(** ** The interface *)

Definition client_for (owner : string) (te : TradingEngine) : ClientId * TradingEngine :=
  if String.eqb owner "" then (0, te)
  else match t_user_client te !! owner with
       | Some c => (c, te)
       | None =>
           let c := t_next_client_id te in
           (c, set_t_user_client (<[owner := c]> (t_user_client te)) (set_t_next_client_id (c + 1) te))
       end.

Definition trading_submit (sym : Symbol) (owner : string) (o : Order) (cb : option nat) (uuid : string)
    (te : TradingEngine) : res (string * TradingEngine) :=
  let '(o, te) :=
    if o_id o =? 0
    then (set_o_id (t_next_order_id te) o, set_t_next_order_id (t_next_order_id te + 1) te)
    else (o, te) in
  let '(c, te) := client_for owner te in
  let o := set_o_client_id c o in
  let seq := t_next_assign_seq te in
  let te := set_t_next_assign_seq (seq + 1) te in
  '(pos_ready, te) ← ensure_position drain sym owner c te;
  let te := set_t_pending
    (emplace seq (mkPending sym owner uuid o cb c false false pos_ready) (t_pending te)) te in
  te ← ask drain (ReportOrder sym owner (o_id o) (o_side o) (o_price o) (o_qty o)) (OnOrder seq) te;
  Ok (uuid, te).

Definition trading_cancel (uuid requester : string) (te : TradingEngine)
    : res (CancelResult * option Symbol * TradingEngine) :=
  match t_handles te !! uuid with
  | None => Ok (kNotFound, None, te)
  | Some h =>
      if negb (String.eqb (h_owner h) requester) then Ok (kForbidden, None, te)
      else
        '(_, m) ← engine_cancel (h_symbol h) (h_id h) (t_matching te);
        let te := set_t_matching m te in
        let te := tell (ReportCancel (h_symbol h) (h_id h)) te in
        let te := report_requeued (h_symbol h) te in
        let te := if 0 <? t_depth_pulls te
                  then set_t_pull_ignore ({[h_id h]} ∪ t_pull_ignore te) te else te in
        let te := set_t_id_uuid (delete (h_id h) (t_id_uuid te)) te in
        Ok (kOk, Some (h_symbol h), set_t_handles (delete uuid (t_handles te)) te)
  end.

Definition run_auction (sym : Symbol) (opening : bool) (te : TradingEngine)
    : res (list Trade * TradingEngine) :=
  '(trades, m) ← (if opening then engine_run_opening_auction sym (t_matching te)
                  else engine_run_closing_auction sym (t_matching te));
  let te := set_t_matching m te in
  let te := report_auction sym trades te in
  Ok (trades, report_requeued sym te).

Definition commit (te : TradingEngine) : TradingEngine := tell CommitAll te.

Definition seed_from_storage (te : TradingEngine) : res TradingEngine := ask drain PullWatermarks OnWatermarks te.

Definition pending_placements (te : TradingEngine) : nat := size (t_pending te).

(** The reply to the [k]-th outstanding request arrives. *)
Definition storage_replies (k : nat) (r : Reply) (te : TradingEngine) : res TradingEngine :=
  match t_waiting te !! k with
  | None => Ok te
  | Some w => answer drain w r (set_t_waiting (delete k (t_waiting te)) te)
  end.

(** The helper goes away: the outstanding requests fail, in any order, and so
    does every request made from now on. *)
Definition helper_dies (te : TradingEngine) : TradingEngine := set_t_dead true te.
