(* ===== verification/TradingFifo.v ===== *)
(** * The trading engine's queue

    Orders are placed in arrival order, each once, and only after storage has
    acknowledged its report; this holds for any replies in any order, also when
    the storage helper goes away. *)

From S2P Require Import Prelude.
From S2P Require Import Order.
From S2P Require Import Book.
From S2P Require Import BookEmit.
From S2P Require Import MatchingEngine.
From S2P Require Import TradingEngine.
From S2P Require Import Sample.

(** ** Sessions *)

Inductive trading_op :=
  | TSubmit (sym : Symbol) (owner : string) (o : Order) (cb : option nat) (uuid : string)
  | TCancel (uuid requester : string)
  | TAuction (sym : Symbol) (opening : bool)
  | TCommit
  | TSeed
  | TReply (k : nat) (r : Reply)
  | TDie.

Definition run_trading (te : TradingEngine) (op : trading_op) : res TradingEngine :=
  match op with
  | TSubmit sym owner o cb uuid => '(_, te) ← trading_submit sym owner o cb uuid te; Ok te
  | TCancel uuid requester => '(_, te) ← trading_cancel uuid requester te; Ok te
  | TAuction sym opening => '(_, te) ← run_auction sym opening te; Ok te
  | TCommit => Ok (commit te)
  | TSeed => seed_from_storage te
  | TReply k r => storage_replies k r te
  | TDie => Ok (helper_dies te)
  end.

(** The submissions of a session: who submitted to which symbol, the callback and
    the handle returned. *)
Record submission := mkSubmission {
  sb_symbol : Symbol;
  sb_owner : string;
  sb_cb : option nat;
  sb_uuid : string;
}.
Definition submissions (ops : list trading_op) : list submission :=
  omap (λ op, match op with
              | TSubmit sym owner _ cb uuid => Some (mkSubmission sym owner cb uuid)
              | _ => None
              end) ops.
Definition sb_key (x : submission) : option nat * string := (sb_cb x, sb_uuid x).

(** The results a log delivers. *)
Definition delivered (l : list Effect) : list (SeqNo * (option nat * string)) :=
  omap (λ f, match f with
             | Delivered seq cb r _ => Some (seq, (cb, r_order_uuid r))
             | _ => None
             end) l.

(** The ids under which orders were reported. *)
Definition order_ids (l : list Effect) : list OrderId :=
  omap (λ f, match f with Asked (ReportOrder _ _ i _ _ _) => Some i | _ => None end) l.

Lemma order_ids_app l l' : order_ids (l ++ l') = order_ids l ++ order_ids l'.
Proof. apply omap_app. Qed.

(** The report of an order of [owner] with the id [i] was sent. *)
Definition order_reported (l : list Effect) (sym : Symbol) (owner : string) (i : OrderId) : Prop :=
  ∃ s p q, Asked (ReportOrder sym owner i s p q) ∈ l.

Lemma order_reported_app l l' sym owner i : order_reported l sym owner i → order_reported (l ++ l') sym owner i.
Proof. intros (s & p & q & H). exists s, p, q. set_solver. Qed.

(** Storage answered the report of the order [seq], with success or not. *)
Definition acknowledged (l : list Effect) (seq : SeqNo) (ok : bool) : Prop :=
  ∃ r, Got (OnOrder seq) r ∈ l ∧ rp_ok r = ok.

(** A result is delivered after the reply to the order's report, and says that
    the order was placed exactly when the reply was a success. *)
Definition report_before_place (l : list Effect) : Prop :=
  ∀ l1 seq cb r m l2, l = l1 ++ Delivered seq cb r m :: l2 → acknowledged l1 seq (r_storage_ok r).

Lemma delivered_app l l' : delivered (l ++ l') = delivered l ++ delivered l'.
Proof. apply omap_app. Qed.

Lemma acknowledged_app l l' seq ok : acknowledged l seq ok → acknowledged (l ++ l') seq ok.
Proof. intros (r & Hr & Ho). exists r. split; [set_solver|done]. Qed.

Lemma report_before_place_app l l' :
  report_before_place l → delivered l' = [] → report_before_place (l ++ l').
Proof.
  intros Hl Hd l1 seq cb r m l2 Heq.
  assert (∀ k, l' = k ++ Delivered seq cb r m :: l2 → False) as Hno.
  { intros k ->. rewrite delivered_app in Hd. by destruct (delivered k). }
  apply app_eq_inv in Heq as [(k & -> & Hk)|(k & -> & Hk)]; [|by destruct (Hno k)].
  destruct k as [|f k]; [by destruct (Hno [])|]. injection Hk as <- ->. by eapply Hl.
Qed.

(** ** The queue's invariant *)

(** The handle of a submission: its result was delivered under [u] and names the
    order the handle names, which was reported as its owner's. *)
Definition handle_of (subs : list submission) (l : list Effect) (u : string) (h : Handle) : Prop :=
  ∃ cb seq r m, mkSubmission (h_symbol h) (h_owner h) cb u ∈ subs ∧ Delivered seq cb r m ∈ l ∧
    r_order_uuid r = u ∧ r_order_id r = h_id h ∧ order_reported l (h_symbol h) (h_owner h) (h_id h).

Lemma handle_of_mono subs subs' l l' u h : handle_of subs l u h → handle_of (subs ++ subs') (l ++ l') u h.
Proof.
  intros (cb & seq & r & m & H1 & H2 & H3 & H4 & H5). exists cb, seq, r, m.
  split_and!; [set_solver|set_solver|done|done|by apply order_reported_app].
Qed.
Lemma handle_of_log subs l l' u h : handle_of subs l u h → handle_of subs (l ++ l') u h.
Proof. intros H. rewrite <-(app_nil_r subs). by apply handle_of_mono. Qed.

Record QInv (subs : list submission) (a : SeqNo) (te : TradingEngine) : Prop := mkQInv {
  q_assign : t_next_assign_seq te = a;
  q_place : 1 ≤ t_next_place_seq te ≤ Z.of_nat (length subs) + 1;
  q_dom : ∀ seq, is_Some (t_pending te !! seq) ↔ t_next_place_seq te ≤ seq ≤ Z.of_nat (length subs);
  q_pending : ∀ seq p, t_pending te !! seq = Some p →
    subs !! Z.to_nat (seq - 1) = Some (mkSubmission (p_symbol p) (p_owner p) (p_cb p) (p_order_uuid p)) ∧
    (p_acked p = true → acknowledged (t_log te) seq (p_ok p)) ∧
    order_reported (t_log te) (p_symbol p) (p_owner p) (o_id (p_order p));
  q_done : delivered (t_log te) =
    imap (λ i x, (Z.of_nat i + 1, sb_key x)) (take (Z.to_nat (t_next_place_seq te - 1)) subs);
  q_handles : ∀ u h, t_handles te !! u = Some h → handle_of subs (t_log te) u h;
  q_log : report_before_place (t_log te);
}.

(** Steps that leave the queue alone and deliver nothing. *)
Record same_queue (te te' : TradingEngine) : Prop := mkSameQueue {
  sq_pending : t_pending te' = t_pending te;
  sq_place : t_next_place_seq te' = t_next_place_seq te;
  sq_assign : t_next_assign_seq te' = t_next_assign_seq te;
  sq_handles : t_handles te' ⊆ t_handles te;
  sq_ids : t_next_order_id te ≤ t_next_order_id te';
  sq_log : ∃ l, t_log te' = t_log te ++ l ∧ delivered l = [] ∧ order_ids l = [];
}.

#[export] Instance same_queue_preorder : PreOrder same_queue.
Proof.
  split.
  - intros te. split; [done..|lia|]. exists []. by rewrite app_nil_r.
  - intros t1 t2 t3 [A1 A2 A3 Ah Ai (l & A4 & A5 & A6)] [B1 B2 B3 Bh Bi (l' & B4 & B5 & B6)]. split; [congruence..|by etrans|lia|].
    exists (l ++ l'). rewrite B4, A4, app_assoc, delivered_app, order_ids_app, A5, B5, A6, B6. done.
Qed.

Lemma QInv_log subs a f te : QInv subs a te → delivered [f] = [] → QInv subs a (log f te).
Proof.
  intros [Q1 Q2 Q3 Q4 Q5 Qh Q6] Hf. split; simpl; try done.
  - intros seq p Hp. destruct (Q4 seq p Hp) as (H1 & H2 & H3). split_and!; [done| |by apply order_reported_app].
    intros Ho. by apply acknowledged_app, H2.
  - by rewrite delivered_app, Hf, app_nil_r.
  - intros u h Hu. by apply handle_of_log, Qh.
  - by apply report_before_place_app.
Qed.

Lemma QInv_same subs a te te' : QInv subs a te → same_queue te te' → QInv subs a te'.
Proof.
  intros [Q1 Q2 Q3 Q4 Q5 Qh Q6] [S1 S2 S3 Sh _ (l & S4 & S5 & _)]. split; rewrite ?S1, ?S2, ?S3, ?S4; try done.
  - intros seq p Hp. destruct (Q4 seq p Hp) as (H1 & H2 & H3). split_and!; [done| |by apply order_reported_app].
    intros Ho. by apply acknowledged_app, H2.
  - by rewrite delivered_app, S5, app_nil_r.
  - intros u h Hu. by eapply handle_of_log, Qh, lookup_weaken.
  - by apply report_before_place_app.
Qed.

Create HintDb queue.

(** An assignment to any other field. *)
Lemma same_queue_field te te' :
  t_pending te' = t_pending te → t_next_place_seq te' = t_next_place_seq te →
  t_next_assign_seq te' = t_next_assign_seq te → t_handles te' = t_handles te → t_log te' = t_log te →
  t_next_order_id te' = t_next_order_id te → same_queue te te'.
Proof. intros H1 H2 H3 Hh H4 Hi. split; [done..|by rewrite Hh|lia|]. exists []. by rewrite app_nil_r. Qed.

Lemma same_queue_log f te : delivered [f] = [] → order_ids [f] = [] → same_queue te (log f te).
Proof. intros H1 H2. split; [done..|simpl; lia|]. by exists [f]. Qed.

(** The counter of ids only grows. *)
Lemma same_queue_next_id te n : t_next_order_id te ≤ n → same_queue te (set_t_next_order_id n te).
Proof. intros Hn. split; [done..|]. exists []. by rewrite app_nil_r. Qed.

Lemma same_queue_foldl {A} (f : TradingEngine → A → TradingEngine) l :
  (∀ te x, same_queue te (f te x)) → ∀ te, same_queue te (foldl f te l).
Proof. intros Hf. induction l as [|x l IH]; intros te; [done|]. simpl. by etrans; [apply Hf|]. Qed.

#[export] Hint Extern 1 (same_queue _ (log _ _)) => (by apply same_queue_log) : queue.
#[export] Hint Extern 2 (same_queue _ _) => (by apply same_queue_field) : queue.

Lemma same_queue_on_report r te : same_queue te (on_report r te).
Proof. unfold on_report. case_match; eauto with queue. Qed.

Lemma same_queue_report c te : order_ids [Asked c] = [] → same_queue te (report c te).
Proof.
  intros Hc. unfold report. etrans; [by apply (same_queue_log (Asked c))|]. case_match; [|eauto with queue].
  etrans; [|apply same_queue_on_report]. eauto with queue.
Qed.

Lemma same_queue_tell c te : order_ids [Asked c] = [] → same_queue te (tell c te).
Proof. intros Hc. unfold tell. eauto with queue. Qed.

Lemma same_queue_requeued sym te : same_queue te (report_requeued sym te).
Proof.
  unfold report_requeued. case_match. etrans; [|by apply same_queue_foldl; intros; apply same_queue_tell].
  eauto with queue.
Qed.

Lemma same_queue_results sym o out te : same_queue te (report_results sym o out te).
Proof.
  unfold report_results. etrans; [|apply same_queue_foldl; intros; by apply same_queue_report].
  etrans; [apply (same_queue_foldl (λ te t, report (trade_report sym t) te) (out_trades out)); intros;
           by apply same_queue_report|].
  case_match; [by apply same_queue_report|reflexivity].
Qed.

Lemma same_queue_auction sym ts te : same_queue te (report_auction sym ts te).
Proof.
  unfold report_auction. etrans; [|apply same_queue_foldl; intros; by apply same_queue_report].
  apply same_queue_foldl; intros; by apply same_queue_report.
Qed.

Lemma same_queue_prune sym out te : same_queue te (prune_filled sym out te).
Proof.
  apply same_queue_foldl. intros te' t. unfold prune_one. repeat case_match; try reflexivity.
  split; [done..|apply delete_subseteq|simpl; lia|]. exists []. by rewrite app_nil_r.
Qed.

Lemma same_queue_pulls sym s os te : same_queue te (foldl (pull_one sym s) te os).
Proof.
  apply same_queue_foldl. intros te' po. unfold pull_one.
  repeat case_match; first [reflexivity|eauto with queue].
Qed.

Lemma same_queue_watermarks r te : same_queue te (on_watermarks r te).
Proof.
  unfold on_watermarks. etrans; [|by apply same_queue_log]. destruct (rp_ok r); [|reflexivity].
  case_match; [|eauto with queue].
  trans (set_t_next_order_id (rp_max_id r + 1) te); [apply same_queue_next_id; lia|eauto with queue].
Qed.

(** The order at the head leaves the queue: at most its own handle is new. *)
Record leaves_queue (p : Pending) (te te' : TradingEngine) : Prop := mkLeaves {
  lq_pending : t_pending te' = delete (t_next_place_seq te) (t_pending te);
  lq_place : t_next_place_seq te' = t_next_place_seq te + 1;
  lq_assign : t_next_assign_seq te' = t_next_assign_seq te;
  lq_handles : ∀ u h, t_handles te' !! u = Some h → t_handles te !! u = Some h ∨
    (u = p_order_uuid p ∧ h = mkHandle (p_symbol p) (o_id (p_order p)) (p_owner p));
  lq_log : ∃ l, t_log te' = t_log te ++ l ∧ delivered l = [];
}.

Lemma leaves_queue_same p te t1 t2 : leaves_queue p te t1 → same_queue t1 t2 → leaves_queue p te t2.
Proof.
  intros [A1 A2 A3 A4 (l & A5 & A6)] [B1 B2 B3 B4 _ (l' & B5 & B6 & _)]. split; [congruence..| |].
  - intros u h Hu. by eapply A4, lookup_weaken.
  - exists (l ++ l'). by rewrite B5, A5, app_assoc, delivered_app, A6, B6.
Qed.

(** Its result is delivered. *)
Lemma QInv_deliver subs a te te' p r m :
  QInv subs a te → t_pending te !! t_next_place_seq te = Some p → p_acked p = true → leaves_queue p te te' →
  r_order_uuid r = p_order_uuid p → r_order_id r = o_id (p_order p) → r_storage_ok r = p_ok p →
  QInv subs a (log (Delivered (t_next_place_seq te) (p_cb p) r m) te').
Proof.
  intros [Q1 Q2 Q3 Q4 Q5 Qh Q6] Hp Hacked [S1 S2 S3 Sh (l & S4 & S5)] Hu Hid Hok. simpl in *.
  destruct (Q4 _ _ Hp) as (Hsub & Hack & Hrep). specialize (Hack Hacked). assert (is_Some (t_pending te !! t_next_place_seq te)) as Hin%Q3 by eauto.
  split; simpl; rewrite ?S1, ?S2, ?S3, ?S4; [done|lia|..].
  - intros seq. rewrite lookup_delete_is_Some, Q3. lia.
  - intros seq q [Hne Hq]%lookup_delete_Some. destruct (Q4 seq q Hq) as (H1 & H2 & H3).
    rewrite <-app_assoc. split_and!; [done| |by apply order_reported_app]. intros Ho. by apply acknowledged_app, H2.
  - rewrite !delivered_app, S5, app_nil_r, Q5. simpl.
    replace (Z.to_nat (t_next_place_seq te + 1 - 1)) with (S (Z.to_nat (t_next_place_seq te - 1))) by lia.
    erewrite take_S_r by done. rewrite imap_app. f_equal. simpl. f_equal. f_equal; [|by rewrite Hu].
    rewrite length_take. apply lookup_lt_Some in Hsub. lia.
  - intros u h Hh. rewrite <-app_assoc. destruct (Sh u h Hh) as [?|[-> ->]]; [by apply handle_of_log, Qh|].
    exists (p_cb p), (t_next_place_seq te), r, m. simpl.
    split_and!; [by eapply list_elem_of_lookup_2|set_solver|done|done|by apply order_reported_app].
  - intros l1 seq cb r' m' l2 Heq. destruct (decide (l2 = [])) as [->|Hne].
    + apply app_inj_tail in Heq as [<- [= <- <- <- _]]. rewrite Hok. by apply acknowledged_app.
    + destruct (exists_last Hne) as (k & f & ->). rewrite app_comm_cons, app_assoc in Heq.
      apply app_inj_tail in Heq as [Heq _]. by eapply (report_before_place_app (t_log te) l).
Qed.

(** ** Callbacks and the loop *)
Section Reentry.
Context (subs : list submission) (a : SeqNo) (d : TradingEngine → res TradingEngine).
Hypothesis d_ok : ∀ te te', QInv subs a te → d te = Ok te' → QInv subs a te'.

Lemma QInv_ready f te :
  QInv subs a te → (∀ p, p_symbol (f p) = p_symbol p ∧ p_owner (f p) = p_owner p ∧ p_cb (f p) = p_cb p ∧
        p_order_uuid (f p) = p_order_uuid p ∧ p_acked (f p) = p_acked p ∧ p_ok (f p) = p_ok p ∧ p_order (f p) = p_order p) →
  QInv subs a (set_t_pending (f <$> t_pending te) te).
Proof.
  intros [Q1 Q2 Q3 Q4 Q5 Qh Q6] Hf. split; simpl; try done.
  - intros seq. rewrite lookup_fmap, fmap_is_Some. apply Q3.
  - intros seq p. rewrite lookup_fmap. intros (q & Hq & ->)%fmap_Some. destruct (Hf q) as (-> & -> & -> & -> & -> & -> & ->).
    by apply Q4.
Qed.

Lemma QInv_acked seq p ok te :
  QInv subs a te → t_pending te !! seq = Some p → acknowledged (t_log te) seq ok →
  QInv subs a (set_t_pending
    (<[seq := mkPending (p_symbol p) (p_owner p) (p_order_uuid p) (p_order p) (p_cb p)
                (p_client_id p) true ok (p_pos_ready p)]> (t_pending te)) te).
Proof.
  intros [Q1 Q2 Q3 Q4 Q5 Qh Q6] Hp Hok. split; simpl; try done.
  - intros s. rewrite lookup_insert_is_Some, <-Q3. destruct (decide (seq = s)) as [<-|]; [|naive_solver].
    split; [intros _; eauto|by left].
  - intros s q [[<- <-]|[_ Hq]]%lookup_insert_Some; simpl; [|by apply Q4].
    destruct (Q4 _ _ Hp) as (H1 & _ & H3). by split_and!.
Qed.

Lemma QInv_answer w r te te' : QInv subs a te → answer d w r te = Ok te' → QInv subs a te'.
Proof.
  intros HQ. unfold answer. assert (QInv subs a (log (Got w r) te)) as HL by (by apply QInv_log).
  destruct w as [seq| |sym s|sym c|].
  - unfold on_order. case_match eqn:Hp; [|intros [= <-]; done]. apply d_ok, QInv_acked; [done..|].
    exists r. split; [simpl; set_solver|done].
  - intros [= <-]. eapply QInv_same; [done|apply same_queue_on_report].
  - unfold on_pull. generalize (if rp_ok r then rp_orders r else []). intros os.
    pose proof (QInv_same _ _ _ _ HL (same_queue_pulls sym s os _)) as HP.
    case_match; [apply d_ok|intros [= <-]]; (eapply QInv_same; [exact HP|eauto with queue]).
  - unfold on_position. intros H. apply d_ok in H; [done|]. apply (QInv_ready _ (set_t_position_loaded _ _)).
    + eapply QInv_same; [exact HL|]. destruct (rp_ok r); eauto with queue.
    + intros p. by case_decide.
  - intros [= <-]. eapply QInv_same; [exact HL|apply same_queue_watermarks].
Qed.

Lemma QInv_ask c w te te' : QInv subs a te → ask d c w te = Ok te' → QInv subs a te'.
Proof.
  intros HQ. unfold ask. assert (QInv subs a (log (Asked c) te)) as HL by (by apply QInv_log).
  case_match; [by apply QInv_answer|]. intros [= <-]. eapply QInv_same; [exact HL|eauto with queue].
Qed.

Lemma QInv_ensure_depth sym o te ready te' :
  QInv subs a te → ensure_depth d sym o te = Ok (ready, te') → QInv subs a te' ∧ (ready = true → te' = te).
Proof.
  intros HQ. unfold ensure_depth. do 2 (case_match; [by intros [= <- <-]|]). case_match.
  - case_match; [|by intros [= <- <-]].
    intros (t1 & K1 & [= <- <-])%bind_Ok. split; [|done]. eapply QInv_ask; [|exact K1].
    eapply QInv_same; [done|eauto with queue].
  - intros (t1 & K1 & (t2 & K2 & [= <- <-])%bind_Ok)%bind_Ok. split; [|done].
    eapply QInv_ask; [|exact K2]. eapply QInv_ask; [|exact K1]. eapply QInv_same; [done|eauto with queue].
Qed.

Lemma QInv_ensure_position sym owner c te ready te' :
  QInv subs a te → ensure_position d sym owner c te = Ok (ready, te') → QInv subs a te'.
Proof.
  intros HQ. unfold ensure_position. repeat (case_match; try (by intros [= <- <-])).
  intros (t1 & K1 & [= <- <-])%bind_Ok. eapply QInv_ask; [|exact K1].
  eapply QInv_same; [done|eauto with queue].
Qed.
End Reentry.

Lemma QInv_drain_loop subs a fuel : ∀ te te', QInv subs a te → drain_loop fuel te = Ok te' → QInv subs a te'.
Proof.
  induction fuel as [|fuel IH]; intros te te' HQ Hd; [done|]. cbn [drain_loop] in Hd.
  destruct (t_pending te !! t_next_place_seq te) as [p|] eqn:Hp; [|by simplify_eq].
  destruct (negb (p_acked p) || negb (p_pos_ready p)) eqn:Hg; [by simplify_eq|].
  apply orb_false_iff in Hg as [Hack%negb_false_iff _]. apply bind_Ok in Hd as ([ready t1] & He & Hd).
  apply (QInv_ensure_depth subs a (drain_loop fuel) IH) in He as [HQ1 Hready]; [|done].
  destruct ready; cbn [negb] in Hd; [|by simplify_eq]. rewrite (Hready eq_refl) in *.
  apply bind_Ok in Hd as (t2 & Hpl & Hd). eapply IH; [|exact Hd]. clear Hd IH. unfold place in Hpl.
  destruct (p_ok p) eqn:Hok.
  - apply bind_Ok in Hpl as ([out m] & _ & Hpl). injection Hpl as <-.
    eapply (QInv_deliver subs a te); [done..| |done|done|done]. eapply leaves_queue_same; [|apply same_queue_prune].
    eapply leaves_queue_same; [|apply same_queue_requeued]. eapply leaves_queue_same; [|apply same_queue_results].
    case_match; split; simpl; try done; [| |by left|exists []; by rewrite app_nil_r].
    + unfold emplace. intros u h. case_match; [by left|]. intros [[<- <-]|[_ Hh]]%lookup_insert_Some; [by right|by left].
    + by eexists [_].
  - injection Hpl as <-. eapply (QInv_deliver subs a te); [done..| |done|done|done].
    split; simpl; try done; [by left|exists []; by rewrite app_nil_r].
Qed.

Lemma QInv_drain subs a te te' : QInv subs a te → drain te = Ok te' → QInv subs a te'.
Proof. apply QInv_drain_loop. Qed.

(** ** Operations *)
Lemma QInv_client_for subs a owner te : QInv subs a te → QInv subs a (client_for owner te).2.
Proof. intros HQ. unfold client_for. repeat case_match; [done..|]. eapply QInv_same; [done|simpl; eauto with queue]. Qed.

(** A new order joins the end of the queue. *)
Lemma QInv_enqueue subs te p :
  QInv subs (Z.of_nat (length subs) + 2) te → p_acked p = false →
  order_reported (t_log te) (p_symbol p) (p_owner p) (o_id (p_order p)) →
  QInv (subs ++ [mkSubmission (p_symbol p) (p_owner p) (p_cb p) (p_order_uuid p)]) (Z.of_nat (length subs) + 2)
    (set_t_pending (emplace (Z.of_nat (length subs) + 1) p (t_pending te)) te).
Proof.
  intros [Q1 Q2 Q3 Q4 Q5 Qh Q6] Hok Hrep.
  assert (t_pending te !! (Z.of_nat (length subs) + 1) = None) as Hn.
  { apply eq_None_not_Some. rewrite Q3. lia. }
  unfold emplace. rewrite Hn. split; simpl; rewrite ?length_app; simpl; [done|lia|..].
  - intros seq. rewrite lookup_insert_is_Some', Q3. lia.
  - intros seq q [[<- <-]|[_ Hq]]%lookup_insert_Some.
    + replace (Z.to_nat (Z.of_nat (length subs) + 1 - 1)) with (length subs) by lia.
      rewrite list_lookup_middle by done. split_and!; [done| |done]. by rewrite Hok.
    + destruct (Q4 _ _ Hq) as (H1 & H2 & H3). split_and!; [|done|done]. rewrite lookup_app_l; [done|]. by apply lookup_lt_Some in H1.
  - rewrite Q5, take_app_le by lia. done.
  - intros u h Hu. rewrite <-(app_nil_r (t_log te)). by apply handle_of_mono, Qh.
  - done.
Qed.

Lemma QInv_submit subs sym owner o cb uuid te u te' :
  QInv subs (Z.of_nat (length subs) + 1) te → trading_submit sym owner o cb uuid te = Ok (u, te') →
  QInv (subs ++ [mkSubmission sym owner cb uuid]) (Z.of_nat (length (subs ++ [mkSubmission sym owner cb uuid])) + 1) te'.
Proof.
  intros HQ. unfold trading_submit.
  match goal with |- context [if o_id o =? 0 then ?x else ?y] =>
    assert (QInv subs (Z.of_nat (length subs) + 1) (if o_id o =? 0 then x else y).2) as HQ1;
    [|destruct (if o_id o =? 0 then x else y) as [o1 t1]] end.
  { case_match; [|done]. eapply QInv_same; [done|]. apply same_queue_next_id. lia. }
  apply (QInv_client_for _ _ owner) in HQ1. cbn [snd] in HQ1.
  destruct (client_for owner t1) as [c t2]. cbn [snd] in HQ1. pose proof (q_assign _ _ _ HQ1) as Ha.
  rewrite Ha. intros ([ready t3] & He & (t4 & Hk & [= <- <-])%bind_Ok)%bind_Ok.
  replace (Z.of_nat (length (subs ++ [mkSubmission sym owner cb uuid])) + 1) with (Z.of_nat (length subs) + 2)
    by (rewrite length_app; simpl; lia).
  set (p := mkPending sym owner uuid (set_o_client_id c o1) cb c false false ready).
  set (call := ReportOrder _ _ _ _ _ _) in Hk. revert Hk. unfold ask.
  match goal with |- context [log (Asked call) ?x] => assert (QInv (subs ++ [mkSubmission sym owner cb uuid])
    (Z.of_nat (length subs) + 2) (log (Asked call) x)) as HL end.
  2:{ case_match; [by apply QInv_answer, HL; apply QInv_drain|]. intros [= <-]. eapply QInv_same; [exact HL|eauto with queue]. }
  apply (QInv_enqueue subs (log (Asked call) t3) p); [|done|by eexists _, _, _; apply elem_of_app; right; left].
  apply QInv_log; [|done]. eapply QInv_ensure_position; [apply QInv_drain| |exact He].
  destruct HQ1 as [Q1 Q2 Q3 Q4 Q5 Qh Q6]. split; simpl; try done. lia.
Qed.

Lemma same_queue_cancel uuid requester te r te' :
  trading_cancel uuid requester te = Ok (r, te') → same_queue te te'.
Proof.
  unfold trading_cancel. repeat (case_match; try (by intros [= <- <-])).
  intros ([b m] & _ & [= <- <-])%bind_Ok.
  set (t1 := report_requeued _ _). assert (same_queue te t1) as H1.
  { etrans; [|apply same_queue_requeued]. etrans; [|by apply same_queue_tell]. eauto with queue. }
  etrans; [exact H1|]. case_match; (split; [done..|apply delete_subseteq|simpl; lia|exists []; by rewrite app_nil_r]).
Qed.

Lemma same_queue_run_auction sym opening te ts te' :
  run_auction sym opening te = Ok (ts, te') → same_queue te te'.
Proof.
  unfold run_auction. intros ([ts' m] & _ & [= <- <-])%bind_Ok.
  etrans; [|apply same_queue_requeued]. etrans; [|apply same_queue_auction]. eauto with queue.
Qed.

Lemma QInv_run subs op te te' :
  QInv subs (Z.of_nat (length subs) + 1) te → run_trading te op = Ok te' →
  QInv (subs ++ submissions [op]) (Z.of_nat (length (subs ++ submissions [op])) + 1) te'.
Proof.
  intros HQ. destruct op as [sym owner o cb uuid|uuid req|sym op| | |k r|]; cbn [run_trading];
    [|cbn [submissions omap list_omap]; rewrite app_nil_r..].
  - intros ([u t1] & H1 & [= <-])%bind_Ok. by eapply QInv_submit.
  - intros ([[x y] t1] & H1 & [= <-])%bind_Ok. by eapply QInv_same, same_queue_cancel.
  - intros ([ts t1] & H1 & [= <-])%bind_Ok. by eapply QInv_same, same_queue_run_auction.
  - intros [= <-]. eapply QInv_same; [done|]. by apply same_queue_tell.
  - apply QInv_ask; [apply QInv_drain|done].
  - unfold storage_replies. case_match; [|by intros [= <-]]. apply QInv_answer; [apply QInv_drain|].
    eapply QInv_same; [done|eauto with queue].
  - intros [= <-]. eapply QInv_same; [done|]. unfold helper_dies. eauto with queue.
Qed.

Lemma QInv_new m mem : QInv [] 1 (new_trading m mem).
Proof.
  split; simpl; try done.
  - intros seq. rewrite lookup_empty. split; [by intros []|lia].
  - intros l1 seq cb r l2 Heq. by destruct l1.
Qed.

Lemma submissions_app ops ops' : submissions (ops ++ ops') = submissions ops ++ submissions ops'.
Proof. apply omap_app. Qed.

Lemma QInv_session m mem ops te :
  res_foldl run_trading (new_trading m mem) ops = Ok te →
  QInv (submissions ops) (Z.of_nat (length (submissions ops)) + 1) te.
Proof.
  revert te. induction ops as [|op ops IH] using rev_ind; intros te.
  { intros [= <-]. apply QInv_new. }
  rewrite res_foldl_app. intros (t1 & H1 & H2)%bind_Ok. cbn [res_foldl] in H2.
  apply bind_Ok in H2 as (t2 & H2 & [= <-]). rewrite submissions_app. by eapply QInv_run; [apply IH|].
Qed.

Lemma QInv_size subs a te :
  QInv subs a te → Z.of_nat (size (t_pending te)) = Z.of_nat (length subs) + 1 - t_next_place_seq te.
Proof.
  intros HQ. pose proof (q_place _ _ _ HQ) as Hp.
  assert (dom (t_pending te) =
    list_to_set (seqZ (t_next_place_seq te) (Z.of_nat (length subs) + 1 - t_next_place_seq te))) as Hd.
  { apply set_eq. intros seq. rewrite elem_of_dom, (q_dom _ _ _ HQ), elem_of_list_to_set, elem_of_seqZ. lia. }
  rewrite <-size_dom, Hd, size_list_to_set by apply NoDup_seqZ. rewrite length_seqZ. lia.
Qed.

(** C16: report before place, in arrival order.  After any session (orders,
    cancels, auctions, replies in any order, failures, the helper's death), the
    results delivered are those of the first submissions, in the order of
    submission and each once; every other submission is still queued; and every
    result follows storage's reply to the order's report and says that the order
    was placed exactly when that reply was a success. *)
Theorem orders_placed_in_order m mem ops te :
  res_foldl run_trading (new_trading m mem) ops = Ok te →
  let n := length (delivered (t_log te)) in
  delivered (t_log te) = imap (λ i x, (Z.of_nat i + 1, sb_key x)) (take n (submissions ops)) ∧
  (n + pending_placements te = length (submissions ops))%nat ∧
  report_before_place (t_log te).
Proof.
  intros Hrun n. pose proof (QInv_session m mem ops te Hrun) as HQ. pose proof (QInv_size _ _ _ HQ) as Hs.
  destruct HQ as [_ Q2 _ _ Q5 Q6].
  assert (n = Z.to_nat (t_next_place_seq te - 1)) as Hn.
  { unfold n. rewrite Q5, length_imap, length_take. lia. }
  rewrite Hn. split_and!; [done| |done]. unfold pending_placements. lia.
Qed.

Definition acked : Reply := mkReply true [] 0 0 0.
Definition unbounded_engine : MatchingEngine := set_book_event_sink true (new_engine kStpNone 0).

(** Two accounts; the second order is acknowledged first, the third report fails. *)
Definition sample_session : list trading_op :=
  [ TSubmit "ACME" "alice" (limit 0 0 Sell 100 5 GTC 0) (Some 1%nat) "u1";
    TSubmit "ACME" "bob" (limit 0 0 Buy 100 3 GTC 0) (Some 2%nat) "u2";
    TSubmit "ACME" "" (limit 0 0 Buy 99 1 GTC 0) (Some 3%nat) "u3";
    TReply 3 acked; TReply 2 acked; TReply 0 acked; TReply 0 acked; TReply 0 failed ].

Lemma orders_placed_in_order_witness :
  match res_foldl run_trading (new_trading unbounded_engine 0) sample_session with
  | Ok te => delivered (t_log te) = [(1, (Some 1%nat, "u1")); (2, (Some 2%nat, "u2")); (3, (Some 3%nat, "u3"))]%string ∧
             report_before_place (t_log te)
  | Err _ => False
  end.
Proof.
  pose proof (orders_placed_in_order unbounded_engine 0 sample_session) as H.
  assert (∃ te, res_foldl run_trading (new_trading unbounded_engine 0) sample_session = Ok te ∧
    delivered (t_log te) = [(1, (Some 1%nat, "u1")); (2, (Some 2%nat, "u2")); (3, (Some 3%nat, "u3"))]%string)
    as (te & E & Hd) by (eexists; split; vm_compute; reflexivity).
  rewrite E. split; [exact Hd|]. by destruct (H te E) as (_ & _ & ?).
Defined.
