(* ===== verification/TradingIds.v ===== *)
(** * The ids of the orders of a session

    Orders come in without an id and get the next one; a reply to the watermark
    request raises the counter. No two orders of a session share an id, so an id
    in a report, a result or a handle means one order. *)

From S2P Require Import Prelude.
From S2P Require Import Order.
From S2P Require Import Book.
From S2P Require Import MatchingEngine.
From S2P Require Import TradingEngine.
From S2P Require Import TradingFifo.

(** Steps that only append to the log, report no new order and never lower the
    counter of ids. *)
Definition appends (te te' : TradingEngine) : Prop :=
  (∃ l, t_log te' = t_log te ++ l ∧ order_ids l = []) ∧ t_next_order_id te ≤ t_next_order_id te'.

#[export] Instance appends_preorder : PreOrder appends.
Proof.
  split.
  - intros te. split; [|lia]. exists []. by rewrite app_nil_r.
  - intros t1 t2 t3 [(l & A1 & A2) A3] [(l' & B1 & B2) B3]. split; [|lia].
    exists (l ++ l'). by rewrite B1, A1, app_assoc, order_ids_app, A2, B2.
Qed.

Lemma appends_same te te' : same_queue te te' → appends te te'.
Proof. intros [_ _ _ _ Hi (l & E & _ & Hl)]. split; [by exists l|done]. Qed.
Lemma appends_field te te' : t_log te' = t_log te → t_next_order_id te' = t_next_order_id te → appends te te'.
Proof. intros E Ei. split; [|lia]. exists []. by rewrite app_nil_r. Qed.
Lemma appends_log f te : order_ids [f] = [] → appends te (log f te).
Proof. intros Hf. split; [by eexists [f]|done]. Qed.

Create HintDb appends.
#[export] Hint Extern 1 (appends _ (log _ _)) => (by apply appends_log) : appends.
#[export] Hint Extern 2 (appends _ _) => (by apply appends_field) : appends.

Section Reentry.
Context (d : TradingEngine → res TradingEngine).
Hypothesis d_ok : ∀ te te', d te = Ok te' → appends te te'.

Lemma appends_answer w r te te' : answer d w r te = Ok te' → appends te te'.
Proof.
  unfold answer. intros H. transitivity (log (Got w r) te); [eauto with appends|]. revert H.
  generalize (log (Got w r) te). clear te. intros te.
  destruct w as [seq| |sym s|sym c|].
  - unfold on_order. case_match; [|by intros [= <-]]. intros Hd%d_ok. exact Hd.
  - intros [= <-]. apply appends_same, same_queue_on_report.
  - unfold on_pull. generalize (if rp_ok r then rp_orders r else []). intros os.
    pose proof (appends_same _ _ (same_queue_pulls sym s os te)) as HP.
    case_match; [intros Hd%d_ok; by etrans|intros [= <-]; exact HP].
  - unfold on_position. destruct (rp_ok r); intros Hd%d_ok; exact Hd.
  - intros [= <-]. apply appends_same, same_queue_watermarks.
Qed.

Lemma appends_ask c w te te' : order_ids [Asked c] = [] → ask d c w te = Ok te' → appends te te'.
Proof.
  unfold ask. intros Hc H. transitivity (log (Asked c) te); [by apply appends_log|].
  destruct (t_dead (log (Asked c) te)); [by eapply appends_answer|]. injection H as <-. eauto with appends.
Qed.

Lemma appends_ensure_depth sym o te ready te' : ensure_depth d sym o te = Ok (ready, te') → appends te te'.
Proof.
  unfold ensure_depth. do 2 (case_match; [by intros [= <- <-]|]). case_match.
  - case_match; [|by intros [= <- <-]]. intros (t1 & K1%appends_ask & [= <- <-])%bind_Ok; [exact K1|done].
  - intros (t1 & K1%appends_ask & (t2 & K2%appends_ask & [= <- <-])%bind_Ok)%bind_Ok; [|done..]. by etrans; [exact K1|].
Qed.

Lemma appends_ensure_position sym owner c te ready te' :
  ensure_position d sym owner c te = Ok (ready, te') → appends te te'.
Proof.
  unfold ensure_position. repeat (case_match; try (by intros [= <- <-])).
  intros (t1 & K1%appends_ask & [= <- <-])%bind_Ok; [exact K1|done].
Qed.
End Reentry.

Lemma appends_place seq p te te' : place seq p te = Ok te' → appends te te'.
Proof.
  unfold place. case_match; [|intros [= <-]; eauto with appends].
  intros ([out m] & _ & [= <-])%bind_Ok. etrans; [|by apply appends_log].
  etrans; [|apply appends_same, same_queue_prune]. etrans; [|apply appends_same, same_queue_requeued].
  etrans; [|apply appends_same, same_queue_results]. case_match; [|eauto with appends].
  split; [by eexists [_]|done].
Qed.

Lemma appends_drain_loop fuel : ∀ te te', drain_loop fuel te = Ok te' → appends te te'.
Proof.
  induction fuel as [|fuel IH]; intros te te' Hd; [done|]. cbn [drain_loop] in Hd.
  destruct (t_pending te !! t_next_place_seq te) as [p|]; [|by simplify_eq].
  destruct (negb (p_acked p) || negb (p_pos_ready p)); [by simplify_eq|].
  apply bind_Ok in Hd as ([ready t1] & He%(appends_ensure_depth _ IH) & Hd).
  destruct ready; cbn [negb] in Hd; [|by injection Hd as <-].
  apply bind_Ok in Hd as (t2 & Hp%appends_place & Hd%IH). etrans; [exact He|]. by etrans; [exact Hp|].
Qed.
Lemma appends_drain te te' : drain te = Ok te' → appends te te'.
Proof. apply appends_drain_loop. Qed.

(** ** A submission reports one order *)

(** The entries of a submission: nothing about orders, then the report of the
    order under its id, then nothing about orders. *)
Lemma submit_reports sym owner o cb uuid te u te' :
  trading_submit sym owner o cb uuid te = Ok (u, te') →
  let i := if o_id o =? 0 then t_next_order_id te else o_id o in
  ∃ l1 l2, t_log te' = t_log te ++ l1 ++ Asked (ReportOrder sym owner i (o_side o) (o_price o) (o_qty o)) :: l2 ∧
    order_ids l1 = [] ∧ order_ids l2 = [] ∧
    (if o_id o =? 0 then t_next_order_id te + 1 else t_next_order_id te) ≤ t_next_order_id te'.
Proof.
  intros Hs i. revert Hs. unfold trading_submit.
  set (x := if o_id o =? 0 then _ else _). set (n := if o_id o =? 0 then _ else _).
  assert (t_log x.2 = t_log te ∧ t_next_order_id x.2 = n ∧ o_id x.1 = i ∧
    o_side x.1 = o_side o ∧ o_price x.1 = o_price o ∧ o_qty x.1 = o_qty o) as (X1 & X2 & X3 & X4 & X5 & X6)
    by (unfold x, n, i; by case_match).
  clearbody x n i. destruct x as [o1 t1]. cbn [fst snd] in *.
  assert (appends t1 (client_for owner t1).2) as H2
    by (unfold client_for; repeat case_match; [reflexivity..|cbn [snd]; eauto with appends]).
  destruct (client_for owner t1) as [c t2]. cbn [snd] in *.
  intros ([ready t3] & He%(appends_ensure_position _ appends_drain) & (t4 & Hk & [= <- <-])%bind_Ok)%bind_Ok.
  destruct (transitivity H2 (transitivity (appends_field t2 _ eq_refl eq_refl) He)) as [(l1 & L1 & L2) L3].
  revert Hk. unfold ask. cbn [set_o_client_id o_id o_side o_price o_qty]. rewrite X3, X4, X5, X6. set (f := Asked _).
  match goal with |- context [log f ?y] => set (t5 := log f y) end.
  assert (t_log t5 = t_log te ++ l1 ++ [f]) as E5 by (simpl; by rewrite L1, X1, <-app_assoc).
  assert (t_next_order_id t5 = t_next_order_id t3) as N5 by done. clearbody t5.
  intros Hk. assert (appends t5 t4) as [(l2 & M1 & M2) M3].
  { revert Hk. case_match; [apply appends_answer, appends_drain|intros [= <-]; eauto with appends]. }
  exists l1, l2. rewrite M1, E5, <-!app_assoc. split_and!; [done..|lia].
Qed.

(** ** Ids are unique *)
Record IdInv (te : TradingEngine) : Prop := mkIdInv {
  id_nodup : NoDup (order_ids (t_log te));
  id_below : Forall (λ i, i < t_next_order_id te) (order_ids (t_log te));
}.

Lemma IdInv_appends te te' : IdInv te → appends te te' → IdInv te'.
Proof.
  intros [H1 H2] [(l & E & El) Hn]. split; rewrite E, order_ids_app, El, app_nil_r; [done|].
  eapply Forall_impl; [done|]. simpl. lia.
Qed.

Lemma IdInv_submit sym owner o cb uuid te u te' :
  IdInv te → o_id o = 0 → trading_submit sym owner o cb uuid te = Ok (u, te') → IdInv te'.
Proof.
  intros [H1 H2] Ho (l1 & l2 & E & E1 & E2 & Hn)%submit_reports. rewrite Ho in *. cbn [Z.eqb] in *.
  assert (order_ids (t_log te') = order_ids (t_log te) ++ [t_next_order_id te]) as Ei.
  { rewrite E, !order_ids_app, E1, app_nil_l. simpl. unfold order_ids in E2 |- *. by rewrite E2. }
  split; rewrite Ei.
  - apply NoDup_app. split_and!; [done| |apply NoDup_singleton]. intros i Hi ->%list_elem_of_singleton.
    rewrite Forall_forall in H2. specialize (H2 _ Hi). simpl in H2. lia.
  - apply Forall_app. split; [|by repeat constructor; lia]. eapply Forall_impl; [done|]. simpl. lia.
Qed.

Lemma IdInv_run op te te' :
  IdInv te → match op with TSubmit _ _ o _ _ => o_id o = 0 | _ => True end → run_trading te op = Ok te' → IdInv te'.
Proof.
  intros HI Hop. destruct op as [sym owner o cb uuid|uuid req|sym op| | |k r|]; cbn [run_trading].
  - intros ([u t1] & H1 & [= <-])%bind_Ok. by eapply IdInv_submit.
  - intros ([[x y] t1] & H1%same_queue_cancel & [= <-])%bind_Ok. by eapply IdInv_appends, appends_same.
  - intros ([ts t1] & H1%same_queue_run_auction & [= <-])%bind_Ok. by eapply IdInv_appends, appends_same.
  - intros [= <-]. eapply IdInv_appends; [done|]. unfold commit, tell. eauto with appends.
  - intros Hd%(appends_ask _ appends_drain); [|done]. by eapply IdInv_appends.
  - unfold storage_replies. case_match; [|by intros [= <-]].
    intros Hd%(appends_answer _ appends_drain). eapply IdInv_appends; [exact HI|]. exact Hd.
  - intros [= <-]. eapply IdInv_appends; [done|]. unfold helper_dies. eauto with appends.
Qed.

(** An id names one order: its symbol and its owner. *)
Lemma order_reported_unique l sym sym' owner owner' i :
  NoDup (order_ids l) → order_reported l sym owner i → order_reported l sym' owner' i → sym' = sym ∧ owner' = owner.
Proof.
  intros Hnd (s & p & q & H1) (s' & p' & q' & H2). induction l as [|f l IH]; [by apply elem_of_nil in H1|].
  assert (∀ sym owner s p q, Asked (ReportOrder sym owner i s p q) ∈ l → i ∈ order_ids l) as Hin.
  { intros * Hx. apply list_elem_of_omap. by eexists. }
  apply elem_of_cons in H1 as [E1|H1], H2 as [E2|H2]; subst.
  - by injection E2.
  - apply NoDup_cons in Hnd as [Hni _]. destruct Hni. by eapply Hin.
  - apply NoDup_cons in Hnd as [Hni _]. destruct Hni. by eapply Hin.
  - apply IH; [|done..]. destruct f as [[]| | |]; try done. by apply NoDup_cons in Hnd as [_ ?].
Qed.
