(* ===== verification/TradingLive.v ===== *)
(** * The trading engine makes progress

    While the storage helper is there: every operation returns, the matching
    engine behind it stays reachable (so that the theorems about books and feeds
    apply), and an order that waits in the queue waits for a reply that is still
    outstanding. *)

From S2P Require Import Prelude.
From S2P Require Import Order.
From S2P Require Import Book.
From S2P Require Import BookInv.
From S2P Require Import BookFlow.
From S2P Require Import BookSubmit.
From S2P Require Import BookEmit.
From S2P Require Import MatchingEngine.
From S2P Require Import EngineTotal.
From S2P Require Import TradingEngine.
From S2P Require Import TradingFifo.
From S2P Require Import Sample.

(** ** The invariant *)

Definition is_levels (w : Waiter) : bool := match w with OnLevels _ _ => true | _ => false end.
(** Outstanding depth pulls. *)
Definition pulls (l : list Waiter) : nat := length (List.filter is_levels l).

Definition pending_ok (te : TradingEngine) (seq : SeqNo) (p : Pending) : Prop :=
  submittable (p_order p) ∧ o_id (p_order p) < t_next_order_id te ∧
  engine_occ (t_matching te) (p_symbol p) (o_id (p_order p)) = 0%nat ∧
  (p_acked p = false → OnOrder seq ∈ t_waiting te) ∧
  (p_pos_ready p = false → (p_symbol p, p_client_id p) ∈ t_position_loading te).

Record Live (te : TradingEngine) : Prop := mkLive {
  lv_reach : engine_reachable (t_matching te);
  lv_mem : e_mem_levels (t_matching te) = t_mem_levels te;
  lv_alive : t_dead te = false;
  lv_ids : ∀ s j, engine_occ (t_matching te) s j ≠ 0%nat → j < t_next_order_id te;
  lv_pend : ∀ seq p, t_pending te !! seq = Some p → pending_ok te seq p;
  lv_distinct : ∀ s1 s2 p1 p2, t_pending te !! s1 = Some p1 → t_pending te !! s2 = Some p2 →
    o_id (p_order p1) = o_id (p_order p2) → s1 = s2;
  lv_loading : ∀ s c, (s, c) ∈ t_position_loading te → OnPosition s c ∈ t_waiting te;
  lv_pulls : t_depth_pulls te = Z.of_nat (pulls (t_waiting te));
  lv_window : pulls (t_waiting te) ≠ 0%nat → t_mem_levels te ≠ 0%nat;
}.

(** The order at the head of the queue cannot be placed yet. *)
Definition head_waits (te : TradingEngine) : Prop :=
  ∀ p, t_pending te !! t_next_place_seq te = Some p →
    p_acked p = true → p_pos_ready p = true → 0 < t_depth_pulls te.

(** Steps that leave the queue and what it waits for alone. *)
Record still (te te' : TradingEngine) : Prop := mkStill {
  st_pending : t_pending te' = t_pending te;
  st_place : t_next_place_seq te' = t_next_place_seq te;
  st_loading : t_position_loading te' = t_position_loading te;
  st_pulls : t_depth_pulls te' = t_depth_pulls te;
  st_next_id : t_next_order_id te' = t_next_order_id te;
  st_mem : t_mem_levels te' = t_mem_levels te;
  st_dead : t_dead te' = t_dead te;
  st_waiting : ∃ l, t_waiting te' = t_waiting te ++ l ∧ Forall (eq OnReport) l;
  st_engine : engine_reachable (t_matching te) → grows nothing (t_matching te) (t_matching te');
}.

#[export] Instance still_preorder : PreOrder still.
Proof.
  split.
  - intros te. split; try done; [exists []; by rewrite app_nil_r|apply grows_refl].
  - intros t1 t2 t3 [A1 A2 A3 A4 A5 A6 A7 (l & A8 & A9) A10] [B1 B2 B3 B4 B5 B6 B7 (l' & B8 & B9) B10].
    split; [congruence..| |].
    + exists (l ++ l'). rewrite B8, A8, app_assoc. split; [done|by apply Forall_app].
    + intros HR. specialize (A10 HR). eapply grows_trans; [done|]. apply B10, A10.
Qed.

Lemma pulls_app l l' : pulls (l ++ l') = (pulls l + pulls l')%nat.
Proof. unfold pulls. by rewrite List.filter_app, length_app. Qed.
Lemma pulls_snoc l w : is_levels w = false → pulls (l ++ [w]) = pulls l.
Proof. intros Hw. rewrite pulls_app. unfold pulls at 2. simpl. rewrite Hw. simpl. lia. Qed.
Lemma pulls_reports l : Forall (eq OnReport) l → pulls l = 0%nat.
Proof. induction 1 as [|x l <- _ IH]; [done|]. exact IH. Qed.

Lemma grows_fresh P e e' s j :
  grows P e e' → ¬ P s j → engine_occ e s j = 0%nat → engine_occ e' s j = 0%nat.
Proof.
  intros Hg Hn H0. destruct (decide (engine_occ e' s j = 0%nat)) as [?|Hj]; [done|].
  by destruct (gr_occ _ _ _ Hg s j Hj).
Qed.

Lemma Live_still te te' : Live te → still te te' → Live te' ∧ (head_waits te → head_waits te').
Proof.
  intros [L1 L2 L3 L4 L5 L6 L7 L8 L9] [S1 S2 S3 S4 S5 S6 S7 (l & S8 & S9) S10]. specialize (S10 L1).
  split; [split|]; rewrite ?S1, ?S2, ?S3, ?S4, ?S5, ?S6, ?S7, ?S8, ?pulls_app, ?(pulls_reports l S9); try done.
  - apply S10.
  - rewrite (gr_mem _ _ _ S10). done.
  - intros s j Hj. destruct (gr_occ _ _ _ S10 s j Hj) as [?|[]]. eauto.
  - intros seq p Hp. destruct (L5 seq p Hp) as (H1 & H2 & H3 & H4 & H5).
    unfold pending_ok. rewrite S3, S5, S8. split_and!; try done.
    + by eapply grows_fresh; [exact S10|intros []|].
    + set_solver.
  - set_solver.
  - rewrite L8. lia.
  - rewrite Nat.add_0_r. done.
  - unfold head_waits. by rewrite S1, S2, S4.
Qed.

Create HintDb live.
Lemma still_field te te' :
  t_pending te' = t_pending te → t_next_place_seq te' = t_next_place_seq te →
  t_position_loading te' = t_position_loading te → t_depth_pulls te' = t_depth_pulls te →
  t_next_order_id te' = t_next_order_id te → t_mem_levels te' = t_mem_levels te →
  t_dead te' = t_dead te → t_waiting te' = t_waiting te → t_matching te' = t_matching te → still te te'.
Proof.
  intros H1 H2 H3 H4 H5 H6 H7 H8 H9. split; try done.
  - exists []. by rewrite app_nil_r.
  - rewrite H9. apply grows_refl.
Qed.
#[export] Hint Extern 2 (still _ _) => (by apply still_field) : live.

Lemma still_matching te m :
  (engine_reachable (t_matching te) → grows nothing (t_matching te) m) → still te (set_t_matching m te).
Proof. intros H. split; try done. exists []. by rewrite app_nil_r. Qed.

Lemma still_foldl {A} (f : TradingEngine → A → TradingEngine) l :
  (∀ te x, still te (f te x)) → ∀ te, still te (foldl f te l).
Proof. intros Hf. induction l as [|x l IH]; intros te; [done|]. simpl. by etrans; [apply Hf|]. Qed.

Lemma still_log f te : still te (log f te).
Proof. eauto with live. Qed.

Lemma still_report c te : still te (report c te).
Proof.
  unfold report. etrans; [by apply (still_field te (log (Asked c) te))|]. case_match.
  - unfold on_report. simpl. eauto with live.
  - split; try done; [by exists [OnReport]; split; [|constructor]|apply grows_refl].
Qed.
Lemma still_tell c te : still te (tell c te).
Proof. unfold tell. eauto with live. Qed.

Lemma still_requeued sym te : still te (report_requeued sym te).
Proof.
  unfold report_requeued. destruct (engine_take_requeued sym (t_matching te)) as [os m] eqn:E.
  etrans; [|by apply still_foldl; intros; apply still_tell]. apply still_matching. intros HR.
  pose proof (engine_take_requeued_grows sym _ HR) as Hg. by rewrite E in Hg.
Qed.

Lemma still_results sym o out te : still te (report_results sym o out te).
Proof.
  unfold report_results. etrans; [|apply still_foldl; intros; apply still_report].
  etrans; [apply (still_foldl (λ te t, report (trade_report sym t) te) (out_trades out)); intros; apply still_report|].
  case_match; [apply still_report|reflexivity].
Qed.

Lemma still_auction sym ts te : still te (report_auction sym ts te).
Proof.
  unfold report_auction. etrans; [|apply still_foldl; intros; apply still_report].
  apply still_foldl; intros; apply still_report.
Qed.

Lemma still_prune sym out te : still te (prune_filled sym out te).
Proof. apply still_foldl. intros te' t. unfold prune_one. repeat case_match; eauto with live; reflexivity. Qed.

Lemma still_register p ro te : still te (register_handle p ro te).
Proof. unfold register_handle. etrans; [|apply still_tell]. eauto with live. Qed.

Lemma still_client_for owner te : still te (client_for owner te).2.
Proof. unfold client_for. repeat case_match; first [reflexivity|simpl; eauto with live]. Qed.

(** ** Placing an order *)

(** The matching engine is replaced by one without ids that the queue holds. *)
Lemma Live_matching P te m :
  Live te → grows P (t_matching te) m → (∀ s j, P s j → j < t_next_order_id te) →
  (∀ seq p, t_pending te !! seq = Some p → ¬ P (p_symbol p) (o_id (p_order p))) →
  Live (set_t_matching m te).
Proof.
  intros [L1 L2 L3 L4 L5 L6 L7 L8 L9] Hg Hid Hq. split; simpl; try done.
  - apply Hg.
  - by rewrite (gr_mem _ _ _ Hg).
  - intros s j Hj. destruct (gr_occ _ _ _ Hg s j Hj); eauto.
  - intros seq p Hp. destruct (L5 seq p Hp) as (H1 & H2 & H3 & H4 & H5). split_and!; try done. simpl.
    eapply grows_fresh; eauto.
Qed.

Definition dequeued (te : TradingEngine) : TradingEngine :=
  set_t_next_place_seq (t_next_place_seq te + 1)
    (set_t_pending (delete (t_next_place_seq te) (t_pending te)) te).

Lemma Live_dequeued te : Live te → Live (dequeued te).
Proof.
  intros [L1 L2 L3 L4 L5 L6 L7 L8 L9]. split; simpl; try done.
  - intros seq p [_ Hp]%lookup_delete_Some. by apply L5.
  - intros s1 s2 p1 p2 [_ H1]%lookup_delete_Some [_ H2]%lookup_delete_Some. by eapply L6.
Qed.

Lemma place_ok te p :
  Live te → t_pending te !! t_next_place_seq te = Some p →
  ∃ te', place (t_next_place_seq te) p (dequeued te) = Ok te' ∧ Live te' ∧
    t_pending te' = delete (t_next_place_seq te) (t_pending te).
Proof.
  intros HL Hp. pose proof (Live_dequeued te HL) as HD. unfold place. destruct (p_ok p).
  2:{ eexists. split; [done|]. split; [|done]. eapply Live_still; [exact HD|eauto with live]. }
  destruct (lv_pend _ HL _ _ Hp) as (Hsub & Hlt & Hocc & _).
  destruct (engine_submit_total (p_symbol p) (t_matching te) (lv_reach _ HL) (p_order p) Hsub Hocc) as (out & m & Hs & Hg).
  change (t_matching (dequeued te)) with (t_matching te). rewrite Hs. cbn [mbind res_bind].
  assert (Live (set_t_matching m (dequeued te))) as HL1.
  { eapply Live_matching; [exact HD|exact Hg|by intros s j [_ ->]|].
    intros seq q Hq [_ Heq]. simpl in Hq. apply lookup_delete_Some in Hq as [Hne Hq]. by destruct (Hne (lv_distinct _ HL _ _ _ _ Hp Hq (eq_sym Heq))). }
  eexists. split; [done|].
  match goal with |- Live ?x ∧ _ => assert (still (set_t_matching m (dequeued te)) x) as Hst end.
  { etrans; [|apply still_log]. etrans; [|apply still_prune]. etrans; [|apply still_requeued].
    etrans; [|apply still_results]. case_match; [apply still_register|reflexivity]. }
  split; [by eapply Live_still|]. by rewrite (st_pending _ _ Hst).
Qed.

(** ** Widening the window *)
Lemma Live_pulling te n ws w l :
  Live te → t_mem_levels te ≠ 0%nat → Forall (λ w, is_levels w = true) ws → n = Z.of_nat (length ws) →
  Live (set_t_waiting (t_waiting te ++ ws)
          (set_t_log l (set_t_depth_pulls (t_depth_pulls te + n) (set_t_warmed w te)))).
Proof.
  intros [L1 L2 L3 L4 L5 L6 L7 L8 L9] Hm Hws ->.
  assert (pulls ws = length ws) as Hp.
  { unfold pulls. induction Hws as [|x ws Hx _ IH]; [done|]. simpl. rewrite Hx. simpl. by rewrite IH. }
  split; simpl; try done.
  - intros seq p H. destruct (L5 seq p H) as (H1 & H2 & H3 & H4 & H5). split_and!; try done. simpl. set_solver.
  - set_solver.
  - rewrite pulls_app, Hp, L8. lia.
Qed.

Lemma ask_alive d c w te :
  t_dead te = false → ask d c w te = Ok (set_t_waiting (t_waiting te ++ [w]) (log (Asked c) te)).
Proof. intros H. unfold ask. simpl. by rewrite H. Qed.

Lemma ensure_depth_ok d sym o te :
  Live te → ∃ ready te', ensure_depth d sym o te = Ok (ready, te') ∧
    if ready then te' = te
    else Live te' ∧ 0 < t_depth_pulls te' ∧ t_pending te' = t_pending te.
Proof.
  intros HL. pose proof (lv_alive _ HL) as Hal. unfold ensure_depth.
  case_match eqn:Hm; [by exists true, te|]. apply Nat.eqb_neq in Hm.
  destruct (0 <? t_depth_pulls te) eqn:Hd; [exists false, te; split_and!; [done..|by apply Z.ltb_lt|done]|].
  pose proof (lv_pulls _ HL) as Hp. case_match.
  - case_match; [|by exists true, te]. rewrite ask_alive by done. eexists false, _. split; [done|]. split_and!; [|simpl; lia|done].
    by apply (Live_pulling te 1 [_] (t_warmed te)); [..|repeat constructor|].
  - rewrite ask_alive by done. cbn [mbind res_bind]. rewrite ask_alive by done.
    eexists false, _. split; [done|]. split_and!; [|simpl; lia|done]. simpl. rewrite <-app_assoc. simpl.
    set (k := Z.of_nat (t_mem_levels te)).
    by apply (Live_pulling te 2 [OnLevels sym Buy; OnLevels sym Sell] ({[sym]} ∪ t_warmed te)
      ((t_log te ++ [Asked (PullLevels sym Buy kMax k)]) ++ [Asked (PullLevels sym Sell kMin k)]));
      [..|repeat constructor|].
Qed.

Lemma drain_loop_ok fuel : ∀ te,
  Live te → (size (t_pending te) < fuel)%nat → ∃ te', drain_loop fuel te = Ok te' ∧ Live te' ∧ head_waits te'.
Proof.
  induction fuel as [|fuel IH]; intros te HL Hf; [lia|]. cbn [drain_loop].
  destruct (t_pending te !! t_next_place_seq te) as [p|] eqn:Hp.
  2:{ exists te. split_and!; [done..|]. intros q. by rewrite Hp. }
  destruct (negb (p_acked p) || negb (p_pos_ready p)) eqn:Hw.
  { exists te. split_and!; [done..|]. intros q. rewrite Hp. intros [= <-] Ha Hr. by rewrite Ha, Hr in Hw. }
  destruct (ensure_depth_ok (drain_loop fuel) (p_symbol p) (p_order p) te HL) as (ready & t1 & -> & Hr).
  cbn [mbind res_bind]. destruct ready; cbn [negb].
  - subst t1. destruct (place_ok te p HL Hp) as (t2 & Hpl & HL2 & Hpend). unfold dequeued in Hpl. rewrite Hpl.
    cbn [mbind res_bind]. apply IH; [done|]. rewrite Hpend. rewrite map_size_delete_Some by eauto.
    assert (0 < size (t_pending te))%nat; [|lia]. destruct (size (t_pending te)) eqn:E; [|lia].
    apply map_size_empty_inv in E. by rewrite E, lookup_empty in Hp.
  - destruct Hr as (HL1 & Hpos & Hpend). exists t1. split_and!; [done..|]. by intros q _ _ _.
Qed.

Lemma drain_ok te : Live te → ∃ te', drain te = Ok te' ∧ Live te' ∧ head_waits te'.
Proof. intros HL. apply drain_loop_ok; [done|lia]. Qed.

(** ** Replies *)

(** What storage promises of a depth pull of [sym]: orders that rest, under ids
    assigned before, that are not in the queue and, unless they are resident,
    nowhere else in the book. *)
Definition pulled_ok (te : TradingEngine) (sym : Symbol) (po : PulledOrder) : Prop :=
  0 < po_leaves po ∧ po_id po < t_next_order_id te ∧
  (∀ seq p, t_pending te !! seq = Some p → o_id (p_order p) ≠ po_id po) ∧
  (engine_find sym (po_id po) (t_matching te) = None → engine_occ (t_matching te) sym (po_id po) = 0%nat).

Definition reply_ok (te : TradingEngine) (w : Waiter) (r : Reply) : Prop :=
  match w with OnLevels sym _ => Forall (pulled_ok te sym) (rp_orders r) | _ => True end.

(** The pulled orders as changes of the engine. *)
Definition pull_engine (ignore : gset OrderId) (sym : Symbol) (side : Side) (m : MatchingEngine) (po : PulledOrder)
    : MatchingEngine :=
  if decide (po_id po ∈ ignore) then m
  else match engine_find sym (po_id po) m with
       | Some _ => m
       | None => engine_insert_resident sym (pulled_order side po) m
       end.

Lemma pull_fold sym side os : ∀ te,
  foldl (pull_one sym side) te os =
  set_t_matching (foldl (pull_engine (t_pull_ignore te) sym side) (t_matching te) os) te.
Proof.
  induction os as [|po os IH]; intros te; [by destruct te|]. cbn [foldl]. rewrite IH.
  assert (pull_one sym side te po =
    set_t_matching (pull_engine (t_pull_ignore te) sym side (t_matching te) po) te) as ->; [|done].
  unfold pull_one, pull_engine. case_decide; [by destruct te|]. case_match; [by destruct te|done].
Qed.

Lemma pull_engine_ok ignore sym side os : ∀ m,
  engine_reachable m → e_mem_levels m ≠ 0%nat →
  Forall (λ po, 0 < po_leaves po ∧
    (engine_find sym (po_id po) m = None → engine_occ m sym (po_id po) = 0%nat)) os →
  grows (λ s j, s = sym ∧ j ∈ po_id <$> os) m (foldl (pull_engine ignore sym side) m os).
Proof.
  induction os as [|po os IH]; intros m HR Hm Hos; [split; [done..|by left]|].
  apply Forall_cons in Hos as [[Hpos Hocc] Hos]. cbn [foldl].
  assert (∀ m', grows (λ s j, s = sym ∧ j = po_id po) m m' →
    Forall (λ po, 0 < po_leaves po ∧
      (engine_find sym (po_id po) m' = None → engine_occ m' sym (po_id po) = 0%nat)) os →
    grows (λ s j, s = sym ∧ j ∈ po_id <$> po :: os) m (foldl (pull_engine ignore sym side) m' os)) as Hgo.
  { intros m' [G1 G2 G3] Hos'. specialize (IH m' G1 ltac:(congruence) Hos') as [I1 I2 I3].
    split; [done|congruence|]. intros s j Hj. rewrite fmap_cons, elem_of_cons.
    destruct (I3 s j Hj) as [Hj'|[-> ?]]; [|by auto]. destruct (G3 s j Hj') as [?|[-> ->]]; auto. }
  unfold pull_engine at 2. assert (grows (λ s j, s = sym ∧ j = po_id po) m m) as Hrefl by (split; [done..|by left]).
  case_decide; [by apply Hgo|]. destruct (engine_find sym (po_id po) m) as [o|] eqn:Hf; [by apply Hgo|].
  destruct (engine_insert_resident_grows sym m HR (pulled_order side po)) as [Hg Hfind]; [by split|by apply Hocc|done|].
  apply Hgo; [done|]. eapply Forall_impl; [exact Hos|]. intros po' [Hp' Ho']. split; [done|].
  rewrite Hfind. case_decide as Hid; [done|]. intros Hn. eapply grows_fresh; [exact Hg|by intros [_ ?]|by apply Ho'].
Qed.

Lemma unwait {w w' : Waiter} {l : list Waiter} {k : nat} : l !! k = Some w → w' ∈ l → w' ≠ w → w' ∈ delete k l.
Proof.
  intros Hk Hin Hne. apply delete_Permutation in Hk. rewrite Hk in Hin. by apply elem_of_cons in Hin as [?|?].
Qed.

Lemma pulls_delete l (k : nat) w : l !! k = Some w → pulls l = ((if is_levels w then 1 else 0) + pulls (delete k l))%nat.
Proof.
  intros Hk. assert (∀ l l', l ≡ₚ l' → pulls l = pulls l') as Hperm.
  { unfold pulls. induction 1; simpl; repeat case_match; simpl; congruence. }
  rewrite (Hperm _ _ (delete_Permutation _ _ _ Hk)). unfold pulls. simpl. by case_match.
Qed.

(** The outstanding request [k] is gone, and what its callback did to the queue
    makes up for it. *)
Lemma Live_answered te (k : nat) w pend loading n :
  Live te → t_waiting te !! k = Some w →
  (∀ seq p', pend !! seq = Some p' → ∃ p, t_pending te !! seq = Some p ∧
    p_order p' = p_order p ∧ p_symbol p' = p_symbol p ∧
    (p_acked p' = false → p_acked p = false ∧ w ≠ OnOrder seq) ∧
    (p_pos_ready p' = false → (p_symbol p', p_client_id p') ∈ loading)) →
  loading ⊆ t_position_loading te → (∀ s c, w = OnPosition s c → (s, c) ∉ loading) →
  n = t_depth_pulls te - (if is_levels w then 1 else 0) →
  Live (set_t_depth_pulls n (set_t_position_loading loading
          (set_t_pending pend (set_t_waiting (delete k (t_waiting te)) te)))).
Proof.
  intros [L1 L2 L3 L4 L5 L6 L7 L8 L9] Hk Hpend Hld Hpos ->. pose proof (pulls_delete _ _ _ Hk) as Hpl.
  split; simpl; try done.
  - intros seq p' Hp'. destruct (Hpend seq p' Hp') as (p & Hp & E1 & E2 & Ha & Hr).
    destruct (L5 seq p Hp) as (H1 & H2 & H3 & H4 & H5). unfold pending_ok. simpl. rewrite E1, E2.
    split_and!; try done; [|by rewrite <-E2]. intros [Hna Hne]%Ha. by apply (unwait Hk); [apply H4|].
  - intros s1 s2 p1 p2 H1 H2 Heq. destruct (Hpend _ _ H1) as (q1 & K1 & E1 & _).
    destruct (Hpend _ _ H2) as (q2 & K2 & E2 & _). eapply L6; [done..|congruence].
  - intros s c Hsc. apply (unwait Hk); [by apply L7, Hld|]. intros <-. by apply (Hpos s c).
  - rewrite L8, Hpl. case_match; lia.
  - intros Hne. apply L9. lia.
Qed.

(** Nothing of the queue changes. *)
Lemma Live_unwait te k w :
  Live te → t_waiting te !! k = Some w → is_levels w = false →
  (∀ seq p, w = OnOrder seq → t_pending te !! seq ≠ Some p) → (∀ s c, w ≠ OnPosition s c) →
  Live (set_t_waiting (delete k (t_waiting te)) te).
Proof.
  intros HL Hk Hlv Hseq Hpos.
  assert (Live (set_t_depth_pulls (t_depth_pulls te) (set_t_position_loading (t_position_loading te)
    (set_t_pending (t_pending te) (set_t_waiting (delete k (t_waiting te)) te))))) as H.
  { apply (Live_answered te k w); try done.
    - intros seq p Hp. exists p. destruct (lv_pend _ HL _ _ Hp) as (_ & _ & _ & _ & ?).
      split_and!; try done. intros Ha. split; [done|]. intros ->. by apply (Hseq seq p).
    - intros s c ->. by destruct (Hpos s c).
    - rewrite Hlv. lia. }
  by destruct te.
Qed.

Lemma Live_fields te te' :
  Live te → still te te' → Live te'.
Proof. intros HL Hs. by apply (Live_still te). Qed.

Lemma on_pull_ok te (k : nat) sym s os f :
  Live te → head_waits te → t_waiting te !! k = Some (OnLevels sym s) → Forall (pulled_ok te sym) os →
  ∃ te', on_pull drain sym s os (log f (set_t_waiting (delete k (t_waiting te)) te)) = Ok te' ∧
         Live te' ∧ head_waits te'.
Proof.
  intros HL Hh Hk Hos. unfold on_pull. rewrite pull_fold. simpl. set (m := foldl _ _ _).
  pose proof (pulls_delete _ _ _ Hk) as Hpl. simpl in Hpl.
  assert (grows (λ s j, s = sym ∧ j ∈ po_id <$> os) (t_matching te) m) as Hg.
  { apply pull_engine_ok; [apply HL| |].
    - rewrite (lv_mem _ HL). apply (lv_window _ HL). lia.
    - eapply Forall_impl; [exact Hos|]. by intros po (? & _ & _ & ?). }
  set (n := t_depth_pulls te - 1).
  assert (Live (set_t_matching m (set_t_depth_pulls n (set_t_position_loading (t_position_loading te)
    (set_t_pending (t_pending te) (set_t_waiting (delete k (t_waiting te)) te)))))) as HL1.
  { rewrite Forall_forall in Hos. eapply Live_matching; [|exact Hg|..].
    - apply (Live_answered te k (OnLevels sym s)); try done. intros seq p Hp. exists p.
      destruct (lv_pend _ HL _ _ Hp) as (_ & _ & _ & _ & ?). by split_and!.
    - simpl. intros s' j [_ (po & -> & Hpo)%list_elem_of_fmap]. by apply (Hos po Hpo).
    - simpl. intros seq p Hp [_ (po & Heq & Hpo)%list_elem_of_fmap]. destruct (Hos po Hpo) as (_ & _ & Hq & _).
      by destruct (Hq seq p Hp). }
  destruct (Z.eqb_spec n 0) as [E|E].
  - apply drain_ok. eapply Live_fields; [exact HL1|by apply still_field].
  - eexists. split; [done|]. split; [eapply Live_fields; [exact HL1|by apply still_field]|].
    intros p _ _ _. pose proof (lv_pulls _ HL1) as Hn. simpl in *. lia.
Qed.

Lemma on_position_ok te (k : nat) sym c r :
  Live te → head_waits te → t_waiting te !! k = Some (OnPosition sym c) →
  ∃ te', on_position drain sym c r (log (Got (OnPosition sym c) r) (set_t_waiting (delete k (t_waiting te)) te)) = Ok te' ∧
         Live te' ∧ head_waits te'.
Proof.
  intros HL Hh Hk. unfold on_position. apply drain_ok. set (ready := λ p : Pending, _).
  set (m := if rp_ok r then engine_seed_position sym c (rp_net r) (t_matching te) else t_matching te).
  set (t1 := set_t_depth_pulls (t_depth_pulls te) (set_t_position_loading (t_position_loading te ∖ {[(sym, c)]})
               (set_t_pending (ready <$> t_pending te) (set_t_waiting (delete k (t_waiting te)) te)))).
  assert (Live t1) as HL1.
  { apply (Live_answered te k (OnPosition sym c)); [done..| |set_solver|set_solver|simpl; lia].
    intros seq p'. rewrite lookup_fmap. intros (p & Hp & ->)%fmap_Some. exists p.
    destruct (lv_pend _ HL _ _ Hp) as (_ & _ & _ & _ & Hl). unfold ready.
    case_decide as Hd; [by split_and!|]. split_and!; try done. intros Hr%Hl. set_solver. }
  eapply Live_fields; [exact HL1|]. etrans; [apply (still_matching t1 m)|by destruct (rp_ok r); apply still_field].
  intros HR. unfold m. destruct (rp_ok r); [by apply engine_seed_position_grows|by apply grows_refl].
Qed.

Lemma Live_next_id te n : Live te → t_next_order_id te ≤ n → Live (set_t_next_order_id n te).
Proof.
  intros [L1 L2 L3 L4 L5 L6 L7 L8 L9] Hn. split; simpl; try done.
  - intros s j Hj. specialize (L4 s j Hj). lia.
  - intros seq p Hp. destruct (L5 seq p Hp) as (H1 & H2 & H3 & H4 & H5). split_and!; try done. simpl. lia.
Qed.

Lemma on_watermarks_ok r te : Live te → head_waits te → Live (on_watermarks r te) ∧ head_waits (on_watermarks r te).
Proof.
  intros HL Hh. unfold on_watermarks.
  match goal with |- Live (log Seeded ?x) ∧ _ =>
    assert (Live x ∧ head_waits x) as [H1 H2]; [|split; [by eapply Live_fields; [|apply still_log]|done]] end.
  destruct (rp_ok r); [|done]. set (t1 := if _ <? _ then _ else _).
  assert (Live t1 ∧ head_waits t1) as [HL1 Hh1].
  { unfold t1. case_match eqn:E; [|done]. split; [|done]. apply Live_next_id; [done|]. lia. }
  destruct (Live_still t1 (set_t_matching (set_seq_base (rp_max_rank r + 1) (t_matching t1)) t1) HL1) as [? Hw]; [|auto].
  apply still_matching. intros HR. by apply set_seq_base_grows.
Qed.

(** A reply to an outstanding request: its callback returns, and the engine is
    ready for the next event. *)
Lemma storage_replies_ok te k r :
  Live te → head_waits te → (∀ w, t_waiting te !! k = Some w → reply_ok te w r) →
  ∃ te', storage_replies k r te = Ok te' ∧ Live te' ∧ head_waits te'.
Proof.
  intros HL Hh Hr. unfold storage_replies. destruct (t_waiting te !! k) as [w|] eqn:Hk; [|by exists te].
  specialize (Hr w eq_refl). unfold answer.
  destruct w as [seq| |sym s|sym c|].
  - unfold on_order. simpl. destruct (t_pending te !! seq) as [p|] eqn:Hp.
    + apply drain_ok. set (p1 := mkPending _ _ _ _ _ _ _ _ _).
      eapply Live_fields; [apply (Live_answered te k (OnOrder seq) (<[seq := p1]> (t_pending te))
        (t_position_loading te) (t_depth_pulls te)); try done; [|simpl; lia]|by apply still_field].
      intros s p' [[<- <-]|[Hne Hs]]%lookup_insert_Some.
      * exists p. destruct (lv_pend _ HL _ _ Hp) as (_ & _ & _ & _ & ?). split_and!; done.
      * exists p'. destruct (lv_pend _ HL _ _ Hs) as (_ & _ & _ & _ & ?). split_and!; try done. naive_solver.
    + eexists. split; [done|]. assert (Live (set_t_waiting (delete k (t_waiting te)) te)) as HL1.
      { eapply Live_unwait; try done. intros s p [= <-]. by rewrite Hp. }
      split; [eapply Live_fields; [exact HL1|apply still_log]|done].
  - eexists. split; [done|]. assert (Live (set_t_waiting (delete k (t_waiting te)) te)) as HL1 by (by eapply Live_unwait).
    eapply Live_still in HL1 as [? Hw]; [split; [done|by apply Hw]|].
    unfold on_report. case_match; eauto with live.
  - apply (on_pull_ok te k); [done..|]. by case_match.
  - by apply on_position_ok.
  - eexists. split; [done|].
    assert (Live (set_t_waiting (delete k (t_waiting te)) te)) as HL1 by (by eapply Live_unwait).
    apply on_watermarks_ok; [|done]. eapply Live_fields; [exact HL1|apply still_log].
Qed.

(** ** Operations *)
Lemma still_ask te c w :
  Live te → is_levels w = false →
  Live (set_t_waiting (t_waiting te ++ [w]) (log (Asked c) te)) ∧
  (head_waits te → head_waits (set_t_waiting (t_waiting te ++ [w]) (log (Asked c) te))).
Proof.
  intros [L1 L2 L3 L4 L5 L6 L7 L8 L9] Hw.
  split; [|done]. split; simpl; rewrite ?pulls_snoc by done; try done.
  - intros seq p H. destruct (L5 seq p H) as (H1 & H2 & H3 & H4 & H5). split_and!; try done. simpl. set_solver.
  - set_solver.
Qed.

Lemma ensure_position_ok d sym owner c te :
  Live te → ∃ ready te', ensure_position d sym owner c te = Ok (ready, te') ∧ Live te' ∧
    t_pending te' = t_pending te ∧ t_next_place_seq te' = t_next_place_seq te ∧
    t_depth_pulls te' = t_depth_pulls te ∧ t_next_order_id te' = t_next_order_id te ∧
    t_matching te' = t_matching te ∧
    (ready = false → (sym, c) ∈ t_position_loading te').
Proof.
  intros HL. unfold ensure_position. case_match; [by exists true, te|]. case_match; [by exists true, te|].
  case_match; [by exists false, te|]. rewrite ask_alive by apply HL. eexists false, _. split; [done|].
  split_and!; try done; [|set_solver]. simpl.
  destruct HL as [L1 L2 L3 L4 L5 L6 L7 L8 L9]. split; simpl; rewrite ?pulls_snoc by done; try done.
  - intros seq p H'. destruct (L5 seq p H') as (? & ? & ? & ? & ?). split_and!; try done; simpl; set_solver.
  - set_solver.
Qed.

Lemma trading_submit_ok sym owner o cb uuid te :
  Live te → head_waits te → submittable o → o_id o = 0 →
  t_pending te !! t_next_assign_seq te = None →
  ∃ te', trading_submit sym owner o cb uuid te = Ok (uuid, te') ∧ Live te' ∧ head_waits te'.
Proof.
  intros HL Hh Hsub Hid Hnone. unfold trading_submit. rewrite Hid. simpl. set (i := t_next_order_id te).
  pose proof (still_client_for owner (set_t_next_order_id (i + 1) te)) as Hst.
  assert (t_next_assign_seq (client_for owner (set_t_next_order_id (i + 1) te)).2 = t_next_assign_seq te) as Has
    by (unfold client_for; by repeat case_match).
  destruct (client_for owner _) as [c t1]. cbn [snd] in *.
  assert (Live t1) as HL1
    by (apply (Live_fields (set_t_next_order_id (i + 1) te)); [apply Live_next_id; [exact HL|unfold i; lia]|exact Hst]).
  set (t2 := set_t_next_assign_seq _ t1). assert (Live t2) as HL2 by (eapply Live_fields; [exact HL1|by apply still_field]).
  destruct (ensure_position_ok drain sym owner c t2 HL2) as (ready & t3 & -> & HL3 & E1 & E2 & E3 & E4 & E5 & Hrd).
  cbn [mbind res_bind]. rewrite ask_alive by apply HL3. cbn [mbind res_bind]. eexists. split; [done|].
  destruct Hst as [S1 S2 S3 S4 S5 _ _ _ S9]. simpl in *. rewrite Has, E1, S1.
  unfold emplace. rewrite Hnone. set (seq := t_next_assign_seq te) in *.
  assert (∀ s j, engine_occ (t_matching t3) s j ≠ 0%nat → j < i) as Hocc.
  { intros s j. rewrite E5. simpl. intros Hj. destruct (gr_occ _ _ _ (S9 (lv_reach _ HL)) s j Hj) as [?|[]].
    by eapply (lv_ids _ HL). }
  assert (∀ s q, t_pending te !! s = Some q → o_id (p_order q) < i) as Hpid.
  { intros s q Hq. by destruct (lv_pend _ HL _ _ Hq) as (_ & ? & _). }
  destruct HL3 as [L1 L2 L3 L4 L5 L6 L7 L8 L9]. rewrite E1, S1 in L5, L6. split; [split|]; simpl; rewrite ?pulls_snoc by done; try done.
  - intros s p [[<- <-]|[Hne Hp]]%lookup_insert_Some.
    + unfold pending_ok. simpl. rewrite E4, S5. split_and!; [by destruct Hsub|lia| |set_solver|done].
      destruct (decide (engine_occ (t_matching t3) sym i = 0%nat)) as [?|Hj]; [done|]. apply Hocc in Hj. lia.
    + destruct (L5 s p Hp) as (? & ? & ? & ? & ?). split_and!; try done. simpl. set_solver.
  - intros s1 s2 p1 p2 [[<- <-]|[N1 H1]]%lookup_insert_Some [[<- <-]|[N2 H2]]%lookup_insert_Some; simpl; [done|..].
    + intros Heq. specialize (Hpid _ _ H2). lia.
    + intros Heq. specialize (Hpid _ _ H1). lia.
    + by eapply L6.
  - set_solver.
  - unfold head_waits. simpl. rewrite E2, E3, S2, S4. intros p [[_ <-]|[Hne Hp]]%lookup_insert_Some; [done|by apply Hh].
Qed.

Lemma trading_cancel_ok uuid requester te :
  Live te → head_waits te → ∃ r te', trading_cancel uuid requester te = Ok (r, te') ∧ Live te' ∧ head_waits te'.
Proof.
  intros HL Hh. unfold trading_cancel. destruct (t_handles te !! uuid) as [h|]; [|by eexists _, te].
  case_match; [by eexists _, te|].
  destruct (engine_cancel_total (h_symbol h) (t_matching te) (lv_reach _ HL) (h_id h)) as (r & m & -> & Hg & _).
  cbn [mbind res_bind]. eexists _, _. split; [done|]. set (t1 := report_requeued _ _).
  assert (still te t1) as H1.
  { etrans; [|apply still_requeued]. etrans; [|apply still_tell]. by apply still_matching. }
  eapply Live_still in HL as [? Hw]; [split; [done|by apply Hw]|]. etrans; [exact H1|]. case_match; by apply still_field.
Qed.

Lemma run_auction_ok sym opening te :
  Live te → head_waits te → ∃ ts te', run_auction sym opening te = Ok (ts, te') ∧ Live te' ∧ head_waits te'.
Proof.
  intros HL Hh. unfold run_auction.
  destruct (engine_auction_total sym (t_matching te) (lv_reach _ HL) opening) as (ts & m & -> & Hg).
  cbn [mbind res_bind]. eexists _, _. split; [done|].
  eapply Live_still in HL as [? Hw]; [split; [done|by apply Hw]|].
  etrans; [|apply still_requeued]. etrans; [|apply still_auction]. by apply still_matching.
Qed.

(** ** Sessions *)

(** What callers and storage promise of an operation: the engine assigns the id
    of an order, and replies are well formed. *)
Definition op_ok (te : TradingEngine) (op : trading_op) : Prop :=
  match op with
  | TSubmit _ _ o _ _ => submittable o ∧ o_id o = 0
  | TReply k r => ∀ w, t_waiting te !! k = Some w → reply_ok te w r
  | TDie => False
  | _ => True
  end.

(** Sessions from the start, while the helper is there. *)
Inductive trading_session (mem : nat) : list trading_op → TradingEngine → Prop :=
  | ts_new m : engine_reachable m → e_mem_levels m = mem → e_books m = ∅ →
      trading_session mem [] (new_trading m mem)
  | ts_step ops te op te' : trading_session mem ops te → op_ok te op → run_trading te op = Ok te' →
      trading_session mem (ops ++ [op]) te'.

Lemma Live_new m mem :
  engine_reachable m → e_mem_levels m = mem → e_books m = ∅ → Live (new_trading m mem).
Proof.
  intros HR Hm Hb. split; simpl; try done.
  intros s j. unfold engine_occ. by rewrite Hb, lookup_empty.
Qed.

Lemma run_trading_ok te op :
  Live te → head_waits te → t_pending te !! t_next_assign_seq te = None → op_ok te op →
  ∃ te', run_trading te op = Ok te' ∧ Live te' ∧ head_waits te'.
Proof.
  intros HL Hh Hn Hop. destruct op as [sym owner o cb uuid|uuid req|sym op| | |k r|]; cbn [run_trading].
  - destruct Hop as [H1 H2]. destruct (trading_submit_ok sym owner o cb uuid te HL Hh H1 H2 Hn) as (te' & -> & ?). by exists te'.
  - destruct (trading_cancel_ok uuid req te HL Hh) as (r & te' & -> & ?). by exists te'.
  - destruct (run_auction_ok sym op te HL Hh) as (r & te' & -> & ?). by exists te'.
  - eexists. split; [done|]. destruct (Live_still te (commit te) HL (still_tell _ _)) as [? Hw]. auto.
  - unfold seed_from_storage. rewrite ask_alive by apply HL. eexists. split; [done|].
    destruct (still_ask te PullWatermarks OnWatermarks HL eq_refl) as [? Hw]. auto.
  - by apply storage_replies_ok.
  - done.
Qed.

Lemma trading_session_ok mem ops te :
  trading_session mem ops te →
  Live te ∧ head_waits te ∧ QInv (submissions ops) (Z.of_nat (length (submissions ops)) + 1) te.
Proof.
  induction 1 as [m HR Hm Hb|ops te op te' _ (HL & Hh & HQ) Hop Hrun].
  - split_and!; [by apply Live_new|by intros p|apply QInv_new].
  - destruct (run_trading_ok te op HL Hh) as (t1 & Hrun' & HL1 & Hh1); [|done|].
    { apply eq_None_not_Some. rewrite (q_dom _ _ _ HQ), (q_assign _ _ _ HQ). lia. }
    rewrite Hrun in Hrun'. injection Hrun' as <-. split_and!; [done..|]. rewrite submissions_app. by eapply QInv_run.
Qed.
