(* ===== verification/TradingProps.v ===== *)
(** * Properties of the trading engine *)

From S2P Require Import Prelude.
From S2P Require Import Order.
From S2P Require Import Book.
From S2P Require Import BookInv.
From S2P Require Import BookFlow.
From S2P Require Import BookSubmit.
From S2P Require Import BookProps.
From S2P Require Import BookEmit.
From S2P Require Import MatchingEngine.
From S2P Require Import EngineTotal.
From S2P Require Import TradingEngine.
From S2P Require Import TradingFifo.
From S2P Require Import TradingIds.
From S2P Require Import TradingLive.
From S2P Require Import Sample.

(** ** Every operation returns *)

(** C17: the trading engine does not fail while the storage helper lives and
    callers and storage keep their promises. The session so far and the further
    operation: orders are [submittable] and come without an id, the helper does
    not die, and orders pulled from storage rest, under ids assigned before, of
    orders that are neither queued nor elsewhere in the book; replies come in
    any order. Then the operation returns: no loop runs out, no book throws. The
    matching engine behind it is reachable through its own interface, so that
    what is proved of reachable books and engines holds of it. *)
Theorem trading_total mem ops te op :
  trading_session mem ops te → op_ok te op →
  ∃ te', run_trading te op = Ok te' ∧ trading_session mem (ops ++ [op]) te' ∧
    engine_reachable (t_matching te').
Proof.
  intros Hs Hop. destruct (trading_session_ok mem ops te Hs) as (HL & Hh & HQ).
  destruct (run_trading_ok te op HL Hh) as (te' & Hrun & HL' & _); [|done|].
  { apply eq_None_not_Some. rewrite (q_dom _ _ _ HQ), (q_assign _ _ _ HQ). lia. }
  exists te'. split_and!; [done|by eapply ts_step|apply HL'].
Qed.

(** C18: no order is forgotten while the storage helper lives. In such a session
    (with the promises of [op_ok]) the order at the head of the queue waits for
    a reply that is outstanding: the acknowledgement of its own report, its
    account's position, or levels of a book. When no such reply is outstanding,
    every submission has been answered. Once the helper is dead this fails, see
    [dead_helper_blocks_queue]. *)
Theorem queue_waits_for_storage mem ops te :
  trading_session mem ops te →
  (∀ p, t_pending te !! t_next_place_seq te = Some p →
     OnOrder (t_next_place_seq te) ∈ t_waiting te ∨
     OnPosition (p_symbol p) (p_client_id p) ∈ t_waiting te ∨
     ∃ sym s, OnLevels sym s ∈ t_waiting te) ∧
  (Forall (λ w, w = OnReport ∨ w = OnWatermarks) (t_waiting te) →
     length (delivered (t_log te)) = length (submissions ops)).
Proof.
  intros Hs. destruct (trading_session_ok mem ops te Hs) as (HL & Hh & HQ).
  assert (∀ p, t_pending te !! t_next_place_seq te = Some p →
     OnOrder (t_next_place_seq te) ∈ t_waiting te ∨
     OnPosition (p_symbol p) (p_client_id p) ∈ t_waiting te ∨
     ∃ sym s, OnLevels sym s ∈ t_waiting te) as Hhead.
  { intros p Hp. destruct (lv_pend _ HL _ _ Hp) as (_ & _ & _ & Ha & Hr).
    destruct (p_acked p) eqn:Ea; [|left; auto]. destruct (p_pos_ready p) eqn:Er; [|right; left; by apply (lv_loading _ HL), Hr].
    right; right. pose proof (Hh p Hp Ea Er) as Hpos. rewrite (lv_pulls _ HL) in Hpos.
    destruct (List.filter is_levels (t_waiting te)) as [|w l] eqn:E; [unfold pulls in Hpos; rewrite E in Hpos; simpl in Hpos; lia|].
    assert (In w (List.filter is_levels (t_waiting te))) as [Hin Hw]%filter_In by (rewrite E; by left).
    destruct w as [| |sym s| |]; try done. exists sym, s. by apply list_elem_of_In. }
  split; [done|]. intros Hw. rewrite Forall_forall in Hw. pose proof (QInv_size _ _ _ HQ) as Hsz.
  destruct (t_pending te !! t_next_place_seq te) as [p|] eqn:Hp.
  { exfalso. destruct (Hhead p eq_refl) as [H|[H|(sym & s & H)]]; by destruct (Hw _ H). }
  assert (¬ t_next_place_seq te ≤ Z.of_nat (length (submissions ops))) as Hlt.
  { intros Hle. assert (is_Some (t_pending te !! t_next_place_seq te)) as [q Hq] by (apply (q_dom _ _ _ HQ); lia). congruence. }
  rewrite (q_done _ _ _ HQ), length_imap, length_take. pose proof (q_place _ _ _ HQ). lia.
Qed.







(** ** Reporting a placement *)














(** ** Concrete sessions *)

(** Operations whose obligations do not depend on the state. *)
Definition simple_op (op : trading_op) : Prop :=
  match op with
  | TSubmit _ _ o _ _ => submittable o ∧ o_id o = 0
  | TReply k r => rp_orders r = []
  | TDie => False
  | _ => True
  end.

Lemma simple_op_ok te op : simple_op op → op_ok te op.
Proof. destruct op; simpl; try done. intros Hr w _. destruct w; try done. simpl. by rewrite Hr. Qed.

Lemma session_extend mem ops' : ∀ ops te te',
  trading_session mem ops te → Forall simple_op ops' → res_foldl run_trading te ops' = Ok te' →
  trading_session mem (ops ++ ops') te'.
Proof.
  induction ops' as [|op ops' IH]; intros ops te te' Hs Hf Hrun.
  { injection Hrun as <-. by rewrite app_nil_r. }
  apply Forall_cons in Hf as [Hop Hf]. cbn [res_foldl] in Hrun. apply bind_Ok in Hrun as (t1 & H1 & Hrun).
  rewrite cons_middle, app_assoc. eapply IH; [|done..]. eapply ts_step; [done|by apply simple_op_ok|done].
Qed.

Definition windowed_engine (mem : nat) : MatchingEngine := set_book_event_sink true (new_engine kStpNone mem).
Definition trading_after (mem : nat) (ops : list trading_op) : TradingEngine :=
  match res_foldl run_trading (new_trading (windowed_engine mem) mem) ops with
  | Ok te => te
  | Err _ => new_trading (windowed_engine mem) mem
  end.

Lemma trading_after_session mem ops :
  (∃ te, res_foldl run_trading (new_trading (windowed_engine mem) mem) ops = Ok te) → Forall simple_op ops →
  trading_session mem ops (trading_after mem ops).
Proof.
  intros [te Hte] Hf. unfold trading_after. rewrite Hte. apply (session_extend mem ops [] (new_trading (windowed_engine mem) mem) te); [|done..].
  apply ts_new; [apply er_new|done..].
Qed.

(** A restored order is pulled back and traded: the counters are seeded, an order
    arrives and is acknowledged, and the warm-up's levels are outstanding. *)
Definition restart : list trading_op :=
  [ TSeed; TReply 0 (mkReply true [] 0 10 20);
    TSubmit "ACME" "" (limit 0 0 Buy 100 5 GTC 0) (Some 1%nat) "u1";
    TReply 0 acked; TReply 0 acked ].
Definition restored : Reply := mkReply true [mkPulled 3 100 4 20] 0 0 0.

Lemma restart_session : trading_session 2 restart (trading_after 2 restart).
Proof.
  apply trading_after_session; [eexists; vm_compute; reflexivity|]. repeat constructor; done.
Qed.

Lemma trading_total_witness :
  ∃ te', run_trading (trading_after 2 restart) (TReply 0 restored) = Ok te' ∧
    trading_session 2 (restart ++ [TReply 0 restored]) te' ∧ engine_reachable (t_matching te').
Proof.
  apply (trading_total 2 restart (trading_after 2 restart) (TReply 0 restored)); [exact restart_session|].
  intros w Hw. assert (t_waiting (trading_after 2 restart) !! 0%nat = Some (OnLevels "ACME" Sell)) as E by (vm_compute; reflexivity).
  rewrite E in Hw. injection Hw as <-. repeat constructor; simpl.
  - intros seq p Hp. assert (t_pending (trading_after 2 restart) =
      {[1 := mkPending "ACME" "" "u1" (set_o_id 11 (limit 0 0 Buy 100 5 GTC 0)) (Some 1%nat) 0 true true true]})
      as Ep by (vm_compute; reflexivity).
    rewrite Ep in Hp. apply lookup_singleton_Some in Hp as [_ <-]. simpl. lia.
Defined.

Lemma queue_waits_for_storage_witness :
  OnLevels "ACME" Sell ∈ t_waiting (trading_after 2 restart) ∧
  ∃ p, t_pending (trading_after 2 restart) !! t_next_place_seq (trading_after 2 restart) = Some p ∧
    (OnOrder 1 ∈ t_waiting (trading_after 2 restart) ∨
     OnPosition (p_symbol p) (p_client_id p) ∈ t_waiting (trading_after 2 restart) ∨
     ∃ sym s, OnLevels sym s ∈ t_waiting (trading_after 2 restart)).
Proof.
  destruct (queue_waits_for_storage 2 restart _ restart_session) as [H _].
  split; [vm_compute; left|]. eexists. split; [vm_compute; reflexivity|]. apply H. vm_compute. reflexivity.
Defined.




(** ** Where the trading engine departs from its documentation *)

(** [trading_engine.cc:73]: [ensure_position] answers "not ready" after its pull
    has already failed, when the helper is gone; nothing will ever mark the order
    ready, and every later order, also an anonymous one, queues behind it for
    good although no reply is outstanding. *)
Example dead_helper_blocks_queue :
  match res_foldl run_trading (new_trading unbounded_engine 0)
          [ TDie; TSubmit "ACME" "alice" (limit 0 0 Sell 100 5 GTC 0) (Some 1%nat) "u1";
            TSubmit "ACME" "" (limit 0 0 Buy 100 3 GTC 0) (Some 2%nat) "u2" ] with
  | Ok te => t_waiting te = [] ∧ pending_placements te = 2%nat ∧ delivered (t_log te) = []
  | Err _ => False
  end.
Proof. vm_compute. done. Qed.

(** The state in which the order [p] at the head reaches past the resident
    levels of a book whose far side was deep once. *)
Record reaching (p : Pending) (te : TradingEngine) : Prop := mkReaching {
  rc_head : t_pending te !! t_next_place_seq te = Some p;
  rc_ready : p_acked p = true ∧ p_pos_ready p = true;
  rc_window : t_mem_levels te ≠ 0%nat;
  rc_warm : p_symbol p ∈ t_warmed te;
  rc_deep : needs_deep (p_symbol p) (p_order p) (Opposite (o_side (p_order p))) te = true;
}.

(** [trading_engine.cc:129]: the mark that a side has deep levels is never taken
    back, so that such an order pulls again after every empty reply.  The
    engine's comment says that it waits until the window covers it; it waits
    forever, and with it every order behind it. *)
Lemma empty_pull_repeats p te :
  reaching p te → t_dead te = false → t_depth_pulls te = 1 →
  t_waiting te = [OnLevels (p_symbol p) (Opposite (o_side (p_order p)))] →
  ∃ te', storage_replies 0 acked te = Ok te' ∧ reaching p te' ∧ t_dead te' = false ∧ t_depth_pulls te' = 1 ∧
    t_waiting te' = [OnLevels (p_symbol p) (Opposite (o_side (p_order p)))] ∧
    delivered (t_log te') = delivered (t_log te).
Proof.
  intros [R1 [R2 R3] R4 R5 R6] Hal Hn Hw. unfold storage_replies. rewrite Hw. simpl. unfold on_pull. simpl. rewrite Hn. simpl.
  unfold drain. cbn [drain_loop]. simpl. rewrite R1, R2, R3. simpl.
  unfold ensure_depth. simpl. apply Nat.eqb_neq in R4 as R4'. rewrite R4'. rewrite decide_True by done.
  unfold needs_deep in *. simpl. rewrite R6. rewrite ask_alive by done. simpl.
  eexists. split; [done|]. split_and!; try done; simpl.
  by rewrite !delivered_app, !app_nil_r.
Qed.

Theorem deep_pull_never_ends p te n :
  reaching p te → t_dead te = false → t_depth_pulls te = 1 →
  t_waiting te = [OnLevels (p_symbol p) (Opposite (o_side (p_order p)))] →
  ∃ te', res_foldl run_trading te (replicate n (TReply 0 acked)) = Ok te' ∧
    delivered (t_log te') = delivered (t_log te) ∧ t_pending te' !! t_next_place_seq te' = Some p.
Proof.
  revert te. induction n as [|n IH]; intros te HR Hal Hn Hw; [exists te; split_and!; [done..|apply HR]|].
  destruct (empty_pull_repeats p te HR Hal Hn Hw) as (t1 & H1 & HR1 & Hal1 & Hn1 & Hw1 & Hd1).
  destruct (IH t1 HR1 Hal1 Hn1 Hw1) as (t2 & H2 & Hd2 & Hp2). exists t2. cbn [replicate res_foldl run_trading].
  rewrite H1. cbn [mbind res_bind]. split_and!; [done|congruence|done].
Qed.

(** With the helper gone the same pull fails before the call returns, and the
    recursion has no end. *)
Lemma dead_helper_recursion p fuel : ∀ te,
  reaching p te → t_dead te = true → t_depth_pulls te = 0 → drain_loop fuel te = Err OutOfFuel.
Proof.
  induction fuel as [|fuel IH]; intros te HR Hd Hn; [done|]. pose proof HR as [R1 [R2 R3] R4 R5 R6].
  cbn [drain_loop]. rewrite R1, R2, R3. simpl. unfold ensure_depth. apply Nat.eqb_neq in R4 as R4'.
  rewrite R4', Hn. simpl. rewrite decide_True by done. unfold needs_deep in *. rewrite R6.
  unfold ask. simpl. rewrite Hd. unfold answer, on_pull. simpl. rewrite IH; [done|..]; [|done|done].
  by split.
Qed.

(** A session that gets there: a window of one level, an ask pushed deep and
    pulled back, and a buy order above it. *)
Definition ack : trading_op := TReply 0 acked.
Definition one_level : list trading_op :=
  [ TSubmit "ACME" "" (limit 0 0 Sell 100 5 GTC 0) None "u1"; ack; ack; ack;
    TSubmit "ACME" "" (limit 0 0 Sell 101 5 GTC 0) None "u2"; ack;
    TSubmit "ACME" "" (limit 0 0 Buy 102 1 GTC 0) None "u3"; ack;
    TReply 0 (mkReply true [mkPulled 2 101 5 2] 0 0 0) ].

Example deep_pull_reached :
  let te := trading_after 1 one_level in
  length (delivered (t_log te)) = 2%nat ∧ t_waiting te = [OnLevels "ACME" Sell] ∧ t_depth_pulls te = 1 ∧
  engine_find "ACME" 2 (t_matching te) ≠ None ∧ ∃ p, reaching p te.
Proof.
  split_and!; try (vm_compute; done). eexists. split; [vm_compute; reflexivity|vm_compute; done|vm_compute; done| |vm_compute; reflexivity].
  apply (bool_decide_unpack _). vm_compute. done.
Qed.
