(* ===== verification/StorageHelper.v ===== *)
(** * The reference storage helper ([tools/storage_helper/main.cc])

    The system of record behind the trading engine: who owns an order, the net
    position of an account in a symbol, and the full resting book, changed only
    by the reports it receives.  [Handle] answers one request. *)

From S2P Require Import Prelude.
From S2P Require Import Bytes.
From S2P Require Import HelperCodec.

(** ** Numbers in fields *)

Definition plus : ascii := "+"%char.

(** The digits up to the first other character, accumulated in an [int64_t]: a
    value past it is signed overflow. *)
Fixpoint parse_digits (v : Z) (s : bytes) : res Z :=
  match s with
  | [] => Ok v
  | c :: s =>
      if isdigit c then
        let v := v * 10 + digit_val c in if v <? 2 ^ 63 then parse_digits v s else Err Overflow
      else Ok v
  end.

Definition ParseInt (s : bytes) : res Z :=
  match s with
  | [] => Ok 0
  | c :: rest =>
      if bool_decide (c = minus) then v ← parse_digits 0 rest; Ok (- v)
      else if bool_decide (c = plus) then parse_digits 0 rest
      else parse_digits 0 s
  end.

Definition id_of (s : bytes) : res Z := v ← ParseInt s; Ok (to_u64 v).
Definition num_field (key : bytes) (m : HelperMessage) : res Z :=
  match get key m with Some s => ParseInt s | None => Ok 0 end.

(** ** State *)

Record OrderInfo := mkInfo { in_owner : bytes; in_side : bytes; in_symbol : bytes }.

Record RestingOrder := mkResting {
  ro_id : Z;
  ro_price : Z;
  ro_leaves : Z;
  ro_seq : Z;
}.

Abbreviation Prices := (gmap Z (list RestingOrder)) (only parsing).

Record Store := mkStore {
  s_highest : Z;
  s_order_info : gmap Z OrderInfo;
  s_positions : gmap (bytes * bytes) Z;
  s_resting : gmap (bytes * bytes) Prices;
  s_rest_index : gmap Z (bytes * bytes * Z);
}.

Definition new_store : Store := mkStore 0 ∅ ∅ ∅ ∅.

(** Field assignment. *)
Definition set_highest v (x : Store) : Store :=
  mkStore v (s_order_info x) (s_positions x) (s_resting x) (s_rest_index x).
Definition set_order_info v (x : Store) : Store :=
  mkStore (s_highest x) v (s_positions x) (s_resting x) (s_rest_index x).
Definition set_positions v (x : Store) : Store :=
  mkStore (s_highest x) (s_order_info x) v (s_resting x) (s_rest_index x).
Definition set_resting v (x : Store) : Store :=
  mkStore (s_highest x) (s_order_info x) (s_positions x) v (s_rest_index x).
Definition set_rest_index v (x : Store) : Store :=
  mkStore (s_highest x) (s_order_info x) (s_positions x) (s_resting x) v.

Definition RemoveResting (i : Z) (st : Store) : Store :=
  match s_rest_index st !! i with
  | None => st
  | Some (sym, side, price) =>
      let st :=
        match s_resting st !! (sym, side) with
        | None => st
        | Some prices =>
            match prices !! price with
            | None => st
            | Some v =>
                let v := List.filter (λ d, negb (ro_id d =? i)) v in
                let prices := if decide (v = []) then delete price prices else <[price := v]> prices in
                set_resting (if decide (prices = ∅) then delete (sym, side) (s_resting st)
                             else <[(sym, side) := prices]> (s_resting st)) st
            end
        end in
      set_rest_index (delete i (s_rest_index st)) st
  end.

(** ** Requests *)

Definition bump_highest (req : HelperMessage) (st : Store) : Store :=
  set_highest (Z.max (s_highest st) (msg_req_id req)) st.

Definition report_order_rec (req : HelperMessage) (st : Store) : res Store :=
  match get (lit "id") req with
  | None => Ok st
  | Some i =>
      let info := mkInfo (default [] (get (lit "owner") req)) (default [] (get (lit "side") req))
                    (default [] (get (lit "symbol") req)) in
      oid ← id_of i;
      Ok (set_order_info (<[oid := info]> (s_order_info st)) st)
  end.

(** The account's position follows the fill. *)
Definition settle_position (oid q : Z) (st : Store) : Store :=
  match s_order_info st !! oid with
  | None => st
  | Some info =>
      if decide (in_owner info = []) then st
      else
        let k := (in_owner info, in_symbol info) in
        let d := if bool_decide (in_side info = lit "buy") then q else - q in
        set_positions (<[k := default 0 (s_positions st !! k) + d]> (s_positions st)) st
  end.

(** [for (o : v) if (o.id == oid) { o.leaves -= q; leaves_left = o.leaves; }] *)
Fixpoint fill_queue (oid q leaves_left : Z) (v : list RestingOrder) : list RestingOrder * Z :=
  match v with
  | [] => ([], leaves_left)
  | o :: v =>
      if ro_id o =? oid then
        let l := ro_leaves o - q in
        let '(v, leaves_left) := fill_queue oid q l v in
        (mkResting (ro_id o) (ro_price o) l (ro_seq o) :: v, leaves_left)
      else
        let '(v, leaves_left) := fill_queue oid q leaves_left v in (o :: v, leaves_left)
  end.

Definition fill_resting (oid q : Z) (st : Store) : Store :=
  match s_rest_index st !! oid with
  | None => st
  | Some (sym, side, price) =>
      let prices := default ∅ (s_resting st !! (sym, side)) in
      let v := default [] (prices !! price) in
      let '(v, leaves_left) := fill_queue oid q 0 v in
      let st := set_resting (<[(sym, side) := <[price := v]> prices]> (s_resting st)) st in
      if leaves_left <=? 0 then RemoveResting oid st else st
  end.

Definition report_fill_rec (req : HelperMessage) (st : Store) : res Store :=
  match get (lit "id") req, get (lit "qty") req with
  | Some i, Some q =>
      oid ← id_of i;
      q ← ParseInt q;
      Ok (fill_resting oid q (settle_position oid q st))
  | _, _ => Ok st
  end.

Definition insert_resting (sym side : bytes) (o : RestingOrder) (st : Store) : Store :=
  let st := RemoveResting (ro_id o) st in
  let prices := default ∅ (s_resting st !! (sym, side)) in
  let v := default [] (prices !! ro_price o) in
  let st := set_resting (<[(sym, side) := <[ro_price o := v ++ [o]]> prices]> (s_resting st)) st in
  set_rest_index (<[ro_id o := (sym, side, ro_price o)]> (s_rest_index st)) st.

(** The order a report describes. *)
Definition reported_order (i : bytes) (req : HelperMessage) : res RestingOrder :=
  oid ← id_of i;
  price ← num_field (lit "price") req;
  leaves ← num_field (lit "leaves") req;
  seq ← num_field (lit "seq") req;
  Ok (mkResting oid price leaves (to_u64 seq)).

Definition report_rest_rec (req : HelperMessage) (st : Store) : res Store :=
  match get (lit "symbol") req, get (lit "side") req, get (lit "id") req with
  | Some sym, Some side, Some i => o ← reported_order i req; Ok (insert_resting sym side o st)
  | _, _, _ => Ok st
  end.

Definition report_cancel_rec (req : HelperMessage) (st : Store) : res Store :=
  match get (lit "id") req with
  | Some i => oid ← id_of i; Ok (RemoveResting oid st)
  | None => Ok st
  end.

(** [std::sort] by arrival; a level has no two orders of one arrival number. *)
Definition arrived_before (x y : RestingOrder) : Prop := ro_seq x ≤ ro_seq y.
#[export] Instance arrived_before_dec x y : Decision (arrived_before x y) := decide (ro_seq x ≤ ro_seq y).

Definition comma : ascii := ","%char.
Definition semi : ascii := ";"%char.
Definition order_record (o : RestingOrder) : bytes :=
  to_dec (ro_id o) ++ comma :: to_dec (ro_price o) ++ comma :: to_dec (ro_leaves o) ++ comma ::
  to_dec (ro_seq o) ++ [semi].

Definition emit_level (v : list RestingOrder) (blob : bytes) : bytes :=
  foldl (λ blob o, blob ++ order_record o) blob (merge_sort arrived_before v).

(** The loop over the levels, best first. *)
Fixpoint pull_loop (count : Z) (beyond : Z → bool) (l : list (Z * list RestingOrder)) (levels : Z) (blob : bytes)
    : Z * bytes :=
  match l with
  | [] => (levels, blob)
  | (p, v) :: l =>
      if levels <? count then
        if beyond p then pull_loop count beyond l (levels + 1) (emit_level v blob)
        else pull_loop count beyond l levels blob
      else (levels, blob)
  end.

(** A [std::map] in key order. *)
Definition ascending (m : Prices) : list (Z * list RestingOrder) := by_key m.

Definition pull_blob (sym side : bytes) (from count : Z) (st : Store) : Z * bytes :=
  match s_resting st !! (sym, side) with
  | None => (0, [])
  | Some prices =>
      if bool_decide (side = lit "buy")
      then pull_loop count (λ p, p <? from) (reverse (ascending prices)) 0 []
      else pull_loop count (λ p, from <? p) (ascending prices) 0 []
  end.

Definition max_id (st : Store) : Z := foldr (λ x a, Z.max a x.1) 0 (map_to_list (s_order_info st)).
(** The orders at rest, in no particular order. *)
Definition resting_orders (st : Store) : list RestingOrder :=
  x ← map_to_list (s_resting st); y ← map_to_list x.2; y.2.
Definition max_rank (st : Store) : Z := foldr (λ o a, Z.max a (ro_seq o)) 0 (resting_orders st).

Definition reply_to (req : HelperMessage) (type : bytes) (fields : list (bytes * bytes)) : HelperMessage :=
  mkMessage (msg_req_id req) type fields.
Definition ok_field : list (bytes * bytes) := [(lit "status", lit "ok")].

Definition is_type (t : string) (req : HelperMessage) : bool := bool_decide (msg_type req = lit t).

Definition Handle (req : HelperMessage) (st : Store) : res (HelperMessage * Store) :=
  if is_type "report_order" req then
    st ← report_order_rec req (bump_highest req st);
    Ok (reply_to req (msg_type req) ok_field, st)
  else if is_type "report_fill" req then
    st ← report_fill_rec req (bump_highest req st);
    Ok (reply_to req (msg_type req) ok_field, st)
  else if is_type "report_trade" req then
    Ok (reply_to req (msg_type req) ok_field, bump_highest req st)
  else if is_type "commit" req then
    Ok (reply_to req (lit "commit") [(lit "committed", to_dec (s_highest st))], st)
  else if is_type "pull_position" req then
    let net := match get (lit "user") req, get (lit "symbol") req with
               | Some u, Some s => default 0 (s_positions st !! (u, s))
               | _, _ => 0
               end in
    Ok (reply_to req (lit "position") [(lit "net", to_dec net)], st)
  else if is_type "report_rest" req then
    st ← report_rest_rec req st;
    Ok (reply_to req (lit "report_rest") ok_field, st)
  else if is_type "report_cancel" req then
    st ← report_cancel_rec req st;
    Ok (reply_to req (lit "report_cancel") ok_field, st)
  else if is_type "pull_levels" req then
    from ← num_field (lit "from_price") req;
    count ← num_field (lit "count") req;
    let '(levels, blob, tags) :=
      match get (lit "symbol") req, get (lit "side") req with
      | Some sym, Some side =>
          let '(levels, blob) := pull_blob sym side from count st in
          (levels, blob, [(lit "symbol", sym); (lit "side", side)])
      | _, _ => (0, [], [])
      end in
    Ok (reply_to req (lit "levels") (tags ++ [(lit "orders", blob); (lit "count", to_dec levels)]), st)
  else if is_type "pull_watermarks" req then
    Ok (reply_to req (msg_type req) [(lit "max_id", to_dec (max_id st)); (lit "max_rank", to_dec (max_rank st))], st)
  else if is_type "ping" req then Ok (reply_to req (lit "pong") [], st)
  else Ok (reply_to req (lit "error") [(lit "reason", lit "unknown type: " ++ msg_type req)], st).
