(* ===== verification/HelperPrograms.v ===== *)
(** * The helper programs ([tools/storage_helper/main.cc],
      [tools/auth_helper/main.cc], [tools/ingress_helper/main.cc])

    The main function the storage and the authentication helper share: answer
    every request of the standard input, in order.  The authentication helper's
    handler, and the ingress helper: the requests of its input file and its wait
    for the replies.

    Reads block: a script of them ends in end of file.  Every call of [WriteAll]
    uses the next write script; the kernel takes all that is left when a script
    is used up. *)

From S2P Require Import Prelude.
From S2P Require Import Bytes.
From S2P Require Import Buffer.
From S2P Require Import PipeIO.
From S2P Require Import HelperCodec.
From S2P Require Import Uuid.
From S2P Require Import StorageHelper.

Definition kHelperChunk : nat := Z.to_nat 4096.

(** The bytes written, and whether they are all. *)
Fixpoint WriteAll (ws : list io_write) (data : bytes) : bool * bytes :=
  match data, ws with
  | [], _ => (true, [])
  | _, [] => (true, data)
  | _, WCount n :: ws =>
      if (0 <? n)%nat then let '(ok, rest) := WriteAll ws (drop n data) in (ok, take n data ++ rest) else (false, [])
  | _, WIntr :: ws => WriteAll ws data
  | _, _ :: _ => (false, [])
  end.

Record Program (St : Type) := mkProgram {
  pg_in : Buffer;
  pg_state : St;
  pg_out : bytes;
  pg_writes : list (list io_write);
}.
Arguments mkProgram {St} _ _ _ _.
Arguments pg_in {St} _.
Arguments pg_state {St} _.
Arguments pg_out {St} _.
Arguments pg_writes {St} _.

Section Main.
Context {C : Type} `{HelperCodec C} (codec : C).
Context {St : Type} (Handle : HelperMessage → St → res (HelperMessage * St)).

(** Answer what is in the buffer; [true]: the input is malformed. *)
Fixpoint serve_buffered (fuel : nat) (p : Program St) : res (bool * Program St) :=
  match fuel with
  | O => Err OutOfFuel
  | S fuel =>
      let '(d, in_) := decode codec (pg_in p) in
      match d with
      | HelperIncomplete => Ok (false, mkProgram in_ (pg_state p) (pg_out p) (pg_writes p))
      | HelperError _ => Ok (true, mkProgram in_ (pg_state p) (pg_out p) (pg_writes p))
      | HelperComplete req =>
          '(resp, st) ← Handle req (pg_state p);
          let '(_, written) := WriteAll (hd [] (pg_writes p)) (encode codec resp) in
          serve_buffered fuel (mkProgram in_ st (pg_out p ++ written) (tail (pg_writes p)))
      end
  end.

(** The exit code, and the state at the exit. *)
Fixpoint helper_main (rs : list io_read) (p : Program St) : res (Z * Program St) :=
  '(bad, p) ← serve_buffered (S (buf_size (pg_in p))) p;
  if bad : bool then Ok (1, p)
  else
    let dst := reserve kHelperChunk (pg_in p) in
    match rs with
    | RData s :: rs =>
        if (0 <? length s)%nat
        then helper_main rs (mkProgram (commit (length s) (fill_tail s dst)) (pg_state p) (pg_out p) (pg_writes p))
        else Ok (0, p)
    | _ => Ok (0, p)
    end.

Definition run_program (rs : list io_read) (wss : list (list io_write)) (st : St) : res (Z * Program St) :=
  helper_main rs (mkProgram new_buffer st [] wss).

(** ** What it answers *)

(** The responses to a list of requests, and the state after them, unless the
    handler faults. *)
Fixpoint answer_all (ms : list HelperMessage) (st : St) : res (list HelperMessage * St) :=
  match ms with
  | [] => Ok ([], st)
  | m :: ms => '(r, st) ← Handle m st; '(rs, st) ← answer_all ms st; Ok (r :: rs, st)
  end.

Definition write_ok (w : io_write) : Prop := match w with WCount n => (0 < n)%nat | WIntr => True | _ => False end.

Lemma WriteAll_ok ws : ∀ data, Forall write_ok ws → WriteAll ws data = (true, data).
Proof.
  induction ws as [|w ws IH]; intros data Hws; [by destruct data|]. apply Forall_cons in Hws as [Hw Hws].
  destruct data as [|c data]; [done|]. destruct w as [n| | |]; simpl in Hw |- *; try done; [|by apply IH].
  destruct (0 <? n)%nat eqn:E; [|apply Nat.ltb_ge in E; lia]. rewrite IH by done. f_equal.
  change (take n (c :: data) ++ drop n (c :: data) = c :: data). apply take_drop.
Qed.

Lemma answer_all_app ms1 : ∀ ms2 st rs st',
  answer_all (ms1 ++ ms2) st = Ok (rs, st') ↔
  ∃ rs1 st1 rs2, answer_all ms1 st = Ok (rs1, st1) ∧ answer_all ms2 st1 = Ok (rs2, st') ∧ rs = rs1 ++ rs2.
Proof.
  induction ms1 as [|m ms1 IH]; intros ms2 st rs st'; cbn [app answer_all].
  { split; [intros E; by exists [], st, rs|]. by intros (? & ? & rs2 & [= <- <-] & E & ->). }
  destruct (Handle m st) as [[r st0]|]; cbn; [|split; [done|by intros (? & ? & ? & ? & _)]]. split.
  - intros ([rs' st''] & (rs1 & st1 & rs2 & -> & H2 & ->)%IH & [= <- <-])%bind_Ok. cbn. by exists (r :: rs1), st1, rs2.
  - intros (rs1 & st1 & rs2 & H1 & H2 & ->). destruct (answer_all ms1 st0) as [[rs1' st1']|] eqn:E; [|done].
    cbn in H1. injection H1 as <- <-. rewrite (proj2 (IH ms2 st0 (rs1' ++ rs2) st')); [done|]. by exists rs1', st1', rs2.
Qed.

(** The loop over the buffer is [decode_all], answered message by message. *)
Lemma serve_buffered_ok fuel : ∀ p ms b rs st,
  decode_all fuel codec (pg_in p) = Ok (ms, None, b) → answer_all ms (pg_state p) = Ok (rs, st) →
  Forall (Forall write_ok) (pg_writes p) →
  ∃ wss, serve_buffered fuel p = Ok (false, mkProgram b st (pg_out p ++ messages codec rs) wss) ∧
    Forall (Forall write_ok) wss.
Proof.
  induction fuel as [|fuel IH]; intros p ms b rs st Hd Ha Hw; [done|]. cbn [decode_all serve_buffered] in *.
  destruct (decode codec (pg_in p)) as [d b1]. destruct d as [|m|e]; [|..|done].
  - injection Hd as <- <-. injection Ha as <- <-. exists (pg_writes p). unfold messages. simpl. by rewrite app_nil_r.
  - destruct (decode_all fuel codec b1) as [[[ms' e] b2]|] eqn:E; [|done]. cbn in Hd. injection Hd as <- -> ->.
    cbn [answer_all] in Ha. destruct (Handle m (pg_state p)) as [[r st0]|]; [|done].
    cbn in Ha |- *. destruct (answer_all ms' st0) as [[rs' st1]|] eqn:Ea; [|done]. cbn in Ha. injection Ha as <- <-.
    assert (Forall write_ok (hd [] (pg_writes p)) ∧ Forall (Forall write_ok) (tail (pg_writes p))) as [Hh Ht].
    { destruct (pg_writes p); simpl; [by split|]. by apply Forall_cons in Hw. }
    rewrite WriteAll_ok by done.
    destruct (IH (mkProgram b1 st0 (pg_out p ++ encode codec r) (tail (pg_writes p))) ms' b rs' st1 E Ea Ht) as (wss & -> & Hwss).
    exists wss. split; [|done]. cbn [pg_out]. do 3 f_equal. unfold messages. simpl. by rewrite <-app_assoc.
Qed.

Lemma decode_all_end fuel : ∀ b ms b', decode_all fuel codec b = Ok (ms, None, b') → decode codec b' = (HelperIncomplete, b').
Proof.
  induction fuel as [|fuel IH]; intros b ms b' Hd; [done|]. cbn [decode_all] in Hd.
  destruct (decode codec b) as [d b1] eqn:E. destruct d as [|m|e]; [|..|done].
  - injection Hd as <- <-. by rewrite <-(codec_idle codec b _ b1 E) in E.
  - destruct (decode_all fuel codec b1) as [[[ms' e] b2]|] eqn:E'; [|done]. cbn in Hd. injection Hd as <- -> ->. by eapply IH.
Qed.

(** A buffer that waits for more holds less than the next message. *)
Lemma waiting_length b m todo later :
  buffer_ok b → encodable codec m → decode codec b = (HelperIncomplete, b) →
  buffer_view b ++ later = messages codec (m :: todo) → (length (buffer_view b) < length (encode codec m))%nat.
Proof.
  intros Hb Hm Hd Hv. apply Nat.nle_gt. intros Hle.
  change (messages codec (m :: todo)) with (encode codec m ++ messages codec todo) in Hv.
  destruct (prefix_split _ _ _ _ Hv Hle) as (rest & Hr & _).
  destruct (codec_decode codec b m rest Hb Hm Hr) as (b' & Hd' & _). congruence.
Qed.

Lemma helper_main_ok chunks : ∀ p ms later answers,
  answer_all ms (pg_state p) = Ok answers → buffer_ok (pg_in p) → Forall (encodable codec) ms → Forall (Forall write_ok) (pg_writes p) →
  Forall (λ s, s ≠ [] ∧ (length s ≤ kHelperChunk)%nat) chunks →
  buffer_view (pg_in p) ++ mjoin chunks ++ later = messages codec ms →
  ∃ done todo rs p', helper_main (RData <$> chunks) p = Ok (0, p') ∧ ms = done ++ todo ∧
    (∀ m, head todo = Some m → (length (buffer_view (pg_in p) ++ mjoin chunks) < length (messages codec (done ++ [m])))%nat) ∧
    answer_all done (pg_state p) = Ok (rs, pg_state p') ∧ pg_out p' = pg_out p ++ messages codec rs.
Proof.
  assert (∀ ms1 ms2, messages codec (ms1 ++ ms2) = messages codec ms1 ++ messages codec ms2) as Happ.
  { intros. unfold messages. by rewrite fmap_app, join_app. }
  induction chunks as [|s chunks IH]; intros p ms later [rs0 st0] Hans Hb Hms Hw Hch Hv.
  - destruct (decode_all_stream codec ms (S (buf_size (pg_in p))) (pg_in p) later Hb Hms Hv) as (dn & todo & b & Hd & -> & Hb' & Hv' & _);
      [lia|]. apply answer_all_app in Hans as (rs1 & st1 & rs2 & Ha1 & _).
    destruct (serve_buffered_ok _ _ _ _ _ _ Hd Ha1 Hw) as (wss & Hs & _). exists dn, todo, rs1. eexists. cbn [fmap list_fmap helper_main].
    rewrite Hs. cbn [mbind res_bind mjoin list_join]. rewrite app_nil_r. split_and!; try done.
    intros m Hm. destruct todo as [|m' todo]; [done|]. injection Hm as ->. apply Forall_app in Hms as [_ [Hm _]%Forall_cons].
    pose proof (waiting_length b m todo later Hb' Hm (decode_all_end _ _ _ _ Hd) Hv') as Hlt.
    cbn [mjoin list_join app] in Hv. rewrite Happ, <-Hv', app_assoc in Hv. apply app_inv_tail in Hv. rewrite Hv, Happ, !length_app.
    change (messages codec [m]) with (encode codec m ++ []). rewrite app_nil_r. lia.
  - apply Forall_cons in Hch as [[Hne Hlen] Hch]. cbn [mjoin list_join] in Hv |- *.
    destruct (decode_all_stream codec ms (S (buf_size (pg_in p))) (pg_in p) ((s ++ mjoin chunks) ++ later) Hb Hms Hv)
      as (dn & todo & b & Hd & -> & Hb' & Hv' & _); [lia|].
    assert (buffer_view (pg_in p) = messages codec dn ++ buffer_view b) as Hin.
    { apply (app_inv_tail ((s ++ mjoin chunks) ++ later)). etrans; [exact Hv|]. rewrite Happ, <-app_assoc. f_equal. symmetry. exact Hv'. }
    apply answer_all_app in Hans as (rs1 & st1 & rs2 & Ha1 & Ha2 & _).
    destruct (serve_buffered_ok _ _ _ _ _ _ Hd Ha1 Hw) as (wss & Hs & Hwss). cbn [fmap list_fmap helper_main]. rewrite Hs.
    cbn [mbind res_bind pg_in pg_state pg_out pg_writes].
    assert (0 <? length s = true)%nat as -> by (apply Nat.ltb_lt; destruct s; [done|simpl; lia]).
    destruct (commit_ok kHelperChunk s b Hb' Hlen) as [K1 K2]. apply Forall_app in Hms as [_ Htodo].
    destruct (IH (mkProgram (commit (length s) (fill_tail s (reserve kHelperChunk b))) st1
        (pg_out p ++ messages codec rs1) wss) todo later (rs2, st0)) as (dn' & todo' & rs' & p' & -> & -> & Hl & Hst & Ho);
      try done.
    { cbn [pg_in]. rewrite K2, <-Hv', <-!app_assoc. done. }
    cbn [pg_out pg_state pg_in] in *. exists (dn ++ dn'), todo', (rs1 ++ rs'), p'.
    split_and!; [done|by rewrite app_assoc| |apply answer_all_app; by exists rs1, st1, rs'|].
    + intros m Hm. specialize (Hl m Hm). rewrite K2 in Hl. rewrite Hin, <-!app_assoc, (Happ dn), !length_app in *. apply Nat.add_lt_mono_l. exact Hl.
    + by rewrite Ho, Happ, <-app_assoc.
Qed.
End Main.

(** C38: a helper program answers its input.  For every codec that keeps the
    promises of the interface and every handler that does not fault on the
    requests: when the standard input is encoded requests, however the reads cut
    them, and writes may be short or interrupted, the program has written, in
    order, exactly the handler's responses to the requests received whole (the
    next one has not been), its state is the handler's after them, and at the end
    of the input it exits with 0. *)
Theorem helper_program_serves {C} `{HelperCodec C} (codec : C) {St} (handle : HelperMessage → St → res (HelperMessage * St))
    chunks later wss ms st answers :
  answer_all handle ms st = Ok answers →
  Forall (encodable codec) ms → Forall (Forall write_ok) wss →
  Forall (λ s, s ≠ [] ∧ (length s ≤ kHelperChunk)%nat) chunks → mjoin chunks ++ later = messages codec ms →
  ∃ done todo rs p, run_program codec handle (RData <$> chunks) wss st = Ok (0, p) ∧ ms = done ++ todo ∧
    (∀ m, head todo = Some m → (length (mjoin chunks) < length (messages codec (done ++ [m])))%nat) ∧
    answer_all handle done st = Ok (rs, pg_state p) ∧ pg_out p = messages codec rs.
Proof.
  intros Ha Hms Hw Hch Hv.
  exact (helper_main_ok codec handle chunks (mkProgram new_buffer st [] wss) ms later answers Ha new_buffer_ok Hms Hw Hch Hv).
Qed.

(** ** The authentication helper's handler

    Its state is the values its clock will return. *)
Definition kOneHourNs : Z := 3600 * 1000000000.

Definition auth_handle (req : HelperMessage) (clock : list Z) : HelperMessage * list Z :=
  if negb (bool_decide (msg_type req = lit "validate")) then
    (mkMessage (msg_req_id req) (lit "error") [(lit "reason", lit "unknown type: " ++ msg_type req)], clock)
  else
    let denied := mkMessage (msg_req_id req) (lit "validate") [(lit "status", lit "denied")] in
    match get (lit "credential") req with
    | None => (denied, clock)
    | Some cred =>
        match find_char ":" cred with
        | None => (denied, clock)
        | Some colon =>
            let user := take colon cred in
            let secret := drop (S colon) cred in
            if IsValidUuidString user && bool_decide (secret = lit "good") then
              (mkMessage (msg_req_id req) (lit "validate")
                 [(lit "status", lit "ok"); (lit "user", user); (lit "not_after", to_dec (hd 0 clock + kOneHourNs))],
               tail clock)
            else (denied, clock)
        end
    end.

(** The two programs; the authentication helper's handler never faults. *)
Definition auth_handler (req : HelperMessage) (clock : list Z) : res (HelperMessage * list Z) := Ok (auth_handle req clock).
Definition auth_main (rs : list io_read) (wss : list (list io_write)) (clock : list Z) : res (Z * Program (list Z)) :=
  run_program text_codec auth_handler rs wss clock.
Definition storage_main (rs : list io_read) (wss : list (list io_write)) : res (Z * Program Store) :=
  run_program text_codec StorageHelper.Handle rs wss new_store.

(** The authentication helper answers the request it was asked, and grants a user only for that user's
    credential. *)
Lemma auth_handle_sound req clock :
  msg_req_id (auth_handle req clock).1 = msg_req_id req ∧
  ∀ user, get (lit "user") (auth_handle req clock).1 = Some user →
    IsValidUuidString user = true ∧ get (lit "credential") req = Some (user ++ lit ":good") ∧
    get (lit "status") (auth_handle req clock).1 = Some (lit "ok").
Proof.
  unfold auth_handle. destruct (negb _); [by split|]. destruct (get (lit "credential") req) as [cred|]; [|by split].
  destruct (find_char ":" cred) as [colon|] eqn:E; [|by split]. destruct (_ && _) eqn:Ev; [|by split].
  split; [done|]. intros user [= <-]. apply andb_true_iff in Ev as [Hu Hs%bool_decide_eq_true]. split; [done|]. split; [|done].
  apply find_char_Some in E as [E _]. rewrite <-(take_drop_middle _ _ _ E) at 1. by rewrite Hs.
Qed.

(** ** The ingress helper's input *)

Definition blank (c : ascii) : bool := Ascii.eqb c " " || Ascii.eqb c (ascii_of_nat 9).
Fixpoint skip_blank (s : bytes) : bytes :=
  match s with c :: t => if blank c then skip_blank t else s | [] => [] end.

Definition ParseLine (line : bytes) (req_id : Z) : option HelperMessage :=
  match skip_blank line with
  | [] => None
  | (c :: _) as rest =>
      if Ascii.eqb c "#" then None
      else Some match find_char " " rest with
                | None => mkMessage req_id rest []
                | Some sp => set_field (lit "form") (drop (S sp) rest) (mkMessage req_id (take sp rest) [])
                end
  end.

Section IngressMain.
Context {C : Type} `{HelperCodec C} (codec : C).

(** Sending the lines: [None] when a write fails; else the number of requests. *)
Fixpoint emit_lines (lines : list bytes) (next_id : Z) (wss : list (list io_write)) (out : bytes) : option Z * bytes :=
  match lines with
  | [] => (Some (next_id - 1), out)
  | line :: lines =>
      match ParseLine line next_id with
      | None => emit_lines lines next_id wss out
      | Some msg =>
          let '(ok, written) := WriteAll (hd [] wss) (encode codec msg) in
          if ok : bool then emit_lines lines (next_id + 1) (tail wss) (out ++ written) else (None, out ++ written)
      end
  end.

(** Counting the replies in the buffer; [true]: malformed. *)
Fixpoint count_replies (fuel : nat) (got : Z) (b : Buffer) : res (bool * Z * Buffer) :=
  match fuel with
  | O => Err OutOfFuel
  | S fuel =>
      let '(d, b) := decode codec b in
      match d with
      | HelperIncomplete => Ok (false, got, b)
      | HelperError _ => Ok (true, got, b)
      | HelperComplete _ => count_replies fuel (got + 1) b
      end
  end.

Fixpoint await_replies (rs : list io_read) (expected got : Z) (b : Buffer) : res (Z * Z) :=
  if negb ((expected =? 0) || (got <? expected)) then Ok (0, got)
  else
    '(bad, got, b) ← count_replies (S (buf_size b)) got b;
    if bad : bool then Ok (1, got)
    else if negb (expected =? 0) && (expected <=? got) then Ok (0, got)
    else
      match rs with
      | RData s :: rs => if (0 <? length s)%nat then await_replies rs expected got (buffer_append s b) else Ok (0, got)
      | RIntr :: rs => await_replies rs expected got b
      | _ => Ok (0, got)
      end.

(** Exit code, bytes written, replies seen. *)
Definition ingress_main (lines : list bytes) (wss : list (list io_write)) (rs : list io_read) : res (Z * bytes * Z) :=
  match emit_lines lines 1 wss [] with
  | (None, out) => Ok (1, out, 0)
  | (Some expected, out) => '(code, got) ← await_replies rs expected 0 new_buffer; Ok (code, out, got)
  end.

(** The requests of the lines, numbered from [id]. *)
Fixpoint line_requests (lines : list bytes) (id : Z) : list HelperMessage :=
  match lines with
  | [] => []
  | line :: lines =>
      match ParseLine line id with Some m => m :: line_requests lines (id + 1) | None => line_requests lines id end
  end.

Lemma ParseLine_id line id m : ParseLine line id = Some m → msg_req_id m = id.
Proof. unfold ParseLine. destruct (skip_blank line); [done|]. case_match; [done|]. intros [= <-]. by case_match. Qed.

(** Requests are numbered one after the other, and all of them are written. *)
Lemma emit_lines_ok lines : ∀ id wss out, Forall (Forall write_ok) wss →
  emit_lines lines id wss out =
    (Some (id + Z.of_nat (length (line_requests lines id)) - 1), out ++ messages codec (line_requests lines id)) ∧
  msg_req_id <$> line_requests lines id = seqZ id (Z.of_nat (length (line_requests lines id))).
Proof.
  induction lines as [|line lines IH]; intros id wss out Hw; cbn [emit_lines line_requests].
  { simpl. unfold messages. simpl. rewrite app_nil_r. split; [do 2 f_equal; lia|done]. }
  destruct (ParseLine line id) as [m|] eqn:E; [|by apply IH].
  assert (Forall write_ok (hd [] wss) ∧ Forall (Forall write_ok) (tail wss)) as [Hh Ht].
  { destruct wss; simpl; [by split|]. by apply Forall_cons in Hw. }
  rewrite WriteAll_ok by done. destruct (IH (id + 1) (tail wss) (out ++ encode codec m) Ht) as [-> IH2]. split.
  - f_equal; [f_equal; simpl length; lia|]. unfold messages. simpl. by rewrite <-app_assoc.
  - cbn [fmap list_fmap length]. rewrite (ParseLine_id _ _ _ E). rewrite seqZ_cons by lia.
    f_equal. etrans; [exact IH2|]. f_equal; lia.
Qed.
End IngressMain.

(** ** A concrete run of the authentication helper *)

Lemma messages_length {C} `{HelperCodec C} (c : C) dn m todo ms :
  ms = dn ++ m :: todo → (length (messages c (dn ++ [m])) ≤ length (messages c ms))%nat.
Proof.
  intros ->. rewrite (cons_middle m dn todo), (app_assoc dn [m] todo). unfold messages.
  rewrite (fmap_app _ (dn ++ [m])), join_app, length_app. lia.
Qed.

Definition sample_credential (secret : string) : HelperMessage :=
  mkMessage 1 (lit "validate") [(lit "credential", lit "123e4567-e89b-42d3-a456-426614174000:" ++ lit secret)].

Lemma sample_credential_encodable secret : secret = "good" ∨ secret = "bad" → text_encodable (sample_credential secret).
Proof.
  intros [-> | ->]; (split; try (by vm_compute); [apply (bool_decide_unpack _); by vm_compute|]);
    repeat constructor; apply (bool_decide_unpack _); by vm_compute.
Qed.

Definition sample_requests : list HelperMessage := [sample_credential "good"; sample_credential "bad"].
Definition sample_input : bytes := messages text_codec sample_requests.

Lemma helper_program_serves_witness :
  ∃ rs p, auth_main (RData <$> [take 30 sample_input; drop 30 sample_input]) [[WCount 3; WIntr]; []] [1000] = Ok (0, p) ∧
    answer_all auth_handler sample_requests [1000] = Ok (rs, []) ∧ pg_state p = [] ∧ pg_out p = messages text_codec rs.
Proof.
  unfold auth_main.
  destruct (answer_all auth_handler sample_requests [1000]) as [[rs0 st0]|] eqn:Ha; [|vm_compute in Ha; discriminate Ha].
  destruct (helper_program_serves text_codec auth_handler [take 30 sample_input; drop 30 sample_input] []
    [[WCount 3; WIntr]; []] sample_requests [1000] (rs0, st0) Ha)
    as (dn & todo & rs & p & Hrun & Hms & Hl & Hs & Ho).
  - repeat apply Forall_cons_2; [apply sample_credential_encodable; auto..|apply Forall_nil_2].
  - repeat apply Forall_cons_2; try apply Forall_nil_2; simpl; lia || exact I.
  - repeat apply Forall_cons_2; try apply Forall_nil_2; (split; [by vm_compute|apply Nat.leb_le; by vm_compute]).
  - cbn [mjoin list_join]. by rewrite !app_nil_r, take_drop.
  - assert (todo = [] ∧ dn = sample_requests) as [-> ->].
    { destruct todo as [|m todo]; [rewrite app_nil_r in Hms; split; [reflexivity|symmetry; exact Hms]|].
      exfalso. specialize (Hl m eq_refl). revert Hl. apply Nat.le_ngt. cbn [mjoin list_join]. rewrite app_nil_r, take_drop. apply (messages_length text_codec dn m todo _ Hms). }
    rewrite Ha in Hs. injection Hs as -> ->.
    assert (match answer_all auth_handler sample_requests [1000] with Ok (_, st) => st = [] | Err _ => False end) as He
      by (vm_compute; reflexivity). rewrite Ha in He.
    exists rs, p. split_and!; [exact Hrun|by rewrite He|exact He|exact Ho].
Defined.
