(* ===== verification/StorageClient.v ===== *)
(** * The storage client ([ipc/storage_client.cc])

    How the trading engine's storage calls become messages, how replies become
    the arguments of its callbacks, and the outbox of reports that storage has
    not committed yet. *)

From S2P Require Import Prelude.
From S2P Require Import Order.
From S2P Require Import Bytes.
From S2P Require Import HelperCodec.
From S2P Require Import MatchingEngine.
From S2P Require Import TradingEngine.
From S2P Require Import StorageHelper.

(** ** Requests *)

Definition SideName (s : Side) : bytes := match s with Buy => lit "buy" | Sell => lit "sell" end.

Definition call_type (c : StorageCall) : bytes :=
  match c with
  | ReportOrder _ _ _ _ _ _ => lit "report_order"
  | ReportTrade _ _ _ _ _ => lit "report_trade"
  | ReportFill _ _ _ _ _ => lit "report_fill"
  | ReportRest _ _ _ _ _ _ => lit "report_rest"
  | ReportCancel _ _ => lit "report_cancel"
  | PullLevels _ _ _ _ => lit "pull_levels"
  | PullPosition _ _ => lit "pull_position"
  | PullWatermarks => lit "pull_watermarks"
  | CommitAll => lit "commit"
  end.

Definition call_fields (c : StorageCall) : list (bytes * bytes) :=
  match c with
  | ReportOrder sym owner i s p q =>
      [(lit "symbol", lit sym); (lit "owner", lit owner); (lit "id", to_dec i);
       (lit "side", SideName s); (lit "price", to_dec p); (lit "qty", to_dec q)]
  | ReportTrade sym taker maker p q =>
      [(lit "symbol", lit sym); (lit "taker", to_dec taker); (lit "maker", to_dec maker);
       (lit "price", to_dec p); (lit "qty", to_dec q)]
  | ReportFill sym i q remaining complete =>
      [(lit "symbol", lit sym); (lit "id", to_dec i); (lit "qty", to_dec q);
       (lit "remaining", to_dec remaining); (lit "status", if complete then lit "filled" else lit "partial")]
  | ReportRest sym s i p leaves seq =>
      [(lit "symbol", lit sym); (lit "side", SideName s); (lit "id", to_dec i);
       (lit "price", to_dec p); (lit "leaves", to_dec leaves); (lit "seq", to_dec seq)]
  | ReportCancel sym i => [(lit "symbol", lit sym); (lit "id", to_dec i)]
  | PullLevels sym s from count =>
      [(lit "symbol", lit sym); (lit "side", SideName s); (lit "from_price", to_dec from);
       (lit "count", to_dec count)]
  | PullPosition user sym => [(lit "user", lit user); (lit "symbol", lit sym)]
  | PullWatermarks | CommitAll => []
  end.

Definition call_message (id : Z) (c : StorageCall) : HelperMessage := mkMessage id (call_type c) (call_fields c).

(** ** Replies *)

Definition ParseI64 (s : bytes) : res Z :=
  match s with
  | [] => Ok 0
  | c :: rest =>
      if bool_decide (c = minus) then v ← parse_digits 0 rest; Ok (- v)
      else if bool_decide (c = plus) then parse_digits 0 rest
      else parse_digits 0 s
  end.

(** Unsigned, wrapping. *)
Fixpoint parse_u64 (v : Z) (s : bytes) : Z :=
  match s with
  | [] => v
  | c :: s => if isdigit c then parse_u64 (to_u64 (v * 10 + digit_val c)) s else v
  end.
Definition ParseU64 (m : HelperMessage) (key : bytes) : Z := from_option (parse_u64 0) 0 (get key m).

(** Up to four comma-separated fields of a record. *)
Fixpoint record_fields (n : nat) (rec : bytes) : res (list Z) :=
  match n with
  | O => Ok []
  | S n =>
      match find_char comma rec with
      | None => v ← ParseI64 rec; Ok [v]
      | Some fe =>
          v ← ParseI64 (take fe rec);
          f ← record_fields n (drop (S fe) rec);
          Ok (v :: f)
      end
  end.

Definition pulled_record (rec : bytes) : res PulledOrder :=
  f ← record_fields 4 rec;
  Ok (mkPulled (to_u64 (nth 0 f 0)) (nth 1 f 0) (nth 2 f 0) (to_u64 (nth 3 f 0))).

Fixpoint orders_loop (fuel : nat) (blob : bytes) : res (list PulledOrder) :=
  match fuel with
  | O => Err OutOfFuel
  | S fuel =>
      if decide (blob = []) then Ok []
      else
        let rec := match find_char semi blob with None => blob | Some e => take e blob end in
        out ← (if decide (rec = []) then Ok [] else o ← pulled_record rec; Ok [o]);
        match find_char semi blob with
        | None => Ok out
        | Some e => rest ← orders_loop fuel (drop (S e) blob); Ok (out ++ rest)
        end
  end.
Definition ParseOrders (blob : bytes) : res (list PulledOrder) := orders_loop (S (length blob)) blob.

(** What the callback of a call receives for a reply. *)
Definition decode_reply (c : StorageCall) (ok : bool) (m : HelperMessage) : res Reply :=
  match c with
  | PullLevels _ _ _ _ =>
      orders ← (if ok then match get (lit "orders") m with Some blob => ParseOrders blob | None => Ok [] end
                else Ok []);
      Ok (mkReply ok orders 0 0 0)
  | PullPosition _ _ =>
      net ← (if ok then match get (lit "net") m with Some s => ParseI64 s | None => Ok 0 end else Ok 0);
      Ok (mkReply ok [] net 0 0)
  | PullWatermarks =>
      Ok (mkReply ok [] 0 (if ok then ParseU64 m (lit "max_id") else 0) (if ok then ParseU64 m (lit "max_rank") else 0))
  | _ => Ok (mkReply ok [] 0 0 0)
  end.

(** ** The outbox *)

Inductive OutboxState := kPending | kAcked.
Record OutboxEntry := mkOutbox { ob_kind : string; ob_state : OutboxState }.
Abbreviation Outbox := (gmap Z OutboxEntry) (only parsing).

(** The kind under which a call enters the outbox. *)
Definition outbox_kind (c : StorageCall) : option string :=
  match c with
  | ReportOrder _ _ _ _ _ _ => Some "order"%string
  | ReportTrade _ _ _ _ _ => Some "trade"%string
  | ReportFill _ _ _ _ _ => Some "fill"%string
  | _ => None
  end.

(** After [send] returned [id]. *)
Definition outbox_sent (id : Z) (c : StorageCall) (ob : Outbox) : Outbox :=
  match outbox_kind c with
  | Some kind => match ob !! id with Some _ => ob | None => <[id := mkOutbox kind kPending]> ob end
  | None => ob
  end.

(** The commit watermark of a reply. *)
Definition watermark (m : HelperMessage) : Z := from_option (parse_u64 0) 0 (get (lit "committed") m).

(** The storage client's own part of the callbacks. *)
Definition outbox_reply (c : StorageCall) (ok : bool) (m : HelperMessage) (ob : Outbox) : Outbox :=
  match c with
  | CommitAll => if ok then filter (λ kv : Z * OutboxEntry, ¬ kv.1 ≤ watermark m) ob else ob
  | _ =>
      match outbox_kind c with
      | Some _ =>
          if ok then
            match ob !! msg_req_id m with
            | Some x => <[msg_req_id m := mkOutbox (ob_kind x) kAcked]> ob
            | None => ob
            end
          else ob
      | None => ob
      end
  end.

Definition processed_pending (ob : Outbox) : nat := size ob.
