(* ===== verification/StorageProps.v ===== *)
(** * Storage: the protocol and the record

    The client's messages, the helper's answers and the client's reading of them
    amount to calls on a structured store; the store's book is consistent, and a
    depth pull returns the best levels beyond the window. *)

From S2P Require Import Prelude.
From S2P Require Import Order.
From S2P Require Import Bytes.
From S2P Require Import HelperCodec.
From S2P Require Import MatchingEngine.
From S2P Require Import TradingEngine.
From S2P Require Import StorageHelper.
From S2P Require Import StorageClient.

(** ** Numbers *)
Lemma digit_range c : isdigit c = true → 0 ≤ digit_val c < 10.
Proof. unfold isdigit, digit_val. lia. Qed.

Lemma undec_ge ds : ∀ v, Forall (λ c, isdigit c = true) ds → 0 ≤ v → v ≤ undec v ds.
Proof.
  induction ds as [|c ds IH]; intros v Hd Hv; simpl; [lia|]. apply Forall_cons in Hd as [Hc%digit_range Hd].
  etrans; [|apply IH; [done|lia]]. lia.
Qed.

(** Digits whose value fits are read back. *)
Lemma parse_digits_undec ds : ∀ v,
  Forall (λ c, isdigit c = true) ds → 0 ≤ v → undec v ds < 2 ^ 63 → parse_digits v ds = Ok (undec v ds).
Proof.
  induction ds as [|c ds IH]; intros v Hd Hv Hlt; [done|]. apply Forall_cons in Hd as [Hc Hd].
  cbn [parse_digits]. rewrite Hc. apply digit_range in Hc. change (undec v (c :: ds)) with (undec (v * 10 + digit_val c) ds) in *.
  pose proof (undec_ge ds (v * 10 + digit_val c) Hd ltac:(lia)).
  rewrite (proj2 (Z.ltb_lt _ _)) by lia. apply IH; [done|lia|done].
Qed.

Lemma parse_u64_undec ds : ∀ v, Forall (λ c, isdigit c = true) ds → parse_u64 (to_u64 v) ds = to_u64 (undec v ds).
Proof.
  induction ds as [|c ds IH]; intros v Hd; [done|]. apply Forall_cons in Hd as [Hc Hd].
  simpl. rewrite Hc. assert (to_u64 (to_u64 v * 10 + digit_val c) = to_u64 (v * 10 + digit_val c)) as ->.
  { unfold to_u64. by rewrite Zplus_mod, Zmult_mod_idemp_l, <-Zplus_mod. }
  by apply IH.
Qed.

Definition dec_char (c : ascii) : Prop := isdigit c = true ∨ c = minus.

Lemma to_dec_chars z : - 2 ^ 64 < z < 2 ^ 64 → Forall dec_char (to_dec z) ∧ to_dec z ≠ [].
Proof.
  intros Hz. unfold to_dec. case_if.
  - destruct (dec_spec (- z)) as (Hd & _ & _); [unfold is_u64; lia|]. split; [|done].
    constructor; [by right|]. eapply Forall_impl; [exact Hd|]. by left.
  - destruct (dec_spec z) as (Hd & _ & Hl); [unfold is_u64; lia|]. split.
    + eapply Forall_impl; [exact Hd|]. by left.
    + intros E. rewrite E in Hl. simpl in Hl. lia.
Qed.

Lemma dec_char_free z c : - 2 ^ 64 < z < 2 ^ 64 → ¬ dec_char c → c ∉ to_dec z.
Proof. intros Hz Hc Hin. destruct (to_dec_chars z Hz) as [Hf _]. rewrite Forall_forall in Hf. by apply Hc, Hf. Qed.

(** What [ParseInt] reads back: every 64-bit integer but the least, whose digits
    overflow. *)
Definition is_num (z : Z) : Prop := - 2 ^ 63 < z < 2 ^ 63.

Lemma ParseInt_to_dec z : is_num z → ParseInt (to_dec z) = Ok z.
Proof.
  unfold is_num. intros Hz. unfold to_dec. case_if.
  - destruct (dec_spec (- z)) as (Hd & Hu & _); [unfold is_u64; lia|]. simpl.
    rewrite parse_digits_undec, Hu by (done || lia). simpl. f_equal. lia.
  - destruct (dec_spec z) as (Hd & Hu & Hl); [unfold is_u64; lia|].
    destruct (dec z) as [|c ds] eqn:E; [simpl in Hl; lia|]. unfold ParseInt.
    apply Forall_cons in Hd as Hc. destruct Hc as [Hc _].
    rewrite !bool_decide_false by (intros ->; vm_compute in Hc; done). rewrite parse_digits_undec by (done || lia). by rewrite Hu.
Qed.

Lemma ParseI64_ParseInt s : ParseI64 s = ParseInt s.
Proof. reflexivity. Qed.

(** Eighteen digits always fit. *)
Lemma parse_digits_short s : ∀ v k, 0 ≤ v < 10 ^ Z.of_nat k → (length s + k ≤ 18)%nat → ∃ r, parse_digits v s = Ok r.
Proof.
  induction s as [|c s IH]; intros v k Hv Hk; cbn [parse_digits]; [by eexists|].
  destruct (isdigit c) eqn:Ec; [|by eexists]. apply digit_range in Ec.
  assert (v * 10 + digit_val c < 10 ^ Z.of_nat (S k)) as Hlt.
  { rewrite Nat2Z.inj_succ, Z.pow_succ_r by lia. lia. }
  assert (10 ^ Z.of_nat (S k) ≤ 10 ^ 18) as Hp by (simpl in Hk; apply Z.pow_le_mono_r; lia).
  assert (10 ^ 18 < 2 ^ 63) by reflexivity. cbv zeta. rewrite (proj2 (Z.ltb_lt _ _)) by lia.
  apply (IH _ (S k)); [lia|simpl in Hk; lia].
Qed.

Lemma ParseInt_short s : (length s ≤ 18)%nat → ∃ r, ParseInt s = Ok r.
Proof.
  intros Hs. destruct s as [|c s]; [by eexists|]. cbn [ParseInt].
  assert (∀ l, (length l ≤ 18)%nat → ∃ r, parse_digits 0 l = Ok r) as H.
  { intros l Hl. apply (parse_digits_short l 0 0); simpl; lia. }
  repeat case_bool_decide.
  - destruct (H s) as [r ->]; [simpl in Hs; lia|]. by eexists.
  - apply H. simpl in Hs. lia.
  - by apply H.
Qed.

Lemma parse_u64_to_dec z : is_u64 z → parse_u64 0 (to_dec z) = z.
Proof.
  intros Hz. unfold to_dec. rewrite (proj2 (Z.ltb_ge z 0)) by (unfold is_u64 in Hz; lia).
  destruct (dec_spec z Hz) as (Hd & Hu & _). change 0 with (to_u64 0). rewrite parse_u64_undec, Hu by done.
  unfold to_u64. apply Z.mod_small. exact Hz.
Qed.

(** ** Records of a level pull *)
Definition is_id (z : Z) : Prop := 0 ≤ z < 2 ^ 63.
Definition resting_fits (o : RestingOrder) : Prop :=
  is_id (ro_id o) ∧ is_num (ro_price o) ∧ is_num (ro_leaves o) ∧ is_id (ro_seq o).
#[export] Instance is_id_dec z : Decision (is_id z).
Proof. unfold is_id. apply _. Defined.
#[export] Instance is_num_dec z : Decision (is_num z).
Proof. unfold is_num. apply _. Defined.
#[export] Instance resting_fits_dec o : Decision (resting_fits o).
Proof. unfold resting_fits. apply _. Defined.
Definition pulled_of (o : RestingOrder) : PulledOrder := mkPulled (ro_id o) (ro_price o) (ro_leaves o) (ro_seq o).

Lemma num_range z : is_num z → - 2 ^ 64 < z < 2 ^ 64.
Proof. unfold is_num. lia. Qed.
Lemma id_num z : is_id z → is_num z.
Proof. unfold is_id, is_num. lia. Qed.
Lemma id_u64 z : is_id z → to_u64 z = z.
Proof. unfold is_id, to_u64. intros Hz. apply Z.mod_small. lia. Qed.
#[local] Hint Resolve num_range id_num : core.

Lemma drop_past {A} (l : list A) x r : drop (S (length l)) (l ++ x :: r) = r.
Proof. induction l; [done|]. simpl in *. done. Qed.

Lemma record_fields_cons n z rest :
  is_num z → record_fields (S n) (to_dec z ++ comma :: rest) = (f ← record_fields n rest; Ok (z :: f)).
Proof.
  intros Hz. cbn [record_fields]. rewrite find_char_split by (apply dec_char_free; [auto|by intros [?|?]]).
  rewrite take_app_length, ParseI64_ParseInt, ParseInt_to_dec by done.
  by rewrite drop_past.
Qed.

(** A record without its terminator. *)
Definition record_body (o : RestingOrder) : bytes :=
  to_dec (ro_id o) ++ comma :: to_dec (ro_price o) ++ comma :: to_dec (ro_leaves o) ++ comma :: to_dec (ro_seq o).

Lemma order_record_body o : order_record o = record_body o ++ [semi].
Proof. unfold order_record, record_body. do 3 (rewrite <-app_assoc; simpl; do 2 f_equal). Qed.

Lemma pulled_record_back o : resting_fits o → pulled_record (record_body o) = Ok (pulled_of o).
Proof.
  intros (H1 & H2 & H3 & H4). unfold pulled_record, record_body. rewrite !record_fields_cons by auto.
  cbn [record_fields]. rewrite (proj2 (find_char_None _ _)) by (apply dec_char_free; [auto|by intros [?|?]]).
  rewrite ParseI64_ParseInt, ParseInt_to_dec by auto. cbn. by rewrite !id_u64.
Qed.

Lemma ParseOrders_records os :
  Forall resting_fits os → ParseOrders (concat (order_record <$> os)) = Ok (pulled_of <$> os).
Proof.
  intros Hf. unfold ParseOrders.
  assert (∀ fuel, (length os < fuel)%nat → orders_loop fuel (concat (order_record <$> os)) = Ok (pulled_of <$> os)) as Hgo.
  { induction Hf as [|o os Ho Hf IH]; intros fuel Hl; destruct fuel as [|fuel]; simpl in Hl; try lia; [done|].
    rewrite !fmap_cons. cbn [concat]. rewrite order_record_body, <-app_assoc. cbn [app].
    pose proof (pulled_record_back o Ho) as Hback. destruct Ho as (H1 & H2 & H3 & H4).
    assert (semi ∉ record_body o) as Hfree.
    { assert (∀ z, - 2 ^ 64 < z < 2 ^ 64 → semi ∉ to_dec z) as Hn by (intros z Hz; apply dec_char_free; [done|by intros [?|?]]).
      assert (semi ≠ comma) as Hc by done. unfold record_body. rewrite !not_elem_of_app, !not_elem_of_cons.
      repeat (rewrite not_elem_of_app || rewrite not_elem_of_cons).
      split; [by apply Hn; auto|]. split; [exact Hc|]. split; [by apply Hn; auto|]. split; [exact Hc|].
      split; [by apply Hn; auto|]. split; [exact Hc|]. by apply Hn; auto. }
    assert (record_body o ≠ []) as Hne by (unfold record_body; by destruct (to_dec (ro_id o))).
    set (body := record_body o) in *.
    cbn [orders_loop]. rewrite decide_False by (by destruct body). rewrite find_char_split by done.
    rewrite take_app_length, decide_False by done. rewrite Hback. cbn [mbind res_bind].
    rewrite drop_past, IH by lia. done. }
  apply Hgo. clear. induction os as [|o os IH]; [simpl; lia|]. rewrite fmap_cons. cbn [concat length].
  rewrite length_app, order_record_body, length_app. cbn [length]. lia.
Qed.

(** ** Level pulls *)

(** The levels of a side beyond [from], best first. *)
Definition beyond (side : bytes) (from : Z) (p : Z) : bool :=
  if bool_decide (side = lit "buy") then p <? from else from <? p.
Definition levels_best_first (side : bytes) (prices : Prices) : list (Z * list RestingOrder) :=
  if bool_decide (side = lit "buy") then reverse (ascending prices) else ascending prices.
Definition deep_levels (side : bytes) (from count : Z) (prices : Prices) : list (Z * list RestingOrder) :=
  take (Z.to_nat count) (List.filter (λ x, beyond side from x.1) (levels_best_first side prices)).
Definition deep_orders (sym side : bytes) (from count : Z) (st : Store) : list RestingOrder :=
  concat ((λ x, merge_sort arrived_before x.2) <$>
    deep_levels side from count (default ∅ (s_resting st !! (sym, side)))).

Lemma emit_level_eq v blob : emit_level v blob = blob ++ concat (order_record <$> merge_sort arrived_before v).
Proof.
  unfold emit_level. generalize (merge_sort arrived_before v). intros l. revert blob.
  induction l as [|o l IH]; intros blob; [by rewrite app_nil_r|]. cbn [foldl]. rewrite IH, fmap_cons. cbn [concat].
  by rewrite app_assoc.
Qed.

Lemma pull_loop_spec count ok l : ∀ levels blob,
  let sel := take (Z.to_nat (count - levels)) (List.filter (λ x, ok x.1) l) in
  pull_loop count ok l levels blob =
  (levels + Z.of_nat (length sel),
   blob ++ concat (order_record <$> concat ((λ x, merge_sort arrived_before x.2) <$> sel))).
Proof.
  induction l as [|[p v] l IH]; intros levels blob sel; cbn [pull_loop].
  { unfold sel. cbn [List.filter]. rewrite take_nil. simpl. rewrite app_nil_r. f_equal. lia. }
  unfold sel. cbn [List.filter fst]. destruct (Z.ltb_spec levels count) as [Hlt|Hge].
  - destruct (ok p).
    + rewrite IH, emit_level_eq. cbv zeta. destruct (Z.to_nat (count - levels)) as [|n] eqn:En; [lia|].
      replace (Z.to_nat (count - (levels + 1))) with n by lia. cbn [take]. rewrite fmap_cons. cbn [concat length snd].
      rewrite fmap_app, concat_app, <-app_assoc. f_equal. lia.
    + rewrite IH. done.
  - replace (Z.to_nat (count - levels)) with 0%nat by lia. simpl. rewrite app_nil_r. f_equal. lia.
Qed.

Lemma pull_blob_spec sym side from count st :
  pull_blob sym side from count st =
    (Z.of_nat (length (deep_levels side from count (default ∅ (s_resting st !! (sym, side))))),
     concat (order_record <$> deep_orders sym side from count st)).
Proof.
  unfold pull_blob, deep_orders, deep_levels, levels_best_first, beyond.
  destruct (s_resting st !! (sym, side)) as [prices|]; simpl.
  - case_bool_decide; rewrite pull_loop_spec; cbv zeta; simpl; by rewrite Z.sub_0_r.
  - assert (ascending ∅ = []) as -> by reflexivity. case_bool_decide; simpl; by rewrite take_nil.
Qed.

(** ** The structured store *)

(** What a call does and answers, without messages. *)
Definition store_call (id : Z) (c : StorageCall) (st : Store) : Reply * Store :=
  let seen := set_highest (Z.max (s_highest st) id) st in
  match c with
  | ReportOrder sym owner i s _ _ =>
      (mkReply true [] 0 0 0,
       set_order_info (<[i := mkInfo (lit owner) (SideName s) (lit sym)]> (s_order_info st)) seen)
  | ReportTrade _ _ _ _ _ => (mkReply true [] 0 0 0, seen)
  | ReportFill _ i q _ _ => (mkReply true [] 0 0 0, fill_resting i q (settle_position i q seen))
  | ReportRest sym s i p leaves seq =>
      (mkReply true [] 0 0 0, insert_resting (lit sym) (SideName s) (mkResting i p leaves seq) st)
  | ReportCancel _ i => (mkReply true [] 0 0 0, RemoveResting i st)
  | PullLevels sym s from count =>
      (mkReply true (pulled_of <$> deep_orders (lit sym) (SideName s) from count st) 0 0 0, st)
  | PullPosition user sym => (mkReply true [] (default 0 (s_positions st !! (lit user, lit sym))) 0 0, st)
  | PullWatermarks => (mkReply true [] 0 (max_id st) (max_rank st), st)
  | CommitAll => (mkReply true [] 0 0 0, st)
  end.

(** The numbers of a call are among those that are read back; the warm-up's least
    price is not. *)
Definition call_fits (c : StorageCall) : Prop :=
  match c with
  | ReportOrder _ _ i _ _ _ => is_id i
  | ReportTrade _ _ _ _ _ => True
  | ReportFill _ i q _ _ => is_id i ∧ is_num q
  | ReportRest _ _ i p leaves seq => is_id i ∧ is_num p ∧ is_num leaves ∧ is_id seq
  | ReportCancel _ i => is_id i
  | PullLevels _ _ from count => is_num from ∧ is_num count
  | _ => True
  end.

Record store_fits (st : Store) : Prop := mkStoreFits {
  sf_resting : ∀ k prices p v, s_resting st !! k = Some prices → prices !! p = Some v → Forall resting_fits v;
  sf_positions : ∀ k n, s_positions st !! k = Some n → is_num n;
  sf_orders : ∀ i info, s_order_info st !! i = Some info → is_id i;
}.

Lemma get_here k v fs : get_field k ((k, v) :: fs) = Some v.
Proof. simpl. by rewrite bool_decide_true. Qed.
Lemma get_skip k k' v fs : k' ≠ k → get_field k ((k', v) :: fs) = get_field k fs.
Proof. intros H. simpl. by rewrite bool_decide_false. Qed.

Ltac fields :=
  unfold num_field, get; cbn [msg_fields call_message call_fields reply_to];
  repeat (rewrite get_here || (rewrite get_skip by done)).

Lemma id_of_to_dec i : is_id i → id_of (to_dec i) = Ok i.
Proof. intros Hi. unfold id_of. rewrite ParseInt_to_dec by auto. simpl. by rewrite id_u64. Qed.

Lemma num_0 : is_num 0.
Proof. unfold is_num. lia. Qed.

Lemma foldr_max_id {A} (f : A → Z) l : Forall (λ x, is_id (f x)) l → is_id (foldr (λ x a, Z.max a (f x)) 0 l).
Proof. induction 1 as [|x l Hx _ IH]; simpl; unfold is_id in *; lia. Qed.

Lemma id_is_u64 z : is_id z → is_u64 z.
Proof. unfold is_id, is_u64. lia. Qed.

Lemma resting_orders_fit st : store_fits st → Forall resting_fits (resting_orders st).
Proof.
  intros [H _ _]. apply Forall_forall. intros o Ho. unfold resting_orders in Ho.
  apply list_elem_of_bind in Ho as ([k prices] & Ho & Hk). apply list_elem_of_bind in Ho as ([p v] & Ho & Hp).
  apply elem_of_map_to_list in Hk, Hp. specialize (H _ _ _ _ Hk Hp). rewrite Forall_forall in H. by apply H.
Qed.

Lemma deep_orders_fit sym side from count st : store_fits st → Forall resting_fits (deep_orders sym side from count st).
Proof.
  intros [H _ _]. apply Forall_forall. intros o Ho. unfold deep_orders in Ho.
  apply list_elem_of_In, in_concat in Ho as (l & Hl & Ho). apply list_elem_of_In in Hl, Ho.
  apply list_elem_of_fmap in Hl as ([p v] & -> & Hpv). rewrite merge_sort_Permutation in Ho. simpl in Ho.
  unfold deep_levels in Hpv. apply subseteq_take in Hpv. apply list_elem_of_In, filter_In in Hpv as [Hpv _].
  apply list_elem_of_In in Hpv. destruct (s_resting st !! (sym, side)) as [prices|] eqn:E; simpl in Hpv.
  - assert ((p, v) ∈ ascending prices) as Ha by (unfold levels_best_first in Hpv; by case_bool_decide; [rewrite elem_of_reverse in Hpv|]).
    apply by_key_elem in Ha.
    specialize (H _ _ _ _ E Ha). rewrite Forall_forall in H. by apply H.
  - exfalso. unfold levels_best_first in Hpv. assert (ascending ∅ = []) as Ee by reflexivity. rewrite Ee in Hpv.
    case_bool_decide; by apply elem_of_nil in Hpv.
Qed.

(** ** The protocol *)

Ltac pick_type :=
  unfold Handle, is_type; cbn [msg_type call_message call_type];
  repeat match goal with
  | |- context [bool_decide (lit ?a = lit ?b)] =>
      let v := eval vm_compute in (bool_decide (lit a = lit b)) in
      change (bool_decide (lit a = lit b)) with v; cbv iota
  end.

(** The storage protocol.  For every call whose numbers are read back, the
    message the client sends, the helper's handling of it and the client's
    reading of the answer amount to the call on the structured store: the store
    becomes what the call makes of it, and the callback receives what the call
    answers, orders pulled back included. *)
Definition served (id : Z) (c : StorageCall) (st : Store) : Prop :=
  ∃ m, Handle (call_message id c) st = Ok (m, (store_call id c st).2) ∧ msg_req_id m = id ∧
    decode_reply c true m = Ok (store_call id c st).1.

Lemma Handle_reports id c st :
  call_fits c → outbox_kind c ≠ None ∨ (∃ sym i, c = ReportCancel sym i) ∨
    (∃ sym s i p l q, c = ReportRest sym s i p l q) ∨ c = CommitAll →
  served id c st.
Proof.
  intros Hf Hc. destruct c as [sym owner i s p q|sym t m p q|sym i q rem b|sym s i p l sq|sym i|sym s from count|user sym| |];
    try (exfalso; naive_solver); unfold served; pick_type; simpl in Hf.
  - unfold report_order_rec, bump_highest. fields. rewrite id_of_to_dec by done. cbn. by eexists.
  - by eexists.
  - destruct Hf as [Hi Hq]. unfold report_fill_rec, bump_highest. fields.
    rewrite id_of_to_dec, ParseInt_to_dec by auto. cbn. by eexists.
  - destruct Hf as (Hi & Hp & Hl & Hs). unfold report_rest_rec, reported_order. fields.
    rewrite id_of_to_dec, !ParseInt_to_dec by auto. cbn. rewrite id_u64 by done. by eexists.
  - unfold report_cancel_rec. fields. rewrite id_of_to_dec by done. cbn. by eexists.
  - by eexists.
Qed.

Lemma storage_protocol_refines id c st : call_fits c → store_fits st → served id c st.
Proof.
  intros Hf Hst. destruct c as [sym owner i s p q|sym t m p q|sym i q rem b|sym s i p l sq|sym i|sym s from count|user sym| |].
  1-5,9: apply Handle_reports; [done|naive_solver].
  - destruct Hf as [Hfr Hc]. unfold served. pick_type. fields. rewrite !ParseInt_to_dec by done. cbn [mbind res_bind].
    rewrite pull_blob_spec.
    eexists. split_and!; [done..|]. unfold decode_reply. fields. cbn [app]. fields.
    rewrite ParseOrders_records by (by apply deep_orders_fit). done.
  - unfold served. pick_type. fields. eexists. split_and!; [done..|]. unfold decode_reply. fields.
    rewrite ParseI64_ParseInt, ParseInt_to_dec; [done|].
    destruct (s_positions st !! (lit user, lit sym)) as [n|] eqn:E; [by eapply sf_positions|apply num_0].
  - unfold served. pick_type. eexists. split_and!; [done..|]. unfold decode_reply, ParseU64. fields. simpl from_option.
    rewrite !parse_u64_to_dec; [done| |]; apply id_is_u64.
    + unfold max_rank. apply foldr_max_id. eapply Forall_impl; [by apply resting_orders_fit|]. by intros o (_ & _ & _ & ?).
    + unfold max_id. apply (foldr_max_id fst). apply Forall_forall. intros [i info] Hi%elem_of_map_to_list.
      by eapply sf_orders.
Qed.

Definition sample_store : Store :=
  foldl (λ st c, (store_call 1 c st).2) new_store
    [ ReportOrder "ACME" "alice" 1 Sell 101 5; ReportRest "ACME" Sell 1 101 5 1;
      ReportRest "ACME" Sell 2 102 4 2; ReportRest "ACME" Sell 3 101 7 3; ReportFill "ACME" 1 2 3 false ].

(** A test of [store_fits]. *)
Definition store_checks (st : Store) : bool :=
  forallb (λ x, forallb (λ y, forallb (λ o : RestingOrder, bool_decide (resting_fits o)) y.2) (map_to_list x.2)) (map_to_list (s_resting st)) &&
  forallb (λ x : _ * Z, bool_decide (is_num x.2)) (map_to_list (s_positions st)) &&
  forallb (λ x : Z * _, bool_decide (is_id x.1)) (map_to_list (s_order_info st)).

Lemma store_checks_fits st : store_checks st = true → store_fits st.
Proof.
  unfold store_checks. rewrite !andb_true_iff, !forallb_forall. intros [[H1 H2] H3]. split.
  - intros k prices p v Hk Hp. apply elem_of_map_to_list, list_elem_of_In in Hk, Hp. specialize (H1 _ Hk).
    rewrite forallb_forall in H1. specialize (H1 _ Hp). rewrite forallb_forall in H1. apply Forall_forall.
    intros o Ho%list_elem_of_In. by apply H1, bool_decide_eq_true in Ho.
  - intros k n Hk%elem_of_map_to_list%list_elem_of_In. by apply H2, bool_decide_eq_true in Hk.
  - intros i info Hi%elem_of_map_to_list%list_elem_of_In. by apply H3, bool_decide_eq_true in Hi.
Qed.

Lemma sample_store_fits : store_fits sample_store.
Proof. apply store_checks_fits. vm_compute. reflexivity. Qed.

Example sample_pull :
  match Handle (call_message 9 (PullLevels "ACME" Sell 100 1)) sample_store with
  | Ok (m, _) => decode_reply (PullLevels "ACME" Sell 100 1) true m
  | Err e => Err e
  end = Ok (mkReply true [mkPulled 1 101 3 1; mkPulled 3 101 7 3] 0 0 0).
Proof. vm_compute. reflexivity. Qed.
