(* ===== verification/StorageBook.v ===== *)
(** * The storage helper's book

    The nested maps of the helper and its index by id hold one flat book: the
    orders by id.  Whatever requests arrive, the two agree. *)

From S2P Require Import Prelude.
From S2P Require Import Order.
From S2P Require Import Bytes.
From S2P Require Import HelperCodec.
From S2P Require Import Book.
From S2P Require Import MatchingEngine.
From S2P Require Import TradingEngine.
From S2P Require Import TradingFifo.
From S2P Require Import StorageHelper.
From S2P Require Import StorageClient.
From S2P Require Import StorageProps.
From S2P Require Import Sample.

(** ** Levels *)
Definition level (R : gmap (bytes * bytes) Prices) (k : bytes * bytes) (p : Z) : list RestingOrder :=
  default [] (default ∅ (R !! k) !! p).

(** No empty level and no empty side is kept. *)
Definition shape (R : gmap (bytes * bytes) Prices) : Prop :=
  ∀ k prices, R !! k = Some prices → prices ≠ ∅ ∧ ∀ p, prices !! p ≠ Some [].

Definition put_level (k : bytes * bytes) (p : Z) (v : list RestingOrder) (R : gmap (bytes * bytes) Prices)
    : gmap (bytes * bytes) Prices :=
  let prices := default ∅ (R !! k) in
  let prices := if decide (v = []) then delete p prices else <[p := v]> prices in
  if decide (prices = ∅) then delete k R else <[k := prices]> R.

Lemma put_level_lookup k p v R k' p' :
  level (put_level k p v R) k' p' = if decide (k' = k ∧ p' = p) then v else level R k' p'.
Proof.
  unfold level, put_level. set (prices := default ∅ (R !! k)).
  set (prices' := if decide (v = []) then delete p prices else <[p:=v]> prices).
  assert (default ∅ ((if decide (prices' = ∅) then delete k R else <[k:=prices']> R) !! k) = prices') as Hk.
  { case_decide as E; [by rewrite lookup_delete_eq, E|by rewrite lookup_insert_eq]. }
  assert (∀ q, default [] (prices' !! q) = if decide (q = p) then v else default [] (prices !! q)) as Hq.
  { clear Hk. intros q. unfold prices'. case_decide as Ev; case_decide as Eq.
    - by rewrite Ev, Eq, lookup_delete_eq.
    - by rewrite lookup_delete_ne.
    - by rewrite Eq, lookup_insert_eq.
    - by rewrite lookup_insert_ne. }
  destruct (decide (k' = k)) as [->|Hne].
  - rewrite Hk, Hq. clear Hk Hq. destruct (decide (p' = p)); [rewrite decide_True by done|rewrite decide_False by naive_solver]; done.
  - clear Hk Hq. rewrite (decide_False (P := k' = k ∧ p' = p)) by naive_solver.
    destruct (decide (prices' = ∅)); [by rewrite lookup_delete_ne|by rewrite lookup_insert_ne].
Qed.

Lemma put_level_shape k p v R : shape R → shape (put_level k p v R).
Proof.
  intros HS k' prices'. unfold put_level. case_decide as E.
  - intros [_ H]%lookup_delete_Some. by apply HS in H.
  - intros [[<- <-]|[_ H]]%lookup_insert_Some; [|by apply HS in H]. split; [done|]. intros q.
    assert (∀ q, default ∅ (R !! k) !! q ≠ Some []) as Hd.
    { intros q'. destruct (R !! k) eqn:Er; simpl; [by apply (HS _ _ Er)|by rewrite lookup_empty]. }
    case_decide; [intros [_ Hq]%lookup_delete_Some; by apply (Hd q)|].
    intros [[_ ?]|[_ Hq]]%lookup_insert_Some; [done|by apply (Hd q)].
Qed.

Lemma put_level_nonempty k p v R : v ≠ [] → put_level k p v R = <[k := <[p := v]> (default ∅ (R !! k))]> R.
Proof. intros Hv. unfold put_level. rewrite (decide_False (P := v = [])) by done. by rewrite decide_False by apply insert_non_empty. Qed.

(** ** Consistency *)
Record SInv (st : Store) : Prop := mkSInv {
  si_shape : shape (s_resting st);
  si_level : ∀ k p o, o ∈ level (s_resting st) k p →
    ro_price o = p ∧ s_rest_index st !! ro_id o = Some (k.1, k.2, p);
  si_nodup : ∀ k p, NoDup (ro_id <$> level (s_resting st) k p);
  si_index : ∀ i sym side p, s_rest_index st !! i = Some (sym, side, p) →
    ∃ o, o ∈ level (s_resting st) (sym, side) p ∧ ro_id o = i;
}.

(** [o] rests on a side of [sym]. *)
Definition rests (st : Store) (sym side : bytes) (o : RestingOrder) : Prop :=
  o ∈ level (s_resting st) (sym, side) (ro_price o).

Lemma rests_unique st s1 d1 o1 s2 d2 o2 :
  SInv st → rests st s1 d1 o1 → rests st s2 d2 o2 → ro_id o1 = ro_id o2 → (s1, d1, o1) = (s2, d2, o2).
Proof.
  intros HI H1 H2 Hid. destruct (si_level _ HI _ _ _ H1) as [_ E1]. destruct (si_level _ HI _ _ _ H2) as [_ E2].
  rewrite Hid, E2 in E1. simpl in E1. injection E1 as -> -> Hp. f_equal. unfold rests in *. rewrite <-Hp in H1.
  pose proof (si_nodup _ HI (s1, d1) (ro_price o2)) as Hnd.
  apply list_elem_of_lookup in H1 as [i Hi], H2 as [j Hj].
  assert (i = j) as ->; [|congruence].
  eapply (NoDup_lookup (ro_id <$> level (s_resting st) (s1, d1) (ro_price o2))); [done|..];
    rewrite list_lookup_fmap; [by rewrite Hi|rewrite Hj; simpl; by rewrite Hid].
Qed.

(** The level an indexed order is in. *)
Lemma index_level st i sym side p :
  SInv st → s_rest_index st !! i = Some (sym, side, p) →
  ∃ prices v, s_resting st !! (sym, side) = Some prices ∧ prices !! p = Some v ∧
    level (s_resting st) (sym, side) p = v ∧ ∃ o, o ∈ v ∧ ro_id o = i.
Proof.
  intros HI Hi. destruct (si_index _ HI _ _ _ _ Hi) as (o & Ho & Hid). unfold level in Ho.
  destruct (s_resting st !! (sym, side)) as [prices|] eqn:Er; simpl in Ho; [|by rewrite lookup_empty in Ho; apply elem_of_nil in Ho].
  destruct (prices !! p) as [v|] eqn:Ep; simpl in Ho; [|by apply elem_of_nil in Ho].
  exists prices, v. split_and!; [done..| |by exists o]. unfold level. rewrite Er. simpl. by rewrite Ep.
Qed.

Lemma RemoveResting_eq st i sym side p :
  SInv st → s_rest_index st !! i = Some (sym, side, p) →
  RemoveResting i st =
  set_rest_index (delete i (s_rest_index st))
    (set_resting (put_level (sym, side) p
       (List.filter (λ d, negb (ro_id d =? i)) (level (s_resting st) (sym, side) p)) (s_resting st)) st).
Proof.
  intros HI Hi. destruct (index_level _ _ _ _ _ HI Hi) as (prices & v & Er & Ep & Hl & _).
  unfold RemoveResting. rewrite Hi, Er, Ep, Hl. unfold put_level. by rewrite Er.
Qed.

Lemma elem_of_filter_ne i (l : list RestingOrder) o :
  o ∈ List.filter (λ d, negb (ro_id d =? i)) l ↔ o ∈ l ∧ ro_id o ≠ i.
Proof. by rewrite !list_elem_of_In, filter_In, negb_true_iff, Z.eqb_neq. Qed.

Lemma filter_ids_sublist i (l : list RestingOrder) :
  (ro_id <$> List.filter (λ d, negb (ro_id d =? i)) l) `sublist_of` (ro_id <$> l).
Proof.
  induction l as [|x l IH]; [done|]. simpl. case_match; [by apply sublist_skip|by apply sublist_cons].
Qed.

(** Replacing one level, with an index that follows. *)
Lemma SInv_put st k p v X :
  SInv st → NoDup (ro_id <$> v) →
  (∀ o, o ∈ v → ro_price o = p ∧ X !! ro_id o = Some (k.1, k.2, p)) →
  (∀ k' p' o, (k', p') ≠ (k, p) → o ∈ level (s_resting st) k' p' → X !! ro_id o = s_rest_index st !! ro_id o) →
  (∀ i sym side q, X !! i = Some (sym, side, q) →
     (∃ o, ((sym, side), q) = (k, p) ∧ o ∈ v ∧ ro_id o = i) ∨
     ((sym, side), q) ≠ (k, p) ∧ s_rest_index st !! i = Some (sym, side, q)) →
  SInv (set_rest_index X (set_resting (put_level k p v (s_resting st)) st)).
Proof.
  intros HI Hnd Hv Hframe Hback. split; simpl.
  - apply put_level_shape, HI.
  - intros k' p' o. rewrite put_level_lookup. case_decide as E; [destruct E as [-> ->]; by apply Hv|].
    intros Ho. destruct (si_level _ HI _ _ _ Ho) as [H1 H2]. split; [done|]. rewrite (Hframe k' p' o); [done|naive_solver|done].
  - intros k' p'. rewrite put_level_lookup. case_decide; [done|apply HI].
  - intros i sym side q Hi. rewrite put_level_lookup. destruct (Hback i sym side q Hi) as [(o & [= -> ->] & Ho & Hid)|[Hne Hx]].
    + rewrite decide_True by done. by exists o.
    + rewrite decide_False by naive_solver. by apply (si_index _ HI).
Qed.

(** ** The flat book *)
Abbreviation FlatBook := (gmap Z (bytes * bytes * RestingOrder)) (only parsing).

Record agrees (st : Store) (F : FlatBook) : Prop := mkAgrees {
  ag_inv : SInv st;
  ag_in : ∀ sym side o, rests st sym side o → F !! ro_id o = Some (sym, side, o);
  ag_out : ∀ i sym side o, F !! i = Some (sym, side, o) → ro_id o = i ∧ rests st sym side o;
}.

Definition reduced (q : Z) (o : RestingOrder) : RestingOrder :=
  mkResting (ro_id o) (ro_price o) (ro_leaves o - q) (ro_seq o).

Definition flat_fill (i q : Z) (F : FlatBook) : FlatBook :=
  match F !! i with
  | None => F
  | Some (sym, side, o) =>
      if ro_leaves o - q <=? 0 then delete i F else <[i := (sym, side, reduced q o)]> F
  end.

Lemma agrees_index st F i :
  agrees st F →
  match s_rest_index st !! i with
  | None => F !! i = None
  | Some (sym, side, p) => ∃ o, F !! i = Some (sym, side, o) ∧ ro_price o = p ∧ ro_id o = i ∧ rests st sym side o
  end.
Proof.
  intros [HI Hin Hout]. destruct (s_rest_index st !! i) as [[[sym side] p]|] eqn:Hi.
  - destruct (si_index _ HI _ _ _ _ Hi) as (o & Ho & Hid). destruct (si_level _ HI _ _ _ Ho) as [Hp _].
    assert (rests st sym side o) as Hr by (unfold rests; by rewrite Hp).
    exists o. split_and!; try done. rewrite <-Hid. by apply Hin.
  - destruct (F !! i) as [[[sym side] o]|] eqn:Hf; [|done]. destruct (Hout _ _ _ _ Hf) as [Hid Hr].
    destruct (si_level _ HI _ _ _ Hr) as [_ E]. congruence.
Qed.

Lemma agrees_remove st F i : agrees st F → agrees (RemoveResting i st) (delete i F).
Proof.
  intros HA. pose proof (agrees_index st F i HA) as Hx. destruct HA as [HI Hin Hout].
  destruct (s_rest_index st !! i) as [[[sym side] p]|] eqn:Hi.
  2:{ unfold RemoveResting. rewrite Hi, delete_id by done. by split. }
  destruct Hx as (o0 & Hf0 & Hp0 & Hid0 & Hr0). rewrite (RemoveResting_eq st i sym side p HI Hi).
  set (v := List.filter _ _). set (X := delete i (s_rest_index st)).
  assert (∀ s d o, rests (set_rest_index X (set_resting (put_level (sym, side) p v (s_resting st)) st)) s d o ↔
    rests st s d o ∧ ro_id o ≠ i) as Hrests.
  { intros s d o. unfold rests. simpl. rewrite put_level_lookup. case_decide as E.
    - destruct E as [[= -> ->] E]. unfold v. rewrite elem_of_filter_ne, E. done.
    - split; [|by intros [? _]]. intros Ho. split; [done|]. intros Hid. apply E.
      pose proof (rests_unique st s d o sym side o0 HI Ho Hr0 ltac:(congruence)) as [= -> -> ->]. done. }
  assert (SInv (set_rest_index X (set_resting (put_level (sym, side) p v (s_resting st)) st))) as HI'.
  { apply SInv_put; [done|..].
    - eapply sublist_NoDup; [apply HI|apply filter_ids_sublist].
    - intros o [Ho Hne]%elem_of_filter_ne. destruct (si_level _ HI _ _ _ Ho) as [H1 H2]. split; [done|].
      unfold X. by rewrite lookup_delete_ne.
    - intros k' p' o Hne Ho. unfold X. destruct (decide (i = ro_id o)) as [E|E]; [|by rewrite lookup_delete_ne].
      destruct (si_level _ HI _ _ _ Ho) as [_ H2]. rewrite <-E, Hi in H2. injection H2 as -> -> ->. by destruct k'.
    - intros j s d q [Hne Hj]%lookup_delete_Some. destruct (decide ((s, d, q) = (sym, side, p))) as [[= -> -> ->]|Hk].
      + left. destruct (si_index _ HI _ _ _ _ Hj) as (o & Ho & Hid). exists o. split_and!; [done| |done].
        apply elem_of_filter_ne. split; [done|congruence].
      + right. split; [|done]. intros [= -> -> ->]. by apply Hk. }
  split; [done|..].
  - intros s d o [Hr Hne]%Hrests. rewrite lookup_delete_ne by done. by apply Hin.
  - intros j s d o [Hne Hj]%lookup_delete_Some. destruct (Hout _ _ _ _ Hj) as [Hid Hr]. split; [done|].
    apply Hrests. split; [done|congruence].
Qed.

Lemma agrees_insert st F sym side o :
  agrees st F → agrees (insert_resting sym side o st) (<[ro_id o := (sym, side, o)]> F).
Proof.
  intros HA. apply (agrees_remove _ _ (ro_id o)) in HA. unfold insert_resting. set (s1 := RemoveResting (ro_id o) st) in *.
  assert (delete (ro_id o) F !! ro_id o = None) as Hn by apply lookup_delete_eq.
  rewrite <-(insert_delete_eq F). set (F1 := delete (ro_id o) F) in *. clearbody s1 F1.
  pose proof (agrees_index s1 F1 (ro_id o) HA) as Hx.
  destruct (s_rest_index s1 !! ro_id o) as [[[? ?] ?]|] eqn:Hi; [by destruct Hx as (? & ? & _); congruence|]. clear Hx.
  destruct HA as [HI Hin Hout].
  replace (default [] (default ∅ (s_resting s1 !! (sym, side)) !! ro_price o)) with (level (s_resting s1) (sym, side) (ro_price o)) by done.
  rewrite <-put_level_nonempty by (intros E; by apply app_nil in E as [_ ?]).
  set (v := level _ _ _ ++ [o]).
  assert (∀ k q o', o' ∈ level (s_resting s1) k q → ro_id o' ≠ ro_id o) as Hfresh'.
  { intros k q o' Ho Hid. destruct (si_level _ HI _ _ _ Ho) as [_ E]. congruence. }
  split.
  - apply SInv_put; [done|..].
    + unfold v. rewrite fmap_app. apply NoDup_app. split_and!; [apply HI| |repeat constructor; set_solver].
      intros i (o' & -> & Ho)%list_elem_of_fmap. simpl. intros E%list_elem_of_singleton. by eapply Hfresh'.
    + intros o' [Ho|Ho]%elem_of_app.
      * destruct (si_level _ HI _ _ _ Ho) as [H1 H2]. split; [done|]. rewrite lookup_insert_ne; [done|]. intros E. exact (Hfresh' _ _ _ Ho (eq_sym E)).
      * apply list_elem_of_singleton in Ho as ->. by rewrite lookup_insert_eq.
    + intros k' p' o' _ Ho. rewrite lookup_insert_ne; [done|]. intros E. exact (Hfresh' _ _ _ Ho (eq_sym E)).
    + intros i s d q [[<- [= <- <- <-]]|[Hne Hj]]%lookup_insert_Some.
      * left. exists o. split_and!; [done| |done]. unfold v. apply elem_of_app. right. by apply list_elem_of_singleton.
      * destruct (decide ((s, d, q) = (sym, side, ro_price o))) as [[= -> -> ->]|Hk].
        -- left. destruct (si_index _ HI _ _ _ _ Hj) as (o' & Ho & Hid). exists o'. split_and!; [done| |done].
           unfold v. apply elem_of_app. by left.
        -- right. split; [|done]. intros [= -> -> ->]. by apply Hk.
  - intros s d o'. unfold rests. simpl. rewrite put_level_lookup. case_decide as E.
    + destruct E as [[= -> ->] E]. unfold v. rewrite elem_of_app, list_elem_of_singleton. intros [Ho|Heq].
      * rewrite lookup_insert_ne by (intros E'; exact (Hfresh' _ _ _ Ho (eq_sym E'))). apply Hin. unfold rests. by rewrite E.
      * rewrite Heq. by rewrite lookup_insert_eq.
    + intros Ho. rewrite lookup_insert_ne by (intros E'; exact (Hfresh' _ _ _ Ho (eq_sym E'))). by apply Hin.
  - intros i s d o' [[<- [= <- <- <-]]|[Hne Hj]]%lookup_insert_Some.
    + split; [done|]. unfold rests. simpl. rewrite put_level_lookup, decide_True by done. unfold v. apply elem_of_app. right.
      by apply list_elem_of_singleton.
    + destruct (Hout _ _ _ _ Hj) as [Hid Hr]. split; [done|]. unfold rests in *. simpl. rewrite put_level_lookup.
      case_decide as E; [|done]. destruct E as [[= -> ->] E]. unfold v. apply elem_of_app. left. by rewrite <-E.
Qed.

(** ** Fills *)
Definition fill_one (i q : Z) (o : RestingOrder) : RestingOrder := if ro_id o =? i then reduced q o else o.

Lemma fill_queue_other i q n v : (∀ o, o ∈ v → ro_id o ≠ i) → fill_queue i q n v = (fill_one i q <$> v, n).
Proof.
  revert n. induction v as [|o v IH]; intros n Hne; [done|]. cbn [fill_queue].
  assert (ro_id o =? i = false) as E by (apply Z.eqb_neq, Hne; left). rewrite E, IH by (intros x Hx; apply Hne; by right).
  rewrite fmap_cons. unfold fill_one at 2. by rewrite E.
Qed.

Lemma fill_queue_eq i q v o : ∀ n,
  NoDup (ro_id <$> v) → o ∈ v → ro_id o = i → fill_queue i q n v = (fill_one i q <$> v, ro_leaves o - q).
Proof.
  induction v as [|x v IH]; intros n Hnd Ho Hid; [by apply elem_of_nil in Ho|]. rewrite fmap_cons in Hnd.
  apply NoDup_cons in Hnd as [Hx Hnd]. cbn [fill_queue]. rewrite fmap_cons. unfold fill_one at 1.
  apply elem_of_cons in Ho as [->|Ho].
  - rewrite (proj2 (Z.eqb_eq (ro_id x) i) Hid). rewrite fill_queue_other; [done|]. intros y Hy E. apply Hx. rewrite Hid, <-E.
    apply list_elem_of_fmap. eauto.
  - assert (ro_id x =? i = false) as E.
    { apply Z.eqb_neq. intros E. apply Hx. rewrite E, <-Hid. apply list_elem_of_fmap. eauto. }
    rewrite E, (IH n) by done. done.
Qed.

Lemma fill_one_id i q o : ro_id (fill_one i q o) = ro_id o ∧ ro_price (fill_one i q o) = ro_price o.
Proof. unfold fill_one. by case_match. Qed.

Lemma fill_one_ids i q (v : list RestingOrder) : ro_id <$> (fill_one i q <$> v) = ro_id <$> v.
Proof. rewrite <-list_fmap_compose. apply list_fmap_ext. intros _ o _. apply fill_one_id. Qed.

Lemma agrees_fill st F i q : agrees st F → agrees (fill_resting i q st) (flat_fill i q F).
Proof.
  intros HA. pose proof (agrees_index st F i HA) as Hx. unfold fill_resting, flat_fill.
  destruct (s_rest_index st !! i) as [[[sym side] p]|] eqn:Hi; [|by rewrite Hx].
  destruct Hx as (o & Hf & Hp & Hid & Hr). rewrite Hf. pose proof HA as [HI Hin Hout].
  change (default [] (default ∅ (s_resting st !! (sym, side)) !! p)) with (level (s_resting st) (sym, side) p).
  unfold rests in Hr. rewrite Hp in Hr. rewrite (fill_queue_eq i q _ o) by (done || apply HI).
  set (v := fill_one i q <$> level (s_resting st) (sym, side) p).
  assert (v ≠ []) as Hv by (unfold v; by destruct (level _ _ _); [apply elem_of_nil in Hr|]).
  rewrite <-put_level_nonempty by done. set (s1 := set_resting _ st).
  assert (agrees s1 (<[i := (sym, side, reduced q o)]> F)) as HA1.
  { assert (s1 = set_rest_index (s_rest_index st) s1) as E by done. split.
    - rewrite E. apply SInv_put; [done|..].
      + unfold v. rewrite fill_one_ids. apply HI.
      + intros x (y & -> & Hy)%list_elem_of_fmap. destruct (fill_one_id i q y) as [-> ->]. by apply (si_level _ HI) in Hy.
      + done.
      + intros j s d r Hj. destruct (decide ((s, d, r) = (sym, side, p))) as [[= -> -> ->]|Hk].
        * left. destruct (si_index _ HI _ _ _ _ Hj) as (y & Hy & Hidy). exists (fill_one i q y). split_and!; [done| |].
          -- unfold v. apply list_elem_of_fmap. eauto.
          -- by rewrite (proj1 (fill_one_id i q y)).
        * right. split; [|done]. intros [= -> -> ->]. by apply Hk.
    - intros s d x. unfold rests, s1. simpl. rewrite put_level_lookup. case_decide as Ek.
      + destruct Ek as [[= -> ->] Ep]. intros (y & -> & Hy)%list_elem_of_fmap.
        unfold fill_one in *. destruct (Z.eqb_spec (ro_id y) i) as [Ey|Ey].
        * simpl. rewrite Ey, lookup_insert_eq.
          assert (rests st sym side y) as Hry by (unfold rests; by rewrite (proj1 (si_level _ HI _ _ _ Hy))).
          assert (rests st sym side o) as Hro by (unfold rests; by rewrite Hp).
          pose proof (rests_unique st _ _ _ _ _ _ HI Hry Hro ltac:(congruence)) as [= ->]. done.
        * rewrite lookup_insert_ne by done. apply Hin. unfold rests. by rewrite (proj1 (si_level _ HI _ _ _ Hy)).
      + intros Hx. assert (ro_id x ≠ i) as Hne.
        { intros Ex. apply Ek. assert (rests st sym side o) as Hro by (unfold rests; by rewrite Hp).
          pose proof (rests_unique st s d x _ _ _ HI Hx Hro ltac:(congruence)) as [= -> -> ->]. done. }
        rewrite lookup_insert_ne by done. by apply Hin.
    - intros j s d x [[<- [= <- <- <-]]|[Hne Hj]]%lookup_insert_Some.
      + split; [done|]. unfold rests, s1. simpl. rewrite put_level_lookup, decide_True by (by rewrite Hp).
        unfold v. apply list_elem_of_fmap. exists o. split; [|done]. unfold fill_one. by rewrite Hid, Z.eqb_refl.
      + destruct (Hout _ _ _ _ Hj) as [Hidx Hrx]. split; [done|]. unfold rests, s1 in *. simpl. rewrite put_level_lookup.
        case_decide as Ek; [|done]. destruct Ek as [[= -> ->] Ep]. unfold v. apply list_elem_of_fmap. exists x.
        rewrite Ep in Hrx. split; [|done]. unfold fill_one. by rewrite (proj2 (Z.eqb_neq _ _)) by congruence. }
  case_match; [|done]. rewrite <-(delete_insert_eq F i (sym, side, reduced q o)). by apply agrees_remove.
Qed.

(** ** Any sequence of requests *)

(** The number a field holds. *)
Definition field_number (key : bytes) (m : HelperMessage) : Z :=
  match get key m with Some s => match ParseInt s with Ok z => z | Err _ => 0 end | None => 0 end.
Definition field_id (key : bytes) (m : HelperMessage) : Z := to_u64 (field_number key m).

Definition flat_request (F : FlatBook) (req : HelperMessage) : FlatBook :=
  if is_type "report_fill" req then
    match get (lit "id") req, get (lit "qty") req with
    | Some _, Some _ => flat_fill (field_id (lit "id") req) (field_number (lit "qty") req) F
    | _, _ => F
    end
  else if is_type "report_rest" req then
    match get (lit "symbol") req, get (lit "side") req, get (lit "id") req with
    | Some sym, Some side, Some _ =>
        let i := field_id (lit "id") req in
        <[i := (sym, side, mkResting i (field_number (lit "price") req)
            (field_number (lit "leaves") req) (field_id (lit "seq") req))]> F
    | _, _, _ => F
    end
  else if is_type "report_cancel" req then
    match get (lit "id") req with Some _ => delete (field_id (lit "id") req) F | None => F end
  else F.

Lemma num_field_Ok key m z : num_field key m = Ok z → field_number key m = z.
Proof. unfold num_field, field_number. case_match; [by intros ->|by intros [= <-]]. Qed.
Lemma id_of_Ok key m s z : get key m = Some s → id_of s = Ok z → field_id key m = z.
Proof. unfold id_of, field_id, field_number. intros ->. by intros (v & -> & [= <-])%bind_Ok. Qed.

Lemma agrees_ext st st' F :
  s_resting st' = s_resting st → s_rest_index st' = s_rest_index st → agrees st F → agrees st' F.
Proof.
  intros E1 E2 [[I1 I2 I3 I4] Hin Hout]. unfold rests in *. split; [split|..]; unfold rests; by rewrite ?E1, ?E2.
Qed.

Lemma settle_position_book i q st :
  s_resting (settle_position i q st) = s_resting st ∧ s_rest_index (settle_position i q st) = s_rest_index st.
Proof. unfold settle_position. by repeat case_match. Qed.

Lemma is_type_other t t' req : is_type t req = true → lit t ≠ lit t' → is_type t' req = false.
Proof. unfold is_type. intros ->%bool_decide_eq_true Hne. by apply bool_decide_eq_false. Qed.

Ltac other_type H :=
  repeat match goal with
  | |- context [is_type ?t ?r] => rewrite (is_type_other _ t r H) by done
  end.

Lemma agrees_Handle st F req resp st' : agrees st F → Handle req st = Ok (resp, st') → agrees st' (flat_request F req).
Proof.
  intros HA. assert (agrees (bump_highest req st) F) as HB by (by apply (agrees_ext st)).
  unfold Handle, flat_request.
  destruct (is_type "report_order" req) eqn:E1.
  { other_type E1. intros (s1 & Hs & [= _ <-])%bind_Ok. unfold report_order_rec in Hs.
    destruct (get (lit "id") req) as [i|]; [|by injection Hs as <-].
    apply bind_Ok in Hs as (oid & _ & [= <-]). by apply (agrees_ext (bump_highest req st)). }
  destruct (is_type "report_fill" req) eqn:E2.
  { intros (s1 & Hs & [= _ <-])%bind_Ok. unfold report_fill_rec in Hs.
    destruct (get (lit "id") req) as [i|] eqn:Hi; [|by injection Hs as <-].
    destruct (get (lit "qty") req) as [q|] eqn:Hq; [|by injection Hs as <-].
    apply bind_Ok in Hs as (oid & Ho & (n & Hn & [= <-])%bind_Ok). rewrite (id_of_Ok _ _ _ _ Hi Ho).
    assert (field_number (lit "qty") req = n) as -> by (apply num_field_Ok; unfold num_field; by rewrite Hq).
    apply agrees_fill. destruct (settle_position_book oid n (bump_highest req st)). by apply (agrees_ext (bump_highest req st)). }
  destruct (is_type "report_trade" req) eqn:E3; [other_type E3; by intros [= _ <-]|].
  destruct (is_type "commit" req) eqn:E4; [other_type E4; by intros [= _ <-]|].
  destruct (is_type "pull_position" req) eqn:E5; [other_type E5; by intros [= _ <-]|].
  destruct (is_type "report_rest" req) eqn:E6.
  { intros (s1 & Hs & [= _ <-])%bind_Ok. unfold report_rest_rec, reported_order in Hs.
    destruct (get (lit "symbol") req) as [sym|]; [|by injection Hs as <-].
    destruct (get (lit "side") req) as [side|]; [|by injection Hs as <-].
    destruct (get (lit "id") req) as [i|] eqn:Hi; [|by injection Hs as <-].
    apply bind_Ok in Hs as (o & (oid & Ho & (p & Hp%num_field_Ok & (l & Hl%num_field_Ok &
      (q & Hq%num_field_Ok & [= <-])%bind_Ok)%bind_Ok)%bind_Ok)%bind_Ok & [= <-]).
    unfold field_id at 3. rewrite (id_of_Ok _ _ _ _ Hi Ho), Hp, Hl, Hq. by apply (agrees_insert st F _ _ (mkResting _ _ _ _)). }
  destruct (is_type "report_cancel" req) eqn:E7.
  { intros (s1 & Hs & [= _ <-])%bind_Ok. unfold report_cancel_rec in Hs.
    destruct (get (lit "id") req) as [i|] eqn:Hi; [|by injection Hs as <-].
    apply bind_Ok in Hs as (oid & Ho & [= <-]). rewrite (id_of_Ok _ _ _ _ Hi Ho). by apply agrees_remove. }
  destruct (is_type "pull_levels" req).
  { intros (from & _ & (count & _ & Hr)%bind_Ok)%bind_Ok. by repeat case_match; simplify_eq. }
  by repeat case_match; intros [= _ <-].
Qed.

(** The store after a list of requests. *)
Definition store_after (reqs : list HelperMessage) : res Store :=
  res_foldl (λ st r, '(_, st) ← Handle r st; Ok st) new_store reqs.

Lemma agrees_new : agrees new_store ∅.
Proof.
  split; [split|..]; simpl; unfold rests, level; simpl.
  - by intros k prices; rewrite lookup_empty.
  - intros k p o. by rewrite !lookup_empty, elem_of_nil.
  - intros k p. rewrite !lookup_empty. constructor.
  - done.
  - intros sym side o. by rewrite !lookup_empty, elem_of_nil.
  - intros i sym side o. by rewrite lookup_empty.
Qed.

(** Requests whose numbers have at most eighteen characters. *)
Definition numeric_keys : list string := ["id"; "qty"; "price"; "leaves"; "seq"; "from_price"; "count"].
Definition short_request (req : HelperMessage) : Prop :=
  ∀ k s, k ∈ numeric_keys → get (lit k) req = Some s → (length s ≤ 18)%nat.

Lemma short_field k req : short_request req → k ∈ numeric_keys → ∃ z, num_field (lit k) req = Ok z.
Proof.
  intros Hs Hk. unfold num_field. destruct (get (lit k) req) as [s|] eqn:E; [|by eexists]. by apply ParseInt_short, (Hs k).
Qed.
Lemma short_id k req s : short_request req → k ∈ numeric_keys → get (lit k) req = Some s → ∃ z, id_of s = Ok z.
Proof. intros Hs Hk E. unfold id_of. destruct (ParseInt_short s) as [z ->]; [by apply (Hs k)|]. by eexists. Qed.

(** Such a request is answered. *)
Lemma Handle_total req st : short_request req → ∃ resp st', Handle req st = Ok (resp, st').
Proof.
  intros Hs. pose proof (λ k, short_field k req Hs) as Hn. pose proof (λ k s, short_id k req s Hs) as Hi.
  unfold Handle. repeat match goal with |- context [if is_type ?t req then _ else _] => destruct (is_type t req) end; try by eexists _, _.
  - unfold report_order_rec. destruct (get (lit "id") req) as [i|] eqn:E; [|by eexists _, _].
    destruct (Hi "id"%string i) as [z ->]; [set_solver|done|]. by eexists _, _.
  - unfold report_fill_rec. destruct (get (lit "id") req) as [i|] eqn:E; [|by eexists _, _].
    destruct (get (lit "qty") req) as [q|] eqn:E'; [|by eexists _, _].
    destruct (Hi "id"%string i) as [z ->]; [set_solver|done|]. cbn [mbind res_bind].
    destruct (ParseInt_short q) as [n ->]; [apply (Hs "qty"%string); [set_solver|done]|]. by eexists _, _.
  - unfold report_rest_rec, reported_order. destruct (get (lit "symbol") req); [|by eexists _, _].
    destruct (get (lit "side") req); [|by eexists _, _]. destruct (get (lit "id") req) as [i|] eqn:E; [|by eexists _, _].
    destruct (Hi "id"%string i) as [z ->]; [set_solver|done|]. cbn [mbind res_bind].
    destruct (Hn "price"%string) as [p ->]; [set_solver|]. cbn [mbind res_bind]. destruct (Hn "leaves"%string) as [lv ->]; [set_solver|]. cbn [mbind res_bind].
    destruct (Hn "seq"%string) as [q ->]; [set_solver|]. by eexists _, _.
  - unfold report_cancel_rec. destruct (get (lit "id") req) as [i|] eqn:E; [|by eexists _, _].
    destruct (Hi "id"%string i) as [z ->]; [set_solver|done|]. by eexists _, _.
  - destruct (Hn "from_price"%string) as [p ->]; [set_solver|]. cbn [mbind res_bind].
    destruct (Hn "count"%string) as [n ->]; [set_solver|]. cbn [mbind res_bind]. by repeat case_match; eexists _, _.
Qed.

Lemma agrees_session reqs : ∀ st F, agrees st F → Forall short_request reqs →
  ∃ st', res_foldl (λ st r, '(_, st) ← Handle r st; Ok st) st reqs = Ok st' ∧ agrees st' (foldl flat_request F reqs).
Proof.
  induction reqs as [|r reqs IH]; intros st F HA Hs; [by exists st|]. apply Forall_cons in Hs as [Hr Hs].
  destruct (Handle_total r st Hr) as (resp & st1 & E). cbn [res_foldl foldl]. rewrite E. cbn.
  apply IH; [by eapply agrees_Handle|done].
Qed.

(** ** Level pulls *)

(** Better for the side: the higher bid, the lower ask. *)
Definition ahead (side : bytes) (p q : Z) : Prop := if bool_decide (side = lit "buy") then q < p else p < q.

Lemma StronglySorted_snoc {A} (R : A → A → Prop) l x :
  StronglySorted R l → Forall (λ y, R y x) l → StronglySorted R (l ++ [x]).
Proof.
  intros Hs Hf. induction Hs as [|y l Hs IH Hy]; [repeat constructor|]. apply Forall_cons in Hf as [Hyx Hf].
  simpl. constructor; [by apply IH|]. apply Forall_app. split; [done|by constructor].
Qed.

Lemma StronglySorted_reverse {A} (R : A → A → Prop) l :
  StronglySorted R l → StronglySorted (λ x y, R y x) (reverse l).
Proof.
  induction 1 as [|x l Hs IH Hx]; [constructor|]. rewrite reverse_cons. apply StronglySorted_snoc; [done|].
  rewrite Forall_forall in *. intros y Hy. apply Hx. by rewrite elem_of_reverse in Hy.
Qed.

Lemma StronglySorted_filter_bool {A} (R : A → A → Prop) (f : A → bool) l :
  StronglySorted R l → StronglySorted R (List.filter f l).
Proof.
  induction 1 as [|x l Hs IH Hx]; [constructor|]. simpl. case_match; [|done]. constructor; [done|].
  rewrite Forall_forall in *. intros y Hy. apply Hx. apply list_elem_of_In, filter_In in Hy as [Hy _]. by apply list_elem_of_In.
Qed.

Lemma StronglySorted_take {A} (R : A → A → Prop) (l : list A) n :
  StronglySorted R l →
  StronglySorted R (take n l) ∧ ∀ x y, x ∈ take n l → y ∈ drop n l → R x y.
Proof.
  intros Hs. revert n. induction Hs as [|x l Hs IH Hx]; intros n.
  { rewrite take_nil, drop_nil. split; [constructor|]. intros x y Hx. by apply elem_of_nil in Hx. }
  destruct n as [|n]; simpl; [split; [constructor|]; intros ? ? H; by apply elem_of_nil in H|].
  destruct (IH n) as [I1 I2]. rewrite Forall_forall in Hx. split.
  - constructor; [done|]. apply Forall_forall. intros y Hy. by apply Hx, (subseteq_take n).
  - intros a b [->|Ha]%elem_of_cons Hb; [by apply Hx, (subseteq_drop n)|by apply I2].
Qed.

Lemma levels_best_first_spec side prices :
  StronglySorted (λ x y, ahead side x.1 y.1) (levels_best_first side prices) ∧
  ∀ p v, (p, v) ∈ levels_best_first side prices ↔ prices !! p = Some v.
Proof.
  pose proof (by_key_sorted prices) as Hs. pose proof (λ p v, by_key_elem prices p v) as He.
  unfold levels_best_first, ahead, ascending. case_bool_decide.
  - split; [by apply (StronglySorted_reverse (λ x y : Z * list RestingOrder, x.1 < y.1))|]. intros p v. by rewrite elem_of_reverse.
  - done.
Qed.

Lemma deep_levels_elem side from count prices p v :
  (p, v) ∈ deep_levels side from count prices → prices !! p = Some v ∧ beyond side from p = true.
Proof.
  unfold deep_levels. intros H%subseteq_take. apply list_elem_of_In, filter_In in H as [H Hb].
  apply list_elem_of_In in H. by apply levels_best_first_spec in H.
Qed.

Lemma deep_levels_sorted side from count prices :
  StronglySorted (λ x y, ahead side x.1 y.1) (deep_levels side from count prices) ∧
  ∀ p v, prices !! p = Some v → beyond side from p = true → (p, v) ∉ deep_levels side from count prices →
    length (deep_levels side from count prices) = Z.to_nat count ∧
    ∀ x, x ∈ deep_levels side from count prices → ahead side x.1 p.
Proof.
  destruct (levels_best_first_spec side prices) as [Hs Hin]. unfold deep_levels.
  apply (StronglySorted_filter_bool _ (λ x, beyond side from x.1)) in Hs.
  destruct (StronglySorted_take _ _ (Z.to_nat count) Hs) as [Ht Hcut]. split; [done|].
  intros p v Hp Hb Hnot. set (l := List.filter _ _) in *.
  assert ((p, v) ∈ l) as Hl.
  { apply list_elem_of_In, filter_In. split; [apply list_elem_of_In, Hin, Hp|done]. }
  rewrite <-(take_drop (Z.to_nat count) l), elem_of_app in Hl. destruct Hl as [?|Hd]; [done|]. split.
  - rewrite length_take. apply list_elem_of_lookup in Hd as [i Hi]. rewrite lookup_drop in Hi. apply lookup_lt_Some in Hi. lia.
  - intros x Hx. by apply (Hcut x (p, v)).
Qed.

Lemma merge_sort_arrived v : StronglySorted arrived_before (merge_sort arrived_before v).
Proof.
  apply StronglySorted_merge_sort; [intros x y z|intros x y]; unfold arrived_before; lia.
Qed.

Lemma StronglySorted_concat {A B} (R : B → B → Prop) (f : A → list B) (S : A → A → Prop) l :
  StronglySorted S l → (∀ x, x ∈ l → StronglySorted R (f x)) →
  (∀ x y a b, x ∈ l → y ∈ l → S x y → a ∈ f x → b ∈ f y → R a b) → StronglySorted R (concat (f <$> l)).
Proof.
  induction 1 as [|x l Hs IH Hx]; intros Hf Hcross; [constructor|]. rewrite fmap_cons. cbn [concat].
  assert (StronglySorted R (concat (f <$> l))) as Hl.
  { apply IH; [intros; apply Hf; by right|]. intros; eapply (Hcross x0 y); try done; by right. }
  assert (∀ a b, a ∈ f x → b ∈ concat (f <$> l) → R a b) as Hab.
  { intros a b Ha Hb. apply list_elem_of_In, in_concat in Hb as (m & Hm & Hb). apply list_elem_of_In in Hm, Hb.
    apply list_elem_of_fmap in Hm as (y & -> & Hy). rewrite Forall_forall in Hx.
    eapply (Hcross x y); [left|by right|by apply Hx|done|done]. }
  specialize (Hf x ltac:(left)). revert Hab. induction Hf as [|a m Hm IHm Ha]; intros Hab; [done|]. simpl.
  constructor; [apply IHm; intros; apply Hab; [by right|done]|]. apply Forall_app. split; [done|].
  apply Forall_forall. intros b Hb. apply Hab; [left|done].
Qed.

Lemma NoDup_concat {A B} (f : A → list B) (S : A → A → Prop) l :
  StronglySorted S l → (∀ x, x ∈ l → NoDup (f x)) →
  (∀ x y a, x ∈ l → y ∈ l → S x y → a ∈ f x → a ∈ f y → False) → NoDup (concat (f <$> l)).
Proof.
  induction 1 as [|x l Hs IH Hx]; intros Hf Hcross; [constructor|]. rewrite fmap_cons. cbn [concat].
  rewrite Forall_forall in Hx. apply NoDup_app. split_and!; [apply Hf; left| |].
  - intros a Ha (m & Hm & Hb)%list_elem_of_In%in_concat. apply list_elem_of_In in Hm, Hb.
    apply list_elem_of_fmap in Hm as (y & -> & Hy).
    apply (Hcross x y a); [left|by right|by apply Hx|done|done].
  - apply IH; [intros; apply Hf; by right|]. intros y z a Hy Hz. apply Hcross; by right.
Qed.

Lemma StronglySorted_NoDup {A B} (f : A → B) (R : A → A → Prop) l :
  StronglySorted R l → (∀ x y, R x y → f x ≠ f y) → NoDup (f <$> l).
Proof.
  intros Hs Hne. induction Hs as [|x l Hs IH Hx]; [constructor|]. rewrite fmap_cons. constructor; [|done].
  intros (y & E & Hy)%list_elem_of_fmap. rewrite Forall_forall in Hx. by apply (Hne x y); [apply Hx|].
Qed.

Lemma ahead_ne side p q : ahead side p q → p ≠ q.
Proof. unfold ahead. case_bool_decide; lia. Qed.

(** What a level pull must return of a store: [os] are the orders of its [levels]
    levels. *)
Record pull_ok (st : Store) (sym side : bytes) (from count levels : Z) (os : list RestingOrder) : Prop := mkPullOk {
  pu_rest : ∀ o, o ∈ os → rests st sym side o ∧ beyond side from (ro_price o) = true;
  pu_nodup : NoDup (ro_id <$> os);
  pu_sorted : StronglySorted (λ x y, ahead side (ro_price x) (ro_price y) ∨
                                     ro_price x = ro_price y ∧ ro_seq x ≤ ro_seq y) os;
  pu_levels : levels = Z.of_nat (size (list_to_set (ro_price <$> os) : gset Z));
  pu_bound : levels ≤ Z.max 0 count;
  pu_complete : ∀ o, rests st sym side o → beyond side from (ro_price o) = true → o ∉ os →
    levels = Z.max 0 count ∧ ∀ x, x ∈ os → ahead side (ro_price x) (ro_price o);
}.

(** The orders of the best levels beyond a price. *)
Lemma deep_orders_pull st F sym side from count :
  agrees st F →
  pull_ok st sym side from count (Z.of_nat (length (deep_levels side from count (default ∅ (s_resting st !! (sym, side))))))
    (deep_orders sym side from count st).
Proof.
  intros HA. pose proof HA as [HI Hin Hout]. set (os := deep_orders sym side from count st).
  set (prices := default ∅ (s_resting st !! (sym, side))) in *.
  assert (∀ p v o, prices !! p = Some v → o ∈ v → rests st sym side o ∧ ro_price o = p) as Hlev.
  { intros p v o Hp Ho. assert (o ∈ level (s_resting st) (sym, side) p) as Hl by (unfold level; fold prices; by rewrite Hp).
    destruct (si_level _ HI _ _ _ Hl) as [E _]. split; [|done]. unfold rests. by rewrite E. }
  assert (∀ o, o ∈ os ↔ ∃ p v, (p, v) ∈ deep_levels side from count prices ∧ o ∈ v) as Hos.
  { intros o. unfold os, deep_orders. rewrite list_elem_of_In, in_concat. fold prices. split.
    - intros (l & Hl & Ho). apply list_elem_of_In in Hl, Ho. apply list_elem_of_fmap in Hl as ([p v] & -> & Hpv).
      rewrite merge_sort_Permutation in Ho. eauto.
    - intros (p & v & Hpv & Ho). exists (merge_sort arrived_before v). split; apply list_elem_of_In.
      + apply list_elem_of_fmap. by exists (p, v).
      + by rewrite merge_sort_Permutation. }
  destruct (deep_levels_sorted side from count prices) as [Hsort Hcomp]. split.
  - intros o (p & v & Hpv & Ho)%Hos. apply deep_levels_elem in Hpv as [Hp Hb].
    destruct (Hlev p v o Hp Ho) as [? ->]. done.
  - unfold os, deep_orders. fold prices. rewrite concat_map, map_map.
    change (NoDup (concat ((λ x, ro_id <$> merge_sort arrived_before x.2) <$> deep_levels side from count prices))).
    eapply NoDup_concat; [exact Hsort|..].
    + intros [p v] Hpv. apply deep_levels_elem in Hpv as [Hp _]. simpl.
      rewrite (fmap_Permutation ro_id _ _ (merge_sort_Permutation arrived_before v)).
      pose proof (si_nodup _ HI (sym, side) p) as Hn. unfold level in Hn. fold prices in Hn. by rewrite Hp in Hn.
    + intros [p v] [q w] i Hpv Hqw Ha (x & Ex & Hx)%list_elem_of_fmap (y & Ey & Hy)%list_elem_of_fmap. simpl in *.
      rewrite merge_sort_Permutation in Hx, Hy. apply deep_levels_elem in Hpv as [Hp _], Hqw as [Hq _].
      destruct (Hlev _ _ _ Hp Hx) as [Hrx <-], (Hlev _ _ _ Hq Hy) as [Hry <-].
      pose proof (rests_unique st _ _ _ _ _ _ HI Hrx Hry ltac:(congruence)) as [= ->]. by apply ahead_ne in Ha.
  - unfold os, deep_orders. fold prices. eapply StronglySorted_concat; [exact Hsort|..].
    + intros [p v] Hpv. apply deep_levels_elem in Hpv as [Hp _]. simpl.
      assert (Forall (λ o, ro_price o = p) (merge_sort arrived_before v)) as Hall.
      { apply Forall_forall. intros o Ho. rewrite merge_sort_Permutation in Ho. by destruct (Hlev p v o Hp Ho). }
      pose proof (merge_sort_arrived v) as Hs. revert Hall Hs. generalize (merge_sort arrived_before v).
      induction 1 as [|x l Hx Hl IH]; intros Hs; [constructor|]. apply StronglySorted_inv in Hs as [Hs Hf].
      constructor; [by apply IH|]. rewrite Forall_forall in *. intros y Hy. right. rewrite Hx, (Hl y Hy). split; [done|by apply Hf].
    + intros [p v] [p' v'] x y Hx Hy Hah Hxv Hyv. left. simpl in *. rewrite merge_sort_Permutation in Hxv, Hyv.
      apply deep_levels_elem in Hx as [Hp _], Hy as [Hp' _].
      destruct (Hlev _ _ _ Hp Hxv) as [_ ->]. by destruct (Hlev _ _ _ Hp' Hyv) as [_ ->].
  - assert (NoDup (deep_levels side from count prices).*1) as Hnd.
    { eapply StronglySorted_NoDup; [exact Hsort|]. intros x y. apply ahead_ne. }
    rewrite <-(length_fmap fst), <-(size_list_to_set (C := gset Z) _ Hnd). do 2 f_equal. apply set_eq. intros p.
    rewrite !elem_of_list_to_set, !list_elem_of_fmap. split.
    + intros ([q v] & -> & Hpv). destruct (deep_levels_elem _ _ _ _ _ _ Hpv) as [Hq _]. simpl.
      destruct v as [|o v]; [|exists o; split; [symmetry; apply (Hlev q (o :: v)); [done|left]|apply Hos; exists q, (o :: v); split; [done|left]]].
      exfalso. unfold prices in Hq. destruct (s_resting st !! (sym, side)) as [ps|] eqn:E; [|by simpl in Hq; rewrite lookup_empty in Hq].
      by apply (proj2 (si_shape _ HI _ _ E) q).
    + intros (o & -> & (q & v & Hpv & Ho)%Hos). exists (q, v). split; [|done]. simpl.
      apply deep_levels_elem in Hpv as [Hq _]. by apply (Hlev q v).
  - unfold deep_levels. rewrite length_take. lia.
  - intros o Ho Hb Hnot. unfold rests, level in Ho. fold prices in Ho.
    destruct (prices !! ro_price o) as [v|] eqn:Hp; simpl in Ho; [|by apply elem_of_nil in Ho].
    destruct (Hcomp _ _ Hp Hb) as [Hlen Hahead]. { intros Hpv. apply Hnot, Hos. eauto. }
    split; [lia|]. intros x (p & w & Hpw & Hx)%Hos. pose proof (Hahead _ Hpw) as Ha. simpl in Ha.
    apply deep_levels_elem in Hpw as [Hpw _]. by destruct (Hlev _ _ _ Hpw Hx) as [_ ->].
Qed.

(** C26: the system of record.  The helper answers every request whose numbers
    have at most eighteen characters.  After any list of them its nested book and
    its index by id hold exactly the flat book of the reports (an order rests from
    its last report until it is filled or cancelled); and it answers a pull of
    [count] levels beyond a price with the number of levels and the records of
    resting orders beyond it, best price first and by arrival within a price, none
    twice, that leave out only orders worse than all of [count] levels. *)
Theorem storage_record_exact reqs pull sym side :
  Forall short_request reqs → short_request pull →
  msg_type pull = lit "pull_levels" → get (lit "symbol") pull = Some sym → get (lit "side") pull = Some side →
  ∃ st os levels, store_after reqs = Ok st ∧
    (∀ s d o, rests st s d o ↔ foldl flat_request ∅ reqs !! ro_id o = Some (s, d, o)) ∧
    Handle pull st = Ok (mkMessage (msg_req_id pull) (lit "levels")
      [(lit "symbol", sym); (lit "side", side);
       (lit "orders", concat (order_record <$> os)); (lit "count", to_dec levels)], st) ∧
    pull_ok st sym side (field_number (lit "from_price") pull) (field_number (lit "count") pull) levels os.
Proof.
  intros Hs Hp Ht Hsym Hside. destruct (agrees_session reqs _ _ agrees_new Hs) as (st & Hst & HA).
  destruct (short_field "from_price" pull Hp ltac:(set_solver)) as [from Hf].
  destruct (short_field "count" pull Hp ltac:(set_solver)) as [count Hc].
  rewrite (num_field_Ok _ _ _ Hf), (num_field_Ok _ _ _ Hc).
  eexists st, _, _. split_and!; [done| | |by eapply (deep_orders_pull st)].
  - intros s d o. split; [apply HA|]. intros HF. by destruct (ag_out _ _ HA _ _ _ _ HF).
  - assert (is_type "pull_levels" pull = true) as Ety by (by apply bool_decide_eq_true).
    unfold Handle. other_type Ety. rewrite Ety, Hf, Hc, Hsym, Hside. cbn [mbind res_bind]. by rewrite pull_blob_spec.
Qed.

(** ** Where the trading engine and the record come apart *)

(** The requests of an engine's log, as the helper receives them. *)
Definition requests (l : list Effect) : list HelperMessage :=
  imap (λ i c, call_message (Z.of_nat i + 1) c) (omap (λ f, match f with Asked c => Some c | _ => None end) l).

Definition run_engine (policy : StpPolicy) (ops : list trading_op) : TradingEngine :=
  let te := new_trading (set_book_event_sink true (new_engine policy 0)) 0 in
  match res_foldl run_trading te ops with Ok te => te | Err _ => te end.

(** [trading_engine.cc:281]: an order that trades and rests is reported at rest,
    with what is left of it, before its fill; the record takes the fill off
    again, and drops the order while it is at rest in the book. *)
Example partial_fill_lost_in_storage :
  let te := run_engine kStpNone
    [ TSubmit "ACME" "" (limit 0 0 Sell 100 3 GTC 0) None "u1"; TReply 0 acked;
      TSubmit "ACME" "" (limit 0 0 Buy 100 5 GTC 0) None "u2"; TReply 0 acked ] in
  (o_leaves <$> engine_find "ACME" 2 (t_matching te)) = Some 2 ∧
  match store_after (requests (t_log te)) with Ok st => s_rest_index st !! 2 = None | Err _ => False end.
Proof. vm_compute. done. Qed.

(** A resting order that self-trade prevention cancels is not reported: the
    record keeps it, and a later pull or restart brings it back. *)
Example self_trade_cancel_unreported :
  let te := run_engine kCancelResting
    [ TSubmit "ACME" "alice" (limit 0 0 Sell 100 5 GTC 0) None "u1"; TReply 0 acked; TReply 0 acked;
      TSubmit "ACME" "alice" (limit 0 0 Buy 100 5 GTC 0) None "u2"; TReply 0 acked ] in
  engine_find "ACME" 1 (t_matching te) = None ∧
  match store_after (requests (t_log te)) with Ok st => is_Some (s_rest_index st !! 1) | Err _ => False end.
Proof. vm_compute. split; [done|by eexists]. Qed.

(** The warm-up asks for asks beyond the least 64-bit price; the digits the helper
    accumulates are one more than the type holds. *)
Example warmup_price_overflows sym count st :
  Handle (call_message 1 (PullLevels sym Sell kMin count)) st = Err Overflow.
Proof. reflexivity. Qed.

(** ** A concrete record *)
Definition rest_request (i p l q : Z) : HelperMessage := call_message i (ReportRest "ACME" Sell i p l q).
Definition sample_reports : list HelperMessage :=
  [rest_request 1 101 5 1; rest_request 2 102 4 2; rest_request 3 101 7 3; call_message 4 (ReportCancel "ACME" 2)].
Definition sample_pull_request : HelperMessage := call_message 5 (PullLevels "ACME" Sell 100 1).

(** A test of [short_request]. *)
Definition short_check (req : HelperMessage) : bool :=
  forallb (λ k, match get (lit k) req with Some s => (length s <=? 18)%nat | None => true end) numeric_keys.
Lemma short_checked req : short_check req = true → short_request req.
Proof.
  unfold short_check. rewrite forallb_forall. intros H k s Hk Hs. specialize (H k). rewrite Hs in H.
  by apply Nat.leb_le, H, list_elem_of_In.
Qed.

Lemma storage_record_exact_witness :
  ∃ st os levels, store_after sample_reports = Ok st ∧
    (∀ s d o, rests st s d o ↔ foldl flat_request ∅ sample_reports !! ro_id o = Some (s, d, o)) ∧
    Handle sample_pull_request st = Ok (mkMessage 5 (lit "levels")
      [(lit "symbol", lit "ACME"); (lit "side", lit "sell");
       (lit "orders", concat (order_record <$> os)); (lit "count", to_dec levels)], st) ∧
    pull_ok st (lit "ACME") (lit "sell") 100 1 levels os.
Proof.
  apply (storage_record_exact sample_reports sample_pull_request (lit "ACME") (lit "sell")).
  - repeat apply Forall_cons_2; [apply short_checked; vm_compute; reflexivity..|apply Forall_nil_2].
  - apply short_checked. vm_compute. reflexivity.
  - reflexivity.
  - reflexivity.
  - reflexivity.
Defined.
