(* ===== verification/StoragePipe.v ===== *)
(** * The storage helper behind its pipe

    The storage client's calls, encoded, cut into reads, handled by the helper
    program and its answers read back: the composition of the client's messages,
    the codec, the program's main loop, its handler and the client's reading of
    the answers. *)

From S2P Require Import Prelude.
From S2P Require Import Order.
From S2P Require Import Bytes.
From S2P Require Import Buffer.
From S2P Require Import PipeIO.
From S2P Require Import HelperCodec.
From S2P Require Import TradingEngine.
From S2P Require Import StorageHelper.
From S2P Require Import StorageClient.
From S2P Require Import StorageProps.
From S2P Require Import HelperPrograms.

(** Numbered calls on the structured store, one after the other. *)
Fixpoint store_calls (ics : list (Z * StorageCall)) (st : Store) : list Reply * Store :=
  match ics with
  | [] => ([], st)
  | (id, c) :: ics =>
      let '(r, st) := store_call id c st in
      let '(rs, st) := store_calls ics st in
      (r :: rs, st)
  end.

(** The calls, and the store before each, are within their number types. *)
Fixpoint calls_fit (ics : list (Z * StorageCall)) (st : Store) : Prop :=
  match ics with
  | [] => True
  | (id, c) :: ics => call_fits c ∧ store_fits st ∧ calls_fit ics (store_call id c st).2
  end.

Definition call_messages (ics : list (Z * StorageCall)) : list HelperMessage := (λ ic, call_message ic.1 ic.2) <$> ics.

(** The handler answers a list of calls as the structured store does. *)
Lemma answer_calls ics : ∀ st, calls_fit ics st →
  ∃ ms, answer_all Handle (call_messages ics) st = Ok (ms, (store_calls ics st).2) ∧ msg_req_id <$> ms = ics.*1 ∧
  Forall2 (λ ic x, decode_reply ic.2 true x.1 = Ok x.2) ics (zip ms (store_calls ics st).1) ∧
  length ms = length (store_calls ics st).1.
Proof.
  induction ics as [|[id c] ics IH]; intros st Hf; [by exists []|]. destruct Hf as (Hc & Hst & Hf).
  cbn [call_messages fmap list_fmap answer_all store_calls fst snd].
  destruct (storage_protocol_refines id c st Hc Hst) as (m & -> & H2 & H3). cbn [mbind res_bind].
  destruct (store_call id c st) as [r st1]. cbn [fst snd] in *.
  destruct (IH st1 Hf) as (ms & E & I2 & I3 & I4). fold (call_messages ics). rewrite E. cbn [mbind res_bind].
  destruct (store_calls ics st1) as [rs st2]. cbn [fst snd] in *.
  exists (m :: ms). split_and!; [done|by cbn; rewrite I2, H2|by constructor|by cbn; rewrite I4].
Qed.

(** C27: storage behind its pipe.  Calls whose numbers, and those of the record,
    are 64-bit integers other than the least one (whose digits the parsers
    overflow on; the engine's warm-up of the ask side sends it), without line
    breaks in their texts.  The client's numbered calls, encoded and cut into reads
    in any way, short and interrupted writes included: the storage
    helper answers every call, in order, under its number; its record is what the
    calls make of the structured store; and the client that reads the answers,
    however they are cut, gets for each call what the structured store returns,
    orders pulled back included. *)
Theorem storage_program_refines ics chunks wss :
  Forall text_encodable (call_messages ics) → calls_fit ics new_store → Forall (Forall write_ok) wss →
  Forall (λ s, s ≠ [] ∧ (length s ≤ kHelperChunk)%nat) chunks → mjoin chunks = messages text_codec (call_messages ics) →
  ∃ p answers, storage_main (RData <$> chunks) wss = Ok (0, p) ∧
    pg_state p = (store_calls ics new_store).2 ∧ pg_out p = messages text_codec answers ∧
    msg_req_id <$> answers = ics.*1 ∧
    Forall2 (λ ic x, decode_reply ic.2 true x.1 = Ok x.2) ics (zip answers (store_calls ics new_store).1) ∧
    (Forall text_encodable answers → ∀ cut, cut ≠ [] → mjoin cut = pg_out p →
     ∃ b, receive_all text_codec new_buffer cut = Ok (answers, None, b) ∧ buffer_view b = []).
Proof.
  intros Henc Hfit Hw Hch Hv. change (Forall (encodable text_codec) (call_messages ics)) in Henc.
  destruct (answer_calls ics new_store Hfit) as (answers & Ha & H2 & H3 & _).
  destruct (helper_main_ok text_codec Handle chunks (mkProgram new_buffer new_store [] wss) (call_messages ics) [] _ Ha new_buffer_ok
    Henc Hw Hch) as (dn & todo & rs & p & Hrun & Hms & Hl & Hs & Ho); [by rewrite app_nil_r|].
  assert (todo = []) as ->.
  { destruct todo as [|m todo]; [done|]. exfalso. specialize (Hl m eq_refl). revert Hl. apply Nat.le_ngt.
    change (buffer_view (pg_in (mkProgram new_buffer new_store [] wss)) ++ mjoin chunks) with (mjoin chunks).
    rewrite Hv. by apply (messages_length text_codec dn m todo). }
  rewrite app_nil_r in Hms. subst dn. cbn [pg_state pg_out app] in Ho, Hs. rewrite Ha in Hs. injection Hs as <- Hst.
  exists p, answers. split_and!; try done.
  intros Hans cut Hne Hcut. apply helper_stream_roundtrip; [done|by rewrite Hcut|done].
Qed.

(** ** A concrete run *)

Definition sample_calls : list (Z * StorageCall) :=
  [(1, ReportOrder "ACME" "alice" 1 Sell 101 5); (2, ReportRest "ACME" Sell 1 101 5 1);
   (3, PullLevels "ACME" Sell 100 1); (4, PullPosition "alice" "ACME")].

Definition sample_pipe : bytes := messages text_codec (call_messages sample_calls).

Lemma storage_program_refines_witness :
  ∃ p answers, storage_main (RData <$> [take 50 sample_pipe; drop 50 sample_pipe]) [[WIntr; WCount 2]] = Ok (0, p) ∧
    pg_out p = messages text_codec answers ∧ msg_req_id <$> answers = [1; 2; 3; 4] ∧
    ∃ m, answers !! 2%nat = Some m ∧
      decode_reply (PullLevels "ACME" Sell 100 1) true m = Ok (mkReply true [mkPulled 1 101 5 1] 0 0 0).
Proof.
  destruct (storage_program_refines sample_calls [take 50 sample_pipe; drop 50 sample_pipe] [[WIntr; WCount 2]])
    as (p & answers & H1 & H2 & H3 & H4 & H5 & _).
  - repeat apply Forall_cons_2; try apply Forall_nil_2; (split; try (by vm_compute);
      [apply (bool_decide_unpack _); by vm_compute|]); repeat constructor; apply (bool_decide_unpack _); by vm_compute.
  - cbn [calls_fit sample_calls call_fits]. repeat match goal with |- _ ∧ _ => split end;
      match goal with
      | |- store_fits _ => apply store_checks_fits; vm_compute; reflexivity
      | |- True => exact I
      | |- _ => unfold is_id, is_num; lia
      end.
  - repeat apply Forall_cons_2; try apply Forall_nil_2; simpl; lia || exact I.
  - repeat apply Forall_cons_2; try apply Forall_nil_2; (split; [by vm_compute|apply Nat.leb_le; by vm_compute]).
  - cbn [mjoin list_join]. by rewrite app_nil_r, take_drop.
  - exists p, answers. split_and!; [exact H1|exact H3|exact H4|].
    assert ((store_calls sample_calls new_store).1 !! 2%nat = Some (mkReply true [mkPulled 1 101 5 1] 0 0 0)) as Hr
      by (vm_compute; reflexivity).
    destruct (answers !! 2%nat) as [m|] eqn:Em.
    + exists m. split; [done|]. eapply (Forall2_lookup_lr _ _ _ 2 (3, PullLevels "ACME" Sell 100 1) (m, _) H5); [done|].
      apply lookup_zip_with_Some. exists m, (mkReply true [mkPulled 1 101 5 1] 0 0 0).
      split; [reflexivity|]. split; [exact Em|exact Hr].
    + apply lookup_ge_None in Em. apply (f_equal length) in H4. rewrite length_fmap in H4. simpl in H4. lia.
Defined.
