(* ===== verification/OrderForm.v ===== *)
(** * Order forms ([app/server.cc], anonymous namespace)

    The form-encoded bodies of HTTP requests, WebSocket frames and ingress
    messages, the orders they describe, and the JSON bodies of the replies.
    Numbers are parsed at the width of the code: an intermediate value of [2^63]
    or more is signed overflow. *)

From S2P Require Import Prelude.
From S2P Require Import Order.
From S2P Require Import Book.
From S2P Require Import BookSubmit.
From S2P Require Import MatchingEngine.
From S2P Require Import Bytes.
From S2P Require Import HelperCodec.
From S2P Require Import TradingEngine.

Definition str (b : bytes) : string := String.string_of_list_ascii b.

(** ** Forms *)

(** The non-empty pieces between delimiters; [cur] is the piece being read. *)
Fixpoint split_on (delim : ascii) (cur s : bytes) : list bytes :=
  match s with
  | [] => if decide (cur = []) then [] else [cur]
  | c :: s =>
      if Ascii.eqb c delim then (if decide (cur = []) then [] else [cur]) ++ split_on delim [] s
      else split_on delim (cur ++ [c]) s
  end.
Definition Split (s : bytes) (delim : ascii) : list bytes := split_on delim [] s.

Definition form_pair (pair : bytes) : bytes * bytes :=
  match find_char "=" pair with
  | None => (pair, [])
  | Some eq => (take eq pair, drop (S eq) pair)
  end.
Definition ParseForm (body : bytes) : list (bytes * bytes) := form_pair <$> Split body "&".
Definition FormGet (form : list (bytes * bytes)) (key : bytes) : option bytes := get_field key form.

Definition ParseI64 (s : bytes) : res (option Z) :=
  match s with
  | [] => Ok None
  | c :: rest =>
      let '(sign, s) := if Ascii.eqb c minus then (-1, rest) else (1, s) in
      match s with
      | [] => Ok None
      | _ => v ← i64_digits 0 s; Ok (option_map (Z.mul sign) v)
      end
  end.

Definition ParseSide (s : bytes) : option Side :=
  if bool_decide (s = lit "buy") then Some Buy else if bool_decide (s = lit "sell") then Some Sell else None.
Definition ParseType (s : bytes) : option OrdType :=
  if bool_decide (s = lit "limit") then Some Limit else if bool_decide (s = lit "market") then Some Market else None.
Definition ParseTif (s : bytes) : option Tif :=
  if bool_decide (s = lit "gtc") then Some GTC
  else if bool_decide (s = lit "day") then Some DAY
  else if bool_decide (s = lit "gtd") then Some GTD
  else if bool_decide (s = lit "ioc") then Some IOC
  else if bool_decide (s = lit "fok") then Some FOK
  else if bool_decide (s = lit "gtx") then Some GTX
  else None.
Definition auction_flag (s : bytes) : option OrderFlag :=
  if bool_decide (s = lit "moo") then Some kMoo
  else if bool_decide (s = lit "loo") then Some kLoo
  else if bool_decide (s = lit "moc") then Some kMoc
  else if bool_decide (s = lit "loc") then Some kLoc
  else if bool_decide (s = lit "opg") then Some kOpg
  else None.

(** A field that must hold a positive number. *)
Definition positive_field (f : option bytes) : res (option Z) :=
  match f with
  | None => Ok None
  | Some s =>
      v ← ParseI64 s;
      Ok (match v with Some n => if n <=? 0 then None else Some n | None => None end)
  end.

(** An error message, or the symbol and the order. *)
Definition ParseOrderForm (form : list (bytes * bytes)) : res (string + Symbol * Order) :=
  match FormGet form (lit "symbol") with
  | None | Some [] => Ok (inl "missing symbol"%string)
  | Some symbol =>
  match FormGet form (lit "side") ≫= ParseSide with
  | None => Ok (inl "missing or invalid side"%string)
  | Some side =>
  match FormGet form (lit "type") ≫= ParseType with
  | None => Ok (inl "missing or invalid type"%string)
  | Some type =>
  qty ← positive_field (FormGet form (lit "qty"));
  match qty with
  | None => Ok (inl "missing or invalid qty"%string)
  | Some qty =>
  price ← (match type with
           | Limit => positive_field (FormGet form (lit "price"))
           | Market => Ok (Some 0)
           end);
  match price with
  | None => Ok (inl "missing or invalid price"%string)
  | Some price =>
  match (match FormGet form (lit "tif") with
         | Some s => ParseTif s
         | None => Some (match type with Limit => GTC | Market => IOC end)
         end) with
  | None => Ok (inl "invalid tif"%string)
  | Some tif =>
  match (match FormGet form (lit "auction") with
         | Some s => (λ f, SetFlag 0 f) <$> auction_flag s
         | None => Some 0
         end) with
  | None => Ok (inl "invalid auction (moo|loo|moc|loc|opg)"%string)
  | Some flags =>
      Ok (inr (str symbol, mkOrder 0 0 side type tif flags price qty 0 0 0 0 0 0 0 0 None None None))
  end end end end end end end.

(** ** Replies *)

(** JSON text, an apostrophe standing for the double quote. *)
Definition quote : ascii := ascii_of_nat 34.
Definition json (s : string) : bytes := (λ c, if Ascii.eqb c "'" then quote else c) <$> lit s.
Definition json_bool (b : bool) : bytes := if b then lit "true" else lit "false".

Definition JsonErrorBody (message : bytes) : bytes := json "{'error':'" ++ message ++ json "'}".

(** Elements separated by commas. *)
Fixpoint comma_list (l : list bytes) : bytes :=
  match l with
  | [] => []
  | [x] => x
  | x :: l => x ++ lit "," ++ comma_list l
  end.

Definition trade_json (t : Trade) : bytes :=
  json "{'price':" ++ to_dec (t_price t) ++ json ",'qty':" ++ to_dec (t_qty t) ++
  json ",'maker':" ++ to_dec (t_maker_id t) ++ lit "}".
Definition SubmitBody (order_uuid : bytes) (out : SubmitOutcome) : bytes :=
  json "{'accepted':true,'order':'" ++ order_uuid ++ json "','order_id':" ++ to_dec (out_order_id out) ++
  json ",'filled':" ++ to_dec (out_filled out) ++ json ",'rested':" ++ json_bool (out_rested out) ++
  json ",'trades':[" ++ comma_list (trade_json <$> out_trades out) ++ lit "]}".

Definition ResultBody (r : Result) : bytes :=
  if negb (r_storage_ok r) then JsonErrorBody (lit "storage unavailable")
  else if negb (out_accepted (r_outcome r)) then JsonErrorBody (lit (out_reject_reason (r_outcome r)))
  else SubmitBody (lit (r_order_uuid r)) (r_outcome r).

(** The quotes refresh a cached best price that no result depends on; the
    refreshed engine is not kept. *)
Definition BookTopFields (m : MatchingEngine) (sym : Symbol) : bytes :=
  json "'symbol':'" ++ lit sym ++ json "'," ++
  (match (engine_best_bid sym m).1 with
   | Some bid => json "'bid':" ++ to_dec bid ++ json ",'bid_qty':" ++ to_dec (engine_total_qty_at sym Buy bid m)
   | None => json "'bid':null,'bid_qty':0"
   end) ++ lit "," ++
  (match (engine_best_ask sym m).1 with
   | Some ask => json "'ask':" ++ to_dec ask ++ json ",'ask_qty':" ++ to_dec (engine_total_qty_at sym Sell ask m)
   | None => json "'ask':null,'ask_qty':0"
   end).

(** ** What a form can contain *)

Lemma i64_digits_bounds s : ∀ v n, 0 ≤ v < 2 ^ 63 → i64_digits v s = Ok (Some n) → v ≤ n < 2 ^ 63.
Proof.
  induction s as [|c s IH]; intros v n Hv; simpl; [intros [= <-]; lia|].
  destruct (isdigit c) eqn:Ec; simpl; [|done]. unfold isdigit in Ec. bool_split. unfold digit_val.
  case_if; [|done]. intros Hn%IH; lia.
Qed.

Lemma positive_field_bounds f n : positive_field f = Ok (Some n) → 0 < n < 2 ^ 63.
Proof.
  unfold positive_field. destruct f as [s|]; [|done]. unfold ParseI64. destruct s as [|c s]; [done|].
  set (x := if Ascii.eqb c minus then (-1, s) else (1, c :: s)).
  assert (x.1 = 1 ∨ x.1 = -1) as Hsign by (unfold x; destruct (Ascii.eqb c minus); auto).
  destruct x as [sign ds]. simpl in Hsign. destruct ds as [|d ds]; [done|].
  destruct (i64_digits 0 (d :: ds)) as [[v|]|] eqn:E; [|done|done]. cbn [mbind res_bind option_map].
  apply i64_digits_bounds in E; [|lia]. case_if; [done|]. intros [= <-]. destruct Hsign; subst; lia.
Qed.

Lemma parsed_order form sym o :
  ParseOrderForm form = Ok (inr (sym, o)) →
  submittable o ∧ sym ≠ ""%string ∧ o_id o = 0 ∧ o_client_id o = 0 ∧
  0 < o_qty o < 2 ^ 63 ∧ (if decide (o_type o = Market) then o_price o = 0 else 0 < o_price o < 2 ^ 63) ∧
  o_leaves o = 0 ∧ o_filled o = 0 ∧ o_trigger o = None ∧ o_peg o = None ∧ o_link o = None ∧
  (o_flags o = 0 ∨ ∃ f, o_flags o = flag_bit f ∧ f ∈ [kMoo; kLoo; kMoc; kLoc; kOpg]).
Proof.
  unfold ParseOrderForm. destruct (FormGet form (lit "symbol")) as [[|c s]|]; [done| |done].
  destruct (_ ≫= ParseSide) as [side|]; [|done]. destruct (_ ≫= ParseType) as [ty|]; [|done].
  destruct (positive_field (FormGet form (lit "qty"))) as [[q|]|] eqn:Eq; [|done|done]. cbn [mbind res_bind].
  apply positive_field_bounds in Eq.
  destruct (match ty with Limit => positive_field _ | Market => _ end) as [[p|]|] eqn:Ep; [|done|done].
  cbn [mbind res_bind]. destruct (match FormGet form (lit "tif") with Some _ => _ | None => _ end) as [tif|]; [|done].
  destruct (match FormGet form (lit "auction") with Some _ => _ | None => _ end) as [flags|] eqn:Ef; [|done].
  intros [= <- <-].
  assert (flags = 0 ∨ ∃ f, flags = flag_bit f ∧ f ∈ [kMoo; kLoo; kMoc; kLoc; kOpg]) as Hf.
  { destruct (FormGet form (lit "auction")) as [a|]; [|by injection Ef as <-; left]. right.
    unfold auction_flag in Ef. repeat case_bool_decide; simplify_eq/=; eexists; (split; [done|set_solver]). }
  assert (submittable (mkOrder 0 0 side ty tif flags p q 0 0 0 0 0 0 0 0 None None None)) as Hs.
  { unfold submittable. simpl. destruct Hf as [->|(f & -> & Hin)]; [done|].
    repeat (apply elem_of_cons in Hin as [->|Hin]; [done|]). by apply elem_of_nil in Hin. }
  split_and!; try done; simpl; [lia|lia|].
  destruct ty; [|by eapply positive_field_bounds]. by injection Ep as <-.
Qed.

(** C25: what an order form can ask for.  A form that parses gives a non-empty
    symbol and an order any caller may submit ([submittable]): the engine assigns
    its id, the quantity is a positive 64-bit number and so is the price (0 for a
    market order), it carries no trigger, peg or link, no hidden, iceberg or other
    flag than one auction designation. *)
Theorem order_form_sound form sym o :
  ParseOrderForm form = Ok (inr (sym, o)) →
  submittable o ∧ sym ≠ ""%string ∧ o_id o = 0 ∧ o_client_id o = 0 ∧
  0 < o_qty o < 2 ^ 63 ∧ (if decide (o_type o = Market) then o_price o = 0 else 0 < o_price o < 2 ^ 63) ∧
  o_leaves o = 0 ∧ o_filled o = 0 ∧ o_trigger o = None ∧ o_peg o = None ∧ o_link o = None ∧
  (o_flags o = 0 ∨ ∃ f, o_flags o = flag_bit f ∧ f ∈ [kMoo; kLoo; kMoc; kLoc; kOpg]).
Proof. apply parsed_order. Qed.

Definition sample_form : bytes := lit "symbol=BTC&side=buy&type=limit&qty=5&&price=100&tif=fok".

Lemma order_form_sound_witness :
  match ParseOrderForm (ParseForm sample_form) with
  | Ok (inr (sym, o)) => sym = "BTC"%string ∧ submittable o ∧ o_qty o = 5 ∧ o_price o = 100 ∧ o_tif o = FOK
  | _ => False
  end.
Proof.
  assert (ParseOrderForm (ParseForm sample_form) =
          Ok (inr ("BTC"%string, mkOrder 0 0 Buy Limit FOK 0 100 5 0 0 0 0 0 0 0 0 None None None))) as E by (by vm_compute).
  rewrite E. destruct (order_form_sound _ _ _ E) as [Hs _]. by split_and!.
Defined.

(** ** Numbers that do not fit

    [ParseI64] multiplies and adds without a test: a quantity or price of 2^63
    or more is signed overflow. *)
Lemma quantity_overflows :
  ParseOrderForm (ParseForm (lit "symbol=A&side=buy&type=market&qty=9223372036854775808")) = Err Overflow.
Proof. by vm_compute. Qed.

(** A form whose numbers have at most eighteen digits always parses or is
    refused. *)
Lemma positive_field_short f : (∀ s, f = Some s → (length s ≤ 18)%nat) → ∃ r, positive_field f = Ok r.
Proof.
  intros Hf. unfold positive_field. destruct f as [s|]; [|by eexists]. specialize (Hf s eq_refl).
  unfold ParseI64. destruct s as [|c s]; [by eexists|].
  set (x := if Ascii.eqb c minus then (-1, s) else (1, c :: s)).
  assert (length x.2 ≤ 18)%nat as Hlen by (unfold x; simpl in Hf; destruct (Ascii.eqb c minus); simpl; lia).
  destruct x as [sign ds]. simpl in Hlen. destruct ds as [|d ds]; [by eexists|].
  destruct (i64_digits_short (d :: ds) 0 0) as [r ->]; [done|simpl in *; lia|]. by eexists.
Qed.

Definition short_numbers (form : list (bytes * bytes)) : Prop :=
  ∀ k s, k ∈ [lit "qty"; lit "price"] → FormGet form k = Some s → (length s ≤ 18)%nat.

Lemma short_form_parses form : short_numbers form → ∃ r, ParseOrderForm form = Ok r.
Proof.
  intros Hf. unfold ParseOrderForm.
  destruct (positive_field_short (FormGet form (lit "qty"))) as [q Hq]; [intros s; apply Hf; set_solver|].
  destruct (positive_field_short (FormGet form (lit "price"))) as [p Hp]; [intros s; apply Hf; set_solver|].
  destruct (FormGet form (lit "symbol")) as [[|c s]|]; [by eexists| |by eexists].
  destruct (_ ≫= ParseSide); [|by eexists]. destruct (_ ≫= ParseType) as [ty|]; [|by eexists].
  rewrite Hq, Hp. cbn [mbind res_bind]. destruct q; [|by eexists].
  destruct ty; cbn [mbind res_bind]; [|destruct p; [|by eexists]]; repeat case_match; by eexists.
Qed.
