(* ===== verification/AppLogs.v ===== *)
(** * What a call adds to the logs of the trading engine and of authentication

    The server runs, after each call, the callbacks recorded in the new entries
    of a log: calls only append to the logs, and the appended entries are, in
    order, the callbacks that were due. *)

From S2P Require Import Prelude.
From S2P Require Import Order.
From S2P Require Import Book.
From S2P Require Import MatchingEngine.
From S2P Require Import BookEmit.
From S2P Require Import TradingEngine.
From S2P Require Import TradingFifo.
From S2P Require Import TradingIds.
From S2P Require Import AuthClient.

(** ** The trading engine *)

Definition extends (te te' : TradingEngine) : Prop := t_log te `prefix_of` t_log te'.
#[export] Instance extends_preorder : PreOrder extends.
Proof. split; [by intros te; unfold extends|intros t1 t2 t3; unfold extends; apply transitivity]. Qed.

Lemma extends_appends te te' : appends te te' → extends te te'.
Proof. intros [(l & E & _) _]. by exists l. Qed.
Lemma extends_same te te' : same_queue te te' → extends te te'.
Proof. intros H. by apply extends_appends, appends_same. Qed.

Lemma extends_run op te te' : run_trading te op = Ok te' → extends te te'.
Proof.
  destruct op as [sym owner o cb uuid|uuid req|sym op| | |k r|]; cbn [run_trading].
  - intros ([u t1] & (l1 & l2 & E & _)%submit_reports & [= <-])%bind_Ok. by eexists.
  - intros ([[x y] t1] & H1%same_queue_cancel & [= <-])%bind_Ok. by apply extends_same.
  - intros ([ts t1] & H1%same_queue_run_auction & [= <-])%bind_Ok. by apply extends_same.
  - intros [= <-]. by eexists [_].
  - intros H%(appends_ask _ appends_drain); [by apply extends_appends|done].
  - unfold storage_replies. case_match; [|by intros [= <-]].
    intros Hd%(appends_answer _ appends_drain). exact (extends_appends _ _ Hd).
  - intros [= <-]. by exists []; rewrite app_nil_r.
Qed.

(** The callbacks a log says have run. *)
Definition callbacks (l : list Effect) : list (option nat) := (λ x, x.2.1) <$> delivered l.

Lemma callbacks_app l l' : callbacks (l ++ l') = callbacks l ++ callbacks l'.
Proof. unfold callbacks. by rewrite delivered_app, fmap_app. Qed.

(** The [k]-th submission has callback [k], so the callbacks run in order. *)
Lemma callbacks_in_order m mem ops te n :
  res_foldl run_trading (new_trading m mem) ops = Ok te →
  sb_cb <$> submissions ops = Some <$> seq 0 n →
  let d := length (callbacks (t_log te)) in
  callbacks (t_log te) = Some <$> seq 0 d ∧ (d ≤ n)%nat ∧ (n = size (t_pending te) + d)%nat.
Proof.
  intros Hrun Hcb. pose proof (QInv_session _ _ _ _ Hrun) as HQ.
  pose proof (QInv_size _ _ _ HQ) as Hsz. pose proof (q_place _ _ _ HQ) as Hp.
  assert (length (submissions ops) = n) as Hn by (by rewrite <-(length_fmap sb_cb), Hcb, length_fmap, length_seq).
  set (k := Z.to_nat (t_next_place_seq te - 1)). assert (k ≤ n)%nat as Hk by lia.
  assert (callbacks (t_log te) = Some <$> seq 0 k) as Hc.
  { unfold callbacks. rewrite (q_done _ _ _ HQ), fmap_imap. fold k.
    transitivity (take k (sb_cb <$> submissions ops)).
    - rewrite <-fmap_take. generalize (take k (submissions ops)). clear. intros l.
      apply list_eq. intros i. rewrite list_lookup_imap, list_lookup_fmap. by destruct (l !! i).
    - rewrite Hcb, <-fmap_take, take_seq. f_equal. f_equal. lia. }
  simpl. rewrite Hc, length_fmap, length_seq. split_and!; [done|done|]. lia.
Qed.

(** ** The authentication client *)
Section Auth.
Context (PC NC : CredentialCache) (cfg : AuthConfig).
Implicit Types a : AuthClient PC NC.

(** What an event leaves open or answers was open before or is new. *)
Lemma auth_step_answers e a a' :
  auth_core PC NC cfg [] a → busy PC NC cfg a → auth_step PC NC cfg a e = Ok a' →
  ∃ l, ac_log a' = ac_log a ++ l ∧ calls l = event_calls e ∧
    answers l ++ waiting (ac_waiters a') ≡ₚ waiting (ac_waiters a) ++ event_calls e ∧
    auth_core PC NC cfg [] a' ∧ busy PC NC cfg a'.
Proof.
  intros Hc Hb Hrun. destruct (auth_step_adds _ _ _ _ _ _ Hrun) as (l & El & Ec & _).
  pose proof (auth_step_ok PC NC cfg e a Hc Hb) as H. rewrite Hrun in H. destruct H as [Hc' Hb'].
  exists l. split_and!; [done|done| |done|done]. pose proof (au_once _ _ _ _ _ Hc) as H1. pose proof (au_once _ _ _ _ _ Hc') as H2.
  rewrite El in H2. unfold calls, answers in *. rewrite !omap_app, Ec, H1 in H2. rewrite <-!app_assoc in H2.
  by apply Permutation_app_inv_l in H2.
Qed.
End Auth.
