(* ===== verification/AppServer.v ===== *)
(** * The server application ([app/server.cc])

    Requests from HTTP clients, WebSocket clients and the ingress helper are
    authenticated, turned into orders and cancels for the trading engine, and
    answered when the engine has a result; subscribers get market data.

    The callbacks passed to the trading engine and to the authentication client
    are numbers: positions in [av_submits] and [av_auths], which hold what the
    callbacks capture.  After a call the new entries of the two logs are the
    callbacks that ran, in order.  A responder, the connection of a frame and the
    reply of an ingress message are named by an [Origin].  The storage backlog
    ([processed_pending]), the clock, generated UUIDs and the WebSocket
    connections whose socket fails on the next write ([bad]) are inputs.
    [av_ops] records the engine's calls. *)

From S2P Require Import Prelude.
From S2P Require Import Order.
From S2P Require Import Book.
From S2P Require Import MatchingEngine.
From S2P Require Import Bytes.
From S2P Require Import HelperCodec.
From S2P Require Import HttpParser.
From S2P Require Import HttpMessage.
From S2P Require Import TradingEngine.
From S2P Require Import TradingFifo.
From S2P Require Import Uuid.
From S2P Require Import AuthClient.
From S2P Require Import OrderForm.

(** ** Data *)

Record AppConfig := mkAppConfig {
  ap_header_enabled : bool;
  ap_header_name : bytes;
  ap_helper_enabled : bool;
  ap_credential_header : bytes;
  ap_outbox_max : nat;
  ap_metrics_enabled : bool;
  ap_metrics_path : bytes;
}.

Record Metrics := mkMetrics {
  mt_orders_received : Z;
  mt_orders_accepted : Z;
  mt_orders_rejected : Z;
  mt_orders_backpressure : Z;
  mt_cancels : Z;
  mt_cancels_failed : Z;
  mt_auctions : Z;
  mt_trades : Z;
  mt_ws_messages : Z;
}.
Definition no_metrics : Metrics := mkMetrics 0 0 0 0 0 0 0 0 0.

Inductive Metric :=
  | Received | Accepted | Rejected | Backpressure | Cancels | CancelsFailed | Auctions | Trades | WsMessages.
Definition bump (k : Metric) (n : Z) (m : Metrics) : Metrics :=
  let add k' v := match k, k' with
    | Received, Received | Accepted, Accepted | Rejected, Rejected | Backpressure, Backpressure
    | Cancels, Cancels | CancelsFailed, CancelsFailed | Auctions, Auctions | Trades, Trades
    | WsMessages, WsMessages => v + n
    | _, _ => v
    end in
  mkMetrics (add Received (mt_orders_received m)) (add Accepted (mt_orders_accepted m))
    (add Rejected (mt_orders_rejected m)) (add Backpressure (mt_orders_backpressure m))
    (add Cancels (mt_cancels m)) (add CancelsFailed (mt_cancels_failed m)) (add Auctions (mt_auctions m))
    (add Trades (mt_trades m)) (add WsMessages (mt_ws_messages m)).

(** Who waits for an answer. *)
Inductive Origin := FromHttp (r : nat) | FromWs (fd id : Z) | FromIngress (k : nat).
Inductive Payload := PHttp (resp : HttpResponse) | PText (text : bytes) | PMsg (m : HelperMessage).
Inductive Output :=
  | Answer (o : Origin) (p : Payload)
  | Publish (fd id : Z) (text : bytes).

(** What the callback of a submission captures. *)
Record SubmitCtx := mkSubmit { sc_origin : Origin; sc_symbol : Symbol }.

(** What the callback of an authentication does next, with the identity header
    if that mechanism is on. *)
Inductive AuthWork :=
  | WorkSubmit (r : nat) (sym : Symbol) (o : Order)
  | WorkCancel (r : nat) (handle : string)
  | WorkOpen (id : Z).
Record AuthCtx := mkAuthCtx { ax_work : AuthWork; ax_header : option string }.

(** ** Bodies *)

Definition JsonError (status : Z) (message : bytes) (r : HttpResponse) : HttpResponse :=
  set_body (JsonErrorBody message)
    (set_header (lit "Content-Type") (lit "application/json") (set_status status r)).

Definition json_response (status : Z) (body : bytes) : HttpResponse :=
  set_body body (set_status status
    (set_header (lit "Content-Type") (lit "application/json") default_response)).

Definition print_json (t : Trade) : bytes :=
  json "{'price':" ++ to_dec (t_price t) ++ json ",'qty':" ++ to_dec (t_qty t) ++ lit "}".
Definition market_data (m : MatchingEngine) (sym : Symbol) (trades : list Trade) : bytes :=
  json "{'type':'md'," ++ BookTopFields m sym ++ json ",'trades':[" ++ comma_list (print_json <$> trades) ++ lit "]}".

Definition cross_json (t : Trade) : bytes :=
  json "{'price':" ++ to_dec (t_price t) ++ json ",'qty':" ++ to_dec (t_qty t) ++
  json ",'taker':" ++ to_dec (t_taker_id t) ++ json ",'maker':" ++ to_dec (t_maker_id t) ++ lit "}".
Definition auction_body (phase : bytes) (sym : Symbol) (trades : list Trade) : bytes :=
  json "{'phase':'" ++ phase ++ json "','symbol':'" ++ lit sym ++ json "','trades':[" ++
  comma_list (cross_json <$> trades) ++ lit "]}".

(** ** The server *)
Section Server.
Context {PC NC : CredentialCache} (acfg : AuthConfig) (cfg : AppConfig).
(** The [n]-th UUID the engine generates. *)
Context (uuid_of : nat → string).

Record AppServer := mkApp {
  av_engine : TradingEngine;
  av_auth : AuthClient PC NC;
  av_metrics : Metrics;
  av_subscribers : gmap Symbol (gmap Z Z);
  av_conn_owner : gmap Z string;
  av_conn_perframe : gset Z;
  av_submits : list SubmitCtx;
  av_auths : list AuthCtx;
  av_out : list Output;
  av_ops : list trading_op;
}.

Definition new_app (m : MatchingEngine) (mem : nat) : AppServer :=
  mkApp (new_trading m mem) (Create PC NC acfg) no_metrics ∅ ∅ ∅ [] [] [] [].

(** Field assignment. *)
Definition set_engine te ops (s : AppServer) : AppServer :=
  mkApp te (av_auth s) (av_metrics s) (av_subscribers s) (av_conn_owner s) (av_conn_perframe s) (av_submits s)
    (av_auths s) (av_out s) (av_ops s ++ ops).
Definition set_auth a (s : AppServer) : AppServer :=
  mkApp (av_engine s) a (av_metrics s) (av_subscribers s) (av_conn_owner s) (av_conn_perframe s) (av_submits s)
    (av_auths s) (av_out s) (av_ops s).
Definition count (k : Metric) (n : Z) (s : AppServer) : AppServer :=
  mkApp (av_engine s) (av_auth s) (bump k n (av_metrics s)) (av_subscribers s) (av_conn_owner s) (av_conn_perframe s)
    (av_submits s) (av_auths s) (av_out s) (av_ops s).
Definition set_conns subs owner perframe (s : AppServer) : AppServer :=
  mkApp (av_engine s) (av_auth s) (av_metrics s) subs owner perframe (av_submits s) (av_auths s) (av_out s)
    (av_ops s).
Definition keep_submit ctx (s : AppServer) : AppServer :=
  mkApp (av_engine s) (av_auth s) (av_metrics s) (av_subscribers s) (av_conn_owner s) (av_conn_perframe s)
    (av_submits s ++ [ctx]) (av_auths s) (av_out s) (av_ops s).
Definition keep_auth ctx (s : AppServer) : AppServer :=
  mkApp (av_engine s) (av_auth s) (av_metrics s) (av_subscribers s) (av_conn_owner s) (av_conn_perframe s)
    (av_submits s) (av_auths s ++ [ctx]) (av_out s) (av_ops s).
Definition output (x : Output) (s : AppServer) : AppServer :=
  mkApp (av_engine s) (av_auth s) (av_metrics s) (av_subscribers s) (av_conn_owner s) (av_conn_perframe s)
    (av_submits s) (av_auths s) (av_out s ++ [x]) (av_ops s).

Definition respond (r : nat) (resp : HttpResponse) : AppServer → AppServer := output (Answer (FromHttp r) (PHttp resp)).

(** ** WebSocket clients *)

(** The close callback given to the WebSocket server. *)
Definition ws_closed (id : Z) (s : AppServer) : AppServer :=
  set_conns (delete id <$> av_subscribers s) (delete id (av_conn_owner s)) (av_conn_perframe s ∖ {[id]}) s.

(** A text to a connection, which closes if its socket fails. *)
Definition send_text (bad : gset Z) (x : Output) (id : Z) (s : AppServer) : AppServer :=
  let s := output x s in
  if decide (id ∈ bad) then ws_closed id s else s.
Definition answer_ws (bad : gset Z) (fd id : Z) (text : bytes) (s : AppServer) : AppServer :=
  send_text bad (Answer (FromWs fd id) (PText text)) id s.

(** The loop over the subscribers of a symbol.  When a send closes the
    connection, the close callback erases the element the loop stands on. *)
Fixpoint publish_all (bad : gset Z) (msg : bytes) (conns : list (Z * Z)) (s : AppServer) : res AppServer :=
  match conns with
  | [] => Ok s
  | (id, fd) :: conns =>
      let s := send_text bad (Publish fd id msg) id s in
      if decide (id ∈ bad) then Err Dangling else publish_all bad msg conns s
  end.

Definition broadcast_market_data (bad : gset Z) (m : MatchingEngine) (sym : Symbol) (trades : list Trade)
    (s : AppServer) : res AppServer :=
  match av_subscribers s !! sym with
  | None => Ok s
  | Some conns =>
      if decide (conns = ∅) then Ok s else publish_all bad (market_data m sym trades) (map_to_list conns) s
  end.

(** ** Results of submissions *)

Definition placed (r : Result) : bool := r_storage_ok r && out_accepted (r_outcome r).

Definition count_result (r : Result) (s : AppServer) : AppServer :=
  if placed r then count Trades (Z.of_nat (length (out_trades (r_outcome r)))) (count Accepted 1 s)
  else count Rejected 1 s.

Definition result_response (r : Result) : HttpResponse :=
  json_response (if negb (r_storage_ok r) then 503 else if negb (out_accepted (r_outcome r)) then 409 else 200)
    (ResultBody r).

Definition result_message (ok : bool) (fields : list (bytes * bytes)) : HelperMessage :=
  mkMessage 0 (lit "result") ((lit "ok", json_bool ok) :: fields).

(** The callback of a submission. *)
Definition on_result (bad : gset Z) (ctx : SubmitCtx) (r : Result) (m : MatchingEngine) (s : AppServer)
    : res AppServer :=
  let s := count_result r s in
  let s :=
    match sc_origin ctx with
    | FromHttp h => respond h (result_response r) s
    | FromWs fd id => answer_ws bad fd id (ResultBody r) s
    | FromIngress k =>
        output (Answer (FromIngress k) (PMsg (result_message (placed r) [(lit "body", ResultBody r)]))) s
    end in
  if placed r then broadcast_market_data bad m (sc_symbol ctx) (out_trades (r_outcome r)) s else Ok s.

Definition deliver_one (bad : gset Z) (s : AppServer) (f : Effect) : res AppServer :=
  match f with
  | Delivered _ (Some cb) r m =>
      match av_submits s !! cb with Some ctx => on_result bad ctx r m s | None => Ok s end
  | _ => Ok s
  end.
(** The callbacks an engine call ran: the entries of its log from [n] on. *)
Definition deliver_results (bad : gset Z) (n : nat) (s : AppServer) : res AppServer :=
  res_foldl (deliver_one bad) s (drop n (t_log (av_engine s))).

Definition submit_order (bad : gset Z) (origin : Origin) (sym : Symbol) (owner : string) (o : Order) (s : AppServer)
    : res AppServer :=
  let n := length (av_submits s) in
  let s := keep_submit (mkSubmit origin sym) s in
  let before := length (t_log (av_engine s)) in
  '(_, te) ← trading_submit sym owner o (Some n) (uuid_of n) (av_engine s);
  deliver_results bad before (set_engine te [TSubmit sym owner o (Some n) (uuid_of n)] s).

(** ** Cancels *)

Definition cancel_order (bad : gset Z) (handle owner : string) (s : AppServer) : res (CancelResult * AppServer) :=
  '(r, sym, te) ← trading_cancel handle owner (av_engine s);
  let s := set_engine te [TCancel handle owner] s in
  match r, sym with
  | kOk, Some sym => s ← broadcast_market_data bad (t_matching te) sym [] s; Ok (kOk, s)
  | _, _ => Ok (r, count CancelsFailed 1 s)
  end.

Definition cancel_response (r : CancelResult) : HttpResponse :=
  match r with
  | kOk => json_response 200 (json "{'cancelled':true}")
  | kNotFound =>
      JsonError 404 (lit "unknown order") (set_header (lit "Content-Type") (lit "application/json") default_response)
  | kForbidden =>
      JsonError 403 (lit "not the order owner")
        (set_header (lit "Content-Type") (lit "application/json") default_response)
  end.

(** ** Authentication *)

(** The callback passed to [authenticate]. *)
Definition authenticated (bad : gset Z) (w : AuthWork) (ok : bool) (status : Z) (owner : string) (err : bytes)
    (s : AppServer) : res AppServer :=
  match w with
  | WorkSubmit r sym o =>
      if negb ok then Ok (respond r (JsonError status err default_response) (count Rejected 1 s))
      else submit_order bad (FromHttp r) sym owner o s
  | WorkCancel r handle =>
      if negb ok then
        Ok (respond r (JsonError status err
                         (set_header (lit "Content-Type") (lit "application/json") default_response)) s)
      else
        '(c, s) ← cancel_order bad handle owner (count Cancels 1 s);
        Ok (respond r (cancel_response c) s)
  | WorkOpen id =>
      Ok (if ok then set_conns (av_subscribers s) (<[id := owner]> (av_conn_owner s)) (av_conn_perframe s) s else s)
  end.

(** The callback passed to [resolve]. *)
Definition resolved (bad : gset Z) (x : AuthCtx) (ok : bool) (user : string) (s : AppServer) : res AppServer :=
  if negb ok then authenticated bad (ax_work x) false 403 "" (lit "authentication failed") s
  else if match ax_header x with Some h => negb (String.eqb h user) | None => false end
       then authenticated bad (ax_work x) false 403 "" (lit "identity mismatch") s
  else authenticated bad (ax_work x) true 200 user [] s.

Definition resolve_one (bad : gset Z) (s : AppServer) (f : AuthEffect) : res AppServer :=
  match f with
  | Answered cb _ ok user _ =>
      match av_auths s !! cb with Some x => resolved bad x ok user s | None => Ok s end
  | _ => Ok s
  end.
Definition deliver_answers (bad : gset Z) (n : nat) (s : AppServer) : res AppServer :=
  res_foldl (resolve_one bad) s (drop n (ac_log (av_auth s))).

Definition authenticate (bad : gset Z) (t1 t2 : Z) (req : HttpRequest) (w : AuthWork) (s : AppServer)
    : res AppServer :=
  if negb (ap_header_enabled cfg) && negb (ap_helper_enabled cfg) then authenticated bad w true 200 "" [] s
  else
    match (if ap_header_enabled cfg then
             match find_header (ap_header_name cfg) (q_headers req) with
             | Some h => if IsValidUuidString h then Some (Some (str h)) else None
             | None => None
             end
           else Some None) with
    | None => authenticated bad w false 401 "" (lit "missing or invalid identity header") s
    | Some header =>
        if negb (ap_helper_enabled cfg) then authenticated bad w true 200 (default ""%string header) [] s
        else
          match find_header (ap_credential_header cfg) (q_headers req) with
          | None | Some [] => authenticated bad w false 401 "" (lit "missing credential") s
          | Some cred =>
              let n := length (av_auths s) in
              let s := keep_auth (mkAuthCtx w header) s in
              let before := length (ac_log (av_auth s)) in
              a ← resolve PC NC acfg t1 t2 (str cred) n (av_auth s);
              deliver_answers bad before (set_auth a s)
          end
    end.

(** ** Handlers *)

(** The storage client's backlog is full. *)
Definition overloaded (backlog : nat) : bool := (0 <? ap_outbox_max cfg)%nat && (ap_outbox_max cfg <=? backlog)%nat.
Definition backpressure_text : bytes := lit "storage backpressure: retry".

Definition handle_submit (bad : gset Z) (t1 t2 : Z) (backlog : nat) (req : HttpRequest) (r : nat) (s : AppServer)
    : res AppServer :=
  let s := count Received 1 s in
  if overloaded backlog then
    Ok (respond r (JsonError 503 backpressure_text (set_header (lit "Retry-After") (lit "1") default_response))
          (count Backpressure 1 s))
  else
    form ← ParseOrderForm (ParseForm (q_body req));
    match form with
    | inl err => Ok (respond r (JsonError 400 (lit err) default_response) (count Rejected 1 s))
    | inr (sym, o) => authenticate bad t1 t2 req (WorkSubmit r sym o) s
    end.

Definition handle_cancel (bad : gset Z) (t1 t2 : Z) (req : HttpRequest) (r : nat) (s : AppServer) : res AppServer :=
  match FormGet (ParseForm (q_body req)) (lit "order") with
  | Some handle =>
      if IsValidUuidString handle then authenticate bad t1 t2 req (WorkCancel r (str handle)) s
      else Ok (respond r (JsonError 400 (lit "missing or invalid order") default_response) s)
  | None => Ok (respond r (JsonError 400 (lit "missing or invalid order") default_response) s)
  end.

Definition handle_book (req : HttpRequest) (s : AppServer) : HttpResponse :=
  match FormGet (ParseForm (q_query req)) (lit "symbol") with
  | None | Some [] => JsonError 400 (lit "missing symbol") default_response
  | Some sym =>
      set_body (lit "{" ++ BookTopFields (t_matching (av_engine s)) (str sym) ++ lit "}")
        (set_header (lit "Content-Type") (lit "application/json") (set_status 200 default_response))
  end.

Definition handle_auction (bad : gset Z) (req : HttpRequest) (s : AppServer) : res (HttpResponse * AppServer) :=
  let form := ParseForm (q_body req) in
  match FormGet form (lit "symbol") with
  | None | Some [] => Ok (JsonError 400 (lit "missing symbol") default_response, s)
  | Some sym =>
      match FormGet form (lit "phase") with
      | Some phase =>
          if bool_decide (phase = lit "open") || bool_decide (phase = lit "close") then
            let opening := bool_decide (phase = lit "open") in
            '(trades, te) ← run_auction (str sym) opening (av_engine s);
            let s := set_engine te [TAuction (str sym) opening] s in
            let s := count Trades (Z.of_nat (length trades)) (count Auctions 1 s) in
            s ← broadcast_market_data bad (t_matching te) (str sym) trades s;
            Ok (set_body (auction_body phase (str sym) trades)
                  (set_header (lit "Content-Type") (lit "application/json") (set_status 200 default_response)), s)
          else Ok (JsonError 400 (lit "phase must be 'open' or 'close'") default_response, s)
      | None => Ok (JsonError 400 (lit "phase must be 'open' or 'close'") default_response, s)
      end
  end.

(** The Prometheus text. *)
Definition metric_line (name type help : string) (value : Z) : bytes :=
  lit "# HELP " ++ lit name ++ lit " " ++ lit help ++ [ascii_of_nat 10] ++
  lit "# TYPE " ++ lit name ++ lit " " ++ lit type ++ [ascii_of_nat 10] ++
  lit name ++ lit " " ++ to_dec value ++ [ascii_of_nat 10].

(** [dropped]: the feed publisher's count. *)
Definition metrics_body (backlog : nat) (dropped : Z) (s : AppServer) : bytes :=
  let m := av_metrics s in
  metric_line "codicis_orders_received_total" "counter" "Orders received over REST and WebSocket." (mt_orders_received m) ++
  metric_line "codicis_orders_accepted_total" "counter" "Orders accepted (matched or rested)." (mt_orders_accepted m) ++
  metric_line "codicis_orders_rejected_total" "counter" "Orders rejected (parse, auth, or engine)." (mt_orders_rejected m) ++
  metric_line "codicis_orders_backpressure_total" "counter" "Orders shed with 503 due to a full storage outbox."
    (mt_orders_backpressure m) ++
  metric_line "codicis_cancels_total" "counter" "Cancel requests received." (mt_cancels m) ++
  metric_line "codicis_cancels_failed_total" "counter" "Cancels rejected (unknown order or not the owner)."
    (mt_cancels_failed m) ++
  metric_line "codicis_auctions_total" "counter" "Session auction crosses run." (mt_auctions m) ++
  metric_line "codicis_trades_total" "counter" "Trade prints produced." (mt_trades m) ++
  metric_line "codicis_ws_messages_total" "counter" "WebSocket frames handled." (mt_ws_messages m) ++
  metric_line "codicis_storage_processed_pending" "gauge" "Un-committed reports queued for the storage helper."
    (Z.of_nat backlog) ++
  metric_line "codicis_storage_report_failures_total" "counter" "Storage report failures surfaced by the engine."
    (t_report_failures (av_engine s)) ++
  metric_line "codicis_pending_placements" "gauge" "Orders staged awaiting a storage ack before placement."
    (Z.of_nat (pending_placements (av_engine s))) ++
  metric_line "codicis_symbols" "gauge" "Instruments with a live order book."
    (Z.of_nat (symbol_count (t_matching (av_engine s)))) ++
  metric_line "codicis_md_subscribers" "gauge" "Active market-data WebSocket subscriptions."
    (zsum (λ x : Symbol * gmap Z Z, Z.of_nat (size x.2)) (map_to_list (av_subscribers s))) ++
  metric_line "codicis_feed_events_dropped_total" "counter"
    "Book-events dropped due to a full feed-helper buffer (best-effort)." dropped.

Definition handle_metrics (backlog : nat) (dropped : Z) (s : AppServer) : HttpResponse :=
  set_body (metrics_body backlog dropped s)
    (set_header (lit "Content-Type") (lit "text/plain; version=0.0.4; charset=utf-8") (set_status 200 default_response)).

Definition subscribe (sym : Symbol) (id fd : Z) (s : AppServer) : AppServer :=
  set_conns (<[sym := <[id := fd]> (default ∅ (av_subscribers s !! sym))]> (av_subscribers s))
    (av_conn_owner s) (av_conn_perframe s) s.
Definition unsubscribe (sym : Symbol) (id : Z) (s : AppServer) : AppServer :=
  set_conns (<[sym := delete id (default ∅ (av_subscribers s !! sym))]> (av_subscribers s))
    (av_conn_owner s) (av_conn_perframe s) s.

(** The identity of an order frame, or why there is none. *)
Definition frame_owner (form : list (bytes * bytes)) (id : Z) (s : AppServer) : bytes + string :=
  if decide (id ∈ av_conn_perframe s) then
    match FormGet form (lit "user") with
    | Some user => if IsValidUuidString user then inr (str user) else inl (lit "missing or invalid user")
    | None => inl (lit "missing or invalid user")
    end
  else match av_conn_owner s !! id with
       | Some owner => inr owner
       | None => inl (lit "unauthenticated")
       end.

(** A frame that is not a subscription request. *)
Definition ws_order (bad : gset Z) (backlog : nat) (fd id : Z) (form : list (bytes * bytes)) (s : AppServer)
    : res AppServer :=
  let s := count Received 1 s in
  parsed ← ParseOrderForm form;
  match parsed with
  | inl err => Ok (answer_ws bad fd id (JsonErrorBody (lit err)) (count Rejected 1 s))
  | inr (sym, o) =>
      if overloaded backlog then Ok (answer_ws bad fd id (JsonErrorBody backpressure_text) (count Backpressure 1 s))
      else match frame_owner form id s with
           | inl err => Ok (answer_ws bad fd id (JsonErrorBody err) (count Rejected 1 s))
           | inr owner => submit_order bad (FromWs fd id) sym owner o s
           end
  end.

Definition handle_ws_message (bad : gset Z) (backlog : nat) (fd id : Z) (payload : bytes) (s : AppServer)
    : res AppServer :=
  let s := count WsMessages 1 s in
  let form := ParseForm payload in
  match FormGet form (lit "action") with
  | Some action =>
      match FormGet form (lit "symbol") with
      | None | Some [] => Ok (answer_ws bad fd id (JsonErrorBody (lit "missing symbol")) s)
      | Some sym =>
          if bool_decide (action = lit "subscribe")
          then Ok (answer_ws bad fd id (json "{'subscribed':true}") (subscribe (str sym) id fd s))
          else if bool_decide (action = lit "unsubscribe")
          then Ok (answer_ws bad fd id (json "{'subscribed':false}") (unsubscribe (str sym) id s))
          else ws_order bad backlog fd id form s
      end
  | None => ws_order bad backlog fd id form s
  end.

Definition auth_provided (handshake : HttpRequest) : bool :=
  bool_decide (is_Some (find_header (ap_header_name cfg) (q_headers handshake))) ||
  bool_decide (is_Some (find_header (ap_credential_header cfg) (q_headers handshake))).

Definition on_ws_open (bad : gset Z) (t1 t2 : Z) (id : Z) (aggregator : bool) (handshake : HttpRequest) (s : AppServer)
    : res AppServer :=
  if aggregator && negb (auth_provided handshake)
  then Ok (set_conns (av_subscribers s) (av_conn_owner s) ({[id]} ∪ av_conn_perframe s) s)
  else authenticate bad t1 t2 handshake (WorkOpen id) s.

Definition reply_ingress (k : nat) (m : HelperMessage) : AppServer → AppServer := output (Answer (FromIngress k) (PMsg m)).
Definition fail_ingress (k : nat) (err : bytes) : AppServer → AppServer :=
  reply_ingress k (result_message false [(lit "error", err)]).

Definition cancel_message (r : CancelResult) : HelperMessage :=
  match r with
  | kOk => result_message true [(lit "cancelled", lit "true")]
  | kNotFound => result_message false [(lit "error", lit "unknown order")]
  | kForbidden => result_message false [(lit "error", lit "not the order owner")]
  end.

Definition handle_ingress (bad : gset Z) (backlog : nat) (k : nat) (req : HelperMessage) (s : AppServer)
    : res AppServer :=
  let form := ParseForm (default [] (FormGet (msg_fields req) (lit "form"))) in
  match (match FormGet form (lit "user") with
         | Some user => if IsValidUuidString user then Some (str user) else None
         | None => None
         end) with
  | None => Ok (fail_ingress k (lit "missing or invalid user") (count Rejected 1 s))
  | Some owner =>
      if bool_decide (msg_type req = lit "cancel") then
        let s := count Cancels 1 s in
        match (match FormGet form (lit "order") with
               | Some handle => if IsValidUuidString handle then Some (str handle) else None
               | None => None
               end) with
        | None => Ok (fail_ingress k (lit "missing or invalid order") (count CancelsFailed 1 s))
        | Some handle =>
            '(c, s) ← cancel_order bad handle owner s;
            Ok (reply_ingress k (cancel_message c) s)
        end
      else
        let s := count Received 1 s in
        if overloaded backlog then Ok (fail_ingress k backpressure_text (count Backpressure 1 s))
        else
          parsed ← ParseOrderForm form;
          match parsed with
          | inl err => Ok (fail_ingress k (lit err) (count Rejected 1 s))
          | inr (sym, o) => submit_order bad (FromIngress k) sym owner o s
          end
  end.

Definition on_timer (backlog : nat) (s : AppServer) : AppServer :=
  if (0 <? backlog)%nat then set_engine (commit (av_engine s)) [TCommit] s else s.

(** ** Routes *)

(** Handlers over a server that may have faulted. *)
Definition sync_route (f : HttpRequest → AppServer → res (HttpResponse * AppServer)) (req : HttpRequest)
    (a : res AppServer) : HttpResponse * res AppServer :=
  match (s ← a; f req s) with
  | Ok (resp, s) => (resp, Ok s)
  | Err e => (default_response, Err e)
  end.
Definition async_route (f : HttpRequest → AppServer → res AppServer) (req : HttpRequest) (a : res AppServer)
    : option HttpResponse * res AppServer := (None, s ← a; f req s).

Definition setup_routes (bad : gset Z) (t1 t2 : Z) (backlog : nat) (dropped : Z) (r : nat)
    : list (RouteEntry (res AppServer)) :=
  let routes := add_sync (lit "GET") (lit "/health")
                  (sync_route (λ _ s, Ok (plain_text 200 (lit "ok"), s))) [] in
  let routes := add_async (lit "POST") (lit "/orders")
                  (async_route (λ req, handle_submit bad t1 t2 backlog req r)) routes in
  let routes := add_async (lit "POST") (lit "/orders/cancel")
                  (async_route (λ req, handle_cancel bad t1 t2 req r)) routes in
  let routes := add_sync (lit "GET") (lit "/book")
                  (sync_route (λ req s, Ok (handle_book req s, s))) routes in
  let routes := add_sync (lit "POST") (lit "/auction") (sync_route (handle_auction bad)) routes in
  if ap_metrics_enabled cfg
  then add_sync (lit "GET") (ap_metrics_path cfg) (sync_route (λ _ s, Ok (handle_metrics backlog dropped s, s))) routes
  else routes.

(** A request with its responder [r]; a response the router has before it
    returns is passed to the responder. *)
Definition handle_http (bad : gset Z) (t1 t2 : Z) (backlog : nat) (dropped : Z) (r : nat) (req : HttpRequest)
    (s : AppServer) : res AppServer :=
  let '(resp, a) := dispatch (setup_routes bad t1 t2 backlog dropped r) req (Ok s) in
  s ← a;
  Ok (match resp with Some x => respond r x s | None => s end).

(** ** Sessions *)
Inductive app_event :=
  | HttpArrives (r : nat) (req : HttpRequest) (t1 t2 : Z) (backlog : nat) (dropped : Z)
  | WsOpens (id : Z) (aggregator : bool) (handshake : HttpRequest) (t1 t2 : Z)
  | WsArrives (fd id : Z) (payload : bytes) (backlog : nat)
  | WsCloses (id : Z)
  | IngressArrives (k : nat) (m : HelperMessage) (backlog : nat)
  | AuthReplies (k : nat) (ok : bool) (m : HelperMessage) (t t1 t2 : Z)
  | AuthHelperDies (idx : nat)
  | StorageReplies (k : nat) (r : Reply)
  | StorageDies
  | StorageSeeds
  | CommitTimer (backlog : nat).

(** An event, while the sockets of [bad] fail. *)
Definition app_step (s : AppServer) (x : gset Z * app_event) : res AppServer :=
  let '(bad, e) := x in
  match e with
  | HttpArrives r req t1 t2 backlog dropped => handle_http bad t1 t2 backlog dropped r req s
  | WsOpens id aggregator handshake t1 t2 => on_ws_open bad t1 t2 id aggregator handshake s
  | WsArrives fd id payload backlog => handle_ws_message bad backlog fd id payload s
  | WsCloses id => Ok (ws_closed id s)
  | IngressArrives k m backlog => handle_ingress bad backlog k m s
  | AuthReplies k ok m t t1 t2 =>
      let before := length (ac_log (av_auth s)) in
      a ← auth_step PC NC acfg (av_auth s) (Replies k ok m t t1 t2);
      deliver_answers bad before (set_auth a s)
  | AuthHelperDies idx =>
      a ← auth_step PC NC acfg (av_auth s) (HelperDies idx);
      Ok (set_auth a s)
  | StorageReplies k r =>
      let before := length (t_log (av_engine s)) in
      te ← storage_replies k r (av_engine s);
      deliver_results bad before (set_engine te [TReply k r] s)
  | StorageDies => Ok (set_engine (helper_dies (av_engine s)) [TDie] s)
  | StorageSeeds =>
      let before := length (t_log (av_engine s)) in
      te ← seed_from_storage (av_engine s);
      deliver_results bad before (set_engine te [TSeed] s)
  | CommitTimer backlog => Ok (on_timer backlog s)
  end.

Definition app_session (m : MatchingEngine) (mem : nat) (es : list (gset Z * app_event)) : res AppServer :=
  res_foldl app_step (new_app m mem) es.
End Server.
Arguments AppServer : clear implicits.
