(* ===== verification/AppServerInv.v ===== *)
(** * The invariant of the server application

    Every request is answered, waits for authentication or waits in the trading
    engine's queue; the order counters balance; every order and cancel the engine
    gets was asked for by a request whose sender is who the order says.  Proved
    over every handler, together with the conditions under which handlers
    return. *)

From S2P Require Import Prelude.
From S2P Require Import Order.
From S2P Require Import Book.
From S2P Require Import BookFlow.
From S2P Require Import BookSubmit.
From S2P Require Import BookEmit.
From S2P Require Import MatchingEngine.
From S2P Require Import EngineTotal.
From S2P Require Import Bytes.
From S2P Require Import HelperCodec.
From S2P Require Import HttpParser.
From S2P Require Import HttpMessage.
From S2P Require Import TradingEngine.
From S2P Require Import TradingFifo.
From S2P Require Import TradingLive.
From S2P Require Import Uuid.
From S2P Require Import AuthClient.
From S2P Require Import OrderForm.
From S2P Require Import AppLogs.
From S2P Require Import AppServer.

(** ** Outcomes

    [x] returns a value with [Q], or fails although [ok] does not hold. *)
Definition runs (ok : Prop) {A} (x : res A) (Q : A → Prop) : Prop :=
  match x with Ok a => Q a | Err _ => ¬ ok end.

Lemma runs_bind ok {A B} (x : res A) (f : A → res B) Q : runs ok x (λ a, runs ok (f a) Q) → runs ok (x ≫= f) Q.
Proof. by destruct x. Qed.
Lemma runs_mono ok {A} (x : res A) (P Q : A → Prop) : runs ok x P → (∀ a, P a → Q a) → runs ok x Q.
Proof. destruct x; simpl; auto. Qed.

(** ** What was asked for *)

(** Origins a session asked to answer. *)
Definition event_asks (e : app_event) : list Origin :=
  match e with
  | HttpArrives r _ _ _ _ _ => [FromHttp r]
  | WsArrives fd id _ _ => [FromWs fd id]
  | IngressArrives k _ _ => [FromIngress k]
  | _ => []
  end.
Definition asks (es : list (gset Z * app_event)) : list Origin := es ≫= λ x, event_asks x.2.

Definition answered (l : list Output) : list Origin :=
  omap (λ x, match x with Answer o _ => Some o | Publish _ _ _ => None end) l.

Definition work_origin (w : AuthWork) : list Origin :=
  match w with WorkSubmit r _ _ | WorkCancel r _ => [FromHttp r] | WorkOpen _ => [] end.
Definition work_order (w : AuthWork) : Z := match w with WorkSubmit _ _ _ => 1 | _ => 0 end.

(** Orders received and not yet counted as accepted, rejected or shed. *)
Definition balance (m : Metrics) : Z :=
  mt_orders_received m - mt_orders_accepted m - mt_orders_rejected m - mt_orders_backpressure m.
Definition metric_balance (k : Metric) : Z :=
  match k with Received => 1 | Accepted | Rejected | Backpressure => -1 | _ => 0 end.

Lemma balance_bump k n m : balance (bump k n m) = balance m + metric_balance k * n.
Proof. unfold balance. destruct k; simpl; lia. Qed.

Definition seen (es : list (gset Z * app_event)) (e : app_event) : Prop := ∃ bad, (bad, e) ∈ es.
Definition http_seen es r req : Prop := ∃ t1 t2 backlog dropped, seen es (HttpArrives r req t1 t2 backlog dropped).
Definition open_seen es id aggregator handshake : Prop := ∃ t1 t2, seen es (WsOpens id aggregator handshake t1 t2).
Definition frame_seen es fd id payload : Prop := ∃ backlog, seen es (WsArrives fd id payload backlog).
Definition ingress_seen es k m : Prop := ∃ backlog, seen es (IngressArrives k m backlog).

Lemma seen_app es e' e : seen es e → seen (es ++ [e']) e.
Proof. intros [bad H]. exists bad. set_solver. Qed.

Lemma elem_of_calls n cred l : (n, cred) ∈ calls l ↔ Called n cred ∈ l.
Proof.
  unfold calls. rewrite list_elem_of_omap. split; [|intros H; by eexists].
  intros (f & Hf & E). destruct f; try done. by injection E as <- <-.
Qed.
Lemma elem_of_answers n cred l : (n, cred) ∈ answers l ↔ ∃ b user c, Answered n cred b user c ∈ l.
Proof.
  unfold answers. rewrite list_elem_of_omap. split.
  - intros (f & Hf & E). destruct f; try done. injection E as <- <-. eauto.
  - intros (b & user & c & H). by eexists.
Qed.

(** A form asks for an order, names a user or names an order. *)
Definition form_orders (form : list (bytes * bytes)) (sym : Symbol) (o : Order) : Prop :=
  ParseOrderForm form = Ok (inr (sym, o)).
(** The engine takes it. *)
Definition form_orders_ok (o : Order) : Prop := submittable o ∧ o_id o = 0.
Definition form_names (form : list (bytes * bytes)) (field : string) (name : string) : Prop :=
  ∃ b, FormGet form (lit field) = Some b ∧ IsValidUuidString b = true ∧ name = str b.
Definition ingress_form (m : HelperMessage) : list (bytes * bytes) :=
  ParseForm (default [] (FormGet (msg_fields m) (lit "form"))).

Section Inv.
Context {PC NC : CredentialCache} (acfg : AuthConfig) (cfg : AppConfig) (m0 : MatchingEngine) (mem : nat).
Implicit Types s : AppServer PC NC.

(** The mechanisms that are on agree that the request comes from [owner]. *)
Definition identity (l : list AuthEffect) (req : HttpRequest) (owner : string) : Prop :=
  (ap_header_enabled cfg = true → ∃ h, find_header (ap_header_name cfg) (q_headers req) = Some h ∧
     IsValidUuidString h = true ∧ owner = str h) ∧
  (ap_helper_enabled cfg = true → ∃ cred m t, find_header (ap_credential_header cfg) (q_headers req) = Some cred ∧
     Replied (str cred) true m t ∈ l ∧ grants m owner) ∧
  (ap_header_enabled cfg = false → ap_helper_enabled cfg = false → owner = ""%string).

(** The identity a WebSocket connection acts under. *)
Definition frame_identity es (l : list AuthEffect) (id : Z) (payload : bytes) (owner : string) : Prop :=
  (∃ aggregator handshake, open_seen es id aggregator handshake ∧ identity l handshake owner) ∨
  (∃ handshake, open_seen es id true handshake ∧ auth_provided cfg handshake = false ∧
     form_names (ParseForm payload) "user" owner).

(** Somebody who is [owner] asked for the order. *)
Definition order_asked es (l : list AuthEffect) (from : Origin) (sym : Symbol) (o : Order) (owner : string) : Prop :=
  match from with
  | FromHttp r => ∃ req, http_seen es r req ∧ form_orders (ParseForm (q_body req)) sym o ∧ identity l req owner
  | FromWs fd id => ∃ payload, frame_seen es fd id payload ∧ form_orders (ParseForm payload) sym o ∧
      frame_identity es l id payload owner
  | FromIngress k => ∃ m, ingress_seen es k m ∧ form_orders (ingress_form m) sym o ∧
      form_names (ingress_form m) "user" owner
  end.
Definition cancel_asked es (l : list AuthEffect) (handle owner : string) : Prop :=
  (∃ r req, http_seen es r req ∧ form_names (ParseForm (q_body req)) "order" handle ∧ identity l req owner) ∨
  (∃ k m, ingress_seen es k m ∧ form_names (ingress_form m) "order" handle ∧
     form_names (ingress_form m) "user" owner).

Definition op_asked es (l : list AuthEffect) (subs : list SubmitCtx) (op : trading_op) : Prop :=
  match op with
  | TSubmit sym owner o cb _ => ∃ n ctx, cb = Some n ∧ subs !! n = Some ctx ∧ sc_symbol ctx = sym ∧
      order_asked es l (sc_origin ctx) sym o owner
  | TCancel handle requester => cancel_asked es l handle requester
  | _ => True
  end.

(** The request an authentication is for. *)
Definition work_asked es (w : AuthWork) (req : HttpRequest) : Prop :=
  match w with
  | WorkSubmit r sym o => http_seen es r req ∧ form_orders (ParseForm (q_body req)) sym o
  | WorkCancel r handle => http_seen es r req ∧ form_names (ParseForm (q_body req)) "order" handle
  | WorkOpen id => ∃ aggregator, open_seen es id aggregator req
  end.

Definition auth_asked es (l : list AuthEffect) (n : nat) (x : AuthCtx) : Prop :=
  ∃ req cred, work_asked es (ax_work x) req ∧ find_header (ap_credential_header cfg) (q_headers req) = Some cred ∧
    (n, str cred) ∈ calls l ∧ ap_helper_enabled cfg = true ∧
    (ap_header_enabled cfg = true → ∃ h, find_header (ap_header_name cfg) (q_headers req) = Some h ∧
       IsValidUuidString h = true ∧ ax_header x = Some (str h)).

(** ** The invariant *)

Definition works (auths : list AuthCtx) (cbs : list (nat * string)) : list AuthWork :=
  omap (λ x, ax_work <$> auths !! x.1) cbs.
(** Authentications whose callback has not run: those of [la] are about to. *)
Definition unresolved (la : list AuthEffect) s : list AuthWork :=
  works (av_auths s) (answers la ++ waiting (ac_waiters (av_auth s))).
(** Submissions whose callback has not run: those of [le] are about to. *)
Definition unplaced (le : list Effect) s : list SubmitCtx :=
  omap (λ cb : option nat, cb ≫= λ n, av_submits s !! n) (callbacks le) ++
  drop (length (callbacks (t_log (av_engine s)))) (av_submits s).

(** [g]: the requests dealt with; [x]: orders counted elsewhere; [bad]: sockets
    that fail. *)
Record Inv (ok : Prop) (bad : gset Z) es (g : list Origin) (x : Z) (la : list AuthEffect) (le : list Effect) s : Prop := {
  iv_engine : res_foldl run_trading (new_trading m0 mem) (av_ops s) = Ok (av_engine s);
  iv_live : ok → Live (av_engine s) ∧ head_waits (av_engine s);
  iv_cbs : sb_cb <$> submissions (av_ops s) = Some <$> seq 0 (length (av_submits s));
  iv_auth : auth_core PC NC acfg [] (av_auth s) ∧ busy PC NC acfg (av_auth s);
  iv_calls : (calls (ac_log (av_auth s))).*1 = seq 0 (length (av_auths s));
  iv_once : g ≡ₚ answered (av_out s) ++ (unresolved la s ≫= work_origin) ++ (sc_origin <$> unplaced le s);
  iv_ledger : balance (av_metrics s) + x = zsum work_order (unresolved la s) + Z.of_nat (length (unplaced le s));
  iv_ops : ∀ op, op ∈ av_ops s → op_asked es (ac_log (av_auth s)) (av_submits s) op;
  iv_auths : ∀ n c, av_auths s !! n = Some c → auth_asked es (ac_log (av_auth s)) n c;
  iv_todo : ∀ f, f ∈ la → f ∈ ac_log (av_auth s);
  iv_owners : ∀ id owner, av_conn_owner s !! id = Some owner →
    ∃ aggregator handshake, open_seen es id aggregator handshake ∧ identity (ac_log (av_auth s)) handshake owner;
  iv_perframe : ∀ id, id ∈ av_conn_perframe s →
    ∃ handshake, open_seen es id true handshake ∧ auth_provided cfg handshake = false;
  iv_subs : ok → ∀ sym conns id, av_subscribers s !! sym = Some conns → is_Some (conns !! id) → id ∉ bad;
}.

(** What was asked stays asked. *)
Section Mono.
Context (es es' : list (gset Z * app_event)) (l l' : list AuthEffect).
Hypothesis es_sub : ∀ e, seen es e → seen es' e.
Hypothesis l_sub : ∀ f, f ∈ l → f ∈ l'.

Lemma identity_mono req owner : identity l req owner → identity l' req owner.
Proof. intros (H1 & H2 & H3). split_and!; [done| |done]. intros Hh. destruct (H2 Hh) as (cred & m & t & ? & ? & ?). exists cred, m, t. auto. Qed.

Lemma http_mono r req : http_seen es r req → http_seen es' r req.
Proof. intros (t1 & t2 & b & d & H). exists t1, t2, b, d. auto. Qed.
Lemma open_mono id aggregator hs : open_seen es id aggregator hs → open_seen es' id aggregator hs.
Proof. intros (t1 & t2 & H). exists t1, t2. auto. Qed.
Lemma frame_mono fd id payload : frame_seen es fd id payload → frame_seen es' fd id payload.
Proof. intros (b & H). exists b. auto. Qed.
Lemma ingress_mono k m : ingress_seen es k m → ingress_seen es' k m.
Proof. intros (b & H). exists b. auto. Qed.
Hint Resolve identity_mono http_mono open_mono frame_mono ingress_mono : core.

Lemma frame_identity_mono id payload owner : frame_identity es l id payload owner → frame_identity es' l' id payload owner.
Proof. intros [(a & hs & ? & ?)|(hs & ? & ? & ?)]; [left; exists a, hs|right; exists hs]; auto. Qed.
Hint Resolve frame_identity_mono : core.

Lemma order_asked_mono from sym o owner : order_asked es l from sym o owner → order_asked es' l' from sym o owner.
Proof.
  destruct from; simpl; [intros (req & ? & ? & ?)|intros (payload & ? & ? & ?)|intros (m & ? & ? & ?)]; eexists;
    split_and!; eauto.
Qed.
Lemma op_asked_mono subs op : op_asked es l subs op → op_asked es' l' subs op.
Proof.
  destruct op; try done; simpl.
  - intros (n & ctx & ? & ? & ? & ?). exists n, ctx. split_and!; try done. by apply order_asked_mono.
  - intros [(r & req & ? & ? & ?)|(k & m & ? & ? & ?)]; [left; exists r, req|right; exists k, m]; auto.
Qed.
Lemma work_asked_mono w req : work_asked es w req → work_asked es' w req.
Proof. destruct w; simpl; [intros [? ?]|intros [? ?]|intros [a ?]; exists a]; auto. Qed.
Lemma auth_asked_mono n c : auth_asked es l n c → auth_asked es' l' n c.
Proof.
  intros (req & cred & ? & ? & Hc & ?). exists req, cred. split_and!; [by apply work_asked_mono|done| |tauto|tauto].
  apply elem_of_calls. by apply l_sub, elem_of_calls.
Qed.
End Mono.

#[local] Set Default Proof Using "Type".

Context (uuid_of : nat → string) (ok : Prop) (bad : gset Z) (es : list (gset Z * app_event)).
Notation inv := (Inv ok bad es).

(** ** Steps that touch neither the engine nor authentication *)

Lemma inv_perm g g' x la le s : inv g x la le s → g ≡ₚ g' → inv g' x la le s.
Proof. intros [] Hg. split; try done. by rewrite <-Hg. Qed.

Lemma inv_count k n g x la le s :
  inv g x la le s → inv g (x - metric_balance k * n) la le (count k n s).
Proof.
  intros []. split; try done.
  change (balance (bump k n (av_metrics s)) + (x - metric_balance k * n) =
          zsum work_order (unresolved la s) + Z.of_nat (length (unplaced le s))).
  rewrite balance_bump. lia.
Qed.

Lemma inv_output f g x la le s : inv g x la le s → inv (g ++ answered [f]) x la le (output f s).
Proof.
  intros []. split; try done.
  change (g ++ answered [f] ≡ₚ answered (av_out s ++ [f]) ++ (unresolved la s ≫= work_origin) ++
          (sc_origin <$> unplaced le s)).
  unfold answered in *. rewrite omap_app, iv_once0, <-!app_assoc. f_equiv.
  by rewrite app_assoc, Permutation_app_comm.
Qed.

Lemma inv_respond r resp g x la le s : inv g x la le s → inv (g ++ [FromHttp r]) x la le (respond r resp s).
Proof. exact (inv_output (Answer (FromHttp r) (PHttp resp)) g x la le s). Qed.

Lemma inv_conns subs owner perframe g x la le s :
  inv g x la le s →
  (∀ id u, owner !! id = Some u →
     ∃ aggregator handshake, open_seen es id aggregator handshake ∧ identity (ac_log (av_auth s)) handshake u) →
  (∀ id, id ∈ perframe → ∃ handshake, open_seen es id true handshake ∧ auth_provided cfg handshake = false) →
  (ok → ∀ sym conns id, subs !! sym = Some conns → is_Some (conns !! id) → id ∉ bad) →
  inv g x la le (set_conns subs owner perframe s).
Proof. intros [] H1 H2 H3. by split. Qed.

Lemma inv_closed id g x la le s : inv g x la le s → inv g x la le (ws_closed id s).
Proof.
  intros H. apply inv_conns; [done|..]; destruct H.
  - intros i u [_ Hi]%lookup_delete_Some. eauto.
  - intros i [Hi _]%elem_of_difference. eauto.
  - intros Hok sym conns i. rewrite lookup_fmap. intros (c & Hc & ->)%fmap_Some [fd [_ Hi]%lookup_delete_Some].
    eapply iv_subs0; eauto.
Qed.

Lemma inv_send bad' f id g x la le s : inv g x la le s → inv (g ++ answered [f]) x la le (send_text bad' f id s).
Proof. intros H. unfold send_text. case_decide; [apply inv_closed|]; by apply inv_output. Qed.
Lemma inv_answer_ws bad' fd id text g x la le s :
  inv g x la le s → inv (g ++ [FromWs fd id]) x la le (answer_ws bad' fd id text s).
Proof. exact (inv_send bad' (Answer (FromWs fd id) (PText text)) id g x la le s). Qed.

Lemma inv_publish_all msg conns : ∀ g x la le s,
  (ok → ∀ id fd, (id, fd) ∈ conns → id ∉ bad) → inv g x la le s →
  runs ok (publish_all bad msg conns s) (inv g x la le).
Proof.
  induction conns as [|[id fd] conns IH]; intros g x la le s Hc H; [done|]. cbn [publish_all].
  destruct (decide (id ∈ bad)) as [Hb|Hb].
  - intros Hok. apply (Hc Hok id fd); [by constructor|done].
  - apply IH; [intros Hok i f Hi; apply (Hc Hok i f); by right|].
    apply (inv_send bad (Publish fd id msg) id) in H. by rewrite app_nil_r in H.
Qed.

Lemma inv_broadcast m sym ts g x la le s :
  inv g x la le s → runs ok (broadcast_market_data bad m sym ts s) (inv g x la le).
Proof.
  intros H. unfold broadcast_market_data. destruct (av_subscribers s !! sym) as [conns|] eqn:E; [|done].
  case_decide; [done|]. apply inv_publish_all; [|done]. intros Hok id fd Hin%elem_of_map_to_list.
  eapply (iv_subs _ _ _ _ _ _ _ _ H); eauto.
Qed.

(** ** Results *)

(** The callback [cb] is the next to run. *)
Lemma inv_pop q cb r m ctx g x la le s :
  inv g x la (Delivered q (Some cb) r m :: le) s → av_submits s !! cb = Some ctx →
  ∃ g', g ≡ₚ g' ++ [sc_origin ctx] ∧ inv g' (x - 1) la le s.
Proof.
  intros H Hcb. assert (unplaced (Delivered q (Some cb) r m :: le) s = ctx :: unplaced le s) as E.
  { unfold unplaced. simpl. by rewrite Hcb. }
  destruct H. rewrite E in *. eexists. split; [rewrite iv_once0; simpl; rewrite !app_assoc; symmetry;
    rewrite Permutation_app_comm; simpl; apply Permutation_middle|].
  split; try done; [by rewrite <-app_assoc|]. simpl in iv_ledger0. lia.
Qed.
(** Other entries. *)
Lemma inv_skip f g x la le s :
  inv g x la (f :: le) s → (∀ q cb r m, f = Delivered q (Some cb) r m → av_submits s !! cb = None) →
  inv g x la le s.
Proof.
  intros H Hf. assert (unplaced (f :: le) s = unplaced le s) as E.
  { unfold unplaced. destruct f as [| |q [cb|] r m|]; try done. simpl. by rewrite (Hf _ _ _ _ eq_refl). }
  destruct H. rewrite E in *. by split.
Qed.

Lemma inv_count_result r g x la le s : inv g x la le s → inv g (x + 1) la le (count_result r s).
Proof.
  intros H. unfold count_result. case_match.
  - apply (inv_count Accepted 1), (inv_count Trades (Z.of_nat (length (out_trades (r_outcome r))))) in H.
    eapply (eq_ind _ (λ z, inv g z la le _) H). simpl. lia.
  - apply (inv_count Rejected 1) in H. eapply (eq_ind _ (λ z, inv g z la le _) H). simpl. lia.
Qed.

Lemma inv_on_result ctx r m g x la le s :
  inv g (x - 1) la le s → runs ok (on_result bad ctx r m s) (inv (g ++ [sc_origin ctx]) x la le).
Proof.
  intros H%(inv_count_result r). replace (x - 1 + 1) with x in H by lia. unfold on_result.
  set (s1 := match sc_origin ctx with FromHttp _ => _ | FromWs _ _ => _ | FromIngress _ => _ end).
  assert (inv (g ++ [sc_origin ctx]) x la le s1) as H1.
  { unfold s1. destruct (sc_origin ctx) as [h|fd id|k]; [by apply inv_respond|by apply inv_answer_ws|].
    exact (inv_output (Answer (FromIngress k) _) g x la le _ H). }
  clearbody s1. case_match; [|done]. by apply inv_broadcast.
Qed.

Lemma inv_deliver l : ∀ g x la s, inv g x la l s → runs ok (res_foldl (deliver_one bad) s l) (inv g x la []).
Proof.
  induction l as [|f l IH]; intros g x la s H; [done|]. cbn [res_foldl]. apply runs_bind.
  apply (runs_mono _ _ (inv g x la l)); [|intros s' H'; by apply IH].
  destruct f as [| |q [cb|] r m|]; simpl; try (by eapply inv_skip).
  destruct (av_submits s !! cb) as [ctx|] eqn:E.
  - destruct (inv_pop _ _ _ _ _ _ _ _ _ _ H E) as (g' & Hg & H').
    eapply runs_mono; [by apply inv_on_result|]. intros s' Hs'. by eapply inv_perm.
  - eapply inv_skip; [done|]. by intros ???? [= <- <- <- <-].
Qed.

(** ** Calls of the trading engine *)

Definition engine_moves (new : list SubmitCtx) (op : trading_op) (te : TradingEngine) s s' : Prop :=
  av_engine s' = te ∧ av_submits s' = av_submits s ++ new ∧ av_ops s' = av_ops s ++ [op] ∧ av_auth s' = av_auth s ∧
  av_metrics s' = av_metrics s ∧ av_subscribers s' = av_subscribers s ∧ av_conn_owner s' = av_conn_owner s ∧
  av_conn_perframe s' = av_conn_perframe s ∧ av_auths s' = av_auths s ∧ av_out s' = av_out s.

Lemma op_asked_app l subs new op : op_asked es l subs op → op_asked es l (subs ++ new) op.
Proof.
  destruct op; try done. simpl. intros (n & ctx & H1 & Hn & H2 & H3). exists n, ctx. split_and!; [done| |done|done].
  by apply lookup_app_l_Some.
Qed.

Lemma omap_seq {A} (l : list A) a n :
  (a + n ≤ length l)%nat → omap (λ cb : option nat, cb ≫= λ i, l !! i) (Some <$> seq a n) = take n (drop a l).
Proof.
  revert a. induction n as [|n IH]; intros a Hn; [done|]. cbn [seq fmap list_fmap omap list_omap mbind option_bind].
  destruct (lookup_lt_is_Some_2 l a) as [y Hy]; [lia|]. rewrite Hy, (drop_S _ _ _ Hy). simpl. f_equal. apply IH. lia.
Qed.

Lemma inv_engine_step new op te g x la s s' :
  inv g x la [] s → run_trading (av_engine s) op = Ok te → engine_moves new op te s s' →
  sb_cb <$> submissions [op] = Some <$> seq (length (av_submits s)) (length new) →
  (ok → Live te ∧ head_waits te) → op_asked es (ac_log (av_auth s)) (av_submits s ++ new) op →
  inv (g ++ (sc_origin <$> new)) (x + Z.of_nat (length new)) la (drop (length (t_log (av_engine s))) (t_log te)) s'.
Proof.
  intros [] Hrun (E1 & E2 & E3 & E4 & E5 & E6 & E7 & E8 & E9 & E10) Hcb Hlive Hop.
  assert (res_foldl run_trading (new_trading m0 mem) (av_ops s ++ [op]) = Ok te) as Hrun'.
  { rewrite res_foldl_app, iv_engine0. cbn [mbind res_bind res_foldl]. by rewrite Hrun. }
  assert (sb_cb <$> submissions (av_ops s ++ [op]) = Some <$> seq 0 (length (av_submits s ++ new))) as Hcbs.
  { rewrite submissions_app, fmap_app, iv_cbs0, Hcb, length_app, seq_app, fmap_app. done. }
  destruct (extends_run _ _ _ Hrun) as [l El].
  pose proof (callbacks_in_order _ _ _ _ _ iv_engine0 iv_cbs0) as (C1 & C2 & _).
  pose proof (callbacks_in_order _ _ _ _ _ Hrun' Hcbs) as (D1 & D2 & _). rewrite El in D1, D2 |- *.
  rewrite drop_app_length. rewrite callbacks_app in D1, D2. rewrite length_app in D1, D2.
  set (d := length (callbacks (t_log (av_engine s)))) in *.
  assert (callbacks l = Some <$> seq d (length (callbacks l))) as Hl.
  { rewrite seq_app, fmap_app in D1. by apply app_inj_1 in D1 as [_ D1]; [|rewrite length_fmap, length_seq]. }
  assert (unplaced l s' = unplaced [] s ++ new) as Hun.
  { unfold unplaced. rewrite E1, E2, El, callbacks_app, length_app. fold d. rewrite Hl at 1.
    rewrite omap_seq by lia. rewrite <-(drop_drop _ (length (callbacks l)) d), take_drop. simpl.
    by rewrite drop_app_le. }
  assert (unresolved la s' = unresolved la s) as Hur by (unfold unresolved; by rewrite E4, E9).
  split; rewrite ?Hun, ?Hur, ?E1, ?E2, ?E3, ?E4, ?E5, ?E6, ?E7, ?E8, ?E9, ?E10; try done.
  - rewrite fmap_app, iv_once0, <-!app_assoc. done.
  - rewrite length_app. lia.
  - intros op' [Hin| ->%list_elem_of_singleton]%elem_of_app; [by apply op_asked_app, iv_ops0|done].
Qed.

(** A call that answers no submission. *)
Lemma inv_engine_quiet op te g x la s :
  inv g x la [] s → run_trading (av_engine s) op = Ok te → same_queue (av_engine s) te → submissions [op] = [] →
  (ok → Live te ∧ head_waits te) → op_asked es (ac_log (av_auth s)) (av_submits s) op →
  inv g x la [] (set_engine te [op] s).
Proof.
  intros H Hrun Hq Hsub Hlive Hop.
  pose proof (inv_engine_step [] op te g x la s (set_engine te [op] s) H Hrun) as H1.
  rewrite Hsub, !app_nil_r, Z.add_0_r in H1. destruct Hq as [_ _ _ _ _ (l & El & Hl & _)].
  rewrite El, drop_app_length in H1.
  assert (inv g x la l (set_engine te [op] s)) as H2.
  { apply H1; try done. split_and!; try done. simpl. by rewrite app_nil_r. }
  assert (unplaced l (set_engine te [op] s) = unplaced [] (set_engine te [op] s)) as E.
  { unfold unplaced, callbacks. by rewrite Hl. }
  destruct H2. rewrite E in *. by split.
Qed.

Lemma inv_none g x la le s : inv g x la le s → t_pending (av_engine s) !! t_next_assign_seq (av_engine s) = None.
Proof.
  intros []. apply QInv_session in iv_engine0 as HQ. apply eq_None_not_Some.
  rewrite (q_dom _ _ _ HQ), (q_assign _ _ _ HQ). lia.
Qed.

Lemma inv_submit_order from sym owner o g x la s :
  inv g x la [] s → form_orders_ok o → order_asked es (ac_log (av_auth s)) from sym o owner →
  runs ok (submit_order uuid_of bad from sym owner o s) (inv (g ++ [from]) (x + 1) la []).
Proof.
  intros H [Hsub Hid] Hask. unfold submit_order. set (n := length (av_submits s)).
  change (av_engine (keep_submit _ s)) with (av_engine s).
  destruct (trading_submit sym owner o (Some n) (uuid_of n) (av_engine s)) as [[u te]|] eqn:E.
  - cbn [mbind res_bind]. set (op := TSubmit _ _ _ _ _).
    assert (run_trading (av_engine s) op = Ok te) as Hrun by (simpl; by rewrite E).
    apply inv_deliver. eapply (inv_engine_step [mkSubmit from sym] op te); try done.
    + intros Hok. destruct (iv_live _ _ _ _ _ _ _ _ H Hok) as [HL Hh].
      destruct (trading_submit_ok sym owner o (Some n) (uuid_of n) _ HL Hh Hsub Hid (inv_none _ _ _ _ _ H)) as (te' & E' & ?).
      rewrite E in E'. by injection E' as _ <-.
    + simpl. exists n, (mkSubmit from sym). split_and!; try done. by apply list_lookup_middle.
  - intros Hok. destruct (iv_live _ _ _ _ _ _ _ _ H Hok) as [HL Hh].
    destruct (trading_submit_ok sym owner o (Some n) (uuid_of n) _ HL Hh Hsub Hid (inv_none _ _ _ _ _ H)) as (te' & E' & ?).
    by rewrite E in E'.
Qed.

Lemma inv_cancel_order handle owner g x la s :
  inv g x la [] s → cancel_asked es (ac_log (av_auth s)) handle owner →
  runs ok (cancel_order bad handle owner s) (λ y, inv g x la [] y.2).
Proof.
  intros H Hask. unfold cancel_order.
  destruct (trading_cancel handle owner (av_engine s)) as [[[r sym] te]|] eqn:E.
  - cbn [mbind res_bind]. assert (inv g x la [] (set_engine te [TCancel handle owner] s)) as H1.
    { eapply inv_engine_quiet; try done; [simpl; by rewrite E|by eapply same_queue_cancel|].
      intros Hok. destruct (iv_live _ _ _ _ _ _ _ _ H Hok) as [HL Hh].
      destruct (trading_cancel_ok handle owner _ HL Hh) as (r' & te' & E' & ?). rewrite E in E'. by injection E' as <- <-. }
    assert (∀ r' : CancelResult, runs ok (Ok (r', count CancelsFailed 1 (set_engine te [TCancel handle owner] s)))
              (λ y : CancelResult * AppServer PC NC, inv g x la [] y.2)) as Hfail.
    { intros r'. simpl. apply (inv_count CancelsFailed 1) in H1. simpl in H1. by rewrite Z.sub_0_r in H1. }
    destruct r, sym as [sym|]; try apply Hfail. apply runs_bind. eapply runs_mono; [by apply inv_broadcast|]. done.
  - intros Hok. destruct (iv_live _ _ _ _ _ _ _ _ H Hok) as [HL Hh].
    destruct (trading_cancel_ok handle owner _ HL Hh) as (r & te & E' & ?). by rewrite E in E'.
Qed.

(** ** Authentication *)

Lemma form_ok form sym o : form_orders form sym o → form_orders_ok o.
Proof. intros H. by destruct (parsed_order _ _ _ H) as (? & _ & ? & _). Qed.

Lemma inv_authenticated w b status owner err g x la s :
  inv g x la [] s →
  (b = true → ∃ req, work_asked es w req ∧ identity (ac_log (av_auth s)) req owner) →
  runs ok (authenticated uuid_of bad w b status owner err s) (inv (g ++ work_origin w) (x + work_order w) la []).
Proof.
  intros H Hb. destruct w as [r sym o|r handle|id]; simpl.
  - destruct b; simpl.
    + destruct (Hb eq_refl) as (req & [Hr Hf] & Hi). apply inv_submit_order; [done|by eapply form_ok|]. by exists req.
    + apply inv_respond. apply (inv_count Rejected 1) in H. eapply (eq_ind _ (λ z, inv g z la [] _) H). simpl. lia.
  - rewrite Z.add_0_r. destruct b; simpl; [|by apply inv_respond].
    destruct (Hb eq_refl) as (req & [Hr Hf] & Hi). apply runs_bind. eapply runs_mono.
    + apply (inv_cancel_order _ _ g x la); [|by left; exists r, req].
      apply (inv_count Cancels 1) in H. simpl in H. by rewrite Z.sub_0_r in H.
    + intros [c s'] H'. by apply inv_respond.
  - rewrite Z.add_0_r, app_nil_r. destruct b; [|done]. destruct (Hb eq_refl) as (req & [a Ha] & Hi).
    apply inv_conns; [done|..]; destruct H; [|done|done].
    intros i u [[<- <-]|[_ Hu]]%lookup_insert_Some; [by exists a, req|eauto].
Qed.

(** Who a helper's answer names was granted for the request's credential. *)
Lemma answer_granted s n cb cred cred' user c :
  auth_core PC NC acfg [] (av_auth s) → (calls (ac_log (av_auth s))).*1 = seq 0 n →
  Answered cb cred true user c ∈ ac_log (av_auth s) → (cb, cred') ∈ calls (ac_log (av_auth s)) →
  ∃ m t, Replied cred' true m t ∈ ac_log (av_auth s) ∧ grants m user.
Proof.
  intros Hc Hseq Ha Hcall. assert ((cb, cred) ∈ calls (ac_log (av_auth s))) as Hcall'.
  { rewrite (au_once _ _ _ _ _ Hc). apply elem_of_app. left. apply elem_of_answers. eauto. }
  assert (cred' = cred) as ->.
  { assert (NoDup (calls (ac_log (av_auth s))).*1) as Hnd by (rewrite Hseq; apply NoDup_seq).
    apply list_elem_of_lookup in Hcall as [i Hi], Hcall' as [j Hj].
    assert (i = j) as ->; [|congruence]. eapply (NoDup_lookup _ i j cb Hnd); by rewrite list_lookup_fmap, ?Hi, ?Hj. }
  apply list_elem_of_lookup in Ha as [i Hi]. destruct (au_sound _ _ _ _ _ Hc i _ Hi) as (e & (m & t & He & Hg & _) & _).
  exists m, t. split; [|done]. eapply elem_of_subseteq; [|exact He]. apply sublist_subseteq, sublist_take.
Qed.

Lemma inv_resolved cb cred b user c ctx g x la s :
  inv g x la [] s → Answered cb cred b user c ∈ ac_log (av_auth s) → av_auths s !! cb = Some ctx →
  runs ok (resolved uuid_of bad ctx b user s) (inv (g ++ work_origin (ax_work ctx)) (x + work_order (ax_work ctx)) la []).
Proof.
  intros H Ha Hctx. unfold resolved. destruct b; simpl; [|by apply inv_authenticated].
  destruct (iv_auths _ _ _ _ _ _ _ _ H cb ctx Hctx) as (req & cred' & Hw & Hc & Hcall & Hon & Hh).
  destruct (iv_auth _ _ _ _ _ _ _ _ H) as [Hcore _].
  destruct (answer_granted s _ _ _ _ _ _ Hcore (iv_calls _ _ _ _ _ _ _ _ H) Ha Hcall) as (m & t & He & Hg).
  destruct (match ax_header ctx with Some h => negb (String.eqb h user) | None => false end) eqn:Eh;
    apply inv_authenticated; try done.
  intros _. exists req. split; [done|]. split_and!; [|by exists cred', m, t|by rewrite Hon].
  intros Hon'. destruct (Hh Hon') as (h & H1 & H2 & H3). rewrite H3 in Eh. apply negb_false_iff, String.eqb_eq in Eh as <-.
  by exists h.
Qed.

Lemma inv_pop_auth cb cred b user c ctx g x la s :
  inv g x (Answered cb cred b user c :: la) [] s → av_auths s !! cb = Some ctx →
  ∃ g', g ≡ₚ g' ++ work_origin (ax_work ctx) ∧ inv g' (x - work_order (ax_work ctx)) la [] s.
Proof.
  intros H Hcb. assert (unresolved (Answered cb cred b user c :: la) s = ax_work ctx :: unresolved la s) as E.
  { unfold unresolved, works. simpl. by rewrite Hcb. }
  destruct H. rewrite E in *.
  exists (answered (av_out s) ++ (unresolved la s ≫= work_origin) ++ (sc_origin <$> unplaced [] s)).
  split.
  - rewrite iv_once0. cbn [mbind list_bind]. rewrite <-!app_assoc. f_equiv.
    by rewrite (Permutation_app_comm (work_origin _)), <-app_assoc.
  - split; try done; [simpl in iv_ledger0; lia|]. intros f Hf. apply iv_todo0. by right.
Qed.
Lemma inv_skip_auth f g x la s :
  inv g x (f :: la) [] s → (∀ cb cred b user c, f = Answered cb cred b user c → av_auths s !! cb = None) →
  inv g x la [] s.
Proof.
  intros H Hf. assert (unresolved (f :: la) s = unresolved la s) as E.
  { unfold unresolved, works. destruct f; try done. simpl. by rewrite (Hf _ _ _ _ _ eq_refl). }
  destruct H. rewrite E in *. split; try done. intros f' Hf'. apply iv_todo0. by right.
Qed.

Lemma inv_resolve l : ∀ g x s, inv g x l [] s → runs ok (res_foldl (resolve_one uuid_of bad) s l) (inv g x [] []).
Proof.
  induction l as [|f l IH]; intros g x s H; [done|]. cbn [res_foldl]. apply runs_bind.
  apply (runs_mono _ _ (inv g x l [])); [|intros s' H'; by apply IH].
  assert (f ∈ ac_log (av_auth s)) as Hin by (apply (iv_todo _ _ _ _ _ _ _ _ H); by left).
  destruct f as [| | |cb cred b user c]; simpl; try (by eapply inv_skip_auth).
  destruct (av_auths s !! cb) as [ctx|] eqn:E.
  - destruct (inv_pop_auth _ _ _ _ _ _ _ _ _ _ H E) as (g' & Hg & H').
    eapply runs_mono; [by eapply inv_resolved|]. intros s' Hs'. eapply inv_perm; [|by symmetry].
    eapply (eq_ind _ (λ z, inv _ z l [] _) Hs'). lia.
  - eapply inv_skip_auth; [done|]. by intros ????? [= <- <- <- <- <-].
Qed.

Lemma works_app auths cbs cbs' : works auths (cbs ++ cbs') = works auths cbs ++ works auths cbs'.
Proof. apply omap_app. Qed.
Lemma works_more auths new cbs :
  Forall (λ x, x.1 < length auths)%nat cbs → works (auths ++ new) cbs = works auths cbs.
Proof.
  induction 1 as [|[n cred] cbs Hn _ IH]; [done|]. unfold works in *. cbn [omap list_omap].
  rewrite lookup_app_l by done. by rewrite IH.
Qed.
#[local] Instance works_perm auths : Proper ((≡ₚ) ==> (≡ₚ)) (works auths).
Proof. intros l l' H. unfold works. by rewrite H. Qed.

Definition auth_moves (new : list AuthCtx) (a : AuthClient PC NC) s s' : Prop :=
  av_auth s' = a ∧ av_auths s' = av_auths s ++ new ∧ av_engine s' = av_engine s ∧ av_submits s' = av_submits s ∧
  av_ops s' = av_ops s ∧ av_metrics s' = av_metrics s ∧ av_subscribers s' = av_subscribers s ∧
  av_conn_owner s' = av_conn_owner s ∧ av_conn_perframe s' = av_conn_perframe s ∧ av_out s' = av_out s.

Lemma works_new auths new cs :
  cs.*1 = seq (length auths) (length new) → works (auths ++ new) cs = ax_work <$> new.
Proof.
  revert auths cs. induction new as [|c new IH]; intros auths cs Hcs.
  - by destruct cs.
  - destruct cs as [|[n cred] cs]; [done|]. injection Hcs as -> Hcs. unfold works in *. cbn [omap list_omap fst].
    rewrite list_lookup_middle by done. cbn [fmap option_fmap option_map list_fmap]. f_equal.
    replace (auths ++ c :: new) with ((auths ++ [c]) ++ new) by (by rewrite <-app_assoc). apply IH.
    etrans; [exact Hcs|]. rewrite length_app. simpl. f_equal. lia.
Qed.

Lemma inv_auth_step new e a g x s s' :
  inv g x [] [] s → auth_step PC NC acfg (av_auth s) e = Ok a → auth_moves new a s s' →
  (event_calls e).*1 = seq (length (av_auths s)) (length new) →
  (∀ l i c, calls l = event_calls e → new !! i = Some c →
     auth_asked es (ac_log (av_auth s) ++ l) (length (av_auths s) + i) c) →
  inv (g ++ ((ax_work <$> new) ≫= work_origin)) (x + zsum work_order (ax_work <$> new))
    (drop (length (ac_log (av_auth s))) (ac_log a)) [] s'.
Proof.
  intros [] Hrun (E1 & E2 & E3 & E4 & E5 & E6 & E7 & E8 & E9 & E10) Hcs Hnew. destruct iv_auth0 as [Hc Hb].
  destruct (auth_step_answers _ _ _ _ _ _ Hc Hb Hrun) as (l & El & Ecl & Hp & Hc' & Hb').
  assert (∀ f, f ∈ ac_log (av_auth s) → f ∈ ac_log a) as Hsub by (intros f Hf; rewrite El; apply elem_of_app; by left).
  rewrite El at 1. rewrite drop_app_length.
  assert (unresolved l s' ≡ₚ unresolved [] s ++ (ax_work <$> new)) as Hun.
  { unfold unresolved. rewrite E1, E2, Hp, works_app, (works_new _ _ _ Hcs). cbn [answers omap list_omap app]. f_equiv.
    rewrite works_more; [done|]. apply Forall_forall. intros [n cred] Hn. simpl.
    assert (n ∈ (calls (ac_log (av_auth s))).*1) as Hin.
    { apply list_elem_of_fmap. exists (n, cred). split; [done|]. rewrite (au_once _ _ _ _ _ Hc).
      apply elem_of_app. by right. }
    rewrite iv_calls0 in Hin. apply elem_of_seq in Hin. lia. }
  assert (unplaced [] s' = unplaced [] s) as Hup by (unfold unplaced; by rewrite E3, E4).
  split; rewrite ?Hup, ?E1, ?E2, ?E3, ?E4, ?E5, ?E6, ?E7, ?E8, ?E9, ?E10; try done.
  - rewrite El. unfold calls in *. rewrite omap_app, fmap_app, Ecl, iv_calls0, Hcs, length_app, seq_app. done.
  - rewrite Hun, bind_app, iv_once0, <-!app_assoc. do 2 f_equiv. by rewrite Permutation_app_comm.
  - rewrite (zsum_perm _ _ _ Hun), zsum_app. lia.
  - intros op Hop. eapply op_asked_mono; [done|exact Hsub|]. by apply iv_ops0.
  - intros n c [Hn|[Hge Hn]]%lookup_app_Some; [eapply auth_asked_mono; [done|exact Hsub|]; by apply iv_auths0|].
    rewrite El. replace n with (length (av_auths s) + (n - length (av_auths s)))%nat by lia. by eapply Hnew.
  - intros f Hf. rewrite El. apply elem_of_app. by right.
  - intros id owner Ho. destruct (iv_owners0 id owner Ho) as (ag & hs & ? & ?). exists ag, hs. split; [done|].
    by eapply identity_mono.
Qed.

Lemma inv_ask_helper t1 t2 req w header cred g x s :
  inv g x [] [] s → work_asked es w req → ap_helper_enabled cfg = true →
  find_header (ap_credential_header cfg) (q_headers req) = Some cred →
  (ap_header_enabled cfg = true → ∃ h, find_header (ap_header_name cfg) (q_headers req) = Some h ∧
     IsValidUuidString h = true ∧ header = Some (str h)) →
  runs ok (a ← resolve PC NC acfg t1 t2 (str cred) (length (av_auths s)) (av_auth s);
           deliver_answers uuid_of bad (length (ac_log (av_auth s))) (set_auth a (keep_auth (mkAuthCtx w header) s)))
    (inv (g ++ work_origin w) (x + work_order w) [] []).
Proof.
  intros H Hw Hon Hcred Hh. destruct (iv_auth _ _ _ _ _ _ _ _ H) as [Hc Hb].
  set (n := length (av_auths s)) in *. set (e := Resolves t1 t2 (str cred) n).
  pose proof (auth_step_ok PC NC acfg e (av_auth s) Hc Hb) as Hrun.
  change (resolve PC NC acfg t1 t2 (str cred) n (av_auth s)) with (auth_step PC NC acfg (av_auth s) e).
  destruct (auth_step PC NC acfg (av_auth s) e) as [a|] eqn:E; [|by destruct Hrun]. clear Hrun. rename E into Hrun.
  cbn [mbind res_bind]. apply inv_resolve.
  pose proof (inv_auth_step [mkAuthCtx w header] e a g x s (set_auth a (keep_auth (mkAuthCtx w header) s)) H Hrun) as H1.
  simpl in H1. rewrite app_nil_r, Z.add_0_r in H1. apply H1; [done|done|].
  intros l i c Hl [-> <-]%list_lookup_singleton_Some. exists req, cred. split_and!; try done.
  unfold calls in *. rewrite omap_app, Hl. rewrite Nat.add_0_r. set_solver.
Qed.

Lemma inv_authenticate t1 t2 req w g x s :
  inv g x [] [] s → work_asked es w req →
  runs ok (authenticate acfg cfg uuid_of bad t1 t2 req w s) (inv (g ++ work_origin w) (x + work_order w) [] []).
Proof.
  intros H Hw. unfold authenticate.
  destruct (negb (ap_header_enabled cfg) && negb (ap_helper_enabled cfg)) eqn:Eoff.
  { bool_split. apply inv_authenticated; [done|]. intros _. exists req. split; [done|].
    split_and!; [congruence|congruence|done]. }
  match goal with |- context [match ?v with Some header => _ | None => authenticated _ _ _ _ _ _ _ _ end] =>
    destruct v as [header|] eqn:Ehd end; [|by apply inv_authenticated].
  assert (ap_header_enabled cfg = true → ∃ h, find_header (ap_header_name cfg) (q_headers req) = Some h ∧
     IsValidUuidString h = true ∧ header = Some (str h)) as Hh.
  { intros Hon. rewrite Hon in Ehd. destruct (find_header _ _) as [h|]; [|done].
    destruct (IsValidUuidString h) eqn:Ev; [|done]. injection Ehd as <-. by exists h. }
  destruct (ap_helper_enabled cfg) eqn:Ehp; cbn [negb].
  - destruct (find_header (ap_credential_header cfg) (q_headers req)) as [[|c cred]|] eqn:Ec;
      [by apply inv_authenticated| |by apply inv_authenticated].
    by apply (inv_ask_helper t1 t2 req w header (c :: cred) g x s).
  - apply inv_authenticated; [done|]. intros _. exists req. split; [done|]. cbn [negb andb] in Eoff. bool_split.
    split_and!; [|congruence|].
    + intros Hon. destruct (Hh Hon) as (h & ? & ? & ->). by exists h.
    + intros Hoff. by rewrite Hoff in Eoff.
Qed.
End Inv.
