(* ===== verification/AppServerProps.v ===== *)
(** * Properties of the server application

    The invariant holds after every event; what it says of sessions; the
    defects. *)

From S2P Require Import Prelude.
From S2P Require Import Order.
From S2P Require Import Book.
From S2P Require Import BookFlow.
From S2P Require Import BookEmit.
From S2P Require Import MatchingEngine.
From S2P Require Import EngineTotal.
From S2P Require Import Bytes.
From S2P Require Import HelperCodec.
From S2P Require Import HttpParser.
From S2P Require Import HttpMessage.
From S2P Require Import TokenCache.
From S2P Require Import TradingEngine.
From S2P Require Import TradingFifo.
From S2P Require Import TradingLive.
From S2P Require Import Uuid.
From S2P Require Import AuthClient.
From S2P Require Import OrderForm.
From S2P Require Import AppLogs.
From S2P Require Import AppServer.
From S2P Require Import AppServerInv.

(** Ingress messages refused for their user: counted as rejected but not as
    received. *)
Definition uncounted (e : app_event) : Z :=
  match e with
  | IngressArrives _ m _ =>
      match FormGet (ingress_form m) (lit "user") with
      | Some user => if IsValidUuidString user then 0 else 1
      | None => 1
      end
  | _ => 0
  end.

Section Server.
Context {PC NC : CredentialCache} (acfg : AuthConfig) (cfg : AppConfig) (uuid_of : nat → string).
Context (m0 : MatchingEngine) (mem : nat).
Implicit Types s : AppServer PC NC.

(** What an event must promise for the server to return: numbers of at most
    eighteen digits in forms and deadlines, well-formed replies from a storage helper that is there, and
    no market-data subscriber among the sockets that fail. *)
Definition event_ok s (x : gset Z * app_event) : Prop :=
  (∀ sym conns id, av_subscribers s !! sym = Some conns → is_Some (conns !! id) → id ∉ x.1) ∧
  match x.2 with
  | HttpArrives _ req _ _ _ _ => short_numbers (ParseForm (q_body req))
  | WsArrives _ _ payload _ => short_numbers (ParseForm payload)
  | IngressArrives _ m _ => short_numbers (ingress_form m)
  | AuthReplies _ _ m _ _ _ => nanos_fit m
  | StorageReplies k r => op_ok (av_engine s) (TReply k r)
  | StorageDies => False
  | _ => True
  end.

Section Handlers.
Context (ok : Prop) (bad : gset Z) (es : list (gset Z * app_event)).
Notation inv := (Inv acfg cfg m0 mem ok bad es).

Lemma inv_z g x y la le s : inv g x la le s → x = y → inv g y la le s.
Proof. by intros ? <-. Qed.

Lemma inv_parse form g x s (f : string + Symbol * Order → res (AppServer PC NC)) Q :
  (ok → short_numbers form) → inv g x [] [] s →
  (∀ r, ParseOrderForm form = Ok r → runs ok (f r) Q) → runs ok (r ← ParseOrderForm form; f r) Q.
Proof.
  intros Hs H Hf. destruct (ParseOrderForm form) as [r|] eqn:E; [by apply Hf|].
  intros Hok. destruct (short_form_parses form (Hs Hok)) as [r Hr]. congruence.
Qed.

Lemma inv_handle_submit t1 t2 backlog req r g x s :
  inv g x [] [] s → http_seen es r req → (ok → short_numbers (ParseForm (q_body req))) →
  runs ok (handle_submit acfg cfg uuid_of bad t1 t2 backlog req r s) (inv (g ++ [FromHttp r]) x [] []).
Proof.
  intros H Hr Hs. unfold handle_submit. apply (inv_count _ _ _ _ _ _ _ Received 1) in H. simpl in H.
  case_match.
  - apply inv_respond. apply (inv_count _ _ _ _ _ _ _ Backpressure 1) in H. eapply inv_z; [done|]. simpl. lia.
  - eapply inv_parse; [done|done|]. intros [err|[sym o]] E.
    + apply inv_respond. apply (inv_count _ _ _ _ _ _ _ Rejected 1) in H. eapply inv_z; [done|]. simpl. lia.
    + eapply runs_mono; [by apply (inv_authenticate _ _ _ _ _ _ _ _ t1 t2 req (WorkSubmit r sym o) _ _ _ H)|].
      intros s' Hs'. eapply inv_z; [done|]. simpl. lia.
Qed.

Lemma inv_handle_cancel t1 t2 req r g x s :
  inv g x [] [] s → http_seen es r req →
  runs ok (handle_cancel acfg cfg uuid_of bad t1 t2 req r s) (inv (g ++ [FromHttp r]) x [] []).
Proof.
  intros H Hr. unfold handle_cancel.
  destruct (FormGet (ParseForm (q_body req)) (lit "order")) as [handle|] eqn:E; [|by apply inv_respond].
  destruct (IsValidUuidString handle) eqn:Ev; [|by apply inv_respond].
  eapply runs_mono; [apply (inv_authenticate _ _ _ _ _ _ _ _ t1 t2 req (WorkCancel r (str handle)) _ _ _ H)|].
  - split; [done|]. by exists handle.
  - intros s' Hs'. eapply inv_z; [done|]. simpl. lia.
Qed.

Lemma inv_handle_auction req g x s :
  inv g x [] [] s → runs ok (handle_auction bad req s) (λ y, inv g x [] [] y.2).
Proof.
  intros H. unfold handle_auction.
  destruct (FormGet (ParseForm (q_body req)) (lit "symbol")) as [[|c sym]|]; [done| |done].
  destruct (FormGet (ParseForm (q_body req)) (lit "phase")) as [phase|]; [|done].
  destruct (bool_decide (phase = lit "open") || bool_decide (phase = lit "close")); [|done].
  set (opening := bool_decide (phase = lit "open")). set (sy := str (c :: sym)).
  destruct (run_auction sy opening (av_engine s)) as [[ts te]|] eqn:E.
  - cbn [mbind res_bind].
    assert (inv g x [] [] (set_engine te [TAuction sy opening] s)) as H1.
    { eapply inv_engine_quiet; try done; [simpl; by rewrite E|by eapply same_queue_run_auction|].
      intros Hok. destruct (iv_live _ _ _ _ _ _ _ _ _ _ _ _ H Hok) as [HL Hh].
      destruct (run_auction_ok sy opening _ HL Hh) as (ts' & te' & E' & ?). rewrite E in E'. by injection E' as <- <-. }
    apply (inv_count _ _ _ _ _ _ _ Auctions 1), (inv_count _ _ _ _ _ _ _ Trades (Z.of_nat (length ts))) in H1.
    simpl in H1. rewrite !Z.sub_0_r in H1. apply runs_bind. eapply runs_mono; [by apply inv_broadcast|]. done.
  - intros Hok. destruct (iv_live _ _ _ _ _ _ _ _ _ _ _ _ H Hok) as [HL Hh].
    destruct (run_auction_ok sy opening _ HL Hh) as (ts' & te' & E' & ?). by rewrite E in E'.
Qed.

(** ** The router *)

(** A handler answers the request [r], at once or later. *)
Definition serves (r : nat) (g : list Origin) (x : Z) s (req : HttpRequest) (h : Handler (res (AppServer PC NC))) : Prop :=
  match h with
  | SyncHandler f => runs ok (f req (Ok s)).2 (inv g x [] [])
  | AsyncHandler f => (f req (Ok s)).1 = None ∧ runs ok (f req (Ok s)).2 (inv (g ++ [FromHttp r]) x [] [])
  end.

Lemma inv_dispatch routes r g x s req :
  inv g x [] [] s → Forall (λ e, serves r g x s req (en_handler e)) routes →
  runs ok (let '(resp, a) := dispatch routes req (Ok s) in
           s ← a; Ok (match resp with Some y => respond r y s | None => s end)) (inv (g ++ [FromHttp r]) x [] []).
Proof.
  intros H Hr. unfold dispatch. generalize false. induction Hr as [|e routes He _ IH]; intros matched; cbn [route_loop].
  - by apply inv_respond.
  - destruct (negb _); [apply IH|]. destruct (bool_decide _); [|apply IH].
    destruct (en_handler e) as [f|f]; simpl in He; destruct (f req (Ok s)) as [resp a]; simpl in He; apply runs_bind.
    + eapply runs_mono; [exact He|]. intros s' H'. by apply inv_respond.
    + destruct He as [-> He]. by eapply runs_mono; [exact He|].
Qed.

Lemma serves_sync f r g x s req :
  runs ok (f req s) (λ y, inv g x [] [] y.2) → serves r g x s req (SyncHandler (sync_route f)).
Proof. unfold serves, sync_route. cbn [mbind res_bind]. by destruct (f req s) as [[resp s']|]. Qed.

Lemma serves_add r g x s req method path h routes :
  Forall (λ e, serves r g x s req (en_handler e)) routes → serves r g x s req h →
  Forall (λ e, serves r g x s req (en_handler e)) (routes ++ [HttpMessage.mkEntry method path h]).
Proof. intros Hr Hh. apply Forall_app. split; [done|]. by apply Forall_singleton. Qed.

Lemma inv_handle_http t1 t2 backlog dropped r req g x s :
  inv g x [] [] s → http_seen es r req → (ok → short_numbers (ParseForm (q_body req))) →
  runs ok (handle_http acfg cfg uuid_of bad t1 t2 backlog dropped r req s) (inv (g ++ [FromHttp r]) x [] []).
Proof.
  intros H Hr Hs. apply inv_dispatch; [done|]. unfold setup_routes. cbv zeta.
  assert (∀ f, serves r g x s req (SyncHandler (sync_route (λ req s, Ok (f req s, s))))) as Hpure.
  { intros f. by apply serves_sync. }
  match goal with |- context [add_sync (lit "POST") (lit "/auction") ?f ?l] =>
    assert (Forall (λ e, serves r g x s req (en_handler e)) (add_sync (lit "POST") (lit "/auction") f l)) as Hall end.
  { apply serves_add; [|by apply serves_sync, inv_handle_auction]. apply serves_add; [|apply (Hpure handle_book)].
    apply serves_add; [|split; [done|by apply inv_handle_cancel]].
    apply serves_add; [|split; [done|by apply inv_handle_submit]].
    apply serves_add; [constructor|apply (Hpure (λ _ _, plain_text 200 (lit "ok")))]. }
  destruct (ap_metrics_enabled cfg); [|exact Hall]. apply serves_add; [exact Hall|].
  apply (Hpure (λ _ s, handle_metrics backlog dropped s)).
Qed.

(** ** WebSocket frames *)

Lemma inv_subscription subs g x s :
  inv g x [] [] s → Inv acfg cfg m0 mem ok ∅ es g x [] [] (set_conns subs (av_conn_owner s) (av_conn_perframe s) s).
Proof. by intros []. Qed.
Lemma inv_any_socket g x s : inv g x [] [] s → Inv acfg cfg m0 mem ok ∅ es g x [] [] s.
Proof. by intros []. Qed.

Lemma frame_owner_ok payload id owner g x s :
  inv g x [] [] s → frame_owner (ParseForm payload) id s = inr owner →
  frame_identity cfg es (ac_log (av_auth s)) id payload owner.
Proof.
  intros [] . unfold frame_owner. case_decide as Hp.
  - destruct (FormGet _ _) as [user|] eqn:E; [|done]. destruct (IsValidUuidString user) eqn:Ev; [|done].
    intros [= <-]. right. destruct (iv_perframe id Hp) as (hs & ? & ?). exists hs. split_and!; try done. by exists user.
  - destruct (av_conn_owner s !! id) as [u|] eqn:E; [|done]. intros [= <-]. left. eauto.
Qed.

Lemma inv_ws_order backlog fd id payload g x s :
  inv g x [] [] s → frame_seen es fd id payload → (ok → short_numbers (ParseForm payload)) →
  runs ok (ws_order cfg uuid_of bad backlog fd id (ParseForm payload) s) (inv (g ++ [FromWs fd id]) x [] []).
Proof.
  intros H Hf Hs. unfold ws_order. apply (inv_count _ _ _ _ _ _ _ Received 1) in H. simpl in H.
  eapply inv_parse; [done|done|]. intros [err|[sym o]] E.
  { apply inv_answer_ws. apply (inv_count _ _ _ _ _ _ _ Rejected 1) in H. eapply inv_z; [done|]. simpl. lia. }
  case_match.
  { apply inv_answer_ws. apply (inv_count _ _ _ _ _ _ _ Backpressure 1) in H. eapply inv_z; [done|]. simpl. lia. }
  destruct (frame_owner _ _ _) as [err|owner] eqn:Eo.
  - apply inv_answer_ws. apply (inv_count _ _ _ _ _ _ _ Rejected 1) in H. eapply inv_z; [done|]. simpl. lia.
  - eapply runs_mono; [eapply inv_submit_order; [exact H|by eapply form_ok|]|].
    + exists payload. split_and!; try done. by eapply frame_owner_ok.
    + intros s' Hs'. eapply inv_z; [done|]. simpl. lia.
Qed.

Lemma inv_handle_ws_message backlog fd id payload g x s :
  inv g x [] [] s → frame_seen es fd id payload → (ok → short_numbers (ParseForm payload)) →
  runs ok (handle_ws_message cfg uuid_of bad backlog fd id payload s)
    (Inv acfg cfg m0 mem ok ∅ es (g ++ [FromWs fd id]) x [] []).
Proof.
  intros H Hf Hs. unfold handle_ws_message. apply (inv_count _ _ _ _ _ _ _ WsMessages 1) in H. simpl in H.
  rewrite Z.sub_0_r in H.
  assert (runs ok (ws_order cfg uuid_of bad backlog fd id (ParseForm payload) (count WsMessages 1 s))
            (Inv acfg cfg m0 mem ok ∅ es (g ++ [FromWs fd id]) x [] [])) as Horder.
  { eapply runs_mono; [by apply inv_ws_order|]. intros s' H'. by apply inv_any_socket. }
  destruct (FormGet _ (lit "action")) as [action|]; [|done].
  destruct (FormGet _ (lit "symbol")) as [[|c sym]|]; [by apply inv_answer_ws, inv_any_socket| |by apply inv_answer_ws, inv_any_socket].
  case_bool_decide; [by apply inv_answer_ws, inv_subscription|].
  case_bool_decide; [by apply inv_answer_ws, inv_subscription|done].
Qed.

Lemma inv_on_ws_open t1 t2 id aggregator handshake g x s :
  inv g x [] [] s → open_seen es id aggregator handshake →
  runs ok (on_ws_open acfg cfg uuid_of bad t1 t2 id aggregator handshake s) (inv g x [] []).
Proof.
  intros H Ho. unfold on_ws_open. destruct (aggregator && negb (auth_provided cfg handshake)) eqn:E.
  - bool_split. subst. apply inv_conns; [done|..]; destruct H; [done| |done].
    intros i [->%elem_of_singleton|Hi]%elem_of_union; [by exists handshake|by apply iv_perframe].
  - eapply runs_mono; [apply (inv_authenticate _ _ _ _ _ _ _ _ t1 t2 handshake (WorkOpen id) _ _ _ H)|].
    + by exists aggregator.
    + intros s' Hs'. simpl in Hs'. rewrite app_nil_r in Hs'. eapply inv_z; [done|]. lia.
Qed.

(** ** Ingress *)

Lemma inv_reply_ingress k m g x s : inv g x [] [] s → inv (g ++ [FromIngress k]) x [] [] (reply_ingress k m s).
Proof. exact (inv_output _ _ _ _ _ _ _ (Answer (FromIngress k) (PMsg m)) g x [] [] s). Qed.
Lemma inv_fail_ingress k err g x s : inv g x [] [] s → inv (g ++ [FromIngress k]) x [] [] (fail_ingress k err s).
Proof. apply inv_reply_ingress. Qed.

Lemma inv_handle_ingress backlog k m g x s :
  inv g x [] [] s → ingress_seen es k m → (ok → short_numbers (ingress_form m)) →
  runs ok (handle_ingress cfg uuid_of bad backlog k m s)
    (inv (g ++ [FromIngress k]) (x + uncounted (IngressArrives k m backlog)) [] []).
Proof.
  intros H Hk Hs. unfold handle_ingress. change (ParseForm _) with (ingress_form m). unfold uncounted.
  destruct (FormGet (ingress_form m) (lit "user")) as [user|] eqn:Eu;
    [destruct (IsValidUuidString user) eqn:Ev|].
  2-3: apply inv_fail_ingress; apply (inv_count _ _ _ _ _ _ _ Rejected 1) in H; eapply inv_z; [done|]; simpl; lia.
  assert (form_names (ingress_form m) "user" (str user)) as Huser by (by exists user).
  rewrite Z.add_0_r. case_bool_decide.
  - apply (inv_count _ _ _ _ _ _ _ Cancels 1) in H. simpl in H. rewrite Z.sub_0_r in H.
    destruct (FormGet (ingress_form m) (lit "order")) as [handle|] eqn:Eh;
      [destruct (IsValidUuidString handle) eqn:Ev'|].
    2-3: apply inv_fail_ingress; apply (inv_count _ _ _ _ _ _ _ CancelsFailed 1) in H; eapply inv_z; [done|]; simpl; lia.
    apply runs_bind. eapply runs_mono; [eapply inv_cancel_order; [exact H|]|].
    + right. exists k, m. split_and!; try done. by exists handle.
    + intros [c s'] H'. by apply inv_reply_ingress.
  - apply (inv_count _ _ _ _ _ _ _ Received 1) in H. simpl in H. case_match.
    { apply inv_fail_ingress. apply (inv_count _ _ _ _ _ _ _ Backpressure 1) in H. eapply inv_z; [done|]. simpl. lia. }
    eapply inv_parse; [done|done|]. intros [err|[sym o]] E.
    { apply inv_fail_ingress. apply (inv_count _ _ _ _ _ _ _ Rejected 1) in H. eapply inv_z; [done|]. simpl. lia. }
    eapply runs_mono; [eapply inv_submit_order; [exact H|by eapply form_ok|by exists m]|].
    intros s' Hs'. eapply inv_z; [done|]. lia.
Qed.

(** ** Replies of the storage helper *)

Lemma inv_engine_event op g x s :
  inv g x [] [] s → submissions [op] = [] → op_asked cfg es (ac_log (av_auth s)) (av_submits s) op →
  (ok → op_ok (av_engine s) op) →
  runs ok (te ← run_trading (av_engine s) op; deliver_results bad (length (t_log (av_engine s))) (set_engine te [op] s))
    (inv g x [] []).
Proof.
  intros H Hsub Hop Hok. destruct (run_trading (av_engine s) op) as [te|] eqn:E.
  - cbn [mbind res_bind]. apply inv_deliver.
    pose proof (inv_engine_step _ _ _ _ _ _ _ [] op te g x [] s (set_engine te [op] s) H E) as H1.
    rewrite Hsub, !app_nil_r, Z.add_0_r in H1. apply H1; try done; [by split_and!; simpl; rewrite ?app_nil_r|].
    intros Hok'. destruct (iv_live _ _ _ _ _ _ _ _ _ _ _ _ H Hok') as [HL Hh].
    destruct (run_trading_ok _ op HL Hh) as (te' & E' & ?); [by eapply inv_none|auto|]. rewrite E in E'. by injection E' as <-.
  - intros Hok'. destruct (iv_live _ _ _ _ _ _ _ _ _ _ _ _ H Hok') as [HL Hh].
    destruct (run_trading_ok _ op HL Hh) as (te' & E' & ?); [by eapply inv_none|auto|]. congruence.
Qed.

(** ** Replies of the authentication helpers *)

Lemma inv_auth_event k b m t t1 t2 g x s :
  inv g x [] [] s → (ok → nanos_fit m) →
  runs ok (a ← auth_step PC NC acfg (av_auth s) (Replies k b m t t1 t2);
           deliver_answers uuid_of bad (length (ac_log (av_auth s))) (set_auth a s)) (inv g x [] []).
Proof.
  intros H Hm. destruct (iv_auth _ _ _ _ _ _ _ _ _ _ _ _ H) as [Hc Hb].
  pose proof (auth_step_ok PC NC acfg (Replies k b m t t1 t2) _ Hc Hb) as Hstep.
  destruct (auth_step PC NC acfg (av_auth s) (Replies k b m t t1 t2)) as [a|] eqn:E;
    [|intros Hok; exact (Hstep (Hm Hok))]. cbn [mbind res_bind].
  apply inv_resolve. pose proof (inv_auth_step _ _ _ _ _ _ _ [] _ a g x s (set_auth a s) H E) as H1.
  simpl in H1. rewrite app_nil_r, Z.add_0_r in H1. apply H1; try done. by split_and!; simpl; rewrite ?app_nil_r.
Qed.

Lemma inv_helper_dies idx g x s :
  inv g x [] [] s →
  runs ok (a ← auth_step PC NC acfg (av_auth s) (HelperDies idx); Ok (set_auth a s)) (inv g x [] []).
Proof.
  intros H. destruct (auth_step PC NC acfg (av_auth s) (HelperDies idx)) as [a|] eqn:E; [|done].
  pose proof (inv_auth_step _ _ _ _ _ _ _ [] _ a g x s (set_auth a s) H E) as H1. simpl in H1.
  rewrite app_nil_r, Z.add_0_r in H1. injection E as E.
  assert (ac_log a = ac_log (av_auth s)) as El by (by rewrite <-E). rewrite El, drop_all in H1.
  apply H1; try done. by split_and!; simpl; rewrite ?app_nil_r.
Qed.
End Handlers.

(** ** Events and sessions *)

Lemma inv_mono (ok ok' : Prop) bad es x g z s :
  Inv acfg cfg m0 mem ok ∅ es g z [] [] s → (ok' → ok) →
  (ok' → ∀ sym conns id, av_subscribers s !! sym = Some conns → is_Some (conns !! id) → id ∉ bad) →
  Inv acfg cfg m0 mem ok' bad (es ++ [x]) g z [] [] s.
Proof.
  intros [] Hok Hsubs. pose proof (seen_app es x) as He.
  assert (∀ f : AuthEffect, f ∈ ac_log (av_auth s) → f ∈ ac_log (av_auth s)) as Hl by done.
  split; try done; [by auto|..].
  - intros op Hop. eapply op_asked_mono; [exact He|exact Hl|by apply iv_ops].
  - intros n c Hn. eapply auth_asked_mono; [exact He|exact Hl|by apply iv_auths].
  - intros id owner Ho. destruct (iv_owners id owner Ho) as (a & hs & ? & ?). exists a, hs. split; [|done].
    by eapply open_mono.
  - intros id Hid. destruct (iv_perframe id Hid) as (hs & ? & ?). exists hs. split; [|done]. by eapply open_mono.
Qed.

Lemma inv_step (ok ok' : Prop) es g z s x :
  Inv acfg cfg m0 mem ok ∅ es g z [] [] s → (ok' → ok ∧ event_ok s x) →
  runs ok' (app_step acfg cfg uuid_of s x)
    (Inv acfg cfg m0 mem ok' ∅ (es ++ [x]) (g ++ event_asks x.2) (z + uncounted x.2) [] []).
Proof.
  intros H Hok. destruct x as [bad e].
  assert (Inv acfg cfg m0 mem ok' bad (es ++ [(bad, e)]) g z [] [] s) as H1.
  { eapply inv_mono; [done|by intros []%Hok|]. by intros [_ []]%Hok. }
  assert (seen (es ++ [(bad, e)]) e) as He by (exists bad; set_solver).
  assert (ok' → event_ok s (bad, e)) as Hev by (by intros []%Hok). clear H Hok. unfold event_ok in Hev. simpl in Hev.
  assert (∀ f : res (AppServer PC NC), runs ok' f (Inv acfg cfg m0 mem ok' bad (es ++ [(bad, e)]) (g ++ event_asks e) (z + uncounted e) [] []) →
    runs ok' f (Inv acfg cfg m0 mem ok' ∅ (es ++ [(bad, e)]) (g ++ event_asks e) (z + uncounted e) [] [])) as Hany.
  { intros f Hf. eapply runs_mono; [exact Hf|]. intros s'. apply inv_any_socket. }
  simpl. destruct e as [r req t1 t2 backlog dropped|id ag hs t1 t2|fd id payload backlog|id|k m backlog|k b m t t1 t2|idx|k r| | |backlog];
    cbn [app_step event_asks uncounted] in *.
  - apply Hany. rewrite Z.add_0_r. apply inv_handle_http; [done|by exists t1, t2, backlog, dropped|by intros []%Hev].
  - apply Hany. rewrite Z.add_0_r, app_nil_r. apply inv_on_ws_open; [done|by exists t1, t2].
  - rewrite Z.add_0_r. apply inv_handle_ws_message; [done|by exists backlog|by intros []%Hev].
  - apply Hany. rewrite Z.add_0_r, app_nil_r. by apply inv_closed.
  - apply Hany. apply inv_handle_ingress; [done|by exists backlog|by intros []%Hev].
  - apply Hany. rewrite Z.add_0_r, app_nil_r. apply inv_auth_event; [done|by intros []%Hev].
  - apply Hany. rewrite Z.add_0_r, app_nil_r. by apply inv_helper_dies.
  - apply Hany. rewrite Z.add_0_r, app_nil_r. apply (inv_engine_event _ _ _ (TReply k r)); [done..|by intros []%Hev].
  - apply Hany. rewrite Z.add_0_r, app_nil_r. apply inv_engine_quiet; try done.
    + unfold helper_dies. eauto with queue.
    + by intros []%Hev.
  - apply Hany. rewrite Z.add_0_r, app_nil_r. by apply (inv_engine_event _ _ _ TSeed).
  - apply Hany. rewrite Z.add_0_r, app_nil_r. unfold on_timer. simpl. case_match; [|done]. apply inv_engine_quiet; try done.
    + by apply same_queue_tell.
    + intros Hok. destruct (iv_live _ _ _ _ _ _ _ _ _ _ _ _ H1 Hok) as [HL Hh].
      destruct (Live_still _ (commit (av_engine s)) HL (still_tell _ _)). auto.
Qed.

Lemma inv_new (ok : Prop) :
  (ok → engine_reachable m0 ∧ e_mem_levels m0 = mem ∧ e_books m0 = ∅) →
  Inv acfg cfg m0 mem ok ∅ [] [] 0 [] [] (new_app acfg m0 mem : AppServer PC NC).
Proof.
  intros Hok. split; try done.
  - intros (H1 & H2 & H3)%Hok. split; [by apply Live_new|done].
  - split; [apply Create_core|by intros []].
  - intros op Hop. by apply elem_of_nil in Hop.
Qed.

Lemma inv_session es s :
  app_session acfg cfg uuid_of m0 mem es = Ok s →
  Inv acfg cfg m0 mem False ∅ es (asks es) (zsum (λ x, uncounted x.2) es) [] [] s.
Proof.
  unfold app_session. revert s. induction es as [|x es IH] using rev_ind; intros s.
  { intros [= <-]. by apply inv_new. }
  rewrite res_foldl_app. intros (s1 & H1 & H2)%bind_Ok. cbn [res_foldl] in H2. apply bind_Ok in H2 as (s2 & H2 & [= <-]).
  pose proof (inv_step False False es _ _ s1 x (IH s1 H1)) as H3. rewrite H2 in H3.
  unfold asks in *. rewrite bind_app, zsum_app. simpl. rewrite app_nil_r, Z.add_0_r. by apply H3.
Qed.

(** Sessions in which every event keeps its promise. *)
Inductive app_run : list (gset Z * app_event) → AppServer PC NC → Prop :=
  | ar_new : engine_reachable m0 → e_mem_levels m0 = mem → e_books m0 = ∅ → app_run [] (new_app acfg m0 mem)
  | ar_step es s x s' : app_run es s → event_ok s x → app_step acfg cfg uuid_of s x = Ok s' → app_run (es ++ [x]) s'.

Lemma inv_run es s :
  app_run es s → ∃ g z, Inv acfg cfg m0 mem True ∅ es g z [] [] s.
Proof.
  induction 1 as [H1 H2 H3|es s x s' _ (g & z & H) Hx Hs].
  - exists [], 0. by apply inv_new.
  - pose proof (inv_step True True es g z s x H) as H'. rewrite Hs in H'. eexists _, _. by apply H'.
Qed.

(** ** What holds of sessions *)

(** C23: the server survives. From the start, as long as every event keeps its
    promise ([event_ok]: numbers of at most eighteen digits in forms and
    deadlines; a storage helper that lives and whose pulled orders are well
    formed, as in [pulled_ok]; no market-data subscriber whose socket fails),
    every request, frame, ingress message, handshake, close, reply, failure of
    an authentication helper and timer is handled: no handler throws, overflows
    while reading a number, runs out of fuel or uses an invalidated iterator,
    and the matching engine stays reachable through its interface. Sums of
    quantities are unbounded integers here and memory is assumed; in the code a
    level's total can overflow, see [level_total_exceeds_64_bits]. *)
Theorem server_total es s x :
  app_run es s → event_ok s x →
  ∃ s', app_step acfg cfg uuid_of s x = Ok s' ∧ app_run (es ++ [x]) s' ∧ engine_reachable (t_matching (av_engine s')).
Proof.
  intros Hr Hx. destruct (inv_run es s Hr) as (g & z & H).
  pose proof (inv_step True True es g z s x H) as H'. destruct (app_step acfg cfg uuid_of s x) as [s'|] eqn:E.
  - exists s'. split_and!; [done|by eapply ar_step|]. by apply (iv_live _ _ _ _ _ _ _ _ _ _ _ _ (H' (λ _, conj I Hx))).
  - exfalso. by apply H'.
Qed.

(** C22: every request is answered once. In any session that has not crashed
    (any requests, replies in any order, helpers dying, sockets failing), the
    requests received over HTTP, WebSocket and ingress are, as a multiset, those
    answered, those whose sender is being authenticated, and those whose order
    waits in the engine's queue, which are as many as its pending placements. So
    no request is answered twice or dropped. Orders received, together with the
    ingress messages without a valid user (which the code counts as rejected but
    not as received), are as many as those accepted, rejected, shed or still
    open. *)
Theorem requests_answered_once es s :
  app_session acfg cfg uuid_of m0 mem es = Ok s →
  asks es ≡ₚ answered (av_out s) ++ (unresolved [] s ≫= work_origin) ++ (sc_origin <$> unplaced [] s) ∧
  length (unplaced [] s) = pending_placements (av_engine s) ∧
  mt_orders_received (av_metrics s) + zsum (λ x, uncounted x.2) es =
    mt_orders_accepted (av_metrics s) + mt_orders_rejected (av_metrics s) + mt_orders_backpressure (av_metrics s) +
    zsum work_order (unresolved [] s) + Z.of_nat (pending_placements (av_engine s)).
Proof.
  intros H%inv_session. pose proof (callbacks_in_order _ _ _ _ _ (iv_engine _ _ _ _ _ _ _ _ _ _ _ _ H)
    (iv_cbs _ _ _ _ _ _ _ _ _ _ _ _ H)) as (_ & _ & Hn).
  assert (length (unplaced [] s) = pending_placements (av_engine s)) as Hlen.
  { unfold unplaced, pending_placements. simpl. rewrite length_drop. lia. }
  split_and!; [apply H|done|]. pose proof (iv_ledger _ _ _ _ _ _ _ _ _ _ _ _ H) as Hl. unfold balance in Hl. lia.
Qed.

(** C21: nobody trades as somebody else.  The trading engine's state is the
    result of the operations the server called on it, and every order among them
    was asked for by the request its result will be sent to, with the symbol and
    order of that request's form, and under the identity the configured
    mechanisms establish: the identity header if that is on, a helper's grant for
    the request's credential if that is on, both agreeing if both are, nobody if
    neither; for a frame, the identity of the connection's handshake, or the
    frame's own user on an aggregator connection that presented no identity; for
    an ingress message, its user.  Cancels were asked for the same way. *)
Theorem orders_authenticated es s :
  app_session acfg cfg uuid_of m0 mem es = Ok s →
  res_foldl run_trading (new_trading m0 mem) (av_ops s) = Ok (av_engine s) ∧
  (∀ sym owner o cb uuid, TSubmit sym owner o cb uuid ∈ av_ops s →
     ∃ n ctx, cb = Some n ∧ av_submits s !! n = Some ctx ∧ sc_symbol ctx = sym ∧
       order_asked cfg es (ac_log (av_auth s)) (sc_origin ctx) sym o owner) ∧
  (∀ handle requester, TCancel handle requester ∈ av_ops s →
     cancel_asked cfg es (ac_log (av_auth s)) handle requester).
Proof.
  intros H%inv_session. split; [apply H|].
  split; [intros sym owner o cb uuid Hin|intros handle requester Hin]; exact (iv_ops _ _ _ _ _ _ _ _ _ _ _ _ H _ Hin).
Qed.
End Server.

(** ** A session

    Authentication by helper, two helpers of one request each.  Two orders with
    one token, one with a token that is refused, a frame from a connection whose
    handshake carried the good token, an ingress message without a user, an
    unknown path. *)
Definition sample_cfg : AppConfig := mkAppConfig false (lit "x-user") true (lit "authorization") 100 true (lit "/metrics").
Definition anonymous_cfg : AppConfig := mkAppConfig false (lit "x-user") false (lit "authorization") 100 true (lit "/metrics").
Definition sample_cache : CredentialCache := token_cache 10 0 4.
Definition sample_uuid (n : nat) : string := str (to_dec (Z.of_nat n)).
Definition sample_app (cfg : AppConfig) (es : list (gset Z * app_event)) : res (AppServer sample_cache sample_cache) :=
  app_session sample_config cfg sample_uuid unbounded_engine 0 es.

Definition with_token (method path token body : string) : HttpRequest :=
  mkRequest (lit method) (lit path) (lit path) [] 1 [mkHeader (lit "Authorization") (lit token)] (lit body) true.
Definition sell : string := "symbol=A&side=sell&type=limit&qty=5&price=100".
Definition buy : string := "symbol=A&side=buy&type=limit&qty=2&price=100".
Definition quietly (e : app_event) : gset Z * app_event := (∅, e).

Definition sample_events : list (gset Z * app_event) := quietly <$>
  [ HttpArrives 1 (with_token "POST" "/orders" "tok" sell) 0 0 0 0;
    HttpArrives 2 (with_token "POST" "/orders" "tok" sell) 1 1 0 0;
    HttpArrives 3 (with_token "POST" "/orders" "bad" sell) 2 2 0 0;
    HttpArrives 4 (with_token "GET" "/nope" "tok" "") 3 3 0 0;
    AuthReplies 0 true (grant alice "900") 10 10 10;
    WsOpens 7 false (with_token "GET" "/" "tok" "") 11 11;
    WsArrives 40 7 (lit "action=subscribe&symbol=A") 0;
    WsArrives 40 7 (lit buy) 0;
    AuthReplies 0 true refuse 20 20 20;
    IngressArrives 5 (mkMessage 1 (lit "submit") [(lit "form", lit sell)]) 0;
    StorageReplies 0 acked; StorageReplies 0 acked ].

(** What a session answered, to whom it published, for whom it traded, what it
    left open. *)
Record Summary := mkSummary {
  su_answered : list Origin; su_published : list Z; su_metrics : Metrics; su_pending : nat; su_owners : list string;
}.
Definition summarise (s : AppServer sample_cache sample_cache) : Summary :=
  mkSummary (answered (av_out s)) (omap (λ y, match y with Publish _ id _ => Some id | _ => None end) (av_out s))
    (av_metrics s) (pending_placements (av_engine s)) (sb_owner <$> submissions (av_ops s)).
Definition summary (x : res (AppServer sample_cache sample_cache)) : fault + Summary :=
  match x with Ok s => inr (summarise s) | Err e => inl e end.

Definition sample_summary : Summary :=
  mkSummary [FromHttp 4; FromWs 40 7; FromHttp 3; FromIngress 5; FromHttp 1] [7]
    (mkMetrics 4 1 2 0 0 0 0 0 2) 2 [alice; alice; alice].

Lemma sample_runs : summary (sample_app sample_cfg sample_events) = inr sample_summary.
Proof. by vm_compute. Qed.
Lemma sample_final : ∃ s, sample_app sample_cfg sample_events = Ok s ∧ summarise s = sample_summary.
Proof.
  pose proof sample_runs as H. destruct (sample_app sample_cfg sample_events) as [s|]; [|done].
  exists s. split; [reflexivity|]. exact (inj inr _ _ H).
Qed.

Lemma requests_answered_once_witness :
  ∃ s, sample_app sample_cfg sample_events = Ok s ∧ summarise s = sample_summary ∧
    asks sample_events ≡ₚ answered (av_out s) ++ (unresolved [] s ≫= work_origin) ++ (sc_origin <$> unplaced [] s).
Proof.
  destruct sample_final as (s & E & H). exists s.
  destruct (requests_answered_once sample_config sample_cfg sample_uuid unbounded_engine 0 sample_events s E) as [Hp _].
  split; [exact E|]. split; [exact H|exact Hp].
Defined.

Lemma orders_authenticated_witness :
  ∃ s, sample_app sample_cfg sample_events = Ok s ∧ summarise s = sample_summary ∧
    res_foldl run_trading (new_trading unbounded_engine 0) (av_ops s) = Ok (av_engine s).
Proof.
  destruct sample_final as (s & E & H). exists s.
  destruct (orders_authenticated sample_config sample_cfg sample_uuid unbounded_engine 0 sample_events s E) as [Hp _].
  split; [exact E|]. split; [exact H|exact Hp].
Defined.

Lemma server_total_witness :
  let x := quietly (HttpArrives 1 (with_token "POST" "/orders" "tok" sell) 0 0 0 0) in
  let s0 := new_app sample_config unbounded_engine 0 : AppServer sample_cache sample_cache in
  event_ok s0 x ∧ ∃ s, app_step sample_config sample_cfg sample_uuid s0 x = Ok s ∧
    engine_reachable (t_matching (av_engine s)).
Proof.
  intros x s0. assert (event_ok s0 x) as Hx.
  { split; [by intros sym conns id|]. intros k v Hk Hv. apply Nat.leb_le.
    repeat (apply elem_of_cons in Hk as [->|Hk]; [vm_compute in Hv; injection Hv as <-; by vm_compute|]).
    by apply elem_of_nil in Hk. }
  split; [exact Hx|].
  destruct (server_total sample_config sample_cfg sample_uuid unbounded_engine 0 [] s0 x) as (s & Hs & _ & Hr);
    [|exact Hx|exists s; split; [exact Hs|exact Hr]].
  apply ar_new; [apply er_new|reflexivity|reflexivity].
Defined.

(** ** Defects *)

(** A market-data subscriber whose socket fails while a print is sent to it:
    closing it erases the element of the map the loop stands on. *)
Lemma broadcast_dangles :
  summary (sample_app anonymous_cfg
    [ quietly (WsOpens 7 false empty_request 0 0); quietly (WsArrives 40 7 (lit "action=subscribe&symbol=A") 0);
      quietly (HttpArrives 1 (with_token "POST" "/orders" "tok" sell) 0 0 0 0);
      ({[7]}, StorageReplies 0 acked) ]) = inl Dangling.
Proof. by vm_compute. Qed.

(** A connection that closes while it is being authenticated: the answer binds
    an owner to its id, which nothing removes. *)
Lemma owner_outlives_connection :
  match sample_app sample_cfg (quietly <$>
    [ WsOpens 7 false (with_token "GET" "/" "tok" "") 0 0; WsCloses 7; AuthReplies 0 true (grant alice "900") 10 10 10 ]) with
  | Ok s => av_conn_owner s !! 7 = Some alice
  | Err _ => False
  end.
Proof. by vm_compute. Qed.

(** An ingress message without a user is counted as rejected, not as received. *)
Lemma rejected_not_received :
  match sample_app sample_cfg [quietly (IngressArrives 5 (mkMessage 1 (lit "submit") [(lit "form", lit sell)]) 0)] with
  | Ok s => mt_orders_received (av_metrics s) = 0 ∧ mt_orders_rejected (av_metrics s) = 1
  | Err _ => False
  end.
Proof. by vm_compute. Qed.
