(* ===== verification/Config.v ===== *)
(** * Configuration ([config/parse_util.h], [option.cc], [cli_parser.cc],
      [file_parser.cc], [config.cc])

    Option declarations, the parsers of the command line and of the
    configuration file, and their merge into a validated configuration.

    The file system is a function from paths to contents ([None]: the file
    cannot be opened).  Unordered maps are finite maps; when the file has several
    unknown keys, the one the error names is unspecified in the code and the
    first of [map_to_list] here. *)

From S2P Require Import Prelude.
From S2P Require Import Bytes.
From S2P Require Import HttpParser.

(** ** Errors ([util/result.h]) *)

Inductive ErrorCode := kOk | kInvalidArg | kNotFound | kConflict | kIo | kProtocol | kExhausted | kInternal.
Record Error := MakeError { er_code : ErrorCode; er_message : bytes }.
Abbreviation Result A := (Error + A)%type.

(** ** Values *)

Definition isspace (c : ascii) : bool :=
  let v := byte_val c in (v =? 32) || ((9 <=? v) && (v <=? 13)).
Fixpoint skip_space (s : bytes) : bytes :=
  match s with c :: t => if isspace c then skip_space t else s | [] => [] end.
Definition Trim (s : bytes) : bytes := reverse (skip_space (reverse (skip_space s))).

Definition lowercase (s : bytes) : bytes := (λ c, to_byte (tolower c)) <$> s.
Definition ParseBool (s : bytes) : option bool :=
  let lower := lowercase s in
  if bool_decide (lower ∈ lit <$> ["true"; "1"; "yes"; "on"]) then Some true
  else if bool_decide (lower ∈ lit <$> ["false"; "0"; "no"; "off"]) then Some false
  else None.

(** The number of digits a string starts with. *)
Fixpoint digit_run (s : bytes) : nat :=
  match s with c :: t => if isdigit c then S (digit_run t) else 0%nat | [] => 0%nat end.

(** [std::from_chars] into a signed 64-bit integer, in base 10: the value and
    the characters after it; [None]: no number, or one out of range. *)
Definition from_chars (s : bytes) : option (Z * bytes) :=
  let '(negative, ds) :=
    match s with c :: t => if Ascii.eqb c minus then (true, t) else (false, s) | [] => (false, []) end in
  let n := digit_run ds in
  if (n =? 0)%nat then None
  else
    let value := undec 0 (take n ds) in
    let value := if negative : bool then - value else value in
    if (- 2 ^ 63 <=? value) && (value <? 2 ^ 63) then Some (value, drop n ds) else None.

Definition ParseInt (s : bytes) : option Z :=
  match s with
  | [] => None
  | _ => match from_chars s with Some (value, []) => Some value | _ => None end
  end.

(** ** Options *)

Inductive OptionType := kString | kInt | kBool.
#[export] Instance OptionType_eq_dec : EqDecision OptionType.
Proof. solve_decision. Defined.

Record OptionSpec := mkSpec {
  os_name : bytes;
  os_type : OptionType;
  os_default : bytes;
  os_help : bytes;
  os_has_min : bool;
  os_min_value : Z;
  os_has_max : bool;
  os_max_value : Z;
}.

Abbreviation OptionRegistry := (list OptionSpec).

Definition add_string (name default_value help : string) (reg : OptionRegistry) : OptionRegistry :=
  reg ++ [mkSpec (lit name) kString (lit default_value) (lit help) false 0 false 0].
Definition add_bool (name : string) (default_value : bool) (help : string) (reg : OptionRegistry) : OptionRegistry :=
  reg ++ [mkSpec (lit name) kBool (lit (if default_value then "true" else "false")) (lit help) false 0 false 0].
Definition add_int (name : string) (default_value : Z) (help : string) (reg : OptionRegistry) : OptionRegistry :=
  reg ++ [mkSpec (lit name) kInt (to_dec default_value) (lit help) false 0 false 0].
Definition add_int_range (name : string) (default_value min_value max_value : Z) (help : string) (reg : OptionRegistry)
    : OptionRegistry :=
  reg ++ [mkSpec (lit name) kInt (to_dec default_value) (lit help) true min_value true max_value].

Fixpoint find_option (name : bytes) (reg : OptionRegistry) : option OptionSpec :=
  match reg with
  | [] => None
  | spec :: reg => if decide (os_name spec = name) then Some spec else find_option name reg
  end.

(** ** Command line *)

Record CliParse := mkCli { cli_values : gmap bytes bytes; cli_config_path : option bytes }.

Definition FlagError (what name : bytes) : Error := MakeError kInvalidArg (what ++ lit ": --" ++ name).

(** [arg.rfind("--", 0) == 0] *)
Definition is_flag (arg : bytes) : bool :=
  match arg with a :: b :: _ => Ascii.eqb a minus && Ascii.eqb b minus | _ => false end.

Definition set_path (path : bytes) (out : CliParse) : CliParse := mkCli (cli_values out) (Some path).
Definition set_value (name value : bytes) (out : CliParse) : CliParse :=
  mkCli (<[name := value]> (cli_values out)) (cli_config_path out).

(** [--name=value] *)
Definition split_flag (arg : bytes) : bytes * option bytes :=
  match find_char "=" arg with
  | Some eq => (take eq arg, Some (drop (S eq) arg))
  | None => (arg, None)
  end.

Fixpoint parse_args (reg : OptionRegistry) (args : list bytes) (out : CliParse) : Result CliParse :=
  match args with
  | [] => inr out
  | arg :: rest =>
      if negb (is_flag arg) then inl (MakeError kInvalidArg (lit "unexpected argument: " ++ arg))
      else if decide (drop 2 arg = []) then inl (MakeError kInvalidArg (lit "empty flag: --"))
      else
        let '(name, inline_value) := split_flag (drop 2 arg) in
        if decide (name = lit "config") then
          match inline_value, rest with
          | Some path, _ => parse_args reg rest (set_path path out)
          | None, path :: rest => parse_args reg rest (set_path path out)
          | None, [] => inl (FlagError (lit "missing value for") name)
          end
        else
          match find_option name reg with
          | None => inl (FlagError (lit "unknown option") name)
          | Some spec =>
              match inline_value with
              | Some value => parse_args reg rest (set_value name value out)
              | None =>
                  if decide (os_type spec = kBool) then parse_args reg rest (set_value name (lit "true") out)
                  else
                    match rest with
                    | value :: rest =>
                        if is_flag value then inl (FlagError (lit "missing value for") name)
                        else parse_args reg rest (set_value name value out)
                    | [] => inl (FlagError (lit "missing value for") name)
                    end
              end
          end
  end.

(** [argv[0]] is the program. *)
Definition ParseCli (reg : OptionRegistry) (argv : list bytes) : Result CliParse :=
  parse_args reg (tail argv) (mkCli ∅ None).

(** ** Configuration file *)

(** The lines of a text; the last one need not end in a newline. *)
Fixpoint text_lines (cur s : bytes) : list bytes :=
  match s with
  | [] => [cur]
  | c :: s => if Ascii.eqb c LF then cur :: text_lines [] s else text_lines (cur ++ [c]) s
  end.

Definition line_error (line_no : nat) (what : string) : Error :=
  MakeError kInvalidArg (lit "config line " ++ to_dec (Z.of_nat line_no) ++ lit ": " ++ lit what).

(** One line: [None] to ignore, or a key and its value. *)
Definition config_line (line_no : nat) (line : bytes) : Result (option (bytes * bytes)) :=
  match Trim line with
  | [] => inr None
  | (c :: _) as trimmed =>
      if Ascii.eqb c "#" then inr None
      else
        match find_char "=" trimmed with
        | None => inl (line_error line_no "expected 'key = value'")
        | Some eq =>
            let key := Trim (take eq trimmed) in
            let value := Trim (drop (S eq) trimmed) in
            if decide (key = []) then inl (line_error line_no "empty key") else inr (Some (key, value))
        end
  end.

Fixpoint parse_lines (line_no : nat) (lines : list bytes) (out : gmap bytes bytes) : Result (gmap bytes bytes) :=
  match lines with
  | [] => inr out
  | line :: lines =>
      match config_line line_no line with
      | inl e => inl e
      | inr None => parse_lines (S line_no) lines out
      | inr (Some (key, value)) => parse_lines (S line_no) lines (<[key := value]> out)
      end
  end.
Definition ParseConfigText (contents : bytes) : Result (gmap bytes bytes) := parse_lines 1 (text_lines [] contents) ∅.

(** ** Merge *)

Definition bad_value (spec : OptionSpec) (what : bytes) : Error :=
  MakeError kInvalidArg (lit "option '" ++ os_name spec ++ lit "': " ++ what).

Definition ValidateValue (spec : OptionSpec) (value : bytes) : Result unit :=
  match os_type spec with
  | kString => inr tt
  | kBool =>
      match ParseBool value with
      | None => inl (bad_value spec (lit "not a boolean: '" ++ value ++ lit "'"))
      | Some _ => inr tt
      end
  | kInt =>
      match ParseInt value with
      | None => inl (bad_value spec (lit "not an integer: '" ++ value ++ lit "'"))
      | Some n =>
          if os_has_min spec && (n <? os_min_value spec)
          then inl (bad_value spec (to_dec n ++ lit " < min " ++ to_dec (os_min_value spec)))
          else if os_has_max spec && (os_max_value spec <? n)
          then inl (bad_value spec (to_dec n ++ lit " > max " ++ to_dec (os_max_value spec)))
          else inr tt
      end
  end.

Section Load.
Context (reg : OptionRegistry) (files : bytes → option bytes).

Definition ParseConfigFile (path : bytes) : Result (gmap bytes bytes) :=
  match files path with
  | None => inl (MakeError kIo (lit "cannot open config file: " ++ path))
  | Some contents => ParseConfigText contents
  end.

Definition seed_defaults : gmap bytes bytes := foldl (λ m spec, <[os_name spec := os_default spec]> m) ∅ reg.

Fixpoint overlay_file (kvs : list (bytes * bytes)) (values : gmap bytes bytes) : Result (gmap bytes bytes) :=
  match kvs with
  | [] => inr values
  | (key, value) :: kvs =>
      match find_option key reg with
      | None => inl (MakeError kInvalidArg (lit "unknown option in config file: '" ++ key ++ lit "'"))
      | Some _ => overlay_file kvs (<[key := value]> values)
      end
  end.

Definition overlay_cli (kvs : list (bytes * bytes)) (values : gmap bytes bytes) : gmap bytes bytes :=
  foldl (λ m kv, <[kv.1 := kv.2]> m) values kvs.

(** [values[spec.name]] adds an empty value for a missing name. *)
Fixpoint validate_all (specs : OptionRegistry) (values : gmap bytes bytes) : Result (gmap bytes bytes) :=
  match specs with
  | [] => inr values
  | spec :: specs =>
      let value := default [] (values !! os_name spec) in
      match ValidateValue spec value with
      | inl e => inl e
      | inr _ => validate_all specs (<[os_name spec := value]> values)
      end
  end.

Record Config := mkConfig { co_registry : OptionRegistry; co_values : gmap bytes bytes }.

(** The values of the effective file, none without one. *)
Definition file_values (path : bytes) : Result (gmap bytes bytes) :=
  if decide (path = []) then inr ∅ else ParseConfigFile path.

Definition load_with_file (file_path : bytes) (argv : list bytes) : Result Config :=
  match ParseCli reg argv with
  | inl e => inl e
  | inr cli =>
      match file_values (default file_path (cli_config_path cli)) with
      | inl e => inl e
      | inr fv =>
          match overlay_file (map_to_list fv) seed_defaults with
          | inl e => inl e
          | inr values =>
              match validate_all reg (overlay_cli (map_to_list (cli_values cli)) values) with
              | inl e => inl e
              | inr values => inr (mkConfig reg values)
              end
          end
      end
  end.
Definition load (argv : list bytes) : Result Config := load_with_file [] argv.
End Load.

(** ** Getters

    [it->second] of a name that is not there is undefined ([Dangling]). *)
Definition get_raw (name : bytes) (c : Config) : res (Result bytes) :=
  match find_option name (co_registry c) with
  | None => Ok (inl (MakeError kNotFound (lit "unknown option: '" ++ name ++ lit "'")))
  | Some _ => match co_values c !! name with Some v => Ok (inr v) | None => Err Dangling end
  end.
Definition get_string (name : bytes) (c : Config) : res (Result bytes) := get_raw name c.
Definition get_int (name : bytes) (c : Config) : res (Result Z) :=
  raw ← get_raw name c;
  Ok match raw with
     | inl e => inl e
     | inr v => match ParseInt v with
                | None => inl (MakeError kInvalidArg (lit "option '" ++ name ++ lit "' is not an integer"))
                | Some n => inr n
                end
     end.
Definition get_bool (name : bytes) (c : Config) : res (Result bool) :=
  raw ← get_raw name c;
  Ok match raw with
     | inl e => inl e
     | inr v => match ParseBool v with
                | None => inl (MakeError kInvalidArg (lit "option '" ++ name ++ lit "' is not a boolean"))
                | Some b => inr b
                end
     end.

(** ** Parsing *)

Lemma digit_run_all ds rest : Forall (λ c, isdigit c = true) ds → digit_run rest = 0%nat → digit_run (ds ++ rest) = length ds.
Proof. induction 1 as [|c ds Hc Hds IH]; intros Hr; simpl; [done|]. by rewrite Hc, IH. Qed.

Lemma ParseInt_range s n : ParseInt s = Some n → - 2 ^ 63 ≤ n < 2 ^ 63.
Proof.
  unfold ParseInt, from_chars. destruct s as [|c t]; [done|]. destruct (Ascii.eqb c minus); (case_if; [done|]);
    (destruct (_ && _) eqn:E; [|done]); destruct (drop _ _); intros [= <-]; bool_split; by split.
Qed.

(** A number written by [std::to_string] reads back. *)
Lemma config_int_reads z : - 2 ^ 63 ≤ z < 2 ^ 63 → ParseInt (to_dec z) = Some z.
Proof.
  intros Hz. assert (∀ u, 0 ≤ u ≤ 2 ^ 63 → Forall (λ c, isdigit c = true) (dec u) ∧ undec 0 (dec u) = u ∧
    digit_run (dec u) = length (dec u) ∧ (length (dec u) ≠ 0)%nat) as Hdec.
  { intros u Hu. destruct (dec_spec u) as (H1 & H2 & H3); [unfold is_u64; lia|]. split_and!; try done; [|lia].
    rewrite <-(app_nil_r (dec u)) at 1. by apply digit_run_all. }
  unfold ParseInt, to_dec. destruct (z <? 0) eqn:E; bool_split.
  - destruct (Hdec (- z)) as (_ & H2 & H3 & H4); [lia|]. unfold from_chars. change (Ascii.eqb minus minus) with true. cbv iota.
    rewrite H3, take_ge, H2, drop_ge, Z.opp_involutive by lia. destruct (Nat.eqb_spec (length (dec (- z))) 0); [done|]. by destruct (_ && _) eqn:E'; [|bool_split; lia].
  - destruct (Hdec z) as (H1 & H2 & H3 & H4); [lia|]. destruct (dec z) as [|c t] eqn:Ed; [done|].
    apply Forall_cons in H1 as [Hc _]. unfold from_chars.
    assert (Ascii.eqb c minus = false) as -> by (apply Ascii.eqb_neq; intros ->; done).
    rewrite H3, take_ge, H2, drop_ge by done. case_if; [done|]. by destruct (_ && _) eqn:E'; [|bool_split; lia].
Qed.
