(* ===== verification/ConfigProps.v ===== *)
(** * What a loaded configuration holds

    Precedence (command line, then file, then default) and validity of every
    value of a configuration that loads; and that what is written in any of the
    accepted forms is read back. *)

From S2P Require Import Prelude.
From S2P Require Import Bytes.
From S2P Require Import HttpParser.
From S2P Require Import Config.

(** ** Options by name *)

Lemma find_option_Some name reg spec : find_option name reg = Some spec → spec ∈ reg ∧ os_name spec = name.
Proof.
  induction reg as [|x reg IH]; simpl; [done|]. destruct (decide _) as [<-|]; [intros [= <-]; split; [left|done]|].
  intros [? ?]%IH. split; [by right|done].
Qed.

Lemma find_option_elem spec reg :
  NoDup (os_name <$> reg) → spec ∈ reg → find_option (os_name spec) reg = Some spec.
Proof.
  induction reg as [|x reg IH]; simpl; intros Hnd Hin; [by apply not_elem_of_nil in Hin|].
  apply NoDup_cons in Hnd as [Hx Hnd]. apply elem_of_cons in Hin as [->|Hin]; [by rewrite decide_True|].
  rewrite decide_False; [by apply IH|]. intros E. apply Hx. rewrite E. by apply list_elem_of_fmap_2.
Qed.

(** The value of an option by precedence. *)
Definition by_precedence (reg : OptionRegistry) (cli fv : gmap bytes bytes) (name : bytes) : option bytes :=
  match find_option name reg with
  | None => None
  | Some spec => Some (default (default (os_default spec) (fv !! name)) (cli !! name))
  end.

(** ** The merge *)

Lemma overlay_union kvs : ∀ m, NoDup kvs.*1 → overlay_cli kvs m = list_to_map kvs ∪ m.
Proof.
  induction kvs as [|[k v] kvs IH]; intros m Hnd; simpl; [by rewrite (left_id_L ∅ (∪))|].
  apply NoDup_cons in Hnd as [Hk Hnd]. rewrite IH by done.
  rewrite <-insert_union_r, <-insert_union_l; [done|]. by apply not_elem_of_list_to_map_1.
Qed.

Lemma overlay_map (o m : gmap bytes bytes) : overlay_cli (map_to_list o) m = o ∪ m.
Proof. rewrite overlay_union, list_to_map_to_list; [done|]. apply NoDup_fst_map_to_list. Qed.

Lemma overlay_file_ok reg kvs : ∀ m m',
  overlay_file reg kvs m = inr m' ↔ m' = overlay_cli kvs m ∧ Forall (λ k, is_Some (find_option k reg)) kvs.*1.
Proof.
  induction kvs as [|[k v] kvs IH]; intros m m'; simpl.
  - split; [by intros [= <-]|by intros [-> _]].
  - rewrite Forall_cons. destruct (find_option k reg); [rewrite IH; split; intros; split_and?; naive_solver|].
    split; [done|]. by intros (_ & [] & _).
Qed.

Lemma seed_lookup reg : ∀ (m : gmap bytes bytes) name, NoDup (os_name <$> reg) →
  foldl (λ m spec, <[os_name spec := os_default spec]> m) m reg !! name =
  match find_option name reg with Some spec => Some (os_default spec) | None => m !! name end.
Proof.
  induction reg as [|x reg IH]; intros m name Hnd; simpl; [done|]. apply NoDup_cons in Hnd as [Hx Hnd].
  rewrite IH by done. destruct (decide (os_name x = name)) as [<-|Hne]; [|by rewrite lookup_insert_ne].
  rewrite lookup_insert_eq. destruct (find_option (os_name x) reg) as [spec|] eqn:E; [|done].
  apply find_option_Some in E as [Hin E]. destruct Hx. rewrite <-E. by apply list_elem_of_fmap_2.
Qed.

Lemma validate_all_ok specs : ∀ m m',
  (∀ spec, spec ∈ specs → is_Some (m !! os_name spec)) →
  validate_all specs m = inr m' ↔
  m' = m ∧ Forall (λ spec, ValidateValue spec (default [] (m !! os_name spec)) = inr tt) specs.
Proof.
  induction specs as [|spec specs IH]; intros m m' Hin; simpl.
  - split; [by intros [= <-]|by intros [-> _]].
  - destruct (Hin spec (list_elem_of_here _ _)) as [v Hv]. rewrite Hv. simpl. rewrite insert_id by done.
    rewrite Forall_cons, Hv. simpl. destruct (ValidateValue spec v) as [e|[]]; [by split; [|intros (_ & ? & _)]|].
    rewrite IH by (intros; apply Hin; by right). naive_solver.
Qed.

(** The flags of a command line that parses are options. *)
Lemma parse_args_known reg args : ∀ out cli,
  parse_args reg args out = inr cli →
  (∀ n, is_Some (cli_values out !! n) → is_Some (find_option n reg)) →
  ∀ n, is_Some (cli_values cli !! n) → is_Some (find_option n reg).
Proof.
  assert (∀ (x v n : bytes) (out : CliParse), is_Some (find_option x reg) →
    (∀ n, is_Some (cli_values out !! n) → is_Some (find_option n reg)) →
    is_Some (cli_values (set_value x v out) !! n) → is_Some (find_option n reg)) as Hset.
  { intros x v n out Hx Ho. simpl. destruct (decide (x = n)) as [->|]; [done|]. rewrite lookup_insert_ne by done. auto. }
  induction args as [args IH] using (well_founded_induction (well_founded_ltof _ length)). unfold ltof in IH.
  intros out cli. destruct args as [|arg rest]; simpl; [by intros [= <-]|].
  destruct (negb _); [done|]. destruct (decide _); [done|]. destruct (split_flag _) as [name inline].
  destruct (decide _).
  - destruct inline as [p|]; [|destruct rest as [|p rest]; [done|]]; intros Hrun Ho;
      (eapply IH; [|exact Hrun|exact Ho]); simpl; lia.
  - destruct (find_option name reg) as [spec|] eqn:E; [|done].
    assert (is_Some (find_option name reg)) as Hn by by eexists.
    destruct inline as [v|]; [|destruct (decide _); [|destruct rest as [|v rest]; [done|destruct (is_flag v); [done|]]]];
      intros Hrun Ho; (eapply IH; [|exact Hrun|by intros ?; apply Hset]); simpl; lia.
Qed.

Definition known_keys (reg : OptionRegistry) (m : gmap bytes bytes) : Prop :=
  ∀ n, is_Some (m !! n) → is_Some (find_option n reg).

Lemma merged_lookup reg cli fv n :
  NoDup (os_name <$> reg) → known_keys reg cli → known_keys reg fv →
  (cli ∪ (fv ∪ seed_defaults reg)) !! n = by_precedence reg cli fv n.
Proof.
  intros Hnd Hcli Hfv. rewrite !lookup_union. unfold seed_defaults. rewrite seed_lookup by done. unfold by_precedence.
  specialize (Hfv n). specialize (Hcli n). rewrite lookup_empty.
  destruct (cli !! n), (fv !! n), (find_option n reg); simpl; try done; solve [by destruct Hcli|by destruct Hfv].
Qed.

(** A command line that parses gives options only. *)
Lemma cli_known reg argv cli : ParseCli reg argv = inr cli → known_keys reg (cli_values cli).
Proof.
  intros E n. eapply parse_args_known; [exact E|]. simpl. intros n'. rewrite lookup_empty. by intros [].
Qed.

Lemma overlay_file_known reg fv m m' :
  overlay_file reg (map_to_list fv) m = inr m' ↔ m' = fv ∪ m ∧ known_keys reg fv.
Proof.
  rewrite overlay_file_ok, overlay_map, Forall_forall. f_equiv. split.
  - intros H n [v Hv]. apply H, list_elem_of_fmap. exists (n, v). split; [done|]. by apply elem_of_map_to_list.
  - intros H n ([n' v] & -> & Hin%elem_of_map_to_list)%list_elem_of_fmap. apply H. by eexists.
Qed.

(** When a configuration loads, and what it holds. *)
Lemma load_iff reg files path argv cli fv c :
  NoDup (os_name <$> reg) → ParseCli reg argv = inr cli →
  file_values files (default path (cli_config_path cli)) = inr fv →
  load_with_file reg files path argv = inr c ↔
  c = mkConfig reg (cli_values cli ∪ (fv ∪ seed_defaults reg)) ∧ known_keys reg fv ∧
  ∀ spec v, spec ∈ reg → by_precedence reg (cli_values cli) fv (os_name spec) = Some v → ValidateValue spec v = inr tt.
Proof.
  intros Hnd Ecli Ef. pose proof (cli_known _ _ _ Ecli) as Hcli. unfold load_with_file. rewrite Ecli, Ef.
  destruct (overlay_file reg (map_to_list fv) (seed_defaults reg)) as [e|m] eqn:Eo.
  { split; [done|]. intros (_ & Hk & _).
    pose proof (proj2 (overlay_file_known reg fv (seed_defaults reg) _) (conj eq_refl Hk)). congruence. }
  apply overlay_file_known in Eo as [-> Hfv]. rewrite overlay_map.
  pose proof (λ n, merged_lookup reg (cli_values cli) fv n Hnd Hcli Hfv) as Hres.
  set (m := cli_values cli ∪ _) in *.
  assert (∀ spec, spec ∈ reg → is_Some (m !! os_name spec)) as Hin.
  { intros spec Hs. rewrite Hres. unfold by_precedence. rewrite find_option_elem by done. by eexists. }
  assert (Forall (λ spec, ValidateValue spec (default [] (m !! os_name spec)) = inr tt) reg ↔
    ∀ spec v, spec ∈ reg → by_precedence reg (cli_values cli) fv (os_name spec) = Some v → ValidateValue spec v = inr tt) as Hv.
  { rewrite Forall_forall. split.
    - intros H spec v Hs Hr. specialize (H spec Hs). by rewrite Hres, Hr in H.
    - intros H spec Hs. destruct (Hin spec Hs) as [v Hv]. rewrite Hv. simpl. apply H; [done|]. by rewrite <-Hres. }
  rewrite <-Hv. destruct (validate_all reg m) as [e|m'] eqn:Ev.
  - split; [done|]. intros (_ & _ & H).
    pose proof (proj2 (validate_all_ok reg m m Hin) (conj eq_refl H)). congruence.
  - apply validate_all_ok in Ev as [-> Hval]; [|done]. split; [by intros [= <-]|by intros [-> _]].
Qed.

(** A configuration with a valid value for every option of its registry. *)
Definition config_ok (c : Config) : Prop :=
  NoDup (os_name <$> co_registry c) ∧
  ∀ spec, spec ∈ co_registry c → ∃ v, co_values c !! os_name spec = Some v ∧ ValidateValue spec v = inr tt.

Definition lookup_answer (name : bytes) (v : option bytes) : Result bytes :=
  match v with
  | Some v => inr v
  | None => inl (MakeError kNotFound (lit "unknown option: '" ++ name ++ lit "'"))
  end.

Lemma get_raw_merged reg cli fv n :
  NoDup (os_name <$> reg) → known_keys reg cli → known_keys reg fv →
  get_raw n (mkConfig reg (cli ∪ (fv ∪ seed_defaults reg))) = Ok (lookup_answer n (by_precedence reg cli fv n)).
Proof.
  intros Hnd Hcli Hfv. unfold get_raw. cbn [co_registry co_values]. rewrite merged_lookup by done. unfold by_precedence.
  by destruct (find_option n reg).
Qed.

(** What a configuration that loads holds. *)
Lemma load_ok reg files path argv c :
  NoDup (os_name <$> reg) →
  load_with_file reg files path argv = inr c →
  ∃ cli fv, ParseCli reg argv = inr cli ∧ file_values files (default path (cli_config_path cli)) = inr fv ∧
    co_registry c = reg ∧ config_ok c ∧
    ∀ n, get_raw n c = Ok (lookup_answer n (by_precedence reg (cli_values cli) fv n)).
Proof.
  intros Hnd Hload. destruct (ParseCli reg argv) as [e|cli] eqn:Ecli; [by unfold load_with_file in Hload; rewrite Ecli in Hload|].
  destruct (file_values files (default path (cli_config_path cli))) as [e|fv] eqn:Ef;
    [by unfold load_with_file in Hload; rewrite Ecli, Ef in Hload|].
  destruct (proj1 (load_iff _ _ _ _ _ _ _ Hnd Ecli Ef) Hload) as (-> & Hfv & Hval). pose proof (cli_known _ _ _ Ecli) as Hcli.
  exists cli, fv. split_and!; try done; [|intros n; by apply get_raw_merged].
  split; [done|]. intros spec Hs. cbn [co_registry co_values] in *.
  exists (default (default (os_default spec) (fv !! os_name spec)) (cli_values cli !! os_name spec)).
  rewrite merged_lookup by done. unfold by_precedence in *. rewrite find_option_elem by done. split; [done|].
  apply Hval; [done|]. by rewrite find_option_elem.
Qed.

(** ** Getters *)

(** A value accepted for an integer option is a 64-bit integer in its range. *)
Definition in_range (spec : OptionSpec) (n : Z) : Prop :=
  - 2 ^ 63 ≤ n < 2 ^ 63 ∧ (os_has_min spec = true → os_min_value spec ≤ n) ∧ (os_has_max spec = true → n ≤ os_max_value spec).

Lemma validate_int spec v :
  os_type spec = kInt → ValidateValue spec v = inr tt ↔ ∃ n, ParseInt v = Some n ∧ in_range spec n.
Proof.
  intros Ht. unfold ValidateValue. rewrite Ht. destruct (ParseInt v) as [n|] eqn:En; [|naive_solver].
  pose proof (ParseInt_range _ _ En) as Hr.
  assert (∀ (on : bool) x y, on && (x <? y) = false ↔ (on = true → y ≤ x)) as Hb.
  { intros on x y. destruct on; simpl; [|by split]. rewrite Z.ltb_ge. naive_solver. }
  unfold in_range. split.
  - intros Hv. exists n. destruct (os_has_min spec && _) eqn:E1; [done|]. destruct (os_has_max spec && _) eqn:E2; [done|].
    pose proof (proj1 (Hb _ _ _) E1). pose proof (proj1 (Hb _ _ _) E2). done.
  - intros (n' & [= <-] & _ & Hlo & Hhi). by rewrite (proj2 (Hb _ _ _) Hlo), (proj2 (Hb _ _ _) Hhi).
Qed.

Lemma validate_bool spec v :
  os_type spec = kBool → ValidateValue spec v = inr tt ↔ ∃ b, ParseBool v = Some b.
Proof. intros Ht. unfold ValidateValue. rewrite Ht. destruct (ParseBool v); naive_solver. Qed.

Lemma get_string_ok c name spec :
  config_ok c → find_option name (co_registry c) = Some spec → ∃ v, get_string name c = Ok (inr v).
Proof.
  intros [Hnd Hc] E. unfold get_string, get_raw. rewrite E.
  apply find_option_Some in E as [Hin <-]. destruct (Hc spec Hin) as (v & -> & _). by eexists.
Qed.

Lemma get_int_ok c name spec :
  config_ok c → find_option name (co_registry c) = Some spec → os_type spec = kInt →
  ∃ n, get_int name c = Ok (inr n) ∧ in_range spec n.
Proof.
  intros [Hnd Hc] E Ht. unfold get_int, get_raw. rewrite E. apply find_option_Some in E as [Hin <-].
  destruct (Hc spec Hin) as (v & -> & Hv). apply validate_int in Hv as (n & Hn & Hr); [|done].
  exists n. simpl. by rewrite Hn.
Qed.

Lemma get_bool_ok c name spec :
  config_ok c → find_option name (co_registry c) = Some spec → os_type spec = kBool →
  ∃ b, get_bool name c = Ok (inr b).
Proof.
  intros [Hnd Hc] E Ht. unfold get_bool, get_raw. rewrite E. apply find_option_Some in E as [Hin <-].
  destruct (Hc spec Hin) as (v & -> & Hv). apply validate_bool in Hv as (b & Hb); [|done].
  exists b. simpl. by rewrite Hb.
Qed.

(** ** Command lines *)

(** The accepted forms of an argument. *)
Inductive cli_arg :=
  | Inline (name value : bytes)      (** --name=value *)
  | Separate (name value : bytes)    (** --name value *)
  | Bare (name : bytes)              (** --name *)
  | PathInline (path : bytes)        (** --config=path *)
  | PathSeparate (path : bytes).     (** --config path *)

Definition render_arg (a : cli_arg) : list bytes :=
  match a with
  | Inline n v => [lit "--" ++ n ++ lit "=" ++ v]
  | Separate n v => [lit "--" ++ n; v]
  | Bare n => [lit "--" ++ n]
  | PathInline p => [lit "--config=" ++ p]
  | PathSeparate p => [lit "--config"; p]
  end.

Definition option_named (reg : OptionRegistry) (n : bytes) (P : OptionSpec → Prop) : Prop :=
  n ≠ [] ∧ n ≠ lit "config" ∧ "="%char ∉ n ∧ ∃ spec, find_option n reg = Some spec ∧ P spec.

Definition arg_ok (reg : OptionRegistry) (a : cli_arg) : Prop :=
  match a with
  | Inline n v => option_named reg n (λ _, True)
  | Separate n v => option_named reg n (λ spec, os_type spec ≠ kBool) ∧ is_flag v = false
  | Bare n => option_named reg n (λ spec, os_type spec = kBool)
  | PathInline _ | PathSeparate _ => True
  end.

Definition apply_arg (out : CliParse) (a : cli_arg) : CliParse :=
  match a with
  | Inline n v | Separate n v => set_value n v out
  | Bare n => set_value n (lit "true") out
  | PathInline p | PathSeparate p => set_path p out
  end.

Lemma split_flag_inline n v : "="%char ∉ n → split_flag (n ++ lit "=" ++ v) = (n, Some v).
Proof.
  intros Hn. unfold split_flag. change (n ++ lit "=" ++ v) with (n ++ "="%char :: v). rewrite find_char_split by done.
  rewrite take_app_length. by rewrite (drop_app_ge n) by lia; replace (S (length n) - length n)%nat with 1%nat by lia.
Qed.

Lemma split_flag_bare n : "="%char ∉ n → split_flag n = (n, None).
Proof. intros Hn. unfold split_flag. by rewrite (proj2 (find_char_None _ _) Hn). Qed.

Lemma is_flag_dashes n : is_flag (lit "--" ++ n) = true ∧ drop 2 (lit "--" ++ n) = n.
Proof. split; [done|]. simpl. by rewrite drop_0. Qed.

Lemma parse_args_reads reg l : ∀ out,
  Forall (arg_ok reg) l → parse_args reg (l ≫= render_arg) out = inr (foldl apply_arg out l).
Proof.
  induction l as [|a l IH]; intros out Hl; [done|]. apply Forall_cons in Hl as [Ha Hl].
  rewrite bind_cons. cbn [foldl]. destruct a as [n v|n v|n|p|p]; cbn [arg_ok] in Ha; cbn [render_arg app parse_args apply_arg].
  - destruct (is_flag_dashes (n ++ lit "=" ++ v)) as [-> ->]. destruct Ha as (H1 & H2 & H3 & spec & H4 & _). cbn [negb].
    rewrite decide_False by (by destruct n). rewrite split_flag_inline by done. rewrite decide_False, H4 by done. by apply IH.
  - destruct (is_flag_dashes n) as [-> ->]. destruct Ha as [(H1 & H2 & H3 & spec & H4 & H5) Hv]. cbn [negb].
    rewrite decide_False by done. rewrite split_flag_bare by done.
    rewrite decide_False, H4, decide_False, Hv by done. by apply IH.
  - destruct (is_flag_dashes n) as [-> ->]. destruct Ha as (H1 & H2 & H3 & spec & H4 & H5). cbn [negb].
    rewrite decide_False by done. rewrite split_flag_bare by done.
    rewrite decide_False, H4, decide_True by done. by apply IH.
  - by apply IH.
  - by apply IH.
Qed.

(** ** Files *)

Abbreviation spaces := (Forall (λ c, isspace c = true)).

Lemma skip_space_length s : (length (skip_space s) ≤ length s)%nat.
Proof. induction s as [|c s IH]; simpl; [done|]. destruct (isspace c); simpl; lia. Qed.

Lemma skip_space_head s : s ≠ [] → skip_space s = s → ∃ c t, s = c :: t ∧ isspace c = false.
Proof.
  destruct s as [|c t]; [done|]. intros _ E. exists c, t. split; [done|]. simpl in E. destruct (isspace c); [|done].
  pose proof (skip_space_length t) as Hl. rewrite E in Hl. simpl in Hl. lia.
Qed.

Lemma skip_spaces a s : spaces a → skip_space (a ++ s) = skip_space s.
Proof. induction 1 as [|c a Hc _ IH]; simpl; [done|]. by rewrite Hc. Qed.

(** Without white space at either end. *)
Definition tight (s : bytes) : Prop := skip_space s = s ∧ skip_space (reverse s) = reverse s.

Lemma Trim_unique a m d : spaces a → spaces d → tight m → Trim (a ++ m ++ d) = m.
Proof.
  intros Ha Hd [H1 H2]. unfold Trim. rewrite skip_spaces by done. destruct (decide (m = [])) as [->|Hm].
  - assert (skip_space d = []) as E by (by rewrite <-(app_nil_r d), skip_spaces). simpl. by rewrite E.
  - destruct (skip_space_head m Hm H1) as (c & t & -> & Hc). simpl app at 1. cbn [skip_space]. rewrite Hc.
    change (c :: t ++ d) with ((c :: t) ++ d). rewrite reverse_app, skip_spaces, H2, reverse_involutive; [done|].
    by apply Forall_reverse.
Qed.

(** The lines of a file that are read. *)
Inductive file_line :=
  | Assign (a k b c v d : bytes)  (** white space [a], [b], [c], [d] around the key and the value *)
  | Comment (a text : bytes)
  | Blank (a : bytes).

Definition render_line (l : file_line) : bytes :=
  match l with
  | Assign a k b c v d => a ++ k ++ b ++ lit "=" ++ c ++ v ++ d
  | Comment a text => a ++ lit "#" ++ text
  | Blank a => a
  end.

Definition line_ok (l : file_line) : Prop :=
  LF ∉ render_line l ∧
  match l with
  | Assign a k b c v d =>
      spaces a ∧ spaces b ∧ spaces c ∧ spaces d ∧ tight k ∧ tight v ∧ k ≠ [] ∧ head k ≠ Some "#"%char ∧ "="%char ∉ k
  | Comment a _ | Blank a => spaces a
  end.

Definition apply_line (m : gmap bytes bytes) (l : file_line) : gmap bytes bytes :=
  match l with Assign _ k _ _ v _ => <[k := v]> m | _ => m end.

Definition line_value (l : file_line) : option (bytes * bytes) :=
  match l with Assign _ k _ _ v _ => Some (k, v) | _ => None end.

Lemma spaces_no_eq b : spaces b → "="%char ∉ b.
Proof. intros Hb Hin. rewrite Forall_forall in Hb. by specialize (Hb _ Hin). Qed.

(** What is left of a line once the white space around it is gone. *)
Lemma Trim_assign a k b c v d :
  line_ok (Assign a k b c v d) →
  ∃ x, Trim (render_line (Assign a k b c v d)) = (k ++ b) ++ "="%char :: x ∧ Trim x = v.
Proof.
  intros (_ & Ha & Hb & Hc & Hd & Hk & Hv & Hne & _). destruct Hk as [Hk1 Hk2].
  destruct (skip_space_head k Hne Hk1) as (k0 & kt & -> & Hk0).
  exists (if decide (v = []) then [] else c ++ v). split.
  - cbn [render_line].
    replace (a ++ (k0 :: kt) ++ b ++ lit "=" ++ c ++ v ++ d)
      with (a ++ (((k0 :: kt) ++ b) ++ "="%char :: (if decide (v = []) then [] else c ++ v)) ++
            (if decide (v = []) then c ++ d else d)).
    2: { destruct (decide (v = [])) as [->|]; simpl; rewrite <-!app_assoc; simpl; by rewrite <-?app_assoc. }
    apply Trim_unique; [done|destruct (decide _); [by apply Forall_app|done]|]. split; [simpl; by rewrite Hk0|].
    rewrite reverse_app, reverse_cons. destruct (decide (v = [])) as [->|Hvn]; [done|]. rewrite reverse_app.
    destruct Hv as [_ Hv2]. destruct (skip_space_head (reverse v)) as (v0 & vt & -> & Hv0); [by intros E; apply Hvn; rewrite <-(reverse_involutive v), E|done|].
    simpl. by rewrite Hv0.
  - destruct (decide (v = [])) as [->|]; [done|]. rewrite <-(app_nil_r v) at 1. by apply Trim_unique.
Qed.

Lemma config_line_reads n l : line_ok l → config_line n (render_line l) = inr (line_value l).
Proof.
  intros Hl. unfold config_line. destruct l as [a k b c v d|a text|a].
  - destruct (Trim_assign a k b c v d Hl) as (x & -> & Hx).
    destruct Hl as (_ & Ha & Hb & Hc & Hd & Hk & Hv & Hne & Hh & Hq). destruct k as [|k0 kt]; [done|]. simpl app.
    cbv iota.
    assert (Ascii.eqb k0 "#" = false) as -> by (apply Ascii.eqb_neq; intros ->; by apply Hh).
    change (k0 :: (kt ++ b) ++ "="%char :: x) with (((k0 :: kt) ++ b) ++ "="%char :: x).
    rewrite find_char_split.
    2: { rewrite elem_of_app. intros [?|?]; [done|by apply (spaces_no_eq b)]. }
    rewrite take_app_length.
    assert (drop (S (length ((k0 :: kt) ++ b))) (((k0 :: kt) ++ b) ++ "="%char :: x) = x) as ->.
    { rewrite drop_app_ge by lia. by replace (_ - _)%nat with 1%nat by lia. }
    assert (Trim ((k0 :: kt) ++ b) = k0 :: kt) as ->.
    { by apply (Trim_unique [] (k0 :: kt) b). }
    by rewrite decide_False, Hx.
  - destruct Hl as [_ Ha]. cbn [render_line line_value]. unfold Trim. rewrite skip_spaces by done. simpl skip_space.
    change (lit "#" ++ text) with ("#"%char :: text). cbn [skip_space]. change (isspace "#") with false. cbv iota.
    rewrite reverse_cons.
    assert (∃ y, skip_space (reverse text ++ ["#"%char]) = y ++ ["#"%char]) as [y ->].
    { induction (reverse text) as [|t0 t IH]; simpl; [by exists []|]. destruct (isspace t0); [done|by exists (t0 :: t)]. }
    by rewrite reverse_snoc.
  - destruct Hl as [_ Ha]. cbn [render_line line_value].
    assert (Trim a = []) as ->; [|done]. rewrite <-(app_nil_r a). by apply (Trim_unique a [] []).
Qed.

Lemma text_lines_line s : ∀ cur rest, LF ∉ s → text_lines cur (s ++ LF :: rest) = (cur ++ s) :: text_lines [] rest.
Proof.
  induction s as [|c s IH]; intros cur rest Hs; simpl; [by rewrite app_nil_r|].
  apply not_elem_of_cons in Hs as [Hc Hs]. assert (Ascii.eqb c LF = false) as -> by (apply Ascii.eqb_neq; congruence).
  rewrite IH by done. by rewrite <-app_assoc.
Qed.

Definition render_file (ls : list file_line) : bytes := ls ≫= λ l, render_line l ++ [LF].

Lemma parse_text_reads ls : Forall line_ok ls → ParseConfigText (render_file ls) = inr (foldl apply_line ∅ ls).
Proof.
  intros Hls. unfold ParseConfigText. generalize 1%nat, (∅ : gmap bytes bytes).
  induction Hls as [|l ls Hl Hls IH]; intros n m; [done|]. unfold render_file. rewrite bind_cons, <-app_assoc.
  change ([LF] ++ ?x) with (LF :: x). rewrite text_lines_line by apply Hl. cbn [parse_lines foldl app].
  rewrite config_line_reads by done. destruct l; cbn [line_value apply_line]; by apply IH.
Qed.

(** What the getters say of a name whose value is [v]: the text; the integer it
    spells; the boolean it spells, in any case of letters.  A name without a value
    is an error for all three. *)
Definition bool_words (b : bool) : list string :=
  if b then ["true"; "1"; "yes"; "on"] else ["false"; "0"; "no"; "off"].

Record reads_as (c : Config) (name v : bytes) : Prop := mkReadsAs {
  ra_string : get_string name c = Ok (inr v);
  ra_int : ∀ n, - 2 ^ 63 ≤ n < 2 ^ 63 → v = to_dec n → get_int name c = Ok (inr n);
  ra_int_range : ∀ n, get_int name c = Ok (inr n) → - 2 ^ 63 ≤ n < 2 ^ 63;
  ra_bool : ∀ b, get_bool name c = Ok (inr b) ↔ lowercase v ∈ lit <$> bool_words b;
}.

Record unknown (c : Config) (name : bytes) : Prop := mkUnknown {
  un_string : ∃ m, get_string name c = Ok (inl (MakeError kNotFound m));
  un_int : ∃ m, get_int name c = Ok (inl (MakeError kNotFound m));
  un_bool : ∃ m, get_bool name c = Ok (inl (MakeError kNotFound m));
}.

Lemma ParseBool_spec v b : ParseBool v = Some b ↔ lowercase v ∈ lit <$> bool_words b.
Proof.
  unfold ParseBool. case_bool_decide as Ht.
  - split; [by intros [= <-]|]. destruct b; [done|]. intros Hf. exfalso.
    assert (Forall (λ x, x ∉ lit <$> bool_words false) (lit <$> bool_words true)) as Hd
      by (by apply (bool_decide_unpack (Forall _ _)); vm_compute).
    rewrite Forall_forall in Hd. by apply (Hd _ Ht).
  - case_bool_decide as Hf; destruct b; done.
Qed.

Lemma raw_reads_as c name v : get_raw name c = Ok (inr v) → reads_as c name v.
Proof.
  intros Hr. split; unfold get_string, get_int, get_bool; rewrite Hr; cbn [mbind res_bind].
  - done.
  - intros n Hn ->. by rewrite config_int_reads.
  - intros n. destruct (ParseInt v) as [z|] eqn:E; [|done]. intros [= <-]. by eapply ParseInt_range.
  - intros b. rewrite <-ParseBool_spec. destruct (ParseBool v); naive_solver.
Qed.

Lemma raw_unknown c name m : get_raw name c = Ok (inl (MakeError kNotFound m)) → unknown c name.
Proof. intros Hr. split; exists m; unfold get_string, get_int, get_bool; by rewrite Hr. Qed.

(** C36: configuration reads back.  Options written on the command line in any of
    the accepted forms and in a file, with comments, blank lines and any white
    space around keys and values, load whenever the keys are options and the
    resulting values are valid.  The value of an option is then the last one from
    the command line, else the last one from the file, else the default; the string
    getter returns it, the integer getter the integer it spells, the boolean getter
    the boolean it spells; and all three return an error for a name that is not an
    option. *)
Theorem config_reads_back reg files path program args lines :
  NoDup (os_name <$> reg) → Forall (arg_ok reg) args → Forall line_ok lines →
  let cli := foldl apply_arg (mkCli ∅ None) args in
  let fv := foldl apply_line ∅ lines in
  let file := default path (cli_config_path cli) in
  file ≠ [] → files file = Some (render_file lines) → known_keys reg fv →
  (∀ spec v, spec ∈ reg → by_precedence reg (cli_values cli) fv (os_name spec) = Some v → ValidateValue spec v = inr tt) →
  ∃ c, load_with_file reg files path (program :: (args ≫= render_arg)) = inr c ∧
    ∀ name, match by_precedence reg (cli_values cli) fv name with
            | Some v => reads_as c name v
            | None => unknown c name
            end.
Proof.
  intros Hnd Hargs Hlines cli fv file Hne Hfile Hk Hval.
  assert (ParseCli reg (program :: (args ≫= render_arg)) = inr cli) as Ecli by (by apply parse_args_reads).
  assert (file_values files file = inr fv) as Ef.
  { unfold file_values, ParseConfigFile. rewrite decide_False, Hfile by done. by apply parse_text_reads. }
  exists (mkConfig reg (cli_values cli ∪ (fv ∪ seed_defaults reg))). split; [by apply (load_iff _ _ _ _ _ _ _ Hnd Ecli Ef)|].
  intros name. assert (known_keys reg (cli_values cli)) as Hc by (by eapply cli_known).
  pose proof (get_raw_merged reg (cli_values cli) fv name Hnd Hc Hk) as Hr.
  destruct (by_precedence reg (cli_values cli) fv name); [by apply raw_reads_as|by eapply raw_unknown].
Qed.

Definition sample_registry : OptionRegistry :=
  add_string "net.bind_address" "127.0.0.1" "address" (add_bool "metrics.enabled" false "metrics"
    (add_int_range "net.http_port" 8080 0 65535 "port" [])).
Definition sample_args : list cli_arg :=
  [PathSeparate (lit "a.conf"); Separate (lit "net.http_port") (lit "9000"); Bare (lit "metrics.enabled");
   Inline (lit "net.http_port") (lit "9001")].
Definition sample_lines : list file_line :=
  [Comment [] (lit " listeners"); Assign (lit "  ") (lit "net.http_port") [] [] (lit "81") [];
   Blank []; Assign [] (lit "net.bind_address") (lit " ") (lit " ") (lit "0.0.0.0") (lit " ")].

Lemma config_reads_back_witness :
  ∃ c, load_with_file sample_registry (λ p, if decide (p = lit "a.conf") then Some (render_file sample_lines) else None) []
         (lit "codicis" :: (sample_args ≫= render_arg)) = inr c ∧
    get_int (lit "net.http_port") c = Ok (inr 9001) ∧ get_string (lit "net.bind_address") c = Ok (inr (lit "0.0.0.0")) ∧
    get_bool (lit "metrics.enabled") c = Ok (inr true).
Proof.
  destruct (config_reads_back sample_registry (λ p, if decide (p = lit "a.conf") then Some (render_file sample_lines) else None) []
    (lit "codicis") sample_args sample_lines) as (c & Hc & Hget).
  - by apply (bool_decide_unpack (NoDup _)); vm_compute.
  - unfold sample_args. repeat apply Forall_cons_2; try exact I; try apply Forall_nil_2.
    + split; [|done]. split_and!; [done|done|by apply find_char_None; vm_compute|]. eexists. split; [by vm_compute|done].
    + split_and!; [done|done|by apply find_char_None; vm_compute|]. eexists. split; [by vm_compute|done].
    + split_and!; [done|done|by apply find_char_None; vm_compute|]. eexists. split; [by vm_compute|done].
  - unfold sample_lines. repeat apply Forall_cons_2; try apply Forall_nil_2;
      (split; [by apply find_char_None; vm_compute|]); cbn beta iota; split_and?; try done;
      try (by apply find_char_None; vm_compute); by repeat constructor.
  - done.
  - by rewrite decide_True.
  - intros n [v Hv]. cbn [foldl sample_lines apply_line] in Hv. apply lookup_insert_Some in Hv as [[<- _]|[_ Hv]];
      [eexists; by vm_compute|]. apply lookup_insert_Some in Hv as [[<- _]|[_ Hv]]; [eexists; by vm_compute|done].
  - intros spec v Hs Hr. unfold sample_registry, add_string, add_bool, add_int_range in Hs. cbn [app] in Hs.
    repeat (apply elem_of_cons in Hs as [->|Hs]; [vm_compute in Hr; injection Hr as <-; by vm_compute|]).
    by apply not_elem_of_nil in Hs.
  - exists c. split; [exact Hc|]. split_and!.
    + exact (ra_int _ _ (lit "9001") (Hget (lit "net.http_port")) 9001 ltac:(lia) eq_refl).
    + exact (ra_string _ _ (lit "0.0.0.0") (Hget (lit "net.bind_address"))).
    + apply (ra_bool _ _ (lit "true") (Hget (lit "metrics.enabled")) true). left.
Defined.
