(* ===== verification/Settings.v ===== *)
(** * The server's settings ([app/options.cc], [AppServer::start])

    The options of the server and what its construction and start read of them.
    [value()] of an error throws ([std::get] of the wrong alternative:
    [OutOfRange]); a multiplication past 64 bits is signed overflow
    ([Overflow]).  Launching the helpers and opening the listeners, which come
    between the reads, are not here. *)

From S2P Require Import Prelude.
From S2P Require Import Order.
From S2P Require Import Bytes.
From S2P Require Import HttpParser.
From S2P Require Import AuthClient.
From S2P Require Import OrderForm.
From S2P Require Import AppServer.
From S2P Require Import Config.
From S2P Require Import ConfigProps.

Definition BuildOptionRegistry : OptionRegistry :=
  let reg := [] in
  let reg := add_int_range "net.http_port" 8080 0 65535 "TCP port for the HTTP REST API (0 = ephemeral)" reg in
  let reg := add_int_range "net.ws_port" 8081 0 65535 "TCP port for the WebSocket API (0 = ephemeral)" reg in
  let reg := add_bool "net.aggregator_ws_enabled" false
    "Enable the internal aggregator WebSocket listener (per-frame 'user' identity when the handshake is unauthenticated)" reg in
  let reg := add_int_range "net.aggregator_ws_port" 8082 0 65535
    "Port for the aggregator WebSocket listener (0 = ephemeral)" reg in
  let reg := add_string "net.aggregator_ws_bind_address" ""
    "IPv4 address for the aggregator WebSocket listener (empty = reuse net.bind_address; keep it private/loopback)" reg in
  let reg := add_string "net.bind_address" "127.0.0.1" "IPv4 address to bind listeners to" reg in
  let reg := add_int_range "book.mem_levels" 100 1 1000000 "Max in-memory price levels per side (top of book)" reg in
  let reg := add_string "storage.helper_cmd" "./codicis_storage_helper"
    "Command used to launch the storage helper child process" reg in
  let reg := add_string "storage.codec" "text" "Helper wire codec: 'text' or 'binary'" reg in
  let reg := add_int_range "storage.commit_interval_ms" 100 1 3600000
    "How often to ask the storage helper to commit" reg in
  let reg := add_int_range "storage.request_timeout_ms" 5000 0 3600000
    "Per-request storage helper timeout in ms (0 disables)" reg in
  let reg := add_int_range "storage.processed_queue_max" 10000 0 100000000
    "Max un-committed reports before new orders get 503 backpressure (0 disables)" reg in
  let reg := add_string "ingress.helper_cmd" ""
    "Command to launch the optional client-request ingress helper (empty = disabled). codicis spawns it and reads order/cancel requests it initiates over the helper codec (stdout), each carrying a per-message 'user'" reg in
  let reg := add_string "feed.helper_cmd" ""
    "Command to launch the optional market-data feed helper (empty = disabled). codicis spawns it and streams the book-event feed to its stdin (best-effort, non-blocking)" reg in
  let reg := add_string "log.level" "info" "Minimum log level: trace|debug|info|warn|error" reg in
  let reg := add_bool "metrics.enabled" true "Expose a Prometheus text metrics endpoint over HTTP" reg in
  let reg := add_string "metrics.path" "/metrics" "HTTP path for the Prometheus metrics endpoint" reg in
  let reg := add_bool "auth.header.enabled" false "Trust a pre-authenticated user UUID from a request header" reg in
  let reg := add_string "auth.header.name" "X-User-Id"
    "Request header carrying the pre-authenticated user UUID" reg in
  let reg := add_bool "auth.helper.enabled" false "Validate a credential header via an auth helper process" reg in
  let reg := add_string "auth.helper.cmd" "./codicis_auth_helper"
    "Command used to launch the auth helper child process(es)" reg in
  let reg := add_int_range "auth.helper.concurrency" 1 1 1024
    "Number of concurrent auth helper processes (pool size)" reg in
  let reg := add_bool "auth.helper.pipelining" true
    "Whether the auth helper accepts overlapping in-flight requests" reg in
  let reg := add_int_range "auth.helper.pipeline_depth" 8 1 65536
    "Max in-flight requests per helper (forced to 1 if no pipelining)" reg in
  let reg := add_string "auth.helper.credential_header" "Authorization"
    "Request header whose value is forwarded to the auth helper" reg in
  let reg := add_int_range "auth.helper.request_timeout_ms" 5000 0 3600000
    "Per-request auth helper timeout in ms (0 disables)" reg in
  let reg := add_int_range "auth.cache.max_entries" 4096 0 100000000
    "Positive auth cache capacity (validated credentials)" reg in
  let reg := add_int_range "auth.cache.max_bytes" 0 0 1000000000000
    "Positive auth cache byte budget, key+value (0 = no limit)" reg in
  let reg := add_int_range "auth.cache.ttl_ms" 60000 0 3600000 "Positive auth cache entry lifetime in ms" reg in
  let reg := add_int_range "auth.cache.negative_max_entries" 1024 0 100000000
    "Negative auth cache capacity (rejected credentials)" reg in
  let reg := add_int_range "auth.cache.negative_max_bytes" 0 0 1000000000000
    "Negative auth cache byte budget, key+value (0 = no limit)" reg in
  let reg := add_int_range "auth.cache.negative_ttl_ms" 5000 0 3600000
    "Negative auth cache entry lifetime in ms (keep short)" reg in
  let reg := add_int_range "auth.cache.max_purge_per_insert" 16 0 1000000
    "Max expired entries reclaimed from a cache tail per insert (0 = unbounded)" reg in
  reg.

(** ** Reads *)

Definition value {A} (r : res (Result A)) : res A :=
  x ← r; match x with inr a => Ok a | inl _ => Err OutOfRange end.

(** [ms * 1'000'000] *)
Definition nanos (ms : Z) : res Z :=
  let ns := ms * 1000000 in if (- 2 ^ 63 <=? ns) && (ns <? 2 ^ 63) then Ok ns else Err Overflow.

(** [static_cast<std::uint16_t>], [static_cast<std::size_t>] *)
Definition to_u16 (n : Z) : Z := n mod 2 ^ 16.
Definition to_size (n : Z) : Z := n mod 2 ^ 64.

Definition int_of (name : string) (c : Config) : res Z := value (get_int (lit name) c).
Definition bool_of (name : string) (c : Config) : res bool := value (get_bool (lit name) c).
Definition string_of (name : string) (c : Config) : res bytes := value (get_string (lit name) c).
Definition nanos_of (name : string) (c : Config) : res Z := ms ← int_of name c; nanos ms.
Definition size_of (name : string) (c : Config) : res Z := n ← int_of name c; Ok (to_size n).
Definition port_of (name : string) (c : Config) : res Z := n ← int_of name c; Ok (to_u16 n).

(** Early return of an error. *)
Definition try_ {A B} (m : res (Result A)) (k : A → res (Result B)) : res (Result B) :=
  x ← m; match x with inl e => Ok (inl e) | inr a => k a end.

Definition empty_command (name : string) : Error := MakeError kInvalidArg (lit "empty " ++ lit name).
Definition command_of (name : string) (cmd : bytes) : Result (list bytes) :=
  match Split cmd " " with [] => inl (empty_command name) | argv => inr argv end.

Definition mem_levels (c : Config) : res Z := size_of "book.mem_levels" c.

Record StorageSettings := mkStorage { ss_binary : bool; ss_argv : list bytes; ss_timeout_ns : Z }.
Definition storage_settings (c : Config) : res (Result StorageSettings) :=
  codec ← string_of "storage.codec" c;
  cmd ← string_of "storage.helper_cmd" c;
  match command_of "storage.helper_cmd" cmd with
  | inl e => Ok (inl e)
  | inr argv =>
      timeout ← nanos_of "storage.request_timeout_ms" c;
      Ok (inr (mkStorage (bool_decide (codec = lit "binary")) argv timeout))
  end.

Definition app_config (c : Config) : res AppConfig :=
  outbox ← size_of "storage.processed_queue_max" c;
  metrics ← bool_of "metrics.enabled" c;
  path ← string_of "metrics.path" c;
  header ← bool_of "auth.header.enabled" c;
  header_name ← string_of "auth.header.name" c;
  helper ← bool_of "auth.helper.enabled" c;
  credential ← string_of "auth.helper.credential_header" c;
  Ok (mkAppConfig header header_name helper credential (Z.to_nat outbox) metrics path).

Record AuthSettings := mkAuthSettings {
  as_argv : list bytes;
  as_config : AuthConfig;
  as_timeout_ns : Z;
  as_positive_capacity : Z;
  as_positive_max_bytes : Z;
  as_negative_capacity : Z;
  as_negative_max_bytes : Z;
  as_max_purge : Z;
}.
Definition auth_settings (c : Config) : res (Result AuthSettings) :=
  cmd ← string_of "auth.helper.cmd" c;
  match command_of "auth.helper.cmd" cmd with
  | inl e => Ok (inl e)
  | inr argv =>
      concurrency ← size_of "auth.helper.concurrency" c;
      pipelining ← bool_of "auth.helper.pipelining" c;
      depth ← int_of "auth.helper.pipeline_depth" c;
      timeout ← nanos_of "auth.helper.request_timeout_ms" c;
      pos ← size_of "auth.cache.max_entries" c;
      pos_bytes ← size_of "auth.cache.max_bytes" c;
      pos_ttl ← nanos_of "auth.cache.ttl_ms" c;
      neg ← size_of "auth.cache.negative_max_entries" c;
      neg_bytes ← size_of "auth.cache.negative_max_bytes" c;
      neg_ttl ← nanos_of "auth.cache.negative_ttl_ms" c;
      purge ← size_of "auth.cache.max_purge_per_insert" c;
      let depth := if pipelining : bool then to_size depth else 1 in
      Ok (inr (mkAuthSettings argv (mkAuthConfig (Z.to_nat concurrency) (Z.to_nat depth) pos_ttl neg_ttl) timeout
                 pos pos_bytes neg neg_bytes purge))
  end.

Record ListenSettings := mkListen {
  ls_addr : bytes;
  ls_http_port : Z;
  ls_ws_port : Z;
  ls_aggregator : option (bytes * Z);
}.
Definition aggregator_settings (addr : bytes) (c : Config) : res (option (bytes * Z)) :=
  enabled ← bool_of "net.aggregator_ws_enabled" c;
  if negb enabled then Ok None
  else
    port ← port_of "net.aggregator_ws_port" c;
    agg_addr ← string_of "net.aggregator_ws_bind_address" c;
    Ok (Some (if decide (agg_addr = []) then addr else agg_addr, port)).
Definition listen_settings (c : Config) : res ListenSettings :=
  addr ← string_of "net.bind_address" c;
  http ← port_of "net.http_port" c;
  ws ← port_of "net.ws_port" c;
  agg ← aggregator_settings addr c;
  Ok (mkListen addr http ws agg).

(** An optional helper: an empty command disables it. *)
Definition optional_helper (name : string) (c : Config) : res (Result (option (list bytes))) :=
  cmd ← string_of name c;
  if decide (cmd = []) then Ok (inr None)
  else Ok match command_of name cmd with inl e => inl e | inr argv => inr (Some argv) end.

Definition commit_interval_ns (c : Config) : res Z := nanos_of "storage.commit_interval_ms" c.

Record Settings := mkSettings {
  st_mem_levels : Z;
  st_storage : StorageSettings;
  st_app : AppConfig;
  st_auth : option AuthSettings;
  st_listen : ListenSettings;
  st_ingress : option (list bytes);
  st_feed : option (list bytes);
  st_commit_ns : Z;
}.

Definition start_settings (c : Config) : res (Result Settings) :=
  mem ← mem_levels c;
  try_ (storage_settings c) (λ storage,
  app ← app_config c;
  try_ (if ap_helper_enabled app then try_ (auth_settings c) (λ a, Ok (inr (Some a))) else Ok (inr None)) (λ auth,
  listen ← listen_settings c;
  try_ (optional_helper "ingress.helper_cmd" c) (λ ingress,
  try_ (optional_helper "feed.helper_cmd" c) (λ feed,
  commit ← commit_interval_ns c;
  Ok (inr (mkSettings mem storage app auth listen ingress feed commit)))))).

(** ** What the server reads *)

(** An integer option declared with this range. *)
Definition int_option (name : string) (lo hi : Z) : bool :=
  match find_option (lit name) BuildOptionRegistry with
  | Some spec => bool_decide (os_type spec = kInt) && os_has_min spec && (os_min_value spec =? lo) &&
                 os_has_max spec && (os_max_value spec =? hi)
  | None => false
  end.
Definition typed_option (name : string) (t : OptionType) : bool :=
  match find_option (lit name) BuildOptionRegistry with Some spec => bool_decide (os_type spec = t) | None => false end.

(** A configuration of the server. *)
Definition server_config (c : Config) : Prop := config_ok c ∧ co_registry c = BuildOptionRegistry.

Lemma registry_names : NoDup (os_name <$> BuildOptionRegistry).
Proof. apply (bool_decide_unpack (NoDup _)). vm_compute. exact I. Qed.

Lemma int_of_ok name lo hi c :
  server_config c → int_option name lo hi = true → ∃ n, int_of name c = Ok n ∧ lo ≤ n ≤ hi.
Proof.
  intros [Hok Hreg]. unfold int_option. destruct (find_option _ _) as [spec|] eqn:E; [|done]. intros H. bool_split.
  rewrite <-Hreg in E. destruct (get_int_ok c _ spec Hok E) as (n & Hn & _ & Hlo & Hhi).
  { by eapply bool_decide_eq_true. }
  exists n. unfold int_of, value. rewrite Hn. split; [done|]. specialize (Hlo ltac:(done)). specialize (Hhi ltac:(done)). lia.
Qed.

Lemma bool_of_ok name c : server_config c → typed_option name kBool = true → ∃ b, bool_of name c = Ok b.
Proof.
  intros [Hok Hreg]. unfold typed_option. destruct (find_option _ _) as [spec|] eqn:E; [|done].
  intros H%bool_decide_eq_true. rewrite <-Hreg in E. destruct (get_bool_ok c _ spec Hok E H) as (b & Hb).
  exists b. unfold bool_of, value. by rewrite Hb.
Qed.

Lemma string_of_ok name c : server_config c → typed_option name kString = true → ∃ v, string_of name c = Ok v.
Proof.
  intros [Hok Hreg]. unfold typed_option. destruct (find_option _ _) as [spec|] eqn:E; [|done].
  intros _. rewrite <-Hreg in E. destruct (get_string_ok c _ spec Hok E) as (v & Hv).
  exists v. unfold string_of, value. by rewrite Hv.
Qed.

Lemma size_of_ok name lo hi c :
  server_config c → int_option name lo hi = true → 0 ≤ lo → hi < 2 ^ 64 → ∃ n, size_of name c = Ok n ∧ int_of name c = Ok n ∧ lo ≤ n ≤ hi.
Proof.
  intros Hc Ho Hlo Hhi. destruct (int_of_ok name lo hi c Hc Ho) as (n & Hn & Hr). exists n. unfold size_of, to_size. rewrite Hn.
  simpl. rewrite Z.mod_small by lia. done.
Qed.

Lemma port_of_ok name c :
  server_config c → int_option name 0 65535 = true → ∃ n, port_of name c = Ok n ∧ int_of name c = Ok n ∧ 0 ≤ n ≤ 65535.
Proof.
  intros Hc Ho. destruct (int_of_ok name _ _ c Hc Ho) as (n & Hn & Hr). exists n. unfold port_of, to_u16. rewrite Hn.
  simpl. rewrite Z.mod_small by lia. done.
Qed.

Lemma nanos_of_ok name lo hi c :
  server_config c → int_option name lo hi = true → 0 ≤ lo → hi ≤ 3600000 →
  ∃ ns, nanos_of name c = Ok ns ∧ lo * 1000000 ≤ ns ≤ hi * 1000000.
Proof.
  intros Hc Ho Hlo Hhi. destruct (int_of_ok name lo hi c Hc Ho) as (n & Hn & Hr). exists (n * 1000000).
  unfold nanos_of, nanos. rewrite Hn. simpl. split; [|lia].
  destruct (_ && _) eqn:E; [done|]. apply andb_false_iff in E as [E|E]; bool_split; lia.
Qed.

Lemma command_of_ok name cmd argv : command_of name cmd = inr argv → argv ≠ [].
Proof. unfold command_of. by destruct (Split _ _); [|intros [= <-]]. Qed.

Lemma command_of_error name cmd e : command_of name cmd = inl e → er_code e = kInvalidArg.
Proof. unfold command_of. by destruct (Split _ _); [intros [= <-]|]. Qed.

(** What [m] gives satisfies [P], unless it returns an error about a command. *)
Definition gives {A} (m : res (Result A)) (P : A → Prop) : Prop :=
  ∃ r, m = Ok r ∧ match r with inl e => er_code e = kInvalidArg | inr a => P a end.

Lemma gives_try {A B} (m : res (Result A)) (k : A → res (Result B)) P Q :
  gives m P → (∀ a, P a → gives (k a) Q) → gives (try_ m k) Q.
Proof.
  intros (r & -> & Hr) Hk. unfold try_. simpl. destruct r as [e|a]; [by exists (inl e)|by apply Hk].
Qed.

Lemma gives_value {A} (a : A) (P : A → Prop) : P a → gives (Ok (inr a)) P.
Proof. intros Ha. by exists (inr a). Qed.

(** Reads one option after the other. *)
Ltac read_int lem name lo hi c H :=
  let n := fresh "n" in let Hn := fresh "Hn" in let Hr := fresh "Hr" in
  destruct (lem name lo hi c H) as (n & Hn & Hr); [by vm_compute|lia|lia|]; rewrite Hn; cbn [mbind res_bind].
Ltac read_bool name c H :=
  let b := fresh "b" in let Hb := fresh "Hb" in
  destruct (bool_of_ok name c H) as [b Hb]; [by vm_compute|]; rewrite Hb; cbn [mbind res_bind].
Ltac read_string name c H :=
  let v := fresh "v" in let Hv := fresh "Hv" in
  destruct (string_of_ok name c H) as [v Hv]; [by vm_compute|]; rewrite Hv; cbn [mbind res_bind].

Section Reads.
Context (c : Config) (Hc : server_config c).

Definition storage_ok (s : StorageSettings) : Prop := ss_argv s ≠ [] ∧ 0 ≤ ss_timeout_ns s ≤ 3600000 * 1000000.

Lemma storage_settings_ok : gives (storage_settings c) storage_ok.
Proof using Hc.
  unfold storage_settings. read_string "storage.codec" c Hc. read_string "storage.helper_cmd" c Hc.
  destruct (command_of _ _) as [e|argv] eqn:E; [exists (inl e); split; [done|by eapply command_of_error]|].
  read_int nanos_of_ok "storage.request_timeout_ms" 0 3600000 c Hc. apply gives_value. split; [by eapply command_of_ok|simpl; lia].
Qed.

Lemma app_config_ok : ∃ a, app_config c = Ok a ∧ (Z.of_nat (ap_outbox_max a) ≤ 100000000).
Proof using Hc.
  unfold app_config. read_int size_of_ok "storage.processed_queue_max" 0 100000000 c Hc.
  read_bool "metrics.enabled" c Hc. read_string "metrics.path" c Hc. read_bool "auth.header.enabled" c Hc.
  read_string "auth.header.name" c Hc. read_bool "auth.helper.enabled" c Hc. read_string "auth.helper.credential_header" c Hc.
  eexists. split; [done|]. simpl. lia.
Qed.

(** A pool with helpers and room for requests, lifetimes of at most an hour. *)
Record auth_settings_fit (a : AuthSettings) : Prop := {
  af_argv : as_argv a ≠ [];
  af_pool : (1 ≤ cfg_concurrency (as_config a) ≤ Z.to_nat 1024)%nat;
  af_depth : (1 ≤ cfg_depth (as_config a) ≤ Z.to_nat 65536)%nat;
  af_ttl : 0 ≤ cfg_positive_ttl_ns (as_config a) ≤ 3600000 * 1000000;
  af_negative_ttl : 0 ≤ cfg_negative_ttl_ns (as_config a) ≤ 3600000 * 1000000;
  af_timeout : 0 ≤ as_timeout_ns a ≤ 3600000 * 1000000;
}.

Lemma auth_settings_ok : gives (auth_settings c) auth_settings_fit.
Proof using Hc.
  unfold auth_settings. read_string "auth.helper.cmd" c Hc.
  destruct (command_of _ _) as [e|argv] eqn:E; [exists (inl e); split; [done|by eapply command_of_error]|].
  read_int size_of_ok "auth.helper.concurrency" 1 1024 c Hc. read_bool "auth.helper.pipelining" c Hc.
  destruct (int_of_ok "auth.helper.pipeline_depth" 1 65536 c Hc) as (d & -> & Hd); [by vm_compute|]. cbn [mbind res_bind].
  read_int nanos_of_ok "auth.helper.request_timeout_ms" 0 3600000 c Hc.
  read_int size_of_ok "auth.cache.max_entries" 0 100000000 c Hc.
  read_int size_of_ok "auth.cache.max_bytes" 0 1000000000000 c Hc.
  read_int nanos_of_ok "auth.cache.ttl_ms" 0 3600000 c Hc.
  read_int size_of_ok "auth.cache.negative_max_entries" 0 100000000 c Hc.
  read_int size_of_ok "auth.cache.negative_max_bytes" 0 1000000000000 c Hc.
  read_int nanos_of_ok "auth.cache.negative_ttl_ms" 0 3600000 c Hc.
  read_int size_of_ok "auth.cache.max_purge_per_insert" 0 1000000 c Hc.
  apply gives_value. assert (1 ≤ (if b then to_size d else 1) ≤ 65536) as Hdepth.
  { destruct b; [|lia]. unfold to_size. rewrite Z.mod_small; lia. }
  split; simpl; try lia. by eapply command_of_ok.
Qed.

(** The ports are the configured ones. *)
Definition listen_fit (l : ListenSettings) : Prop :=
  int_of "net.http_port" c = Ok (ls_http_port l) ∧ 0 ≤ ls_http_port l ≤ 65535 ∧
  int_of "net.ws_port" c = Ok (ls_ws_port l) ∧ 0 ≤ ls_ws_port l ≤ 65535 ∧
  ∀ addr port, ls_aggregator l = Some (addr, port) → int_of "net.aggregator_ws_port" c = Ok port ∧ 0 ≤ port ≤ 65535.

Lemma listen_settings_ok : ∃ l, listen_settings c = Ok l ∧ listen_fit l.
Proof using Hc.
  unfold listen_settings. read_string "net.bind_address" c Hc.
  destruct (port_of_ok "net.http_port" c Hc) as (http & -> & Hh & Hh'); [by vm_compute|]. cbn [mbind res_bind].
  destruct (port_of_ok "net.ws_port" c Hc) as (ws & -> & Hw & Hw'); [by vm_compute|]. cbn [mbind res_bind].
  unfold aggregator_settings. read_bool "net.aggregator_ws_enabled" c Hc. destruct b; cbn [negb].
  - destruct (port_of_ok "net.aggregator_ws_port" c Hc) as (ap & -> & Ha & Ha'); [by vm_compute|]. cbn [mbind res_bind].
    read_string "net.aggregator_ws_bind_address" c Hc. eexists. split; [done|]. split_and!; try done; simpl; try lia.
    intros addr port [= _ <-]. done.
  - eexists. split; [done|]. split_and!; simpl; (done || lia).
Qed.

Lemma optional_helper_ok name :
  typed_option name kString = true → gives (optional_helper name c) (λ o, ∀ argv, o = Some argv → argv ≠ []).
Proof using Hc.
  intros Ht. unfold optional_helper. destruct (string_of_ok name c Hc Ht) as [cmd ->]. cbn [mbind res_bind].
  destruct (decide _); [by apply gives_value|]. destruct (command_of _ _) as [e|argv] eqn:E.
  - exists (inl e). split; [done|by eapply command_of_error].
  - apply gives_value. intros argv' [= <-]. by eapply command_of_ok.
Qed.
End Reads.

(** C37: the server's settings.  Whatever file and command line the server is
    started with: once they load as a configuration of its options, every read of
    the start succeeds (no exception, no overflow in a conversion to nanoseconds,
    no value changed by a cast) or a blank command is reported; the book keeps at
    least one level, the ports are the configured ones, the pool has a helper and
    room for a request, lifetimes and timeouts are at most an hour, and the
    commit timer's period is at least a millisecond. *)
Theorem settings_in_bounds files argv c :
  load BuildOptionRegistry files argv = inr c →
  ∃ r, start_settings c = Ok r ∧
    match r with
    | inl e => er_code e = kInvalidArg
    | inr st =>
        1 ≤ st_mem_levels st ≤ 1000000 ∧ storage_ok (st_storage st) ∧
        Z.of_nat (ap_outbox_max (st_app st)) ≤ 100000000 ∧
        (is_Some (st_auth st) ↔ ap_helper_enabled (st_app st) = true) ∧
        (∀ a, st_auth st = Some a → auth_settings_fit a) ∧ listen_fit c (st_listen st) ∧
        (∀ argv, st_ingress st = Some argv ∨ st_feed st = Some argv → argv ≠ []) ∧
        1 * 1000000 ≤ st_commit_ns st ≤ 3600000 * 1000000
    end.
Proof.
  intros Hload. destruct (load_ok _ _ _ _ _ registry_names Hload) as (cli & fv & _ & _ & Hreg & Hok & _).
  assert (server_config c) as Hc by done. change (gives (start_settings c) (λ st,
        1 ≤ st_mem_levels st ≤ 1000000 ∧ storage_ok (st_storage st) ∧
        Z.of_nat (ap_outbox_max (st_app st)) ≤ 100000000 ∧
        (is_Some (st_auth st) ↔ ap_helper_enabled (st_app st) = true) ∧
        (∀ a, st_auth st = Some a → auth_settings_fit a) ∧ listen_fit c (st_listen st) ∧
        (∀ argv, st_ingress st = Some argv ∨ st_feed st = Some argv → argv ≠ []) ∧
        1 * 1000000 ≤ st_commit_ns st ≤ 3600000 * 1000000)).
  unfold start_settings, mem_levels. read_int size_of_ok "book.mem_levels" 1 1000000 c Hc.
  eapply gives_try; [by apply storage_settings_ok|]. intros storage Hs.
  destruct (app_config_ok c Hc) as (app & -> & Happ). cbn [mbind res_bind].
  eapply (gives_try _ _ (λ o, (is_Some o ↔ ap_helper_enabled app = true) ∧ ∀ a, o = Some a → auth_settings_fit a)).
  { destruct (ap_helper_enabled app).
    - eapply gives_try; [by apply auth_settings_ok|]. intros a Ha. apply gives_value. split; [by split|]. by intros ? [= <-].
    - apply gives_value. split; [|done]. by split; [intros []|]. }
  intros auth [Ha1 Ha2]. destruct (listen_settings_ok c Hc) as (listen & -> & Hl). cbn [mbind res_bind].
  eapply gives_try; [apply (optional_helper_ok c Hc); by vm_compute|]. intros ingress Hi.
  eapply gives_try; [apply (optional_helper_ok c Hc); by vm_compute|]. intros feed Hf.
  unfold commit_interval_ns. read_int nanos_of_ok "storage.commit_interval_ms" 1 3600000 c Hc.
  apply gives_value. cbn [st_mem_levels st_storage st_app st_auth st_listen st_ingress st_feed st_commit_ns].
  split_and!; try done; try lia. intros argv' [E|E]; [by apply Hi|by apply Hf].
Qed.

(** ** A concrete start *)

Definition sample_argv : list bytes :=
  lit <$> ["codicis"; "--net.http_port=9000"; "--auth.helper.enabled"; "--storage.codec"; "binary"; "--config"; "prod.conf"].
Definition sample_files (path : bytes) : option bytes :=
  if decide (path = lit "prod.conf")
  then Some (lit "# production" ++ [LF] ++ lit "book.mem_levels = 50" ++ [LF] ++ lit "net.http_port=80") else None.

(** Levels, HTTP port, codec, helpers of the pool. *)
Definition settings_probe (argv : list bytes) : option (Z * Z * bool * option nat) :=
  match load BuildOptionRegistry sample_files argv with
  | inr c =>
      match start_settings c with
      | Ok (inr st) => Some (st_mem_levels st, ls_http_port (st_listen st), ss_binary (st_storage st),
                             (λ a, cfg_concurrency (as_config a)) <$> st_auth st)
      | _ => None
      end
  | inl _ => None
  end.

Lemma settings_in_bounds_witness :
  match load BuildOptionRegistry sample_files sample_argv with
  | inr c => ∃ st, start_settings c = Ok (inr st) ∧ st_mem_levels st = 50 ∧ int_of "net.http_port" c = Ok 9000 ∧
               ap_helper_enabled (st_app st) = true
  | inl _ => False
  end.
Proof.
  assert (settings_probe sample_argv = Some (50, 9000, true, Some 1%nat)) as Hp by (vm_compute; reflexivity).
  unfold settings_probe in Hp. destruct (load BuildOptionRegistry sample_files sample_argv) as [e|c] eqn:E; [done|].
  destruct (settings_in_bounds sample_files sample_argv c E) as (r & Hr & Hb). rewrite Hr in Hp.
  destruct r as [e|st]; [done|]. injection Hp as Hm Hport _ Hauth. exists st. split; [exact Hr|]. split; [exact Hm|].
  destruct Hb as (_ & _ & _ & Hen & _ & (Hh & _) & _). rewrite Hport in Hh. split; [exact Hh|].
  apply Hen. destruct (st_auth st); [by eexists|done].
Defined.

(** An unknown option, a value out of range and a file that is missing are errors. *)
Example settings_errors :
  (λ args, match load BuildOptionRegistry sample_files (lit "codicis" :: (lit <$> args)) with
           | inl e => Some (er_code e) | inr _ => None end) <$>
  [["--no.such"]; ["--net.http_port=65536"]; ["--net.http_port"; "--metrics.enabled"]; ["--config=x"]; ["start"]] =
  [Some kInvalidArg; Some kInvalidArg; Some kInvalidArg; Some kIo; Some kInvalidArg].
Proof. vm_compute. reflexivity. Qed.
