(* ===== verification/Logging.v ===== *)
(** * Logging ([util/logging.cc])

    Levels, their names and the threshold.  The line is what is written to the
    standard error (of a message without null characters, where the code's
    [printf] would stop); the threshold is the state. *)

From S2P Require Import Prelude.
From S2P Require Import Bytes.
From S2P Require Import HttpParser.
From S2P Require Import Config.

Inductive LogLevel := kTrace | kDebug | kInfo | kWarn | kError.

(** The order of the enumeration. *)
Definition level_rank (l : LogLevel) : nat :=
  match l with kTrace => 0 | kDebug => 1 | kInfo => 2 | kWarn => 3 | kError => 4 end.

Definition LevelTag (l : LogLevel) : bytes :=
  lit match l with kTrace => "TRACE" | kDebug => "DEBUG" | kInfo => "INFO" | kWarn => "WARN" | kError => "ERROR" end.

Definition ParseLogLevel (name : bytes) : option LogLevel :=
  let lower := lowercase name in
  if decide (lower = lit "trace") then Some kTrace
  else if decide (lower = lit "debug") then Some kDebug
  else if decide (lower = lit "info") then Some kInfo
  else if decide (lower = lit "warn") then Some kWarn
  else if decide (lower = lit "error") then Some kError
  else None.

Definition g_level_init : LogLevel := kInfo.

(** What a message adds to the log. *)
Definition LogMessage (g_level level : LogLevel) (msg : bytes) : option bytes :=
  if (level_rank level <? level_rank g_level)%nat then None
  else Some (lit "[" ++ LevelTag level ++ lit "] " ++ msg ++ [LF]).

(** The threshold [main] sets from the option [log.level]: an unknown name keeps
    the default. *)
Definition main_level (name : bytes) : LogLevel := default g_level_init (ParseLogLevel name).

(** A level is read back from its tag, in any case. *)
Lemma level_roundtrip l name : lowercase name = lowercase (LevelTag l) → ParseLogLevel name = Some l.
Proof. intros E. unfold ParseLogLevel. rewrite E. by destruct l. Qed.

(** Exactly the messages at the configured level or above are written. *)
Lemma logged_above name l level msg :
  lowercase name = lowercase (LevelTag l) →
  is_Some (LogMessage (main_level name) level msg) ↔ (level_rank l ≤ level_rank level)%nat.
Proof.
  intros E. unfold main_level. rewrite (level_roundtrip l name E). simpl. unfold LogMessage.
  destruct (Nat.ltb_spec (level_rank level) (level_rank l)); split; try done; try lia; by intros [].
Qed.
