(* ===== verification/Listener.v ===== *)
(** * The TCP listener ([net/listener.cc], [net/socket_util.h]) and the start of
      the feed helper, which opens one ([tools/feed_helper/main.cc])

    Which descriptors are handed on and which are closed.  The verdicts of the
    system calls are inputs; an error is its code (the text of [strerror] is the
    system's). *)

From S2P Require Import Prelude.
From S2P Require Import Bytes.
From S2P Require Import EventLoop.
From S2P Require Import HttpParser.
From S2P Require Import Config.
From S2P Require Import Settings.
From S2P Require Import StorageHelper.
From S2P Require Import StorageProps.

(** ** Accepting *)

(** A result of [accept]: a connection, with the verdicts of making it
    non-blocking and close-on-exec, or an error. *)
Inductive accept_result :=
  | Accepted (conn : Z) (nonblocking cloexec : bool)
  | AcceptAgain
  | AcceptRetry  (** [EINTR], [ECONNABORTED] *)
  | AcceptFailed.

(** The connections passed to the callback, and those closed; the script ends
    when no connection waits. *)
Fixpoint accept_loop (rs : list accept_result) : list Z * list Z :=
  match rs with
  | [] | AcceptAgain :: _ | AcceptFailed :: _ => ([], [])
  | AcceptRetry :: rs => accept_loop rs
  | Accepted conn nonblocking cloexec :: rs =>
      let '(handed, closed) := accept_loop rs in
      if negb nonblocking then (handed, conn :: closed)
      else if negb cloexec then (handed, conn :: closed)
      else (conn :: handed, closed)
  end.

(** The connections taken from the backlog. *)
Fixpoint accepted (rs : list accept_result) : list Z :=
  match rs with
  | [] | AcceptAgain :: _ | AcceptFailed :: _ => []
  | AcceptRetry :: rs => accepted rs
  | Accepted conn _ _ :: rs => conn :: accepted rs
  end.

(** Every connection is handed on or closed, once. *)
Lemma accept_loop_owns rs : (accept_loop rs).1 ++ (accept_loop rs).2 ≡ₚ accepted rs.
Proof.
  induction rs as [|r rs IH]; simpl; [done|]. destruct r as [conn nb ce| | |]; simpl; try done.
  destruct (accept_loop rs) as [handed closed]. simpl in IH. destruct nb, ce; simpl; rewrite <-IH; try done;
    by rewrite Permutation_middle.
Qed.

(** ** Opening *)

Record SocketCalls := mkSocketCalls {
  sk_socket : option Z;
  sk_cloexec : bool;
  sk_address : bool;
  sk_bind : bool;
  sk_listen : bool;
  sk_bound_port : option Z;
  sk_nonblocking : bool;
}.

(** The descriptor and the port, and what was closed. *)
Definition CreateListenSocket (port : Z) (k : SocketCalls) : (ErrorCode + Z * Z) * list Z :=
  match sk_socket k with
  | None => (inl kIo, [])
  | Some fd =>
      if negb (sk_cloexec k) then (inl kIo, [fd])
      else if negb (sk_address k) then (inl kInvalidArg, [fd])
      else if negb (sk_bind k) then (inl kIo, [fd])
      else if negb (sk_listen k) then (inl kIo, [fd])
      else
        let out_port := default port (sk_bound_port k) in
        if negb (sk_nonblocking k) then (inl kIo, [fd]) else (inr (fd, out_port), [])
  end.

Record TcpListener := mkListener { tl_fd : Z; tl_port : Z }.

(** The destructor. *)
Definition destroy_listener (t : TcpListener) (l : EventLoop) : EventLoop * list Z :=
  if 0 <=? tl_fd t then ((el_remove true (tl_fd t) l).2, [tl_fd t]) else (l, []).

(** The code of an error of the loop. *)
Definition loop_error_code (e : loop_error) : ErrorCode :=
  match e with Conflict => kConflict | NotFound => kNotFound | Backend => kIo end.

(** [ok]: the poller's verdict on the registration.  On its failure the listener
    object goes out of scope. *)
Definition listener_create (port : Z) (k : SocketCalls) (ok : bool) (handler : nat) (l : EventLoop)
    : (ErrorCode + TcpListener) * EventLoop * list Z :=
  let '(r, closed) := CreateListenSocket port k in
  match r with
  | inl e => (inl e, l, closed)
  | inr (fd, bound_port) =>
      let listener := mkListener fd bound_port in
      let '(s, l) := el_add ok fd kRead handler l in
      match s with
      | inl e =>
          let '(l, destroyed) := destroy_listener listener l in
          (inl (loop_error_code e), l, closed ++ [fd] ++ destroyed)
      | inr _ => (inr listener, l, closed)
      end
  end.

(** A socket that could not be set up is closed once; one that was is open and
    registered for reading. *)
Lemma listener_create_owns port k handler l fd :
  sk_socket k = Some fd → el_registrations l !! fd = None →
  match listener_create port k true handler l with
  | (inl _, l', closed) => closed = [fd] ∧ l' = l
  | (inr t, l', closed) => closed = [] ∧ tl_fd t = fd ∧ el_registrations l' !! fd = Some (mkReg kRead handler)
  end.
Proof.
  intros Hfd Hl. unfold listener_create, CreateListenSocket. rewrite Hfd. repeat case_if; try done.
  unfold el_add. rewrite Hl. simpl. by rewrite lookup_insert_eq.
Qed.

(** When the poller refuses the registration, the descriptor is closed twice:
    by [Create] and by the destructor of the listener it drops. *)
Lemma create_closes_twice port fd bound handler l :
  0 ≤ fd → el_registrations l !! fd = None →
  (listener_create port (mkSocketCalls (Some fd) true true true true bound true) false handler l).2 = [fd; fd].
Proof.
  intros Hfd Hl. unfold listener_create, CreateListenSocket, el_add, destroy_listener. simpl. rewrite Hl. simpl.
  by destruct (Z.leb_spec 0 fd); [|lia].
Qed.

(** ** The feed helper's start *)

Definition colon : ascii := ":"%char.

(** [std::atoi]: white space, a sign, digits; a value that is no [int] is
    undefined. *)
Definition atoi (s : bytes) : res Z :=
  v ← ParseInt (skip_space s); if (- 2 ^ 31 <=? v) && (v <? 2 ^ 31) then Ok v else Err Overflow.

(** The address and port of [main]: two arguments, or the environment's
    [CODICIS_FEED_LISTEN]. *)
Definition feed_options (args : list bytes) (env : option bytes) : res (bytes * Z) :=
  match args, env with
  | host :: port :: _, _ => n ← atoi port; Ok (host, to_u16 n)
  | _, Some s =>
      match find_char colon s with
      | Some i => n ← atoi (drop (S i) s); Ok (take i s, to_u16 n)
      | None => Ok (lit "127.0.0.1", 0)
      end
  | _, None => Ok (lit "127.0.0.1", 0)
  end.

(** [FeedHelper::start]: the outcome, the loop, the descriptors closed and what
    is printed.  The standard input is handler 0 and the listener handler 1;
    [ok_in], [ok]: the poller's verdicts on them. *)
Definition feed_start (port : Z) (k : SocketCalls) (ok_in ok : bool) (l : EventLoop)
    : (ErrorCode + TcpListener) * EventLoop * list Z * bytes :=
  let '(s, l) := el_add ok_in 0 kRead 0 l in
  match s with
  | inl e => (inl (loop_error_code e), l, [], [])
  | inr _ =>
      let '(r, l, closed) := listener_create port k ok 1 l in
      match r with
      | inl e => (inl e, l, closed, [])
      | inr t => (inr t, l, closed, lit "listening " ++ to_dec (tl_port t) ++ [LF])
      end
  end.

Lemma skip_space_dec z : - 2 ^ 64 < z < 2 ^ 64 → skip_space (to_dec z) = to_dec z.
Proof.
  intros Hz. destruct (to_dec_chars z Hz) as [Hc _]. destruct Hc as [|c s Hc _]; [done|]. simpl.
  destruct (isspace c) eqn:E; [|done]. exfalso.
  destruct Hc as [Hc| ->]; [|done]. unfold isspace, isdigit in *. lia.
Qed.

(** A port is read back from the arguments and from the environment. *)
Lemma feed_options_given host port rest env :
  0 ≤ port < 2 ^ 16 → colon ∉ host →
  feed_options (host :: to_dec port :: rest) env = Ok (host, port) ∧
  feed_options [] (Some (host ++ colon :: to_dec port)) = Ok (host, port).
Proof.
  intros Hp Hh.
  assert (atoi (to_dec port) = Ok port) as Ha.
  { unfold atoi. rewrite skip_space_dec, ParseInt_to_dec by (unfold is_num; lia). simpl.
    by destruct (Z.leb_spec (- 2 ^ 31) port), (Z.ltb_spec port (2 ^ 31)); [|lia..]. }
  assert (to_u16 port = port) as Hu by (by apply Z.mod_small).
  unfold feed_options. rewrite find_char_split by done. rewrite drop_app_ge by lia.
  replace (S (length host) - length host)%nat with 1%nat by lia. cbn [drop]. rewrite drop_0, take_app_length, Ha. cbn. by rewrite Hu.
Qed.
