(* ===== verification/AppDrain.v ===== *)
(** * Start-up and shutdown of the server ([AppServer::start], [AppServer::drain])

    The two places where the server pumps the event loop itself: the wait for
    the storage watermarks before the listeners open, and the draining of work
    in flight before the helpers are torn down.  What one [run_once] delivers and
    the outbox size read before it are a [turn]; the turns are given by their
    number, so that the statements hold for whatever arrives.  The server here
    has its engine and its storage client: the tests for null pointers are for a
    server that never started. *)

From S2P Require Import Prelude.
From S2P Require Import MatchingEngine.
From S2P Require Import Bytes.
From S2P Require Import HelperCodec.
From S2P Require Import TradingEngine.
From S2P Require Import TradingFifo.
From S2P Require Import TradingLive.
From S2P Require Import AuthClient.
From S2P Require Import AppServer.
From S2P Require Import AppServerInv.
From S2P Require Import AppServerProps.
From S2P Require Import Logging.

(** [processed_pending] before, and the events of, one [run_once]. *)
Record turn := mkTurn { tn_backlog : nat; tn_events : list (gset Z * app_event) }.

Section Drain.
Context {PC NC : CredentialCache} (acfg : AuthConfig) (cfg : AppConfig) (uuid_of : nat → string).
Implicit Types s : AppServer PC NC.
Notation app_step := (app_step acfg cfg uuid_of).

Definition app_commit s : AppServer PC NC := set_engine (commit (av_engine s)) [TCommit] s.

(** ** Shutdown *)

Definition drain_rounds (max_ms : Z) : nat := Z.to_nat (if 0 <? max_ms then max_ms / 5 else 0).

Definition drained (backlog : nat) s : bool :=
  (pending_placements (av_engine s) =? 0)%nat && (backlog =? 0)%nat.

(** The loop, with [n] rounds left at round [i]; the round it stops at. *)
Fixpoint drain_turns (turns : nat → turn) (n i : nat) s : res (nat * AppServer PC NC) :=
  match n with
  | O => Ok (i, s)
  | S n =>
      if drained (tn_backlog (turns i)) s then Ok (i, s)
      else
        let s := if (i mod 40 =? 0)%nat then app_commit s else s in
        s ← res_foldl app_step s (tn_events (turns i));
        drain_turns turns n (S i) s
  end.

Definition drain_report (left : nat) : LogLevel * bytes :=
  if (0 <? left)%nat
  then (kWarn, lit "shutdown: drain deadline reached with " ++ to_dec (Z.of_nat left) ++ lit " un-committed report(s)")
  else (kInfo, lit "shutdown: drained cleanly").

(** The messages it logs and the server it leaves. *)
Definition drain (max_ms : Z) (turns : nat → turn) s : res (list (LogLevel * bytes) * AppServer PC NC) :=
  '(k, s) ← drain_turns turns (drain_rounds max_ms) 0 (app_commit s);
  Ok ([(kInfo, lit "shutdown: draining in-flight work"); drain_report (tn_backlog (turns k))], s).

(** ** Start-up *)

Definition seed_rounds : nat := Z.to_nat 2000.

(** The callback of the seed was called. *)
Definition seeded s : bool := existsb (λ f, match f with Seeded => true | _ => false end) (t_log (av_engine s)).

Fixpoint await_seed (turns : nat → list (gset Z * app_event)) (n i : nat) s : res (AppServer PC NC) :=
  match n with
  | O => Ok s
  | S n =>
      if seeded s then Ok s
      else s ← res_foldl app_step s (turns i); await_seed turns n (S i) s
  end.

(** The server after the wait, with the warning when it was in vain. *)
Definition start_seeded (turns : nat → list (gset Z * app_event)) s
    : res (list (LogLevel * bytes) * AppServer PC NC) :=
  s ← app_step s (∅, StorageSeeds);
  s ← await_seed turns seed_rounds 0 s;
  Ok (if seeded s then [] else [(kWarn, lit "storage watermark seed did not complete; starting unseeded")], s).

(** ** Shutdown is a session *)

Definition commit_event : gset Z * app_event := (∅, CommitTimer 1).

(** What the first [n] rounds from round [i] do to the server. *)
Definition round_events (turns : nat → turn) (i : nat) : list (gset Z * app_event) :=
  (if (i mod 40 =? 0)%nat then [commit_event] else []) ++ tn_events (turns i).
Definition rounds_events (turns : nat → turn) (i n : nat) : list (gset Z * app_event) :=
  seq i n ≫= round_events turns.

Lemma app_commit_first s l : res_foldl app_step s (commit_event :: l) = res_foldl app_step (app_commit s) l.
Proof. done. Qed.

Lemma round_step turns i s :
  res_foldl app_step s (round_events turns i) =
    res_foldl app_step (if (i mod 40 =? 0)%nat then app_commit s else s) (tn_events (turns i)).
Proof. unfold round_events. by destruct (_ =? _)%nat. Qed.

Lemma rounds_events_S turns i n : rounds_events turns i (S n) = round_events turns i ++ rounds_events turns (S i) n.
Proof. done. Qed.

(** The loop returns when the rounds it may take do; it stops at the first round
    that finds nothing in flight, or after the last. *)
Lemma drain_turns_ok turns n : ∀ i s s',
  res_foldl app_step s (rounds_events turns i n) = Ok s' →
  ∃ k s1, drain_turns turns n i s = Ok ((i + k)%nat, s1) ∧ (k ≤ n)%nat ∧
    res_foldl app_step s (rounds_events turns i k) = Ok s1 ∧
    (k < n → drained (tn_backlog (turns (i + k))) s1 = true)%nat ∧
    (∀ j s2, (j < k)%nat → res_foldl app_step s (rounds_events turns i j) = Ok s2 →
       drained (tn_backlog (turns (i + j)%nat)) s2 = false).
Proof.
  induction n as [|n IH]; intros i s s' H; cbn [drain_turns].
  { exists 0%nat, s. rewrite Nat.add_0_r. split_and!; [done..|lia|lia]. }
  destruct (drained (tn_backlog (turns i)) s) eqn:Hd.
  { exists 0%nat, s. rewrite Nat.add_0_r. split_and!; [done|lia|done..|lia]. }
  rewrite rounds_events_S, res_foldl_app, round_step in H.
  destruct (res_foldl app_step _ (tn_events (turns i))) as [s0|] eqn:E; [|done]. simpl in H.
  destruct (IH (S i) s0 s' H) as (k & s1 & E1 & Hk & E2 & Hstop & Hgo).
  exists (S k), s1. rewrite !Nat.add_succ_r, <-!Nat.add_succ_l.
  assert (∀ j, res_foldl app_step s (rounds_events turns i (S j)) = res_foldl app_step s0 (rounds_events turns (S i) j)) as Hs.
  { intros j. by rewrite rounds_events_S, res_foldl_app, round_step, E. }
  split_and!; [done|lia|by rewrite Hs|intros ?; apply Hstop; lia|].
  intros [|j] s2 Hj; [rewrite Nat.add_0_r; by intros [= <-]|]. rewrite Hs, Nat.add_succ_r, <-Nat.add_succ_l. apply Hgo. lia.
Qed.

(** ** Sessions that keep their promises go on *)
Context (m0 : MatchingEngine) (mem : nat).
Notation app_run := (app_run acfg cfg uuid_of m0 mem).

(** Each event keeps its promise in the state it meets. *)
Definition promised s (l : list (gset Z * app_event)) : Prop :=
  ∀ l1 x l2 s1, l = l1 ++ x :: l2 → res_foldl app_step s l1 = Ok s1 → event_ok s1 x.

Lemma promised_run l : ∀ es s, app_run es s → promised s l → ∃ s', res_foldl app_step s l = Ok s' ∧ app_run (es ++ l) s'.
Proof.
  induction l as [|x l IH]; intros es s Hr Hp; [exists s; by rewrite app_nil_r|].
  assert (event_ok s x) as Hx by (by apply (Hp [] x l s)). destruct (inv_run _ _ _ _ _ es s Hr) as (g & z & H).
  pose proof (inv_step acfg cfg uuid_of m0 mem True True es g z s x H) as H'.
  destruct (app_step s x) as [s1|] eqn:E; [|exfalso; by apply H'].
  destruct (IH (es ++ [x]) s1) as (s' & H1 & H2); [by eapply ar_step| |].
  - intros l1 y l2 s2 -> H2. apply (Hp (x :: l1) y l2); [done|]. simpl. by rewrite E.
  - exists s'. split; [simpl; by rewrite E|by rewrite <-app_assoc in H2].
Qed.

(** Draining returns, within its rounds, whatever arrives as long as it keeps
    its promises.  The server it leaves is one of the session continued with the
    commits and the events of the rounds taken, so what holds of sessions holds
    through shutdown; unless the deadline passed, no placement is staged and no
    report un-committed; and no round is taken that finds nothing in flight. *)
Lemma drain_bounded es s max_ms turns :
  app_run es s → promised s (commit_event :: rounds_events turns 0 (drain_rounds max_ms)) →
  ∃ k s', (k ≤ drain_rounds max_ms)%nat ∧
    drain max_ms turns s = Ok ([(kInfo, lit "shutdown: draining in-flight work"); drain_report (tn_backlog (turns k))], s') ∧
    app_run (es ++ commit_event :: rounds_events turns 0 k) s' ∧
    (k < drain_rounds max_ms → pending_placements (av_engine s') = 0 ∧ tn_backlog (turns k) = 0)%nat ∧
    (∀ j s2, (j < k)%nat → res_foldl app_step s (commit_event :: rounds_events turns 0 j) = Ok s2 →
       (0 < pending_placements (av_engine s2) ∨ 0 < tn_backlog (turns j))%nat).
Proof.
  intros Hr Hp. destruct (promised_run _ _ _ Hr Hp) as (s' & H & _).
  rewrite app_commit_first in H.
  destruct (drain_turns_ok turns _ _ _ _ H) as (k & s1 & E & Hk & Es & Hstop & Hgo).
  exists k, s1. unfold drain. rewrite E. split_and!; [done..| | |].
  - destruct (promised_run (commit_event :: rounds_events turns 0 k) es s Hr) as (s2 & E2 & H2).
    { intros l1 x l2 s2 Hl. eapply (Hp l1 x (l2 ++ rounds_events turns k (drain_rounds max_ms - k))).
      rewrite app_comm_cons, app_assoc, <-Hl. simpl. f_equal. unfold rounds_events.
      rewrite <-bind_app. f_equal. rewrite <-(seq_app k _ 0). f_equal. lia. }
    rewrite app_commit_first, Es in E2. by injection E2 as <-.
  - intros [H1 H2]%Hstop%andb_prop. by apply Nat.eqb_eq in H1, H2.
  - intros j s2 Hj E2. pose proof (Hgo j s2 Hj E2) as Hd. apply andb_false_iff in Hd as [Hd|Hd]; apply Nat.eqb_neq in Hd; simpl in Hd; lia.
Qed.

(** ** Start-up is a session *)

Lemma await_seed_ok turns n : ∀ i s s',
  res_foldl app_step s (seq i n ≫= turns) = Ok s' →
  ∃ k s1, await_seed turns n i s = Ok s1 ∧ (k ≤ n)%nat ∧ res_foldl app_step s (seq i k ≫= turns) = Ok s1 ∧
    (seeded s1 = false → k = n).
Proof.
  induction n as [|n IH]; intros i s s' H; cbn [await_seed]; [by exists 0%nat, s|].
  destruct (seeded s) eqn:Hd; [exists 0%nat, s; split_and!; [done|lia|done|congruence]|].
  cbn [seq] in H. rewrite bind_cons, res_foldl_app in H. destruct (res_foldl app_step s (turns i)) as [s0|] eqn:E; [|done].
  destruct (IH (S i) s0 s' H) as (k & s1 & E1 & Hk & E2 & Hstop). exists (S k), s1. simpl.
  split_and!; [done|lia|by rewrite res_foldl_app, E|intros ?%Hstop; lia].
Qed.

(** The wait of the start returns within its rounds and leaves a server of the
    session; unless it warns, the watermarks arrived before any listener opens. *)
Lemma start_bounded es s turns :
  app_run es s → promised s ((∅, StorageSeeds) :: (seq 0 seed_rounds ≫= turns)) →
  ∃ k s', (k ≤ seed_rounds)%nat ∧ app_run (es ++ (∅, StorageSeeds) :: (seq 0 k ≫= turns)) s' ∧
    start_seeded turns s =
      Ok (if seeded s' then [] else [(kWarn, lit "storage watermark seed did not complete; starting unseeded")], s') ∧
    (seeded s' = false → k = seed_rounds).
Proof.
  unfold start_seeded. generalize seed_rounds. intros n Hr Hp.
  destruct (promised_run _ _ _ Hr Hp) as (s' & H & _). cbn [res_foldl] in H.
  destruct (app_step s (∅, StorageSeeds)) as [s0|] eqn:E0; [|done].
  destruct (await_seed_ok turns _ _ _ _ H) as (k & s1 & E & Hk & Es & Hstop).
  exists k, s1. split_and!; [done| |cbn [mbind res_bind]; by rewrite E|done].
  destruct (promised_run ((∅, StorageSeeds) :: (seq 0 k ≫= turns)) es s Hr) as (s2 & E2 & H2).
  { intros l1 x l2 s2 Hl. eapply (Hp l1 x (l2 ++ (seq k (n - k) ≫= turns))).
    rewrite app_comm_cons, app_assoc, <-Hl. simpl. f_equal.
    rewrite <-bind_app. f_equal. rewrite <-(seq_app k _ 0). f_equal. lia. }
  cbn [res_foldl] in E2. rewrite E0 in E2. cbn [mbind res_bind] in E2. rewrite Es in E2. by injection E2 as <-.
Qed.
End Drain.

(** ** Defects *)

(** What draining a session logs, and the requests and placements it leaves. *)
Definition drain_summary (max_ms : Z) (turns : nat → turn) (x : res (AppServer sample_cache sample_cache))
    : option (list (LogLevel * bytes) * nat * nat) :=
  match (s ← x; drain sample_config sample_cfg sample_uuid max_ms turns s) with
  | Ok (lines, s) => Some (lines, length (t_waiting (av_engine s)), pending_placements (av_engine s))
  | Err _ => None
  end.

(** An order of an account whose position storage has not answered yet; its
    report is acknowledged and committed in the first round. *)
Definition staged_order : list (gset Z * app_event) :=
  [quietly (IngressArrives 1 (mkMessage 1 (lit "submit") [(lit "form", lit ("user=" ++ alice ++ "&" ++ sell)%string)]) 0)].
Definition committed_turns (i : nat) : turn :=
  match i with O => mkTurn 1 [quietly (StorageReplies 1 acked)] | _ => mkTurn 0 [] end.

(** When the deadline passes with an order still staged but no report
    un-committed, the log says that the server drained cleanly. *)
Lemma drained_cleanly_with_staged_order :
  drain_summary 5000 committed_turns (sample_app sample_cfg staged_order) =
    Some ([(kInfo, lit "shutdown: draining in-flight work"); (kInfo, lit "shutdown: drained cleanly")], 1%nat, 1%nat).
Proof. by vm_compute. Qed.

(** When the wait for the watermarks ends without them, the request is still
    outstanding, and its callback is called when the reply comes: it assigns to
    a variable of the block that [start] has left. *)
Lemma seed_answered_late :
  match (s ← sample_app sample_cfg []; start_seeded sample_config sample_cfg sample_uuid (λ _, []) s) with
  | Ok (lines, s) =>
      lines = [(kWarn, lit "storage watermark seed did not complete; starting unseeded")] ∧
      t_waiting (av_engine s) = [OnWatermarks] ∧
      match app_step sample_config sample_cfg sample_uuid s (quietly (StorageReplies 0 acked)) with
      | Ok s => seeded s = true
      | Err _ => False
      end
  | Err _ => False
  end.
Proof. by vm_compute. Qed.
